(* ===== verification/_CoqProject ===== *)
-Q . S2P
Prelude.v
Queue.v
RunQueue.v
RunQueueConc.v
Scheduler.v
SchedInv.v
SchedProps.v
Coroutine.v
System.v
Channel.v
ChannelProps.v
ChannelInv.v
ChannelOps.v
ChannelSelect.v
ChannelSched.v
ChannelSys.v
ChannelDemo.v
Timer.v
TimerProps.v
Hash.v
FutexLock.v
Group.v
Async.v
Vfs.v
Netpoll.v
Net.v
Message.v
Boot.v
NetpollPoll.v
IdleConc.v
RefCnt.v
Darwin.v
NetpollKqueue.v
Ucontext.v
Clock.v
Primes.v
Findmax.v
TimerNotify.v
Locks.v
Support.v
Names.v
Parallel.v
Spectral.v
Mandelbrot.v
Proxy.v
Public.v
IdleLink.v
