(* ===== verification/Prelude.v ===== *)
(** * LibCoroC: a verification library

    LibCoroC (src/) is a run-time system for coroutines in C.  Coroutines run on
    VPUs, one operating-system thread each; a VPU takes READY coroutines from
    its private run queues (rings that others steal from) or from the global
    queues (intrusive lists), by priority.  Coroutines block on channels, in
    selects, on timers, on the network, in groups and in asynchronous calls;
    whatever wakes them goes through [vpu_ready], whatever blocks them through
    [vpu_suspend], which releases the lock handed over once the coroutine is off
    its VPU.

    ** The model

    C code becomes functions in the state-and-error monad [ST] below: a state
    record per component, a [fault] for every way of going wrong the code has
    (null and dangling pointers, bounds, failed assertions, indeterminate
    values, a lock taken twice), and machine integers as [Z] with their
    wrap-around written out.  Pointers are names: of coroutines [coid], of
    channels, timers, requests, descriptors; objects are entries of finite maps,
    so a freed object is one that is no longer there.  Where the code relies on
    atomic operations between threads ([RunQueueConc], [IdleConc], [FutexLock],
    [Group], [Async], [Netpoll], [Darwin], [Locks]) the model is a step relation with one step per atomic
    access and the theorems hold for every interleaving; elsewhere one operation
    of a thread is one step, which the locks of the code ensure: Locks proves
    that programs made of critical sections have no runs but those in which each
    section is one step ([critical_sections_are_atomic]).  Memory is
    sequentially consistent, as the __ATOMIC_SEQ_CST operations used make it.

    ** The files

    - Prelude: integers, faults, the monad, generic lemmas and automation.
    - Queue: include/inter/coroc_queue.h.  [queue_implements_lists]: the linked
      structure implements lists under every operation.
    - RunQueue, RunQueueConc: the private run queues of src/vpu.c, one operation
      at a time and under concurrency.  [ring_is_a_fifo]: whatever the
      interleaving of the owner and the thieves and across wrap-around of the
      counters, tasks leave in the order they came, each once.
    - Scheduler, SchedInv, SchedProps: src/vpu.c: [world] has the coroutines, the
      VPUs and the manager; the operations are those of the file.
    - IdleConc: how the VPUs of src/vpu.c go to sleep and are woken, every atomic
      operation a step.  [no_wakeup_lost], [sleeping_vpus_wake]: they do not all
      sleep while there is something to run.
    - IdleLink: the two models of a wake-up and of a VPU that finds nothing to
      run agree when no other thread comes between ([scheduler_models_agree]).
    - Coroutine: src/coroutine.c and the start of the VPUs.
    - System: all of it together as events of a running system; from the booted
      state no assertion fails and every coroutine is in exactly one place
      ([scheduling_is_safe]); what a pass chooses, when a wake-up preempts, when
      a suspension releases its lock.
    - Channel: src/channel.c, include/inter/channel.h and lock_chain.h, over the
      class [SchedOps] of what channels use of the scheduler with its laws.
      ChannelProps, ChannelInv: buffers as lists, the wait queues, the invariant.
      ChannelOps, ChannelSelect: each operation, branch by branch.  ChannelSys:
      programs of any length; [buffer_is_bounded_fifo] the abstract queue they
      implement.  ChannelSched: the scheduler of src/vpu.c satisfies the laws.
      ChannelDemo: programs that run, which show that the hypotheses hold.
    - Timer, TimerProps: src/time.c: the heap, the daemon's round, add and
      delete, sleeping.  TimerNotify: the daemon that sleeps on a note, as Linux
      builds have it, and when it is woken.
    - Hash: src/hash.c.
    - FutexLock: src/futex_lock.c: refines an abstract lock, loses no wake-up.
    - Locks: include/inter/coroc_lock.h: a class of what a lock promises, with the
      futex lock and the spin lock as instances, and programs of critical
      sections over it: they are atomic and they all finish.
    - Group: src/group.c: when the parent returns, with which count, and that
      nobody uses the group then.
    - RefCnt: include/inter/refcnt.h and the macros of include/libcoroc.h that
      count references: the count of an object is the number of its references.
    - Async: src/async.c: the pool of threads; each call done once, progress.
    - Vfs: src/vfs.c: the asynchronous operations against the synchronous ones.
    - Netpoll: src/netpoll.c with src/netpoll_epoll.c: waiting coroutines,
      time-outs, references; and the loops that read and write a socket.
      It is written against a class of back ends, with epoll as one instance.
    - NetpollKqueue: src/netpoll_kqueue.c, another instance.
    - NetpollPoll: src/netpoll_poll.c: the table of the poll(2) back end.
    - Net: src/net.c: names and addresses, dial, announce, accept.
    - Message: src/message.c: the mailbox of a coroutine implements a queue.
    - Boot: src/boot.c, src/coroc_main.c, src/context.c, src/notify.c,
      src/futex_impl.c and the signal mask of include/inter/support.h.
    - Support: the rest of include/inter/support.h: the clock signal and the
      count that masks it, interrupting a VPU at any point
      ([clock_signal_safe]); the atomic operations of old compilers; the number
      of processors.
    - Names: names, attributes and the backtrace of src/coroutine.c, with the
      bytes of the name ([names_are_strings]).
    - Public: macros of include/libcoroc.h with behaviour of their own: results
      of sends and receives, the layout of a select's set.
    - Ucontext: src/darwin/ucontext.c and asm.S with the structures of
      include/inter/darwin/, for amd64, 386 and Power: the assembly runs on a
      machine of registers and memory words.  [context_resumes]: a switch
      restores what was saved; [context_starts]: a new coroutine starts at
      [bootstrap] on its stack with its address.
    - Clock: src/clock.c: the rounds of the clock thread, the profiler's counts
      and averages.
    - Darwin: the barrier of src/darwin/pthread_barrier.c, the spin lock and the
      clock of include/inter/darwin/, for any number of threads.
    - Primes, Findmax: programs of examples/C/ over channels and messages: the
      sieve prints the primes, the searches find the maximum.
    - Parallel, Spectral, Mandelbrot: programs of examples/C/ whose coroutines
      write their own part of a shared array, in every order of the writes;
      doubles are those of the Standard Library's SpecFloat.
    - Proxy: examples/C/tcpproxy.c: what the copying coroutines pass on.

    ** Parameters

    What is not in src/ is a parameter with laws: the operating system's
    sockets ([SocketLaws] in Netpoll, [NetOs] in Net), the drivers of Vfs, the
    network poller a scheduling pass calls ([polling] in Scheduler), clock and
    keys of a sleep (Boot).  The classes of Channel, Async and Netpoll state
    what a component uses of the scheduler; each has an instance.

    ** Fuel

    Loops that are not structural take fuel, and the theorems say how much
    suffices: [FUEL] of Scheduler for the retries of a ring, which succeed at the
    first pass when nothing runs in between; the length of a wait queue for
    closing a channel; the size of the heap for sifting and for the daemon's
    round; [read_fuel] for the socket loops; the number of clock readings up to
    the deadline for a sleep.  A loop that ran out would be the fault [OutOfFuel], which the
    safety theorems exclude.

    ** Faults of the code

    Some theorems and examples state behaviour the code does not mean to have,
    as it is: [select_twice_deadlocks], [hash_resize_faults], [daemon_oversleeps],
    [group_sync_leaks_lock], [vfs_async_differs], [polling_wakes_all], and
    examples in ChannelDemo, TimerProps, Hash, Message, Netpoll, NetpollKqueue,
    Net, Boot, RefCnt, Darwin, Clock, Findmax, Support, Names, Mandelbrot and
    Proxy.

    ** Not modelled

    The contexts of the C library that a Linux build uses, split stacks, and the
    routines of asm.S for ARM and MIPS, whose structures are not in the
    repository; rounding of the profiler's averages, everything that is only
    printed, and the installation of signal handlers; the macros that only name
    operations that are modelled; the race of two threads that grow the table of
    the poll back end; opening the kernel's set of descriptors for epoll and
    kqueue; code under #if 0; which coroutine of Mandelbrot gets which row.  Of the
    examples, chan.c, select.c, httpload.c, file.c, ticker.c and timeshare.c:
    they call the operations and print what these return. *)

From Stdlib Require Export ZArith Lia Bool.
From stdpp Require Export base gmap list option relations sorting.

Open Scope Z_scope.

(** ** Machine integers

    The C types of the sources are modelled by [Z]; every place where the C
    code computes at a fixed width goes through one of these wrappers. *)

Definition u8 (x : Z) : Z := x mod 2 ^ 8.
Definition u16 (x : Z) : Z := x mod 2 ^ 16.
Definition u32 (x : Z) : Z := x mod 2 ^ 32.
Definition u64 (x : Z) : Z := x mod 2 ^ 64.
Definition i32 (x : Z) : Z := (x + 2 ^ 31) mod 2 ^ 32 - 2 ^ 31.
Definition i64 (x : Z) : Z := (x + 2 ^ 63) mod 2 ^ 64 - 2 ^ 63.

(** ** Faults, results and the state-and-error monad

    A C statement either completes or goes wrong.  [fault] names the ways of
    going wrong the model distinguishes; [ST S A] is a computation over the
    state [S] that completes with a value or faults. *)

Inductive fault : Type :=
| NullDeref        (* a null pointer is dereferenced *)
| Dangling         (* a pointer to no live object is dereferenced *)
| OutOfBounds      (* an access outside the object *)
| AssertFail       (* assert() failed *)
| Uninit           (* an indeterminate value is used *)
| SelfDeadlock     (* a lock is taken by the thread that already holds it *)
| OutOfFuel.       (* the bound on a modelled loop was too small *)

#[export] Instance fault_eq_dec : EqDecision fault.
Proof. solve_decision. Defined.

Inductive res (A : Type) : Type :=
| Ok (a : A)
| Err (f : fault).
Arguments Ok {A} a.
Arguments Err {A} f.

Definition ST (S A : Type) : Type := S -> res (A * S).

Definition ret {S A} (a : A) : ST S A := fun s => Ok (a, s).
Definition throw {S A} (f : fault) : ST S A := fun _ => Err f.
Definition bind {S A B} (c : ST S A) (k : A -> ST S B) : ST S B :=
  fun s => match c s with
           | Ok (a, s') => k a s'
           | Err f => Err f
           end.
Definition get {S} : ST S S := fun s => Ok (s, s).
Definition put {S} (s : S) : ST S unit := fun _ => Ok (tt, s).
Definition modify {S} (f : S -> S) : ST S unit := fun s => Ok (tt, f s).

(** Reading a partial value: [None] is the given fault. *)
Definition demand {S A} (f : fault) (o : option A) : ST S A :=
  fun s => match o with Some a => Ok (a, s) | None => Err f end.

(** C's [assert]. *)
Definition assert_ {S} (b : bool) : ST S unit :=
  if b then ret tt else throw AssertFail.

(** Running a computation of a component inside a larger state. *)
Definition zoom {S T A} (proj : S -> T) (upd : T -> S -> S) (c : ST T A) : ST S A :=
  fun s => match c (proj s) with
           | Ok (a, t) => Ok (a, upd t s)
           | Err f => Err f
           end.

Declare Scope coroc_scope.
Delimit Scope coroc_scope with coroc.
Notation "'let!' x := c 'in' k" := (bind c (fun x => k))
  (at level 10, x name, c at level 200, k at level 200,
   format "'[v' 'let!'  x  :=  c  'in' '/' k ']'") : coroc_scope.
Notation "'let!' ' p := c 'in' k" := (bind c (fun x => match x with p => k end))
  (at level 10, p pattern, c at level 200, k at level 200) : coroc_scope.
Notation "'do!' c 'in' k" := (bind c (fun _ => k))
  (at level 10, c at level 200, k at level 200,
   format "'[v' 'do!'  c  'in' '/' k ']'") : coroc_scope.
Open Scope coroc_scope.

(** ** Automation *)

Create HintDb coroc.
Create Rewrite HintDb coroc.

Lemma bind_ok {S A B} (c : ST S A) (k : A -> ST S B) s a s' :
  c s = Ok (a, s') -> bind c k s = k a s'.
Proof. unfold bind. by intros ->. Qed.

Lemma bind_err {S A B} (c : ST S A) (k : A -> ST S B) s f :
  c s = Err f -> bind c k s = Err f.
Proof. unfold bind. by intros ->. Qed.

Lemma bind_inv {S A B} (c : ST S A) (k : A -> ST S B) s b s' :
  bind c k s = Ok (b, s') -> exists a s1, c s = Ok (a, s1) /\ k a s1 = Ok (b, s').
Proof. unfold bind. destruct (c s) as [[a s1]|]; naive_solver. Qed.

Lemma zoom_ok {S T A} (proj : S -> T) (upd : T -> S -> S) (c : ST T A) s a t :
  c (proj s) = Ok (a, t) -> zoom proj upd c s = Ok (a, upd t s).
Proof. unfold zoom. by intros ->. Qed.

(** [run_st] evaluates the leading primitive steps of a monadic program on a
    known state. *)
Ltac run_st :=
  repeat (progress (unfold bind, ret, throw, get, put, modify, demand, assert_, zoom; cbn)).

Ltac ok_inv H :=
  repeat match type of H with
  | bind _ _ _ = Ok _ =>
      let a := fresh "a" in let s := fresh "s" in let E := fresh "E" in
      apply bind_inv in H as (a & s & E & H)
  end.

(** ** Bounds of the machine integers *)

Lemma u32_small x : 0 <= x < 2 ^ 32 -> u32 x = x.
Proof. apply Z.mod_small. Qed.
Lemma u64_small x : 0 <= x < 2 ^ 64 -> u64 x = x.
Proof. apply Z.mod_small. Qed.
Lemma u32_range x : 0 <= u32 x < 2 ^ 32.
Proof. by apply Z.mod_pos_bound. Qed.
Lemma u64_range x : 0 <= u64 x < 2 ^ 64.
Proof. by apply Z.mod_pos_bound. Qed.
Lemma u32_add_l a b : u32 (u32 a + b) = u32 (a + b).
Proof. apply Zplus_mod_idemp_l. Qed.
Lemma u32_sub_l a b : u32 (u32 a - b) = u32 (a - b).
Proof. apply Zminus_mod_idemp_l. Qed.
Lemma u32_u32 a : u32 (u32 a) = u32 a.
Proof. apply Zmod_mod. Qed.
Lemma i32_small x : - 2 ^ 31 <= x < 2 ^ 31 -> i32 x = x.
Proof. intros. unfold i32. rewrite Z.mod_small; lia. Qed.
Lemma i64_small x : - 2 ^ 63 <= x < 2 ^ 63 -> i64 x = x.
Proof. intros. unfold i64. rewrite Z.mod_small; lia. Qed.
#[export] Hint Rewrite u32_small u64_small i32_small i64_small using lia : coroc.

(** ** Lists *)

Section list_lemmas.
Context {A : Type}.
Implicit Types (l : list A) (x y : A).

Lemma last_lookup_len l : last l = l !! (length l - 1)%nat.
Proof. rewrite last_lookup. f_equal. lia. Qed.

Lemma lookup_snoc_cases l x k y :
  (l ++ [x]) !! k = Some y ->
  (l !! k = Some y /\ (k < length l)%nat) \/ (k = length l /\ y = x).
Proof.
  intros H. destruct (decide (k < length l)%nat).
  - rewrite lookup_app_l in H by done. eauto.
  - rewrite lookup_app_r in H by lia.
    apply list_lookup_singleton_Some in H as [? <-]. right; split; [lia|done].
Qed.

Lemma NoDup_lookup_neq l j k x y :
  NoDup l -> l !! j = Some x -> l !! k = Some y -> j <> k -> x <> y.
Proof. intros ND Hj Hk Hne ->. by pose proof (NoDup_lookup _ _ _ _ ND Hj Hk). Qed.

(** How many elements a test holds of. *)
Fixpoint count_if (f : A -> bool) l : nat :=
  match l with
  | [] => 0
  | x :: l => (if f x then 1 else 0) + count_if f l
  end%nat.

Lemma count_if_app f l k : count_if f (l ++ k) = (count_if f l + count_if f k)%nat.
Proof. induction l as [|x l IH]; cbn; [done|]. rewrite IH. lia. Qed.

Lemma count_if_le f l : (count_if f l <= length l)%nat.
Proof. induction l as [|x l IH]; cbn; [done|]. destruct (f x); lia. Qed.

Lemma count_if_insert f l i x y : l !! i = Some x ->
  (count_if f (<[i := y]> l) + (if f x then 1 else 0) = count_if f l + (if f y then 1 else 0))%nat.
Proof.
  revert i. induction l as [|z l IH]; intros i Hi; [done|].
  destruct i as [|i]; [cbn in *; simplify_eq; lia|]. cbn in Hi. specialize (IH i Hi).
  change (<[S i := y]> (z :: l)) with (z :: <[i := y]> l). cbn [count_if]. lia.
Qed.

Lemma count_if_0 f l : count_if f l = 0%nat <-> forall x, x ∈ l -> f x = false.
Proof.
  induction l as [|z l IH]; cbn; [split; [by intros _ x ?%not_elem_of_nil|done]|].
  setoid_rewrite elem_of_cons. destruct (f z) eqn:E.
  - split; [lia|]. intros H. by rewrite H in E by auto.
  - cbn. rewrite IH. naive_solver.
Qed.

Lemma count_if_pos (f : A -> bool) l x : x ∈ l -> f x -> (0 < count_if f l)%nat.
Proof.
  intros Hx Hf. destruct (count_if f l) eqn:E; [|lia].
  by rewrite (proj1 (count_if_0 f l) E x Hx) in Hf.
Qed.

(** The sum of a weight over a list. *)
Fixpoint sumz (f : A -> Z) l : Z :=
  match l with
  | [] => 0
  | x :: l => f x + sumz f l
  end.

Lemma sumz_insert f l i x y : l !! i = Some x -> sumz f (<[i := y]> l) = sumz f l - f x + f y.
Proof.
  revert i. induction l as [|z l IH]; intros [|i] Hi; cbn in Hi; simplify_eq; [cbn; lia|].
  change (<[S i := y]> (z :: l)) with (z :: <[i := y]> l). cbn [sumz]. rewrite (IH i Hi). lia.
Qed.

Lemma sumz_app f l k : sumz f (l ++ k) = sumz f l + sumz f k.
Proof. induction l as [|z l IH]; cbn; lia. Qed.

Lemma sumz_delete f l i x : l !! i = Some x -> sumz f (delete i l) = sumz f l - f x.
Proof.
  revert i. induction l as [|z l IH]; intros [|i] Hi; cbn in Hi; simplify_eq; [cbn; lia|].
  change (delete (S i) (z :: l)) with (z :: delete i l). cbn [sumz]. rewrite (IH i Hi). lia.
Qed.

Lemma sumz_nonneg f l : (forall x, 0 <= f x) -> 0 <= sumz f l.
Proof. intros Hf. induction l as [|x l IH]; cbn; [lia|]. specialize (Hf x). lia. Qed.

Lemma sumz_replicate f n x : sumz f (replicate n x) = Z.of_nat n * f x.
Proof. induction n as [|n IH]; cbn [replicate sumz]; [lia|]. rewrite IH. lia. Qed.

Lemma sumz_bounds f l a b : (forall x, a <= f x <= b) ->
  a * Z.of_nat (length l) <= sumz f l <= b * Z.of_nat (length l).
Proof. intros Hf. induction l as [|z l IH]; cbn [sumz length]; [lia|]. specialize (Hf z). nia. Qed.

Lemma sumz_pos f l x : (forall y, 0 <= f y) -> x ∈ l -> f x <= sumz f l.
Proof.
  intros Hf Hx.
  induction l as [|z l IH]; [by apply not_elem_of_nil in Hx|].
  apply elem_of_cons in Hx as [->|Hx]; cbn;
    [pose proof (sumz_nonneg f l Hf)|specialize (Hf z); specialize (IH Hx)]; lia.
Qed.

(** Two entries at different places. *)
Lemma sumz_two f l i j x y : (forall z, 0 <= f z) -> l !! i = Some x -> l !! j = Some y -> i <> j ->
  f x + f y <= sumz f l.
Proof.
  intros Hf Hi Hj Hne. assert (exists k, delete i l !! k = Some y) as [k Hk].
  { destruct (decide (j < i)%nat); [exists j; by rewrite list_lookup_delete_lt|].
    exists (pred j). rewrite list_lookup_delete_ge by lia. by replace (S (pred j)) with j by lia. }
  pose proof (sumz_pos f _ _ Hf (list_elem_of_lookup_2 _ _ _ Hk)). rewrite (sumz_delete f _ _ _ Hi) in *. lia.
Qed.

Lemma sumz_zero f l : Forall (fun x => f x = 0) l -> sumz f l = 0.
Proof. induction 1; cbn; lia. Qed.

Lemma sumz_fmap (g : A -> A) f l : (forall x, f (g x) = f x) -> sumz f (g <$> l) = sumz f l.
Proof. intros Hg. induction l as [|x l IH]; cbn; [done|]. by rewrite Hg, IH. Qed.

Lemma sumz_exists f l : (forall y, 0 <= f y) -> 0 < sumz f l -> exists x, x ∈ l /\ 0 < f x.
Proof.
  intros Hf. induction l as [|z l IH]; cbn; [lia|]. intros Hs.
  destruct (decide (0 < f z)); [exists z; split; [left|done]|].
  destruct IH as (x & ? & ?); [specialize (Hf z); lia|]. exists x. split; [by right|done].
Qed.
End list_lemmas.
