(* ===== verification/Queue.v ===== *)
(** * The intrusive queues (include/inter/coroc_queue.h)

    A queue is a doubly linked list whose links live inside the queued
    objects.  The model keeps the two kinds of C objects the header works on,
    [queue_item_t] and [queue_t], in one store, addressed by item locations
    [L] and queue locations [Q]; a field access is a read or an update of the
    store, and it faults on a null or dangling pointer.

    [fwd_rep st q l] says that the queue at [q] reads as the list [l] through
    [head]/[next]; [dll_rep] adds the [prev] and [que] fields, which is what
    [queue_extract] relies on; [store_rep st abs] says this of all queues of
    the store at once, [abs] being the abstract state (one list per queue). *)

From S2P Require Import Prelude.

Section queue.
Context {L Q O : Type}.
Context `{EqDecision L, !Countable L, EqDecision Q, !Countable Q}.

Record queue_item_t := mk_item {
  next : option L;
  prev : option L;
  que : option Q;
  owner : option O
}.

Record queue_t := mk_queue {
  qlock : bool;
  qhead : option L;
  qtail : option L;
  qstatus : Z
}.

Record qstore := mk_qstore {
  items : gmap L queue_item_t;
  queues : gmap Q queue_t
}.

Definition set_next' (v : option L) (i : queue_item_t) := mk_item v (prev i) (que i) (owner i).
Definition set_prev' (v : option L) (i : queue_item_t) := mk_item (next i) v (que i) (owner i).
Definition set_que' (v : option Q) (i : queue_item_t) := mk_item (next i) (prev i) v (owner i).
Definition set_lock' (v : bool) (q : queue_t) := mk_queue v (qhead q) (qtail q) (qstatus q).
Definition set_head' (v : option L) (q : queue_t) := mk_queue (qlock q) v (qtail q) (qstatus q).
Definition set_tail' (v : option L) (q : queue_t) := mk_queue (qlock q) (qhead q) v (qstatus q).
Definition set_status' (v : Z) (q : queue_t) := mk_queue (qlock q) (qhead q) (qtail q) v.

(** ** Field accesses *)

Definition get_item (p : option L) : ST qstore queue_item_t :=
  fun st => match p with
            | None => Err NullDeref
            | Some i => match items st !! i with
                        | Some it => Ok (it, st)
                        | None => Err Dangling
                        end
            end.

Definition upd_item (p : option L) (f : queue_item_t -> queue_item_t) : ST qstore unit :=
  fun st => match p with
            | None => Err NullDeref
            | Some i => match items st !! i with
                        | Some it => Ok (tt, mk_qstore (<[i := f it]> (items st)) (queues st))
                        | None => Err Dangling
                        end
            end.

Definition get_queue (q : Q) : ST qstore queue_t :=
  fun st => match queues st !! q with
            | Some qu => Ok (qu, st)
            | None => Err Dangling
            end.

Definition upd_queue (q : Q) (f : queue_t -> queue_t) : ST qstore unit :=
  fun st => match queues st !! q with
            | Some qu => Ok (tt, mk_qstore (items st) (<[q := f qu]> (queues st)))
            | None => Err Dangling
            end.

(** ** The operations of the header *)

(** [queue_item_init]: the item may be fresh memory, so it is created here. *)
Definition queue_item_init (item : L) (own : option O) : ST qstore unit :=
  modify (fun st => mk_qstore (<[item := mk_item None None None own]> (items st)) (queues st)).

Definition queue_init (q : Q) : ST qstore unit :=
  modify (fun st =>
    mk_qstore (items st)
      (<[q := mk_queue (from_option qlock false (queues st !! q)) None None 0]> (queues st))).

(** The lock of a queue: taking a lock that is held does not return. *)
Definition qlock_acquire (q : Q) : ST qstore unit :=
  let! qu := get_queue q in
  if qlock qu then throw SelfDeadlock else upd_queue q (set_lock' true).

Definition qlock_try_acquire (q : Q) : ST qstore bool :=
  let! qu := get_queue q in
  if qlock qu then ret true else do! upd_queue q (set_lock' true) in ret false.

Definition qlock_release (q : Q) : ST qstore unit := upd_queue q (set_lock' false).

Definition atomic_queue_init (q : Q) : ST qstore unit :=
  do! modify (fun st => mk_qstore (items st)
       (<[q := set_lock' false (from_option id (mk_queue false None None 0) (queues st !! q))]>
          (queues st))) in
  queue_init q.

Definition atomic_queue_size (q : Q) : ST qstore Z :=
  do! qlock_acquire q in
  let! qu := get_queue q in
  do! qlock_release q in
  ret (i32 (qstatus qu)).

Definition queue_link (item1 item2 : L) : ST qstore unit :=
  do! upd_item (Some item1) (set_next' (Some item2)) in
  upd_item (Some item2) (set_prev' (Some item1)).

Definition queue_add (q : Q) (item : L) : ST qstore unit :=
  do! upd_item (Some item) (set_next' None) in
  let! qu := get_queue q in
  do! (if qstatus qu =? 0 then
         do! upd_queue q (set_head' (Some item)) in
         upd_queue q (set_tail' (Some item))
       else
         do! upd_item (qtail qu) (set_next' (Some item)) in
         do! upd_item (Some item) (set_prev' (qtail qu)) in
         upd_queue q (set_tail' (Some item))) in
  do! upd_item (Some item) (set_que' (Some q)) in
  let! qu := get_queue q in
  upd_queue q (set_status' (u32 (qstatus qu + 1))).

Definition atomic_queue_add (q : Q) (item : L) : ST qstore unit :=
  do! qlock_acquire q in
  do! queue_add q item in
  qlock_release q.

Definition queue_add_range (q : Q) (n : Z) (from to : L) : ST qstore unit :=
  let! qu := get_queue q in
  do! (if qstatus qu =? 0 then
         do! upd_queue q (set_head' (Some from)) in
         upd_queue q (set_tail' (Some to))
       else
         do! upd_item (qtail qu) (set_next' (Some from)) in
         do! upd_item (Some from) (set_prev' (qtail qu)) in
         upd_queue q (set_tail' (Some to))) in
  do! upd_item (Some from) (set_que' (Some q)) in
  do! upd_item (Some to) (set_que' (Some q)) in
  do! upd_item (Some to) (set_next' None) in
  let! qu := get_queue q in
  upd_queue q (set_status' (u32 (qstatus qu + n))).

Definition atomic_queue_add_range (q : Q) (n : Z) (from to : L) : ST qstore unit :=
  do! qlock_acquire q in
  do! queue_add_range q n from to in
  qlock_release q.

Definition queue_rem (q : Q) : ST qstore (option O) :=
  let! qu := get_queue q in
  if qstatus qu =? 0 then ret None else
  let kitem := qhead qu in
  let! k := get_item kitem in
  do! upd_queue q (set_head' (next k)) in
  do! (match next k with
       | Some _ => upd_item (next k) (set_prev' None)
       | None => upd_queue q (set_tail' None)
       end) in
  let! qu := get_queue q in
  do! upd_queue q (set_status' (u32 (qstatus qu - 1))) in
  do! upd_item kitem (set_next' None) in
  do! upd_item kitem (set_prev' None) in
  do! upd_item kitem (set_que' None) in
  let! k := get_item kitem in
  ret (owner k).

Definition atomic_queue_rem (q : Q) : ST qstore (option O) :=
  let! qu := get_queue q in
  if qstatus qu =? 0 then ret None else
  do! qlock_acquire q in
  let! own := queue_rem q in
  do! qlock_release q in
  ret own.

Definition atomic_queue_try_rem (q : Q) : ST qstore (option O) :=
  let! qu := get_queue q in
  if qstatus qu =? 0 then ret None else
  let! busy := qlock_try_acquire q in
  if (busy : bool) then ret None else
  let! own := queue_rem q in
  do! qlock_release q in
  ret own.

Definition queue_extract (q : Q) (item : L) : ST qstore unit :=
  let! it := get_item (Some item) in
  if negb (bool_decide (que it = Some q)) then ret tt else
  let! qu := get_queue q in
  do! assert_ (0 <? qstatus qu) in
  do! (match prev it with
       | Some _ => upd_item (prev it) (set_next' (next it))
       | None => upd_queue q (set_head' (next it))
       end) in
  do! (match next it with
       | Some _ => upd_item (next it) (set_prev' (prev it))
       | None => upd_queue q (set_tail' (prev it))
       end) in
  let! qu := get_queue q in
  do! upd_queue q (set_status' (u32 (qstatus qu - 1))) in
  do! upd_item (Some item) (set_next' None) in
  do! upd_item (Some item) (set_prev' None) in
  upd_item (Some item) (set_que' None).

Definition atomic_queue_extract (q : Q) (item : L) : ST qstore unit :=
  do! qlock_acquire q in
  do! queue_extract q item in
  qlock_release q.

(** [queue_walk]: the inspector is applied to the owners in order; the model
    returns the owners it is applied to.  [fuel] bounds the number of items. *)
Fixpoint walk_from (fuel : nat) (item : option L) : ST qstore (list (option O)) :=
  match item with
  | None => ret []
  | Some _ =>
      match fuel with
      | 0%nat => throw OutOfFuel
      | S fuel =>
          let! it := get_item item in
          let! rest := walk_from fuel (next it) in
          ret (owner it :: rest)
      end
  end.

Definition queue_walk (fuel : nat) (q : Q) : ST qstore (list (option O)) :=
  let! qu := get_queue q in
  if qstatus qu =? 0 then ret [] else walk_from fuel (qhead qu).

Definition atomic_queue_walk (fuel : nat) (q : Q) : ST qstore (list (option O)) :=
  let! qu := get_queue q in
  if qstatus qu =? 0 then ret [] else
  do! qlock_acquire q in
  let! os := queue_walk fuel q in
  do! qlock_release q in
  ret os.

(** ** Representation *)

Definition prev_at (l : list L) (k : nat) : option L :=
  match k with 0%nat => None | S j => l !! j end.

Record fwd_rep (st : qstore) (q : Q) (lk : bool) (l : list L) : Prop := {
  fwd_nodup : NoDup l;
  fwd_len : Z.of_nat (length l) < 2 ^ 32;
  fwd_queue : queues st !! q = Some (mk_queue lk (l !! 0%nat) (last l) (Z.of_nat (length l)));
  fwd_item : forall k x, l !! k = Some x ->
    exists it, items st !! x = Some it /\ next it = l !! S k
}.

Record dll_rep (st : qstore) (q : Q) (lk : bool) (l : list L) : Prop := {
  dll_fwd : fwd_rep st q lk l;
  dll_item : forall k x it, l !! k = Some x -> items st !! x = Some it ->
    prev it = prev_at l k /\ que it = Some q
}.

Record store_rep (st : qstore) (abs : gmap Q (list L)) : Prop := {
  sr_rep : forall q l, abs !! q = Some l -> exists lk, dll_rep st q lk l;
  sr_in : forall x it q, items st !! x = Some it -> que it = Some q ->
    exists l, abs !! q = Some l /\ x ∈ l;
  sr_out : forall x it, items st !! x = Some it -> que it = None ->
    next it = None /\ prev it = None
}.

Definition same_owners (st st' : qstore) : Prop :=
  forall x, owner <$> items st' !! x = owner <$> items st !! x.

End queue.
Arguments queue_item_t : clear implicits.
Arguments queue_t : clear implicits.
Arguments qstore _ _ _ {_ _ _ _}.

Ltac qrun :=
  repeat progress
    (unfold bind, ret, throw, modify, assert_, upd_item, get_item, upd_queue, get_queue;
     cbn; simplify_map_eq).

(** Equality of stores up to the order of their updates. *)
Ltac map_ext :=
  apply map_eq; intros ?j;
  repeat match goal with
  | |- context [<[?a := _]> _ !! ?b] => destruct (decide (a = b)); simplify_map_eq
  end; try done.
Ltac store_ext :=
  match goal with
  | |- Ok (?a, mk_qstore ?m ?n) = Ok (?a, mk_qstore ?m' ?n') =>
      replace m with m' by (symmetry; map_ext);
      replace n with n' by (symmetry; map_ext); reflexivity
  end.

Section queue_proofs.
Context {L Q O : Type}.
Context `{EqDecision L, !Countable L, EqDecision Q, !Countable Q}.
Implicit Types (st : qstore L Q O) (l : list L) (abs : gmap Q (list L)).

(** ** What each operation does to the store *)

Lemma queue_add_empty_run st q i it lk h t :
  items st !! i = Some it -> queues st !! q = Some (mk_queue lk h t 0) ->
  queue_add q i st =
    Ok (tt, mk_qstore (<[i := mk_item None (prev it) (Some q) (owner it)]> (items st))
              (<[q := mk_queue lk (Some i) (Some i) 1]> (queues st))).
Proof. intros Hi Hq. unfold queue_add. qrun. store_ext. Qed.

Lemma queue_add_run st q i it lk h t tit n :
  items st !! i = Some it -> queues st !! q = Some (mk_queue lk h (Some t) n) ->
  items st !! t = Some tit -> t <> i -> n <> 0 ->
  queue_add q i st =
    Ok (tt, mk_qstore (<[i := mk_item None (Some t) (Some q) (owner it)]>
                         (<[t := set_next' (Some i) tit]> (items st)))
              (<[q := mk_queue lk h (Some i) (u32 (n + 1))]> (queues st))).
Proof.
  intros Hi Hq Ht Hne Hn. unfold queue_add. qrun.
  destruct (Z.eqb_spec n 0); [done|]. qrun. store_ext.
Qed.

Lemma queue_rem_run st q lk h t n k :
  queues st !! q = Some (mk_queue lk (Some h) t n) -> n <> 0 ->
  items st !! h = Some k ->
  match next k with
  | None => queue_rem q st =
      Ok (owner k, mk_qstore (<[h := mk_item None None None (owner k)]> (items st))
                     (<[q := mk_queue lk None None (u32 (n - 1))]> (queues st)))
  | Some h2 => forall k2, items st !! h2 = Some k2 -> h2 <> h ->
      queue_rem q st =
      Ok (owner k, mk_qstore (<[h := mk_item None None None (owner k)]>
                                (<[h2 := set_prev' None k2]> (items st)))
                     (<[q := mk_queue lk (Some h2) t (u32 (n - 1))]> (queues st)))
  end.
Proof.
  intros Hq Hn Hh. unfold queue_rem.
  destruct (next k) as [h2|] eqn:Hnx; [intros k2 Hk2 Hne|];
    qrun; (destruct (Z.eqb_spec n 0); [done|]); qrun; rewrite ?Hnx; qrun; store_ext.
Qed.

(** ** Representation under updates *)

Lemma fwd_len_status st q lk l : fwd_rep st q lk l -> 0 <= Z.of_nat (length l) < 2 ^ 32.
Proof. intros []. lia. Qed.

Lemma dll_rep_item st q lk l k x :
  dll_rep st q lk l -> l !! k = Some x ->
  exists it, items st !! x = Some it /\ next it = l !! S k /\
             prev it = prev_at l k /\ que it = Some q.
Proof.
  intros [F D] Hk. destruct (fwd_item _ _ _ _ F _ _ Hk) as (it & Hit & ?).
  destruct (D _ _ _ Hk Hit). eauto.
Qed.

(** A queue is untouched when the queue record is kept and its items keep
    their links. *)
Lemma dll_rep_frame st st' q lk l :
  dll_rep st q lk l -> queues st' !! q = queues st !! q ->
  (forall x it, x ∈ l -> items st !! x = Some it -> que it = Some q ->
     exists it', items st' !! x = Some it' /\ next it' = next it /\
                 prev it' = prev it /\ que it' = que it) ->
  dll_rep st' q lk l.
Proof.
  intros D Hq Hi. pose proof D as [[ND Len Hqu _] _].
  assert (forall k x, l !! k = Some x -> exists it', items st' !! x = Some it' /\
     next it' = l !! S k /\ prev it' = prev_at l k /\ que it' = Some q) as HI.
  { intros k x Hk. destruct (dll_rep_item _ _ _ _ _ _ D Hk) as (it & Hit & Hn & Hp & Hqq).
    destruct (Hi x it) as (it' & ? & ? & ? & ?); [by eapply list_elem_of_lookup_2|done..|].
    exists it'. repeat split; congruence. }
  split; [split; [done|done|congruence|]|]; intros k x; [|intros it'' ]; intros Hk;
    destruct (HI _ _ Hk) as (it' & ? & ? & ? & ?); naive_solver.
Qed.

Lemma store_rep_disjoint st abs q q' l l' x :
  store_rep st abs -> abs !! q = Some l -> abs !! q' = Some l' ->
  x ∈ l -> x ∈ l' -> q = q'.
Proof.
  intros S Hq Hq' [k Hk]%list_elem_of_lookup [k' Hk']%list_elem_of_lookup.
  destruct (sr_rep _ _ S _ _ Hq) as [? D], (sr_rep _ _ S _ _ Hq') as [? D'].
  destruct (dll_rep_item _ _ _ _ _ _ D Hk) as (? & ? & ? & ? & ?).
  destruct (dll_rep_item _ _ _ _ _ _ D' Hk') as (? & ? & ? & ? & ?). congruence.
Qed.

Lemma prev_at_app_l l l' k : (k <= length l)%nat -> prev_at (l ++ l') k = prev_at l k.
Proof. destruct k; [done|]. intros. cbn. rewrite lookup_app_l by lia. done. Qed.

Lemma dll_rep_intro st q lk l :
  NoDup l -> Z.of_nat (length l) < 2 ^ 32 ->
  queues st !! q = Some (mk_queue lk (l !! 0%nat) (last l) (Z.of_nat (length l))) ->
  (forall k x, l !! k = Some x ->
     exists it, items st !! x = Some it /\ next it = l !! S k /\
                prev it = prev_at l k /\ que it = Some q) ->
  dll_rep st q lk l.
Proof.
  intros ND Len Hq HI. split; [split; [done..|]|];
    intros k x; [|intros it]; intros Hk; destruct (HI _ _ Hk) as (? & ? & ? & ? & ?);
    naive_solver.
Qed.

(** ** [queue_add] appends *)

Lemma queue_add_dll st q lk l i it :
  dll_rep st q lk l -> items st !! i = Some it -> i ∉ l -> prev it = None ->
  Z.of_nat (length l) + 1 < 2 ^ 32 ->
  exists st', queue_add q i st = Ok (tt, st') /\ dll_rep st' q lk (l ++ [i]) /\
    same_owners st st' /\
    (forall q', q' <> q -> queues st' !! q' = queues st !! q') /\
    (forall x, x ∉ l -> x <> i -> items st' !! x = items st !! x).
Proof.
  intros D Hi Hnin Hp Hlen. pose proof D as [[ND Len Hq Hit] Hd].
  assert (NoDup (l ++ [i])) as ND'.
  { apply NoDup_app; split_and!; [done| |apply NoDup_singleton].
    intros x ? ->%list_elem_of_singleton. done. }
  destruct (last l) as [t|] eqn:Hlast.
  - assert (length l <> 0%nat) by (by destruct l).
    rewrite last_lookup_len in Hlast.
    pose proof (list_elem_of_lookup_2 _ _ _ Hlast) as Htl.
    destruct (dll_rep_item _ _ _ _ _ _ D Hlast) as (tit & Ht & Htn & Htp & Htq).
    assert (t <> i) by (by intros ->).
    eexists. split_and!; [eapply queue_add_run; eauto; lia|..]; cbn.
    + apply dll_rep_intro; [done|rewrite length_app; cbn; lia|..]; cbn.
      * rewrite lookup_insert_eq, last_snoc, lookup_app_l, length_app, u32_small by (cbn; lia).
        cbn. do 2 f_equal. lia.
      * intros k x [[Hk Hkl]|[-> ->]]%lookup_snoc_cases.
        -- assert (x <> i) by (intros ->; by apply Hnin, (list_elem_of_lookup_2 _ k)).
           destruct (dll_rep_item _ _ _ _ _ _ D Hk) as (xit & Hx & Hxn & Hxp & Hxq).
           rewrite prev_at_app_l by lia.
           destruct (decide (x = t)) as [->|].
           { assert (k = length l - 1)%nat as -> by exact (NoDup_lookup _ _ _ _ ND Hk Hlast).
             rewrite lookup_app_r by lia.
             replace (S (length l - 1) - length l)%nat with 0%nat by lia.
             exists (set_next' (Some i) tit). simplify_map_eq. done. }
           assert (k <> length l - 1)%nat by (intros ->; congruence).
           exists xit. simplify_map_eq. rewrite lookup_app_l by lia. done.
        -- exists (mk_item None (Some t) (Some q) (owner it)). simplify_map_eq.
           rewrite lookup_app_r by lia. split_and!; [done| | |done].
           { by replace (S (length l) - length l)%nat with 1%nat by lia. }
           destruct (length l) as [|n] eqn:El; [done|]. cbn.
           rewrite lookup_app_l by lia. by replace (S n - 1)%nat with n in Hlast by lia.
    + intros x. cbn. destruct (decide (i = x)), (decide (t = x));
        simplify_map_eq; done.
    + intros. by simplify_map_eq.
    + intros x Hx ?. rewrite !lookup_insert_ne; [done| |done]. by intros ->.
  - apply last_None in Hlast as ->. cbn in *.
    eexists. split_and!; [eapply queue_add_empty_run; eauto|..]; cbn.
    + apply dll_rep_intro; [done|done|by simplify_map_eq|].
      intros [|k] x; cbn; intros ?; simplify_map_eq. eexists; split_and!; [done..].
    + intros x. cbn. destruct (decide (x = i)) as [->|]; by simplify_map_eq.
    + intros. by simplify_map_eq.
    + intros. by simplify_map_eq.
Qed.

(** ** [queue_rem] takes the front *)

Lemma queue_rem_empty st q lk : fwd_rep st q lk [] -> queue_rem q st = Ok (None, st).
Proof. intros [_ _ Hq _]. change (Z.of_nat (length [])) with 0 in Hq. unfold queue_rem. by qrun. Qed.

Lemma fwd_rem_step st q lk i l :
  fwd_rep st q lk (i :: l) ->
  exists it st', items st !! i = Some it /\ queue_rem q st = Ok (owner it, st') /\
    queues st' = <[q := mk_queue lk (l !! 0%nat) (last l) (Z.of_nat (length l))]> (queues st) /\
    items st' !! i = Some (mk_item None None None (owner it)) /\
    (forall x, x <> i -> l !! 0%nat <> Some x -> items st' !! x = items st !! x) /\
    (forall x xit, l !! 0%nat = Some x -> items st !! x = Some xit ->
       items st' !! x = Some (set_prev' None xit)).
Proof.
  intros [ND Len Hq Hit]. cbn in Hq, Len.
  destruct (Hit 0%nat i) as (it & Hi & Hn); [done|]. cbn in Hn.
  assert (u32 (Z.of_nat (S (length l)) - 1) = Z.of_nat (length l)) as Hst
    by (rewrite u32_small; lia).
  pose proof (queue_rem_run st q lk i (last (i :: l)) _ it Hq ltac:(lia) Hi) as R.
  rewrite Hst in R. exists it. destruct l as [|h2 l]; cbn in Hn; rewrite Hn in R.
  - eexists. split_and!; [done|exact R|..]; cbn.
    + done.
    + by simplify_map_eq.
    + intros. by simplify_map_eq.
    + done.
  - destruct (Hit 1%nat h2) as (k2 & Hk2 & _); [done|].
    assert (h2 <> i) by (intros ->; inversion ND; set_solver).
    eexists. split_and!; [done|by apply R|..]; cbn.
    + done.
    + by simplify_map_eq.
    + intros x ? Hx. rewrite !lookup_insert_ne; [done| |done]. intros ->. by apply Hx.
    + intros x xit ? ?. by simplify_map_eq.
Qed.

Lemma queue_rem_fwd st q lk i l :
  fwd_rep st q lk (i :: l) ->
  exists it st', items st !! i = Some it /\ queue_rem q st = Ok (owner it, st') /\
    fwd_rep st' q lk l /\ same_owners st st' /\
    (forall q', q' <> q -> queues st' !! q' = queues st !! q') /\
    (forall x, x ∉ i :: l -> items st' !! x = items st !! x).
Proof.
  intros F. destruct (fwd_rem_step _ _ _ _ _ F) as (it & st' & Hi & R & Hq & Hi' & Hx & Hh).
  pose proof F as [ND Len _ Hit]. apply NoDup_cons in ND as [Hnin ND].
  exists it, st'. split_and!; [done|done|..].
  - split; [done|cbn in Len; lia|by rewrite Hq, lookup_insert_eq|].
    intros k x Hk. destruct (Hit (S k) x Hk) as (xit & Hxi & Hxn).
    assert (x <> i) by (intros ->; by apply Hnin, (list_elem_of_lookup_2 _ k)).
    destruct (decide (l !! 0%nat = Some x)) as [E|].
    + eexists. split; [by apply Hh|done].
    + exists xit. by rewrite Hx.
  - intros x. destruct (decide (x = i)) as [->|]; [by simplify_map_eq|].
    destruct (decide (l !! 0%nat = Some x)) as [E|]; [|by rewrite Hx].
    destruct (Hit 1%nat x E) as (xit & Hxi & _). by rewrite (Hh x xit), Hxi.
  - intros. by rewrite Hq, lookup_insert_ne.
  - intros x [? ?]%not_elem_of_cons. apply Hx; [done|].
    intros E. by apply list_elem_of_lookup_2 in E.
Qed.

Lemma queue_rem_dll st q lk i l :
  dll_rep st q lk (i :: l) ->
  exists it st', items st !! i = Some it /\ queue_rem q st = Ok (owner it, st') /\
    dll_rep st' q lk l /\ same_owners st st' /\
    items st' !! i = Some (mk_item None None None (owner it)) /\
    (forall q', q' <> q -> queues st' !! q' = queues st !! q') /\
    (forall x, x ∉ i :: l -> items st' !! x = items st !! x).
Proof.
  intros D. pose proof D as [F _].
  destruct (fwd_rem_step _ _ _ _ _ F) as (it & st' & Hi & R & Hq & Hi' & Hx & Hh).
  destruct (queue_rem_fwd _ _ _ _ _ F) as (it2 & st2 & Hi2 & R2 & F2 & Ho & Hq2 & Hx2).
  rewrite R in R2. assert (it2 = it) as -> by congruence.
  assert (st2 = st') as -> by congruence. exists it, st'. split_and!; try done.
  split; [done|]. intros k x xit' Hk Hxit'.
  destruct (dll_rep_item _ _ _ _ (S k) _ D Hk) as (xit & Hxi & Hxn & Hxp & Hxq).
  pose proof (fwd_nodup _ _ _ _ F) as [Hnin ND]%NoDup_cons.
  assert (x <> i) by (intros ->; by apply Hnin, (list_elem_of_lookup_2 _ k)).
  destruct (decide (l !! 0%nat = Some x)) as [E|E].
  - rewrite (Hh x xit E Hxi) in Hxit'. simplify_eq.
    by rewrite (NoDup_lookup _ _ _ _ ND Hk E).
  - rewrite Hx in Hxit' by done. simplify_eq. split; [|done].
    destruct k; [done|]. done.
Qed.

(** ** [queue_extract] removes from the middle *)

Lemma queue_extract_other st q i it :
  items st !! i = Some it -> que it <> Some q -> queue_extract q i st = Ok (tt, st).
Proof.
  intros Hi Hq. unfold queue_extract. qrun.
  rewrite bool_decide_eq_false_2 by done. done.
Qed.

Lemma queue_extract_run st q i it lk h t n :
  items st !! i = Some it -> que it = Some q ->
  queues st !! q = Some (mk_queue lk h t n) -> 0 < n ->
  (forall a, prev it = Some a -> a <> i /\ is_Some (items st !! a)) ->
  (forall b, next it = Some b -> b <> i /\ is_Some (items st !! b) /\ prev it <> Some b) ->
  exists st', queue_extract q i st = Ok (tt, st') /\
    queues st' = <[q := mk_queue lk (match prev it with None => next it | _ => h end)
                                   (match next it with None => prev it | _ => t end)
                                   (u32 (n - 1))]> (queues st) /\
    items st' !! i = Some (mk_item None None None (owner it)) /\
    (forall x, x <> i -> items st' !! x =
       (fun xi => mk_item (if bool_decide (prev it = Some x) then next it else next xi)
                          (if bool_decide (next it = Some x) then prev it else prev xi)
                          (que xi) (owner xi)) <$> items st !! x).
Proof.
  intros Hi Hqi Hq Hn Hp Hx. unfold queue_extract. qrun.
  rewrite bool_decide_eq_true_2 by done. qrun.
  destruct (Z.ltb_spec 0 n); [|lia]. qrun.
  destruct (prev it) as [a|] eqn:Ep; destruct (next it) as [b|] eqn:En;
    try (destruct (Hp a) as [? [[] Ha]]; [done|]);
    try (destruct (Hx b) as (? & [[] Hb] & ?); [done|]);
    try assert (a <> b) by congruence; qrun;
    (eexists; split_and!; [reflexivity|..]; cbn; [map_ext|by simplify_map_eq|]);
    intros x ?; repeat case_bool_decide; simplify_map_eq; try done;
    rewrite ?lookup_insert_ne by congruence; by destruct (items st !! x) as [[]|].
Qed.

Lemma prev_at_length l1 l2 : prev_at (l1 ++ l2) (length l1) = last l1.
Proof.
  rewrite last_lookup_len. destruct l1 as [|y l1]; [done|].
  cbn -[lookup]. rewrite Nat.sub_0_r. change (y :: l1 ++ l2) with ((y :: l1) ++ l2).
  rewrite lookup_app_l by (cbn; lia). done.
Qed.

Lemma NoDup_mid l1 (i : L) l2 :
  NoDup (l1 ++ i :: l2) ->
  NoDup (l1 ++ l2) /\ NoDup l1 /\ NoDup l2 /\ (i ∉ l1) /\ (i ∉ l2) /\
  (forall x, x ∈ l1 -> x ∈ l2 -> False).
Proof.
  intros (ND1 & Hdis & [Hi2 ND2]%NoDup_cons)%NoDup_app.
  split_and!; try done.
  - apply NoDup_app; split_and!; [done| |done]. intros x ? ?. by eapply Hdis; [done|right].
  - intros ?. by eapply Hdis; [done|left].
  - intros x ? ?. by eapply Hdis; [done|right].
Qed.

(** Relinking the neighbours of [i] turns the links of [l1 ++ i :: l2] into
    those of [l1 ++ l2]. *)
Lemma relink_next_prev l1 i l2 j x :
  NoDup (l1 ++ i :: l2) -> (l1 ++ l2) !! j = Some x ->
  exists j', (l1 ++ i :: l2) !! j' = Some x /\
    (if bool_decide (last l1 = Some x) then l2 !! 0%nat else (l1 ++ i :: l2) !! S j')
      = (l1 ++ l2) !! S j /\
    (if bool_decide (l2 !! 0%nat = Some x) then last l1 else prev_at (l1 ++ i :: l2) j')
      = prev_at (l1 ++ l2) j.
Proof.
  intros (_ & ND1 & ND2 & _ & _ & Hdis)%NoDup_mid Hj.
  destruct (decide (j < length l1)%nat) as [Hlt|Hge].
  - exists j. rewrite lookup_app_l in Hj by done. rewrite lookup_app_l by done.
    rewrite (bool_decide_eq_false_2 (l2 !! 0%nat = Some x)), !prev_at_app_l by
      (lia || (intros ?%list_elem_of_lookup_2; by apply (Hdis x (list_elem_of_lookup_2 _ _ _ Hj)))).
    split_and!; [done| |done].
    rewrite last_lookup_len. case_bool_decide as E.
    + pose proof (NoDup_lookup _ _ _ _ ND1 E Hj) as <-.
      rewrite lookup_app_r by lia. f_equal. lia.
    + assert (j <> length l1 - 1)%nat by congruence. by rewrite !lookup_app_l by lia.
  - exists (S j). rewrite lookup_app_r in Hj by lia. rewrite !lookup_app_r by lia.
    replace (S j - length l1)%nat with (S (j - length l1)) by lia.
    replace (S (S j) - length l1)%nat with (S (S (j - length l1))) by lia.
    rewrite (bool_decide_eq_false_2 (last l1 = Some x))
      by (intros ?%last_Some_elem_of; by apply (Hdis x ltac:(done) (list_elem_of_lookup_2 _ _ _ Hj))).
    split_and!; [done|done|]. case_bool_decide as E.
    + pose proof (NoDup_lookup _ _ _ _ ND2 E Hj). replace j with (length l1) by lia.
      symmetry. apply prev_at_length.
    + assert (j <> length l1)%nat by (intros ->; by rewrite Nat.sub_diag in Hj).
      destruct j as [|j]; [lia|]. cbn. rewrite !lookup_app_r by lia.
      by replace (S j - length l1)%nat with (S (j - length l1)) by lia.
Qed.

Lemma queue_extract_dll st q lk l1 i l2 :
  dll_rep st q lk (l1 ++ i :: l2) ->
  exists it st', items st !! i = Some it /\ queue_extract q i st = Ok (tt, st') /\
    dll_rep st' q lk (l1 ++ l2) /\ same_owners st st' /\
    items st' !! i = Some (mk_item None None None (owner it)) /\
    (forall q', q' <> q -> queues st' !! q' = queues st !! q') /\
    (forall x, x ∉ l1 ++ i :: l2 -> items st' !! x = items st !! x).
Proof.
  intros D. pose proof D as [[ND Len Hq _] _].
  destruct (NoDup_mid _ _ _ ND) as (ND12 & _ & _ & Hi1 & Hi2 & Hdis).
  destruct (dll_rep_item _ _ _ _ (length l1) i D) as (it & Hi & Hn & Hp & Hqi);
    [by apply list_lookup_middle|].
  rewrite lookup_app_r in Hn by lia.
  replace (S (length l1) - length l1)%nat with 1%nat in Hn by lia. cbn in Hn.
  rewrite prev_at_length in Hp.
  assert (forall x, x ∈ l1 ++ i :: l2 -> is_Some (items st !! x)) as Hin.
  { intros x [j Hj]%list_elem_of_lookup.
    destruct (dll_rep_item _ _ _ _ _ _ D Hj) as (? & ? & ?). eauto. }
  assert (forall a, last l1 = Some a -> a ∈ l1) as Hl1 by (intros a; apply last_Some_elem_of).
  assert (forall b, l2 !! 0%nat = Some b -> b ∈ l2) as Hl2
    by (intros b; apply list_elem_of_lookup_2).
  destruct (queue_extract_run st q i it lk _ _ _ Hi Hqi Hq) as (st' & R & Hq' & Hi' & Hx');
    [rewrite length_app; cbn; lia|rewrite ?Hp, ?Hn..|].
  { intros a Ha%Hl1. split; [by intros ->|apply Hin; set_solver]. }
  { intros b Hb%Hl2. split_and!; [by intros -> |apply Hin; set_solver|naive_solver]. }
  exists it, st'. rewrite Hn, Hp in *. split_and!; [done|done| | |done| |].
  - apply dll_rep_intro; [done|rewrite length_app in *; cbn in *; lia|..].
    + rewrite Hq', lookup_insert_eq, u32_small by (rewrite length_app in *; cbn in *; lia).
      do 2 f_equal; [..|rewrite !length_app; cbn; lia].
      * destruct l1 as [|y l1']; [done|].
        destruct (last (y :: l1')) eqn:E; [done|]. by apply last_None in E.
      * destruct l2 as [|z l2']; cbn; [by rewrite app_nil_r|].
        by rewrite !last_app_cons, last_cons_cons.
    + intros j x Hj. destruct (relink_next_prev _ _ _ _ _ ND Hj) as (j' & Hj' & <- & <-).
      destruct (dll_rep_item _ _ _ _ _ _ D Hj') as (xi & Hxi & <- & <- & Hxq).
      rewrite Hx', Hxi by (intros ->; apply list_elem_of_lookup_2 in Hj; set_solver).
      eexists. split_and!; done.
  - intros x. destruct (decide (x = i)) as [->|]; [by rewrite Hi', Hi|].
    rewrite Hx' by done. by destruct (items st !! x).
  - intros. by rewrite Hq', lookup_insert_ne.
  - intros x Hx. rewrite Hx' by set_solver.
    rewrite !bool_decide_eq_false_2; [by destruct (items st !! x) as [[]|]|set_solver..].
Qed.

(** ** [queue_add_range] appends a linked chain *)

Lemma queue_add_range_run st q lk h t n m a b ai bi :
  queues st !! q = Some (mk_queue lk h t n) ->
  items st !! a = Some ai -> items st !! b = Some bi ->
  (n <> 0 -> exists tl ti, t = Some tl /\ items st !! tl = Some ti /\ tl <> a /\ tl <> b) ->
  exists st', queue_add_range q m a b st = Ok (tt, st') /\
    queues st' = <[q := mk_queue lk (if n =? 0 then Some a else h) (Some b) (u32 (n + m))]> (queues st) /\
    (forall x, items st' !! x =
       (fun xi => mk_item (if bool_decide (x = b) then None
                           else if negb (n =? 0) && bool_decide (t = Some x) then Some a else next xi)
                          (if negb (n =? 0) && bool_decide (x = a) then t else prev xi)
                          (if bool_decide (x = a) || bool_decide (x = b) then Some q else que xi)
                          (owner xi)) <$> items st !! x).
Proof.
  intros Hq Ha Hb Ht. unfold queue_add_range. qrun.
  destruct (Z.eqb_spec n 0) as [->|Hn].
  - destruct (decide (a = b)) as [->|]; qrun;
      (eexists; split_and!; [reflexivity|map_ext|]); cbn; intros x;
      repeat case_bool_decide; cbn; simplify_map_eq; try done;
      rewrite ?lookup_insert_ne by congruence; by destruct (items st !! x) as [[]|].
  - destruct (Ht Hn) as (tl & [] & -> & Htl & ? & ?).
    destruct (decide (a = b)) as [->|]; qrun;
      (eexists; split_and!; [reflexivity|map_ext|]); cbn; intros x;
      repeat case_bool_decide; cbn; simplify_map_eq; try done;
      rewrite ?lookup_insert_ne by congruence; by destruct (items st !! x) as [[]|].
Qed.

Lemma queue_add_range_fwd st q lk l xs a b :
  fwd_rep st q lk l -> NoDup (l ++ xs) -> xs !! 0%nat = Some a -> last xs = Some b ->
  Z.of_nat (length (l ++ xs)) < 2 ^ 32 ->
  (forall k x, xs !! k = Some x -> exists it, items st !! x = Some it /\
     ((S k < length xs)%nat -> next it = xs !! S k)) ->
  exists st', queue_add_range q (Z.of_nat (length xs)) a b st = Ok (tt, st') /\
    fwd_rep st' q lk (l ++ xs) /\ same_owners st st' /\
    (forall q', q' <> q -> queues st' !! q' = queues st !! q') /\
    (forall x, x ∉ l ++ xs -> items st' !! x = items st !! x).
Proof.
  intros [_ _ Hq Hit] ND Ha Hb Len Hxs. rewrite last_lookup_len in Hb.
  pose proof (Hxs _ _ Ha) as (ai & Hai & _). pose proof (Hxs _ _ Hb) as (bi & Hbi & _).
  pose proof ND as (NDl & Hdis & NDx)%NoDup_app. rewrite length_app in Len.
  assert (forall x, last l = Some x -> x ∈ l) as Hlast by (intros x; apply last_Some_elem_of).
  pose proof (list_elem_of_lookup_2 _ _ _ Ha) as Hax.
  pose proof (list_elem_of_lookup_2 _ _ _ Hb) as Hbx.
  destruct (queue_add_range_run st q lk _ _ _ (Z.of_nat (length xs)) a b ai bi Hq Hai Hbi)
    as (st' & R & Hq' & Hi').
  { intros Hn. destruct (last l) as [t|] eqn:El; [|by apply last_None in El as ->].
    destruct (proj1 (list_elem_of_lookup _ _) (Hlast _ eq_refl)) as [k Hk].
    destruct (Hit _ _ Hk) as (ti & ? & _). exists t, ti.
    split_and!; [done|done|intros ->; eapply Hdis; [by apply Hlast|done]..]. }
  exists st'. split_and!; [done|split; [done|..]|..].
  - rewrite length_app. lia.
  - rewrite Hq', lookup_insert_eq, length_app, u32_small by lia.
    do 2 f_equal; [destruct l; [symmetry; exact Ha|done]| |lia].
    rewrite last_app, last_lookup_len, Hb. done.
  - intros k x Hk. rewrite Hi'. apply lookup_app_Some in Hk as [Hk|[Hkl Hk]].
    + pose proof (list_elem_of_lookup_2 _ _ _ Hk) as Hxl.
      pose proof (lookup_lt_Some _ _ _ Hk). destruct (Hit _ _ Hk) as (it & -> & Hn).
      eexists; split; [done|]. cbn. rewrite bool_decide_eq_false_2 by (intros ->; by eapply Hdis).
      destruct (Z.eqb_spec (Z.of_nat (length l)) 0); [lia|]. cbn. case_bool_decide as E.
      * rewrite last_lookup_len in E. pose proof (NoDup_lookup _ _ _ _ NDl E Hk) as <-.
        rewrite lookup_app_r, <- Ha by lia. f_equal. lia.
      * rewrite Hn. destruct (decide (S k < length l)%nat); [by rewrite lookup_app_l|].
        destruct E. rewrite last_lookup_len, <- Hk. f_equal. lia.
    + destruct (Hxs _ _ Hk) as (it & -> & Hn). eexists; split; [done|]. cbn.
      rewrite lookup_app_r by lia. replace (S k - length l)%nat with (S (k - length l)) by lia.
      case_bool_decide as E.
      { subst. pose proof (NoDup_lookup _ _ _ _ NDx Hb Hk) as <-.
        symmetry. apply lookup_ge_None_2. lia. }
      rewrite (bool_decide_eq_false_2 (last l = Some x)), andb_false_r by
        (intros ?%Hlast; eapply Hdis; [done|by eapply list_elem_of_lookup_2]).
      apply Hn. pose proof (lookup_lt_Some _ _ _ Hk).
      assert (k - length l <> length xs - 1)%nat by congruence. lia.
  - intros x. rewrite Hi'. by destruct (items st !! x).
  - intros. by rewrite Hq', lookup_insert_ne.
  - intros x [Hx1 Hx2]%not_elem_of_app. rewrite Hi', !bool_decide_eq_false_2, andb_false_r;
      [by destruct (items st !! x) as [[]|]|..]; try (by intros ->). by intros ?%Hlast.
Qed.

(** ** Appending one item, reading the queue through [next] only *)

Lemma queue_add_links st q lk h t n i it :
  items st !! i = Some it -> queues st !! q = Some (mk_queue lk h t n) ->
  (n <> 0 -> exists tl ti, t = Some tl /\ items st !! tl = Some ti /\ tl <> i) ->
  exists st', queue_add q i st = Ok (tt, st') /\
    queues st' = <[q := mk_queue lk (if n =? 0 then Some i else h) (Some i) (u32 (n + 1))]> (queues st) /\
    (forall x, items st' !! x =
       (fun xi => mk_item (if bool_decide (x = i) then None
                           else if negb (n =? 0) && bool_decide (t = Some x) then Some i else next xi)
                          (if negb (n =? 0) && bool_decide (x = i) then t else prev xi)
                          (if bool_decide (x = i) then Some q else que xi)
                          (owner xi)) <$> items st !! x).
Proof.
  intros Hi Hq Ht. destruct (Z.eqb_spec n 0) as [->|Hn].
  - eexists. split_and!; [by eapply queue_add_empty_run|done|]. cbn. intros x.
    case_bool_decide; simplify_map_eq; [done|].
    rewrite ?lookup_insert_ne by congruence. by destruct (items st !! x) as [[]|].
  - destruct (Ht Hn) as (tl & ti & -> & Htl & ?).
    eexists. split_and!; [by eapply queue_add_run|done|]. cbn. intros x.
    repeat case_bool_decide; simplify_map_eq; try done;
      rewrite ?lookup_insert_ne by congruence; by destruct (items st !! x) as [[]|].
Qed.

Lemma queue_add_fwd st q lk l i it :
  fwd_rep st q lk l -> items st !! i = Some it -> i ∉ l ->
  Z.of_nat (length l) + 1 < 2 ^ 32 ->
  exists st', queue_add q i st = Ok (tt, st') /\ fwd_rep st' q lk (l ++ [i]) /\
    same_owners st st' /\
    (forall q', q' <> q -> queues st' !! q' = queues st !! q') /\
    (forall x, x ∉ l ++ [i] -> items st' !! x = items st !! x).
Proof.
  intros [ND Len Hq Hit] Hi Hnin Hlen.
  assert (forall x, last l = Some x -> x ∈ l) as Hlast by (intros x; apply last_Some_elem_of).
  destruct (queue_add_links st q lk _ _ _ i it Hi Hq) as (st' & R & Hq' & Hi').
  { intros Hn. destruct (last l) as [t|] eqn:El; [|by apply last_None in El as ->].
    destruct (proj1 (list_elem_of_lookup _ _) (Hlast _ eq_refl)) as [k Hk].
    destruct (Hit _ _ Hk) as (ti & ? & _). exists t, ti.
    split_and!; [done|done|intros ->; by apply Hnin, Hlast]. }
  exists st'. split_and!; [done|split|..].
  - apply NoDup_app; split_and!; [done| |apply NoDup_singleton].
    intros x ? ->%list_elem_of_singleton. done.
  - rewrite length_app. cbn. lia.
  - rewrite Hq', lookup_insert_eq, last_snoc, length_app, u32_small by lia.
    destruct l; cbn; [done|]. do 2 f_equal. lia.
  - intros k x [[Hk Hkl]|[-> ->]]%lookup_snoc_cases; rewrite Hi'.
    + destruct (Hit _ _ Hk) as (xi & -> & Hn). eexists; split; [done|]. cbn.
      pose proof (list_elem_of_lookup_2 _ _ _ Hk).
      rewrite bool_decide_eq_false_2 by (by intros ->).
      destruct (Z.eqb_spec (Z.of_nat (length l)) 0); [lia|]. cbn.
      rewrite last_lookup_len. case_bool_decide as E.
      * pose proof (NoDup_lookup _ _ _ _ ND E Hk) as <-. rewrite lookup_app_r by lia.
        by replace (S (length l - 1) - length l)%nat with 0%nat by lia.
      * rewrite Hn. assert (k <> length l - 1)%nat by (by intros ->).
        by rewrite lookup_app_l by lia.
    + rewrite Hi. eexists; split; [done|]. cbn. rewrite bool_decide_eq_true_2 by done.
      symmetry. apply lookup_ge_None_2. rewrite length_app. cbn. lia.
  - intros x. rewrite Hi'. by destruct (items st !! x).
  - intros. by rewrite Hq', lookup_insert_ne.
  - intros x [? Hx]%not_elem_of_app. apply not_elem_of_cons in Hx as [? _].
    rewrite Hi', (bool_decide_eq_false_2 (x = i)), (bool_decide_eq_false_2 (last l = Some x)),
      !andb_false_r by (done || by intros ?%Hlast). by destruct (items st !! x) as [[]|].
Qed.

(** ** The locked variants, entered with the lock free *)

Lemma fwd_rep_relock st q lk lk' l :
  fwd_rep st q lk l ->
  upd_queue q (set_lock' lk') st =
    Ok (tt, mk_qstore (items st) (<[q := mk_queue lk' (l !! 0%nat) (last l) (Z.of_nat (length l))]> (queues st))) /\
  fwd_rep (mk_qstore (items st) (<[q := mk_queue lk' (l !! 0%nat) (last l) (Z.of_nat (length l))]> (queues st))) q lk' l.
Proof.
  intros [ND Len Hq Hit]. unfold upd_queue. rewrite Hq. split; [done|].
  split; cbn; [done..|by simplify_map_eq|done].
Qed.

(** An operation that keeps the lock bit, run between acquire and release. *)
Lemma locked_section st q l (op : ST (qstore L Q O) unit) l' (X : list L) :
  fwd_rep st q false l ->
  (forall st1, fwd_rep st1 q true l -> items st1 = items st ->
     exists st2, op st1 = Ok (tt, st2) /\ fwd_rep st2 q true l' /\ same_owners st1 st2 /\
       (forall q', q' <> q -> queues st2 !! q' = queues st1 !! q') /\
       (forall x, x ∉ X -> items st2 !! x = items st1 !! x)) ->
  exists st', (do! qlock_acquire q in do! op in qlock_release q) st = Ok (tt, st') /\
    fwd_rep st' q false l' /\ same_owners st st' /\
    (forall q', q' <> q -> queues st' !! q' = queues st !! q') /\
    (forall x, x ∉ X -> items st' !! x = items st !! x).
Proof.
  intros F Hop. destruct (fwd_rep_relock _ _ _ true _ F) as [E1 F1].
  assert (qlock_acquire q st = Ok (tt, mk_qstore (items st) (<[q := mk_queue true (l !! 0%nat) (last l) (Z.of_nat (length l))]> (queues st)))) as A.
  { unfold qlock_acquire, bind at 1, get_queue. rewrite (fwd_queue _ _ _ _ F). exact E1. }
  destruct (Hop _ F1 eq_refl) as (st2 & R & F2 & Ho & Hqs & Hxs).
  destruct (fwd_rep_relock _ _ _ false _ F2) as [E3 F3].
  eexists. rewrite (bind_ok _ _ _ _ _ A), (bind_ok _ _ _ _ _ R).
  split_and!; [exact E3|exact F3|exact Ho|..]; cbn.
  - intros q' ?. rewrite lookup_insert_ne, Hqs by done. cbn. by rewrite lookup_insert_ne.
  - intros. by rewrite Hxs.
Qed.

(** The same for a queue whose back links are kept too. *)
Lemma dll_rep_relock st q lk lk' l :
  dll_rep st q lk l ->
  dll_rep (mk_qstore (items st) (<[q := mk_queue lk' (l !! 0%nat) (last l) (Z.of_nat (length l))]> (queues st))) q lk' l.
Proof. intros [F Hd]. split; [by eapply fwd_rep_relock|done]. Qed.

Lemma locked_section_dll st q l (op : ST (qstore L Q O) unit) l' (X : list L) :
  dll_rep st q false l ->
  (forall st1, dll_rep st1 q true l -> items st1 = items st ->
     exists st2, op st1 = Ok (tt, st2) /\ dll_rep st2 q true l' /\ same_owners st1 st2 /\
       (forall q', q' <> q -> queues st2 !! q' = queues st1 !! q') /\
       (forall x, x ∉ X -> items st2 !! x = items st1 !! x)) ->
  exists st', (do! qlock_acquire q in do! op in qlock_release q) st = Ok (tt, st') /\
    dll_rep st' q false l' /\ same_owners st st' /\
    (forall q', q' <> q -> queues st' !! q' = queues st !! q') /\
    (forall x, x ∉ X -> items st' !! x = items st !! x).
Proof.
  intros D Hop. destruct (fwd_rep_relock _ _ _ true _ (dll_fwd _ _ _ _ D)) as [E1 _].
  pose proof (dll_rep_relock _ _ _ true _ D) as D1. set (st1 := mk_qstore _ _) in *.
  assert (qlock_acquire q st = Ok (tt, st1)) as A.
  { unfold qlock_acquire, bind at 1, get_queue.
    rewrite (fwd_queue _ _ _ _ (dll_fwd _ _ _ _ D)). exact E1. }
  destruct (Hop _ D1 eq_refl) as (st2 & R & D2 & Ho & Hqs & Hxs).
  destruct (fwd_rep_relock _ _ _ false _ (dll_fwd _ _ _ _ D2)) as [E3 _].
  eexists. rewrite (bind_ok _ _ _ _ _ A), (bind_ok _ _ _ _ _ R).
  split_and!; [exact E3|by eapply dll_rep_relock|exact Ho|..]; cbn.
  - intros q' ?. rewrite lookup_insert_ne, Hqs by done. cbn. by rewrite lookup_insert_ne.
  - intros. by rewrite Hxs.
Qed.

Lemma atomic_queue_add_dll st q l i it :
  dll_rep st q false l -> items st !! i = Some it -> i ∉ l -> prev it = None ->
  Z.of_nat (length l) + 1 < 2 ^ 32 ->
  exists st', atomic_queue_add q i st = Ok (tt, st') /\ dll_rep st' q false (l ++ [i]) /\
    same_owners st st' /\
    (forall q', q' <> q -> queues st' !! q' = queues st !! q') /\
    (forall x, x ∉ l ++ [i] -> items st' !! x = items st !! x).
Proof.
  intros D Hi ? ? ?. eapply (locked_section_dll _ _ _ (queue_add q i)); [done|].
  intros st1 D1 E.
  destruct (queue_add_dll st1 q true l i it) as (st2 & ? & ? & ? & ? & Hx); [done|by rewrite E|done..|].
  exists st2. split_and!; try done. intros x Hx'. apply Hx; set_solver.
Qed.

Lemma atomic_queue_extract_dll st q l1 i l2 :
  dll_rep st q false (l1 ++ i :: l2) ->
  exists st', atomic_queue_extract q i st = Ok (tt, st') /\ dll_rep st' q false (l1 ++ l2) /\
    same_owners st st' /\
    (forall q', q' <> q -> queues st' !! q' = queues st !! q') /\
    (forall x, x ∉ l1 ++ i :: l2 -> items st' !! x = items st !! x).
Proof.
  intros D. eapply (locked_section_dll _ _ _ (queue_extract q i)); [done|].
  intros st1 D1 E.
  destruct (queue_extract_dll _ _ _ _ _ _ D1) as (it & st2 & _ & ? & ? & ? & _ & ? & ?).
  by exists st2.
Qed.

Lemma atomic_queue_add_fwd st q l i it :
  fwd_rep st q false l -> items st !! i = Some it -> i ∉ l ->
  Z.of_nat (length l) + 1 < 2 ^ 32 ->
  exists st', atomic_queue_add q i st = Ok (tt, st') /\ fwd_rep st' q false (l ++ [i]) /\
    same_owners st st' /\
    (forall q', q' <> q -> queues st' !! q' = queues st !! q') /\
    (forall x, x ∉ l ++ [i] -> items st' !! x = items st !! x).
Proof.
  intros F Hi ? ?. eapply (locked_section _ _ _ (queue_add q i)); [done|].
  intros st1 F1 E. eapply queue_add_fwd; [done|by rewrite E|done|done].
Qed.

Lemma atomic_queue_add_range_fwd st q l xs a b :
  fwd_rep st q false l -> NoDup (l ++ xs) -> xs !! 0%nat = Some a -> last xs = Some b ->
  Z.of_nat (length (l ++ xs)) < 2 ^ 32 ->
  (forall k x, xs !! k = Some x -> exists it, items st !! x = Some it /\
     ((S k < length xs)%nat -> next it = xs !! S k)) ->
  exists st', atomic_queue_add_range q (Z.of_nat (length xs)) a b st = Ok (tt, st') /\
    fwd_rep st' q false (l ++ xs) /\ same_owners st st' /\
    (forall q', q' <> q -> queues st' !! q' = queues st !! q') /\
    (forall x, x ∉ l ++ xs -> items st' !! x = items st !! x).
Proof.
  intros F ? ? ? ? H. eapply (locked_section _ _ _ (queue_add_range q (Z.of_nat (length xs)) a b)); [done|].
  intros st1 F1 E. apply queue_add_range_fwd; [done..|]. by rewrite E.
Qed.

(** ** The store as a whole refines one list per queue *)

Lemma store_rep_item st abs q l x :
  store_rep st abs -> abs !! q = Some l -> x ∈ l ->
  exists it, items st !! x = Some it /\ que it = Some q.
Proof.
  intros S Hq [k Hk]%list_elem_of_lookup. destruct (sr_rep _ _ S _ _ Hq) as [? D].
  destruct (dll_rep_item _ _ _ _ _ _ D Hk) as (it & ? & ? & ? & ?). eauto.
Qed.

(** Replacing the list of one queue, the other queues keeping their items. *)
Lemma store_rep_update st st' abs q lk l l' :
  store_rep st abs -> abs !! q = Some l -> dll_rep st' q lk l' ->
  (forall q', q' <> q -> queues st' !! q' = queues st !! q') ->
  (forall x, x ∉ l -> x ∉ l' -> items st' !! x = items st !! x) ->
  (forall x, x ∈ l' -> x ∉ l -> exists it, items st !! x = Some it /\ que it = None) ->
  (forall x it, x ∈ l -> x ∉ l' -> items st' !! x = Some it ->
     next it = None /\ prev it = None /\ que it = None) ->
  store_rep st' (<[q := l']> abs).
Proof.
  intros S Hq D Hqs Hout Hnew Hgone. split.
  - intros q' k'. destruct (decide (q = q')) as [<-|Hne]; intros ?; simplify_map_eq; [eauto|].
    destruct (sr_rep _ _ S q' k') as [lk' D']; [done|]. exists lk'.
    apply (dll_rep_frame st); [done|by apply Hqs|].
    intros x it Hx Hit Hqx. exists it. rewrite Hout; [done|..].
    + intros ?. by apply Hne, (store_rep_disjoint st abs q q' l k' x).
    + intros Hx'. assert (x ∉ l) as Hxl
        by (intros ?; by apply Hne, (store_rep_disjoint st abs q q' l k' x)).
      destruct (Hnew x Hx' Hxl) as (? & ? & ?). congruence.
  - intros x it q' Hit Hqi. destruct (decide (x ∈ l')) as [Hx|Hx].
    + apply list_elem_of_lookup in Hx as Hk. destruct Hk as [k Hk].
      destruct (dll_item _ _ _ _ D _ _ _ Hk Hit) as [_ ?].
      assert (q' = q) as -> by congruence. exists l'. by simplify_map_eq.
    + destruct (decide (x ∈ l)) as [Hxl|Hxl].
      { destruct (Hgone x it Hxl Hx Hit) as (_ & _ & ?). congruence. }
      rewrite Hout in Hit by done. destruct (sr_in _ _ S _ _ _ Hit Hqi) as (l0 & Hl0 & Hin).
      destruct (decide (q = q')) as [<-|]; [by simplify_map_eq|].
      exists l0. by simplify_map_eq.
  - intros x it Hit Hqi. destruct (decide (x ∈ l')) as [Hx|Hx].
    + apply list_elem_of_lookup in Hx as [k Hk].
      destruct (dll_item _ _ _ _ D _ _ _ Hk Hit) as [_ ?]. congruence.
    + destruct (decide (x ∈ l)) as [Hxl|Hxl].
      { destruct (Hgone x it Hxl Hx Hit) as (? & ? & _). done. }
      rewrite Hout in Hit by done. by eapply sr_out.
Qed.

Lemma store_add st abs q l i it :
  store_rep st abs -> abs !! q = Some l -> items st !! i = Some it -> que it = None ->
  Z.of_nat (length l) + 1 < 2 ^ 32 ->
  exists st', queue_add q i st = Ok (tt, st') /\
    store_rep st' (<[q := l ++ [i]]> abs) /\ same_owners st st'.
Proof.
  intros S Hq Hi Hqi Hlen. destruct (sr_rep _ _ S _ _ Hq) as [lk D].
  assert (i ∉ l) as Hnin.
  { intros Hin. destruct (store_rep_item _ _ _ _ _ S Hq Hin) as (? & ? & ?). congruence. }
  destruct (sr_out _ _ S _ _ Hi Hqi) as [_ Hp].
  destruct (queue_add_dll _ _ _ _ _ _ D Hi Hnin Hp Hlen) as (st' & R & D' & Ho & Hqs & Hxs).
  exists st'. split_and!; [done| |done]. eapply store_rep_update; eauto; set_solver.
Qed.

Lemma store_rem st abs q i l :
  store_rep st abs -> abs !! q = Some (i :: l) ->
  exists it st', items st !! i = Some it /\ queue_rem q st = Ok (owner it, st') /\
    store_rep st' (<[q := l]> abs) /\ same_owners st st' /\
    (exists it', items st' !! i = Some it' /\ que it' = None).
Proof.
  intros S Hq. destruct (sr_rep _ _ S _ _ Hq) as [lk D].
  destruct (queue_rem_dll _ _ _ _ _ D) as (it & st' & Hi & R & D' & Ho & Hi' & Hqs & Hxs).
  exists it, st'. split_and!; [done..| |done|eauto].
  eapply store_rep_update; eauto; [set_solver..|].
  intros x xi ? ? ?. assert (x = i) as -> by set_solver. by simplify_eq.
Qed.

Lemma store_rem_empty st abs q :
  store_rep st abs -> abs !! q = Some [] -> queue_rem q st = Ok (None, st).
Proof.
  intros S Hq. destruct (sr_rep _ _ S _ _ Hq) as [lk [F _]]. by eapply queue_rem_empty.
Qed.

Lemma store_extract st abs q l1 i l2 :
  store_rep st abs -> abs !! q = Some (l1 ++ i :: l2) ->
  exists st', queue_extract q i st = Ok (tt, st') /\
    store_rep st' (<[q := l1 ++ l2]> abs) /\ same_owners st st' /\
    (exists it', items st' !! i = Some it' /\ que it' = None).
Proof.
  intros S Hq. destruct (sr_rep _ _ S _ _ Hq) as [lk D].
  destruct (queue_extract_dll _ _ _ _ _ _ D) as (it & st' & Hi & R & D' & Ho & Hi' & Hqs & Hxs).
  pose proof (fwd_nodup _ _ _ _ (dll_fwd _ _ _ _ D)) as (_ & _ & _ & ? & ? & _)%NoDup_mid.
  exists st'. split_and!; [done..| |done|eauto].
  eapply store_rep_update; eauto; [set_solver..|].
  intros x xi ? ? ?. assert (x = i) as -> by set_solver. by simplify_eq.
Qed.

(** ** [queue_walk] visits the owners in order *)

Lemma queue_walk_fwd st q lk l fuel :
  fwd_rep st q lk l -> (length l <= fuel)%nat ->
  queue_walk fuel q st = Ok ((fun x => items st !! x ≫= owner) <$> l, st).
Proof.
  intros [_ _ Hq Hit] Hf. unfold queue_walk. qrun.
  assert (forall j, (j <= length l)%nat -> forall fuel, (length l - j <= fuel)%nat ->
    walk_from fuel (l !! j) st = Ok ((fun x => items st !! x ≫= owner) <$> drop j l, st)) as W.
  { intros j Hj. remember (length l - j)%nat as d eqn:Ed. revert j Hj Ed.
    induction d as [|d IH]; intros j Hj Ed fuel' Hf'.
    - rewrite lookup_ge_None_2, drop_ge by lia. by destruct fuel'.
    - destruct (lookup_lt_is_Some_2 l j) as [x Hx]; [lia|].
      destruct (Hit _ _ Hx) as (it & Hxi & Hn). rewrite (drop_S _ _ _ Hx), Hx.
      destruct fuel' as [|fuel']; [lia|]. cbn. unfold bind, get_item. rewrite Hxi, Hn.
      rewrite IH by lia. done. }
  destruct (Z.eqb_spec (Z.of_nat (length l)) 0).
  - by destruct l.
  - apply (W 0%nat); lia.
Qed.

Lemma store_item_init st abs i (o : option O) :
  store_rep st abs -> map_Forall (fun _ l => i ∉ l) abs ->
  store_rep (mk_qstore (<[i := mk_item None None None o]> (items st)) (queues st)) abs.
Proof.
  intros S Hi. split; cbn.
  - intros q l Hl. destruct (sr_rep _ _ S _ _ Hl) as [lk D]. exists lk.
    apply (dll_rep_frame st); [done..|]. intros x it Hx Hit ?. exists it.
    assert (x <> i) by (intros ->; by eapply (Hi q l)). cbn. by simplify_map_eq.
  - intros x it q Hit Hq. destruct (decide (i = x)) as [<-|]; simplify_map_eq.
    by eapply sr_in.
  - intros x it Hit Hq. destruct (decide (i = x)) as [<-|]; simplify_map_eq; [done|].
    by eapply sr_out.
Qed.

Lemma store_queue_init st abs q :
  store_rep st abs -> abs !! q = None \/ abs !! q = Some [] ->
  exists st', queue_init q st = Ok (tt, st') /\ store_rep st' (<[q := []]> abs) /\
    items st' = items st.
Proof.
  intros S Hq. eexists. split_and!; [reflexivity| |done]. split; cbn.
  - intros q' l Hl. destruct (decide (q = q')) as [<-|]; simplify_map_eq.
    + eexists. apply dll_rep_intro; cbn; [constructor|lia|by simplify_map_eq|done].
    + destruct (sr_rep _ _ S _ _ Hl) as [lk D]. exists lk.
      apply (dll_rep_frame st); [done|cbn; by simplify_map_eq|eauto].
  - intros x it q' Hit Hqi. destruct (sr_in _ _ S _ _ _ Hit Hqi) as (l & Hl & Hx).
    destruct (decide (q = q')) as [<-|]; [|exists l; by simplify_map_eq].
    destruct Hq as [Hq|Hq]; rewrite Hq in Hl; simplify_eq; set_solver.
  - intros x it. apply (sr_out _ _ S).
Qed.

(** ** Command sequences: the header refines one FIFO list per queue

    The abstract state is the owner of every item and one list per queue. *)

Inductive qcmd : Type :=
| QItemInit (i : L) (o : option O)
| QInit (q : Q)
| QAdd (q : Q) (i : L)
| QRem (q : Q)
| QExtract (q : Q) (i : L).

Definition qexec (c : qcmd) : ST (qstore L Q O) (option O) :=
  match c with
  | QItemInit i o => do! queue_item_init i o in ret None
  | QInit q => do! queue_init q in ret None
  | QAdd q i => do! queue_add q i in ret None
  | QRem q => queue_rem q
  | QExtract q i => do! queue_extract q i in ret None
  end.

Definition qabs : Type := gmap L (option O) * gmap Q (list L).

Definition qspec (c : qcmd) (a : qabs) : option (option O * qabs) :=
  let '(own, abs) := a in
  match c with
  | QItemInit i o =>
      if bool_decide (map_Forall (fun _ l => i ∉ l) abs)
      then Some (None, (<[i := o]> own, abs)) else None
  | QInit q =>
      match abs !! q with
      | None | Some [] => Some (None, (own, <[q := []]> abs))
      | _ => None
      end
  | QAdd q i =>
      match abs !! q, own !! i with
      | Some l, Some _ =>
          if bool_decide (map_Forall (fun _ l => i ∉ l) abs) && (Z.of_nat (length l) + 1 <? 2 ^ 32)
          then Some (None, (own, <[q := l ++ [i]]> abs)) else None
      | _, _ => None
      end
  | QRem q =>
      match abs !! q with
      | Some [] => Some (None, a)
      | Some (i :: l) => Some (own !! i ≫= id, (own, <[q := l]> abs))
      | None => None
      end
  | QExtract q i =>
      match abs !! q, own !! i with
      | Some l, Some _ => Some (None, (own, <[q := filter (fun x => x <> i) l]> abs))
      | _, _ => None
      end
  end.

Fixpoint qexec_all (cs : list qcmd) : ST (qstore L Q O) (list (option O)) :=
  match cs with
  | [] => ret []
  | c :: cs => let! r := qexec c in let! rs := qexec_all cs in ret (r :: rs)
  end.

Fixpoint qspec_all (cs : list qcmd) (a : qabs) : option (list (option O) * qabs) :=
  match cs with
  | [] => Some ([], a)
  | c :: cs => match qspec c a with
               | Some (r, a) => match qspec_all cs a with
                                | Some (rs, a) => Some (r :: rs, a)
                                | None => None
                                end
               | None => None
               end
  end.

Definition queue_refines (st : qstore L Q O) (a : qabs) : Prop :=
  store_rep st a.2 /\ forall x, owner <$> items st !! x = a.1 !! x.

Lemma refines_item st own abs i o :
  queue_refines st (own, abs) -> own !! i = Some o ->
  exists it, items st !! i = Some it /\ owner it = o.
Proof. intros [_ Ho] Hi. rewrite <- Ho in Hi. by apply fmap_Some in Hi as (it & ? & ->); eauto. Qed.

Lemma not_queued_que st abs i it :
  store_rep st abs -> items st !! i = Some it ->
  map_Forall (fun _ l => i ∉ l) abs -> que it = None.
Proof.
  intros S Hi Hq. destruct (que it) as [q|] eqn:E; [|done].
  destruct (sr_in _ _ S _ _ _ Hi E) as (l & Hl & Hx). by destruct (Hq q l Hl).
Qed.

Lemma filter_out_absent (i : L) l : i ∉ l -> filter (fun x => x <> i) l = l.
Proof.
  induction l as [|y l IH]; [done|]. intros [? ?]%not_elem_of_cons.
  rewrite filter_cons_True by congruence. f_equal. eauto.
Qed.

Lemma store_extract_filter st abs q l i it :
  store_rep st abs -> abs !! q = Some l -> items st !! i = Some it ->
  exists st', queue_extract q i st = Ok (tt, st') /\
    store_rep st' (<[q := filter (fun x => x <> i) l]> abs) /\ same_owners st st'.
Proof.
  intros S Hq Hi. destruct (decide (i ∈ l)) as [Hin|Hin].
  - apply list_elem_of_split in Hin as (l1 & l2 & ->).
    destruct (sr_rep _ _ S _ _ Hq) as [lk D].
    destruct (NoDup_mid _ _ _ (fwd_nodup _ _ _ _ (dll_fwd _ _ _ _ D)))
      as (_ & _ & _ & ? & ? & _).
    destruct (store_extract _ _ _ _ _ _ S Hq) as (st' & ? & ? & ? & _).
    exists st'. rewrite filter_app, filter_cons_False, !filter_out_absent by naive_solver. done.
  - exists st. rewrite filter_out_absent, insert_id by done. split_and!; try done.
    eapply queue_extract_other; [done|]. intros Hqi.
    destruct (sr_in _ _ S _ _ _ Hi Hqi) as (l' & ? & ?). by simplify_eq.
Qed.

Lemma queue_refines_step c st a r a' :
  queue_refines st a -> qspec c a = Some (r, a') ->
  exists st', qexec c st = Ok (r, st') /\ queue_refines st' a'.
Proof.
  destruct a as [own abs]. intros R. pose proof R as [S Ho]. cbn in S, Ho.
  destruct c as [i o|q|q i|q|q i]; cbn [qspec qexec]; intros E.
  - case_bool_decide as Hf; simplify_eq. eexists. split; [reflexivity|].
    split; cbn; [by apply store_item_init|]. intros x.
    destruct (decide (i = x)) as [<-|]; simplify_map_eq; eauto.
  - destruct (store_queue_init st abs q S) as (st' & Hr & S' & Hi).
    { destruct (abs !! q) as [[]|]; [right|..]; naive_solver. }
    exists st'. rewrite (bind_ok _ _ _ _ _ Hr).
    destruct (abs !! q) as [[]|]; simplify_eq; (split; [done|]); split; cbn; [done| |done|];
      intros; by rewrite Hi.
  - destruct (abs !! q) as [l|] eqn:Hq; [|done]. destruct (own !! i) as [o|] eqn:Hi; [|done].
    case_bool_decide as Hf; [|done]. cbn in E. destruct (Z.ltb_spec (Z.of_nat (length l) + 1) (2 ^ 32)); [|done].
    simplify_eq. destruct (refines_item _ _ _ _ _ R Hi) as (it & Hit & _).
    destruct (store_add st abs q l i it) as (st' & Hr & S' & Hs);
      [done..|by eapply not_queued_que|done|].
    exists st'. rewrite (bind_ok _ _ _ _ _ Hr). do 2 (split; [done|]).
    intros x. cbn. by rewrite Hs.
  - destruct (abs !! q) as [[|i l]|] eqn:Hq; simplify_eq.
    + exists st. split; [by eapply store_rem_empty|done].
    + destruct (store_rem _ _ _ _ _ S Hq) as (it & st' & Hit & Hr & S' & Hs & _).
      exists st'. rewrite Hr, <- Ho, Hit. do 2 (split; [done|]). intros x. cbn. by rewrite Hs.
  - destruct (abs !! q) as [l|] eqn:Hq; [|done]. destruct (own !! i) as [o|] eqn:Hi; [|done].
    simplify_eq. destruct (refines_item _ _ _ _ _ R Hi) as (it & Hit & _).
    destruct (store_extract_filter _ _ _ _ _ _ S Hq Hit) as (st' & Hr & S' & Hs).
    exists st'. rewrite (bind_ok _ _ _ _ _ Hr). do 2 (split; [done|]).
    intros x. cbn. by rewrite Hs.
Qed.

Lemma queue_refines_run cs : forall st a rs a',
  queue_refines st a -> qspec_all cs a = Some (rs, a') ->
  exists st', qexec_all cs st = Ok (rs, st') /\ queue_refines st' a'.
Proof.
  induction cs as [|c cs IH]; cbn; intros st a rs a' R E; [simplify_eq; by exists st|].
  destruct (qspec c a) as [[r a1]|] eqn:E1; [|done].
  destruct (qspec_all cs a1) as [[rs1 a2]|] eqn:E2; [|done]. simplify_eq.
  destruct (queue_refines_step _ _ _ _ _ R E1) as (st1 & H1 & R1).
  destruct (IH _ _ _ _ R1 E2) as (st2 & H2 & R2).
  exists st2. by rewrite (bind_ok _ _ _ _ _ H1), (bind_ok _ _ _ _ _ H2).
Qed.
End queue_proofs.

(** ** The theorem *)

(** C3: every sequence of [queue_item_init], [queue_init], [queue_add],
    [queue_rem] and [queue_extract] that never adds an item that is already
    queued runs without a fault on the intrusive lists, returns what the
    operations on plain lists (append at the end, take the first, filter out)
    return, and ends in a store that represents those lists: each queue's
    links run through its items forwards and backwards, and the counters are
    the lengths. *)
Theorem queue_implements_lists {L Q O} `{Countable L, Countable Q} (cs : list (@qcmd L Q O)) rs a :
  qspec_all cs (∅, ∅) = Some (rs, a) ->
  exists st, qexec_all cs (mk_qstore ∅ ∅) = Ok (rs, st) /\ queue_refines st a.
Proof.
  apply queue_refines_run. split; [|done].
  split; intros *; rewrite ?lookup_empty; done.
Qed.

Definition demo_cmds : list (@qcmd nat nat nat) :=
  [QInit 0%nat; QItemInit 1%nat (Some 11%nat); QItemInit 2%nat (Some 12%nat);
   QItemInit 3%nat (Some 13%nat); QAdd 0%nat 1%nat; QAdd 0%nat 2%nat; QAdd 0%nat 3%nat;
   QExtract 0%nat 2%nat; QRem 0%nat; QAdd 0%nat 2%nat; QRem 0%nat; QRem 0%nat; QRem 0%nat].

Lemma queue_implements_lists_witness :
  exists st a,
    qexec_all demo_cmds (mk_qstore ∅ ∅) =
      Ok ([None; None; None; None; None; None; None; None; Some 11; None; Some 13; Some 12; None]%nat, st) /\
    queue_refines st a.
Proof.
  assert (exists a, qspec_all demo_cmds (∅, ∅) =
    Some ([None; None; None; None; None; None; None; None; Some 11; None; Some 13; Some 12; None]%nat, a))
    as [a E] by (vm_compute; eauto).
  destruct (queue_implements_lists demo_cmds _ a E) as (st & H). exists st, a. exact H.
Defined.

(** ** A remark on [queue_add]

    The comment at the top of the header says that the [prev] and [next]
    fields of the item are NULLified.  On an empty queue the code leaves
    [prev] as it is, so the first item of a queue may keep a stale back link. *)
Remark queue_add_keeps_prev :
  exists (st st' : qstore nat nat nat) it,
    queue_add 0%nat 1%nat st = Ok (tt, st') /\
    items st' !! 1%nat = Some it /\ qhead <$> queues st' !! 0%nat = Some (Some 1%nat) /\
    prev it = Some 5%nat.
Proof.
  exists (mk_qstore {[1%nat := mk_item None (Some 5%nat) None (Some 9%nat)]}
                    {[0%nat := mk_queue false None None 0]}).
  vm_compute. eauto 10.
Qed.
