(* ===== verification/RunQueue.v ===== *)
(** * The private run queues of a VPU (src/vpu.c, include/inter/vpu.h)

    [p_task_que] is a ring of [TSC_TASK_NUM_PERPRIO] slots between two
    free-running 32-bit counters.  The owner VPU puts and gets; other VPUs
    steal half of the queue by moving the head with a compare-and-swap.  The
    definitions here are the parts of [__runqget], [__runqput], [__runqgrab]
    and [__runqsteal] that touch the rings only; Scheduler.v adds the overflow
    path to the global queue. *)

From S2P Require Import Prelude.

(** [TSC_TASK_NUM_PERPRIO] of include/inter/support.h. *)
Definition TSC_TASK_NUM_PERPRIO : Z := 512.

Section runq.
Context {T : Type}.

(** A slot that was never written holds no task. *)
Record p_task_que := mk_pq {
  prio : Z;
  runq : list (option T);
  runqhead : Z;
  runqtail : Z
}.

Definition set_runq (v : list (option T)) (pq : p_task_que) :=
  mk_pq (prio pq) v (runqhead pq) (runqtail pq).
Definition set_runqhead (v : Z) (pq : p_task_que) :=
  mk_pq (prio pq) (runq pq) v (runqtail pq).
Definition set_runqtail (v : Z) (pq : p_task_que) :=
  mk_pq (prio pq) (runq pq) (runqhead pq) v.

(** [__priv_task_queue_init]: the slots keep their contents. *)
Definition __priv_task_queue_init (p : Z) : ST p_task_que unit :=
  modify (fun que => mk_pq p (runq que) 0 0).

(** [runq[c % TSC_TASK_NUM_PERPRIO]] for a 32-bit counter [c]. *)
Definition slot (c : Z) : nat := Z.to_nat (u32 c mod TSC_TASK_NUM_PERPRIO).

Definition read_slot (c : Z) : ST p_task_que (option T) :=
  fun pq => match runq pq !! slot c with
            | Some t => Ok (t, pq)
            | None => Err OutOfBounds
            end.

Definition write_slot (c : Z) (t : option T) : ST p_task_que unit :=
  fun pq => if decide (slot c < length (runq pq))%nat
            then Ok (tt, set_runq (<[slot c := t]> (runq pq)) pq)
            else Err OutOfBounds.

(** [TSC_CAS(&pq->runqhead, old, new)] *)
Definition cas_head (old new : Z) : ST p_task_que bool :=
  fun pq => if runqhead pq =? old then Ok (true, set_runqhead new pq) else Ok (false, pq).

(** The copy loops [temp[i] = pq->runq[(head+i) % N]], [i] from 0 to [n-1]. *)
Fixpoint read_slots (c : Z) (n : nat) : ST p_task_que (list (option T)) :=
  match n with
  | 0%nat => ret []
  | S n => let! t := read_slot c in
           let! ts := read_slots (c + 1) n in
           ret (t :: ts)
  end.

(** The copy loop of [__runqsteal]: stores [temp] from counter [c] on and
    returns the advanced counter. *)
Fixpoint write_slots (c : Z) (temp : list (option T)) : ST p_task_que Z :=
  match temp with
  | [] => ret c
  | t :: ts => do! write_slot c t in write_slots (u32 (c + 1)) ts
  end.

Fixpoint __runqget (fuel : nat) : ST p_task_que (option T) :=
  match fuel with
  | 0%nat => throw OutOfFuel
  | S fuel =>
      let! pq := get in
      let head := runqhead pq in
      let tail := runqtail pq in
      if tail =? head then ret None else
      let! task := read_slot head in
      let! ok := cas_head head (u32 (head + 1)) in
      if (ok : bool) then ret task else __runqget fuel
  end.

(** The branch of [__runqput] taken when the ring has room. *)
Definition runqput_fast (tail : Z) (task : T) : ST p_task_que unit :=
  do! write_slot tail (Some task) in
  modify (set_runqtail (u32 (tail + 1))).

(** The loop bound of [__runqgrab] is [fuel]: with [n] above half the ring the
    code retries, and so does a lost race for the head. *)
Fixpoint __runqgrab (fuel : nat) : ST p_task_que (Z * list (option T)) :=
  match fuel with
  | 0%nat => throw OutOfFuel
  | S fuel =>
      let! pq := get in
      let head := runqhead pq in
      let tail := runqtail pq in
      let n := u32 (tail - head) in
      let n := u32 (n - n / 2) in
      if n =? 0 then ret (n, []) else
      if TSC_TASK_NUM_PERPRIO / 2 <? n then __runqgrab fuel else
      let! temp := read_slots head (Z.to_nat n) in
      let! ok := cas_head head (u32 (head + n)) in
      if (ok : bool) then ret (n, temp) else __runqgrab fuel
  end.

(** What [__runqsteal] does with the grabbed tasks on the thief's own ring:
    [temp[n-1]] is returned, the others are appended. *)
Definition runqsteal_keep (n : Z) (temp : list (option T)) : ST p_task_que (option T) :=
  if n =? 0 then ret None else
  let n := u32 (n - 1) in
  let! task := demand OutOfBounds (temp !! Z.to_nat n) in
  if n =? 0 then ret task else
  let! pq := get in
  let head := runqhead pq in
  let tail := runqtail pq in
  do! assert_ (u32 (u32 (tail - head) + n) <? TSC_TASK_NUM_PERPRIO) in
  let! tail := write_slots tail (take (Z.to_nat n) temp) in
  do! modify (set_runqtail tail) in
  ret task.

(** ** Representation: the tasks between head and tail *)

Record runq_rep (pq : p_task_que) (l : list T) : Prop := {
  rq_slots : length (runq pq) = Z.to_nat TSC_TASK_NUM_PERPRIO;
  rq_head : 0 <= runqhead pq < 2 ^ 32;
  rq_tail : runqtail pq = u32 (runqhead pq + Z.of_nat (length l));
  rq_len : Z.of_nat (length l) <= TSC_TASK_NUM_PERPRIO;
  rq_item : forall k x, l !! k = Some x ->
    runq pq !! slot (runqhead pq + Z.of_nat k) = Some (Some x)
}.

(** ** Counter arithmetic *)

Lemma slot_mod c : slot c = Z.to_nat (c mod TSC_TASK_NUM_PERPRIO).
Proof.
  unfold slot, u32, TSC_TASK_NUM_PERPRIO. f_equal.
  replace (2 ^ 32) with (512 * 8388608) by lia.
  rewrite Z.rem_mul_r by lia. rewrite Z.mul_comm, Z.mod_add, Z.mod_mod by lia. done.
Qed.

Lemma slot_u32 c : slot (u32 c) = slot c.
Proof. unfold slot, u32. by rewrite Z.mod_mod by lia. Qed.

Lemma slot_u32_add c k : slot (u32 c + k) = slot (c + k).
Proof. unfold slot, u32. by rewrite Zplus_mod_idemp_l. Qed.

Lemma slot_lt c : (slot c < Z.to_nat TSC_TASK_NUM_PERPRIO)%nat.
Proof.
  rewrite slot_mod. pose proof (Z.mod_pos_bound c TSC_TASK_NUM_PERPRIO).
  unfold TSC_TASK_NUM_PERPRIO in *. lia.
Qed.

Lemma slot_inj a b : slot a = slot b -> Z.abs (a - b) < TSC_TASK_NUM_PERPRIO -> a = b.
Proof.
  rewrite !slot_mod. unfold TSC_TASK_NUM_PERPRIO. intros E Hlt.
  pose proof (Z.mod_pos_bound a 512). pose proof (Z.mod_pos_bound b 512).
  pose proof (Z.div_mod a 512). pose proof (Z.div_mod b 512).
  assert (a mod 512 = b mod 512) by lia. lia.
Qed.

(** The counters differ by the number of tasks, whatever wrapped. *)
Lemma rq_diff pq l :
  runq_rep pq l -> u32 (runqtail pq - runqhead pq) = Z.of_nat (length l).
Proof.
  intros [_ Hh Ht Hl _]. rewrite Ht, u32_sub_l, Z.add_simpl_l. unfold TSC_TASK_NUM_PERPRIO in *.
  apply u32_small. lia.
Qed.

Lemma rq_empty_iff pq l : runq_rep pq l -> (runqtail pq =? runqhead pq) = bool_decide (l = []).
Proof.
  intros R. pose proof (rq_diff _ _ R) as D. destruct R as [_ Hh Ht Hl _].
  unfold TSC_TASK_NUM_PERPRIO in *.
  case_bool_decide as E.
  - subst l. rewrite Ht. cbn. rewrite Z.add_0_r, u32_small by lia. apply Z.eqb_refl.
  - apply Z.eqb_neq. intros E'. rewrite E', Z.sub_diag in D.
    destruct l; [done|]. cbn in D. unfold u32 in D. rewrite Z.mod_small in D; lia.
Qed.

Lemma runq_rep_drop pq l n :
  runq_rep pq l -> (n <= length l)%nat ->
  runq_rep (set_runqhead (u32 (runqhead pq + Z.of_nat n)) pq) (drop n l).
Proof.
  intros [Hs Hh Ht Hl Hi] Hn. split; cbn.
  - done.
  - apply u32_range.
  - rewrite Ht, length_drop. rewrite u32_add_l. f_equal. lia.
  - rewrite length_drop. lia.
  - intros k x Hk. rewrite lookup_drop in Hk. rewrite slot_u32_add.
    rewrite <- (Hi _ _ Hk). do 2 f_equal. lia.
Qed.

Lemma runq_rep_snoc pq l x :
  runq_rep pq l -> Z.of_nat (length l) < TSC_TASK_NUM_PERPRIO ->
  runq_rep (set_runqtail (u32 (runqtail pq + 1))
             (set_runq (<[slot (runqtail pq) := Some x]> (runq pq)) pq)) (l ++ [x]).
Proof.
  intros [Hs Hh Ht Hl Hi] Hlt. split; cbn.
  - by rewrite length_insert.
  - done.
  - rewrite Ht, length_app. rewrite u32_add_l. f_equal. cbn. lia.
  - rewrite length_app. cbn. lia.
  - intros k y [[Hk Hkl]|[-> ->]]%lookup_snoc_cases.
    + rewrite list_lookup_insert_ne; [by apply Hi|].
      rewrite Ht, slot_u32. intros E%slot_inj; lia.
    + rewrite Ht, slot_u32. apply list_lookup_insert_eq. rewrite Hs. apply slot_lt.
Qed.

(** ** The operations on represented queues *)

Lemma read_slot_rep pq l k x :
  runq_rep pq l -> l !! k = Some x ->
  read_slot (runqhead pq + Z.of_nat k) pq = Ok (Some x, pq).
Proof. intros R Hk. unfold read_slot. by rewrite (rq_item _ _ R _ _ Hk). Qed.

Lemma read_slots_rep pq l : runq_rep pq l -> forall n k,
  (k + n <= length l)%nat ->
  read_slots (runqhead pq + Z.of_nat k) n pq = Ok (Some <$> take n (drop k l), pq).
Proof.
  intros R. induction n as [|n IH]; intros k Hk; [done|]. cbn [read_slots].
  destruct (lookup_lt_is_Some_2 l k) as [x Hx]; [lia|].
  rewrite (bind_ok _ _ _ _ _ (read_slot_rep _ _ _ _ R Hx)).
  replace (runqhead pq + Z.of_nat k + 1) with (runqhead pq + Z.of_nat (S k)) by lia.
  rewrite (bind_ok _ _ _ _ _ (IH (S k) ltac:(lia))).
  by rewrite (drop_S _ _ _ Hx).
Qed.

(** Storing at most a ring's worth of tasks from counter [c] on. *)
Lemma write_slots_run : forall xs c pq,
  length (runq pq) = Z.to_nat TSC_TASK_NUM_PERPRIO ->
  Z.of_nat (length xs) <= TSC_TASK_NUM_PERPRIO -> 0 <= c < 2 ^ 32 ->
  exists r, write_slots c xs pq = Ok (u32 (c + Z.of_nat (length xs)), set_runq r pq) /\
    length r = Z.to_nat TSC_TASK_NUM_PERPRIO /\
    (forall k x, xs !! k = Some x -> r !! slot (c + Z.of_nat k) = Some x) /\
    (forall d, (forall k, (k < length xs)%nat -> d <> slot (c + Z.of_nat k)) -> r !! d = runq pq !! d).
Proof.
  induction xs as [|x xs IH]; intros c pq Hs Hl Hc; cbn [write_slots].
  - exists (runq pq). cbn. rewrite Z.add_0_r, u32_small by lia. destruct pq. naive_solver.
  - cbn in Hl. unfold bind, write_slot. rewrite decide_True by (rewrite Hs; apply slot_lt).
    destruct (IH (u32 (c + 1)) (set_runq (<[slot c:=x]> (runq pq)) pq))
      as (r & E & Hr & Hin & Hout); [cbn; by rewrite length_insert|lia|apply u32_range|].
    cbn in E, Hout. setoid_rewrite slot_u32_add in Hin. setoid_rewrite slot_u32_add in Hout.
    exists r. split_and!; [|done|..].
    + rewrite E, u32_add_l. do 3 f_equal. cbn. lia.
    + intros [|k] y Hk; cbn in Hk.
      * simplify_eq. rewrite Z.add_0_r, Hout; [apply list_lookup_insert_eq; rewrite Hs; apply slot_lt|].
        intros k Hk E'%slot_inj; unfold TSC_TASK_NUM_PERPRIO in *; lia.
      * rewrite <- (Hin _ _ Hk). do 2 f_equal. lia.
    + intros d Hd. rewrite Hout.
      * apply list_lookup_insert_ne. specialize (Hd 0%nat). rewrite Z.add_0_r in Hd.
        intros E2. by apply Hd; [cbn; lia|].
      * intros k Hk. replace (c + 1 + Z.of_nat k) with (c + Z.of_nat (S k)) by lia.
        apply Hd. cbn. lia.
Qed.

Lemma write_slots_rep pq l xs :
  runq_rep pq l -> Z.of_nat (length l + length xs) <= TSC_TASK_NUM_PERPRIO ->
  exists tl pq', write_slots (runqtail pq) (Some <$> xs) pq = Ok (tl, pq') /\
    runq_rep (set_runqtail tl pq') (l ++ xs) /\ prio pq' = prio pq.
Proof.
  intros R Hl. pose proof R as [Hs Hh Ht _ Hi].
  destruct (write_slots_run (Some <$> xs) (runqtail pq) pq) as (r & E & Hr & Hin & Hout);
    [done|rewrite length_fmap; lia|rewrite Ht; apply u32_range|].
  rewrite length_fmap in E, Hout. do 2 eexists. split_and!; [exact E| |done].
  split; cbn; [done|done| |rewrite length_app; lia|].
  - rewrite Ht, length_app, u32_add_l. f_equal. lia.
  - intros k x [Hk|[Hkl Hk]]%lookup_app_Some.
    + pose proof (lookup_lt_Some _ _ _ Hk). rewrite Hout; [by apply Hi|].
      intros j Hj. rewrite Ht, slot_u32_add. intros ?%slot_inj; lia.
    + rewrite <- (Hin (k - length l)%nat (Some x)); [|by rewrite list_lookup_fmap, Hk].
      rewrite Ht, slot_u32_add. do 2 f_equal. lia.
Qed.

Lemma runqget_rep fuel pq l :
  runq_rep pq l ->
  exists pq', __runqget (S fuel) pq = Ok (l !! 0%nat, pq') /\ runq_rep pq' (drop 1 l) /\
    prio pq' = prio pq.
Proof.
  intros R. cbn [__runqget]. unfold bind at 1, get.
  rewrite (rq_empty_iff _ _ R). destruct l as [|x l]; [by exists pq|].
  rewrite bool_decide_eq_false_2 by done.
  pose proof (read_slot_rep _ _ 0%nat x R eq_refl) as E. rewrite Z.add_0_r in E.
  rewrite (bind_ok _ _ _ _ _ E). unfold bind, cas_head. rewrite Z.eqb_refl.
  eexists. split_and!; [reflexivity| |done]. by apply (runq_rep_drop pq (x :: l) 1 R); cbn; lia.
Qed.

Lemma runqput_fast_rep pq l x :
  runq_rep pq l -> Z.of_nat (length l) < TSC_TASK_NUM_PERPRIO ->
  exists pq', runqput_fast (runqtail pq) x pq = Ok (tt, pq') /\ runq_rep pq' (l ++ [x]) /\
    prio pq' = prio pq.
Proof.
  intros R Hl. unfold runqput_fast, bind, write_slot.
  rewrite decide_True by (rewrite (rq_slots _ _ R); apply slot_lt).
  eexists. split_and!; [reflexivity|by apply runq_rep_snoc|done].
Qed.

(** The number of tasks a thief takes from a queue of [n]. *)
Definition half_up (n : nat) : nat := (n - n / 2)%nat.

Lemma half_up_Z n :
  Z.of_nat n <= TSC_TASK_NUM_PERPRIO ->
  u32 (Z.of_nat n - Z.of_nat n / 2) = Z.of_nat (half_up n) /\
  Z.of_nat (half_up n) <= TSC_TASK_NUM_PERPRIO / 2 /\ (half_up n <= n)%nat.
Proof.
  intros H. unfold TSC_TASK_NUM_PERPRIO in *. unfold half_up.
  pose proof (Nat.div_mod_eq n 2). pose proof (Nat.mod_upper_bound n 2).
  change (512 / 2) with 256. rewrite Nat2Z.inj_sub, Nat2Z.inj_div by (apply Nat.Div0.div_le_upper_bound; lia).
  change (Z.of_nat 2) with 2. pose proof (Z.div_mod (Z.of_nat n) 2).
  pose proof (Z.mod_pos_bound (Z.of_nat n) 2). rewrite u32_small by lia. lia.
Qed.

Lemma runqgrab_rep fuel pq l :
  runq_rep pq l ->
  exists pq', __runqgrab (S fuel) pq =
      Ok ((Z.of_nat (half_up (length l)), Some <$> take (half_up (length l)) l), pq') /\
    runq_rep pq' (drop (half_up (length l)) l) /\ prio pq' = prio pq.
Proof.
  intros R. cbn [__runqgrab]. unfold bind at 1, get. rewrite (rq_diff _ _ R).
  destruct (half_up_Z (length l) (rq_len _ _ R)) as (-> & Hle & Hl).
  destruct (Z.eqb_spec (Z.of_nat (half_up (length l))) 0) as [E|E].
  - exists pq. replace (half_up (length l)) with 0%nat by lia. done.
  - destruct (Z.ltb_spec (TSC_TASK_NUM_PERPRIO / 2) (Z.of_nat (half_up (length l)))); [lia|].
    rewrite Nat2Z.id. pose proof (read_slots_rep _ _ R (half_up (length l)) 0) as Rd.
    rewrite Z.add_0_r in Rd. rewrite (bind_ok _ _ _ _ _ (Rd Hl)). unfold bind, cas_head.
    rewrite Z.eqb_refl. eexists. split_and!; [reflexivity|by apply runq_rep_drop|done].
Qed.

Lemma runqsteal_keep_rep pq l xs x :
  runq_rep pq l -> Z.of_nat (length l + length xs) < TSC_TASK_NUM_PERPRIO ->
  exists pq', runqsteal_keep (Z.of_nat (length (xs ++ [x]))) (Some <$> (xs ++ [x])) pq
      = Ok (Some x, pq') /\ runq_rep pq' (l ++ xs) /\ prio pq' = prio pq.
Proof.
  intros R Hl. unfold runqsteal_keep. rewrite length_app. cbn [length].
  destruct (Z.eqb_spec (Z.of_nat (length xs + 1)) 0); [lia|].
  unfold TSC_TASK_NUM_PERPRIO in Hl.
  rewrite (u32_small (Z.of_nat (length xs + 1) - 1)) by lia.
  replace (Z.of_nat (length xs + 1) - 1) with (Z.of_nat (length xs)) by lia. rewrite Nat2Z.id.
  unfold bind at 1, demand. rewrite list_lookup_fmap, list_lookup_middle by done. cbn [fmap option_fmap option_map].
  destruct (Z.eqb_spec (Z.of_nat (length xs)) 0) as [E|E].
  { destruct xs; [|done]. rewrite app_nil_r. by exists pq. }
  unfold bind at 1, get. rewrite (rq_diff _ _ R), u32_small by lia.
  destruct (Z.ltb_spec (Z.of_nat (length l) + Z.of_nat (length xs)) TSC_TASK_NUM_PERPRIO);
    [|unfold TSC_TASK_NUM_PERPRIO in *; lia].
  destruct (write_slots_rep pq l xs R) as (tl & pq' & W & R' & ?);
    [unfold TSC_TASK_NUM_PERPRIO; lia|].
  rewrite fmap_app, take_app_length' by (by rewrite length_fmap).
  unfold bind, assert_, ret, modify. rewrite W. eauto.
Qed.

End runq.
Arguments p_task_que : clear implicits.
