(* ===== verification/RunQueueConc.v ===== *)
(** * The private run queue under concurrency (src/vpu.c)

    One VPU owns a ring; any number of other VPUs steal from it.  Here every
    access of [__runqget], [__runqput], [__runqputslow], [__runqgrab] and
    [__runqsteal] to the shared ring is a step of its own, and the steps of
    the owner and of the thieves interleave freely.

    The counters of the ring are 32 bits wide and wrap.  A local variable that
    holds a counter it read is paired with the index it stood for; a step is
    only taken while the head has moved by less than 2^31 since then
    ([recent]): no thread sleeps between two of its steps while the others do
    two thousand million operations on one ring.  The rings themselves may run
    for as long as they like.

    Logs: [given] are the tasks handed to [__runqput] (or kept by
    [__runqsteal]), [inp] those published in the ring, in order; [out] those
    taken out of it by a successful compare-and-swap, as the taker read them;
    [div] those [__runqputslow] sent to the global queue without storing. *)

From S2P Require Import Prelude RunQueue.

Section conc.
Context {T : Type}.

Inductive owner : Type :=
| o_idle (empty : bool)       (* [empty]: its last [__runqget] found nothing *)
| o_get_head (h : Z) (hg : nat)
| o_get_task (h : Z) (hg : nat)
| o_get_cas (h : Z) (hg : nat) (task : option T)
| o_put (x : T)
| o_put_head (x : T) (h : Z) (hg : nat)
| o_put_store (x : T) (t : Z)
| o_put_tail (x : T) (t : Z)
| o_slow (x : T) (h : Z) (hg : nat) (n : Z) (temp : list (option T))
| o_keep (xs : list T)
| o_keep_head (xs : list T) (h : Z)
| o_keep_store (xs : list T) (k : nat) (t : Z)
| o_failed.                   (* an assertion failed *)

Inductive thief : Type :=
| t_idle
| t_head (h : Z) (hg : nat)
| t_copy (h : Z) (hg : nat) (n : Z) (temp : list (option T)).

Record cstate := mk_c {
  ring : p_task_que T;
  own : owner;
  thieves : gmap nat thief;
  given : list T;
  inp : list T;
  out : list (option T);
  div : list T
}.

Definition recent (s : cstate) (hg : nat) : Prop :=
  Z.of_nat (length (out s)) - Z.of_nat hg < 2 ^ 31.

Definition with_own (o : owner) (s : cstate) : cstate :=
  mk_c (ring s) o (thieves s) (given s) (inp s) (out s) (div s).
Definition with_thief (i : nat) (t : thief) (s : cstate) : cstate :=
  mk_c (ring s) (own s) (<[i := t]> (thieves s)) (given s) (inp s) (out s) (div s).
Definition with_slot (c : Z) (x : T) (s : cstate) : cstate :=
  mk_c (set_runq (<[slot c := Some x]> (runq (ring s))) (ring s))
       (own s) (thieves s) (given s) (inp s) (out s) (div s).
(** a successful compare-and-swap of the head *)
Definition with_head (h : Z) (temp : list (option T)) (s : cstate) : cstate :=
  mk_c (set_runqhead h (ring s)) (own s) (thieves s) (given s) (inp s) (out s ++ temp) (div s).
(** the store that publishes [xs] *)
Definition with_tail (t : Z) (xs : list T) (s : cstate) : cstate :=
  mk_c (set_runqtail t (ring s)) (own s) (thieves s) (given s) (inp s ++ xs) (out s) (div s).
Definition with_given (xs : list T) (s : cstate) : cstate :=
  mk_c (ring s) (own s) (thieves s) (given s ++ xs) (inp s) (out s) (div s).
Definition with_div (x : T) (s : cstate) : cstate :=
  mk_c (ring s) (own s) (thieves s) (given s) (inp s) (out s) (div s ++ [x]).

Definition N := TSC_TASK_NUM_PERPRIO.

(** ** The owner *)

Inductive ostep (s : cstate) : cstate -> Prop :=
(* __runqget *)
| os_get b : own s = o_idle b ->
    ostep s (with_own (o_get_head (runqhead (ring s)) (length (out s))) s)
| os_get_none h hg : own s = o_get_head h hg -> recent s hg -> runqtail (ring s) = h ->
    ostep s (with_own (o_idle true) s)
| os_get_some h hg : own s = o_get_head h hg -> recent s hg -> runqtail (ring s) <> h ->
    ostep s (with_own (o_get_task h hg) s)
| os_get_read h hg task : own s = o_get_task h hg -> runq (ring s) !! slot h = Some task ->
    ostep s (with_own (o_get_cas h hg task) s)
| os_get_cas_ok h hg task : own s = o_get_cas h hg task -> recent s hg ->
    runqhead (ring s) = h ->
    ostep s (with_own (o_idle false) (with_head (u32 (h + 1)) [task] s))
| os_get_cas_fail h hg task : own s = o_get_cas h hg task -> runqhead (ring s) <> h ->
    ostep s (with_own (o_get_head (runqhead (ring s)) (length (out s))) s)
(* __runqput *)
| os_put b x : own s = o_idle b ->
    ostep s (with_own (o_put x) (with_given [x] s))
| os_put_read x : own s = o_put x ->
    ostep s (with_own (o_put_head x (runqhead (ring s)) (length (out s))) s)
| os_put_room x h hg : own s = o_put_head x h hg -> u32 (runqtail (ring s) - h) < N ->
    ostep s (with_own (o_put_store x (runqtail (ring s))) s)
| os_put_slot x t : own s = o_put_store x t ->
    ostep s (with_own (o_put_tail x t) (with_slot t x s))
| os_put_publish x t : own s = o_put_tail x t ->
    ostep s (with_own (o_idle false) (with_tail (u32 (t + 1)) [x] s))
(* __runqputslow *)
| os_slow x h hg : own s = o_put_head x h hg -> N <= u32 (runqtail (ring s) - h) ->
    u32 (runqtail (ring s) - h) / 2 = N / 2 ->
    ostep s (with_own (o_slow x h hg (u32 (runqtail (ring s) - h) / 2) []) s)
| os_slow_assert x h hg : own s = o_put_head x h hg -> N <= u32 (runqtail (ring s) - h) ->
    u32 (runqtail (ring s) - h) / 2 <> N / 2 ->
    ostep s (with_own o_failed s)
| os_slow_read x h hg n temp task : own s = o_slow x h hg n temp ->
    Z.of_nat (length temp) < n ->
    runq (ring s) !! slot (h + Z.of_nat (length temp)) = Some task ->
    ostep s (with_own (o_slow x h hg n (temp ++ [task])) s)
| os_slow_cas_ok x h hg n temp : own s = o_slow x h hg n temp -> Z.of_nat (length temp) = n ->
    recent s hg -> runqhead (ring s) = h ->
    ostep s (with_own (o_idle false) (with_div x (with_head (u32 (h + n)) temp s)))
| os_slow_cas_fail x h hg n temp : own s = o_slow x h hg n temp -> Z.of_nat (length temp) = n ->
    runqhead (ring s) <> h ->
    ostep s (with_own (o_put x) s)
(* __runqsteal, the part on the thief's own ring; it stole because its ring was empty *)
| os_keep xs : own s = o_idle true -> 0 < Z.of_nat (length xs) < N / 2 ->
    ostep s (with_own (o_keep xs) (with_given xs s))
| os_keep_head xs : own s = o_keep xs ->
    ostep s (with_own (o_keep_head xs (runqhead (ring s))) s)
| os_keep_ok xs h : own s = o_keep_head xs h ->
    u32 (u32 (runqtail (ring s) - h) + Z.of_nat (length xs)) < N ->
    ostep s (with_own (o_keep_store xs 0 (runqtail (ring s))) s)
| os_keep_assert xs h : own s = o_keep_head xs h ->
    N <= u32 (u32 (runqtail (ring s) - h) + Z.of_nat (length xs)) ->
    ostep s (with_own o_failed s)
| os_keep_slot xs k t x : own s = o_keep_store xs k t -> xs !! k = Some x ->
    ostep s (with_own (o_keep_store xs (S k) (u32 (t + 1))) (with_slot t x s))
| os_keep_publish xs t : own s = o_keep_store xs (length xs) t ->
    ostep s (with_own (o_idle false) (with_tail t xs s)).

(** ** The thieves: [__runqgrab] *)

Definition grab_count (tail h : Z) : Z := let n := u32 (tail - h) in u32 (n - n / 2).

Inductive tstep (s : cstate) (i : nat) : cstate -> Prop :=
| ts_head : thieves s !! i = Some t_idle ->
    tstep s i (with_thief i (t_head (runqhead (ring s)) (length (out s))) s)
| ts_none h hg : thieves s !! i = Some (t_head h hg) -> recent s hg ->
    grab_count (runqtail (ring s)) h = 0 ->
    tstep s i (with_thief i t_idle s)
| ts_retry h hg : thieves s !! i = Some (t_head h hg) ->
    N / 2 < grab_count (runqtail (ring s)) h ->
    tstep s i (with_thief i (t_head (runqhead (ring s)) (length (out s))) s)
| ts_some h hg : thieves s !! i = Some (t_head h hg) -> recent s hg ->
    grab_count (runqtail (ring s)) h <> 0 -> grab_count (runqtail (ring s)) h <= N / 2 ->
    tstep s i (with_thief i (t_copy h hg (grab_count (runqtail (ring s)) h) []) s)
| ts_read h hg n temp task : thieves s !! i = Some (t_copy h hg n temp) ->
    Z.of_nat (length temp) < n ->
    runq (ring s) !! slot (h + Z.of_nat (length temp)) = Some task ->
    tstep s i (with_thief i (t_copy h hg n (temp ++ [task])) s)
| ts_cas_ok h hg n temp : thieves s !! i = Some (t_copy h hg n temp) ->
    Z.of_nat (length temp) = n -> recent s hg -> runqhead (ring s) = h ->
    tstep s i (with_thief i t_idle (with_head (u32 (h + n)) temp s))
| ts_cas_fail h hg n temp : thieves s !! i = Some (t_copy h hg n temp) ->
    Z.of_nat (length temp) = n -> runqhead (ring s) <> h ->
    tstep s i (with_thief i (t_head (runqhead (ring s)) (length (out s))) s).

Inductive cstep (s s' : cstate) : Prop :=
| c_owner : ostep s s' -> cstep s s'
| c_thief i : tstep s i s' -> cstep s s'.

(** An empty ring at any position of its counters, and idle threads. *)
Record cinit (c0 : Z) (s : cstate) : Prop := {
  ci_pos : 0 <= c0 < 2 ^ 32;
  ci_slots : length (runq (ring s)) = Z.to_nat N;
  ci_head : runqhead (ring s) = c0;
  ci_tail : runqtail (ring s) = c0;
  ci_own : own s = o_idle false;
  ci_thieves : map_Forall (fun _ t => t = t_idle) (thieves s);
  ci_given : given s = [];
  ci_inp : inp s = [];
  ci_out : out s = [];
  ci_div : div s = []
}.

(** ** The invariant *)

Definition pending (o : owner) : list T :=
  match o with
  | o_put x | o_put_head x _ _ | o_put_store x _ | o_put_tail x _ | o_slow x _ _ _ _ => [x]
  | o_keep xs | o_keep_head xs _ | o_keep_store xs _ _ => xs
  | _ => []
  end.

Section inv.
Variable c0 : Z.

(** [temp] read from index [hg] on: right unless somebody took [hg] meanwhile. *)
Definition good_copy (s : cstate) (hg : nat) (temp : list (option T)) : Prop :=
  hg = length (out s) -> temp = Some <$> take (length temp) (drop hg (inp s)).

Definition at_index (h : Z) (hg : nat) : Prop := h = u32 (c0 + Z.of_nat hg).

Definition owner_ok (s : cstate) : Prop :=
  match own s with
  | o_idle b => b = true -> length (inp s) = length (out s)
  | o_get_head h hg => at_index h hg /\ (hg <= length (out s))%nat
  | o_get_task h hg => at_index h hg /\ (hg <= length (out s))%nat /\ (hg < length (inp s))%nat
  | o_get_cas h hg task => at_index h hg /\ (hg <= length (out s))%nat /\
      (hg < length (inp s))%nat /\ good_copy s hg [task]
  | o_put x => True
  | o_put_head x h hg => at_index h hg /\ (hg <= length (out s))%nat /\
      Z.of_nat (length (inp s)) - Z.of_nat hg <= N
  | o_put_store x t => t = runqtail (ring s) /\
      Z.of_nat (length (inp s)) - Z.of_nat (length (out s)) < N
  | o_put_tail x t => t = runqtail (ring s) /\
      Z.of_nat (length (inp s)) - Z.of_nat (length (out s)) < N /\
      runq (ring s) !! slot t = Some (Some x)
  | o_slow x h hg n temp => at_index h hg /\ (hg <= length (out s))%nat /\
      Z.of_nat (length (inp s)) - Z.of_nat hg = N /\ n = N / 2 /\
      Z.of_nat (length temp) <= n /\ good_copy s hg temp
  | o_keep xs => length (inp s) = length (out s) /\ 0 < Z.of_nat (length xs) < N / 2
  | o_keep_head xs h => length (inp s) = length (out s) /\ 0 < Z.of_nat (length xs) < N / 2 /\
      h = runqhead (ring s)
  | o_keep_store xs k t => length (inp s) = length (out s) /\ 0 < Z.of_nat (length xs) < N / 2 /\
      t = u32 (c0 + Z.of_nat (length (inp s) + k)) /\ (k <= length xs)%nat /\
      forall j x, (j < k)%nat -> xs !! j = Some x ->
        runq (ring s) !! slot (c0 + Z.of_nat (length (inp s) + j)) = Some (Some x)
  | o_failed => False
  end.

Definition thief_ok (s : cstate) (t : thief) : Prop :=
  match t with
  | t_idle => True
  | t_head h hg => at_index h hg /\ (hg <= length (out s))%nat
  | t_copy h hg n temp => at_index h hg /\ (hg <= length (out s))%nat /\ 0 < n <= N / 2 /\
      Z.of_nat hg + n <= Z.of_nat (length (inp s)) /\ Z.of_nat (length temp) <= n /\
      good_copy s hg temp
  end.

Record ring_inv (s : cstate) : Prop := {
  cv_slots : length (runq (ring s)) = Z.to_nat N;
  cv_len : (length (out s) <= length (inp s))%nat;
  cv_room : Z.of_nat (length (inp s)) - Z.of_nat (length (out s)) <= N;
  cv_head : runqhead (ring s) = u32 (c0 + Z.of_nat (length (out s)));
  cv_tail : runqtail (ring s) = u32 (c0 + Z.of_nat (length (inp s)));
  cv_live : forall k x, (length (out s) <= k)%nat -> inp s !! k = Some x ->
    runq (ring s) !! slot (c0 + Z.of_nat k) = Some (Some x);
  cv_out : out s = Some <$> take (length (out s)) (inp s)
}.

Record cinv (s : cstate) : Prop := {
  cv_ring : ring_inv s;
  cv_given : given s ≡ₚ inp s ++ div s ++ pending (own s);
  cv_own : owner_ok s;
  cv_thieves : map_Forall (fun _ t => thief_ok s t) (thieves s)
}.

(** ** Arithmetic and copies *)

Lemma N_val : N = 512.
Proof. done. Qed.

Lemma u32_eq a b : u32 a = u32 b -> Z.abs (a - b) < 2 ^ 32 -> a = b.
Proof.
  unfold u32. intros E H. pose proof (Z.div_mod a (2 ^ 32)). pose proof (Z.div_mod b (2 ^ 32)). lia.
Qed.

Lemma u32_sub a b : u32 (u32 a - u32 b) = u32 (a - b).
Proof. unfold u32. by rewrite Zminus_mod_idemp_l, Zminus_mod_idemp_r. Qed.

Lemma cas_index s h hg :
  ring_inv s -> at_index h hg -> (hg <= length (out s))%nat -> recent s hg ->
  runqhead (ring s) = h -> hg = length (out s).
Proof.
  intros I Hh Hl Hr E. unfold at_index in Hh. rewrite (cv_head _ I) in E. rewrite Hh in E.
  unfold recent in Hr. apply u32_eq in E; lia.
Qed.

Lemma good_copy_later s s' hg temp xs :
  (hg <= length (out s))%nat -> (hg + length temp <= length (inp s))%nat ->
  inp s' = inp s ++ xs -> (length (out s) <= length (out s'))%nat ->
  good_copy s hg temp -> good_copy s' hg temp.
Proof.
  intros Hg Hl Ei Ho G E. rewrite G at 1 by lia. f_equal.
  rewrite Ei, drop_app_le, take_app_le; [done|rewrite length_drop; lia|lia].
Qed.

Lemma good_copy_read s h hg temp task :
  ring_inv s -> at_index h hg -> (hg + length temp < length (inp s))%nat ->
  runq (ring s) !! slot (h + Z.of_nat (length temp)) = Some task ->
  good_copy s hg temp -> good_copy s hg (temp ++ [task]).
Proof.
  intros I Hh Hl Hr G E. specialize (G E). rewrite G at 1.
  destruct (lookup_lt_is_Some_2 _ _ Hl) as [x Hx].
  unfold at_index in Hh. rewrite Hh, slot_u32_add in Hr.
  replace (c0 + Z.of_nat hg + Z.of_nat (length temp)) with (c0 + Z.of_nat (hg + length temp)) in Hr by lia.
  rewrite (cv_live _ I (hg + length temp) x) in Hr by (lia || done). injection Hr as <-.
  rewrite length_app. cbn [length]. rewrite Nat.add_1_r.
  rewrite (take_S_r _ _ x) by (by rewrite lookup_drop). by rewrite fmap_app.
Qed.

(** ** The three ways the ring changes *)

Lemma ring_take s h hg n temp :
  ring_inv s -> at_index h hg -> (hg <= length (out s))%nat -> recent s hg ->
  runqhead (ring s) = h -> Z.of_nat (length temp) = n ->
  (hg + length temp <= length (inp s))%nat -> good_copy s hg temp ->
  ring_inv (with_head (u32 (h + n)) temp s).
Proof.
  intros I Hh Hl Hr E Hn Hi G. pose proof (cas_index _ _ _ I Hh Hl Hr E) as ->.
  specialize (G eq_refl). destruct I as [I1 I2 I3 I4 I5 I6 I7].
  split; cbn; rewrite ?length_app; try done; try lia.
  - rewrite <- E, I4, u32_add_l. f_equal. lia.
  - intros k x Hk Hx. apply I6; [lia|done].
  - rewrite I7, G at 1. rewrite <- fmap_app. f_equal.
    by rewrite take_take_drop.
Qed.

Lemma ring_store s c x j :
  ring_inv s -> slot c = slot (c0 + Z.of_nat (length (inp s) + j)) ->
  Z.of_nat (length (inp s) + j) - Z.of_nat (length (out s)) < N ->
  ring_inv (with_slot c x s).
Proof.
  intros [I1 I2 I3 I4 I5 I6 I7] Hc Hj. split; cbn; try done.
  - by rewrite length_insert.
  - intros k y Hk Hy. apply lookup_lt_Some in Hy as Hlt. rewrite list_lookup_insert_ne; [by apply I6|].
    rewrite Hc. unfold N in *. intros E%slot_inj; lia.
Qed.

Lemma ring_publish s xs :
  ring_inv s -> Z.of_nat (length (inp s) + length xs) - Z.of_nat (length (out s)) <= N ->
  (forall j x, xs !! j = Some x ->
     runq (ring s) !! slot (c0 + Z.of_nat (length (inp s) + j)) = Some (Some x)) ->
  ring_inv (with_tail (u32 (c0 + Z.of_nat (length (inp s) + length xs))) xs s).
Proof.
  intros [I1 I2 I3 I4 I5 I6 I7] Hl Hs. split; cbn; rewrite ?length_app; try done; try lia.
  - intros k x Hk. destruct (decide (k < length (inp s))%nat).
    + rewrite lookup_app_l by done. by apply I6.
    + rewrite lookup_app_r by lia. intros Hx%Hs. rewrite <- Hx. do 3 f_equal. lia.
  - by rewrite take_app_le by lia.
Qed.

(** ** Every step keeps the invariant *)

Lemma thief_ok_later s s' t xs :
  inp s' = inp s ++ xs -> (length (out s) <= length (out s'))%nat ->
  thief_ok s t -> thief_ok s' t.
Proof.
  intros Ei Ho. destruct t as [|h hg|h hg n temp]; cbn; [done|intros [? ?]; split; [done|lia]|].
  intros (? & ? & ? & ? & ? & G). rewrite Ei, length_app. split_and!; try done; try lia.
  eapply good_copy_later; [..|exact Ei|exact Ho|exact G]; lia.
Qed.

Lemma thieves_later s s' xs :
  inp s' = inp s ++ xs -> (length (out s) <= length (out s'))%nat -> thieves s' = thieves s ->
  map_Forall (fun _ t => thief_ok s t) (thieves s) ->
  map_Forall (fun _ t => thief_ok s' t) (thieves s').
Proof.
  intros Ei Ho -> H i t Hi. eapply thief_ok_later; [done..|]. by eapply H.
Qed.

Lemma owner_ok_later s s' :
  ring_inv s -> ring_inv s' -> own s' = own s -> inp s' = inp s ->
  runq (ring s') = runq (ring s) -> (length (out s) <= length (out s'))%nat ->
  owner_ok s -> owner_ok s'.
Proof.
  intros I I' Eo Ei Er Hl. pose proof (cv_len _ I') as Hl'. rewrite Ei in Hl'.
  pose proof (cv_tail _ I) as Ht. pose proof (cv_tail _ I') as Ht'. rewrite Ei, <- Ht in Ht'.
  pose proof (cv_head _ I) as Hh. pose proof (cv_head _ I') as Hh'.
  assert (inp s' = inp s ++ []) as Ei' by (by rewrite app_nil_r).
  assert (forall hg temp, (hg <= length (out s))%nat -> (hg + length temp <= length (inp s))%nat ->
    good_copy s hg temp -> good_copy s' hg temp) as GC
    by (intros hg temp ? ? ?; eapply good_copy_later; [..|exact Ei'|exact Hl|]; done).
  unfold owner_ok. rewrite Eo.
  destruct (own s) as [b|h hg|h hg|h hg task|x|x h hg|x t|x t|x h hg n temp|xs|xs h|xs k t|];
    rewrite ?Ei, ?Er, ?Ht'; try done.
  - intros H E. specialize (H E). lia.
  - intros [? ?]. split; [done|lia].
  - intros (? & ? & ?). split_and!; [done|lia|done].
  - intros (? & ? & ? & ?). split_and!; [done|lia|done|apply GC; cbn; lia || done].
  - intros (? & ? & ?). split_and!; [done|lia|done].
  - intros [? ?]. split; [done|lia].
  - intros (? & ? & ?). split_and!; [done|lia|done].
  - intros (? & ? & ? & -> & ? & ?). change (N / 2) with 256 in *. rewrite N_val in *.
    split_and!; try done; [lia|]. apply GC; [done|lia|done].
  - intros [? ?]. split; [lia|done].
  - intros (? & ? & ->). split_and!; [lia|lia|lia|]. rewrite Hh, Hh'. do 2 f_equal. lia.
  - intros (? & ? & ? & ? & ?). split_and!; try done; try lia.
Qed.

Lemma inv_own s o :
  cinv s -> given s ≡ₚ inp s ++ div s ++ pending o -> owner_ok (with_own o s) -> cinv (with_own o s).
Proof.
  intros [I G O Th] HG HO. split; [|done|done|].
  - destruct I. by split.
  - eapply (thieves_later s _ []); [by rewrite app_nil_r|done|done|done].
Qed.

Lemma inv_own_same s o :
  cinv s -> pending o = pending (own s) -> owner_ok (with_own o s) -> cinv (with_own o s).
Proof. intros C E. apply inv_own; [done|]. rewrite E. apply C. Qed.

Lemma inv_thief s i t : cinv s -> thief_ok s t -> cinv (with_thief i t s).
Proof.
  intros [I G O Th] Ht.
  assert (ring_inv (with_thief i t s)) as I' by (destruct I; by split).
  split; [done|done| |].
  - by apply (owner_ok_later s).
  - cbn. apply map_Forall_insert_2; [|intros j u Hj].
    + eapply (thief_ok_later s _ _ []); [by rewrite app_nil_r|done|done].
    + eapply (thief_ok_later s _ _ []); [by rewrite app_nil_r|done|by eapply Th].
Qed.

Lemma inv_take s h hg n temp :
  cinv s -> at_index h hg -> (hg <= length (out s))%nat -> recent s hg ->
  runqhead (ring s) = h -> Z.of_nat (length temp) = n ->
  (hg + length temp <= length (inp s))%nat -> good_copy s hg temp ->
  cinv (with_head (u32 (h + n)) temp s).
Proof.
  intros C Hh Hl Hr E Hn Hi G. pose proof (cv_ring _ C) as I.
  pose proof (ring_take s h hg n temp I Hh Hl Hr E Hn Hi G) as I'.
  split; [done|apply C| |].
  - apply (owner_ok_later s); [done..|cbn; rewrite length_app; lia|apply C].
  - eapply (thieves_later s _ []); [by rewrite app_nil_r|cbn; rewrite length_app; lia|done|apply C].
Qed.

Lemma grab_bound s h hg :
  ring_inv s -> at_index h hg -> (hg <= length (out s))%nat -> recent s hg ->
  0 <= grab_count (runqtail (ring s)) h <= Z.of_nat (length (inp s)) - Z.of_nat hg.
Proof.
  intros I Hh Hl Hr. unfold grab_count, at_index, recent in *. cbn zeta.
  rewrite (cv_tail _ I), Hh, u32_sub.
  pose proof (cv_len _ I). pose proof (cv_room _ I). rewrite N_val in *.
  rewrite (u32_small (c0 + _ - _)) by lia.
  set (d := c0 + Z.of_nat (length (inp s)) - (c0 + Z.of_nat hg)).
  assert (d = Z.of_nat (length (inp s)) - Z.of_nat hg) by (unfold d; lia).
  pose proof (Z.div_mod d 2). pose proof (Z.mod_pos_bound d 2).
  rewrite u32_small by lia. lia.
Qed.

Lemma tstep_inv s i s' : cinv s -> tstep s i s' -> cinv s'.
Proof.
  intros C. pose proof (cv_ring _ C) as I. pose proof (cv_thieves _ C) as Th.
  destruct 1 as [Hi|h hg Hi Hr Hg|h hg Hi Hg|h hg Hi Hr Hg Hg'|h hg n temp task Hi Hn Hs
                |h hg n temp Hi Hn Hr Hs|h hg n temp Hi Hn Hs]; pose proof (Th _ _ Hi) as Ht; cbn in Ht.
  - apply inv_thief; [done|]. split; [apply I|done].
  - by apply inv_thief.
  - apply inv_thief; [done|]. split; [apply I|done].
  - destruct Ht as [Hh Hl]. pose proof (grab_bound s h hg I Hh Hl Hr).
    apply inv_thief; [done|]. cbn. split_and!; [done|done|lia|done|lia|lia|done].
  - destruct Ht as (Hh & Hl & Hn0 & Hb & Ht & G). apply inv_thief; [done|]. cbn.
    rewrite length_app. cbn [length]. split_and!; try done; try lia.
    eapply good_copy_read; [done..|lia|done|done].
  - destruct Ht as (Hh & Hl & Hn0 & Hb & Ht & G). apply inv_thief; [|done].
    eapply inv_take; try done. lia.
  - apply inv_thief; [done|]. split; [apply I|done].
Qed.

Lemma inv_store s c x j o :
  cinv s -> pending o = pending (own s) ->
  slot c = slot (c0 + Z.of_nat (length (inp s) + j)) ->
  Z.of_nat (length (inp s) + j) - Z.of_nat (length (out s)) < N ->
  owner_ok (with_own o (with_slot c x s)) -> cinv (with_own o (with_slot c x s)).
Proof.
  intros C Ep Hc Hj O. pose proof (ring_store s c x j (cv_ring _ C) Hc Hj) as I'.
  split; [destruct I'; by split| |done|].
  - cbn. rewrite Ep. apply C.
  - eapply (thieves_later s _ []); [by rewrite app_nil_r|done|done|apply C].
Qed.

Lemma inv_publish s t xs :
  cinv s -> pending (own s) = xs -> t = u32 (c0 + Z.of_nat (length (inp s) + length xs)) ->
  Z.of_nat (length (inp s) + length xs) - Z.of_nat (length (out s)) <= N ->
  (forall j x, xs !! j = Some x ->
     runq (ring s) !! slot (c0 + Z.of_nat (length (inp s) + j)) = Some (Some x)) ->
  cinv (with_own (o_idle false) (with_tail t xs s)).
Proof.
  intros C Ep -> Hl Hs. pose proof (ring_publish s xs (cv_ring _ C) Hl Hs) as I'.
  split; [destruct I'; by split| |done|].
  - cbn. rewrite (cv_given _ C), Ep. solve_Permutation.
  - eapply (thieves_later s _ xs); [done|done|done|apply C].
Qed.

Lemma tail_diff s h hg :
  ring_inv s -> at_index h hg -> (hg <= length (out s))%nat ->
  Z.of_nat (length (inp s)) - Z.of_nat hg <= N ->
  u32 (runqtail (ring s) - h) = Z.of_nat (length (inp s)) - Z.of_nat hg.
Proof.
  intros I Hh Hl Hd. pose proof (cv_len _ I). unfold at_index in Hh. rewrite N_val in Hd.
  rewrite (cv_tail _ I), Hh, u32_sub, u32_small by lia. lia.
Qed.

Lemma own_get_head s : cinv s -> pending (own s) = [] ->
  cinv (with_own (o_get_head (runqhead (ring s)) (length (out s))) s).
Proof. intros C E. apply inv_own_same; [done|done|]. split; [apply C|done]. Qed.

Lemma ostep_get s s' : cinv s ->
  match own s with o_get_head _ _ | o_get_task _ _ | o_get_cas _ _ _ => True | _ => False end ->
  ostep s s' -> cinv s'.
Proof.
  intros C Hw St. pose proof (cv_ring _ C) as I. pose proof (cv_own _ C) as O. unfold owner_ok in O.
  destruct St as [b Ho|h hg Ho Hr Ht|h hg Ho Hr Ht|h hg task Ho Hs|h hg task Ho Hr Hs|h hg task Ho Hs
    |b x Ho|x Ho|x h hg Ho Hn|x t Ho|x t Ho|x h hg Ho Hn Ha|x h hg Ho Hn Ha|x h hg n temp task Ho Hn Hs
    |x h hg n temp Ho Hn Hr Hs|x h hg n temp Ho Hn Hs|xs Ho Hn|xs Ho|xs h Ho Hn|xs h Ho Hn
    |xs k t x Ho Hx|xs t Ho]; rewrite Ho in Hw, O; try done.
  - destruct O as [Hh Hl]. apply inv_own_same; [done|by rewrite Ho|]. intros _. cbn.
    rewrite (cv_tail _ I) in Ht. unfold at_index in Hh. rewrite Hh in Ht.
    pose proof (cv_len _ I). pose proof (cv_room _ I). unfold recent in Hr. rewrite N_val in *.
    apply u32_eq in Ht; lia.
  - destruct O as [Hh Hl]. apply inv_own_same; [done|by rewrite Ho|]. split_and!; [done|done|]. cbn.
    pose proof (cv_len _ I). destruct (decide (hg = length (inp s))) as [->|]; [|lia].
    exfalso. apply Ht. rewrite (cv_tail _ I). done.
  - destruct O as (Hh & Hl & Hi). apply inv_own_same; [done|by rewrite Ho|]. split_and!; try done.
    apply (good_copy_read s h hg []); cbn; rewrite ?Z.add_0_r; try done. lia.
  - destruct O as (Hh & Hl & Hi & G). apply inv_own_same; [|cbn; by rewrite Ho|done].
    eapply inv_take; try done. cbn. lia.
  - apply own_get_head; [done|by rewrite Ho].
Qed.

Lemma inv_given s o :
  cinv s -> pending (own s) = [] -> owner_ok (with_own o s) ->
  cinv (with_own o (with_given (pending o) s)).
Proof.
  intros [I G O Th] E HO. split; [destruct I; by split| |done|].
  - cbn. rewrite G, E. solve_Permutation.
  - eapply (thieves_later s _ []); [by rewrite app_nil_r|done|done|done].
Qed.

Lemma ostep_inv s s' : cinv s -> ostep s s' -> cinv s'.
Proof.
  intros C St. pose proof (cv_ring _ C) as I. pose proof (cv_own _ C) as O.
  pose proof (cv_len _ I). pose proof (cv_room _ I). pose proof (cv_tail _ I) as Tl.
  pose proof (ostep_get s s' C) as Get. pose proof St as St'.
  unfold owner_ok in O. change (N / 2) with 256 in *. rewrite ?N_val in *.
  destruct St as [b Ho|h hg Ho Hr Ht|h hg Ho Hr Ht|h hg task Ho Hs|h hg task Ho Hr Hs|h hg task Ho Hs
    |b x Ho|x Ho|x h hg Ho Hn|x t Ho|x t Ho|x h hg Ho Hn Ha|x h hg Ho Hn Ha|x h hg n temp task Ho Hn Hs
    |x h hg n temp Ho Hn Hr Hs|x h hg n temp Ho Hn Hs|xs Ho Hn|xs Ho|xs h Ho Hn|xs h Ho Hn
    |xs k t x Ho Hx|xs t Ho]; rewrite Ho in O, Get; try (by apply Get); clear Get St';
    pose proof (cv_given _ C) as Hgiven; rewrite Ho in Hgiven; cbn [pending] in Hgiven; change (N / 2) with 256 in *; rewrite ?N_val in *.
  - apply own_get_head; [done|by rewrite Ho].
  - apply inv_given; [done|by rewrite Ho|done].
  - apply inv_own_same; [done|by rewrite Ho|]. split_and!; [apply I|done|apply I].
  - destruct O as (Hh & Hl & Hd). apply inv_own_same; [done|by rewrite Ho|]. split; [done|]. cbn.
    rewrite (tail_diff s h hg I Hh Hl Hd) in Hn. rewrite ?N_val in *. lia.
  - destruct O as [-> Hd]. apply (inv_store s _ x 0); [done|by rewrite Ho|..].
    + by rewrite Tl, slot_u32, Nat.add_0_r.
    + rewrite Nat.add_0_r. done.
    + split_and!; [done|done|]. cbn. apply list_lookup_insert_eq. rewrite (cv_slots _ I). apply slot_lt.
  - destruct O as (-> & Hd & Hs). apply inv_publish; [done|by rewrite Ho|..]; cbn [length].
    + rewrite Tl, u32_add_l. f_equal. lia.
    + rewrite ?N_val. lia.
    + intros j y [-> <-]%list_lookup_singleton_Some. rewrite <- Hs, Tl, slot_u32, Nat.add_0_r. done.
  - destruct O as (Hh & Hl & Hd). pose proof (tail_diff s h hg I Hh Hl Hd) as Ed. rewrite Ed in *.
    apply inv_own_same; [done|by rewrite Ho|]. rewrite ?N_val in Hd.
    assert (Z.of_nat (length (inp s)) - Z.of_nat hg = 512) as E5 by lia.
    unfold owner_ok. cbn [own with_own]. rewrite E5. change (N / 2) with 256. rewrite ?N_val.
    split_and!; try done; cbn; lia.
  - destruct O as (Hh & Hl & Hd). pose proof (tail_diff s h hg I Hh Hl Hd) as Ed. rewrite Ed in *.
    rewrite ?N_val in Hd. exfalso. apply Ha.
    replace (Z.of_nat (length (inp s)) - Z.of_nat hg) with 512 by lia. done.
  - destruct O as (Hh & Hl & Hd & -> & Hle & G). apply inv_own_same; [done|by rewrite Ho|].
    cbn. change (N / 2) with 256 in *. rewrite length_app. cbn [length]. split_and!; try done; [lia|].
    apply (good_copy_read s h hg temp task); [done|done|lia|done|done].
  - destruct O as (Hh & Hl & Hd & -> & Hle & G).
    assert (cinv (with_head (u32 (h + 256)) temp s)) as C' by (eapply inv_take; try done; lia).
    split; [destruct (cv_ring _ C'); by split|cbn; rewrite Hgiven; solve_Permutation|done|].
    eapply (thieves_later (with_head (u32 (h + 256)) temp s) _ []);
      [by rewrite app_nil_r|done|done|apply C'].
  - apply inv_own_same; [done|by rewrite Ho|done].
  - apply inv_given; [done|by rewrite Ho|]. split; [by apply O|done].
  - apply inv_own_same; [done|by rewrite Ho|]. destruct O as [? [? ?]]. by repeat split.
  - destruct O as (Hd & Hx & ->). apply inv_own_same; [done|by rewrite Ho|]. cbn.
    change (N / 2) with 256. split_and!; [done|lia|lia|by rewrite Tl, Nat.add_0_r|lia|intros; lia].
  - exfalso. destruct O as (Hd & Hx & ->). rewrite Tl, (cv_head _ I), u32_sub in Hn.
    replace (c0 + Z.of_nat (length (inp s)) - (c0 + Z.of_nat (length (out s)))) with 0 in Hn by lia.
    change (u32 0) with 0 in Hn. rewrite u32_small in Hn by lia. lia.
  - destruct O as (Hd & Hxs & -> & Hk & Hst). apply lookup_lt_Some in Hx as Hlt.
    apply (inv_store s _ x k); [done|by rewrite Ho|..].
    + by rewrite slot_u32.
    + rewrite ?N_val. lia.
    + cbn. change (N / 2) with 256. split_and!; [done|lia|lia|rewrite u32_add_l; f_equal; lia|lia|].
      intros j y Hj Hy. destruct (decide (j = k)) as [->|Hne].
      * rewrite slot_u32, list_lookup_insert_eq; [by simplify_eq|]. rewrite (cv_slots _ I). apply slot_lt.
      * rewrite list_lookup_insert_ne; [apply Hst; [lia|done]|].
        rewrite slot_u32. intros E%slot_inj; unfold TSC_TASK_NUM_PERPRIO; lia.
  - destruct O as (Hd & Hxs & -> & Hk & Hst). apply inv_publish; [done|by rewrite Ho|done|rewrite ?N_val; lia|].
    intros j y Hy. apply Hst; [by eapply lookup_lt_Some|done].
Qed.

Lemma cstep_inv s s' : cinv s -> cstep s s' -> cinv s'.
Proof. intros C [H|i H]; [by eapply ostep_inv|by eapply tstep_inv]. Qed.

Lemma cinit_inv s : cinit c0 s -> cinv s.
Proof.
  intros [H1 H2 H3 H4 H5 H6 H7 H8 H9 H10].
  split; [split|..]; rewrite ?H3, ?H4, ?H5, ?H7, ?H8, ?H9, ?H10; cbn; try done; try lia.
  - by rewrite Z.add_0_r, u32_small.
  - by rewrite Z.add_0_r, u32_small.
  - unfold owner_ok. by rewrite H5.
  - intros i t Hi. by rewrite (H6 i t Hi).
Qed.

Lemma reachable_inv s0 s : cinit c0 s0 -> rtc cstep s0 s -> cinv s.
Proof. intros Hi%cinit_inv R. revert Hi. induction R; [done|]. intros. by eauto using cstep_inv. Qed.

(** The tasks between the counters, as the sequential operations see them. *)
Lemma ring_inv_rep s : ring_inv s -> runq_rep (ring s) (drop (length (out s)) (inp s)).
Proof.
  intros [I1 I2 I3 I4 I5 I6 I7]. split; rewrite ?length_drop.
  - exact I1.
  - rewrite I4. apply u32_range.
  - rewrite I5, I4, u32_add_l. f_equal. lia.
  - change TSC_TASK_NUM_PERPRIO with N. lia.
  - intros k x Hk. rewrite lookup_drop in Hk. rewrite I4, slot_u32_add, <- (I6 _ _ (Nat.le_add_r _ _) Hk).
    do 2 f_equal. lia.
Qed.
End inv.
End conc.
Arguments cstate : clear implicits.
Arguments owner : clear implicits.
Arguments thief : clear implicits.

(** ** The theorem *)

(** C2: however the owner and the thieves of a ring interleave, and however
    often its 32-bit counters wrap: the tasks taken out, put together in the
    order of the successful compare-and-swaps, are exactly the first tasks put
    in, in order (each taken once, by one thread, none invented); the rest is
    what the ring still holds; a task handed to [__runqput] is in one of those
    two, or went to the global queue, or is the one being put; and the
    assertions of [__runqputslow] and [__runqsteal] hold. *)
Theorem ring_is_a_fifo {T} c0 (s0 s : cstate T) :
  cinit c0 s0 -> rtc cstep s0 s ->
  exists taken live, out s = Some <$> taken /\ inp s = taken ++ live /\
    runq_rep (ring s) live /\ given s ≡ₚ taken ++ live ++ div s ++ pending (own s) /\
    own s <> o_failed.
Proof.
  intros Hi R. pose proof (reachable_inv c0 s0 s Hi R) as C. pose proof (cv_ring _ _ C) as I.
  exists (take (length (out s)) (inp s)), (drop (length (out s)) (inp s)).
  split_and!; [apply I|by rewrite take_drop|by eapply ring_inv_rep| |].
  - rewrite (app_assoc (take _ _)), take_drop. apply C.
  - intros E. pose proof (cv_own _ _ C) as O. unfold owner_ok in O. by rewrite E in O.
Qed.

(** Two tasks are put across the wrap of the counters; a thief copies the
    first one, the owner overtakes it and gets that task, the thief's
    compare-and-swap fails, it starts over and takes the second one. *)
Definition demo_ring : cstate nat :=
  mk_c (mk_pq 0 (replicate 512 None) (2 ^ 32 - 1) (2 ^ 32 - 1)) (o_idle false) {[0%nat := t_idle]}
       [] [] [] [].

Ltac step_side :=
  match goal with
  | |- _ !! _ = Some _ => vm_compute; reflexivity
  | |- _ <> _ => vm_compute; discriminate
  | |- _ => vm_compute; first [reflexivity|discriminate]
  end.
Ltac norm_state :=
  match goal with
  | |- rtc cstep ?s _ =>
      let s' := eval vm_compute in s in
      replace s with s' by (vm_compute; reflexivity)
  end.
Local Tactic Notation "own_step" uconstr(c) := eapply rtc_l; [apply c_owner; eapply c; [reflexivity|..]; step_side|]; norm_state.
Local Tactic Notation "thief_step" uconstr(c) := eapply rtc_l; [apply (c_thief _ _ 0%nat); eapply c; [reflexivity|..]; step_side|]; norm_state.

Lemma demo_run : exists s, rtc cstep demo_ring s /\ out s = [Some 7; Some 8]%nat.
Proof.
  eexists. split.
  - own_step (@os_put nat _ false 7%nat). own_step @os_put_read. own_step @os_put_room.
    own_step @os_put_slot. own_step @os_put_publish.
    own_step (@os_put nat _ false 8%nat). own_step @os_put_read. own_step @os_put_room.
    own_step @os_put_slot. own_step @os_put_publish.
    thief_step @ts_head. thief_step @ts_some. thief_step @ts_read.
    own_step @os_get. own_step @os_get_some. own_step @os_get_read. own_step @os_get_cas_ok.
    thief_step @ts_cas_fail. thief_step @ts_some. thief_step @ts_read. thief_step @ts_cas_ok.
    apply rtc_refl.
  - vm_compute. reflexivity.
Qed.

Lemma ring_is_a_fifo_witness :
  exists s taken live, out s = [Some 7; Some 8]%nat /\ out s = Some <$> taken /\ inp s = taken ++ live /\
    runq_rep (ring s) live /\ given s ≡ₚ taken ++ live ++ div s ++ pending (own s) /\
    own s <> o_failed.
Proof.
  destruct demo_run as (s & R & E). exists s.
  destruct (ring_is_a_fifo (2 ^ 32 - 1) demo_ring s) as (taken & live & H); [|exact R|].
  - split; try reflexivity; [lia|]. intros i t Hi.
    change (({[0%nat := t_idle]} : gmap nat (thief nat)) !! i = Some t) in Hi.
    apply lookup_singleton_Some in Hi as [_ <-]. reflexivity.
  - exists taken, live. split; [exact E|exact H].
Defined.
