(* ===== verification/Scheduler.v ===== *)
(** * The VPUs and the scheduler (src/vpu.c, include/inter/vpu.h, coroutine.h)

    The state [world] has the coroutine table, the VPUs with their private
    run queues, the global queues of the VPU manager and its counters.  A
    coroutine's [status_link] and [trace_link] are items of one queue store.
    [me] is the VPU of the calling thread ([TSC_TLS_GET]), [None] for a thread
    that is no VPU.

    This file has the definitions.  SchedInv relates a world to the tasks
    each global and each private queue holds and shows what the queue
    operations do to them; SchedProps has the invariant of the scheduler.

    The macros of support.h for the clock signal are taken as in a build
    without ENABLE_TIMESHARE, where they expand to nothing; SignalMask has
    their other expansion. *)

From S2P Require Import Prelude Queue RunQueue.

Abbreviation coid := nat (only parsing).

Definition TSC_PRIO_NUM : Z := 4.
Definition TSC_RESCHED_THRESHOLD : Z := 5.
Definition MAX_SPIN_LOOP_NUM : Z := 1.

Inductive coroutine_status : Type :=
| TSC_COROUTINE_SLEEP | TSC_COROUTINE_READY | TSC_COROUTINE_RUNNING
| TSC_COROUTINE_WAIT | TSC_COROUTINE_IOWAIT | TSC_COROUTINE_EXIT.

#[export] Instance coroutine_status_eq_dec : EqDecision coroutine_status.
Proof. solve_decision. Defined.

Inductive coroutine_type : Type :=
| TSC_COROUTINE_IDLE | TSC_COROUTINE_NORMAL | TSC_COROUTINE_MAIN.

#[export] Instance coroutine_type_eq_dec : EqDecision coroutine_type.
Proof. solve_decision. Defined.

(** The fields of [struct coroc_coroutine] the scheduler works on. *)
Record coroutine := mk_co {
  id : Z;
  ctype : coroutine_type;
  vpu_id : Z;
  vpu_affinity : Z;
  async_wait : Z;
  status : coroutine_status;
  priority : Z;
  syscall : bool;
  backtrace : bool;
  sigmask_nest : Z;
  stack_size : Z
}.

Definition set_status (v : coroutine_status) (c : coroutine) :=
  mk_co (id c) (ctype c) (vpu_id c) (vpu_affinity c) (async_wait c) v (priority c)
        (syscall c) (backtrace c) (sigmask_nest c) (stack_size c).
Definition set_syscall (v : bool) (c : coroutine) :=
  mk_co (id c) (ctype c) (vpu_id c) (vpu_affinity c) (async_wait c) (status c) (priority c)
        v (backtrace c) (sigmask_nest c) (stack_size c).
Definition set_backtrace (v : bool) (c : coroutine) :=
  mk_co (id c) (ctype c) (vpu_id c) (vpu_affinity c) (async_wait c) (status c) (priority c)
        (syscall c) v (sigmask_nest c) (stack_size c).
Definition set_async_wait (v : Z) (c : coroutine) :=
  mk_co (id c) (ctype c) (vpu_id c) (vpu_affinity c) v (status c) (priority c)
        (syscall c) (backtrace c) (sigmask_nest c) (stack_size c).
(** the updates of [core_sched] on the elected coroutine *)
Definition set_running (v : Z) (c : coroutine) :=
  mk_co (id c) (ctype c) (u8 v) (u8 v) 0 TSC_COROUTINE_RUNNING (priority c)
        false (backtrace c) (sigmask_nest c) (stack_size c).

(** The two intrusive links of a coroutine, and the queues of the manager. *)
Inductive link_kind : Type := status_link | trace_link.
#[export] Instance link_kind_eq_dec : EqDecision link_kind.
Proof. solve_decision. Defined.
#[export] Instance link_kind_countable : Countable link_kind.
Proof.
  refine (inj_countable' (fun k => match k with status_link => true | trace_link => false end)
            (fun b : bool => if b then status_link else trace_link) _). by intros [].
Defined.

Abbreviation link := (coid * link_kind)%type (only parsing).

(** [Some p] is [vpu_manager.xt[p]], [None] is [vpu_manager.coroutine_list]. *)
Abbreviation mqueue := (option nat) (only parsing).

(** How [core_wait] releases what [vpu_suspend] was given: one lock, a lock
    chain, or a mutex; [hold] lists the locks. *)
Inductive unlock_handler : Type :=
| unlock_lock_release | unlock_lock_chain_release | unlock_pthread_mutex_unlock.

Record vpu := mk_vpu {
  vid : Z;
  watchdog : Z;
  ticks : Z;
  rand_seed : Z;
  current : option coid;
  scheduler : option coid;
  xt : list (p_task_que coid);
  hold : option (unlock_handler * list Z)
}.

Definition set_watchdog (v : Z) (p : vpu) :=
  mk_vpu (vid p) v (ticks p) (rand_seed p) (current p) (scheduler p) (xt p) (hold p).
Definition set_ticks (v : Z) (p : vpu) :=
  mk_vpu (vid p) (watchdog p) v (rand_seed p) (current p) (scheduler p) (xt p) (hold p).
Definition set_rand_seed (v : Z) (p : vpu) :=
  mk_vpu (vid p) (watchdog p) (ticks p) v (current p) (scheduler p) (xt p) (hold p).
Definition set_current (v : option coid) (p : vpu) :=
  mk_vpu (vid p) (watchdog p) (ticks p) (rand_seed p) v (scheduler p) (xt p) (hold p).
Definition set_xt (v : list (p_task_que coid)) (p : vpu) :=
  mk_vpu (vid p) (watchdog p) (ticks p) (rand_seed p) (current p) (scheduler p) v (hold p).
Definition set_hold (v : option (unlock_handler * list Z)) (p : vpu) :=
  mk_vpu (vid p) (watchdog p) (ticks p) (rand_seed p) (current p) (scheduler p) (xt p) v.

Record vpu_manager := mk_mgr {
  ready : list Z;
  xt_index : Z;
  last_pid : Z;
  main : option coid;
  alive : Z;
  idle : Z;
  total_ready : Z;
  total_iowait : Z
}.

Definition set_ready (v : list Z) (m : vpu_manager) :=
  mk_mgr v (xt_index m) (last_pid m) (main m) (alive m) (idle m) (total_ready m) (total_iowait m).
Definition set_last_pid (v : Z) (m : vpu_manager) :=
  mk_mgr (ready m) (xt_index m) v (main m) (alive m) (idle m) (total_ready m) (total_iowait m).
Definition set_main (v : option coid) (m : vpu_manager) :=
  mk_mgr (ready m) (xt_index m) (last_pid m) v (alive m) (idle m) (total_ready m) (total_iowait m).
Definition set_alive (v : Z) (m : vpu_manager) :=
  mk_mgr (ready m) (xt_index m) (last_pid m) (main m) v (idle m) (total_ready m) (total_iowait m).
Definition set_idle (v : Z) (m : vpu_manager) :=
  mk_mgr (ready m) (xt_index m) (last_pid m) (main m) (alive m) v (total_ready m) (total_iowait m).
Definition set_total_ready (v : Z) (m : vpu_manager) :=
  mk_mgr (ready m) (xt_index m) (last_pid m) (main m) (alive m) (idle m) v (total_iowait m).
Definition set_total_iowait (v : Z) (m : vpu_manager) :=
  mk_mgr (ready m) (xt_index m) (last_pid m) (main m) (alive m) (idle m) (total_ready m) v.

Record world := mk_world {
  coros : gmap coid coroutine;
  links : qstore link mqueue coid;
  vpus : list vpu;
  mgr : vpu_manager;
  locks : gmap Z bool;          (* the locks [hold] may name; [true]: held *)
  signals : Z                   (* pthread_cond_signal(&vpu_manager.cond) so far *)
}.

Definition set_coros v w := mk_world v (links w) (vpus w) (mgr w) (locks w) (signals w).
Definition set_links v w := mk_world (coros w) v (vpus w) (mgr w) (locks w) (signals w).
Definition set_vpus v w := mk_world (coros w) (links w) v (mgr w) (locks w) (signals w).
Definition set_mgr v w := mk_world (coros w) (links w) (vpus w) v (locks w) (signals w).
Definition set_locks v w := mk_world (coros w) (links w) (vpus w) (mgr w) v (signals w).
Definition set_signals v w := mk_world (coros w) (links w) (vpus w) (mgr w) (locks w) v.

(** ** Accesses *)

Definition get_co (c : coid) : ST world coroutine :=
  fun w => match coros w !! c with Some x => Ok (x, w) | None => Err Dangling end.
Definition upd_co (c : coid) (f : coroutine -> coroutine) : ST world unit :=
  fun w => match coros w !! c with
           | Some x => Ok (tt, set_coros (<[c := f x]> (coros w)) w)
           | None => Err Dangling
           end.
Definition get_vpu (v : nat) : ST world vpu :=
  fun w => match vpus w !! v with Some x => Ok (x, w) | None => Err OutOfBounds end.
Definition upd_vpu (v : nat) (f : vpu -> vpu) : ST world unit :=
  fun w => match vpus w !! v with
           | Some x => Ok (tt, set_vpus (<[v := f x]> (vpus w)) w)
           | None => Err OutOfBounds
           end.
Definition get_mgr : ST world vpu_manager := fun w => Ok (mgr w, w).
Definition upd_mgr (f : vpu_manager -> vpu_manager) : ST world unit :=
  modify (fun w => set_mgr (f (mgr w)) w).
Definition on_links {A} (c : ST (qstore link mqueue coid) A) : ST world A :=
  zoom links set_links c.

(** A computation on the private queue [&vpu->xt[p]]. *)
Definition on_pq {A} (v p : nat) (c : ST (p_task_que coid) A) : ST world A :=
  fun w => match vpus w !! v with
           | None => Err OutOfBounds
           | Some vp => match xt vp !! p with
                        | None => Err OutOfBounds
                        | Some pq => match c pq with
                                     | Ok (a, pq') =>
                                         Ok (a, set_vpus (<[v := set_xt (<[p := pq']> (xt vp)) vp]> (vpus w)) w)
                                     | Err f => Err f
                                     end
                        end
           end.

(** [TSC_ATOMIC_INC]/[TSC_ATOMIC_DEC] of [vpu_manager.ready[p]]. *)
Definition upd_ready (p : nat) (d : Z) : ST world unit :=
  fun w => match ready (mgr w) !! p with
           | Some n => Ok (tt, set_mgr (set_ready (<[p := u32 (n + d)]> (ready (mgr w))) (mgr w)) w)
           | None => Err OutOfBounds
           end.
Definition upd_total_ready (d : Z) : ST world unit :=
  upd_mgr (fun m => set_total_ready (u32 (total_ready m + d)) m).
Definition upd_total_iowait (d : Z) : ST world unit :=
  upd_mgr (fun m => set_total_iowait (u32 (total_iowait m + d)) m).

(** ** The run queue operations that reach the global queue *)

(** [queue_link] on the status links of consecutive elements of [temp]. *)
Fixpoint link_tasks (temp : list coid) : ST world unit :=
  match temp with
  | a :: (b :: _) as rest =>
      do! on_links (queue_link (a, status_link) (b, status_link)) in link_tasks rest
  | _ => ret tt
  end.

(** The slots read from the ring as tasks: a slot never written is a wild
    pointer. *)
Fixpoint all_tasks (ts : list (option coid)) : ST world (list coid) :=
  match ts with
  | [] => ret []
  | t :: ts => let! c := demand Dangling t in
               let! cs := all_tasks ts in ret (c :: cs)
  end.

Definition __runqputslow (v p : nat) (task : coid) (head tail : Z) : ST world bool :=
  let n := u32 (tail - head) / 2 in
  do! assert_ (n =? TSC_TASK_NUM_PERPRIO / 2) in
  let! temp := on_pq v p (read_slots head (Z.to_nat n)) in
  let! ok := on_pq v p (cas_head head (u32 (head + n))) in
  if negb ok then ret false else
  let! temp := all_tasks temp in
  let temp := temp ++ [task] in
  do! link_tasks temp in
  let! pq := on_pq v p get in
  let! first := demand OutOfBounds (temp !! 0%nat) in
  do! on_links (atomic_queue_add_range (Some (Z.to_nat (prio pq))) (u32 (n + 1))
                  (first, status_link) (task, status_link)) in
  ret true.

Fixpoint __runqput (fuel : nat) (v p : nat) (task : coid) : ST world unit :=
  match fuel with
  | 0%nat => throw OutOfFuel
  | S fuel =>
      let! pq := on_pq v p get in
      let head := runqhead pq in
      let tail := runqtail pq in
      if u32 (tail - head) <? TSC_TASK_NUM_PERPRIO then
        on_pq v p (runqput_fast tail task)
      else
        let! ok := __runqputslow v p task head tail in
        if (ok : bool) then ret tt else __runqput fuel v p task
  end.

(** The retry loops above stop at the first pass when no other thread runs in
    between: two passes are enough (lemma [runqput_rep]). *)
Definition FUEL : nat := 2.

Definition __runqsteal (v p victim : nat) : ST world (option coid) :=
  let! '(n, temp) := on_pq victim p (__runqgrab FUEL) in
  on_pq v p (runqsteal_keep n temp).

Definition RNGMOD : Z := 2 ^ 32 - 5.
Definition RNGMUL : Z := 69070.

Definition __myrand (v : nat) : ST world Z :=
  let! vp := get_vpu v in
  let state := u32 (u64 (RNGMUL * rand_seed vp) mod RNGMOD) in
  do! upd_vpu v (set_rand_seed state) in
  ret state.

Definition __mysrand (v : nat) (seed : Z) : ST world unit :=
  let seed := seed mod RNGMOD in
  let seed := u32 (seed + (if seed =? 0 then 1 else 0)) in
  upd_vpu v (set_rand_seed seed).

Definition __random_steal (v p : nat) : ST world (option coid) :=
  let! r := __myrand v in
  let! m := get_mgr in
  let victim_id := i32 (r mod xt_index m) in
  let! vp := get_vpu v in
  if u32 victim_id =? vid vp then ret None else
  if victim_id <? 0 then throw OutOfBounds else
  __runqsteal v p (Z.to_nat victim_id).

(** The fetch loop of [core_elect] under the global queue's lock: [n] items
    are unlinked from the front; the first becomes the candidate, the others
    go to the private queue. *)
Fixpoint fetch_global (n : nat) (v p : nat) (candidate : option coid) : ST world (option coid) :=
  match n with
  | 0%nat => ret candidate
  | S n =>
      let! gq := on_links (get_queue (Some p)) in
      let! kitem := on_links (get_item (qhead gq)) in
      do! on_links (upd_queue (Some p) (set_head' (next kitem))) in
      do! on_links (upd_queue (Some p) (fun q => set_status' (u32 (qstatus q - 1)) q)) in
      let! own := demand NullDeref (owner kitem) in
      match candidate with
      | None => fetch_global n v p (Some own)
      | Some _ => do! __runqput FUEL v p own in fetch_global n v p candidate
      end
  end.

(** [while (gq->status > 0 && retry++ < 10)] with [retries] left. *)
Fixpoint elect_global (retries : nat) (v p : nat) : ST world (option coid) :=
  match retries with
  | 0%nat => ret None
  | S retries =>
      let! gq := on_links (get_queue (Some p)) in
      if qstatus gq =? 0 then ret None else
      let! busy := on_links (qlock_try_acquire (Some p)) in
      if (busy : bool) then elect_global retries v p else
      let! gq := on_links (get_queue (Some p)) in
      let max_fetch := if qstatus gq <? TSC_TASK_NUM_PERPRIO - 1 then qstatus gq
                       else TSC_TASK_NUM_PERPRIO - 1 in
      let! candidate := fetch_global (Z.to_nat max_fetch) v p None in
      let! gq := on_links (get_queue (Some p)) in
      do! (match qhead gq with
           | Some _ => on_links (upd_item (qhead gq) (set_prev' None))
           | None => on_links (upd_queue (Some p) (set_tail' None))
           end) in
      do! on_links (qlock_release (Some p)) in
      ret candidate
  end.

(** [MAX_STEALING_FAIL_NUM] is [2 * xt_index]; [failure_time++ > MAX] lets
    [2 * xt_index + 2] attempts happen. *)
Fixpoint elect_steal (attempts : nat) (v p : nat) : ST world (option coid) :=
  match attempts with
  | 0%nat => ret None
  | S attempts =>
      let! candidate := __random_steal v p in
      match candidate with
      | Some c => ret (Some c)
      | None => elect_steal attempts v p
      end
  end.

Definition core_elect (v p : nat) : ST world (option coid) :=
  let! candidate := on_pq v p (__runqget FUEL) in
  match candidate with
  | Some c => ret (Some c)
  | None =>
      let! candidate := elect_global 10 v p in
      match candidate with
      | Some c => ret (Some c)
      | None => let! m := get_mgr in
                elect_steal (Z.to_nat (2 * xt_index m + 2)) v p
      end
  end.

(** ** Making tasks ready, waiting, yielding *)

Definition vpu_wakeup_one : ST world unit :=
  let! m := get_mgr in
  if (alive m =? 0) ||
     ((alive m <? xt_index m) && (idle m =? 0) && (2 * alive m <? total_ready m))
  then modify (fun w => set_signals (signals w + 1) w)
  else ret tt.

(** The unlock handlers: a lock that is not held is not released. *)
Definition lock_release (l : Z) : ST world unit :=
  fun w => match locks w !! l with
           | Some true => Ok (tt, set_locks (<[l := false]> (locks w)) w)
           | Some false => Err AssertFail
           | None => Err Dangling
           end.

Fixpoint release_all (ls : list Z) : ST world unit :=
  match ls with
  | [] => ret tt
  | l :: ls => do! lock_release l in release_all ls
  end.

Definition run_unlock (h : unlock_handler * list Z) : ST world unit :=
  match h with
  | (unlock_lock_chain_release, ls) => release_all (reverse ls)
  | (_, ls) => release_all ls
  end.

Definition core_wait (v : nat) (victim : coid) : ST world unit :=
  do! upd_co victim (set_status TSC_COROUTINE_WAIT) in
  let! co := get_co victim in
  do! (if async_wait co =? 0 then ret tt else upd_total_iowait 1) in
  let! vp := get_vpu v in
  match hold vp with
  | None => ret tt
  | Some h => do! run_unlock h in upd_vpu v (set_hold None)
  end.

Definition core_yield (victim : coid) : ST world unit :=
  do! upd_co victim (set_status TSC_COROUTINE_READY) in
  let! co := get_co victim in
  do! on_links (atomic_queue_add (Some (Z.to_nat (priority co))) (victim, status_link)) in
  do! upd_ready (Z.to_nat (priority co)) 1 in
  upd_total_ready 1.

(** [vpu_syscall(pfn)] up to the point where the scheduler context runs
    [pfn] on the calling coroutine; the rest of the caller runs when
    [core_sched] elects it again. *)
Definition vpu_syscall (v : nat) (pfn : coid -> ST world unit) : ST world unit :=
  let! vp := get_vpu v in
  let! self := demand AssertFail (current vp) in
  do! upd_co self (set_syscall true) in
  do! upd_vpu v (set_current (scheduler vp)) in
  pfn self.

Definition vpu_suspend (v : nat) (lock : list Z) (handler : unlock_handler) : ST world unit :=
  do! upd_vpu v (set_hold (Some (handler, lock))) in
  vpu_syscall v (core_wait v).

(** [coroc_coroutine_yield] of src/coroutine.c. *)
Definition coroc_coroutine_yield (v : nat) : ST world unit := vpu_syscall v core_yield.

(** The first part of [vpu_ready]: state, run queue and counters. *)
Definition ready_enqueue (me : option nat) (c : coid) : ST world coroutine :=
  let! co := get_co c in
  do! assert_ (bool_decide (status co = TSC_COROUTINE_WAIT)) in
  do! upd_co c (set_status TSC_COROUTINE_READY) in
  let p := Z.to_nat (priority co) in
  do! (match me with
       | Some v => __runqput FUEL v p c
       | None => on_links (atomic_queue_add (Some p) (c, status_link))
       end) in
  do! upd_total_ready 1 in
  do! upd_ready p 1 in
  do! (if async_wait co =? 0 then ret tt else upd_total_iowait (-1)) in
  ret co.

(** The second part lets a more urgent task run first, or wakes up a VPU. *)
Definition vpu_ready (me : option nat) (c : coid) (preempt : bool) : ST world unit :=
  let! co := ready_enqueue me c in
  match me with
  | Some v =>
      if negb preempt then vpu_wakeup_one else
      let! vp := get_vpu v in
      let! cur := demand NullDeref (current vp) in
      let! curco := get_co cur in
      let! m := get_mgr in
      if (priority co <? priority curco) && (alive m =? xt_index m)
      then coroc_coroutine_yield v else vpu_wakeup_one
  | None => vpu_wakeup_one
  end.

(** ** [core_sched] *)

Section core_sched.
(** [__coroc_netpoll_polling] and [__coroc_netpoll_size] of the netpoll
    component, which wake up coroutines whose descriptors are ready. *)
Variable netpoll_polling : Z -> ST world bool.
Variable netpoll_size : world -> Z.

(** The bookkeeping of [core_sched] for the elected coroutine. *)
Definition sched_dispatch (v p : nat) (candidate : coid) : ST world unit :=
  let! co := get_co candidate in
  do! assert_ (priority co =? Z.of_nat p) in
  do! upd_mgr (fun m => set_idle (u16 (idle m - 1)) m) in
  do! upd_total_ready (-1) in
  do! upd_ready (Z.to_nat (priority co)) (-1) in
  let! vp := get_vpu v in
  do! upd_co candidate (set_running (vid vp)) in
  upd_vpu v (set_current (Some candidate)).

(** One pass over the priority levels; [Some c]: the VPU runs [c] now. *)
Fixpoint sched_scan (ps : list nat) (v : nat) : ST world (option coid) :=
  match ps with
  | [] => ret None
  | p :: ps =>
      let! m := get_mgr in
      let! n := demand OutOfBounds (ready m !! p) in
      if n =? 0 then sched_scan ps v else
      let! candidate := on_pq v p (__runqget FUEL) in
      let! candidate :=
        match candidate with
        | Some c => ret (Some c)
        | None => do! netpoll_polling 0 in core_elect v p
        end in
      match candidate with
      | Some c => do! sched_dispatch v p c in ret (Some c)
      | None => sched_scan ps v
      end
  end.

Definition prio_levels : list nat := seq 0 (Z.to_nat TSC_PRIO_NUM).

(** On entry: one more idle VPU, and the watchdog starts over. *)
Definition sched_enter (v : nat) : ST world unit :=
  do! upd_mgr (fun m => set_idle (u16 (idle m + 1)) m) in
  upd_vpu v (set_watchdog 0).

(** [vpu_backtrace]: empties the coroutine list into the private queues. *)
Fixpoint backtrace_all (fuel : nat) (v : nat) : ST world unit :=
  match fuel with
  | 0%nat => throw OutOfFuel
  | S fuel =>
      let! wait_thr := on_links (atomic_queue_rem None) in
      match wait_thr with
      | None => ret tt
      | Some c =>
          let! m := get_mgr in
          do! (if bool_decide (Some c = main m) then ret tt else
               do! upd_co c (set_backtrace true) in
               let! co := get_co c in
               __runqput FUEL v (Z.to_nat (priority co)) c) in
          backtrace_all fuel v
      end
  end.

Definition vpu_backtrace (fuel : nat) (v : nat) : ST world unit :=
  do! backtrace_all fuel v in
  let! m := get_mgr in
  let! mn := demand NullDeref (main m) in
  do! upd_co mn (set_backtrace true) in
  let! co := get_co mn in
  __runqput FUEL v (Z.to_nat (priority co)) mn.

(** What a VPU that found nothing does next (the branch on [idle_loops]). *)
Inductive idle_action : Type :=
| idle_retry         (* another pass: the loop count is not used up *)
| idle_sleep         (* pthread_cond_wait on the manager's condition *)
| idle_poll          (* poll the network until something is ready *)
| idle_backtrace     (* nothing can ever run: report the deadlock *)
| idle_again.        (* tasks are ready: look again *)

Definition sched_idle (fuel : nat) (v : nat) (idle_loops : Z) : ST world (idle_action * Z) :=
  let idle_loops := idle_loops + 1 in
  if MAX_SPIN_LOOP_NUM <? idle_loops then
    do! upd_mgr (fun m => set_alive (u16 (alive m - 1)) m) in
    let! m := get_mgr in
    if (0 <? alive m) || ((total_ready m =? 0) && (0 <? total_iowait m)) then
      do! upd_mgr (fun m => set_idle (u16 (idle m - 1)) m) in
      ret (idle_sleep, 0)
    else if total_ready m =? 0 then
      let! w := get in
      if 0 <? netpoll_size w then
        do! upd_mgr (fun m => set_alive (u16 (alive m + 1)) m) in
        ret (idle_poll, 0)
      else
        do! vpu_backtrace fuel v in
        do! upd_mgr (fun m => set_alive (u16 (alive m + 1)) m) in
        ret (idle_backtrace, 0)
    else
      do! upd_mgr (fun m => set_alive (u16 (alive m + 1)) m) in
      ret (idle_again, 0)
  else ret (idle_retry, idle_loops).

(** After the condition is signalled the sleeper counts again. *)
Definition sched_awake : ST world unit :=
  do! upd_mgr (fun m => set_idle (u16 (idle m + 1)) m) in
  upd_mgr (fun m => set_alive (u16 (alive m + 1)) m).

(** The polling loop of the [idle_poll] branch: [timeout << 1] computes a
    value and drops it, so every round polls with the same timeout. *)
Fixpoint poll_loop (fuel : nat) (timeout : Z) : ST world unit :=
  match fuel with
  | 0%nat => throw OutOfFuel
  | S fuel =>
      let! some := netpoll_polling timeout in
      let! m := get_mgr in
      if negb some && (total_ready m =? 0)
      then poll_loop fuel (if 1000 <? timeout then 1000 else timeout)
      else ret tt
  end.

End core_sched.

(** [vpu_clock_handler] on a platform where the scheduler context masks the
    clock signal. *)
Definition vpu_clock_handler (v : nat) : ST world unit :=
  do! upd_vpu v (fun p => set_ticks (u32 (ticks p + 1)) p) in
  let! vp := get_vpu v in
  do! assert_ (negb (bool_decide (current vp = scheduler vp))) in
  do! upd_vpu v (fun p => set_watchdog (u32 (watchdog p + 1)) p) in
  let! vp := get_vpu v in
  if TSC_RESCHED_THRESHOLD <? watchdog vp then vpu_syscall v core_yield else ret tt.
