(* ===== verification/SchedInv.v ===== *)
(** * Invariants of the scheduler (src/vpu.c)

    What the worlds of Scheduler.v represent: [G p] are the tasks of the
    global queue of priority [p], [P (v, p)] those of the private queue of
    VPU [v], and [Tr] the list of live coroutines.  [queues_rep] is the shape
    of the queues; [sched_inv] adds the status of the queued tasks and the
    values of the counters. *)

From stdpp Require Import functions.
From S2P Require Import Prelude Queue RunQueue Scheduler.

Definition slink (c : coid) : link := (c, status_link).
Definition tlink (c : coid) : link := (c, trace_link).
Abbreviation NP := 4%nat.

#[export] Instance slink_inj : Inj eq eq slink.
Proof. by intros ?? [=]. Qed.
#[export] Instance tlink_inj : Inj eq eq tlink.
Proof. by intros ?? [=]. Qed.

(** ** The ready tasks of a priority level *)

Definition queued (nv : nat) (G : nat -> list coid) (P : nat * nat -> list coid) (p : nat) : list coid :=
  G p ++ concat ((fun v => P (v, p)) <$> seq 0 nv).

(** Those outside the private queue of [v]. *)
Definition queued_except (nv : nat) (G : nat -> list coid) (P : nat * nat -> list coid) (v p : nat) : list coid :=
  G p ++ concat ((fun u => P (u, p)) <$> (seq 0 v ++ seq (S v) (nv - S v))).

Lemma seq_split_at v nv : (v < nv)%nat -> seq 0 nv = seq 0 v ++ v :: seq (S v) (nv - S v).
Proof.
  intros. replace nv with (v + S (nv - S v))%nat at 1 by lia. rewrite seq_app. done.
Qed.

Lemma queued_split nv G P v p :
  (v < nv)%nat -> queued nv G P p ≡ₚ P (v, p) ++ queued_except nv G P v p.
Proof.
  intros Hv. unfold queued, queued_except. rewrite (seq_split_at v nv Hv).
  rewrite !fmap_app, !concat_app. cbn. solve_Permutation.
Qed.

Lemma queued_except_priv nv G P v p p' l :
  queued_except nv G (<[(v, p) := l]> P) v p' = queued_except nv G P v p'.
Proof.
  unfold queued_except. do 2 f_equal. apply list_fmap_ext. intros k u Hk.
  apply fn_lookup_insert_ne. intros [= <- _]. apply list_elem_of_lookup_2 in Hk.
  rewrite elem_of_app, !elem_of_seq in Hk. lia.
Qed.

Lemma queued_priv_other nv G P v p p' l :
  p <> p' -> queued nv G (<[(v, p) := l]> P) p' = queued nv G P p'.
Proof.
  intros. unfold queued. do 2 f_equal. apply list_fmap_ext. intros.
  apply fn_lookup_insert_ne. congruence.
Qed.

Lemma queued_priv nv G P v p l :
  (v < nv)%nat -> queued nv G (<[(v, p) := l]> P) p ≡ₚ l ++ queued_except nv G P v p.
Proof.
  intros. rewrite (queued_split _ _ _ v) by done.
  by rewrite queued_except_priv, fn_lookup_insert.
Qed.

Lemma queued_except_glob nv G P v p l :
  G p ++ queued_except nv (<[p := l]> G) P v p ≡ₚ l ++ queued_except nv G P v p.
Proof. unfold queued_except. rewrite fn_lookup_insert. solve_Permutation. Qed.

Lemma queued_except_glob_other nv G P v p p' l :
  p <> p' -> queued_except nv (<[p := l]> G) P v p' = queued_except nv G P v p'.
Proof. intros. unfold queued_except. by rewrite fn_lookup_insert_ne. Qed.

Lemma queued_glob_other nv G P p p' l :
  p <> p' -> queued nv (<[p := l]> G) P p' = queued nv G P p'.
Proof. intros. unfold queued. by rewrite fn_lookup_insert_ne. Qed.

Lemma elem_queued_glob nv G P p c : c ∈ G p -> c ∈ queued nv G P p.
Proof. unfold queued. set_solver. Qed.

Lemma elem_queued_priv nv G P v p c : (v < nv)%nat -> c ∈ P (v, p) -> c ∈ queued nv G P p.
Proof. intros. rewrite (queued_split _ _ _ v) by done. set_solver. Qed.

(** ** The links *)

Record lrep (st : qstore link mqueue coid) (G : nat -> list coid) (Tr : list coid) : Prop := {
  lr_glob : forall p, (p < NP)%nat -> fwd_rep st (Some p) false (slink <$> G p);
  lr_trace : dll_rep st None false (tlink <$> Tr);
  lr_disj : forall p p' c, (p < NP)%nat -> (p' < NP)%nat -> c ∈ G p -> c ∈ G p' -> p = p'
}.

Lemma fwd_rep_frame {L Q O} `{Countable L, Countable Q} (st st' : qstore L Q O) q lk l :
  fwd_rep st q lk l -> queues st' !! q = queues st !! q ->
  (forall x, x ∈ l -> items st' !! x = items st !! x) -> fwd_rep st' q lk l.
Proof.
  intros [ND Len Hq Hit] E Hx. split; [done|done|congruence|].
  intros k x Hk. rewrite Hx by (by eapply list_elem_of_lookup_2). eauto.
Qed.

Lemma lrep_update st st' G Tr p l :
  lrep st G Tr -> (p < NP)%nat -> fwd_rep st' (Some p) false (slink <$> l) ->
  (forall q, q <> Some p -> queues st' !! q = queues st !! q) ->
  (forall x, x ∉ slink <$> (G p ++ l) -> items st' !! x = items st !! x) ->
  (forall p' c, (p' < NP)%nat -> p' <> p -> c ∈ l -> c ∈ G p' -> False) ->
  lrep st' (<[p := l]> G) Tr.
Proof.
  intros [Hg Ht Hd] Hp F Hq Hx Hdis. split.
  - intros p' Hp'. destruct (decide (p = p')) as [<-|Hne]; [by rewrite fn_lookup_insert|].
    rewrite fn_lookup_insert_ne by done. apply (fwd_rep_frame st); [by apply Hg|apply Hq; congruence|].
    intros x (c & -> & Hc)%list_elem_of_fmap. apply Hx.
    intros (c' & ?%(inj slink) & Hc')%list_elem_of_fmap. subst c'.
    apply elem_of_app in Hc' as [Hc'|Hc']; [by eapply Hne, (Hd p p')|by eapply (Hdis p')].
  - apply (dll_rep_frame st); [done|by apply Hq|].
    intros x it (c & -> & Hc)%list_elem_of_fmap Hit _. exists it. rewrite Hx; [done|].
    by intros (c' & ? & _)%list_elem_of_fmap.
  - intros p1 p2 c H1 H2. destruct (decide (p = p1)) as [<-|], (decide (p = p2)) as [<-|];
      rewrite ?fn_lookup_insert, ?fn_lookup_insert_ne by done; try done; intros.
    + exfalso. by eapply (Hdis p2).
    + exfalso. by eapply (Hdis p1).
    + eauto.
Qed.

(** ** The private queues *)

Definition pq_at (w : world) (v p : nat) (pq : p_task_que coid) : Prop :=
  exists vp, vpus w !! v = Some vp /\ xt vp !! p = Some pq.

Definition with_pq (v p : nat) (pq : p_task_que coid) (w : world) : world :=
  set_vpus (alter (fun vp => set_xt (<[p := pq]> (xt vp)) vp) v (vpus w)) w.

Record privs_rep (w : world) (P : nat * nat -> list coid) : Prop := {
  pr_levels : forall v vp, vpus w !! v = Some vp -> length (xt vp) = NP;
  pr_runq : forall v p pq, pq_at w v p pq -> runq_rep pq (P (v, p)) /\ prio pq = Z.of_nat p
}.

Lemma privs_rep_at w P v p :
  privs_rep w P -> (v < length (vpus w))%nat -> (p < NP)%nat -> exists pq, pq_at w v p pq.
Proof.
  intros R Hv Hp. destruct (lookup_lt_is_Some_2 _ _ Hv) as [vp Hvp].
  destruct (lookup_lt_is_Some_2 (xt vp) p) as [pq Hpq]; [by rewrite (pr_levels _ _ R v)|].
  by exists pq, vp.
Qed.

Lemma on_pq_ok {A} w v p pq (c : ST (p_task_que coid) A) a pq' :
  pq_at w v p pq -> c pq = Ok (a, pq') -> on_pq v p c w = Ok (a, with_pq v p pq' w).
Proof.
  intros (vp & Hv & Hp) Hc. unfold on_pq, with_pq. rewrite Hv, Hp, Hc.
  do 3 f_equal. apply list_eq. intros i. destruct (decide (i = v)) as [->|].
  - rewrite list_lookup_insert_eq, list_lookup_alter_eq, Hv by (by eapply lookup_lt_Some). done.
  - by rewrite list_lookup_insert_ne, list_lookup_alter_ne.
Qed.

Lemma pq_at_with w v p pq pq' v' p' pq2 :
  pq_at w v p pq -> pq_at (with_pq v p pq' w) v' p' pq2 ->
  ((v', p') = (v, p) /\ pq2 = pq') \/ ((v', p') <> (v, p) /\ pq_at w v' p' pq2).
Proof.
  intros (vp & Hv & Hp) (vp2 & Hv2 & Hp2). cbn in Hv2.
  destruct (decide (v' = v)) as [->|].
  - rewrite list_lookup_alter_eq, Hv in Hv2. cbn in Hv2. simplify_eq. cbn in Hp2.
    destruct (decide (p' = p)) as [->|].
    + rewrite list_lookup_insert_eq in Hp2 by (by eapply lookup_lt_Some). naive_solver.
    + rewrite list_lookup_insert_ne in Hp2 by done. right. split; [congruence|]. by exists vp.
  - rewrite list_lookup_alter_ne in Hv2 by done. right. split; [congruence|]. by exists vp2.
Qed.

Lemma pq_at_with_eq w v p pq pq' : pq_at w v p pq -> pq_at (with_pq v p pq' w) v p pq'.
Proof.
  intros (vp & Hv & Hp). eexists. split.
  - cbn. by rewrite list_lookup_alter_eq, Hv.
  - cbn. apply list_lookup_insert_eq. by eapply lookup_lt_Some.
Qed.

Lemma privs_rep_with w P v p pq pq' l :
  privs_rep w P -> pq_at w v p pq -> runq_rep pq' l -> prio pq' = Z.of_nat p ->
  privs_rep (with_pq v p pq' w) (<[(v, p) := l]> P).
Proof.
  intros [Hl Hr] Hat R Hpr. split.
  - intros v' vp'. cbn. destruct (decide (v' = v)) as [->|].
    + rewrite list_lookup_alter_eq. intros (vp & Hv & ->)%fmap_Some. cbn.
      rewrite length_insert. by eapply Hl.
    + rewrite list_lookup_alter_ne by done. apply Hl.
  - intros v' p' pq2 [[[= -> ->] ->]|[Hne Hat2]]%(pq_at_with _ _ _ _ _ _ _ _ Hat).
    + by rewrite fn_lookup_insert.
    + rewrite fn_lookup_insert_ne by congruence. by apply Hr.
Qed.

(** ** What an operation on queues leaves alone *)

Definition vpu_core (vp : vpu) : vpu := set_rand_seed 0 (set_xt [] vp).

Record frame (w w' : world) : Prop := {
  fr_coros : coros w' = coros w;
  fr_mgr : mgr w' = mgr w;
  fr_locks : locks w' = locks w;
  fr_signals : signals w' = signals w;
  fr_vpus : vpu_core <$> vpus w' = vpu_core <$> vpus w
}.

#[export] Instance frame_refl : Reflexive frame.
Proof. by split. Qed.
#[export] Instance frame_trans : Transitive frame.
Proof. intros w1 w2 w3 [] []. split; congruence. Qed.

Lemma frame_nv w w' : frame w w' -> length (vpus w') = length (vpus w).
Proof. intros F. rewrite <- (length_fmap vpu_core (vpus w')), (fr_vpus _ _ F). apply length_fmap. Qed.

Lemma frame_links w st : frame w (set_links st w).
Proof. by split. Qed.

Lemma frame_with_pq w v p pq : frame w (with_pq v p pq w).
Proof.
  split; try done. cbn. apply list_eq. intros i. rewrite !list_lookup_fmap.
  destruct (decide (i = v)) as [->|]; [|by rewrite list_lookup_alter_ne].
  rewrite list_lookup_alter_eq. by destruct (vpus w !! v).
Qed.

(** ** The shape of all queues *)

Record queues_rep (w : world) (G : nat -> list coid) (P : nat * nat -> list coid)
    (Tr : list coid) : Prop := {
  qr_links : lrep (links w) G Tr;
  qr_privs : privs_rep w P;
  qr_owner : forall c, is_Some (coros w !! c) ->
    exists it, items (links w) !! slink c = Some it /\ owner it = Some c;
  qr_nodup : forall p, (p < NP)%nat -> NoDup (queued (length (vpus w)) G P p);
  qr_disj : forall p p' c, (p < NP)%nat -> (p' < NP)%nat ->
    c ∈ queued (length (vpus w)) G P p -> c ∈ queued (length (vpus w)) G P p' -> p = p';
  qr_known : forall p c, (p < NP)%nat -> c ∈ queued (length (vpus w)) G P p ->
    is_Some (coros w !! c)
}.

(** The levels of [w'] hold the tasks of [w] plus [new] minus [gone] at [p]. *)
Record level_change (nv : nat) G P G' P' (p : nat) (gone new : list coid) : Prop := {
  lc_at : gone ++ queued nv G' P' p ≡ₚ new ++ queued nv G P p;
  lc_other : forall p', p' <> p -> queued nv G' P' p' = queued nv G P p'
}.

Lemma on_links_ok {A} (w : world) (c : ST (qstore link mqueue coid) A) a st' :
  c (links w) = Ok (a, st') -> on_links c w = Ok (a, set_links st' w).
Proof. intros. unfold on_links. by apply zoom_ok. Qed.

Lemma queue_link_ok (st : qstore link mqueue coid) a b ia ib :
  a <> b -> items st !! a = Some ia -> items st !! b = Some ib ->
  queue_link a b st =
    Ok (tt, mk_qstore (<[b := set_prev' (Some a) ib]> (<[a := set_next' (Some b) ia]> (items st)))
              (queues st)).
Proof. intros. unfold queue_link. by qrun. Qed.

Lemma link_tasks_ok : forall xs (w : world),
  NoDup xs -> (forall c, c ∈ xs -> is_Some (items (links w) !! slink c)) ->
  exists st', link_tasks xs w = Ok (tt, set_links st' w) /\ queues st' = queues (links w) /\
    same_owners (links w) st' /\
    (forall x, x ∉ slink <$> xs -> items st' !! x = items (links w) !! x) /\
    (forall k c, xs !! k = Some c -> exists it, items st' !! slink c = Some it /\
       ((S k < length xs)%nat -> next it = slink <$> xs !! S k)).
Proof.
  induction xs as [|a xs IH]; intros w ND Hex.
  { exists (links w). by destruct w. }
  destruct xs as [|b xs].
  { exists (links w). split_and!; [by destruct w|done..|].
    intros [|k] c; [|done]. intros [= <-].
    destruct (Hex a) as [it Hit]; [set_solver|]. exists it. split; [done|cbn; lia]. }
  cbn [link_tasks]. apply NoDup_cons in ND as [Ha ND].
  assert (slink a <> slink b) as Hab by (intros ?%(inj slink); set_solver).
  destruct (Hex a) as [ia Hia]; [set_solver|]. destruct (Hex b) as [ib Hib]; [set_solver|].
  pose proof (queue_link_ok (links w) (slink a) (slink b) ia ib) as QL.
  rewrite (bind_ok _ _ _ _ _ (on_links_ok _ _ _ _ (QL Hab Hia Hib))).
  set (w1 := set_links _ w). destruct (IH w1) as (st' & R & Hq & Ho & Hx & Hk); [done|..].
  { intros c Hc. cbn. destruct (decide (slink b = slink c)) as [E|]; [by rewrite E, lookup_insert_eq|].
    rewrite lookup_insert_ne by done.
    destruct (decide (slink a = slink c)) as [E|]; [by rewrite E, lookup_insert_eq|].
    rewrite lookup_insert_ne by done. apply Hex. by right. }
  exists st'. split_and!.
  - exact R.
  - done.
  - intros x. rewrite (Ho x). cbn.
    destruct (decide (slink b = x)) as [<-|]; [by simplify_map_eq|].
    destruct (decide (slink a = x)) as [<-|]; by simplify_map_eq.
  - intros x Hxn. rewrite Hx by set_solver. cbn.
    rewrite !lookup_insert_ne by (intros <-; apply Hxn; set_solver). done.
  - intros [|k] c.
    2: { intros Hc. destruct (Hk k c Hc) as (it & ? & Hn). exists it. split; [done|].
         intros ?. apply Hn. cbn in *. lia. }
    intros [= <-]. exists (set_next' (Some (slink b)) ia). split; [|done].
    rewrite Hx by (rewrite list_elem_of_fmap; intros (c & ->%(inj slink) & ?); set_solver).
    cbn. by rewrite lookup_insert_ne, lookup_insert_eq.
Qed.

Lemma all_tasks_ok xs (w : world) : all_tasks (Some <$> xs) w = Ok (xs, w).
Proof. induction xs as [|x xs IH]; [done|]. cbn. unfold bind, demand. cbn. by rewrite IH. Qed.

(** ** [__runqput] adds one task *)

Lemma level_change_priv_snoc nv G P v p c :
  (v < nv)%nat -> level_change nv G P G (<[(v, p) := P (v, p) ++ [c]]> P) p [] [c].
Proof.
  intros Hv. split; [|intros; by apply queued_priv_other].
  rewrite (queued_priv _ _ _ _ _ _ Hv), (queued_split _ _ P v p Hv). cbn. solve_Permutation.
Qed.

Lemma level_change_spill nv G P v p n c :
  (v < nv)%nat ->
  level_change nv G P (<[p := G p ++ take n (P (v, p)) ++ [c]]> G)
    (<[(v, p) := drop n (P (v, p))]> P) p [] [c].
Proof.
  intros Hv. split.
  - rewrite (queued_priv _ _ _ _ _ _ Hv), (queued_split _ _ P v p Hv).
    unfold queued_except. rewrite fn_lookup_insert.
    rewrite <- (take_drop n (P (v, p))) at 3. cbn. solve_Permutation.
  - intros. by rewrite queued_priv_other, queued_glob_other.
Qed.

Lemma privs_rep_vpus w w' P : vpus w' = vpus w -> privs_rep w P -> privs_rep w' P.
Proof. intros E [Hl Hr]. split; [by rewrite E|]. intros v p pq. unfold pq_at. rewrite E. apply Hr. Qed.

(** A change of one level keeps the bookkeeping part of [queues_rep]. *)
Lemma queues_rep_change w w' G P G' P' Tr p gone new :
  queues_rep w G P Tr -> frame w w' -> (p < NP)%nat ->
  lrep (links w') G' Tr -> privs_rep w' P' -> same_owners (links w) (links w') ->
  level_change (length (vpus w)) G P G' P' p gone new ->
  NoDup new -> (forall c, c ∈ new -> is_Some (coros w !! c)) ->
  (forall c p', c ∈ new -> (p' < NP)%nat -> c ∉ queued (length (vpus w)) G P p') ->
  queues_rep w' G' P' Tr.
Proof.
  intros [Hl Hpr Ho Hnd Hd Hk] F Hp Hl' Hpr' Hso [Hat Hot] NDn Hkn Hnew.
  assert (forall c, c ∈ queued (length (vpus w)) G' P' p ->
                    c ∈ new \/ c ∈ queued (length (vpus w)) G P p) as Hin.
  { intros c Hc. rewrite <- elem_of_app, <- Hat. set_solver. }
  assert (NoDup (queued (length (vpus w)) G' P' p)) as ND'.
  { assert (NoDup (gone ++ queued (length (vpus w)) G' P' p)) as N.
    { rewrite Hat. apply NoDup_app. split_and!; [done| |by apply Hnd].
      intros c Hc. by apply Hnew. }
    by apply NoDup_app in N as (_ & _ & N). }
  split; rewrite ?(frame_nv _ _ F), ?(fr_coros _ _ F).
  - done.
  - done.
  - intros c Hc. destruct (Ho c Hc) as (it & Hit & Hw). specialize (Hso (slink c)).
    rewrite Hit in Hso. destruct (items (links w') !! slink c) as [it'|]; [|done].
    cbn in Hso. exists it'. split; [done|congruence].
  - intros p' Hp'. destruct (decide (p' = p)) as [->|]; [done|]. rewrite Hot by done. eauto.
  - intros p1 p2 c H1 H2. destruct (decide (p1 = p)) as [->|], (decide (p2 = p)) as [->|];
      try done.
    + rewrite (Hot p2) by done. intros [Hc|Hc]%Hin ?; [exfalso; by eapply (Hnew c p2)|eauto].
    + rewrite (Hot p1) by done. intros ? [Hc|Hc]%Hin; [exfalso; by eapply (Hnew c p1)|eauto].
    + rewrite (Hot p1), (Hot p2) by done. eauto.
  - intros p' c Hp'. destruct (decide (p' = p)) as [->|].
    + intros [Hc|Hc]%Hin; eauto.
    + rewrite Hot by done. eauto.
Qed.

Lemma on_pq_get_at w v p pq : pq_at w v p pq -> on_pq v p get w = Ok (pq, w).
Proof.
  intros Hat. rewrite (on_pq_ok w v p pq get pq pq Hat eq_refl). do 2 f_equal.
  destruct Hat as (vp & Hv & Hp). destruct w. unfold with_pq, set_vpus. cbn in *. f_equal.
  apply list_eq. intros i. destruct (decide (i = v)) as [->|]; [|by rewrite list_lookup_alter_ne].
  rewrite list_lookup_alter_eq, Hv. cbn. f_equal. destruct vp. unfold set_xt. cbn in *.
  f_equal. by apply list_insert_id.
Qed.

Lemma on_pq_read {A} w v p pq (c : ST (p_task_que coid) A) a :
  pq_at w v p pq -> c pq = Ok (a, pq) -> on_pq v p c w = Ok (a, w).
Proof.
  intros Hat Hc. pose proof (on_pq_get_at _ _ _ _ Hat) as E.
  rewrite (on_pq_ok _ _ _ _ _ _ _ Hat eq_refl) in E.
  rewrite (on_pq_ok _ _ _ _ _ _ _ Hat Hc). by injection E as ->.
Qed.

(** Linking a batch of tasks and appending it to a global queue. *)
Lemma spill_links (w : world) G Tr p temp c :
  lrep (links w) G Tr -> (p < NP)%nat -> NoDup (G p ++ temp) -> last temp = Some c ->
  Z.of_nat (length (G p ++ temp)) < 2 ^ 32 ->
  (forall x, x ∈ temp -> is_Some (items (links w) !! slink x)) ->
  (forall p' x, (p' < NP)%nat -> p' <> p -> x ∈ G p ++ temp -> x ∈ G p' -> False) ->
  exists first st1 st2, temp !! 0%nat = Some first /\
    link_tasks temp w = Ok (tt, set_links st1 w) /\
    atomic_queue_add_range (Some p) (Z.of_nat (length temp)) (slink first) (slink c) st1 = Ok (tt, st2) /\
    lrep st2 (<[p := G p ++ temp]> G) Tr /\ same_owners (links w) st2.
Proof.
  intros Hl Hp ND Hlast Hlen Hex Hdis.
  pose proof ND as (_ & Hgt & NDt)%NoDup_app.
  destruct (link_tasks_ok temp w NDt Hex) as (st1 & E1 & Hq1 & Ho1 & Hx1 & Hk1).
  destruct temp as [|first temp']; [done|]. set (temp := first :: temp') in *.
  assert (fwd_rep st1 (Some p) false (slink <$> G p)) as F1.
  { apply (fwd_rep_frame (links w)); [by apply (lr_glob _ _ _ Hl)|by rewrite Hq1|].
    intros x (g & -> & Hg)%list_elem_of_fmap. apply Hx1.
    intros (g' & ->%(inj slink) & Hg')%list_elem_of_fmap. by eapply Hgt. }
  destruct (atomic_queue_add_range_fwd st1 (Some p) (slink <$> G p) (slink <$> temp)
              (slink first) (slink c)) as (st2 & E2 & F2 & Ho2 & Hq2 & Hx2).
  - done.
  - rewrite <- fmap_app. by apply NoDup_fmap_2; [apply _|].
  - done.
  - by rewrite fmap_last, Hlast.
  - by rewrite <- fmap_app, length_fmap.
  - intros k x Hk. rewrite list_lookup_fmap in Hk.
    apply fmap_Some in Hk as (t & Hk & ->). rewrite length_fmap, list_lookup_fmap. eauto.
  - rewrite length_fmap in E2. rewrite <- fmap_app in F2, Hx2.
    exists first, st1, st2. split_and!; [done..| |intros x; by rewrite Ho2, Ho1].
    apply (lrep_update (links w)); [done..| |by intros q ?; rewrite Hq2, Hq1 by done| |done].
    + done.
    + intros x Hx. rewrite Hx2, Hx1; [done|..]; set_solver.
Qed.

(** The ring is full: half of it and the new task go to the global queue. *)
Lemma runqputslow_rep w G P Tr v p c pq :
  queues_rep w G P Tr -> pq_at w v p pq -> (p < NP)%nat ->
  Z.of_nat (length (P (v, p))) = TSC_TASK_NUM_PERPRIO -> is_Some (coros w !! c) ->
  (forall p', (p' < NP)%nat -> c ∉ queued (length (vpus w)) G P p') ->
  Z.of_nat (length (queued (length (vpus w)) G P p)) + 1 < 2 ^ 32 ->
  exists w' G' P', __runqputslow v p c (runqhead pq) (runqtail pq) w = Ok (true, w') /\
    queues_rep w' G' P' Tr /\ frame w w' /\
    level_change (length (vpus w)) G P G' P' p [] [c].
Proof.
  intros QR Hat Hp Hfull Hc Hnew Hlen.
  pose proof QR as [Hl Hpr Ho Hnd Hd Hk]. destruct (pr_runq _ _ Hpr _ _ _ Hat) as [R Hprio].
  assert (v < length (vpus w))%nat as Hv by (destruct Hat as (? & ? & _); by eapply lookup_lt_Some).
  unfold TSC_TASK_NUM_PERPRIO in Hfull.
  unfold __runqputslow. rewrite (rq_diff _ _ R), Hfull. change (512 / 2) with 256.
  change (TSC_TASK_NUM_PERPRIO / 2) with 256. cbn [Z.eqb Pos.eqb].
  rewrite (bind_ok _ _ w tt w) by done.
  pose proof (read_slots_rep _ _ R (Z.to_nat 256) 0) as Rd. specialize (Rd ltac:(lia)).
  rewrite Z.add_0_r in Rd.
  rewrite (bind_ok _ _ _ _ _ (on_pq_read _ _ _ _ _ _ Hat Rd)).
  assert (cas_head (runqhead pq) (u32 (runqhead pq + 256)) pq =
          Ok (true, set_runqhead (u32 (runqhead pq + Z.of_nat 256)) pq)) as Cas.
  { unfold cas_head. by rewrite Z.eqb_refl. }
  rewrite (bind_ok _ _ _ _ _ (on_pq_ok _ _ _ _ _ _ _ Hat Cas)). cbn [negb].
  set (pq1 := set_runqhead _ pq) in *. set (w1 := with_pq v p pq1 w).
  assert (runq_rep pq1 (drop 256 (P (v, p)))) as R1 by (apply runq_rep_drop; [done|lia]).
  rewrite (bind_ok _ _ _ _ _ (all_tasks_ok _ _)).
  change (Z.to_nat 256) with 256%nat. rewrite drop_0.
  set (temp := take 256 (P (v, p)) ++ [c]).
  assert (length temp = 257%nat) as Htemp
    by (unfold temp; rewrite length_app, length_take; cbn [length]; lia).
  assert (forall x, x ∈ temp -> x = c \/ x ∈ P (v, p)) as Htin.
  { intros x. unfold temp. rewrite elem_of_app. intros [Hx|Hx]; [|by left; apply list_elem_of_singleton].
    right. by eapply (subseteq_take _ _ _ Hx). }
  assert (NoDup (G p ++ temp)) as NDgt.
  { unfold temp. rewrite app_assoc. apply NoDup_app. split_and!; [| |apply NoDup_singleton].
    - pose proof (Hnd p Hp) as N. rewrite (queued_split _ _ _ v) in N by done.
      unfold queued_except in N. rewrite <- (take_drop 256 (P (v, p))) in N.
      assert (NoDup ((take 256 (P (v, p)) ++ G p) ++ drop 256 (P (v, p)) ++
               concat ((fun u => P (u, p)) <$> (seq 0 v ++ seq (S v) (length (vpus w) - S v))))) as N2.
      { revert N. apply NoDup_Permutation_proper. solve_Permutation. }
      apply NoDup_app in N2 as (N2 & _ & _). by rewrite (Permutation_app_comm (G p)).
    - intros x Hx ->%list_elem_of_singleton. apply (Hnew p Hp).
      apply elem_of_app in Hx as [Hx|Hx]; [by apply elem_queued_glob|].
      eapply elem_queued_priv; [done|]. by eapply subseteq_take. }
  destruct (spill_links w1 G Tr p temp c) as (first & st1 & st2 & Hf & E1 & E2 & Hl2 & Ho2).
  - done.
  - done.
  - done.
  - unfold temp. apply last_snoc.
  - rewrite length_app, Htemp. rewrite (Permutation_length (queued_split _ G P v p Hv)) in Hlen.
    unfold queued_except in Hlen. rewrite !length_app in Hlen. lia.
  - intros x [->|Hx]%Htin.
    + destruct (Ho c Hc) as (it & Hit & _). cbn. by rewrite Hit.
    + destruct (Ho x) as (it & Hit & _); [|cbn; by rewrite Hit].
      by apply (Hk p), (elem_queued_priv _ _ _ v).
  - intros p' x Hp' Hne Hx Hx'. apply (elem_queued_glob (length (vpus w)) _ P) in Hx'.
    apply elem_of_app in Hx as [Hx|[->|Hx]%Htin].
    + apply Hne, (Hd _ _ x); [done..|by apply elem_queued_glob].
    + by eapply Hnew.
    + apply Hne, (Hd _ _ x); [done..|by eapply elem_queued_priv].
  - rewrite (bind_ok _ _ _ _ _ E1).
    assert (pq_at (set_links st1 w1) v p pq1) as Hat1 by (by eapply pq_at_with_eq).
    rewrite (bind_ok _ _ _ _ _ (on_pq_get_at _ _ _ _ Hat1)), Hf.
    rewrite (bind_ok _ _ _ first (set_links st1 w1)) by done.
    cbn [prio set_runqhead pq1]. rewrite Hprio, Nat2Z.id.
    rewrite Htemp in E2. change (u32 (256 + 1)) with (Z.of_nat 257).
    rewrite (bind_ok _ _ _ _ _ (on_links_ok (set_links st1 w1) _ _ _ E2)).
    pose proof (level_change_spill (length (vpus w)) G P v p 256 c Hv) as LC.
    do 3 eexists. split_and!; [reflexivity| | |exact LC].
    + eapply (queues_rep_change w); [done| |done|exact Hl2| |done|exact LC|..].
      * by split; [..|apply frame_with_pq].
      * apply (privs_rep_vpus w1); [done|]. by eapply privs_rep_with.
      * apply NoDup_singleton.
      * by intros ? ->%list_elem_of_singleton.
      * intros c' p' ->%list_elem_of_singleton. by apply Hnew.
    + by split; [..|apply frame_with_pq].
Qed.

Lemma runqput_rep w G P Tr v p c :
  queues_rep w G P Tr -> (v < length (vpus w))%nat -> (p < NP)%nat -> is_Some (coros w !! c) ->
  (forall p', (p' < NP)%nat -> c ∉ queued (length (vpus w)) G P p') ->
  Z.of_nat (length (queued (length (vpus w)) G P p)) + 1 < 2 ^ 32 ->
  exists w' G' P', __runqput FUEL v p c w = Ok (tt, w') /\
    queues_rep w' G' P' Tr /\ frame w w' /\
    level_change (length (vpus w)) G P G' P' p [] [c].
Proof.
  intros QR Hv Hp Hc Hnew Hlen. pose proof (qr_privs _ _ _ _ QR) as Hpr.
  destruct (privs_rep_at _ _ v p Hpr Hv Hp) as [pq Hat].
  destruct (pr_runq _ _ Hpr _ _ _ Hat) as [R Hprio].
  cbn [__runqput FUEL]. rewrite (bind_ok _ _ _ _ _ (on_pq_get_at _ _ _ _ Hat)).
  rewrite (rq_diff _ _ R). destruct (Z.ltb_spec (Z.of_nat (length (P (v, p)))) TSC_TASK_NUM_PERPRIO) as [Hlt|Hge].
  - destruct (runqput_fast_rep _ _ c R Hlt) as (pq' & E & R' & Hprio').
    pose proof (level_change_priv_snoc (length (vpus w)) G P v p c Hv) as LC.
    do 3 eexists. split_and!; [by eapply on_pq_ok| |apply frame_with_pq|exact LC].
    eapply (queues_rep_change w); [done|apply frame_with_pq|done|apply QR| |done|exact LC|..].
    + eapply privs_rep_with; [done..|congruence].
    + apply NoDup_singleton.
    + set_solver.
    + intros c' p' ->%list_elem_of_singleton. by apply Hnew.
  - pose proof (rq_len _ _ R).
    destruct (runqputslow_rep w G P Tr v p c pq) as (w' & G' & P' & E & ?); [done..|lia|done|done|done|].
    exists w', G', P'. by rewrite (bind_ok _ _ _ _ _ E).
Qed.

(** ** [core_elect] removes one task, or finds none *)

(** A global queue being emptied under its lock: [g] is what is left, the
    tail field may be stale. *)
Record draining (w : world) (p : nat) (tl : option link) (g : list coid) : Prop := {
  dr_queue : queues (links w) !! Some p =
    Some (mk_queue true (slink <$> g !! 0%nat) tl (Z.of_nat (length g)));
  dr_item : forall k c, g !! k = Some c -> exists it,
    items (links w) !! slink c = Some it /\ next it = slink <$> g !! S k /\ owner it = Some c
}.

Definition drained (p : nat) (tl : option link) (g : list coid) (w : world) : world :=
  set_links (mk_qstore (items (links w))
     (<[Some p := mk_queue true (slink <$> g !! 0%nat) tl (Z.of_nat (length g))]> (queues (links w)))) w.

(** Unlinking the front item: the steps of one round of the fetch loop. *)
Lemma drain_step w p tl c g k :
  draining w p tl (c :: g) -> Z.of_nat (length (c :: g)) < 2 ^ 32 ->
  (let! gq := on_links (get_queue (Some p)) in
   let! kitem := on_links (get_item (qhead gq)) in
   do! on_links (upd_queue (Some p) (set_head' (next kitem))) in
   do! on_links (upd_queue (Some p) (fun q => set_status' (u32 (qstatus q - 1)) q)) in
   let! own := demand NullDeref (owner kitem) in
   (k own : ST world (option coid))) w = k c (drained p tl g w) /\
  draining (drained p tl g w) p tl g.
Proof.
  intros [Hq Hi] Hlen. destruct (Hi 0%nat c) as (it & Hit & Hn & Ho); [done|].
  split.
  - unfold on_links, zoom, bind. cbn in Hq.
    repeat (unfold get_queue, get_item, upd_queue; cbn; rewrite ?Hq, ?Hit, ?lookup_insert_eq; cbn).
    rewrite Ho. cbn. f_equal. unfold drained, set_links. cbn. rewrite insert_insert_eq.
    do 3 f_equal. unfold set_status', set_head'. cbn. rewrite Hn, u32_small by (cbn in *; lia).
    cbn. do 2 f_equal. lia.
  - split; cbn; [by simplify_map_eq|]. intros j d Hj. by apply (Hi (S j)).
Qed.

Lemma with_pq_id w v p pq : pq_at w v p pq -> with_pq v p pq w = w.
Proof.
  intros Hat. pose proof (on_pq_get_at _ _ _ _ Hat) as E.
  rewrite (on_pq_ok _ _ _ _ _ _ _ Hat eq_refl) in E. by injection E.
Qed.

Lemma with_pq_twice w v p pq1 pq2 : with_pq v p pq2 (with_pq v p pq1 w) = with_pq v p pq2 w.
Proof.
  unfold with_pq, set_vpus. cbn. f_equal. apply list_eq. intros i.
  destruct (decide (i = v)) as [->|]; [|by rewrite !list_lookup_alter_ne].
  rewrite !list_lookup_alter_eq. destruct (vpus w !! v) as [vp|]; [|done]. cbn.
  unfold set_xt. cbn. by rewrite list_insert_insert_eq.
Qed.

Lemma drained_id w p tl g : draining w p tl g -> drained p tl g w = w.
Proof. intros [Hq _]. unfold drained. rewrite insert_id by done. by destruct w as [? [] ? ? ? ?]. Qed.

Lemma runqput_fast_at w v p pq L c :
  pq_at w v p pq -> runq_rep pq L -> Z.of_nat (length L) < TSC_TASK_NUM_PERPRIO ->
  exists pq', __runqput FUEL v p c w = Ok (tt, with_pq v p pq' w) /\
    runq_rep pq' (L ++ [c]) /\ prio pq' = prio pq.
Proof.
  intros Hat R Hlt. cbn [__runqput FUEL]. rewrite (bind_ok _ _ _ _ _ (on_pq_get_at _ _ _ _ Hat)).
  rewrite (rq_diff _ _ R). destruct (Z.ltb_spec (Z.of_nat (length L)) TSC_TASK_NUM_PERPRIO); [|lia].
  destruct (runqput_fast_rep _ _ c R Hlt) as (pq' & E & R' & Hp).
  exists pq'. split; [by eapply on_pq_ok|done].
Qed.

Lemma fetch_some n : forall v p c0 w tl g pq Lp,
  draining w p tl g -> Z.of_nat (length g) < 2 ^ 32 -> (n <= length g)%nat ->
  pq_at w v p pq -> runq_rep pq Lp ->
  Z.of_nat (length Lp + n) <= TSC_TASK_NUM_PERPRIO ->
  exists pq', fetch_global n v p (Some c0) w =
      Ok (Some c0, drained p tl (drop n g) (with_pq v p pq' w)) /\
    runq_rep pq' (Lp ++ take n g) /\ prio pq' = prio pq.
Proof.
  induction n as [|n IH]; intros v p c0 w tl g pq Lp D Hg Hn Hat R Hl.
  - exists pq. rewrite with_pq_id, drop_0, drained_id, app_nil_r by done. done.
  - destruct g as [|c g]; [cbn in Hn; lia|]. cbn [fetch_global].
    destruct (drain_step w p tl c g
      (fun own => do! __runqput FUEL v p own in fetch_global n v p (Some c0)) D Hg) as [-> D1].
    assert (pq_at (drained p tl g w) v p pq) as Hat1 by done.
    destruct (runqput_fast_at _ _ _ _ Lp c Hat1 R) as (pq1 & E1 & R1 & Hp1); [lia|].
    rewrite (bind_ok _ _ _ _ _ E1). cbn in Hg, Hn.
    destruct (IH v p c0 (with_pq v p pq1 (drained p tl g w)) tl g pq1 (Lp ++ [c]))
      as (pq2 & E2 & R2 & Hp2); [by destruct D1|lia|lia|by eapply pq_at_with_eq|done| |].
    { rewrite length_app. cbn [length]. lia. }
    exists pq2. rewrite E2. split_and!; [|by rewrite <- app_assoc in R2|congruence].
    rewrite with_pq_twice. unfold drained. cbn. by rewrite insert_insert_eq.
Qed.

Lemma fetch_none n v p w tl c g pq Lp :
  draining w p tl (c :: g) -> Z.of_nat (length (c :: g)) < 2 ^ 32 -> (n <= length g)%nat ->
  pq_at w v p pq -> runq_rep pq Lp ->
  Z.of_nat (length Lp + n) <= TSC_TASK_NUM_PERPRIO ->
  exists pq', fetch_global (S n) v p None w =
      Ok (Some c, drained p tl (drop n g) (with_pq v p pq' w)) /\
    runq_rep pq' (Lp ++ take n g) /\ prio pq' = prio pq.
Proof.
  intros D Hg Hn Hat R Hl. cbn [fetch_global].
  destruct (drain_step w p tl c g (fun own => fetch_global n v p (Some own)) D Hg) as [-> D1].
  cbn in Hg. destruct (fetch_some n v p c (drained p tl g w) tl g pq Lp) as (pq' & E & R' & Hp);
    [done|lia|done..|].
  exists pq'. rewrite E. split_and!; [|done..].
  unfold drained. cbn. by rewrite insert_insert_eq.
Qed.

(** Ending the loop: the new head loses its [prev], an empty queue its tail. *)
Lemma drain_finish w G Tr p tl g0 g (cand : option coid) :
  lrep (links w) G Tr -> (p < NP)%nat -> G p = g0 ++ g -> tl = last (slink <$> G p) ->
  (forall c, c ∈ G p -> exists it, items (links w) !! slink c = Some it /\ owner it = Some c) ->
  exists w', (let! gq := on_links (get_queue (Some p)) in
     do! (match qhead gq with
          | Some _ => on_links (upd_item (qhead gq) (set_prev' None))
          | None => on_links (upd_queue (Some p) (set_tail' None))
          end) in
     do! on_links (qlock_release (Some p)) in ret cand) (drained p tl g w) = Ok (cand, w') /\
    lrep (links w') (<[p := g]> G) Tr /\ same_owners (links w) (links w') /\
    w' = set_links (links w') w.
Proof.
  intros Hl Hp HG Htl Hex. pose proof (lr_glob _ _ _ Hl p Hp) as [ND Len Hq Hit].
  assert (forall c, c ∈ g -> c ∈ G p) as Hin by (rewrite HG; set_solver).
  assert (exists st', (let! gq := on_links (get_queue (Some p)) in
     do! (match qhead gq with
          | Some _ => on_links (upd_item (qhead gq) (set_prev' None))
          | None => on_links (upd_queue (Some p) (set_tail' None))
          end) in
     do! on_links (qlock_release (Some p)) in ret cand) (drained p tl g w) = Ok (cand, set_links st' w) /\
     queues st' = <[Some p := mk_queue false (slink <$> g !! 0%nat) (last (slink <$> g)) (Z.of_nat (length g))]> (queues (links w)) /\
     (forall x, items st' !! x = items (links w) !! x \/
        exists it, items (links w) !! x = Some it /\ items st' !! x = Some (set_prev' None it)) /\
     (forall x, x ∉ slink <$> g -> items st' !! x = items (links w) !! x))
    as (st' & E & Hq' & Hx' & Hxo).
  { unfold on_links, zoom, qlock_release, drained. destruct g as [|d g].
    - eexists. split_and!; [qrun; reflexivity|..]; cbn; [map_ext|eauto|done].
    - destruct (Hex d) as (it & Hd & _); [apply Hin; by left|].
      assert (tl = last (slink <$> d :: g)) as ->.
      { rewrite Htl, HG, fmap_app. apply last_app_cons. }
      eexists. split_and!; [qrun; reflexivity|..]; cbn; [map_ext|..].
      + intros x. destruct (decide (slink d = x)) as [<-|]; simplify_map_eq; eauto.
      + intros x [? _]%not_elem_of_cons. by simplify_map_eq. }
  exists (set_links st' w). split_and!; [done| |cbn|done].
  - cbn [links set_links]. apply (lrep_update (links w)); [done..| | | |].
    + rewrite HG, fmap_app in ND, Len, Hit.
      split; [by apply NoDup_app in ND as (_ & _ & ?)|rewrite length_app in Len; lia|..].
      * rewrite Hq', lookup_insert_eq, length_fmap, list_lookup_fmap. done.
      * intros k x Hk. destruct (Hit (length (slink <$> g0) + k)%nat x) as (it & Hi & Hn).
        { rewrite lookup_app_r by lia. rewrite <- Hk. f_equal. lia. }
        rewrite lookup_app_r in Hn by lia.
        replace (S (length (slink <$> g0) + k) - length (slink <$> g0))%nat with (S k) in Hn by lia.
        destruct (Hx' x) as [->|(it' & Hi' & ->)]; [eauto|].
        simplify_eq. eexists. split; [done|]. done.
    + intros q Hne. by rewrite Hq', lookup_insert_ne.
    + intros x Hx. apply Hxo. set_solver.
    + intros p' c Hp' Hne Hc Hc'. apply Hne. eapply (lr_disj _ _ _ Hl); eauto.
  - intros x. destruct (Hx' x) as [->|(it' & -> & ->)]; done.
Qed.

Lemma level_change_fetch nv G P v p c g n :
  (v < nv)%nat -> P (v, p) = [] -> G p = c :: g ->
  level_change nv G P (<[p := drop n g]> G) (<[(v, p) := take n g]> P) p [c] [].
Proof.
  intros Hv HP HG. split.
  - rewrite (queued_priv _ _ _ _ _ _ Hv), (queued_split _ G P v p Hv), HP.
    unfold queued_except. rewrite fn_lookup_insert, HG. cbn.
    rewrite <- (take_drop n g) at 3. solve_Permutation.
  - intros. by rewrite queued_priv_other, queued_glob_other.
Qed.

Lemma elect_global_rep w G P Tr v p r :
  queues_rep w G P Tr -> (v < length (vpus w))%nat -> (p < NP)%nat -> P (v, p) = [] ->
  match G p with
  | [] => elect_global (S r) v p w = Ok (None, w)
  | c :: _ => exists w' G' P', elect_global (S r) v p w = Ok (Some c, w') /\
      queues_rep w' G' P' Tr /\ frame w w' /\
      level_change (length (vpus w)) G P G' P' p [c] []
  end.
Proof.
  intros QR Hv Hp HP. pose proof QR as [Hl Hpr Ho Hnd Hd Hk].
  pose proof (lr_glob _ _ _ Hl p Hp) as [ND Len Hq Hit].
  rewrite length_fmap in Hq, Len. cbn [elect_global].
  assert (on_links (get_queue (Some p)) w =
     Ok (mk_queue false ((slink <$> G p) !! 0%nat) (last (slink <$> G p)) (Z.of_nat (length (G p))), w)) as GQ.
  { unfold on_links, zoom, get_queue. rewrite Hq. by destruct w. }
  rewrite (bind_ok _ _ _ _ _ GQ). cbn [qstatus].
  destruct (G p) as [|c g] eqn:HG; [done|]. rewrite <- HG in Hq.
  destruct (Z.eqb_spec (Z.of_nat (length (c :: g))) 0) as [|_]; [cbn in *; lia|].
  set (tl := last (slink <$> c :: g)).
  assert (on_links (qlock_try_acquire (Some p)) w = Ok (false, drained p tl (c :: g) w)) as TA.
  { unfold on_links, zoom, qlock_try_acquire, bind, get_queue, upd_queue. rewrite Hq, HG. cbn.
    by rewrite Hq, HG. }
  rewrite (bind_ok _ _ _ _ _ TA). cbn [negb].
  assert (draining (drained p tl (c :: g) w) p tl (c :: g)) as D.
  { split; cbn [links drained set_links queues items]; [by rewrite lookup_insert_eq|].
    intros k x Hx. destruct (Hit k (slink x)) as (it & Hi & Hn); [by rewrite list_lookup_fmap, Hx|].
    exists it. rewrite Hn, list_lookup_fmap. split_and!; [done..|].
    destruct (Ho x) as (it' & Hi' & ?); [|congruence].
    apply (Hk p); [done|]. apply elem_queued_glob. rewrite HG. by eapply list_elem_of_lookup_2. }
  assert (exists n, Z.to_nat (if Z.of_nat (length (c :: g)) <? TSC_TASK_NUM_PERPRIO - 1
      then Z.of_nat (length (c :: g)) else TSC_TASK_NUM_PERPRIO - 1) = S n /\
      (n <= length g)%nat /\ Z.of_nat n <= TSC_TASK_NUM_PERPRIO) as (n & Hn & Hng & Hn5).
  { exists (pred (Z.to_nat (if Z.of_nat (length (c :: g)) <? TSC_TASK_NUM_PERPRIO - 1
      then Z.of_nat (length (c :: g)) else TSC_TASK_NUM_PERPRIO - 1))).
    unfold TSC_TASK_NUM_PERPRIO. cbn [length].
    destruct (Z.ltb_spec (Z.of_nat (S (length g))) (512 - 1)); lia. }
  assert (on_links (get_queue (Some p)) (drained p tl (c :: g) w) =
     Ok (mk_queue true (slink <$> (c :: g) !! 0%nat) tl (Z.of_nat (length (c :: g))), drained p tl (c :: g) w)) as GQ1.
  { unfold on_links, zoom, get_queue. by rewrite (dr_queue _ _ _ _ D). }
  rewrite (bind_ok _ _ _ _ _ GQ1). cbn [qstatus]. rewrite Hn.
  destruct (privs_rep_at _ _ v p Hpr Hv Hp) as [pq Hat].
  destruct (pr_runq _ _ Hpr _ _ _ Hat) as [R Hprio]. rewrite HP in R.
  destruct (fetch_none n v p _ tl c g pq [] D) as (pq' & E & R' & Hp'); [done..|].
  rewrite (bind_ok _ _ _ _ _ E).
  destruct (drain_finish (with_pq v p pq' w) G Tr p tl (c :: take n g) (drop n g) (Some c))
    as (w' & F & Hl' & Hso & Hw'); [done|done|by rewrite HG; cbn; rewrite take_drop|by rewrite HG|..].
  { intros x Hx. apply Ho, (Hk p); [done|]. by apply elem_queued_glob. }
  pose proof (level_change_fetch (length (vpus w)) G P v p c g n Hv HP HG) as LC.
  exists w', (<[p := drop n g]> G), (<[(v, p) := take n g]> P).
  assert (frame w w') as Fr by (rewrite Hw'; etrans; [apply frame_with_pq|apply frame_links]).
  split_and!; [|eapply (queues_rep_change w); [done|done|done|done| |done|exact LC|constructor|set_solver|set_solver]|done|done].
  - rewrite <- F. unfold drained at 2. cbn. f_equal. unfold drained. cbn.
    by rewrite insert_insert_eq.
  - apply (privs_rep_vpus (with_pq v p pq' w)); [by rewrite Hw'|].
    eapply privs_rep_with; [done..|congruence].
Qed.

(** ** Stealing *)

Record vpus_wf (w : world) : Prop := {
  vw_index : xt_index (mgr w) = Z.of_nat (length (vpus w));
  vw_bound : 0 < xt_index (mgr w) < 2 ^ 31;
  vw_id : forall v vp, vpus w !! v = Some vp -> vid vp = Z.of_nat v
}.

Lemma vpus_wf_frame w w' : frame w w' -> vpus_wf w -> vpus_wf w'.
Proof.
  intros F [Hi Hb Hv]. split; rewrite ?(fr_mgr _ _ F), ?(frame_nv _ _ F); [done..|].
  intros v vp' Hvp'. assert ((vpu_core <$> vpus w') !! v = Some (vpu_core vp')) as E
    by (by rewrite list_lookup_fmap, Hvp').
  rewrite (fr_vpus _ _ F), list_lookup_fmap in E. apply fmap_Some in E as (vp & Hvp & E).
  rewrite <- (Hv _ _ Hvp). change (vid vp') with (vid (vpu_core vp')). by rewrite E.
Qed.

Lemma queued_upd nv G P u p l :
  (u < nv)%nat -> P (u, p) ++ queued nv G (<[(u, p) := l]> P) p ≡ₚ l ++ queued nv G P p.
Proof.
  intros Hu. rewrite (queued_priv _ _ _ _ _ _ Hu), (queued_split _ G P u p Hu). solve_Permutation.
Qed.

Lemma level_change_steal nv G P v u p xs x d :
  (v < nv)%nat -> (u < nv)%nat -> u <> v -> P (v, p) = [] -> P (u, p) = xs ++ x :: d ->
  level_change nv G P G (<[(v, p) := xs]> (<[(u, p) := d]> P)) p [x] [].
Proof.
  intros Hv Hu Hne HPv HPu. split; [|intros; by rewrite !queued_priv_other].
  pose proof (queued_upd nv G (<[(u, p) := d]> P) v p xs Hv) as E1.
  rewrite fn_lookup_insert_ne, HPv in E1 by congruence. cbn in E1.
  pose proof (queued_upd nv G P u p d Hu) as E2. rewrite HPu in E2. rewrite E1. cbn.
  apply (Permutation_app_inv_l d). rewrite <- E2. solve_Permutation.
Qed.

Lemma half_up_pos n : (0 < n)%nat -> (0 < half_up n)%nat.
Proof. intros. unfold half_up. pose proof (Nat.div_lt n 2). lia. Qed.

Lemma runqsteal_rep w G P Tr v u p :
  queues_rep w G P Tr -> (v < length (vpus w))%nat -> (u < length (vpus w))%nat -> u <> v ->
  (p < NP)%nat -> P (v, p) = [] ->
  exists r w' P', __runqsteal v p u w = Ok (r, w') /\ queues_rep w' G P' Tr /\ frame w w' /\
    level_change (length (vpus w)) G P G P' p (option_list r) [] /\
    (r = None -> P' = P /\ P (u, p) = []).
Proof.
  intros QR Hv Hu Hne Hp HPv. pose proof (qr_privs _ _ _ _ QR) as Hpr.
  destruct (privs_rep_at _ _ v p Hpr Hv Hp) as [pv Hatv].
  destruct (privs_rep_at _ _ u p Hpr Hu Hp) as [pu Hatu].
  destruct (pr_runq _ _ Hpr _ _ _ Hatv) as [Rv Hpv], (pr_runq _ _ Hpr _ _ _ Hatu) as [Ru Hpu].
  rewrite HPv in Rv. destruct (runqgrab_rep 1 _ _ Ru) as (pu' & Eg & Ru' & Hpu').
  unfold __runqsteal. rewrite (bind_ok _ _ _ _ _ (on_pq_ok _ _ _ _ _ _ _ Hatu Eg)).
  assert (pq_at (with_pq u p pu' w) v p pv) as Hatv'.
  { destruct Hatv as (vp & Hvp & ?). exists vp. split; [|done]. cbn.
    by rewrite list_lookup_alter_ne. }
  pose proof (privs_rep_with _ _ _ _ _ _ _ Hpr Hatu Ru' ltac:(congruence)) as Hpr1.
  assert (frame w (with_pq u p pu' w)) as F1 by apply frame_with_pq.
  destruct (decide (P (u, p) = [])) as [HPu|HPu].
  - rewrite HPu in *. cbn [length half_up take fmap list_fmap].
    exists None, (with_pq u p pu' w), P.
    rewrite (on_pq_read _ _ _ _ _ None Hatv') by done. split_and!; [done| |done|by split|done].
    eapply (queues_rep_change w); [done..|apply QR| |done| |constructor|set_solver|set_solver].
    + split; [apply Hpr1|]. intros v' p' q Hq.
      destruct (pr_runq _ _ Hpr1 _ _ _ Hq) as [Rq ?].
      destruct (decide ((v', p') = (u, p))) as [[= -> ->]|].
      * rewrite HPu. by rewrite fn_lookup_insert in Rq.
      * by rewrite fn_lookup_insert_ne in Rq by congruence.
    + by split.
  - set (h := half_up (length (P (u, p)))) in *.
    assert (length (P (u, p)) <> 0)%nat as Hnz by (by intros ?%nil_length_inv).
    pose proof (half_up_pos (length (P (u, p))) ltac:(lia)) as Hh0.
    destruct (half_up_Z (length (P (u, p))) (rq_len _ _ Ru)) as (_ & Hhb & Hhl).
    fold h in Hh0, Hhb, Hhl.
    destruct (exists_last (l := take h (P (u, p)))) as (xs & x & Exs).
    { intros E%(f_equal length). rewrite length_take in E. cbn in E. lia. }
    assert (length (xs ++ [x]) = h) as Hxs by (rewrite <- Exs, length_take; lia).
    destruct (runqsteal_keep_rep pv [] xs x Rv) as (pv' & Ek & Rv' & Hpv').
    { rewrite length_app in Hxs. cbn [length] in *. change (TSC_TASK_NUM_PERPRIO / 2) with 256 in Hhb. unfold TSC_TASK_NUM_PERPRIO. lia. }
    rewrite Exs. rewrite Hxs in Ek.
    rewrite (on_pq_ok _ _ _ _ _ _ _ Hatv' Ek).
    assert (P (u, p) = xs ++ x :: drop h (P (u, p))) as EPu.
    { rewrite <- (take_drop h (P (u, p))) at 1. by rewrite Exs, <- app_assoc. }
    pose proof (level_change_steal _ G P v u p xs x _ Hv Hu Hne HPv EPu) as LC.
    do 3 eexists. split_and!; [reflexivity| | |exact LC|done].
    + eapply (queues_rep_change w); [done| |done|apply QR| |done|exact LC|constructor|set_solver|set_solver].
      * etrans; [exact F1|apply frame_with_pq].
      * eapply privs_rep_with; [done..|congruence].
    + etrans; [exact F1|apply frame_with_pq].
Qed.

Lemma queues_rep_same w w' G P Tr :
  queues_rep w G P Tr -> links w' = links w -> privs_rep w' P ->
  length (vpus w') = length (vpus w) ->
  (forall c, is_Some (coros w' !! c) <-> is_Some (coros w !! c)) ->
  queues_rep w' G P Tr.
Proof.
  intros [Hl Hpr Ho Hnd Hd Hk] El Hpr' Ev Ec. split; rewrite ?El, ?Ev; try done.
  - intros c Hc%Ec. eauto.
  - intros p c Hp Hc. apply Ec. eauto.
Qed.

Lemma myrand_rep w G P Tr v :
  queues_rep w G P Tr -> (v < length (vpus w))%nat ->
  exists r w', __myrand v w = Ok (r, w') /\ 0 <= r < 2 ^ 32 /\
    queues_rep w' G P Tr /\ frame w w'.
Proof.
  intros QR Hv. destruct (lookup_lt_is_Some_2 _ _ Hv) as [vp Hvp].
  unfold __myrand, bind, get_vpu, upd_vpu. rewrite Hvp. cbv beta iota zeta. rewrite Hvp.
  set (s := u32 _). set (w' := set_vpus (<[v:=set_rand_seed s vp]> (vpus w)) w).
  assert (frame w w') as F.
  { split; try done. cbn. apply list_eq. intros i. rewrite !list_lookup_fmap.
    destruct (decide (i = v)) as [->|]; [|by rewrite list_lookup_insert_ne].
    by rewrite list_lookup_insert_eq, Hvp. }
  exists s, w'. split; [done|]. split; [apply u32_range|]. split; [|done].
  apply (queues_rep_same w); [done|done| |by rewrite (frame_nv _ _ F)|done].
  pose proof (qr_privs _ _ _ _ QR) as [Hl Hr]. split; cbn.
  - intros i vi. destruct (decide (i = v)) as [->|].
    + rewrite list_lookup_insert_eq by done. intros [= <-]. by apply (Hl v vp).
    + rewrite list_lookup_insert_ne by done. apply Hl.
  - intros i p pq (vi & Hvi & Hpq). apply Hr. cbn in Hvi. destruct (decide (i = v)) as [->|].
    + rewrite list_lookup_insert_eq in Hvi by done. simplify_eq. by exists vp.
    + rewrite list_lookup_insert_ne in Hvi by done. by exists vi.
Qed.

Lemma random_steal_rep w G P Tr v p :
  queues_rep w G P Tr -> vpus_wf w -> (v < length (vpus w))%nat -> (p < NP)%nat ->
  P (v, p) = [] ->
  exists r w' P', __random_steal v p w = Ok (r, w') /\ queues_rep w' G P' Tr /\ frame w w' /\
    level_change (length (vpus w)) G P G P' p (option_list r) [] /\ (r = None -> P' = P).
Proof.
  intros QR WF Hv Hp HP. destruct (myrand_rep _ _ _ _ _ QR Hv) as (r & w1 & E & Hr & QR1 & F1).
  pose proof (vpus_wf_frame _ _ F1 WF) as WF1. pose proof (frame_nv _ _ F1) as NV1.
  unfold __random_steal. rewrite (bind_ok _ _ _ _ _ E).
  rewrite (bind_ok _ _ _ (mgr w1) w1) by done.
  pose proof (vw_bound _ WF1). pose proof (vw_index _ WF1) as Hidx.
  pose proof (Z.mod_pos_bound r (xt_index (mgr w1)) ltac:(lia)).
  rewrite i32_small by lia. rewrite <- NV1 in Hv.
  destruct (lookup_lt_is_Some_2 _ _ Hv) as [vp Hvp].
  rewrite (bind_ok _ _ _ vp w1) by (unfold get_vpu; by rewrite Hvp).
  rewrite u32_small, (vw_id _ WF1 _ _ Hvp) by lia.
  destruct (Z.eqb_spec (r mod xt_index (mgr w1)) (Z.of_nat v)) as [E1|Hne].
  { exists None, w1, P. split_and!; try done. }
  destruct (Z.ltb_spec (r mod xt_index (mgr w1)) 0); [lia|].
  destruct (runqsteal_rep w1 G P Tr v (Z.to_nat (r mod xt_index (mgr w1))) p)
    as (r' & w2 & P' & E2 & QR2 & F2 & LC & Hnone); [done|done|lia|lia|done|done|].
  exists r', w2, P'. rewrite NV1 in LC. split_and!; [done|done|by etrans|done|].
  intros E'. by apply Hnone.
Qed.

Lemma elect_steal_rep n : forall w G P Tr v p,
  queues_rep w G P Tr -> vpus_wf w -> (v < length (vpus w))%nat -> (p < NP)%nat ->
  P (v, p) = [] ->
  exists r w' P', elect_steal n v p w = Ok (r, w') /\ queues_rep w' G P' Tr /\ frame w w' /\
    level_change (length (vpus w)) G P G P' p (option_list r) [] /\ (r = None -> P' = P).
Proof.
  induction n as [|n IH]; intros w G P Tr v p QR WF Hv Hp HP.
  { exists None, w, P. by split_and!. }
  destruct (random_steal_rep _ _ _ _ _ _ QR WF Hv Hp HP)
    as (r & w1 & P1 & E & QR1 & F1 & LC1 & Hnone).
  cbn [elect_steal]. rewrite (bind_ok _ _ _ _ _ E). destruct r as [c|].
  - exists (Some c), w1, P1. done.
  - rewrite Hnone in * by done. pose proof (frame_nv _ _ F1) as NV.
    destruct (IH w1 G P Tr v p QR1) as (r & w2 & P2 & E2 & QR2 & F2 & LC2 & HN2);
      [by eapply vpus_wf_frame|lia|done..|].
    exists r, w2, P2. rewrite NV in LC2. split_and!; try done. by etrans.
Qed.

Lemma level_change_get nv G P v p c l :
  (v < nv)%nat -> P (v, p) = c :: l ->
  level_change nv G P G (<[(v, p) := l]> P) p [c] [].
Proof.
  intros Hv HP. split; [|intros; by apply queued_priv_other].
  rewrite (queued_priv _ _ _ _ _ _ Hv), (queued_split _ G P v p Hv), HP. done.
Qed.

(** [__runqget] on the private queue of [v] at level [p]. *)
Lemma runqget_at w G P Tr v p :
  queues_rep w G P Tr -> (v < length (vpus w))%nat -> (p < NP)%nat ->
  match P (v, p) with
  | [] => on_pq v p (__runqget FUEL) w = Ok (None, w)
  | c :: l => exists w', on_pq v p (__runqget FUEL) w = Ok (Some c, w') /\
      queues_rep w' G (<[(v, p) := l]> P) Tr /\ frame w w'
  end.
Proof.
  intros QR Hv Hp. pose proof (qr_privs _ _ _ _ QR) as Hpr.
  destruct (privs_rep_at _ _ v p Hpr Hv Hp) as [pq Hat].
  destruct (pr_runq _ _ Hpr _ _ _ Hat) as [R Hprio].
  destruct (P (v, p)) as [|c l] eqn:HP.
  - apply (on_pq_read _ _ _ _ _ _ Hat). cbn. unfold bind, get. by rewrite (rq_empty_iff _ _ R).
  - destruct (runqget_rep 1 _ _ R) as (pq' & E & R' & Hp').
    eexists. split_and!; [by eapply on_pq_ok| |apply frame_with_pq].
    eapply (queues_rep_change w);
      [done|apply frame_with_pq|done|apply QR| |done|by apply level_change_get|constructor|set_solver|set_solver].
    eapply privs_rep_with; [done..|congruence].
Qed.

(** [core_elect] takes one of the tasks of the level, and misses none that is
    in the VPU's own queue or in the global one. *)
Lemma core_elect_rep w G P Tr v p :
  queues_rep w G P Tr -> vpus_wf w -> (v < length (vpus w))%nat -> (p < NP)%nat ->
  exists r w' G' P', core_elect v p w = Ok (r, w') /\ queues_rep w' G' P' Tr /\ frame w w' /\
    level_change (length (vpus w)) G P G' P' p (option_list r) [] /\
    (r = None -> P (v, p) = [] /\ G p = [] /\ G' = G /\ P' = P).
Proof.
  intros QR WF Hv Hp. unfold core_elect. pose proof (runqget_at _ _ _ _ _ _ QR Hv Hp) as Hget.
  destruct (P (v, p)) as [|c l] eqn:HP.
  - rewrite (bind_ok _ _ _ _ _ Hget).
    pose proof (elect_global_rep _ _ _ _ v p 9 QR Hv Hp HP) as Hg.
    destruct (G p) as [|c g] eqn:HG.
    + rewrite (bind_ok _ _ _ _ _ Hg), (bind_ok _ _ _ (mgr w) w) by done.
      destruct (elect_steal_rep (Z.to_nat (2 * xt_index (mgr w) + 2)) _ _ _ _ _ _ QR WF Hv Hp HP)
        as (r & w' & P' & ? & ? & ? & ? & ?).
      exists r, w', G, P'. split_and!; try done. naive_solver.
    + destruct Hg as (w' & G' & P' & E & ? & ? & ?). rewrite (bind_ok _ _ _ _ _ E).
      by exists (Some c), w', G', P'.
  - destruct Hget as (w' & E & ? & ?). rewrite (bind_ok _ _ _ _ _ E).
    exists (Some c), w', G, (<[(v, p) := l]> P). split_and!; try done.
    by apply level_change_get.
Qed.
