(* ===== verification/SchedProps.v ===== *)
(** * The scheduler keeps its ready tasks (src/vpu.c)

    [sched_inv w R Tr]: [R p] are the ready tasks of level [p].  Every ready
    task is queued exactly once, in state READY and at its own priority, and
    [ready[]] and [total_ready] count them.  Making a coroutine ready adds it,
    yielding adds the running one, the pass of [core_sched] over the levels
    removes the one it starts, and nothing is lost or queued twice. *)

From stdpp Require Import functions.
From S2P Require Import Prelude Queue RunQueue Scheduler SchedInv.

(** ** The invariant of the scheduler

    [R p] are the ready tasks of level [p], in any order: every one is queued
    exactly once, in state READY and with its own priority, and the counters
    count them. *)

Definition total (R : nat -> list coid) : nat :=
  (length (R 0) + length (R 1) + length (R 2) + length (R 3))%nat.

Record sched_inv (w : world) (R : nat -> list coid) (Tr : list coid) : Prop := {
  si_queues : exists G P, queues_rep w G P Tr /\
    forall p, (p < NP)%nat -> queued (length (vpus w)) G P p ≡ₚ R p;
  si_vpus : vpus_wf w;
  si_tasks : forall p c, (p < NP)%nat -> c ∈ R p -> exists co, coros w !! c = Some co /\
    status co = TSC_COROUTINE_READY /\ priority co = Z.of_nat p;
  si_ready : forall p, (p < NP)%nat -> ready (mgr w) !! p = Some (Z.of_nat (length (R p)));
  si_total : total_ready (mgr w) = Z.of_nat (total R)
}.

Lemma total_insert R p l :
  (p < NP)%nat -> (total (<[p := l]> R) + length (R p) = total R + length l)%nat.
Proof.
  intros Hp. unfold total.
  destruct p as [|[|[|[|p]]]]; [..|lia]; rewrite ?fn_lookup_insert, ?fn_lookup_insert_ne by lia; lia.
Qed.

Lemma total_level R p : (p < NP)%nat -> (length (R p) <= total R)%nat.
Proof. intros. unfold total. destruct p as [|[|[|[|p]]]]; lia. Qed.

Lemma sched_inv_queued w R Tr p c co :
  sched_inv w R Tr -> coros w !! c = Some co -> status co <> TSC_COROUTINE_READY ->
  (p < NP)%nat -> c ∉ R p.
Proof. intros S Hc Hs Hp Hin. destruct (si_tasks _ _ _ S p c Hp Hin) as (? & ? & ? & ?). congruence. Qed.

(** One more task at level [p]. *)
Lemma sched_inv_add w w' R Tr G P G' P' p c co :
  sched_inv w R Tr -> (forall p, (p < NP)%nat -> queued (length (vpus w)) G P p ≡ₚ R p) ->
  (p < NP)%nat -> queues_rep w' G' P' Tr -> length (vpus w') = length (vpus w) ->
  level_change (length (vpus w)) G P G' P' p [] [c] -> vpus_wf w' ->
  coros w' !! c = Some co -> status co = TSC_COROUTINE_READY -> priority co = Z.of_nat p ->
  (forall d, d <> c -> coros w' !! d = coros w !! d) ->
  (forall q, (q < NP)%nat -> c ∉ R q) ->
  ready (mgr w') = <[p := Z.of_nat (length (R p)) + 1]> (ready (mgr w)) ->
  total_ready (mgr w') = total_ready (mgr w) + 1 ->
  sched_inv w' (<[p := c :: R p]> R) Tr.
Proof.
  intros S HR Hp QR Hnv [Hat Hot] WF Hc Hs Hpr Hd Hnew Hrd Htot. split.
  - exists G', P'. split; [done|]. rewrite Hnv. intros q Hq. destruct (decide (p = q)) as [<-|].
    + rewrite fn_lookup_insert. cbn in Hat. by rewrite Hat, HR.
    + rewrite fn_lookup_insert_ne, Hot by done. by apply HR.
  - done.
  - intros q d Hq. destruct (decide (d = c)) as [->|Hne].
    + destruct (decide (p = q)) as [<-|]; [by exists co|].
      rewrite fn_lookup_insert_ne by done. intros ?. by destruct (Hnew q).
    + intros Hdq. rewrite Hd by done. apply (si_tasks _ _ _ S); [done|].
      destruct (decide (p = q)) as [<-|]; [rewrite fn_lookup_insert in Hdq|by rewrite fn_lookup_insert_ne in Hdq].
      set_solver.
  - intros q Hq. rewrite Hrd. destruct (decide (p = q)) as [<-|].
    + rewrite fn_lookup_insert, list_lookup_insert_eq by (by eapply lookup_lt_Some, (si_ready _ _ _ S)).
      cbn. f_equal. lia.
    + rewrite fn_lookup_insert_ne, list_lookup_insert_ne by done. by apply (si_ready _ _ _ S).
  - rewrite Htot, (si_total _ _ _ S). pose proof (total_insert R p (c :: R p) Hp). cbn in *. lia.
Qed.

(** One task less at level [p]: it runs now. *)
Lemma sched_inv_remove w w' R Tr G P G' P' p c R' :
  sched_inv w R Tr -> (forall p, (p < NP)%nat -> queued (length (vpus w)) G P p ≡ₚ R p) ->
  (p < NP)%nat -> queues_rep w' G' P' Tr -> length (vpus w') = length (vpus w) ->
  level_change (length (vpus w)) G P G' P' p [c] [] -> vpus_wf w' -> R p ≡ₚ c :: R' ->
  (forall d, d <> c -> coros w' !! d = coros w !! d) ->
  ready (mgr w') = <[p := Z.of_nat (length (R p)) - 1]> (ready (mgr w)) ->
  total_ready (mgr w') = total_ready (mgr w) - 1 ->
  sched_inv w' (<[p := R']> R) Tr.
Proof.
  intros S HR Hp QR Hnv [Hat Hot] WF HR' Hd Hrd Htot.
  assert (queued (length (vpus w')) G' P' p ≡ₚ R') as HQ.
  { apply (Permutation_cons_inv (a := c)). rewrite Hnv, <- HR', <- (HR p Hp). exact Hat. }
  pose proof (Permutation_length HR') as HL. cbn in HL.
  assert (c ∉ R') as Hc.
  { assert (NoDup (c :: R')) as [? _]%NoDup_cons; [|done].
    destruct (si_queues _ _ _ S) as (G0 & P0 & QR0 & HR0).
    rewrite <- HR', <- (HR0 p Hp). by apply (qr_nodup _ _ _ _ QR0). }
  split.
  - exists G', P'. split; [done|]. intros q Hq. destruct (decide (p = q)) as [<-|].
    + by rewrite fn_lookup_insert.
    + rewrite fn_lookup_insert_ne, Hnv, Hot by done. by apply HR.
  - done.
  - intros q d Hq Hdq. assert (d ∈ R q /\ d <> c) as [Hdq' Hdc].
    { destruct (decide (p = q)) as [<-|].
      - rewrite fn_lookup_insert in Hdq. rewrite HR'. set_solver.
      - rewrite fn_lookup_insert_ne in Hdq by done. split; [done|]. intros ->.
        destruct (si_tasks _ _ _ S q c Hq Hdq) as (co & ? & _ & E1).
        destruct (si_tasks _ _ _ S p c Hp) as (co' & ? & _ & E2); [rewrite HR'; by left|].
        simplify_eq. lia. }
    rewrite Hd by done. by apply (si_tasks _ _ _ S).
  - intros q Hq. rewrite Hrd. destruct (decide (p = q)) as [<-|].
    + rewrite fn_lookup_insert, list_lookup_insert_eq by (by eapply lookup_lt_Some, (si_ready _ _ _ S)).
      f_equal. lia.
    + rewrite fn_lookup_insert_ne, list_lookup_insert_ne by done. by apply (si_ready _ _ _ S).
  - rewrite Htot, (si_total _ _ _ S). pose proof (total_insert R p R' Hp). lia.
Qed.


(** ** Adding to a global queue *)

Lemma glob_add_rep w G P Tr p c :
  queues_rep w G P Tr -> (p < NP)%nat -> is_Some (coros w !! c) ->
  (forall p', (p' < NP)%nat -> c ∉ queued (length (vpus w)) G P p') ->
  Z.of_nat (length (queued (length (vpus w)) G P p)) + 1 < 2 ^ 32 ->
  exists w' G' P', on_links (atomic_queue_add (Some p) (slink c)) w = Ok (tt, w') /\
    queues_rep w' G' P' Tr /\ frame w w' /\ vpus w' = vpus w /\
    level_change (length (vpus w)) G P G' P' p [] [c].
Proof.
  intros QR Hp Hc Hnew Hlen. pose proof QR as [Hl Hpr Ho Hnd Hd Hk].
  destruct (Ho c Hc) as (it & Hit & _).
  assert (c ∉ G p) as Hcg by (intros ?; by apply (Hnew p), elem_queued_glob).
  unfold queued in Hlen. rewrite length_app in Hlen.
  destruct (atomic_queue_add_fwd (links w) (Some p) (slink <$> G p) (slink c) it)
    as (st' & E & F & Hso & Hq & Hx); [by apply (lr_glob _ _ _ Hl)|done| |rewrite length_fmap; lia|].
  { by intros (? & ->%(inj slink) & ?)%list_elem_of_fmap. }
  assert (level_change (length (vpus w)) G P (<[p := G p ++ [c]]> G) P p [] [c]) as LC.
  { split; [|intros; by rewrite queued_glob_other].
    unfold queued. rewrite fn_lookup_insert. cbn. solve_Permutation. }
  exists (set_links st' w), (<[p := G p ++ [c]]> G), P.
  change [slink c] with (slink <$> [c]) in F, Hx. rewrite <- fmap_app in F, Hx.
  split_and!; [by apply on_links_ok| |apply frame_links|done|done].
  eapply (queues_rep_change w); [done|apply frame_links|done| | |done|exact LC|..].
  - apply (lrep_update (links w)); [done..|intros x Hx'; apply Hx; set_solver|].
    intros p' d Hp' Hne [Hd'|Hd']%elem_of_app Hdp'.
    + apply Hne. by eapply (lr_disj _ _ _ Hl).
    + apply list_elem_of_singleton in Hd' as ->. by eapply (Hnew p'), elem_queued_glob.
  - by apply (privs_rep_vpus w).
  - apply NoDup_singleton.
  - set_solver.
  - intros d p' ->%list_elem_of_singleton. by apply Hnew.
Qed.

Lemma set_co_rep w G P Tr c co :
  queues_rep w G P Tr -> is_Some (coros w !! c) ->
  queues_rep (set_coros (<[c := co]> (coros w)) w) G P Tr.
Proof.
  intros QR Hc. apply (queues_rep_same w); [done|done|by apply (privs_rep_vpus w), QR|done|].
  intros d. cbn. destruct (decide (c = d)) as [<-|]; [by rewrite lookup_insert_eq; naive_solver|].
  by rewrite lookup_insert_ne.
Qed.

Lemma upd_ready_ok w p d n :
  ready (mgr w) !! p = Some n ->
  upd_ready p d w = Ok (tt, set_mgr (set_ready (<[p := u32 (n + d)]> (ready (mgr w))) (mgr w)) w).
Proof. intros H. unfold upd_ready. by rewrite H. Qed.

Lemma wakeup_ok w : exists s, vpu_wakeup_one w = Ok (tt, set_signals s w).
Proof.
  unfold vpu_wakeup_one, bind, get_mgr, modify, ret. case_match;
    [by exists (signals w + 1)|exists (signals w); by destruct w].
Qed.

(** What each VPU runs, and its scheduler coroutine. *)
Definition thread_view (vp : vpu) : option coid * option coid := (current vp, scheduler vp).
Definition threads (w : world) : list (option coid * option coid) := thread_view <$> vpus w.

Definition run_on (c : option coid) (t : option coid * option coid) : option coid * option coid :=
  (c, t.2).

(** The VPU part of a world without the queues and the random seeds. *)
Record same_threads (w w' : world) : Prop := {
  st_locks : locks w' = locks w;
  st_vpus : vpu_core <$> vpus w' = vpu_core <$> vpus w
}.

Lemma core_threads (w w' : world) :
  vpu_core <$> vpus w' = vpu_core <$> vpus w -> threads w' = threads w.
Proof.
  intros E%(f_equal (fmap thread_view)). rewrite <- !list_fmap_compose in E. exact E.
Qed.

Lemma frame_threads w w' : frame w w' -> threads w' = threads w.
Proof. intros []. by apply core_threads. Qed.

Lemma threads_insert (w : world) v vp vp' f :
  vpus w !! v = Some vp -> thread_view vp' = f (thread_view vp) ->
  thread_view <$> <[v := vp']> (vpus w) = alter f v (threads w).
Proof.
  intros Hv E. unfold threads. rewrite list_fmap_insert. apply list_eq. intros i.
  destruct (decide (v = i)) as [<-|].
  - rewrite list_lookup_insert_eq, list_lookup_alter_eq, list_lookup_fmap, Hv, E; [done|].
    rewrite length_fmap. by eapply lookup_lt_Some.
  - by rewrite list_lookup_insert_ne, list_lookup_alter_ne.
Qed.

Lemma same_threads_wf w w' :
  same_threads w w' -> xt_index (mgr w') = xt_index (mgr w) -> vpus_wf w -> vpus_wf w'.
Proof.
  intros [Hl Hv] E WF.
  assert (frame w (set_coros (coros w) (set_mgr (mgr w) (set_signals (signals w) w')))) as F
    by by split.
  destruct (vpus_wf_frame _ _ F WF) as [H1 H2 H3]. split; rewrite ?E; [exact H1|exact H2|exact H3].
Qed.

Lemma ready_enqueue_rep me w R Tr c co p :
  sched_inv w R Tr -> coros w !! c = Some co -> status co = TSC_COROUTINE_WAIT ->
  priority co = Z.of_nat p -> (p < NP)%nat -> Z.of_nat (total R) + 1 < 2 ^ 32 ->
  (forall v, me = Some v -> (v < length (vpus w))%nat) ->
  exists w', ready_enqueue me c w = Ok (co, w') /\ sched_inv w' (<[p := c :: R p]> R) Tr /\
    coros w' = <[c := set_status TSC_COROUTINE_READY co]> (coros w) /\ same_threads w w' /\
    total_iowait (mgr w') = (if async_wait co =? 0 then total_iowait (mgr w)
                             else u32 (total_iowait (mgr w) - 1)) /\
    alive (mgr w') = alive (mgr w) /\ xt_index (mgr w') = xt_index (mgr w).
Proof.
  intros S Hc Hs Hpr Hp Htot Hme. destruct (si_queues _ _ _ S) as (G & P & QR & HR).
  pose proof (total_level R p Hp).
  assert (forall q, (q < NP)%nat -> c ∉ R q) as Hnew.
  { intros q Hq. eapply sched_inv_queued; [done..| |done]. by rewrite Hs. }
  assert (forall q, (q < NP)%nat -> c ∉ queued (length (vpus w)) G P q) as HnewQ
    by (intros q Hq; rewrite (HR q Hq); by apply Hnew).
  assert (Z.of_nat (length (queued (length (vpus w)) G P p)) + 1 < 2 ^ 32) as HlenQ
    by (rewrite (HR p Hp); lia).
  unfold ready_enqueue. rewrite (bind_ok _ _ _ co w) by (unfold get_co; by rewrite Hc).
  rewrite bool_decide_eq_true_2, (bind_ok _ _ w tt w) by done.
  set (co' := set_status TSC_COROUTINE_READY co).
  set (w1 := set_coros (<[c := co']> (coros w)) w).
  rewrite (bind_ok _ _ _ tt w1) by (unfold upd_co; by rewrite Hc).
  assert (queues_rep w1 G P Tr) as QR1 by (apply set_co_rep; [done|by rewrite Hc]).
  assert (is_Some (coros w1 !! c)) as Hc1 by (cbn; by rewrite lookup_insert_eq).
  rewrite Hpr, Nat2Z.id.
  assert (exists w2 G' P', (match me with
       | Some v => __runqput FUEL v p c
       | None => on_links (atomic_queue_add (Some p) (c, status_link)) end) w1 = Ok (tt, w2) /\
       queues_rep w2 G' P' Tr /\ frame w1 w2 /\
       level_change (length (vpus w)) G P G' P' p [] [c]) as (w2 & G' & P' & E2 & QR2 & F2 & LC).
  { destruct me as [v|].
    - by apply (runqput_rep w1 G P Tr v p c); [|apply Hme|..].
    - destruct (glob_add_rep w1 G P Tr p c) as (w2 & G' & P' & ? & ? & ? & _ & ?); eauto 10. }
  rewrite (bind_ok _ _ _ _ _ E2). pose proof F2 as [HC HM HL HS HV]. change (mgr w1) with (mgr w) in HM.
  set (m3 := set_total_ready (u32 (total_ready (mgr w2) + 1)) (mgr w2)).
  rewrite (bind_ok _ _ _ tt (set_mgr m3 w2)) by done.
  assert (ready (mgr (set_mgr m3 w2)) !! p = Some (Z.of_nat (length (R p)))) as Hr3.
  { cbn. rewrite HM. by apply (si_ready _ _ _ S). }
  rewrite (bind_ok _ _ _ _ _ (upd_ready_ok _ _ 1 _ Hr3)).
  set (w4 := set_mgr _ (set_mgr m3 w2)).
  assert (exists n, (if async_wait co =? 0 then ret tt else upd_total_iowait (-1)) w4
     = Ok (tt, set_mgr (set_total_iowait n (mgr w4)) w4) /\
     n = (if async_wait co =? 0 then total_iowait (mgr w) else u32 (total_iowait (mgr w) - 1)))
    as (n & E5 & Hn).
  { destruct (async_wait co =? 0); eexists; (split; [|reflexivity]); rewrite <- HM; reflexivity. }
  rewrite (bind_ok _ _ _ _ _ E5). set (w5 := set_mgr _ w4).
  exists w5. split_and!.
  - done.
  - eapply (sched_inv_add w); [done|exact HR|done| | |exact LC|..]; cbn; rewrite ?HC, ?HM.
    + apply (queues_rep_same w2); [done|done|by apply (privs_rep_vpus w2), QR2|done|done].
    + apply (frame_nv _ _ F2).
    + apply (same_threads_wf w); [by split|cbn; by rewrite HM|apply S].
    + cbn. by rewrite lookup_insert_eq.
    + done.
    + done.
    + intros d Hd. cbn. by rewrite lookup_insert_ne.
    + done.
    + rewrite u32_small by lia. done.
    + cbn. rewrite (si_total _ _ _ S), u32_small; lia.
  - cbn. by rewrite HC.
  - by split.
  - done.
  - cbn. by rewrite HM.
  - cbn. by rewrite HM.
Qed.


(** ** What the invariant does not depend on *)

Definition co_view (co : coroutine) := (status co, priority co).
Definition vpu_view (vp : vpu) := (vid vp, xt vp).

Record same_view (w w' : world) : Prop := {
  sv_links : links w' = links w;
  sv_vpus : vpu_view <$> vpus w' = vpu_view <$> vpus w;
  sv_coros : forall c, co_view <$> coros w' !! c = co_view <$> coros w !! c;
  sv_ready : ready (mgr w') = ready (mgr w);
  sv_total : total_ready (mgr w') = total_ready (mgr w);
  sv_index : xt_index (mgr w') = xt_index (mgr w)
}.

#[export] Instance same_view_refl : Reflexive same_view.
Proof. by split. Qed.
#[export] Instance same_view_trans : Transitive same_view.
Proof. intros w1 w2 w3 [] []. split; intros; etrans; eauto. Qed.

Lemma view_nv w w' : same_view w w' -> length (vpus w') = length (vpus w).
Proof. intros V. pose proof (f_equal length (sv_vpus _ _ V)) as E. by rewrite !length_fmap in E. Qed.

Lemma view_vpu w w' v vp' :
  same_view w w' -> vpus w' !! v = Some vp' ->
  exists vp, vpus w !! v = Some vp /\ vid vp' = vid vp /\ xt vp' = xt vp.
Proof.
  intros V Hv. pose proof (f_equal (.!! v) (sv_vpus _ _ V)) as E. cbn in E.
  rewrite !list_lookup_fmap, Hv in E. symmetry in E. apply fmap_Some in E as (vp & Hvp & E).
  exists vp. injection E. auto.
Qed.

Lemma view_co w w' c co :
  same_view w w' -> coros w !! c = Some co ->
  exists co', coros w' !! c = Some co' /\ status co' = status co /\ priority co' = priority co.
Proof.
  intros V Hc. pose proof (sv_coros _ _ V c) as E. rewrite Hc in E.
  apply fmap_Some in E as (co' & Hc' & E). exists co'. injection E. auto.
Qed.

Lemma view_dom w w' c : same_view w w' -> is_Some (coros w' !! c) <-> is_Some (coros w !! c).
Proof.
  intros V. pose proof (sv_coros _ _ V c) as E.
  destruct (coros w' !! c), (coros w !! c); cbn in E; naive_solver.
Qed.

Lemma sched_inv_view w w' R Tr : same_view w w' -> sched_inv w R Tr -> sched_inv w' R Tr.
Proof.
  intros V S. destruct (si_queues _ _ _ S) as (G & P & QR & HR). split.
  - exists G, P. split; [|by rewrite (view_nv _ _ V)].
    apply (queues_rep_same w); [done|apply V| |by apply view_nv|intros; by apply view_dom].
    destruct (qr_privs _ _ _ _ QR) as [Hl Hr]. split.
    + intros v vp' Hv. destruct (view_vpu _ _ _ _ V Hv) as (vp & ? & _ & ->). eauto.
    + intros v p pq (vp' & Hv & Hpq). destruct (view_vpu _ _ _ _ V Hv) as (vp & ? & _ & E).
      apply Hr. exists vp. by rewrite <- E.
  - destruct (si_vpus _ _ _ S) as [Hi Hb Hd].
    split; rewrite ?(sv_index _ _ V), ?(view_nv _ _ V); [done..|].
    intros v vp' Hv. destruct (view_vpu _ _ _ _ V Hv) as (vp & ? & -> & _). eauto.
  - intros p c Hp Hc. destruct (si_tasks _ _ _ S p c Hp Hc) as (co & Hco & ? & ?).
    destruct (view_co _ _ _ _ V Hco) as (co' & ? & ? & ?). exists co'. split_and!; congruence.
  - rewrite (sv_ready _ _ V). apply S.
  - rewrite (sv_total _ _ V). apply S.
Qed.

Lemma view_upd_vpu (w : world) v vp f :
  vpus w !! v = Some vp -> vpu_view (f vp) = vpu_view vp ->
  same_view w (set_vpus (<[v := f vp]> (vpus w)) w).
Proof.
  intros Hv E. split; try done. cbn. rewrite list_fmap_insert, E.
  apply list_insert_id. by rewrite list_lookup_fmap, Hv.
Qed.

Lemma view_upd_co (w : world) c co f :
  coros w !! c = Some co -> co_view (f co) = co_view co ->
  same_view w (set_coros (<[c := f co]> (coros w)) w).
Proof.
  intros Hc E. split; try done. cbn. intros d. destruct (decide (c = d)) as [<-|].
  - rewrite lookup_insert_eq, Hc. apply (f_equal Some), E.
  - by rewrite lookup_insert_ne.
Qed.

(** ** Yielding *)

Lemma core_yield_rep w R Tr c co p :
  sched_inv w R Tr -> coros w !! c = Some co -> status co <> TSC_COROUTINE_READY ->
  priority co = Z.of_nat p -> (p < NP)%nat -> Z.of_nat (total R) + 1 < 2 ^ 32 ->
  exists w', core_yield c w = Ok (tt, w') /\ sched_inv w' (<[p := c :: R p]> R) Tr /\
    coros w' = <[c := set_status TSC_COROUTINE_READY co]> (coros w) /\
    vpus w' = vpus w /\ locks w' = locks w.
Proof.
  intros S Hc Hs Hpr Hp Htot. destruct (si_queues _ _ _ S) as (G & P & QR & HR).
  pose proof (total_level R p Hp).
  assert (forall q, (q < NP)%nat -> c ∉ R q) as Hnew
    by (intros q Hq; by eapply sched_inv_queued).
  set (co' := set_status TSC_COROUTINE_READY co).
  set (w1 := set_coros (<[c := co']> (coros w)) w).
  assert (queues_rep w1 G P Tr) as QR1 by (apply set_co_rep; [done|by rewrite Hc]).
  assert (coros w1 !! c = Some co') as Hc1 by (cbn; by rewrite lookup_insert_eq).
  unfold core_yield. rewrite (bind_ok _ _ _ tt w1) by (unfold upd_co; by rewrite Hc).
  rewrite (bind_ok _ _ _ co' w1) by (unfold get_co; by rewrite Hc1).
  change (priority co') with (priority co). rewrite Hpr, Nat2Z.id.
  destruct (glob_add_rep w1 G P Tr p c) as (w2 & G' & P' & E2 & QR2 & F2 & V2 & LC);
    [done|done|by rewrite Hc1|intros q Hq; cbn; rewrite (HR q Hq); by apply Hnew|
     cbn; rewrite (HR p Hp); lia|].
  rewrite (bind_ok _ _ _ _ _ E2). pose proof F2 as [HC HM HL HS HV].
  change (mgr w1) with (mgr w) in HM. change (vpus w1) with (vpus w) in *.
  assert (ready (mgr w2) !! p = Some (Z.of_nat (length (R p)))) as Hr2
    by (rewrite HM; by apply S).
  rewrite (bind_ok _ _ _ _ _ (upd_ready_ok _ _ 1 _ Hr2)).
  eexists. split_and!; [reflexivity| |done|done|done].
  eapply (sched_inv_add w); [done|exact HR|done| | |exact LC|..].
  - apply (queues_rep_same w2); [done|done|by apply (privs_rep_vpus w2), QR2|done|done].
  - cbn. by rewrite V2.
  - apply (same_threads_wf w); [by split|cbn; by rewrite HM|apply S].
  - cbn. by rewrite HC.
  - done.
  - done.
  - intros d Hd. cbn. rewrite HC. cbn. by rewrite lookup_insert_ne.
  - done.
  - cbn. rewrite HM, u32_small by lia. done.
  - cbn. rewrite HM, (si_total _ _ _ S), u32_small; lia.
Qed.

(** ** The counters cannot overflow: a ready task is a coroutine *)

Lemma sched_inv_nodup w R Tr p : sched_inv w R Tr -> (p < NP)%nat -> NoDup (R p).
Proof.
  intros S Hp. destruct (si_queues _ _ _ S) as (G & P & QR & HR).
  rewrite <- (HR p Hp). by apply QR.
Qed.

Lemma sched_inv_disj w R Tr p q c :
  sched_inv w R Tr -> (p < NP)%nat -> (q < NP)%nat -> c ∈ R p -> c ∈ R q -> p = q.
Proof.
  intros S Hp Hq H1 H2. destruct (si_tasks _ _ _ S p c Hp H1) as (co & E1 & _ & P1).
  destruct (si_tasks _ _ _ S q c Hq H2) as (co' & E2 & _ & P2). simplify_eq. lia.
Qed.

Definition ready_list (R : nat -> list coid) : list coid :=
  R 0%nat ++ R 1%nat ++ R 2%nat ++ R 3%nat.

Lemma ready_list_length R : length (ready_list R) = total R.
Proof. unfold ready_list, total. rewrite !length_app. lia. Qed.

Lemma ready_list_in R c : c ∈ ready_list R -> exists p, (p < NP)%nat /\ c ∈ R p.
Proof.
  unfold ready_list. rewrite !elem_of_app.
  intros [?|[?|[?|?]]]; [exists 0%nat|exists 1%nat|exists 2%nat|exists 3%nat]; (split; [lia|done]).
Qed.

Lemma ready_list_nodup w R Tr : sched_inv w R Tr -> NoDup (ready_list R).
Proof.
  intros S.
  assert (forall p q c, (p < NP)%nat -> (q < NP)%nat -> p <> q -> c ∈ R p -> c ∉ R q) as D
    by (intros p q c Hp Hq Hne ? ?; by apply Hne; eapply sched_inv_disj).
  unfold ready_list. rewrite !NoDup_app. split_and!; try (eapply sched_inv_nodup; [done|lia]);
    intros c Hc; rewrite ?elem_of_app; intros Hc'; destruct_or?; (eapply D; [..|exact Hc|eassumption]; lia).
Qed.

Lemma sched_inv_size w R Tr : sched_inv w R Tr -> (total R <= size (coros w))%nat.
Proof.
  intros S. rewrite <- ready_list_length, <- (size_dom (D := gset _)),
    <- (size_list_to_set (C := gset coid) _ (ready_list_nodup _ _ _ S)).
  apply subseteq_size. intros c (p & Hp & Hc)%elem_of_list_to_set%ready_list_in.
  destruct (si_tasks _ _ _ S p c Hp Hc) as (co & Hco & _). by apply elem_of_dom; exists co.
Qed.

Lemma sched_inv_size_lt w R Tr c co :
  sched_inv w R Tr -> coros w !! c = Some co -> status co <> TSC_COROUTINE_READY ->
  (total R < size (coros w))%nat.
Proof.
  intros S Hc Hs.
  assert (c ∉ ready_list R) as Hn.
  { intros (p & Hp & Hin)%ready_list_in. by eapply (sched_inv_queued w R Tr). }
  assert (NoDup (c :: ready_list R)) as ND by (constructor; [done|by eapply ready_list_nodup]).
  pose proof (size_list_to_set (C := gset coid) _ ND) as E. cbn [length] in E.
  rewrite ready_list_length in E. rewrite <- (size_dom (D := gset _)).
  enough (list_to_set (c :: ready_list R) ⊆@{gset coid} dom (coros w)) as ?%subseteq_size by lia.
  intros d [->|Hd]%elem_of_list_to_set%elem_of_cons; [by apply elem_of_dom; exists co|].
  apply ready_list_in in Hd as (p & Hp & Hd).
  destruct (si_tasks _ _ _ S p d Hp Hd) as (dco & Hdco & _). by apply elem_of_dom; exists dco.
Qed.

(** ** Starting the elected task *)

Lemma sched_dispatch_rep w0 w R Tr G P G' P' v p c :
  sched_inv w0 R Tr -> (forall p, (p < NP)%nat -> queued (length (vpus w0)) G P p ≡ₚ R p) ->
  (p < NP)%nat -> (v < length (vpus w0))%nat -> queues_rep w G' P' Tr -> frame w0 w ->
  level_change (length (vpus w0)) G P G' P' p [c] [] -> Z.of_nat (size (coros w0)) < 2 ^ 32 ->
  exists w' R' co, sched_dispatch v p c w = Ok (tt, w') /\ R p ≡ₚ c :: R' /\
    sched_inv w' (<[p := R']> R) Tr /\ coros w0 !! c = Some co /\ priority co = Z.of_nat p /\
    coros w' = <[c := set_running (Z.of_nat v) co]> (coros w0) /\
    threads w' = alter (run_on (Some c)) v (threads w0).
Proof.
  intros S HR Hp Hv QR F LC Hsz. pose proof (sched_inv_size _ _ _ S). pose proof F as [HC HM HL HS HV].
  assert (c ∈ R p) as Hin by (rewrite <- (HR p Hp), <- (lc_at _ _ _ _ _ _ _ _ LC); by left).
  destruct (si_tasks _ _ _ S p c Hp Hin) as (co & Hco & Hst & Hpr).
  apply elem_of_Permutation in Hin as [R' HR'].
  pose proof (Permutation_length HR') as HLen. cbn [length] in HLen.
  pose proof (total_level R p Hp). pose proof (si_total _ _ _ S) as Htot.
  pose proof (vpus_wf_frame _ _ F (si_vpus _ _ _ S)) as WF.
  rewrite <- (frame_nv _ _ F) in Hv. destruct (lookup_lt_is_Some_2 _ _ Hv) as [vp Hvp].
  assert (coros w !! c = Some co) as Hco' by by rewrite HC.
  unfold sched_dispatch.
  rewrite (bind_ok _ _ _ co w) by (unfold get_co; by rewrite HC, Hco).
  rewrite Hpr, Z.eqb_refl, (bind_ok _ _ _ tt w), Nat2Z.id by done.
  set (m1 := set_idle (u16 (idle (mgr w) - 1)) (mgr w)).
  rewrite (bind_ok _ _ _ tt (set_mgr m1 w)) by done.
  set (m2 := set_total_ready (u32 (total_ready (mgr w) + -1)) m1).
  rewrite (bind_ok _ _ _ tt (set_mgr m2 w)) by done.
  assert (ready (mgr (set_mgr m2 w)) !! p = Some (Z.of_nat (length (R p)))) as Hr
    by (cbn; rewrite HM; by apply S).
  rewrite (bind_ok _ _ _ _ _ (upd_ready_ok _ _ (-1) _ Hr)). set (w3 := set_mgr (set_ready _ _) _).
  rewrite (bind_ok _ _ _ vp w3) by (unfold get_vpu; cbn; by rewrite Hvp).
  rewrite (vw_id _ WF _ _ Hvp).
  set (w4 := set_coros (<[c := set_running (Z.of_nat v) co]> (coros w3)) w3).
  rewrite (bind_ok _ _ _ tt w4) by (unfold upd_co; cbn; by rewrite Hco').
  unfold upd_vpu. cbn [vpus w4 w3 set_coros set_mgr]. rewrite Hvp.
  do 3 eexists. split_and!; [reflexivity|exact HR'| |exact Hco|done|cbn; by rewrite HC|].
  2: { rewrite <- (core_threads _ _ HV). by apply (threads_insert w v vp). }
  apply (sched_inv_view w4). { by apply (view_upd_vpu w4 v vp (set_current (Some c))). }
  eapply (sched_inv_remove w0); [done|exact HR|done| | |exact LC| |exact HR'|..].
  - apply (queues_rep_same w); [done|done|by apply (privs_rep_vpus w), QR|done|].
    intros d. cbn. destruct (decide (c = d)) as [<-|]; [|by rewrite lookup_insert_ne].
    rewrite lookup_insert_eq, HC, Hco. naive_solver.
  - apply (frame_nv _ _ F).
  - apply (same_threads_wf w0); [by split|cbn; by rewrite HM|apply S].
  - intros d Hd. cbn. by rewrite lookup_insert_ne, HC.
  - cbn. rewrite HM, u32_small by lia. done.
  - cbn. rewrite HM, Htot, u32_small; lia.
Qed.

(** ** One pass over the priority levels *)

(** What the scheduler needs of [__coroc_netpoll_polling]: it may wake
    coroutines up, and that is all. *)
Definition polling_safe (polling : Z -> ST world bool) : Prop :=
  forall t w R Tr, sched_inv w R Tr -> Z.of_nat (size (coros w)) < 2 ^ 32 ->
  exists b w' R', polling t w = Ok (b, w') /\ sched_inv w' R' Tr /\ (forall p, R p ⊆+ R' p) /\
    length (vpus w') = length (vpus w) /\ dom (coros w') = dom (coros w).

(** The task [c] of level [p] was ready in [w]; in [w'] it runs on [v], and
    nothing else has changed. *)
Definition started (w : world) (v p : nat) (c : coid) (R : nat -> list coid) (Tr : list coid)
    (w' : world) : Prop :=
  exists R' co, (p < NP)%nat /\ R p ≡ₚ c :: R' /\ sched_inv w' (<[p := R']> R) Tr /\
    coros w !! c = Some co /\ priority co = Z.of_nat p /\
    coros w' = <[c := set_running (Z.of_nat v) co]> (coros w) /\
    threads w' = alter (run_on (Some c)) v (threads w).

Lemma dispatch_started w0 w R Tr G P G' P' v p c :
  sched_inv w0 R Tr -> (forall p, (p < NP)%nat -> queued (length (vpus w0)) G P p ≡ₚ R p) ->
  (p < NP)%nat -> (v < length (vpus w0))%nat -> queues_rep w G' P' Tr -> frame w0 w ->
  level_change (length (vpus w0)) G P G' P' p [c] [] -> Z.of_nat (size (coros w0)) < 2 ^ 32 ->
  exists w', bind (sched_dispatch v p c) (fun _ => ret (Some c)) w = Ok (Some c, w') /\
    started w0 v p c R Tr w'.
Proof.
  intros. edestruct sched_dispatch_rep as (w' & R' & co & E & ? & ? & ? & ? & E' & ?); [done..|].
  rewrite (bind_ok _ _ _ _ _ E). exists w'. split; [done|]. exists R', co.
  by split_and!.
Qed.

(** A frame step that keeps every level keeps the invariant. *)
Lemma sched_inv_frame w w' R Tr G P :
  sched_inv w R Tr -> (forall p, (p < NP)%nat -> queued (length (vpus w)) G P p ≡ₚ R p) ->
  queues_rep w' G P Tr -> frame w w' -> sched_inv w' R Tr.
Proof.
  intros S HR QR F. pose proof F as [HC HM HL HS HV]. split.
  - exists G, P. split; [done|]. by rewrite (frame_nv _ _ F).
  - by eapply vpus_wf_frame; [|apply S].
  - intros. rewrite HC. by apply (si_tasks _ _ _ S).
  - rewrite HM. apply S.
  - rewrite HM. apply S.
Qed.

Lemma sched_scan_rep polling ps v : polling_safe polling -> forall w R Tr,
  Forall (fun p => p < NP)%nat ps ->
  sched_inv w R Tr -> (v < length (vpus w))%nat -> Z.of_nat (size (coros w)) < 2 ^ 32 ->
  exists r w' R1, sched_scan polling ps v w = Ok (r, w') /\ (forall p, R p ⊆+ R1 p) /\
    match r with
    | Some c => exists w1 p, started w1 v p c R1 Tr w'
    | None => sched_inv w' R1 Tr
    end.
Proof.
  intros Pol. induction ps as [|p ps IH]; intros w R Tr Hps S Hv Hsz.
  { exists None, w, R. by split_and!. }
  apply Forall_cons in Hps as [Hp Hps]. destruct (si_queues _ _ _ S) as (G & P & QR & HR).
  cbn [sched_scan]. rewrite (bind_ok _ _ _ (mgr w) w) by done.
  rewrite (bind_ok _ _ _ (Z.of_nat (length (R p))) w) by (by rewrite (si_ready _ _ _ S p Hp)).
  destruct (Z.eqb_spec (Z.of_nat (length (R p))) 0); [by apply IH|].
  pose proof (runqget_at _ _ _ _ _ _ QR Hv Hp) as Hget.
  destruct (P (v, p)) as [|c l] eqn:HP.
  2: { destruct Hget as (w1 & E & QR1 & F). rewrite (bind_ok _ _ _ _ _ E).
       rewrite (bind_ok _ _ _ (Some c) w1) by done.
       destruct (dispatch_started w w1 R Tr G P G (<[(v, p) := l]> P) v p c) as (w' & ? & ?);
         [done..|by apply level_change_get|done|].
       exists (Some c), w', R. eauto. }
  rewrite (bind_ok _ _ _ _ _ Hget).
  destruct (Pol 0 w R Tr S Hsz) as (b & w1 & R1 & E1 & S1 & Hsub & Hnv & Hdom).
  destruct (si_queues _ _ _ S1) as (G1 & P1 & QR1 & HR1). rewrite <- Hnv in Hv.
  rewrite <- (size_dom (D := gset _)), <- Hdom, size_dom in Hsz.
  destruct (core_elect_rep _ _ _ _ v p QR1 (si_vpus _ _ _ S1) Hv Hp)
    as (r & w2 & G2 & P2 & E2 & QR2 & F2 & LC2 & HN).
  rewrite (bind_ok _ _ _ r w2) by (by rewrite (bind_ok _ _ _ _ _ E1)). destruct r as [c|].
  - destruct (dispatch_started w1 w2 R1 Tr G1 P1 G2 P2 v p c) as (w' & ? & ?); [done..|].
    exists (Some c), w', R1. eauto.
  - destruct (HN eq_refl) as (_ & _ & -> & ->).
    destruct (IH w2 R1 Tr) as (r & w' & R2 & ? & ? & ?); [done|by eapply sched_inv_frame|..].
    { by rewrite (frame_nv _ _ F2). }
    { by rewrite (fr_coros _ _ F2). }
    exists r, w', R2. split_and!; [done|intros q; etrans; [apply Hsub|auto]|done].
Qed.

(** With a quiet network the pass works on one picture of the queues. *)
Lemma level_empty w R Tr G P v q :
  sched_inv w R Tr -> (forall p, (p < NP)%nat -> queued (length (vpus w)) G P p ≡ₚ R p) ->
  (v < length (vpus w))%nat -> (q < NP)%nat -> length (R q) = 0%nat -> G q = [] /\ P (v, q) = [].
Proof.
  intros S HR Hv Hq E%nil_length_inv. pose proof (HR q Hq) as Hz. rewrite E in Hz.
  apply Permutation_nil_r in Hz. rewrite <- length_zero_iff_nil in Hz.
  pose proof (Permutation_length (queued_split _ G P v q Hv)) as HL. rewrite Hz in HL.
  unfold queued_except in HL. rewrite !length_app in HL.
  split; apply nil_length_inv; lia.
Qed.

Lemma sched_scan_quiet polling v n : (forall w, polling 0 w = Ok (false, w)) ->
  forall k w R Tr G P, (k + n = NP)%nat ->
  sched_inv w R Tr -> (forall p, (p < NP)%nat -> queued (length (vpus w)) G P p ≡ₚ R p) ->
  queues_rep w G P Tr -> (v < length (vpus w))%nat -> Z.of_nat (size (coros w)) < 2 ^ 32 ->
  (forall q, (q < k)%nat -> G q = [] /\ P (v, q) = []) ->
  exists r w', sched_scan polling (seq k n) v w = Ok (r, w') /\
    match r with
    | Some c => exists p, started w v p c R Tr w' /\ forall q, (q < p)%nat -> G q = [] /\ P (v, q) = []
    | None => sched_inv w' R Tr /\ coros w' = coros w /\ threads w' = threads w /\
        forall q, (q < NP)%nat -> G q = [] /\ P (v, q) = []
    end.
Proof.
  intros Quiet. induction n as [|n IH]; intros k w R Tr G P Hk S HR QR Hv Hsz Hlow.
  { exists None, w. split_and!; [done..|]. intros q Hq. apply Hlow. lia. }
  assert (k < NP)%nat as Hp by lia. cbn [sched_scan seq].
  rewrite (bind_ok _ _ _ (mgr w) w) by done.
  rewrite (bind_ok _ _ _ (Z.of_nat (length (R k))) w) by (by rewrite (si_ready _ _ _ S k Hp)).
  assert (forall q, (q < Datatypes.S k)%nat -> (q < k)%nat \/ q = k) as Hq by lia.
  destruct (Z.eqb_spec (Z.of_nat (length (R k))) 0).
  { apply (IH (Datatypes.S k) w R Tr G P); try done; [lia|].
    intros q [?| ->]%Hq; [by apply Hlow|]. eapply level_empty; [done..|lia]. }
  pose proof (runqget_at _ _ _ _ _ _ QR Hv Hp) as Hget.
  destruct (P (v, k)) as [|c l] eqn:HP.
  2: { destruct Hget as (w1 & E & QR1 & F). rewrite (bind_ok _ _ _ _ _ E).
       rewrite (bind_ok _ _ _ (Some c) w1) by done.
       destruct (dispatch_started w w1 R Tr G P G (<[(v, k) := l]> P) v k c) as (w' & ? & ?);
         [done..|by apply level_change_get|done|]. exists (Some c), w'. eauto. }
  rewrite (bind_ok _ _ _ _ _ Hget).
  destruct (core_elect_rep _ _ _ _ v k QR (si_vpus _ _ _ S) Hv Hp)
    as (r & w2 & G2 & P2 & E2 & QR2 & F2 & LC2 & HN).
  rewrite (bind_ok _ _ _ r w2) by (by rewrite (bind_ok _ _ _ _ _ (Quiet w))). destruct r as [c|].
  - destruct (dispatch_started w w2 R Tr G P G2 P2 v k c) as (w' & ? & ?); [done..|].
    exists (Some c), w'. eauto.
  - destruct (HN eq_refl) as (HPk & HGk & -> & ->). unfold started in *.
    rewrite <- (fr_coros _ _ F2), <- (frame_threads _ _ F2).
    apply (IH (Datatypes.S k) w2 R Tr G P); try done; [lia|by eapply sched_inv_frame|..].
    + by rewrite (frame_nv _ _ F2).
    + by rewrite (frame_nv _ _ F2).
    + by rewrite (fr_coros _ _ F2).
    + intros q [?| ->]%Hq; [by apply Hlow|done].
Qed.

(** ** [vpu_ready], [coroc_coroutine_yield] and [vpu_suspend] *)

Lemma view_signals (w : world) s : same_view w (set_signals s w).
Proof. by split. Qed.

Lemma view_mgr (w : world) m :
  ready m = ready (mgr w) -> total_ready m = total_ready (mgr w) -> xt_index m = xt_index (mgr w) ->
  same_view w (set_mgr m w).
Proof. by split. Qed.

(** A coroutine that is in no run queue may change in any way. *)
Lemma sched_inv_other w R Tr c co :
  sched_inv w R Tr -> is_Some (coros w !! c) -> (forall p, (p < NP)%nat -> c ∉ R p) ->
  sched_inv (set_coros (<[c := co]> (coros w)) w) R Tr.
Proof.
  intros S Hc Hn. destruct (si_queues _ _ _ S) as (G & P & QR & HR).
  split; [| | |apply S|apply S].
  - exists G, P. split; [by apply set_co_rep|done].
  - destruct (si_vpus _ _ _ S). by split.
  - intros p d Hp Hd. cbn. rewrite lookup_insert_ne by (intros ->; by eapply Hn).
    by apply (si_tasks _ _ _ S).
Qed.

Lemma running_not_queued w R Tr c co :
  sched_inv w R Tr -> coros w !! c = Some co -> status co <> TSC_COROUTINE_READY ->
  forall p, (p < NP)%nat -> c ∉ R p.
Proof. intros. by eapply sched_inv_queued. Qed.

Lemma vpu_ready_plain me preempt w R Tr c co p :
  me = None \/ preempt = false ->
  sched_inv w R Tr -> coros w !! c = Some co -> status co = TSC_COROUTINE_WAIT ->
  priority co = Z.of_nat p -> (p < NP)%nat -> Z.of_nat (total R) + 1 < 2 ^ 32 ->
  (forall v, me = Some v -> (v < length (vpus w))%nat) ->
  exists w', vpu_ready me c preempt w = Ok (tt, w') /\ sched_inv w' (<[p := c :: R p]> R) Tr /\
    coros w' = <[c := set_status TSC_COROUTINE_READY co]> (coros w) /\ same_threads w w'.
Proof.
  intros Hm S Hc Hs Hpr Hp Ht Hme.
  destruct (ready_enqueue_rep me w R Tr c co p) as (w1 & E & S1 & Hco & [Hl Hv] & _); [done..|].
  destruct (wakeup_ok w1) as [s Ew]. exists (set_signals s w1).
  split_and!; [|by apply (sched_inv_view w1); [apply view_signals|]|done|by split].
  unfold vpu_ready. rewrite (bind_ok _ _ _ _ _ E).
  destruct Hm as [-> | ->]; [done|]. by destruct me.
Qed.

Lemma coroc_coroutine_yield_rep w R Tr v vp c co p :
  sched_inv w R Tr -> vpus w !! v = Some vp -> current vp = Some c ->
  coros w !! c = Some co -> status co = TSC_COROUTINE_RUNNING ->
  priority co = Z.of_nat p -> (p < NP)%nat -> Z.of_nat (total R) + 1 < 2 ^ 32 ->
  exists w', coroc_coroutine_yield v w = Ok (tt, w') /\ sched_inv w' (<[p := c :: R p]> R) Tr /\
    coros w' = <[c := set_status TSC_COROUTINE_READY (set_syscall true co)]> (coros w) /\
    vpus w' = <[v := set_current (scheduler vp) vp]> (vpus w) /\ locks w' = locks w.
Proof.
  intros S Hv Hcur Hc Hs Hpr Hp Ht. unfold coroc_coroutine_yield, vpu_syscall.
  rewrite (bind_ok _ _ _ vp w) by (unfold get_vpu; by rewrite Hv).
  rewrite (bind_ok _ _ _ c w) by (by rewrite Hcur).
  set (w1 := set_coros (<[c := set_syscall true co]> (coros w)) w).
  rewrite (bind_ok _ _ _ tt w1) by (unfold upd_co; by rewrite Hc).
  set (w2 := set_vpus (<[v := set_current (scheduler vp) vp]> (vpus w1)) w1).
  rewrite (bind_ok _ _ _ tt w2) by (unfold upd_vpu; cbn; by rewrite Hv).
  assert (same_view w w2) as V.
  { etrans; [by apply (view_upd_co w c co (set_syscall true))|].
    by apply (view_upd_vpu w1 v vp (set_current (scheduler vp))). }
  destruct (core_yield_rep w2 R Tr c (set_syscall true co) p) as (w' & E & S' & Hco & Hvp & Hl).
  { by eapply sched_inv_view. } { cbn. by rewrite lookup_insert_eq. }
  { cbn. by rewrite Hs. } { done. } { done. } { done. }
  exists w'. split_and!; try done. rewrite Hco. cbn. by rewrite insert_insert_eq.
Qed.

(** [vpu_ready] with [preempt] set, by a VPU that runs [cur]: the task is
    ready afterwards, and when it is more urgent and no VPU sleeps, [cur] is
    put back as well and the VPU is in its scheduler. *)
Lemma vpu_ready_preempt w R Tr v vp cur curco q c co p :
  sched_inv w R Tr -> coros w !! c = Some co -> status co = TSC_COROUTINE_WAIT ->
  priority co = Z.of_nat p -> (p < NP)%nat ->
  vpus w !! v = Some vp -> current vp = Some cur -> coros w !! cur = Some curco ->
  status curco = TSC_COROUTINE_RUNNING -> priority curco = Z.of_nat q -> (q < NP)%nat ->
  Z.of_nat (total R) + 2 < 2 ^ 32 ->
  exists w', vpu_ready (Some v) c true w = Ok (tt, w') /\
    let R1 := <[p := c :: R p]> R in
    if ((p <? q)%nat && (alive (mgr w) =? xt_index (mgr w)))%bool
    then sched_inv w' (<[q := cur :: R1 q]> R1) Tr /\
         coros w' = <[cur := set_status TSC_COROUTINE_READY (set_syscall true curco)]>
                      (<[c := set_status TSC_COROUTINE_READY co]> (coros w)) /\
         threads w' = alter (run_on (scheduler vp)) v (threads w)
    else sched_inv w' R1 Tr /\ coros w' = <[c := set_status TSC_COROUTINE_READY co]> (coros w) /\
         threads w' = threads w.
Proof.
  intros S Hc Hs Hpr Hp Hv Hcur Hcc Hcs Hcp Hq Ht.
  assert (v < length (vpus w))%nat as Hlv by (by eapply lookup_lt_Some).
  destruct (ready_enqueue_rep (Some v) w R Tr c co p)
    as (w1 & E & S1 & Hco & [Hl Hvp] & _ & Ha & Hx); [done..|lia|by intros ? [= <-]|].
  unfold vpu_ready. rewrite (bind_ok _ _ _ _ _ E). cbn [negb].
  pose proof (f_equal (.!! v) Hvp) as E1. cbn in E1. rewrite !list_lookup_fmap, Hv in E1.
  apply fmap_Some in E1 as (vp1 & Hv1 & E1).
  assert (current vp1 = Some cur /\ scheduler vp1 = scheduler vp) as [Hcur1 Hsch1].
  { split; [rewrite <- Hcur|]; symmetry.
    - exact (f_equal current E1).
    - exact (f_equal scheduler E1). }
  assert (c <> cur) as Hne by congruence.
  assert (coros w1 !! cur = Some curco) as Hcc1 by (by rewrite Hco, lookup_insert_ne).
  rewrite (bind_ok _ _ _ vp1 w1) by (unfold get_vpu; by rewrite Hv1).
  rewrite (bind_ok _ _ _ cur w1) by (by rewrite Hcur1).
  rewrite (bind_ok _ _ _ curco w1) by (unfold get_co; by rewrite Hcc1).
  rewrite (bind_ok _ _ _ (mgr w1) w1) by done.
  rewrite Hpr, Hcp, Ha, Hx.
  replace (Z.of_nat p <? Z.of_nat q) with (p <? q)%nat
    by (destruct (Nat.ltb_spec p q), (Z.ltb_spec (Z.of_nat p) (Z.of_nat q)); lia || done).
  destruct ((p <? q)%nat && _)%bool.
  - pose proof (total_insert R p (c :: R p) Hp). cbn [length] in *.
    destruct (coroc_coroutine_yield_rep w1 (<[p := c :: R p]> R) Tr v vp1 cur curco q)
      as (w' & E2 & S2 & Hco2 & Hv2 & _); [done..|lia|].
    exists w'. split_and!; [done|done|by rewrite Hco2, Hco|].
    rewrite <- (core_threads _ _ Hvp). unfold threads at 1. rewrite Hv2.
    apply (threads_insert w1 v vp1); [done|]. cbn. by rewrite Hsch1.
  - destruct (wakeup_ok w1) as [s Ew]. exists (set_signals s w1).
    split_and!; [done|by apply (sched_inv_view w1); [apply view_signals|]|done|].
    by apply core_threads.
Qed.

Lemma release_all_ok ls : forall w : world, NoDup ls -> (forall l, l ∈ ls -> locks w !! l = Some true) ->
  exists L, release_all ls w = Ok (tt, set_locks L w) /\
    (forall l, l ∈ ls -> L !! l = Some false) /\ (forall l, l ∉ ls -> L !! l = locks w !! l).
Proof.
  induction ls as [|l ls IH]; intros w ND Hh.
  { exists (locks w). split_and!; [by destruct w|set_solver|done]. }
  apply NoDup_cons in ND as [Hl ND]. cbn [release_all].
  set (w1 := set_locks (<[l := false]> (locks w)) w).
  rewrite (bind_ok _ _ _ tt w1) by (unfold lock_release; rewrite Hh; [done|by left]).
  destruct (IH w1 ND) as (L & E & H1 & H2).
  { intros k Hk. cbn. rewrite lookup_insert_ne by (intros ->; done). apply Hh. by right. }
  exists L. split_and!; [done| |].
  - intros k [->|Hk]%elem_of_cons; [|by apply H1]. rewrite H2 by done. cbn. by rewrite lookup_insert_eq.
  - intros k Hk. rewrite H2 by set_solver. cbn. rewrite lookup_insert_ne; [done|set_solver].
Qed.

Lemma run_unlock_ok h ls (w : world) : NoDup ls -> (forall l, l ∈ ls -> locks w !! l = Some true) ->
  exists L, run_unlock (h, ls) w = Ok (tt, set_locks L w) /\
    (forall l, l ∈ ls -> L !! l = Some false) /\ (forall l, l ∉ ls -> L !! l = locks w !! l).
Proof.
  intros ND Hh. assert (reverse ls ≡ₚ ls) as Hr by apply reverse_Permutation.
  destruct h; cbn [run_unlock]; [by apply release_all_ok| |by apply release_all_ok].
  destruct (release_all_ok (reverse ls) w) as (L & E & H1 & H2);
    [by rewrite Hr|intros l; rewrite Hr; apply Hh|].
  exists L. split_and!; [done|..]; intros l Hl; [apply H1|apply H2]; by rewrite Hr.
Qed.

(** The blocked coroutine is in state WAIT and in no run queue, the locks it
    passed are free, and the VPU is in its scheduler and holds nothing. *)
Lemma vpu_suspend_rep w R Tr v vp c co ls h :
  sched_inv w R Tr -> vpus w !! v = Some vp -> current vp = Some c ->
  coros w !! c = Some co -> status co = TSC_COROUTINE_RUNNING ->
  NoDup ls -> (forall l, l ∈ ls -> locks w !! l = Some true) ->
  exists w', vpu_suspend v ls h w = Ok (tt, w') /\ sched_inv w' R Tr /\
    coros w' = <[c := set_status TSC_COROUTINE_WAIT (set_syscall true co)]> (coros w) /\
    vpus w' = <[v := set_hold None (set_current (scheduler vp) vp)]> (vpus w) /\
    (forall l, l ∈ ls -> locks w' !! l = Some false) /\
    (forall l, l ∉ ls -> locks w' !! l = locks w !! l) /\
    total_iowait (mgr w') = (if async_wait co =? 0 then total_iowait (mgr w)
                             else u32 (total_iowait (mgr w) + 1)).
Proof.
  intros S Hv Hcur Hc Hs ND Hh. pose proof (lookup_lt_Some _ _ _ Hv) as Hlv.
  unfold vpu_suspend. set (vp1 := set_hold (Some (h, ls)) vp).
  rewrite (bind_ok _ _ _ tt (set_vpus (<[v := vp1]> (vpus w)) w)) by (unfold upd_vpu; by rewrite Hv).
  unfold vpu_syscall.
  rewrite (bind_ok _ _ _ vp1 _) by (unfold get_vpu; cbn; by rewrite list_lookup_insert_eq).
  rewrite (bind_ok _ _ _ c _) by (cbn; by rewrite Hcur).
  unfold upd_co at 1. rewrite (bind_ok _ _ _ tt _) by (cbn; by rewrite Hc).
  rewrite (bind_ok _ _ _ tt _) by (unfold upd_vpu; cbn; by rewrite list_lookup_insert_eq).
  set (vp2 := set_current (scheduler vp) vp1). unfold core_wait.
  set (co2 := set_status TSC_COROUTINE_WAIT (set_syscall true co)).
  set (w2 := set_coros (<[c := co2]> (coros w)) (set_vpus (<[v := vp2]> (vpus w)) w)).
  rewrite (bind_ok _ _ _ tt w2).
  2: { unfold upd_co. cbn. rewrite lookup_insert_eq, insert_insert_eq. unfold w2. cbn.
       by rewrite list_insert_insert_eq. }
  rewrite (bind_ok _ _ _ co2 w2) by (unfold get_co; cbn; by rewrite lookup_insert_eq).
  set (n := if async_wait co =? 0 then total_iowait (mgr w) else u32 (total_iowait (mgr w) + 1)).
  set (w3 := set_mgr (set_total_iowait n (mgr w)) w2).
  rewrite (bind_ok _ _ _ tt w3).
  2: { unfold w3, n. cbn [async_wait co2 set_status set_syscall]. destruct (async_wait co =? 0).
       - unfold ret, w2. by destruct w as [? ? ? [] ? ?].
       - done. }
  rewrite (bind_ok _ _ _ vp2 w3) by (unfold get_vpu; cbn; by rewrite list_lookup_insert_eq).
  cbn [hold vp2 vp1 set_current set_hold].
  destruct (run_unlock_ok h ls w3 ND Hh) as (L & E & HL1 & HL2).
  rewrite (bind_ok _ _ _ _ _ E). unfold upd_vpu. cbn [vpus w3 w2 set_mgr set_locks set_coros set_vpus].
  rewrite list_lookup_insert_eq by done.
  eexists. split; [reflexivity|]. split_and!; [|done| |done|done|done].
  - apply (sched_inv_view (set_coros (<[c := co2]> (coros w)) w)).
    + split; try done. cbn. rewrite list_insert_insert_eq, list_fmap_insert.
      apply list_insert_id. by rewrite list_lookup_fmap, Hv.
    + apply sched_inv_other; [done|by rewrite Hc|]. eapply running_not_queued; [done..|by rewrite Hs].
  - cbn. by rewrite list_insert_insert_eq.
Qed.

(** ** The theorem on a pass with network events *)

(** A pass during which the network poller wakes coroutines up: whatever
    it wakes (it keeps the invariant and only adds ready tasks), the pass does
    not fault, loses no ready task, and starts at most one, which was ready. *)
Theorem pass_with_network polling v w R Tr :
  polling_safe polling -> sched_inv w R Tr -> (v < length (vpus w))%nat ->
  Z.of_nat (size (coros w)) < 2 ^ 32 ->
  exists r w' R1, sched_scan polling prio_levels v w = Ok (r, w') /\ (forall p, R p ⊆+ R1 p) /\
    match r with
    | Some c => exists w1 p, started w1 v p c R1 Tr w'
    | None => sched_inv w' R1 Tr
    end.
Proof.
  intros Pol S Hv Hsz. apply sched_scan_rep; [done| |done..].
  apply Forall_forall. intros p Hp. apply elem_of_seq in Hp. unfold TSC_PRIO_NUM in Hp. lia.
Qed.
