(* ===== verification/Coroutine.v ===== *)
(** * Coroutines: creation, exit and the start of the VPUs
      (src/coroutine.c, the [coroc_vpu_initialize] part of src/vpu.c)

    A coroutine is named by the address [c] that [TSC_ALLOC] returned for it,
    an argument of the operations that allocate.  The internal channel of a
    coroutine is part of Message.v; its stack and machine context are not
    modelled beyond [stack_size].

    [co_inv]: the scheduler invariant, and the list [coroutine_list] holds
    exactly the coroutines that run user code and have not exited. *)

From stdpp Require Import functions.
From S2P Require Import Prelude Queue RunQueue Scheduler SchedInv SchedProps.

Definition TSC_DEFAULT_STACK_SIZE : Z := 1024 * 1024.
Definition TSC_PRIO_HIGHEST : Z := 0.
Definition TSC_PRIO_HIGH : Z := 1.
Definition TSC_PRIO_NORMAL : Z := 2.
Definition TSC_PRIO_LOW : Z := 3.

Definition is_idle (t : coroutine_type) : bool :=
  bool_decide (t = TSC_COROUTINE_IDLE).

(** The fields [coroc_coroutine_allocate] gives a new coroutine; what it does
    not mention is zero from [memset]. *)
Definition new_coroutine (tid : Z) (type : coroutine_type) (prio xt_index : Z) : coroutine :=
  mk_co tid type 0 (u8 xt_index) 0 TSC_COROUTINE_WAIT
    (if is_idle type then TSC_PRIO_NUM else if prio <? TSC_PRIO_NUM then prio else TSC_PRIO_LOW)
    false false 0
    (if is_idle type then 0 else TSC_DEFAULT_STACK_SIZE).

(** [TSC_ALLOC_TID] *)
Definition TSC_ALLOC_TID : ST world Z :=
  do! upd_mgr (fun m => set_last_pid (u32 (last_pid m + 1)) m) in
  let! m := get_mgr in
  ret (last_pid m).

Definition coroc_coroutine_allocate (me : option nat) (c : coid) (type : coroutine_type)
    (prio : Z) : ST world coid :=
  do! assert_ (prio <? TSC_PRIO_NUM) in
  let! tid := TSC_ALLOC_TID in
  let! m := get_mgr in
  do! modify (fun w => set_coros (<[c := new_coroutine tid type prio (xt_index m)]> (coros w)) w) in
  do! on_links (queue_item_init (c, status_link) (Some c)) in
  do! on_links (queue_item_init (c, trace_link) (Some c)) in
  if is_idle type then ret c else
  do! on_links (atomic_queue_add None (c, trace_link)) in
  do! (if bool_decide (type = TSC_COROUTINE_MAIN)
       then upd_mgr (set_main (Some c)) else ret tt) in
  do! vpu_ready me c true in
  ret c.

Definition coroc_coroutine_deallocate (c : coid) : ST world unit :=
  let! co := get_co c in
  do! assert_ (bool_decide (status co = TSC_COROUTINE_RUNNING)) in
  do! upd_co c (set_status TSC_COROUTINE_EXIT) in
  on_links (atomic_queue_extract None (c, trace_link)).

(** What became of the process: [core_exit] of the main coroutine ends it. *)
Inductive process : Type := process_runs | process_exit (code : Z).

Definition core_exit (garbage : coid) : ST world process :=
  let! co := get_co garbage in
  if bool_decide (ctype co = TSC_COROUTINE_MAIN) then ret (process_exit 0) else
  do! coroc_coroutine_deallocate garbage in
  ret process_runs.

(** [cleanup]: the handler the coroutine was created with, if any (a group's
    [coroc_group_notify]). *)
Definition coroc_coroutine_exit (v : nat) (cleanup : option (Z -> ST world unit)) (value : Z)
  : ST world process :=
  let! vp := get_vpu v in
  let! self := demand AssertFail (current vp) in
  let! co := get_co self in
  do! assert_ (bool_decide (status co = TSC_COROUTINE_RUNNING)) in
  do! (match cleanup with Some f => f value | None => ret tt end) in
  let! vp := get_vpu v in
  let! self := demand AssertFail (current vp) in
  do! upd_co self (set_syscall true) in
  do! upd_vpu v (set_current (scheduler vp)) in
  core_exit self.

Definition coroc_coroutine_self (me : option nat) : ST world (option coid) :=
  match me with
  | Some v => let! vp := get_vpu v in ret (current vp)
  | None => ret None
  end.

Definition set_priority (v : Z) (c : coroutine) :=
  mk_co (id c) (ctype c) (vpu_id c) (vpu_affinity c) (async_wait c) (status c) v
        (syscall c) (backtrace c) (sigmask_nest c) (stack_size c).

Definition coroc_coroutine_set_priority (me : option nat) (priority : Z) : ST world unit :=
  do! assert_ (priority <? TSC_PRIO_NUM) in
  let! self := coroc_coroutine_self me in
  let! self := demand NullDeref self in
  upd_co self (set_priority priority).

(** ** Start-up *)

(** [per_vpu_initalize] up to the first [core_sched]; [s] is the address of
    the scheduler coroutine.  [hold] keeps what the allocation left there:
    only [vpu_suspend] sets it before it is read. *)
Definition init_queues (v : nat) : ST world unit :=
  do! on_pq v 0 (__priv_task_queue_init 0) in
  do! on_pq v 1 (__priv_task_queue_init 1) in
  do! on_pq v 2 (__priv_task_queue_init 2) in
  on_pq v 3 (__priv_task_queue_init 3).

Definition set_boot (id : Z) (p : vpu) : vpu :=
  mk_vpu id 0 0 (rand_seed p) (current p) (scheduler p) (xt p) (hold p).
Definition set_scheduler (s : coid) (p : vpu) : vpu :=
  mk_vpu (vid p) (watchdog p) (ticks p) (rand_seed p) (Some s) (Some s) (xt p) (hold p).

Definition per_vpu_initalize (v : nat) (s : coid) : ST world unit :=
  do! upd_vpu v (set_boot (i32 (Z.of_nat v))) in
  do! __mysrand v (u32 (Z.of_nat v + 1)) in
  do! init_queues v in
  do! coroc_coroutine_allocate (Some v) s TSC_COROUTINE_IDLE 0 in
  upd_vpu v (set_scheduler s).

(** The threads of the VPUs start together; each touches its own VPU, so the
    model runs them one after the other. *)
Fixpoint start_vpus (v : nat) (scheds : list coid) : ST world unit :=
  match scheds with
  | [] => ret tt
  | s :: ss => do! per_vpu_initalize v s in start_vpus (S v) ss
  end.

(** [coroc_vpu_initialize]: [raw] is the block [TSC_ALLOC] returned for the
    VPUs, [init] and [scheds] the addresses of the first coroutines. *)
Definition manager_init (np : Z) : ST world unit :=
  do! upd_mgr (fun m => mk_mgr (ready m) (u32 np) 0 (main m) (alive m) (idle m)
                          (total_ready m) (total_iowait m)) in
  do! on_links (atomic_queue_init (Some 0%nat)) in
  do! on_links (atomic_queue_init (Some 1%nat)) in
  do! on_links (atomic_queue_init (Some 2%nat)) in
  do! on_links (atomic_queue_init (Some 3%nat)) in
  do! upd_mgr (set_ready [0; 0; 0; 0; 0]) in
  do! on_links (atomic_queue_init None) in
  upd_mgr (fun m => mk_mgr (ready m) (xt_index m) (last_pid m) (main m) (u16 np) 0 0
                      (total_iowait m)).

Definition coroc_vpu_initialize (np : Z) (raw : list vpu) (init : coid) (scheds : list coid)
  : ST world unit :=
  do! modify (set_vpus raw) in
  do! manager_init np in
  do! coroc_coroutine_allocate None init TSC_COROUTINE_MAIN TSC_PRIO_LOW in
  start_vpus 0 scheds.

(** The state of the process before [main]: static storage is zero. *)
Definition zero_world : world :=
  mk_world ∅ (mk_qstore ∅ ∅) [] (mk_mgr [0;0;0;0;0] 0 0 None 0 0 0 0) ∅ 0.

(** ** The list of coroutines *)

Definition listed (w : world) (c : coid) : Prop :=
  exists co, coros w !! c = Some co /\ ctype co <> TSC_COROUTINE_IDLE /\
             status co <> TSC_COROUTINE_EXIT.

Record co_inv (w : world) (R : nat -> list coid) (Tr : list coid) : Prop := {
  ci_sched : sched_inv w R Tr;
  ci_list : forall c, c ∈ Tr <-> listed w c
}.

(** Two links of a coroutine no queue knows. *)
Lemma lrep_fresh st G Tr c own :
  lrep st G Tr -> (forall p, (p < NP)%nat -> c ∉ G p) -> c ∉ Tr ->
  lrep (mk_qstore (<[tlink c := mk_item None None None own]>
                     (<[slink c := mk_item None None None own]> (items st))) (queues st)) G Tr.
Proof.
  intros [Hg Ht Hd] Hc HcT.
  split; [| |done].
  - intros p Hp. apply (fwd_rep_frame st); [by apply Hg|done|].
    intros x (d & -> & Hd')%list_elem_of_fmap. cbn. rewrite !lookup_insert_ne; [done|..].
    + intros ->%(inj slink). by eapply Hc.
    + done.
  - apply (dll_rep_frame st); [done|done|].
    intros x it (d & -> & Hd')%list_elem_of_fmap Hit _. exists it. cbn.
    rewrite !lookup_insert_ne; [done|done|]. intros ->%(inj tlink). done.
Qed.

Lemma sched_inv_fresh w R Tr c co :
  sched_inv w R Tr -> coros w !! c = None -> c ∉ Tr ->
  sched_inv (set_links (mk_qstore (<[tlink c := mk_item None None None (Some c)]>
        (<[slink c := mk_item None None None (Some c)]> (items (links w)))) (queues (links w)))
      (set_coros (<[c := co]> (coros w)) w)) R Tr.
Proof.
  intros S Hc HT. destruct (si_queues _ _ _ S) as (G & P & QR & HR).
  pose proof QR as [Hl Hpr Ho Hnd Hd Hk].
  assert (forall p, (p < NP)%nat -> c ∉ queued (length (vpus w)) G P p) as Hq
    by (intros p Hp Hin; destruct (Hk p c Hp Hin); congruence).
  split; [| | |apply S|apply S].
  - exists G, P. split; [|done]. split; cbn; [| |intros d Hs|done|done|].
    + apply lrep_fresh; [done| |done]. intros p Hp ?. by eapply Hq, elem_queued_glob.
    + by apply (privs_rep_vpus w).
    + destruct (decide (d = c)) as [->|Hne].
      * rewrite lookup_insert_ne, lookup_insert_eq by done. eauto.
      * rewrite lookup_insert_ne in Hs by done.
        rewrite lookup_insert_ne, lookup_insert_ne; [by apply Ho|by intros ?%(inj slink)|done].
    + intros p d Hp Hin. rewrite lookup_insert_ne; [by eapply Hk|].
      intros ->. by eapply Hq.
  - destruct (si_vpus _ _ _ S). by split.
  - intros p d Hp Hin. destruct (si_tasks _ _ _ S p d Hp Hin) as (x & Hx & ?).
    exists x. cbn. rewrite lookup_insert_ne; [done|congruence].
Qed.

(** Changing the trace list only. *)
Lemma sched_inv_trace w R Tr Tr' st' :
  sched_inv w R Tr -> same_owners (links w) st' -> dll_rep st' None false (tlink <$> Tr') ->
  (forall q, q <> None -> queues st' !! q = queues (links w) !! q) ->
  (forall c, items st' !! slink c = items (links w) !! slink c) ->
  sched_inv (set_links st' w) R Tr'.
Proof.
  intros S Hso D Hq Hx. destruct (si_queues _ _ _ S) as (G & P & QR & HR).
  pose proof QR as [[Hg Ht Hd0] Hpr Ho Hnd Hd Hk].
  split; [| |apply S|apply S|apply S].
  - exists G, P. split; [|done]. split; [|by apply (privs_rep_vpus w)| |done..].
    + split; [|done|done]. intros p Hp. apply (fwd_rep_frame (links w)); [by apply Hg|by apply Hq|].
      intros x (c & -> & _)%list_elem_of_fmap. apply Hx.
    + intros c Hc. cbn. rewrite Hx. by apply Ho.
  - destruct (si_vpus _ _ _ S). by split.
Qed.

Lemma trace_add w R Tr c it :
  sched_inv w R Tr -> items (links w) !! tlink c = Some it -> prev it = None -> c ∉ Tr ->
  Z.of_nat (length Tr) + 1 < 2 ^ 32 ->
  exists st', atomic_queue_add None (tlink c) (links w) = Ok (tt, st') /\
    sched_inv (set_links st' w) R (Tr ++ [c]).
Proof.
  intros S Hit Hp Hc Hlen. destruct (si_queues _ _ _ S) as (G & P & QR & HR).
  destruct (atomic_queue_add_dll (links w) None (tlink <$> Tr) (tlink c) it)
    as (st' & E & D & Hso & Hq & Hx); [apply QR|done| |done|by rewrite length_fmap|].
  { by intros (d & ->%(inj tlink) & ?)%list_elem_of_fmap. }
  exists st'. split; [done|]. apply (sched_inv_trace w R Tr); [done|done| |done|].
  - by rewrite fmap_app.
  - intros d. apply Hx. intros [(e & ? & _)%list_elem_of_fmap|?%list_elem_of_singleton]%elem_of_app; done.
Qed.

Lemma trace_extract w R l1 c l2 :
  sched_inv w R (l1 ++ c :: l2) ->
  exists st', atomic_queue_extract None (tlink c) (links w) = Ok (tt, st') /\
    sched_inv (set_links st' w) R (l1 ++ l2).
Proof.
  intros S. destruct (si_queues _ _ _ S) as (G & P & QR & HR).
  pose proof (lr_trace _ _ _ (qr_links _ _ _ _ QR)) as D. rewrite fmap_app, fmap_cons in D.
  destruct (atomic_queue_extract_dll _ _ _ _ _ D) as (st' & E & D' & Hso & Hq & Hx).
  exists st'. split; [done|]. apply (sched_inv_trace w R (l1 ++ c :: l2)); [done|done| |done|].
  - by rewrite fmap_app.
  - intros d. apply Hx. rewrite <- fmap_cons, <- fmap_app.
    by intros (e & ? & _)%list_elem_of_fmap.
Qed.

(** ** Allocation keeps the invariant *)

(** The state after the fields and the links of the new coroutine are set. *)
Definition alloc_state (c : coid) (co : coroutine) (w : world) : world :=
  set_links (mk_qstore (<[tlink c := mk_item None None None (Some c)]>
        (<[slink c := mk_item None None None (Some c)]> (items (links w)))) (queues (links w)))
    (set_coros (<[c := co]> (coros w))
       (set_mgr (set_last_pid (u32 (last_pid (mgr w) + 1)) (mgr w)) w)).

Definition next_coroutine (w : world) (type : coroutine_type) (prio : Z) : coroutine :=
  new_coroutine (u32 (last_pid (mgr w) + 1)) type prio (xt_index (mgr w)).

Lemma allocate_prefix me c type prio w :
  prio < TSC_PRIO_NUM ->
  coroc_coroutine_allocate me c type prio w =
  (if is_idle type then ret c else
   do! on_links (atomic_queue_add None (c, trace_link)) in
   do! (if bool_decide (type = TSC_COROUTINE_MAIN)
        then upd_mgr (set_main (Some c)) else ret tt) in
   do! vpu_ready me c true in
   ret c) (alloc_state c (next_coroutine w type prio) w).
Proof.
  intros Hp. unfold coroc_coroutine_allocate.
  assert ((prio <? TSC_PRIO_NUM) = true) as -> by (by apply Z.ltb_lt). done.
Qed.

Lemma alloc_state_sched w R Tr c co :
  sched_inv w R Tr -> coros w !! c = None -> c ∉ Tr -> sched_inv (alloc_state c co w) R Tr.
Proof.
  intros S Hc HT. unfold alloc_state.
  apply (sched_inv_fresh (set_mgr (set_last_pid (u32 (last_pid (mgr w) + 1)) (mgr w)) w)); [|done..].
  by apply (sched_inv_view w); [apply view_mgr|].
Qed.

Lemma co_inv_fresh w R Tr c : co_inv w R Tr -> coros w !! c = None -> c ∉ Tr.
Proof. intros [_ L] Hc (co & ? & _)%L. congruence. Qed.

Lemma trace_bound w R Tr : co_inv w R Tr -> (length Tr <= size (coros w))%nat.
Proof.
  intros [S L]. destruct (si_queues _ _ _ S) as (G & P & QR & _).
  pose proof (fwd_nodup _ _ _ _ (dll_fwd _ _ _ _ (lr_trace _ _ _ (qr_links _ _ _ _ QR)))) as ND.
  apply NoDup_fmap_1 in ND.
  rewrite <- (size_dom (D := gset _)), <- (size_list_to_set (C := gset coid) Tr ND).
  apply subseteq_size. intros c (co & ? & _)%elem_of_list_to_set%L. by apply elem_of_dom; exists co.
Qed.

(** Listing follows from the types and states alone. *)
Lemma listed_insert w w' c co :
  coros w' = <[c := co]> (coros w) ->
  ctype co <> TSC_COROUTINE_IDLE -> status co <> TSC_COROUTINE_EXIT ->
  forall d, listed w' d <-> listed w d \/ d = c.
Proof.
  intros E Ht Hs d. unfold listed. rewrite E. destruct (decide (d = c)) as [->|Hne].
  - rewrite lookup_insert_eq. split; [by right|]. intros _. by exists co.
  - rewrite lookup_insert_ne by done. naive_solver.
Qed.

Lemma listed_update w w' c co co' :
  coros w' = <[c := co']> (coros w) -> coros w !! c = Some co ->
  (ctype co' <> TSC_COROUTINE_IDLE /\ status co' <> TSC_COROUTINE_EXIT <->
   ctype co <> TSC_COROUTINE_IDLE /\ status co <> TSC_COROUTINE_EXIT) ->
  forall d, listed w' d <-> listed w d.
Proof.
  intros E Hc Hi d. unfold listed. rewrite E. destruct (decide (d = c)) as [->|Hne].
  - rewrite lookup_insert_eq, Hc. naive_solver.
  - by rewrite lookup_insert_ne.
Qed.

Lemma new_priority (w : world) type prio p :
  is_idle type = false -> prio = Z.of_nat p -> (p < NP)%nat ->
  priority (next_coroutine w type prio) = Z.of_nat p.
Proof.
  intros Ht -> Hp. cbn. rewrite Ht.
  destruct (Z.ltb_spec (Z.of_nat p) TSC_PRIO_NUM); [done|]. unfold TSC_PRIO_NUM in *. lia.
Qed.

(** Everything before [vpu_ready]. *)
Lemma allocate_listed me w R Tr c type prio p :
  co_inv w R Tr -> coros w !! c = None -> is_idle type = false ->
  prio = Z.of_nat p -> (p < NP)%nat -> Z.of_nat (size (coros w)) + 1 < 2 ^ 32 ->
  exists w1, coroc_coroutine_allocate me c type prio w = (do! vpu_ready me c true in ret c) w1 /\
    sched_inv w1 R (Tr ++ [c]) /\
    coros w1 = <[c := next_coroutine w type prio]> (coros w) /\ vpus w1 = vpus w /\
    alive (mgr w1) = alive (mgr w) /\ xt_index (mgr w1) = xt_index (mgr w) /\ locks w1 = locks w.
Proof.
  intros I Hc Ht Hp Hp4 Hsz. rewrite allocate_prefix by (unfold TSC_PRIO_NUM; lia). rewrite Ht.
  set (co := next_coroutine w type prio).
  pose proof (co_inv_fresh _ _ _ _ I Hc) as HcT. pose proof (trace_bound _ _ _ I).
  pose proof (alloc_state_sched w R Tr c co (ci_sched _ _ _ I) Hc HcT) as S1.
  destruct (trace_add (alloc_state c co w) R Tr c (mk_item None None None (Some c)))
    as (st' & E & S2); [done|cbn; by rewrite lookup_insert_eq|done|done|lia|].
  rewrite (bind_ok _ _ _ _ _ (on_links_ok _ _ _ _ E)).
  set (w2 := set_links st' _). fold w2 in S2. case_bool_decide as Hm.
  - exists (set_mgr (set_main (Some c) (mgr w2)) w2). split_and!; try done.
    apply (sched_inv_view w2); [by apply view_mgr|done].
  - by exists w2.
Qed.

Lemma allocate_thread w R Tr c type prio p :
  co_inv w R Tr -> coros w !! c = None -> is_idle type = false ->
  prio = Z.of_nat p -> (p < NP)%nat -> Z.of_nat (size (coros w)) + 1 < 2 ^ 32 ->
  exists w', coroc_coroutine_allocate None c type prio w = Ok (c, w') /\
    co_inv w' (<[p := c :: R p]> R) (Tr ++ [c]) /\
    coros w' = <[c := set_status TSC_COROUTINE_READY (next_coroutine w type prio)]> (coros w) /\
    same_threads w w'.
Proof.
  intros I Hc Ht Hp Hp4 Hsz. set (co := next_coroutine w type prio).
  destruct (allocate_listed None w R Tr c type prio p) as (w1 & E & S1 & Hco & Hv & _ & _ & Hlk); [done..|].
  pose proof (sched_inv_size _ _ _ (ci_sched _ _ _ I)).
  destruct (vpu_ready_plain None true w1 R (Tr ++ [c]) c co p) as (w' & E' & S' & Hco' & Hth);
    [by left|done|by rewrite Hco, lookup_insert_eq|done|by apply new_priority|done|lia|done|].
  exists w'. rewrite E, (bind_ok _ _ _ _ _ E'). rewrite Hco, insert_insert_eq in Hco'.
  split_and!; [done| |done|].
  - split; [done|]. intros d. rewrite elem_of_app, list_elem_of_singleton, (ci_list _ _ _ I d).
    symmetry. apply (listed_insert w w' c _ Hco'); [|done]. intros E1. cbn in E1. by subst.
  - destruct Hth as [Hl1 Hv1]. split; [by rewrite Hl1|by rewrite Hv1, Hv].
Qed.

Lemma allocate_vpu w R Tr v vp cur curco q c type prio p :
  co_inv w R Tr -> coros w !! c = None -> is_idle type = false ->
  prio = Z.of_nat p -> (p < NP)%nat -> Z.of_nat (size (coros w)) + 2 < 2 ^ 32 ->
  vpus w !! v = Some vp -> current vp = Some cur -> coros w !! cur = Some curco ->
  status curco = TSC_COROUTINE_RUNNING -> priority curco = Z.of_nat q -> (q < NP)%nat ->
  exists w', coroc_coroutine_allocate (Some v) c type prio w = Ok (c, w') /\
    let R1 := <[p := c :: R p]> R in
    if ((p <? q)%nat && (alive (mgr w) =? xt_index (mgr w)))%bool
    then co_inv w' (<[q := cur :: R1 q]> R1) (Tr ++ [c]) /\
         coros w' = <[cur := set_status TSC_COROUTINE_READY (set_syscall true curco)]>
           (<[c := set_status TSC_COROUTINE_READY (next_coroutine w type prio)]> (coros w)) /\
         threads w' = alter (run_on (scheduler vp)) v (threads w)
    else co_inv w' R1 (Tr ++ [c]) /\
         coros w' = <[c := set_status TSC_COROUTINE_READY (next_coroutine w type prio)]> (coros w) /\
         threads w' = threads w.
Proof.
  intros I Hc Ht Hp Hp4 Hsz Hv Hcur Hcc Hcs Hcq Hq4. set (co := next_coroutine w type prio).
  destruct (allocate_listed (Some v) w R Tr c type prio p)
    as (w1 & E & S1 & Hco & Hv1 & Ha & Hx & _); [done..|lia|].
  pose proof (sched_inv_size _ _ _ (ci_sched _ _ _ I)).
  assert (cur <> c) as Hne by congruence.
  destruct (vpu_ready_preempt w1 R (Tr ++ [c]) v vp cur curco q c co p) as (w' & E' & S');
    [done|by rewrite Hco, lookup_insert_eq|done|by apply new_priority|done|by rewrite Hv1|done|
     by rewrite Hco, lookup_insert_ne|done|done|done|lia|].
  exists w'. rewrite E, (bind_ok _ _ _ _ _ E'). split; [done|]. rewrite Ha, Hx in S'.
  assert (threads w1 = threads w) as Hth by (unfold threads; by rewrite Hv1). rewrite Hth in S'.
  assert (ctype co <> TSC_COROUTINE_IDLE) as Hty by (intros E1; cbn in E1; by subst).
  assert (forall d, d ∈ Tr ++ [c] <-> listed w d \/ d = c) as HT.
  { intros d. by rewrite elem_of_app, list_elem_of_singleton, (ci_list _ _ _ I d). }
  set (wm := set_coros (<[c := set_status TSC_COROUTINE_READY co]> (coros w)) w).
  assert (forall d, listed wm d <-> listed w d \/ d = c) as HL
    by (intros d; by eapply (listed_insert w wm c)).
  destruct ((p <? q)%nat && _)%bool.
  - destruct S' as (S' & Hco' & Hc'). rewrite Hco, insert_insert_eq in Hco'.
    split; [|done]. split; [done|]. intros d. rewrite HT, <- HL. symmetry.
    eapply (listed_update wm w' cur curco); [done|cbn; by rewrite lookup_insert_ne|].
    cbn. rewrite Hcs. naive_solver.
  - destruct S' as (S' & Hco' & Hc'). rewrite Hco, insert_insert_eq in Hco'.
    split; [|done]. split; [done|]. intros d. rewrite HT, <- HL. unfold listed. by rewrite Hco'.
Qed.

(** ** Exit *)

Lemma deallocate_inv w R Tr c co :
  co_inv w R Tr -> coros w !! c = Some co -> ctype co <> TSC_COROUTINE_IDLE ->
  status co = TSC_COROUTINE_RUNNING ->
  exists w' Tr', coroc_coroutine_deallocate c w = Ok (tt, w') /\ Tr ≡ₚ c :: Tr' /\ co_inv w' R Tr' /\
    coros w' = <[c := set_status TSC_COROUTINE_EXIT co]> (coros w) /\ vpus w' = vpus w.
Proof.
  intros I Hc Ht Hs. assert (c ∈ Tr) as Hin by (apply (ci_list _ _ _ I); exists co; by rewrite Hs).
  apply list_elem_of_split in Hin as (l1 & l2 & ->).
  unfold coroc_coroutine_deallocate.
  rewrite (bind_ok _ _ _ co w) by (unfold get_co; by rewrite Hc).
  rewrite bool_decide_eq_true_2, (bind_ok _ _ w tt w) by done.
  set (w1 := set_coros (<[c := set_status TSC_COROUTINE_EXIT co]> (coros w)) w).
  rewrite (bind_ok _ _ _ tt w1) by (unfold upd_co; by rewrite Hc).
  assert (sched_inv w1 R (l1 ++ c :: l2)) as S1.
  { apply sched_inv_other; [apply I|by rewrite Hc|].
    eapply running_not_queued; [apply I|done|by rewrite Hs]. }
  destruct (trace_extract _ _ _ _ _ S1) as (st' & E & S2).
  exists (set_links st' w1), (l1 ++ l2).
  split_and!; [exact (on_links_ok _ _ _ _ E)|solve_Permutation| |done|done].
  split; [done|]. intros d.
  destruct (si_queues _ _ _ S1) as (G & P & QR & _).
  pose proof (fwd_nodup _ _ _ _ (dll_fwd _ _ _ _ (lr_trace _ _ _ (qr_links _ _ _ _ QR)))) as ND.
  apply NoDup_fmap_1, NoDup_app in ND as (_ & Hd & [Hc2 _]%NoDup_cons).
  assert (c ∉ l1 ++ l2) as Hcn by set_solver.
  destruct (decide (d = c)) as [->|Hne].
  - split; [done|]. intros (x & Hx & _ & Hxs). cbn in Hx. rewrite lookup_insert_eq in Hx. by simplify_eq.
  - unfold listed. cbn. rewrite lookup_insert_ne by done.
    rewrite <- (ci_list _ _ _ I d). set_solver.
Qed.

(** The end of a coroutine: the VPU is back in its scheduler and the
    coroutine is on no list; the end of the main coroutine ends the process. *)
Lemma exit_inv w R Tr v vp c co value :
  co_inv w R Tr -> vpus w !! v = Some vp -> current vp = Some c ->
  coros w !! c = Some co -> ctype co = TSC_COROUTINE_NORMAL -> status co = TSC_COROUTINE_RUNNING ->
  exists w' Tr', coroc_coroutine_exit v None value w = Ok (process_runs, w') /\
    Tr ≡ₚ c :: Tr' /\ co_inv w' R Tr' /\
    coros w' = <[c := set_status TSC_COROUTINE_EXIT (set_syscall true co)]> (coros w) /\
    vpus w' = <[v := set_current (scheduler vp) vp]> (vpus w).
Proof.
  intros I Hv Hcur Hc Ht Hs. unfold coroc_coroutine_exit.
  rewrite (bind_ok _ _ _ vp w) by (unfold get_vpu; by rewrite Hv).
  rewrite (bind_ok _ _ _ c w) by (by rewrite Hcur).
  rewrite (bind_ok _ _ _ co w) by (unfold get_co; by rewrite Hc).
  rewrite bool_decide_eq_true_2, (bind_ok _ _ w tt w), (bind_ok _ _ w tt w) by done.
  rewrite (bind_ok _ _ _ vp w) by (unfold get_vpu; by rewrite Hv).
  rewrite (bind_ok _ _ _ c w) by (by rewrite Hcur).
  set (co1 := set_syscall true co). set (w1 := set_coros (<[c := co1]> (coros w)) w).
  rewrite (bind_ok _ _ _ tt w1) by (unfold upd_co; by rewrite Hc).
  set (w2 := set_vpus (<[v := set_current (scheduler vp) vp]> (vpus w1)) w1).
  rewrite (bind_ok _ _ _ tt w2) by (unfold upd_vpu; cbn; by rewrite Hv).
  assert (coros w2 !! c = Some co1) as Hc2 by (cbn; by rewrite lookup_insert_eq).
  unfold core_exit. rewrite (bind_ok _ _ _ co1 w2) by (unfold get_co; by rewrite Hc2).
  rewrite bool_decide_eq_false_2 by (cbn; by rewrite Ht).
  destruct (deallocate_inv w2 R Tr c co1) as (w' & Tr' & E & HT & I' & Hco & Hv').
  { split.
    - apply (sched_inv_view w); [|apply I]. etrans; [by apply (view_upd_co w c co (set_syscall true))|].
      by apply (view_upd_vpu w1 v vp (set_current (scheduler vp))).
    - intros d. rewrite (ci_list _ _ _ I d). symmetry. by apply (listed_update w w2 c co co1). }
  { done. } { cbn. by rewrite Ht. } { done. }
  exists w', Tr'. rewrite (bind_ok _ _ _ _ _ E). split_and!; try done.
  rewrite Hco. cbn. by rewrite insert_insert_eq.
Qed.

(** ** The start of the VPUs *)

Definition booted (v : nat) (s : coid) (vp : vpu) : vpu :=
  mk_vpu (Z.of_nat v) 0 0 (Z.of_nat v + 1) (Some s) (Some s)
    (imap (fun p q => mk_pq (Z.of_nat p) (runq q) 0 0) (xt vp)) (hold vp).

(** The block of a VPU has four rings of 512 slots, with any contents. *)
Definition vpu_shape (vp : vpu) : Prop :=
  length (xt vp) = NP /\
  Forall (fun q : p_task_que coid => length (runq q) = Z.to_nat TSC_TASK_NUM_PERPRIO) (xt vp).

Lemma mysrand_small v : (v < 2 ^ 31 - 1)%Z -> 0 <= v ->
  u32 (u32 (v + 1) mod RNGMOD + (if u32 (v + 1) mod RNGMOD =? 0 then 1 else 0)) = v + 1.
Proof.
  intros. rewrite (u32_small (v + 1)) by lia. unfold RNGMOD. rewrite Z.mod_small by lia.
  destruct (Z.eqb_spec (v + 1) 0); [lia|]. rewrite u32_small; lia.
Qed.

Lemma per_vpu_initalize_ok v s (w : world) vp :
  vpus w !! v = Some vp -> length (xt vp) = NP -> Z.of_nat v < 2 ^ 31 - 1 ->
  per_vpu_initalize v s w =
    Ok (tt, set_vpus (<[v := booted v s vp]> (vpus w))
              (alloc_state s (next_coroutine w TSC_COROUTINE_IDLE 0) w)).
Proof.
  intros Hv Hx Hb. pose proof (lookup_lt_Some _ _ _ Hv) as Hlv.
  destruct vp as [vi wd tk rs cu sc x hd]. cbn in Hx.
  destruct x as [|q0 [|q1 [|q2 [|q3 [|]]]]]; try done.
  unfold per_vpu_initalize, __mysrand.
  rewrite (bind_ok _ _ _ tt (set_vpus (<[v := mk_vpu (Z.of_nat v) 0 0 rs cu sc [q0;q1;q2;q3] hd]> (vpus w)) w)).
  2: { unfold upd_vpu. rewrite Hv. unfold set_boot. cbn. by rewrite i32_small by lia. }
  rewrite mysrand_small by lia.
  rewrite (bind_ok _ _ _ tt (set_vpus (<[v := mk_vpu (Z.of_nat v) 0 0 (Z.of_nat v + 1) cu sc [q0;q1;q2;q3] hd]> (vpus w)) w)).
  2: { unfold upd_vpu. cbn. rewrite list_lookup_insert_eq by done. by rewrite list_insert_insert_eq. }
  rewrite (bind_ok _ _ _ tt (set_vpus (<[v := mk_vpu (Z.of_nat v) 0 0 (Z.of_nat v + 1) cu sc
     [mk_pq 0 (runq q0) 0 0; mk_pq 1 (runq q1) 0 0; mk_pq 2 (runq q2) 0 0; mk_pq 3 (runq q3) 0 0] hd]> (vpus w)) w)).
  2: { unfold init_queues, bind, on_pq. cbn.
       repeat (rewrite list_lookup_insert_eq by (by rewrite ?length_insert); cbn).
       by rewrite !list_insert_insert_eq. }
  rewrite (bind_ok _ _ _ s (alloc_state s (next_coroutine w TSC_COROUTINE_IDLE 0)
      (set_vpus (<[v := mk_vpu (Z.of_nat v) 0 0 (Z.of_nat v + 1) cu sc
     [mk_pq 0 (runq q0) 0 0; mk_pq 1 (runq q1) 0 0; mk_pq 2 (runq q2) 0 0; mk_pq 3 (runq q3) 0 0] hd]> (vpus w)) w)))
    by (by rewrite allocate_prefix).
  unfold upd_vpu. cbn. rewrite list_lookup_insert_eq by done. by rewrite list_insert_insert_eq.
Qed.

Lemma start_vpus_ok ss : forall v (w : world) V R Tr,
  co_inv (set_vpus V w) R Tr -> NoDup ss -> (forall s, s ∈ ss -> coros w !! s = None) ->
  (forall i vp, vpus w !! i = Some vp -> length (xt vp) = NP) ->
  (v + length ss = length (vpus w))%nat -> Z.of_nat (length (vpus w)) < 2 ^ 31 ->
  exists w', start_vpus v ss w = Ok (tt, w') /\ co_inv (set_vpus V w') R Tr /\
    length (vpus w') = length (vpus w) /\ mgr w' = set_last_pid (last_pid (mgr w')) (mgr w) /\
    (forall i, (i < v)%nat -> vpus w' !! i = vpus w !! i) /\
    (forall d, d ∉ ss -> coros w' !! d = coros w !! d) /\
    (forall s, s ∈ ss -> exists co, coros w' !! s = Some co /\ ctype co = TSC_COROUTINE_IDLE /\
       status co = TSC_COROUTINE_WAIT) /\
    (forall k s, ss !! k = Some s -> exists vp, vpus w !! (v + k)%nat = Some vp /\
       vpus w' !! (v + k)%nat = Some (booted (v + k) s vp)).
Proof.
  induction ss as [|s ss IH]; intros v w V R Tr I ND Hf Hx Hlen Hb.
  { exists w. split_and!; try done; [by destruct w as [? ? ? [] ? ?]|set_solver]. }
  apply NoDup_cons in ND as [Hs ND]. cbn in Hlen.
  destruct (lookup_lt_is_Some_2 (vpus w) v) as [vp Hv]; [lia|].
  cbn [start_vpus].
  pose proof (per_vpu_initalize_ok v s w vp Hv (Hx _ _ Hv) ltac:(lia)) as E.
  set (co := next_coroutine w TSC_COROUTINE_IDLE 0) in E. set (w1 := set_vpus _ _) in E.
  rewrite (bind_ok _ _ _ _ _ E).
  assert (coros (set_vpus V w) !! s = None) as Hsn by (apply Hf; by left).
  destruct (IH (S v) w1 V R Tr) as (w' & E' & I' & Hl' & Hm' & Hlow & Hold & Hnew & Hk).
  { split.
    - exact (alloc_state_sched _ _ _ _ co (ci_sched _ _ _ I) Hsn (co_inv_fresh _ _ _ _ I Hsn)).
    - intros d. rewrite (ci_list _ _ _ I d). unfold listed. cbn.
      destruct (decide (d = s)) as [->|]; [|by rewrite lookup_insert_ne].
      rewrite lookup_insert_eq. change (coros (set_vpus V w)) with (coros w) in Hsn.
      rewrite Hsn. cbn. naive_solver. }
  { done. }
  { intros t Ht. cbn. rewrite lookup_insert_ne by (intros ->; done). apply Hf. by right. }
  { intros i vi Hi. cbn in Hi. destruct (decide (i = v)) as [->|].
    - rewrite list_lookup_insert_eq in Hi by lia. simplify_eq. cbn. rewrite length_imap. eauto.
    - rewrite list_lookup_insert_ne in Hi by done. eauto. }
  { cbn. rewrite length_insert. lia. } { cbn. by rewrite length_insert. }
  exists w'. cbn in Hl'. rewrite length_insert in Hl'. split_and!; try done.
  - intros i Hi. rewrite Hlow by lia. cbn. by rewrite list_lookup_insert_ne by lia.
  - intros d Hd. rewrite Hold by set_solver. cbn. rewrite lookup_insert_ne; [done|set_solver].
  - intros t [->|Ht]%elem_of_cons; [|by apply Hnew]. exists co. rewrite Hold by done.
    cbn. by rewrite lookup_insert_eq.
  - intros [|k] t Hk'.
    + cbn in Hk'. simplify_eq. exists vp. rewrite Nat.add_0_r. split; [done|].
      rewrite Hlow by lia. cbn. by rewrite list_lookup_insert_eq by lia.
    + destruct (Hk k t Hk') as (vk & H1 & H2). exists vk.
      replace (v + S k)%nat with (S v + k)%nat by lia. split; [|done].
      cbn in H1. by rewrite list_lookup_insert_ne in H1 by lia.
Qed.

(** A thread that is no VPU does not look at the VPUs when it allocates. *)
Definition vpu_blind {A} (m : ST world A) : Prop :=
  forall w V a w', m w = Ok (a, w') -> m (set_vpus V w) = Ok (a, set_vpus V w').

Lemma blind_bind {A B} (m : ST world A) (k : A -> ST world B) :
  vpu_blind m -> (forall a, vpu_blind (k a)) -> vpu_blind (bind m k).
Proof.
  intros Hm Hk w V b w' (a & w1 & E1 & E2)%bind_inv.
  rewrite (bind_ok _ _ _ _ _ (Hm _ V _ _ E1)). by apply Hk.
Qed.
Lemma blind_ret {A} (a : A) : vpu_blind (ret a).
Proof. by intros w V b w' [= <- <-]. Qed.
Lemma blind_throw {A} f : vpu_blind (throw f : ST world A).
Proof. done. Qed.
Lemma blind_links {A} (c : ST (qstore link mqueue coid) A) : vpu_blind (on_links c).
Proof.
  intros w V b w'. unfold on_links, zoom. cbn. destruct (c (links w)) as [[]|]; [|done].
  by intros [= <- <-].
Qed.
Lemma blind_get_mgr : vpu_blind get_mgr.
Proof. by intros w V b w' [= <- <-]. Qed.
Lemma blind_modify f :
  (forall V w, f (set_vpus V w) = set_vpus V (f w)) -> vpu_blind (modify f).
Proof. intros Hf w V b w' [= <- <-]. unfold modify. by rewrite Hf. Qed.
Lemma blind_get_co c : vpu_blind (get_co c).
Proof. intros w V b w'. unfold get_co. cbn. case_match; [|done]. by intros [= <- <-]. Qed.
Lemma blind_upd_co c f : vpu_blind (upd_co c f).
Proof. intros w V b w'. unfold upd_co. cbn. case_match; [|done]. by intros [= <- <-]. Qed.
Lemma blind_upd_ready p d : vpu_blind (upd_ready p d).
Proof. intros w V b w'. unfold upd_ready. cbn. case_match; [|done]. by intros [= <- <-]. Qed.
Create HintDb blind.
#[local] Hint Resolve blind_bind blind_ret blind_throw blind_links blind_get_mgr blind_modify
  blind_get_co blind_upd_co blind_upd_ready : blind.

Lemma blind_allocate c type prio : vpu_blind (coroc_coroutine_allocate None c type prio).
Proof.
  unfold coroc_coroutine_allocate, vpu_ready, ready_enqueue, vpu_wakeup_one, TSC_ALLOC_TID,
    upd_total_ready, upd_total_iowait, upd_mgr, assert_.
  repeat first [apply blind_bind; [|intros ?]|progress auto with blind|case_match].
Qed.

Lemma queued_nil nv p : queued nv (fun _ => []) (fun _ => []) p = [].
Proof.
  unfold queued. cbn. generalize 0%nat. induction nv as [|nv IH]; intros k; [done|]. apply IH.
Qed.

Definition empty_queue : queue_t link := mk_queue false None None 0.
Definition boot_links : qstore link mqueue coid :=
  mk_qstore ∅ {[ None := empty_queue; Some 3%nat := empty_queue; Some 2%nat := empty_queue;
                 Some 1%nat := empty_queue; Some 0%nat := empty_queue ]}.
Definition boot_world (np : Z) (V : list vpu) : world :=
  mk_world ∅ boot_links V (mk_mgr [0;0;0;0;0] (u32 np) 0 None (u16 np) 0 0 0) ∅ 0.

Lemma manager_init_ok np raw :
  manager_init np (set_vpus raw zero_world) = Ok (tt, boot_world np raw).
Proof. reflexivity. Qed.

Lemma boot_inv np V :
  Z.of_nat np = Z.of_nat (length V) -> 0 < Z.of_nat np < 2 ^ 31 ->
  (forall v vp, V !! v = Some vp -> vid vp = Z.of_nat v /\ length (xt vp) = NP /\
     forall p q, xt vp !! p = Some q ->
       length (runq q) = Z.to_nat TSC_TASK_NUM_PERPRIO /\ runqhead q = 0 /\ runqtail q = 0 /\
       prio q = Z.of_nat p) ->
  co_inv (boot_world (Z.of_nat np) V) (fun _ => []) [].
Proof.
  intros HN Hb HV. split.
  2: { intros c. unfold listed. cbn. split; [by intros ?%elem_of_nil|]. by intros (co & ? & _). }
  split; [| |intros p c _ ?%elem_of_nil; done| |done].
  - exists (fun _ => []), (fun _ => []). split.
    + split; [|split| |intros; rewrite queued_nil; constructor|
        intros p p' c _ _; rewrite queued_nil; set_solver|intros p c _; rewrite queued_nil; set_solver].
      * split; [| |by intros p p' c _ _ ?%elem_of_nil].
        -- intros p Hp. split; [constructor|done| |done].
           destruct p as [|[|[|[|p]]]]; [reflexivity..|lia].
        -- split; [|done]. split; [constructor|done|reflexivity|done].
      * intros v vp Hv. by apply (HV v).
      * intros v p pq (vp & Hv & Hp). destruct (HV v vp Hv) as (_ & _ & Hq).
        destruct (Hq p pq Hp) as (Hs & Hh & Ht & Hr). split; [|done].
        split; rewrite ?Hh, ?Ht; try done.
      * intros c [x Hx]. change ((∅ : gmap coid coroutine) !! c = Some x) in Hx. by rewrite lookup_empty in Hx.
    + intros p Hp. by rewrite queued_nil.
  - split; cbn; rewrite ?u32_small by lia; [done|done|]. intros v vp Hv. by apply (HV v).
  - intros p Hp. destruct p as [|[|[|[|p]]]]; [reflexivity..|lia].
Qed.

(** [coroc_vpu_initialize] establishes the invariant: the main coroutine is
    the only ready task, and every VPU is in its scheduler. *)
Lemma vpu_initialize_inv np raw init scheds :
  (0 < np)%nat -> Z.of_nat np < 2 ^ 31 -> length raw = np -> length scheds = np ->
  Forall vpu_shape raw -> NoDup (init :: scheds) ->
  exists w', coroc_vpu_initialize (Z.of_nat np) raw init scheds zero_world = Ok (tt, w') /\
    co_inv w' (<[3%nat := [init]]> (fun _ => [])) [init] /\
    threads w' = (fun s => (Some s, Some s)) <$> scheds /\
    (forall c co, coros w' !! c = Some co ->
       c = init /\ ctype co = TSC_COROUTINE_MAIN /\ status co = TSC_COROUTINE_READY /\
         priority co = TSC_PRIO_LOW \/
       c ∈ scheds /\ ctype co = TSC_COROUTINE_IDLE /\ status co = TSC_COROUTINE_WAIT) /\
    (forall s, s ∈ scheds -> is_Some (coros w' !! s)).
Proof.
  intros Hnp Hb Hraw Hsc Hsh [Hi ND]%NoDup_cons. unfold coroc_vpu_initialize.
  rewrite (bind_ok _ _ _ tt (set_vpus raw zero_world)) by done.
  rewrite (bind_ok _ _ _ _ _ (manager_init_ok _ _)).
  set (V := imap (fun v vp => booted v 0 vp) raw).
  assert (length V = np) as HV by (unfold V; by rewrite length_imap).
  assert (co_inv (boot_world (Z.of_nat np) V) (fun _ => []) []) as I0.
  { apply boot_inv; [by rewrite HV|lia|]. intros v vp Hv. unfold V in Hv.
    rewrite list_lookup_imap in Hv. apply fmap_Some in Hv as (vr & Hvr & ->).
    destruct (Forall_lookup_1 _ _ _ _ Hsh Hvr) as [Hlx Hq]. cbn. rewrite length_imap.
    split_and!; [done|done|]. intros p q Hpq. rewrite list_lookup_imap in Hpq.
    apply fmap_Some in Hpq as (q0 & Hq0 & ->). cbn. split_and!; try done.
    by apply (Forall_lookup_1 _ _ _ _ Hq Hq0). }
  destruct (allocate_thread _ _ _ init TSC_COROUTINE_MAIN TSC_PRIO_LOW 3 I0)
    as (w1 & E & I1 & Hco & _); [done|done|done|lia|done|].
  assert (vpus w1 = V) as HV1.
  { pose proof (blind_allocate _ _ _ _ V _ _ E) as E'.
    change (set_vpus V (boot_world (Z.of_nat np) V)) with (boot_world (Z.of_nat np) V) in E'.
    rewrite E in E'. injection E' as ->. done. }
  apply (fun H => blind_allocate _ _ _ _ raw _ _ H) in E.
  change (set_vpus raw (boot_world (Z.of_nat np) V)) with (boot_world (Z.of_nat np) raw) in E.
  rewrite (bind_ok _ _ _ _ _ E).
  destruct (start_vpus_ok scheds 0 (set_vpus raw w1) (vpus w1)
      (<[3%nat := [init]]> (fun _ => [])) [init]) as
    (w2 & E2 & I2 & Hl2 & _ & _ & Hold & Hnew & Hk); [|done| | | | |].
  { replace (set_vpus (vpus w1) (set_vpus raw w1)) with w1 by (by destruct w1). exact I1. }
  { intros s Hs. cbn. rewrite Hco, lookup_insert_ne; [done|]. by intros ->. }
  { intros i vp Hvp. by apply (Forall_lookup_1 _ _ _ _ Hsh Hvp). }
  { cbn. lia. } { cbn. lia. }
  exists w2. split; [exact E2|]. split; [|split; [|split]].
  - destruct I2 as [S2 L2]. split; [|exact L2]. apply (sched_inv_view (set_vpus (vpus w1) w2)); [|done].
    split; try done. cbn. rewrite HV1. apply list_eq. intros i. rewrite !list_lookup_fmap.
    unfold V. rewrite list_lookup_imap. cbn in Hl2. destruct (scheds !! i) as [s|] eqn:Hs.
    + destruct (Hk i s Hs) as (vr & Hvr & Hvp). cbn [Nat.add] in Hvp. change (raw !! i = Some vr) in Hvr. by rewrite Hvp, Hvr.
    + apply lookup_ge_None in Hs. rewrite !lookup_ge_None_2 by lia. done.
  - apply list_eq. intros i. unfold threads. rewrite !list_lookup_fmap. cbn in Hl2.
    destruct (scheds !! i) as [s|] eqn:Hs.
    + destruct (Hk i s Hs) as (vr & Hvr & Hvp). cbn [Nat.add] in Hvp. by rewrite Hvp.
    + apply lookup_ge_None in Hs. rewrite !lookup_ge_None_2 by lia. done.
  - intros c co Hc. destruct (decide (c ∈ scheds)) as [Hin|Hin].
    + right. destruct (Hnew c Hin) as (co' & ? & ? & ?). assert (co' = co) as -> by congruence. done.
    + left. rewrite Hold in Hc by done. cbn in Hc. rewrite Hco in Hc.
      apply lookup_insert_Some in Hc as [[<- <-]|[_ Hc]]; [done|].
      change ((∅ : gmap coid coroutine) !! c = Some co) in Hc. by rewrite lookup_empty in Hc.
  - intros s Hs. destruct (Hnew s Hs) as (co & -> & _). done.
Qed.
