(* ===== verification/System.v ===== *)
(** * The running system: VPUs, coroutines and scheduling together

    [sys_inv] says how coroutines and VPUs are distributed: a READY coroutine
    is in exactly one run queue, a RUNNING one is the current coroutine of
    exactly one VPU, a VPU runs either its own scheduler or one coroutine.
    [sys_event] lists the scheduling operations of src/vpu.c and
    src/coroutine.c; the theorems show that none of them faults from a state
    that has the invariant, and that all keep it. *)

From stdpp Require Import functions.
From S2P Require Import Prelude Queue RunQueue Scheduler SchedInv SchedProps Coroutine.

Abbreviation thread := (option coid * option coid)%type (only parsing).

Record thread_inv (C : gmap coid coroutine) (T : list thread) : Prop := {
  ti_sched : forall v t, T !! v = Some t -> exists s sco, t.2 = Some s /\ C !! s = Some sco /\
    ctype sco = TSC_COROUTINE_IDLE;
  ti_cur : forall v t, T !! v = Some t -> t.1 = t.2 \/ exists c co, t.1 = Some c /\
    C !! c = Some co /\ ctype co <> TSC_COROUTINE_IDLE /\ status co = TSC_COROUTINE_RUNNING;
  ti_uniq : forall v1 v2 t1 t2, T !! v1 = Some t1 -> T !! v2 = Some t2 -> t1.1 = t2.1 -> v1 = v2;
  ti_uniq2 : forall v1 v2 t1 t2, T !! v1 = Some t1 -> T !! v2 = Some t2 -> t1.2 = t2.2 -> v1 = v2;
  ti_run : forall c co, C !! c = Some co -> status co = TSC_COROUTINE_RUNNING ->
    exists v t, T !! v = Some t /\ t.1 = Some c;
  ti_idle : forall c co, C !! c = Some co -> ctype co = TSC_COROUTINE_IDLE ->
    status co = TSC_COROUTINE_WAIT;
  ti_prio : forall c co, C !! c = Some co -> ctype co <> TSC_COROUTINE_IDLE ->
    0 <= priority co < 4
}.

Record sys_inv (w : world) : Prop := {
  sy_inv : exists R Tr, co_inv w R Tr /\
    forall c co, coros w !! c = Some co -> status co = TSC_COROUTINE_READY ->
      exists p, (p < NP)%nat /\ c ∈ R p;
  sy_threads : thread_inv (coros w) (threads w)
}.

(** ** The moves of the thread table *)

(** A state change of a coroutine that is not running. *)
Lemma thread_inv_status C T c co co' :
  thread_inv C T -> C !! c = Some co -> ctype co <> TSC_COROUTINE_IDLE ->
  status co <> TSC_COROUTINE_RUNNING ->
  ctype co' = ctype co -> priority co' = priority co -> status co' <> TSC_COROUTINE_RUNNING ->
  thread_inv (<[c := co']> C) T.
Proof.
  intros [I1 I2 I3 I4 I5 I6 I7] Hc Ht Hs Et Ep Hs'. split; [| |done|done|..].
  - intros v t Hv. destruct (I1 v t Hv) as (s & sco & ? & ? & ?). exists s, sco.
    rewrite lookup_insert_ne by (intros ->; congruence). done.
  - intros v t Hv. destruct (I2 v t Hv) as [?|(d & dco & ? & ? & ? & ?)]; [by left|right].
    exists d, dco. rewrite lookup_insert_ne by (intros ->; congruence). done.
  - intros d dco [[-> ->]|[? Hd]]%lookup_insert_Some; [done|eauto].
  - intros d dco [[-> ->]|[? Hd]]%lookup_insert_Some; [congruence|eauto].
  - intros d dco [[-> ->]|[? Hd]]%lookup_insert_Some; [rewrite Et, Ep|]; eauto.
Qed.

(** A new coroutine. *)
Lemma thread_inv_new C T c co :
  thread_inv C T -> C !! c = None -> ctype co <> TSC_COROUTINE_IDLE ->
  status co <> TSC_COROUTINE_RUNNING -> 0 <= priority co < 4 ->
  thread_inv (<[c := co]> C) T.
Proof.
  intros [I1 I2 I3 I4 I5 I6 I7] Hc Ht Hs Hp. split; [| |done|done|..].
  - intros v t Hv. destruct (I1 v t Hv) as (s & sco & ? & ? & ?). exists s, sco.
    rewrite lookup_insert_ne by congruence. done.
  - intros v t Hv. destruct (I2 v t Hv) as [?|(d & dco & ? & ? & ? & ?)]; [by left|right].
    exists d, dco. rewrite lookup_insert_ne by congruence. done.
  - intros d dco [[-> ->]|[? Hd]]%lookup_insert_Some; [done|eauto].
  - intros d dco [[-> ->]|[? Hd]]%lookup_insert_Some; [done|eauto].
  - intros d dco [[-> ->]|[? Hd]]%lookup_insert_Some; [done|eauto].
Qed.

Lemma alter_cases {A} (f : A -> A) (l : list A) v u t :
  alter f v l !! u = Some t ->
  (u = v /\ exists t0, l !! v = Some t0 /\ t = f t0) \/ (u <> v /\ l !! u = Some t).
Proof.
  intros H. destruct (decide (u = v)) as [->|].
  - left. rewrite list_lookup_alter_eq in H. apply fmap_Some in H as (t0 & ? & ?). eauto.
  - right. by rewrite list_lookup_alter_ne in H.
Qed.

(** The coroutine on [v] stops: [v] is back in its scheduler. *)
Lemma thread_inv_release C T v c s co co' :
  thread_inv C T -> T !! v = Some (Some c, s) -> C !! c = Some co ->
  ctype co <> TSC_COROUTINE_IDLE ->
  ctype co' = ctype co -> priority co' = priority co -> status co' <> TSC_COROUTINE_RUNNING ->
  thread_inv (<[c := co']> C) (alter (run_on s) v T).
Proof.
  intros [I1 I2 I3 I4 I5 I6 I7] Hv Hc Ht Et Ep Hs'.
  assert (forall u t, alter (run_on s) v T !! u = Some t ->
     exists t0, T !! u = Some t0 /\ t.2 = t0.2 /\ (u = v /\ t.1 = t.2 \/ u <> v /\ t = t0)) as HT.
  { intros u t [(-> & t0 & H0 & ->)|[? ?]]%alter_cases; [|by eauto 10].
    simplify_eq. exists (Some c, s). cbn. eauto. }
  split.
  - intros u t (t0 & H0 & -> & _)%HT. destruct (I1 u t0 H0) as (x & sco & ? & ? & ?). exists x, sco.
    rewrite lookup_insert_ne by (intros ->; congruence). done.
  - intros u t (t0 & H0 & E2 & [[-> E]|[Hne ->]])%HT; [by left|].
    destruct (I2 u t0 H0) as [?|(d & dco & E1 & ? & ? & ?)]; [by left|right]. exists d, dco.
    rewrite lookup_insert_ne; [done|]. intros ->. apply Hne. by apply (I3 u v t0 (Some d, s)).
  - intros u1 u2 t1 t2 (t10 & H1 & E1 & C1)%HT (t20 & H2 & E2 & C2)%HT E.
    destruct C1 as [[-> X1]|[N1 ->]], C2 as [[-> X2]|[N2 ->]]; [done| | |by eapply I3].
    + destruct (I2 u2 t20 H2) as [X|(d & dco & X & Hd & ? & ?)];
        [apply (I4 v u2 t10 t20); congruence|].
      destruct (I1 v t10 H1) as (x & sco & ? & ? & ?). congruence.
    + destruct (I2 u1 t10 H1) as [X|(d & dco & X & Hd & ? & ?)];
        [apply (I4 u1 v t10 t20); congruence|].
      destruct (I1 v t20 H2) as (x & sco & ? & ? & ?). congruence.
  - intros u1 u2 t1 t2 (t10 & H1 & -> & C1)%HT (t20 & H2 & -> & C2)%HT E. by eapply I4.
  - intros d dco [[-> ->]|[Hne Hd]]%lookup_insert_Some Hr; [done|].
    destruct (I5 d dco Hd Hr) as (u & t & Hu & E). exists u, t. split; [|done].
    rewrite list_lookup_alter_ne; [done|]. intros ->. simplify_eq. cbn in E. congruence.
  - intros d dco [[-> ->]|[? Hd]]%lookup_insert_Some; [congruence|eauto].
  - intros d dco [[-> ->]|[? Hd]]%lookup_insert_Some; [rewrite Et, Ep|]; eauto.
Qed.

(** The idle VPU [v] starts [c]. *)
Lemma thread_inv_acquire C T v c s co co' :
  thread_inv C T -> T !! v = Some (s, s) -> C !! c = Some co ->
  ctype co <> TSC_COROUTINE_IDLE -> status co <> TSC_COROUTINE_RUNNING ->
  ctype co' = ctype co -> priority co' = priority co -> status co' = TSC_COROUTINE_RUNNING ->
  thread_inv (<[c := co']> C) (alter (run_on (Some c)) v T).
Proof.
  intros [I1 I2 I3 I4 I5 I6 I7] Hv Hc Ht Hs Et Ep Hs'.
  assert (forall u t, alter (run_on (Some c)) v T !! u = Some t ->
     exists t0, T !! u = Some t0 /\ t.2 = t0.2 /\ (u = v /\ t.1 = Some c \/ u <> v /\ t = t0)) as HT.
  { intros u t [(-> & t0 & H0 & ->)|[? ?]]%alter_cases; [|by eauto 10].
    simplify_eq. exists (s, s). cbn. eauto. }
  assert (forall u t, T !! u = Some t -> t.1 <> Some c) as Hnc.
  { intros u t Hu E. destruct (I2 u t Hu) as [X|(d & dco & X & Hd & ? & ?)].
    - destruct (I1 u t Hu) as (x & sco & ? & ? & ?). congruence.
    - congruence. }
  split.
  - intros u t (t0 & H0 & -> & _)%HT. destruct (I1 u t0 H0) as (x & sco & ? & ? & ?). exists x, sco.
    rewrite lookup_insert_ne by (intros ->; congruence). done.
  - intros u t (t0 & H0 & E2 & [[-> E]|[Hne ->]])%HT.
    { right. exists c, co'. rewrite lookup_insert_eq. split_and!; congruence. }
    destruct (I2 u t0 H0) as [?|(d & dco & E1 & ? & ? & ?)]; [by left|right]. exists d, dco.
    rewrite lookup_insert_ne; [done|]. intros ->. congruence.
  - intros u1 u2 t1 t2 (t10 & H1 & E1 & C1)%HT (t20 & H2 & E2 & C2)%HT E.
    destruct C1 as [[-> X1]|[N1 ->]], C2 as [[-> X2]|[N2 ->]]; [done| | |by eapply I3];
      exfalso; [apply (Hnc u2 t20 H2)|apply (Hnc u1 t10 H1)]; congruence.
  - intros u1 u2 t1 t2 (t10 & H1 & -> & C1)%HT (t20 & H2 & -> & C2)%HT E. by eapply I4.
  - intros d dco [[-> ->]|[Hne Hd]]%lookup_insert_Some Hr.
    + exists v, (Some d, s). rewrite list_lookup_alter_eq, Hv. done.
    + destruct (I5 d dco Hd Hr) as (u & t & Hu & E). exists u, t. split; [|done].
      destruct (I1 v _ Hv) as (x & sco & E3 & E4 & E5). cbn in E3.
      rewrite list_lookup_alter_ne; [done|]. intros ->. simplify_eq. cbn in E. simplify_eq.
      rewrite (I6 _ _ Hd E5) in Hr. done.
  - intros d dco [[-> ->]|[? Hd]]%lookup_insert_Some; [congruence|eauto].
  - intros d dco [[-> ->]|[? Hd]]%lookup_insert_Some; [rewrite Et, Ep|]; eauto.
Qed.

(** ** Every READY coroutine is queued *)

Definition ready_queued (C : gmap coid coroutine) (R : nat -> list coid) : Prop :=
  forall c co, C !! c = Some co -> status co = TSC_COROUTINE_READY ->
    exists p, (p < NP)%nat /\ c ∈ R p.

Lemma ready_queued_add C R c co p :
  ready_queued C R -> (p < NP)%nat -> ready_queued (<[c := co]> C) (<[p := c :: R p]> R).
Proof.
  intros H Hp d dco [[-> ->]|[Hne Hd]]%lookup_insert_Some Hs.
  - exists p. rewrite fn_lookup_insert. split; [done|by left].
  - destruct (H d dco Hd Hs) as (q & Hq & Hin). exists q. split; [done|].
    destruct (decide (p = q)) as [<-|]; [rewrite fn_lookup_insert; by right|by rewrite fn_lookup_insert_ne].
Qed.

Lemma ready_queued_remove C R c co p R' :
  ready_queued C R -> R p ≡ₚ c :: R' -> status co <> TSC_COROUTINE_READY ->
  ready_queued (<[c := co]> C) (<[p := R']> R).
Proof.
  intros H HR Hs d dco [[-> ->]|[Hne Hd]]%lookup_insert_Some Hs'; [done|].
  destruct (H d dco Hd Hs') as (q & Hq & Hin). exists q. split; [done|].
  destruct (decide (p = q)) as [<-|]; [|by rewrite fn_lookup_insert_ne].
  rewrite fn_lookup_insert. rewrite HR in Hin. by apply elem_of_cons in Hin as [->|].
Qed.

Lemma ready_queued_other C R c co :
  ready_queued C R -> status co <> TSC_COROUTINE_READY -> ready_queued (<[c := co]> C) R.
Proof. intros H Hs d dco [[-> ->]|[Hne Hd]]%lookup_insert_Some Hs'; [done|eauto]. Qed.

(** ** Events *)

(** [v] runs the coroutine [c], which is not its scheduler. *)
Definition runs (w : world) (v : nat) (c : coid) : Prop :=
  exists s, threads w !! v = Some (Some c, s) /\ s <> Some c.
(** [v] is in its scheduler. *)
Definition idles (w : world) (v : nat) : Prop := exists s, threads w !! v = Some (s, s).

Lemma runs_inv w v c :
  sys_inv w -> runs w v c -> exists vp co p, vpus w !! v = Some vp /\ current vp = Some c /\
    threads w !! v = Some (Some c, scheduler vp) /\
    coros w !! c = Some co /\ ctype co <> TSC_COROUTINE_IDLE /\ status co = TSC_COROUTINE_RUNNING /\
    priority co = Z.of_nat p /\ (p < NP)%nat.
Proof.
  intros [_ T] (s & Hv & Hs).
  destruct (ti_cur _ _ T _ _ Hv) as [E|(c' & co & E & Hc & Ht & Hst)]; cbn in E; [congruence|].
  injection E as <-. pose proof (ti_prio _ _ T _ _ Hc Ht). pose proof Hv as Hv'.
  unfold threads in Hv. rewrite list_lookup_fmap in Hv. apply fmap_Some in Hv as (vp & Hvp & E).
  injection E as E1 E2. exists vp, co, (Z.to_nat (priority co)).
  subst s. split_and!; try done; lia.
Qed.

Lemma idles_inv w v : idles w v -> (v < length (vpus w))%nat.
Proof.
  intros (s & Hv). apply lookup_lt_Some in Hv. unfold threads in Hv. by rewrite length_fmap in Hv.
Qed.

Inductive sys_event : Type :=
| ev_enter (v : nat)                          (* entry of core_sched *)
| ev_pass (v : nat)                           (* one pass over the levels *)
| ev_yield (v : nat)
| ev_suspend (v : nat) (ls : list Z) (h : unlock_handler)
| ev_ready (me : option nat) (c : coid) (preempt : bool)
| ev_spawn (v : nat) (c : coid) (prio : Z)
| ev_exit (v : nat) (value : Z).

Definition sys_exec (e : sys_event) : ST world unit :=
  match e with
  | ev_enter v => sched_enter v
  | ev_pass v => do! sched_scan (fun _ => ret false) prio_levels v in ret tt
  | ev_yield v => coroc_coroutine_yield v
  | ev_suspend v ls h => vpu_suspend v ls h
  | ev_ready me c preempt => vpu_ready me c preempt
  | ev_spawn v c prio => do! coroc_coroutine_allocate (Some v) c TSC_COROUTINE_NORMAL prio in ret tt
  | ev_exit v value => do! coroc_coroutine_exit v None value in ret tt
  end.

(** Who may do what: the thread that executes the operation is in the state
    the code assumes. *)
Definition sys_enabled (w : world) (e : sys_event) : Prop :=
  match e with
  | ev_enter v | ev_pass v => idles w v
  | ev_yield v => exists c, runs w v c
  | ev_suspend v ls h =>
      (exists c, runs w v c) /\ NoDup ls /\ forall l, l ∈ ls -> locks w !! l = Some true
  | ev_ready me c preempt =>
      (exists co, coros w !! c = Some co /\ ctype co <> TSC_COROUTINE_IDLE /\
         status co = TSC_COROUTINE_WAIT) /\
      match me with
      | None => True
      | Some v => (exists cur, runs w v cur) \/ (idles w v /\ preempt = false)
      end
  | ev_spawn v c prio =>
      (exists cur, runs w v cur) /\ coros w !! c = None /\ 0 <= prio < 4 /\
      Z.of_nat (size (coros w)) + 2 < 2 ^ 32
  | ev_exit v value =>
      exists c co, runs w v c /\ coros w !! c = Some co /\ ctype co = TSC_COROUTINE_NORMAL
  end.

Definition few (w : world) : Prop := Z.of_nat (size (coros w)) + 2 < 2 ^ 32.

Lemma co_inv_same w w' R Tr :
  co_inv w R Tr -> same_view w w' -> coros w' = coros w -> co_inv w' R Tr.
Proof.
  intros [S L] V E. split; [by eapply sched_inv_view|]. intros c. rewrite L. unfold listed.
  by rewrite E.
Qed.

Lemma enter_keeps w v : sys_inv w -> idles w v -> exists w', sched_enter v w = Ok (tt, w') /\ sys_inv w'.
Proof.
  intros [(R & Tr & I & HR) T] Hi. pose proof (idles_inv _ _ Hi) as Hv.
  destruct (lookup_lt_is_Some_2 _ _ Hv) as [vp Hvp].
  unfold sched_enter. set (w1 := set_mgr (set_idle (u16 (idle (mgr w) + 1)) (mgr w)) w).
  rewrite (bind_ok _ _ _ tt w1) by done.
  unfold upd_vpu. change (vpus w1) with (vpus w). rewrite Hvp.
  eexists. split; [reflexivity|]. split.
  - exists R, Tr. split; [|done]. apply (co_inv_same w); [done| |done].
    transitivity w1; [by apply view_mgr|]. by apply (view_upd_vpu w1 v vp (set_watchdog 0)).
  - unfold threads. cbn. rewrite list_fmap_insert, list_insert_id; [done|].
    by rewrite list_lookup_fmap, Hvp.
Qed.

Lemma pass_keeps w v : sys_inv w -> idles w v -> few w ->
  exists w', sys_exec (ev_pass v) w = Ok (tt, w') /\ sys_inv w'.
Proof.
  intros [(R & Tr & I & HR) T] Hi Hf. pose proof (idles_inv _ _ Hi) as Hv. destruct Hi as [s Hs].
  pose proof (ci_sched _ _ _ I) as S. destruct (si_queues _ _ _ S) as (G & P & QR & HRq).
  destruct (sched_scan_quiet (fun _ => ret false) v 4 ltac:(done) 0 w R Tr G P)
    as (r & w' & E & Hr); [done..|unfold few in Hf; lia|intros; lia|].
  exists w'. split; [by cbn; rewrite (bind_ok _ _ _ _ _ E)|]. destruct r as [c|].
  - destruct Hr as (p & (R' & co & Hp & HRp & S' & Hc & Hpr & Hco & Hth) & _).
    destruct (si_tasks _ _ _ S p c Hp) as (co' & Hc' & Hst & _); [rewrite HRp; by left|].
    assert (co' = co) as -> by congruence. assert (ctype co <> TSC_COROUTINE_IDLE) as Hty.
    { intros E1. pose proof (ti_idle _ _ T _ _ Hc' E1). congruence. }
    split.
    + exists (<[p := R']> R), Tr. split; [split; [done|]|].
      * intros d. rewrite (ci_list _ _ _ I d). symmetry.
        eapply (listed_update w w' c co); [done..|]. cbn. rewrite Hst. naive_solver.
      * rewrite Hco. by apply ready_queued_remove.
    + rewrite Hco, Hth. eapply thread_inv_acquire; [done..| |done|done|done]. by rewrite Hst.
  - destruct Hr as (S' & Hco & Hth & _). split; [|by rewrite Hco, Hth].
    exists R, Tr. rewrite Hco. split; [split; [done|]|done].
    intros d. rewrite (ci_list _ _ _ I d). unfold listed. by rewrite Hco.
Qed.

Lemma total_few w R Tr : co_inv w R Tr -> few w -> Z.of_nat (total R) + 2 < 2 ^ 32.
Proof. intros I Hf. pose proof (sched_inv_size _ _ _ (ci_sched _ _ _ I)). unfold few in Hf. lia. Qed.

(** A coroutine whose state changes, but which neither starts nor ends. *)
Lemma co_inv_update w w' R R' Tr c co co' :
  co_inv w R Tr -> sched_inv w' R' Tr -> coros w !! c = Some co ->
  coros w' = <[c := co']> (coros w) -> ctype co' = ctype co ->
  status co <> TSC_COROUTINE_EXIT -> status co' <> TSC_COROUTINE_EXIT -> co_inv w' R' Tr.
Proof.
  intros I S' Hc Hco Et Hs Hs'. split; [done|]. intros d. rewrite (ci_list _ _ _ I d). symmetry.
  eapply (listed_update w w' c co co'); [done..|]. rewrite Et. naive_solver.
Qed.

Lemma yield_keeps w v c : sys_inv w -> runs w v c -> few w ->
  exists w', coroc_coroutine_yield v w = Ok (tt, w') /\ sys_inv w'.
Proof.
  intros Y Hr Hf. destruct (runs_inv _ _ _ Y Hr) as (vp & co & p & Hv & Hcur & Ht & Hc & Hty & Hs & Hp & Hp4).
  destruct Y as [(R & Tr & I & HR) T]. pose proof (total_few _ _ _ I Hf).
  destruct (coroc_coroutine_yield_rep w R Tr v vp c co p) as (w' & E & S' & Hco & Hvp & _);
    [apply I|done..|lia|].
  exists w'. split; [done|]. split.
  - exists (<[p := c :: R p]> R), Tr. split.
    + eapply (co_inv_update w); [done..|by rewrite Hs|done].
    + rewrite Hco. by apply ready_queued_add.
  - rewrite Hco. unfold threads. rewrite Hvp, (threads_insert w v vp _ (run_on (scheduler vp))) by done.
    by eapply thread_inv_release.
Qed.

Lemma suspend_keeps w v c ls h : sys_inv w -> runs w v c -> NoDup ls ->
  (forall l, l ∈ ls -> locks w !! l = Some true) ->
  exists w', vpu_suspend v ls h w = Ok (tt, w') /\ sys_inv w'.
Proof.
  intros Y Hr ND Hl. destruct (runs_inv _ _ _ Y Hr) as (vp & co & p & Hv & Hcur & Ht & Hc & Hty & Hs & Hp & Hp4).
  destruct Y as [(R & Tr & I & HR) T].
  destruct (vpu_suspend_rep w R Tr v vp c co ls h) as (w' & E & S' & Hco & Hvp & _);
    [apply I|done..|].
  exists w'. split; [done|]. split.
  - exists R, Tr. split.
    + eapply (co_inv_update w); [done..|by rewrite Hs|done].
    + rewrite Hco. by apply ready_queued_other.
  - rewrite Hco. unfold threads. rewrite Hvp, (threads_insert w v vp _ (run_on (scheduler vp))) by done.
    by eapply thread_inv_release.
Qed.

Lemma ready_plain_keeps w me preempt c co :
  sys_inv w -> few w -> me = None \/ preempt = false ->
  (forall v, me = Some v -> (v < length (vpus w))%nat) ->
  coros w !! c = Some co -> ctype co <> TSC_COROUTINE_IDLE -> status co = TSC_COROUTINE_WAIT ->
  exists w', vpu_ready me c preempt w = Ok (tt, w') /\ sys_inv w'.
Proof.
  intros [(R & Tr & I & HR) T] Hf Hm Hme Hc Hty Hs. pose proof (total_few _ _ _ I Hf).
  pose proof (ti_prio _ _ T _ _ Hc Hty).
  destruct (vpu_ready_plain me preempt w R Tr c co (Z.to_nat (priority co)))
    as (w' & E & S' & Hco & [_ Hth]); [done|apply I|done|done|lia|lia|lia|done|].
  exists w'. split; [done|]. split.
  - eexists _, Tr. split.
    + eapply (co_inv_update w); [done|exact S'|done..|by rewrite Hs|done].
    + rewrite Hco. apply ready_queued_add; [done|lia].
  - rewrite Hco, (core_threads _ _ Hth). eapply thread_inv_status; [done..| |done|done|done].
    by rewrite Hs.
Qed.

Lemma ready_preempt_keeps w v cur c co :
  sys_inv w -> few w -> runs w v cur ->
  coros w !! c = Some co -> ctype co <> TSC_COROUTINE_IDLE -> status co = TSC_COROUTINE_WAIT ->
  exists w', vpu_ready (Some v) c true w = Ok (tt, w') /\ sys_inv w'.
Proof.
  intros Y Hf Hr Hc Hty Hs.
  destruct (runs_inv _ _ _ Y Hr) as (vp & curco & q & Hv & Hcur & Ht & Hcc & Hcty & Hcs & Hcp & Hq4).
  destruct Y as [(R & Tr & I & HR) T]. pose proof (total_few _ _ _ I Hf).
  pose proof (ti_prio _ _ T _ _ Hc Hty). assert (cur <> c) as Hne by congruence.
  destruct (vpu_ready_preempt w R Tr v vp cur curco q c co (Z.to_nat (priority co)))
    as (w' & E & H'); [apply I|done|done|lia|lia|done..|].
  exists w'. split; [done|]. cbn zeta in H'.
  set (C1 := <[c := set_status TSC_COROUTINE_READY co]> (coros w)) in *.
  assert (thread_inv C1 (threads w)) as T1
    by (eapply thread_inv_status; [done..| |done|done|done]; by rewrite Hs).
  assert (ready_queued C1 (<[Z.to_nat (priority co) := c :: R (Z.to_nat (priority co))]> R)) as RQ1
    by (apply ready_queued_add; [done|lia]).
  assert (forall d, d ∈ Tr <-> listed (set_coros C1 w) d) as L1.
  { intros d. rewrite (ci_list _ _ _ I d). symmetry.
    apply (listed_update w (set_coros C1 w) c co (set_status TSC_COROUTINE_READY co)); [done..|].
    rewrite Hs. done. }
  destruct (_ && _)%bool; destruct H' as (S' & Hco & Hth).
  - split.
    + eexists _, Tr. split; [split; [exact S'|]|].
      * intros d. rewrite L1. symmetry. eapply (listed_update _ w' cur curco); [done| |].
        { cbn. unfold C1. by rewrite lookup_insert_ne. } { cbn. rewrite Hcs. naive_solver. }
      * rewrite Hco. by apply ready_queued_add.
    + rewrite Hco, Hth. eapply (thread_inv_release _ _ v cur (scheduler vp) curco); try done.
      unfold C1. by rewrite lookup_insert_ne.
  - split.
    + eexists _, Tr. split; [split; [exact S'|]|by rewrite Hco].
      intros d. rewrite L1. unfold listed. by rewrite Hco.
    + by rewrite Hco, Hth.
Qed.

Lemma spawn_keeps w v cur c prio :
  sys_inv w -> few w -> runs w v cur -> coros w !! c = None -> 0 <= prio < 4 ->
  exists w', sys_exec (ev_spawn v c prio) w = Ok (tt, w') /\ sys_inv w'.
Proof.
  intros Y Hf Hr Hc Hp.
  destruct (runs_inv _ _ _ Y Hr) as (vp & curco & q & Hv & Hcur & Ht & Hcc & Hcty & Hcs & Hcp & Hq4).
  destruct Y as [(R & Tr & I & HR) T]. unfold few in Hf. assert (cur <> c) as Hne by congruence.
  destruct (allocate_vpu w R Tr v vp cur curco q c TSC_COROUTINE_NORMAL prio (Z.to_nat prio))
    as (w' & E & H'); [done|done|done|lia|lia|done..|].
  exists w'. split; [by cbn; rewrite (bind_ok _ _ _ _ _ E)|]. cbn zeta in H'.
  set (co := next_coroutine w TSC_COROUTINE_NORMAL prio) in *.
  assert (priority co = prio) as Hpr
    by (unfold co; rewrite (new_priority w _ _ (Z.to_nat prio)); [lia|done|lia|lia]).
  assert (thread_inv (<[c := set_status TSC_COROUTINE_READY co]> (coros w)) (threads w)) as T1
    by (eapply thread_inv_new; [done..|cbn [priority set_status]; by rewrite Hpr]).
  assert (ready_queued (<[c := set_status TSC_COROUTINE_READY co]> (coros w))
            (<[Z.to_nat prio := c :: R (Z.to_nat prio)]> R)) as RQ1
    by (apply ready_queued_add; [done|lia]).
  destruct (_ && _)%bool; destruct H' as (I' & Hco & Hth); (split; [eexists _, _; split; [exact I'|]|]).
  - rewrite Hco. by apply ready_queued_add.
  - rewrite Hco, Hth. eapply (thread_inv_release _ _ v cur (scheduler vp) curco); try done.
    by rewrite lookup_insert_ne.
  - by rewrite Hco.
  - by rewrite Hco, Hth.
Qed.

Lemma exit_keeps w v c co value :
  sys_inv w -> runs w v c -> coros w !! c = Some co -> ctype co = TSC_COROUTINE_NORMAL ->
  exists w', sys_exec (ev_exit v value) w = Ok (tt, w') /\ sys_inv w'.
Proof.
  intros Y Hr Hc0 Hn.
  destruct (runs_inv _ _ _ Y Hr) as (vp & co' & p & Hv & Hcur & Ht & Hc & Hty & Hs & Hp & Hp4).
  assert (co' = co) as -> by congruence. destruct Y as [(R & Tr & I & HR) T].
  destruct (exit_inv w R Tr v vp c co value) as (w' & Tr' & E & _ & I' & Hco & Hvp); [done..|].
  exists w'. split; [by cbn; rewrite (bind_ok _ _ _ _ _ E)|]. split.
  - exists R, Tr'. split; [done|]. rewrite Hco. by apply ready_queued_other.
  - rewrite Hco. unfold threads. rewrite Hvp, (threads_insert w v vp _ (run_on (scheduler vp))) by done.
    by eapply thread_inv_release.
Qed.

Lemma sys_step w e : sys_inv w -> few w -> sys_enabled w e ->
  exists w', sys_exec e w = Ok (tt, w') /\ sys_inv w'.
Proof.
  intros Y Hf. destruct e as [v|v|v|v ls h|me c pre|v c prio|v value]; cbn [sys_enabled].
  - by apply enter_keeps.
  - intros Hi. by apply pass_keeps.
  - intros [c Hr]. by eapply yield_keeps.
  - intros ([c Hr] & ND & Hl). by eapply suspend_keeps.
  - intros ((co & Hc & Ht & Hs) & Hme).
    destruct me as [v|]; [destruct Hme as [[cur Hr]|[Hi ->]]|].
    + destruct pre; [by eapply ready_preempt_keeps|].
      destruct (runs_inv _ _ _ Y Hr) as (vp & ? & ? & Hv & _).
      eapply ready_plain_keeps; eauto. intros ? [= <-]. by eapply lookup_lt_Some.
    + eapply ready_plain_keeps; eauto. intros ? [= <-]. by apply idles_inv.
    + eapply ready_plain_keeps; eauto. done.
  - intros ([cur Hr] & Hc & Hp & _). by eapply spawn_keeps.
  - intros (c & co & Hr & Hc & Ht). by eapply exit_keeps.
Qed.

(** ** Runs *)

Fixpoint sys_run (es : list sys_event) : ST world unit :=
  match es with
  | [] => ret tt
  | e :: es => do! sys_exec e in sys_run es
  end.

(** Each event is enabled in the state the events before it lead to. *)
Fixpoint sys_allowed (w : world) (es : list sys_event) : Prop :=
  match es with
  | [] => True
  | e :: es => sys_enabled w e /\ few w /\
      match sys_exec e w with Ok (_, w') => sys_allowed w' es | Err _ => True end
  end.

Lemma sys_run_keeps es : forall w, sys_inv w -> sys_allowed w es ->
  exists w', sys_run es w = Ok (tt, w') /\ sys_inv w'.
Proof.
  induction es as [|e es IH]; intros w Y A; [by exists w|]. cbn in A. destruct A as (He & Hf & A).
  destruct (sys_step w e Y Hf He) as (w1 & E & Y1). rewrite E in A.
  destruct (IH w1 Y1 A) as (w' & E' & Y'). exists w'. split; [|done].
  cbn. by rewrite (bind_ok _ _ _ _ _ E).
Qed.

(** ** The booted system *)

Lemma boot_sys_inv np raw init scheds :
  (0 < np)%nat -> Z.of_nat np < 2 ^ 31 -> length raw = np -> length scheds = np ->
  Forall vpu_shape raw -> NoDup (init :: scheds) ->
  exists w, coroc_vpu_initialize (Z.of_nat np) raw init scheds zero_world = Ok (tt, w) /\ sys_inv w.
Proof.
  intros Hnp Hb Hraw Hsc Hsh ND.
  destruct (vpu_initialize_inv np raw init scheds) as (w & E & I & Hth & Hco & Hs); [done..|].
  exists w. split; [done|]. apply NoDup_cons in ND as [Hi ND].
  assert (forall v t, threads w !! v = Some t -> exists s, scheds !! v = Some s /\ t = (Some s, Some s)) as HT.
  { intros v t Hv. rewrite Hth, list_lookup_fmap in Hv. apply fmap_Some in Hv as (s & ? & ->). eauto. }
  split.
  - exists (<[3%nat := [init]]> (fun _ => [])), [init]. split; [done|]. intros c co Hc Hr.
    destruct (Hco c co Hc) as [(-> & _)|(_ & _ & E1)]; [|congruence].
    exists 3%nat. split; [lia|]. rewrite fn_lookup_insert. by left.
  - split.
    + intros v t (s & Hv & ->)%HT. apply list_elem_of_lookup_2 in Hv as Hin.
      destruct (Hs s Hin) as [sco Hsco]. exists s, sco. split_and!; [done|done|].
      destruct (Hco s sco Hsco) as [(-> & _)|(_ & ? & _)]; done.
    + intros v t (s & _ & ->)%HT. by left.
    + intros v1 v2 t1 t2 (s1 & H1 & ->)%HT (s2 & H2 & ->)%HT [= <-]. by eapply NoDup_lookup.
    + intros v1 v2 t1 t2 (s1 & H1 & ->)%HT (s2 & H2 & ->)%HT [= <-]. by eapply NoDup_lookup.
    + intros c co Hc Hr. destruct (Hco c co Hc) as [(_ & _ & ? & _)|(_ & _ & ?)]; congruence.
    + intros c co Hc Ht. destruct (Hco c co Hc) as [(_ & ? & _)|(_ & _ & ?)]; congruence.
    + intros c co Hc Ht. destruct (Hco c co Hc) as [(_ & _ & _ & ->)|(_ & ? & _)];
        [unfold TSC_PRIO_LOW; lia|congruence].
Qed.

(** ** Deciding what is enabled *)

Definition runsb (w : world) (v : nat) : option coid :=
  match threads w !! v with
  | Some (Some c, s) => if bool_decide (s = Some c) then None else Some c
  | _ => None
  end.
Definition idlesb (w : world) (v : nat) : bool :=
  match threads w !! v with Some (c, s) => bool_decide (c = s) | None => false end.

Definition sys_enabledb (w : world) (e : sys_event) : bool :=
  match e with
  | ev_enter v | ev_pass v => idlesb w v
  | ev_yield v => bool_decide (is_Some (runsb w v))
  | ev_suspend v ls h => bool_decide (is_Some (runsb w v)) && bool_decide (NoDup ls) &&
      forallb (fun l => bool_decide (locks w !! l = Some true)) ls
  | ev_ready me c preempt =>
      match coros w !! c with
      | Some co => negb (is_idle (ctype co)) && bool_decide (status co = TSC_COROUTINE_WAIT)
      | None => false
      end &&
      match me with
      | None => true
      | Some v => bool_decide (is_Some (runsb w v)) || (idlesb w v && negb preempt)
      end
  | ev_spawn v c prio => bool_decide (is_Some (runsb w v)) && bool_decide (coros w !! c = None) &&
      (0 <=? prio) && (prio <? 4) && (Z.of_nat (size (coros w)) + 2 <? 2 ^ 32)
  | ev_exit v value =>
      match runsb w v with
      | Some c => match coros w !! c with
                  | Some co => bool_decide (ctype co = TSC_COROUTINE_NORMAL)
                  | None => false
                  end
      | None => false
      end
  end.

Lemma runsb_sound w v c : runsb w v = Some c -> runs w v c.
Proof.
  unfold runsb, runs. destruct (threads w !! v) as [[[d|] s]|]; try done.
  case_bool_decide; [done|]. intros [= <-]. eauto.
Qed.
Lemma runsb_some w v : bool_decide (is_Some (runsb w v)) = true -> exists c, runs w v c.
Proof. intros [c Hc]%bool_decide_eq_true. exists c. by apply runsb_sound. Qed.
Lemma idlesb_sound w v : idlesb w v = true -> idles w v.
Proof.
  unfold idlesb, idles. destruct (threads w !! v) as [[c s]|]; [|done].
  intros ->%bool_decide_eq_true. eauto.
Qed.

Lemma sys_enabledb_sound w e : sys_enabledb w e = true -> sys_enabled w e.
Proof.
  destruct e as [v|v|v|v ls h|me c pre|v c prio|v value]; cbn [sys_enabled sys_enabledb];
    rewrite ?andb_true_iff.
  1,2: apply idlesb_sound.
  - apply runsb_some.
  - intros [[H1 H2%bool_decide_eq_true] H3]. split_and!; [by apply runsb_some|done|].
    rewrite forallb_forall in H3. intros l Hl. apply (bool_decide_eq_true_1 _), H3.
    by apply list_elem_of_In.
  - intros [H1 H2]. split.
    + destruct (coros w !! c) as [co|]; [|done]. exists co.
      apply andb_true_iff in H1 as [H1%negb_true_iff%bool_decide_eq_false H1'%bool_decide_eq_true]. done.
    + destruct me as [v|]; [|done]. apply orb_true_iff in H2 as [H2|H2]; [left; by apply runsb_some|].
      apply andb_true_iff in H2 as [H2 H3%negb_true_iff]. right. split; [by apply idlesb_sound|done].
  - intros [[[[H1 H2%bool_decide_eq_true] ?] ?] ?]. split_and!; [by apply runsb_some|done|lia..].
  - destruct (runsb w v) as [c|] eqn:Hr; [|done]. destruct (coros w !! c) as [co|] eqn:Hc; [|done].
    intros ?%bool_decide_eq_true. exists c, co. split_and!; [by apply runsb_sound|done..].
Qed.

Fixpoint sys_allowedb (w : world) (es : list sys_event) : bool :=
  match es with
  | [] => true
  | e :: es => sys_enabledb w e && (Z.of_nat (size (coros w)) + 2 <? 2 ^ 32) &&
      match sys_exec e w with Ok (_, w') => sys_allowedb w' es | Err _ => true end
  end.

Lemma sys_allowedb_sound es : forall w, sys_allowedb w es = true -> sys_allowed w es.
Proof.
  induction es as [|e es IH]; intros w; [done|]. cbn [sys_allowed sys_allowedb].
  rewrite !andb_true_iff. intros [[H1 H2] H3].
  split_and!; [by apply sys_enabledb_sound|unfold few; lia|].
  destruct (sys_exec e w) as [[]|]; [by apply IH|done].
Qed.

(** ** A machine with two VPUs *)

Definition raw_vpu : vpu :=
  mk_vpu 0 0 0 0 None None (replicate 4 (mk_pq 0 (replicate 512 None) 0 0)) None.
Definition boot2 : world :=
  match coroc_vpu_initialize 2 [raw_vpu; raw_vpu] 1 [2; 3]%nat zero_world with
  | Ok (_, w) => w
  | Err _ => zero_world
  end.

Lemma raw_shape : vpu_shape raw_vpu.
Proof. split; [done|]. by apply Forall_replicate. Qed.

Lemma boot2_ok : coroc_vpu_initialize 2 [raw_vpu; raw_vpu] 1 [2; 3]%nat zero_world = Ok (tt, boot2) /\
  sys_inv boot2.
Proof.
  destruct (boot_sys_inv 2 [raw_vpu; raw_vpu] 1 [2; 3]%nat) as (w & E & Y);
    [lia|lia|done|done|repeat constructor; apply raw_shape| |].
  { apply (bool_decide_unpack _). vm_compute. exact I. }
  change (Z.of_nat 2) with 2 in E. unfold boot2. rewrite E. split; [reflexivity|exact Y].
Qed.

(** The main coroutine starts on VPU 0, creates a coroutine of high priority
    (and is put back for it), VPU 1 and VPU 0 start the two. *)
Definition demo_events : list sys_event :=
  [ev_enter 0; ev_pass 0; ev_spawn 0 10%nat 1; ev_enter 1; ev_pass 1; ev_enter 0; ev_pass 0;
   ev_suspend 1 [] unlock_lock_release; ev_ready (Some 0%nat) 10%nat true; ev_pass 1; ev_exit 1 0].


(** ** What the operations do, in terms of coroutines and VPUs *)

Lemma runs_of_threads (w w' : world) v c s :
  threads w' = alter (run_on (Some c)) v (threads w) -> threads w !! v = Some (s, s) -> s <> Some c ->
  runs w' v c.
Proof. intros E Hv Hs. exists s. by rewrite E, list_lookup_alter_eq, Hv. Qed.

Lemma idles_of_threads (w w' : world) v c s :
  threads w' = alter (run_on s) v (threads w) -> threads w !! v = Some (c, s) -> idles w' v.
Proof. intros E Hv. exists s. by rewrite E, list_lookup_alter_eq, Hv. Qed.

(** Nothing of level [q] is in the global queue or in the private queue of [v]. *)
Definition level_idle (w : world) (v q : nat) : Prop :=
  (qstatus <$> queues (links w) !! Some q) = Some 0 /\
  exists vp pq, vpus w !! v = Some vp /\ xt vp !! q = Some pq /\ runqhead pq = runqtail pq.

Lemma level_idle_rep w G P Tr v q :
  queues_rep w G P Tr -> (v < length (vpus w))%nat -> (q < NP)%nat ->
  G q = [] -> P (v, q) = [] -> level_idle w v q.
Proof.
  intros QR Hv Hq HG HP. split.
  - pose proof (fwd_queue _ _ _ _ (lr_glob _ _ _ (qr_links _ _ _ _ QR) q Hq)) as E.
    rewrite HG in E. by rewrite E.
  - destruct (privs_rep_at _ _ v q (qr_privs _ _ _ _ QR) Hv Hq) as (pq & vp & Hvp & Hpq).
    exists vp, pq. split_and!; [done|done|].
    destruct (pr_runq _ _ (qr_privs _ _ _ _ QR) v q pq) as [RQ _]; [by exists vp|].
    rewrite HP in RQ. rewrite (rq_tail _ _ RQ). cbn. rewrite Z.add_0_r, u32_small; [done|].
    apply RQ.
Qed.

Lemma sys_inv_locks w L : sys_inv w -> sys_inv (set_locks L w).
Proof.
  intros [(R & Tr & I & HR) T]. split; [|exact T].
  exists R, Tr. split; [|exact HR]. apply (co_inv_same w); [done|by split|done].
Qed.

Lemma pass_result w v :
  sys_inv w -> idles w v -> few w ->
  exists r w', sched_scan (fun _ => ret false) prio_levels v w = Ok (r, w') /\
    match r with
    | Some c => exists co, coros w !! c = Some co /\ status co = TSC_COROUTINE_READY /\
        runs w' v c /\ coros w' = <[c := set_running (Z.of_nat v) co]> (coros w) /\
        forall q, (Z.of_nat q < priority co) -> level_idle w v q
    | None => coros w' = coros w /\ idles w' v /\ forall q, (q < NP)%nat -> level_idle w v q
    end.
Proof.
  intros [(R & Tr & I & HR) T] Hi Hf. pose proof (idles_inv _ _ Hi) as Hv. destruct Hi as [s Hs].
  pose proof (ci_sched _ _ _ I) as S. destruct (si_queues _ _ _ S) as (G & P & QR & HRq).
  destruct (sched_scan_quiet (fun _ => ret false) v 4 ltac:(done) 0 w R Tr G P)
    as (r & w' & E & Hr); [done..|unfold few in Hf; lia|intros; lia|].
  exists r, w'. split; [done|]. destruct r as [c|].
  - destruct Hr as (p & (R' & co & Hp & HRp & S' & Hc & Hpr & Hco & Hth) & Hlow).
    destruct (si_tasks _ _ _ S p c Hp) as (co' & Hc' & Hst & _); [rewrite HRp; by left|].
    assert (co' = co) as -> by congruence. exists co. split_and!; [done|done| |done|].
    + eapply runs_of_threads; [done..|]. intros ->.
      destruct (ti_sched _ _ T _ _ Hs) as (x & sco & E1 & E2 & E3). cbn in E1. injection E1 as <-.
      pose proof (ti_idle _ _ T _ _ E2 E3). congruence.
    + intros q Hq. rewrite Hpr in Hq.
      destruct (Hlow q) as [HG HP]; [lia|]. eapply level_idle_rep; [done|done|lia|done|done].
  - destruct Hr as (S' & Hco & Hth & Hlow). split_and!; [done|exists s; by rewrite Hth|].
    intros q Hq. destruct (Hlow q Hq). by eapply level_idle_rep.
Qed.

Lemma suspend_result w v c ls h :
  sys_inv w -> runs w v c -> NoDup ls -> (forall l, l ∈ ls -> locks w !! l = Some true) ->
  exists w', vpu_suspend v ls h w = Ok (tt, w') /\ sys_inv w' /\ idles w' v /\
    (status <$> coros w' !! c) = Some TSC_COROUTINE_WAIT /\
    (forall l, l ∈ ls -> locks w' !! l = Some false) /\
    (forall l, l ∉ ls -> locks w' !! l = locks w !! l).
Proof.
  intros Y Hr ND Hl. destruct (suspend_keeps w v c ls h) as (w' & E & Y'); [done..|].
  destruct (runs_inv _ _ _ Y Hr) as (vp & co & p & Hv & Hcur & Ht & Hc & Hty & Hs & Hp & Hp4).
  destruct Y as [(R & Tr & I & HR) T].
  destruct (vpu_suspend_rep w R Tr v vp c co ls h) as (w2 & E2 & _ & Hco & Hvp & H1 & H2 & _);
    [apply I|done..|].
  assert (w2 = w') as -> by congruence. exists w'. split_and!; try done.
  - apply (idles_of_threads w w' v (Some c) (scheduler vp)); [|done]. unfold threads at 1.
    rewrite Hvp. by apply (threads_insert w v vp).
  - by rewrite Hco, lookup_insert_eq.
Qed.

Lemma ready_preempt_result w v cur curco c co :
  sys_inv w -> few w -> runs w v cur -> coros w !! cur = Some curco ->
  coros w !! c = Some co -> ctype co <> TSC_COROUTINE_IDLE -> status co = TSC_COROUTINE_WAIT ->
  exists w', vpu_ready (Some v) c true w = Ok (tt, w') /\ sys_inv w' /\
    (status <$> coros w' !! c) = Some TSC_COROUTINE_READY /\
    if (priority co <? priority curco) && (alive (mgr w) =? xt_index (mgr w))
    then idles w' v /\ (status <$> coros w' !! cur) = Some TSC_COROUTINE_READY
    else runs w' v cur /\ coros w' !! cur = Some curco.
Proof.
  intros Y Hf Hr Hcc0 Hc Hty Hs. destruct (ready_preempt_keeps w v cur c co) as (w' & E & Y'); [done..|].
  destruct (runs_inv _ _ _ Y Hr) as (vp & x & q & Hv & Hcur & Ht & Hcc & Hcty & Hcs & Hcp & Hq4).
  assert (x = curco) as -> by congruence.
  destruct Y as [(R & Tr & I & HR) T]. pose proof (total_few _ _ _ I Hf).
  pose proof (ti_prio _ _ T _ _ Hc Hty). assert (cur <> c) as Hne by congruence.
  destruct (vpu_ready_preempt w R Tr v vp cur curco q c co (Z.to_nat (priority co)))
    as (w2 & E2 & H'); [apply I|done|done|lia|lia|done..|].
  assert (w2 = w') as -> by congruence. exists w'. cbn zeta in H'.
  replace (Z.to_nat (priority co) <? q)%nat with (priority co <? priority curco) in H'
    by (destruct (Z.ltb_spec (priority co) (priority curco)), (Nat.ltb_spec (Z.to_nat (priority co)) q);
        lia || done).
  split_and!; [done|done| |].
  - destruct (_ && _)%bool; destruct H' as (_ & -> & _);
      by rewrite ?(lookup_insert_ne _ cur c) by done; rewrite ?lookup_insert_eq.
  - destruct (_ && _)%bool; destruct H' as (_ & Hco & Hth).
    + split; [by eapply (idles_of_threads w w')|]. by rewrite Hco, lookup_insert_eq.
    + split; [destruct Hr as (s & ? & ?); exists s; by rewrite Hth|].
      by rewrite Hco, lookup_insert_ne.
Qed.

(** ** The theorems *)





(** A poller that wakes the waiting coroutine [10] when it is called first. *)
Definition waking_poller (t : Z) : ST world bool :=
  let! w := get in
  match coros w !! 10%nat with
  | Some co => if bool_decide (status co = TSC_COROUTINE_WAIT /\ 0 <= priority co < 4)
               then do! vpu_ready (Some 0%nat) 10 false in ret true else ret false
  | None => ret false
  end.

Lemma waking_poller_safe : polling_safe waking_poller.
Proof.
  intros t w R Tr S Hsz. unfold waking_poller. rewrite (bind_ok _ _ _ w w) by done.
  destruct (coros w !! 10%nat) as [co|] eqn:Hc; [|by exists false, w, R].
  case_bool_decide as H; [|by exists false, w, R]. destruct H as [Hs Hp].
  pose proof (sched_inv_size_lt _ _ _ _ _ S Hc ltac:(by rewrite Hs)) as Hsize.
  pose proof (vw_bound _ (si_vpus _ _ _ S)). pose proof (vw_index _ (si_vpus _ _ _ S)).
  destruct (vpu_ready_plain (Some 0%nat) false w R Tr 10 co (Z.to_nat (priority co)))
    as (w' & E & S' & Hco & [_ Hth]); [by right|done|done|done|lia|lia|lia|intros ? [= <-]; lia|].
  exists true, w', (<[Z.to_nat (priority co) := 10%nat :: R (Z.to_nat (priority co))]> R).
  split_and!; [by rewrite (bind_ok _ _ _ _ _ E)|done| | |].
  - intros p. destruct (decide (Z.to_nat (priority co) = p)) as [<-|].
    + rewrite fn_lookup_insert. by apply submseteq_cons.
    + by rewrite fn_lookup_insert_ne.
  - pose proof (f_equal length Hth) as EL. by rewrite !length_fmap in EL.
  - rewrite Hco. rewrite dom_insert_L. apply (elem_of_dom_2 (D := gset coid)) in Hc. set_solver.
Qed.

(** The state after the coroutine 10 was created, started on VPU 1 and suspended. *)
Definition demo_waiting : world :=
  match sys_run (take 8 demo_events) boot2 with Ok (_, w) => w | Err _ => zero_world end.

Lemma demo_waiting_inv : sys_inv demo_waiting.
Proof.
  destruct (sys_run_keeps (take 8 demo_events) boot2) as (w & E & Y);
    [apply boot2_ok|apply sys_allowedb_sound; vm_compute; reflexivity|].
  unfold demo_waiting. rewrite E. exact Y.
Qed.

Lemma pass_with_network_witness :
  exists R Tr r w' R1, sched_scan waking_poller prio_levels 1 demo_waiting = Ok (r, w') /\
    (forall p, R p ⊆+ R1 p) /\
    match r with
    | Some c => exists w1 p, started w1 1 p c R1 Tr w'
    | None => sched_inv w' R1 Tr
    end.
Proof.
  destruct (sy_inv _ demo_waiting_inv) as (R & Tr & I & _). exists R, Tr.
  apply (pass_with_network waking_poller 1 demo_waiting R Tr waking_poller_safe (ci_sched _ _ _ I)).
  - vm_compute. lia.
  - vm_compute. reflexivity.
Defined.

(** Making a WAITing coroutine ready from a running one: it becomes READY;
    if it is more urgent than the caller and no VPU sleeps, the caller is put
    back into the run queues and its VPU is in the scheduler; otherwise the
    caller goes on. *)
Theorem ready_preempts w v cur curco c co :
  sys_inv w -> few w -> runs w v cur -> coros w !! cur = Some curco ->
  coros w !! c = Some co -> ctype co <> TSC_COROUTINE_IDLE -> status co = TSC_COROUTINE_WAIT ->
  exists w', vpu_ready (Some v) c true w = Ok (tt, w') /\ sys_inv w' /\
    (status <$> coros w' !! c) = Some TSC_COROUTINE_READY /\
    if (priority co <? priority curco) && (alive (mgr w) =? xt_index (mgr w))
    then idles w' v /\ (status <$> coros w' !! cur) = Some TSC_COROUTINE_READY
    else runs w' v cur /\ coros w' !! cur = Some curco.
Proof. apply ready_preempt_result. Qed.

Definition demo_co (c : coid) : coroutine :=
  from_option (fun x => x) (new_coroutine 0 TSC_COROUTINE_IDLE 0 0) (coros demo_waiting !! c).

(** The waiting coroutine (level 1) is more urgent than the main one (level 3). *)
Lemma ready_preempts_witness :
  exists w', vpu_ready (Some 0%nat) 10 true demo_waiting = Ok (tt, w') /\ sys_inv w' /\
    (status <$> coros w' !! 10%nat) = Some TSC_COROUTINE_READY /\
    idles w' 0 /\ (status <$> coros w' !! 1%nat) = Some TSC_COROUTINE_READY.
Proof.
  apply (ready_preempts demo_waiting 0 1 (demo_co 1) 10 (demo_co 10) demo_waiting_inv).
  - vm_compute. reflexivity.
  - apply runsb_sound. vm_compute. reflexivity.
  - vm_compute. reflexivity.
  - vm_compute. reflexivity.
  - vm_compute. discriminate.
  - vm_compute. reflexivity.
Defined.

(** Suspending the running coroutine: it is WAITing and in no run queue,
    the locks it handed over are released only now that its context is saved,
    no other lock is touched, and the VPU is in its scheduler. *)
Theorem suspend_releases w v c ls h :
  sys_inv w -> runs w v c -> NoDup ls -> (forall l, l ∈ ls -> locks w !! l = Some true) ->
  exists w', vpu_suspend v ls h w = Ok (tt, w') /\ sys_inv w' /\ idles w' v /\
    (status <$> coros w' !! c) = Some TSC_COROUTINE_WAIT /\
    (forall l, l ∈ ls -> locks w' !! l = Some false) /\
    (forall l, l ∉ ls -> locks w' !! l = locks w !! l).
Proof. apply suspend_result. Qed.

Definition demo_locked : world := set_locks {[5 := true; 7 := true; 9 := true]} demo_waiting.

Lemma demo_locked_inv : sys_inv demo_locked.
Proof. apply sys_inv_locks, demo_waiting_inv. Qed.

Lemma suspend_releases_witness :
  exists w', vpu_suspend 0 [7; 9] unlock_lock_chain_release demo_locked = Ok (tt, w') /\
    sys_inv w' /\ idles w' 0 /\ (status <$> coros w' !! 1%nat) = Some TSC_COROUTINE_WAIT /\
    (forall l, l ∈ [7; 9] -> locks w' !! l = Some false) /\
    (forall l, l ∉ [7; 9] -> locks w' !! l = locks demo_locked !! l).
Proof.
  apply (suspend_releases demo_locked 0 1 [7; 9] unlock_lock_chain_release demo_locked_inv).
  - apply runsb_sound. vm_compute. reflexivity.
  - apply (bool_decide_unpack _). vm_compute. exact I.
  - intros l Hl. apply elem_of_cons in Hl as [->|Hl]; [reflexivity|].
    apply list_elem_of_singleton in Hl as ->. reflexivity.
Defined.

(** ** The report of a deadlock

    [vpu_backtrace] puts the suspended coroutines into the private run queues
    without counting them in [ready[]]: the next pass skips every level, and
    the coroutines are not run. *)
Definition boot1 : world :=
  match coroc_vpu_initialize 1 [raw_vpu] 1 [2]%nat zero_world with
  | Ok (_, w) => w
  | Err _ => zero_world
  end.

Example backtrace_not_scheduled :
  match sys_run [ev_enter 0; ev_pass 0; ev_suspend 0 [] unlock_lock_release] boot1 with
  | Ok (_, w) =>
      match sched_idle (fun _ => 0) 10 0 1 w with
      | Ok ((idle_backtrace, _), w1) =>
          (exists vp pq, vpus w1 !! 0%nat = Some vp /\ xt vp !! 3%nat = Some pq /\
             runqtail pq - runqhead pq = 1) /\
          exists w2, sched_scan (fun _ => ret false) prio_levels 0 w1 = Ok (None, w2)
      | _ => False
      end
  | Err _ => False
  end.
Proof. vm_compute. split; [eauto 10|eauto]. Qed.
