(* ===== verification/Channel.v ===== *)
(** * Channels (src/channel.c, include/inter/channel.h, lock_chain.h)

    A channel is named by its address, a quantum (a coroutine's place in a
    wait queue) by its own.  The wait queues are intrusive queues of Queue.v
    whose items are the quanta.  Memory the program passes in is a table of
    blocks of bytes; the buffer of a channel is a block of
    [elemsize * bufsize] bytes of its own.

    An operation that blocks ends with its coroutine suspended ([Blocks q]);
    the rest of the C function, after [vpu_suspend] returns, is the [_resume]
    function.  [Sched] is what the channels use of the scheduler. *)

From S2P Require Import Prelude Queue.

Abbreviation chid := nat (only parsing).
Abbreviation qid := nat (only parsing).
Abbreviation ptr := nat (only parsing).
Abbreviation coid := nat (only parsing).

Definition CHAN_SUCCESS : Z := 0.
Definition CHAN_AWAKEN : Z := 1.
Definition CHAN_BUSY : Z := 2.
Definition CHAN_CLOSED : Z := 4.

(** ** The interface of the scheduler

    The operations of the scheduler the channels call, by the running
    coroutine [self]. *)
Class SchedOps (S : Type) := {
  sc_ok : S -> Prop;
  sc_waiting : S -> coid -> Prop;
  sc_running : S -> coid -> Prop;
  sc_ready : coid -> coid -> ST S unit;      (* vpu_ready(c, false) by self *)
  sc_suspend : coid -> ST S unit             (* vpu_suspend by self *)
}.

(** Waking a suspended coroutine succeeds, waking another one fails its
    assertion; suspending the running coroutine makes it, and only it, wait. *)
Class SchedLaws (S : Type) `{SchedOps S} := {
  sc_disjoint s c : sc_ok s -> sc_waiting s c -> sc_running s c -> False;
  sc_ready_spec s self c : sc_ok s -> sc_running s self -> sc_waiting s c ->
    exists s', sc_ready self c s = Ok (tt, s') /\ sc_ok s' /\
      (forall d, sc_waiting s' d <-> sc_waiting s d /\ d <> c) /\
      (forall d, sc_running s' d <-> sc_running s d);
  sc_ready_asserts s self c : sc_ok s -> sc_running s self -> sc_running s c ->
    sc_ready self c s = Err AssertFail;
  sc_suspend_spec s self : sc_ok s -> sc_running s self ->
    exists s', sc_suspend self s = Ok (tt, s') /\ sc_ok s' /\
      (forall d, sc_waiting s' d <-> sc_waiting s d \/ d = self) /\
      (forall d, sc_running s' d <-> sc_running s d /\ d <> self)
}.

(** ** Data *)

Record quantum := mk_quantum {
  q_close : bool;
  q_select : bool;
  q_chan : chid;
  q_coroutine : coid;
  q_itembuf : option ptr
}.
Definition set_q_close (q : quantum) : quantum :=
  mk_quantum true (q_select q) (q_chan q) (q_coroutine q) (q_itembuf q).

(** The two wait queues of a channel. *)
Inductive dir : Type := recv_que | send_que.
#[export] Instance dir_eq_dec : EqDecision dir.
Proof. solve_decision. Defined.
#[export] Instance dir_countable : Countable dir.
Proof.
  refine (inj_countable' (fun k => match k with recv_que => true | send_que => false end)
            (fun b : bool => if b then recv_que else send_que) _). by intros [].
Defined.

(** [struct coroc_chan] with the fields of [struct coroc_buffered_chan];
    [buffered] tells whether [copy_to_buff] and [copy_from_buff] are set. *)
Record chan := mk_chan {
  close : bool;
  select : bool;
  clock : bool;
  isref : bool;
  elemsize : Z;
  buffered : bool;
  bufsize : Z;
  nbuf : Z;
  recvx : Z;
  sendx : Z;
  buf : list Z
}.

Definition set_close (c : chan) : chan :=
  mk_chan true (select c) (clock c) (isref c) (elemsize c) (buffered c) (bufsize c) (nbuf c)
    (recvx c) (sendx c) (buf c).
Definition set_select (c : chan) : chan :=
  mk_chan (close c) true (clock c) (isref c) (elemsize c) (buffered c) (bufsize c) (nbuf c)
    (recvx c) (sendx c) (buf c).
Definition set_clock (b : bool) (c : chan) : chan :=
  mk_chan (close c) (select c) b (isref c) (elemsize c) (buffered c) (bufsize c) (nbuf c)
    (recvx c) (sendx c) (buf c).
(** the indices and the bytes of the buffer *)
Definition set_ring (n r s : Z) (b : list Z) (c : chan) : chan :=
  mk_chan (close c) (select c) (clock c) (isref c) (elemsize c) (buffered c) (bufsize c) n r s b.

Section channels.
Context {S : Type} `{SchedOps S}.
(** The calling coroutine. *)
Variable self : coid.

Record chworld := mk_chworld {
  chans : gmap chid chan;
  quanta : gmap qid quantum;
  cques : qstore qid (chid * dir) qid;
  qtag : gmap coid (option chid);
  cmem : gmap ptr (list Z);
  puts : list (list Z);      (* the elements whose reference was dropped *)
  sch : S
}.

Definition set_chans v w := mk_chworld v (quanta w) (cques w) (qtag w) (cmem w) (puts w) (sch w).
Definition set_quanta v w := mk_chworld (chans w) v (cques w) (qtag w) (cmem w) (puts w) (sch w).
Definition set_cques v w := mk_chworld (chans w) (quanta w) v (qtag w) (cmem w) (puts w) (sch w).
Definition set_qtag v w := mk_chworld (chans w) (quanta w) (cques w) v (cmem w) (puts w) (sch w).
Definition set_cmem v w := mk_chworld (chans w) (quanta w) (cques w) (qtag w) v (puts w) (sch w).
Definition set_puts v w := mk_chworld (chans w) (quanta w) (cques w) (qtag w) (cmem w) v (sch w).
Definition set_sch v w := mk_chworld (chans w) (quanta w) (cques w) (qtag w) (cmem w) (puts w) v.

Definition get_chan (c : chid) : ST chworld chan :=
  fun w => match chans w !! c with Some x => Ok (x, w) | None => Err Dangling end.
Definition upd_chan (c : chid) (f : chan -> chan) : ST chworld unit :=
  fun w => match chans w !! c with
           | Some x => Ok (tt, set_chans (<[c := f x]> (chans w)) w)
           | None => Err Dangling
           end.
Definition get_quantum (q : qid) : ST chworld quantum :=
  fun w => match quanta w !! q with Some x => Ok (x, w) | None => Err Dangling end.
Definition upd_quantum (q : qid) (f : quantum -> quantum) : ST chworld unit :=
  fun w => match quanta w !! q with
           | Some x => Ok (tt, set_quanta (<[q := f x]> (quanta w)) w)
           | None => Err Dangling
           end.
Definition on_ques {A} (m : ST (qstore qid (chid * dir) qid) A) : ST chworld A :=
  zoom cques set_cques m.
Definition on_sch {A} (m : ST S A) : ST chworld A := zoom sch set_sch m.
Definition vpu_ready' (co : coid) : ST chworld unit := on_sch (sc_ready self co).

(** [lock_acquire(&chan->lock)]: taking a lock twice never returns. *)
Definition lock_acquire (c : chid) : ST chworld unit :=
  let! ch := get_chan c in
  if clock ch then throw SelfDeadlock else upd_chan c (set_clock true).
Definition lock_release (c : chid) : ST chworld unit :=
  let! ch := get_chan c in
  do! assert_ (clock ch) in
  upd_chan c (set_clock false).

(** ** Bytes *)

(** [memcpy] of [n] bytes into a block at an offset. *)
Definition splice (dst : list Z) (off : nat) (src : list Z) : list Z :=
  take off dst ++ src ++ drop (off + length src) dst.

Definition read_block (p : ptr) (n : Z) : ST chworld (list Z) :=
  fun w => match cmem w !! p with
           | None => Err Dangling
           | Some b => if n <=? Z.of_nat (length b) then Ok (take (Z.to_nat n) b, w) else Err OutOfBounds
           end.
Definition write_block (p : ptr) (x : list Z) : ST chworld unit :=
  fun w => match cmem w !! p with
           | None => Err Dangling
           | Some b => if Z.of_nat (length x) <=? Z.of_nat (length b)
                       then Ok (tt, set_cmem (<[p := splice b 0 x]> (cmem w)) w) else Err OutOfBounds
           end.

(** [__chan_memcpy(dst, src, size)] between two blocks of the program. *)
Definition __chan_memcpy (dst src : option ptr) (size : Z) : ST chworld unit :=
  match dst, src with
  | Some d, Some s => let! x := read_block s size in write_block d x
  | _, _ => ret tt
  end.

(** [__chan_memcpy] from and to a slot of the channel's buffer. *)
Definition slot_off (ch : chan) (i : Z) : nat := Z.to_nat (elemsize ch * i).
Definition buf_write (c : chid) (i : Z) (src : option ptr) : ST chworld unit :=
  let! ch := get_chan c in
  match src with
  | None => ret tt
  | Some s =>
      let! x := read_block s (elemsize ch) in
      if decide (slot_off ch i + length x <= length (buf ch))%nat
      then upd_chan c (fun ch => set_ring (nbuf ch) (recvx ch) (sendx ch) (splice (buf ch) (slot_off ch i) x) ch)
      else throw OutOfBounds
  end.
Definition buf_read (c : chid) (i : Z) : ST chworld (list Z) :=
  let! ch := get_chan c in
  if decide (slot_off ch i + Z.to_nat (elemsize ch) <= length (buf ch))%nat
  then ret (take (Z.to_nat (elemsize ch)) (drop (slot_off ch i) (buf ch)))
  else throw OutOfBounds.

(** ** The buffer *)

Definition __coroc_copy_to_buff (c : chid) (src : option ptr) : ST chworld bool :=
  let! ch := get_chan c in
  if nbuf ch <? bufsize ch then
    do! buf_write c (sendx ch) src in
    do! upd_chan c (fun ch => set_ring (nbuf ch + 1) (recvx ch)
                               (Z.rem (sendx ch + 1) (bufsize ch)) (buf ch) ch) in
    ret true
  else ret false.

Definition __coroc_copy_from_buff (c : chid) (dst : option ptr) : ST chworld bool :=
  let! ch := get_chan c in
  if 0 <? nbuf ch then
    let! x := buf_read c (recvx ch) in
    do! (match dst with Some d => write_block d x | None => ret tt end) in
    do! upd_chan c (fun ch => set_ring (nbuf ch - 1) (Z.rem (recvx ch + 1) (bufsize ch))
                               (sendx ch) (buf ch) ch) in
    ret true
  else ret false.

(** [coroc_refcnt_put] of the reference an element holds: the model records
    the element. *)
Fixpoint __coroc_clean_buff (fuel : nat) (c : chid) : ST chworld unit :=
  match fuel with
  | 0%nat => throw OutOfFuel
  | Datatypes.S fuel =>
      let! ch := get_chan c in
      if 0 <? nbuf ch then
        let! x := buf_read c (recvx ch) in
        do! modify (fun w => set_puts (puts w ++ [x]) w) in
        do! upd_chan c (fun ch => set_ring (nbuf ch - 1) (Z.rem (recvx ch + 1) (bufsize ch))
                                   (sendx ch) (buf ch) ch) in
        __coroc_clean_buff fuel c
      else ret tt
  end.

(** ** Creation *)

(** The element size is kept in a signed field of 31 bits. *)
Definition s31 (z : Z) : Z := (z + 2 ^ 30) mod 2 ^ 31 - 2 ^ 30.

Definition coroc_chan_init (c : chid) (elem : Z) (ref buffd : bool) (bs : Z) (bytes : list Z)
  : ST chworld unit :=
  do! modify (fun w => set_chans
       (<[c := mk_chan false false false ref (s31 elem) buffd bs 0 0 0 bytes]> (chans w)) w) in
  do! on_ques (queue_init (c, recv_que)) in
  on_ques (queue_init (c, send_que)).

(** [bytes]: what the allocation left in the block behind the structure. *)
Definition _coroc_chan_allocate (c : chid) (elem bs : Z) (ref : bool) (bytes : list Z)
  : ST chworld chid :=
  let ref' := (0 <? bs) && ref in
  do! (if 0 <? bs then coroc_chan_init c elem ref' true bs bytes
       else coroc_chan_init c elem ref' false 0 []) in
  ret c.

(** ** Waiting coroutines *)

Definition quantum_init (q : qid) (c : chid) (co : coid) (b : option ptr) (sel : bool)
  : ST chworld unit :=
  do! modify (fun w => set_quanta (<[q := mk_quantum false sel c co b]> (quanta w)) w) in
  on_ques (queue_item_init q (Some q)).

(** [TSC_CAS(&q->coroutine->qtag, NULL, q->chan)] *)
Definition cas_qtag (co : coid) (c : chid) : ST chworld bool :=
  fun w => match qtag w !! co with
           | None => Err Dangling
           | Some None => Ok (true, set_qtag (<[co := Some c]> (qtag w)) w)
           | Some (Some _) => Ok (false, w)
           end.

Fixpoint fetch_quantum (fuel : nat) (que : chid * dir) : ST chworld (option qid) :=
  match fuel with
  | 0%nat => throw OutOfFuel
  | Datatypes.S fuel =>
      let! q := on_ques (queue_rem que) in
      match q with
      | None => ret None
      | Some q =>
          let! qd := get_quantum q in
          if negb (q_select qd) then ret (Some q) else
          let! ok := cas_qtag (q_coroutine qd) (q_chan qd) in
          if (ok : bool) then ret (Some q) else fetch_quantum fuel que
      end
  end.

(** The number of items the loop of [fetch_quantum] can remove, and one more
    round that finds the queue empty. *)
Definition fetch (que : chid * dir) : ST chworld (option qid) :=
  let! qu := on_ques (get_queue que) in
  fetch_quantum (Datatypes.S (Z.to_nat (qstatus qu))) que.

(** ** Sending and receiving *)

(** [Done code], or the coroutine is now suspended with the quantum [q]. *)
Inductive outcome : Type := Done (code : Z) | Blocks.

Section blocking.
(** The quantum on the stack of the caller. *)
Variable q : qid.

(** The blocking branch: [quantum_init], [queue_add], [vpu_suspend]. *)
Definition block_on (c : chid) (d : dir) (b : option ptr) : ST chworld outcome :=
  do! quantum_init q c self b false in
  do! on_ques (queue_add (c, d) q) in
  do! on_sch (sc_suspend self) in
  do! lock_release c in
  ret Blocks.

Definition __coroc_chan_send (c : chid) (b : option ptr) (block : bool) : ST chworld outcome :=
  let! qp := fetch (c, recv_que) in
  match qp with
  | Some qp =>
      let! qd := get_quantum qp in
      let! ch := get_chan c in
      do! __chan_memcpy (q_itembuf qd) b (elemsize ch) in
      do! vpu_ready' (q_coroutine qd) in
      ret (Done CHAN_SUCCESS)
  | None =>
      let! ch := get_chan c in
      if close ch then ret (Done CHAN_CLOSED) else
      let! copied := (if buffered ch then __coroc_copy_to_buff c b else ret false) in
      if (copied : bool) then ret (Done CHAN_SUCCESS) else
      if block then block_on c send_que b else ret (Done CHAN_BUSY)
  end.

Definition __coroc_chan_recv (c : chid) (b : option ptr) (block : bool) : ST chworld outcome :=
  let! ch := get_chan c in
  let! copied := (if buffered ch then __coroc_copy_from_buff c b else ret false) in
  if (copied : bool) then ret (Done CHAN_SUCCESS) else
  let! qp := fetch (c, send_que) in
  match qp with
  | Some qp =>
      let! qd := get_quantum qp in
      do! __chan_memcpy b (q_itembuf qd) (elemsize ch) in
      do! vpu_ready' (q_coroutine qd) in
      ret (Done CHAN_SUCCESS)
  | None =>
      if close ch then ret (Done CHAN_CLOSED) else
      if block then block_on c recv_que b else ret (Done CHAN_BUSY)
  end.

(** After [vpu_suspend]: the lock again, then the code. *)
Definition block_resume (c : chid) : ST chworld Z :=
  do! lock_acquire c in
  let! qd := get_quantum q in
  ret (if q_close qd then CHAN_CLOSED else CHAN_AWAKEN).

Definition finish (c : chid) (r : outcome) : ST chworld outcome :=
  match r with
  | Done code => do! lock_release c in ret (Done code)
  | Blocks => ret Blocks
  end.

Definition _coroc_chan_send (c : chid) (b : option ptr) (block : bool) : ST chworld outcome :=
  do! lock_acquire c in
  let! r := __coroc_chan_send c b block in
  finish c r.

(** [None]: the channel inside the calling coroutine; [own] is its address. *)
Definition _coroc_chan_recv (own : chid) (c : option chid) (b : option ptr) (block : bool)
  : ST chworld outcome :=
  let c := from_option id own c in
  do! lock_acquire c in
  let! r := __coroc_chan_recv c b block in
  finish c r.

(** The end of a call that blocked; the quantum goes with the stack frame. *)
Definition chan_op_resume (c : chid) : ST chworld Z :=
  let! code := block_resume c in
  do! lock_release c in
  do! modify (fun w => set_quanta (delete q (quanta w)) w) in
  ret code.

End blocking.

(** ** Closing *)

Fixpoint close_queue (fuel : nat) (que : chid * dir) : ST chworld unit :=
  match fuel with
  | 0%nat => throw OutOfFuel
  | Datatypes.S fuel =>
      let! qp := fetch que in
      match qp with
      | None => ret tt
      | Some qp =>
          do! upd_quantum qp set_q_close in
          let! qd := get_quantum qp in
          do! vpu_ready' (q_coroutine qd) in
          close_queue fuel que
      end
  end.

Definition close_all (que : chid * dir) : ST chworld unit :=
  let! qu := on_ques (get_queue que) in
  close_queue (Datatypes.S (Z.to_nat (qstatus qu))) que.

Definition coroc_chan_close (c : chid) : ST chworld Z :=
  do! lock_acquire c in
  let! ch := get_chan c in
  let! r := (if close ch then ret CHAN_CLOSED else
    do! upd_chan c set_close in
    do! close_all (c, send_que) in
    do! close_all (c, recv_que) in
    let! ch := get_chan c in
    do! (if isref ch then __coroc_clean_buff (Datatypes.S (Z.to_nat (nbuf ch))) c else ret tt) in
    ret CHAN_SUCCESS) in
  do! lock_release c in
  ret r.

(** Releasing a channel: [_coroc_chan_dealloc]. *)
Definition _coroc_chan_dealloc (c : chid) : ST chworld unit :=
  do! coroc_chan_close c in
  modify (fun w => set_chans (delete c (chans w)) w).

(** ** Select *)

Inductive scase_type : Type := CHAN_SEND | CHAN_RECV.
Record coroc_scase := mk_scase { s_type : scase_type; s_chan : chid; s_buf : option ptr }.

(** [struct coroc_chan_set]; [size] is the number of cases. *)
Record coroc_chan_set := mk_set {
  sorted : bool;
  volume : Z;
  locks : list chid;
  cases : list coroc_scase
}.

Definition coroc_chan_set_init (n : Z) : coroc_chan_set := mk_set false n [] [].

Definition set_add (set : coroc_chan_set) (t : scase_type) (c : chid) (b : option ptr)
  : ST chworld coroc_chan_set :=
  do! assert_ (Z.of_nat (length (cases set)) <? volume set) in
  do! upd_chan c set_select in
  ret (mk_set (sorted set) (volume set) (locks set ++ [c]) (cases set ++ [mk_scase t c b])).
Definition coroc_chan_set_send (set : coroc_chan_set) (c : chid) (b : option ptr) :=
  set_add set CHAN_SEND c b.
Definition coroc_chan_set_recv (own : chid) (set : coroc_chan_set) (c : option chid) (b : option ptr) :=
  set_add set CHAN_RECV (from_option id own c) b.

(** [lock_chain_acquire]: [qsort] by address, once; then in that order. *)
Fixpoint acquire_all (ls : list chid) : ST chworld unit :=
  match ls with
  | [] => ret tt
  | l :: ls => do! lock_acquire l in acquire_all ls
  end.
Definition lock_chain_sort (set : coroc_chan_set) : coroc_chan_set :=
  if sorted set then set else mk_set true (volume set) (merge_sort Nat.le (locks set)) (cases set).
Definition lock_chain_acquire (set : coroc_chan_set) : ST chworld coroc_chan_set :=
  let set := lock_chain_sort set in
  do! acquire_all (locks set) in ret set.

Fixpoint release_each (ls : list chid) : ST chworld unit :=
  match ls with
  | [] => ret tt
  | l :: ls => do! lock_release l in release_each ls
  end.
Definition lock_chain_release (set : coroc_chan_set) : ST chworld unit :=
  release_each (reverse (locks set)).

Definition try_case (e : coroc_scase) : ST chworld outcome :=
  match s_type e with
  | CHAN_SEND => __coroc_chan_send 0 (s_chan e) (s_buf e) false
  | CHAN_RECV => __coroc_chan_recv 0 (s_chan e) (s_buf e) false
  end.

(** The first pass: the code of the last attempt, and the channel that was
    ready. *)
Fixpoint try_cases (es : list coroc_scase) (code : Z) : ST chworld (Z * option chid) :=
  match es with
  | [] => ret (code, None)
  | e :: es =>
      let! r := try_case e in
      match r with
      | Done code => if code =? CHAN_SUCCESS then ret (code, Some (s_chan e)) else try_cases es code
      | Blocks => throw AssertFail     (* a non-blocking attempt never blocks *)
      end
  end.

Definition case_que (e : coroc_scase) : chid * dir :=
  (s_chan e, match s_type e with CHAN_SEND => send_que | CHAN_RECV => recv_que end).

(** [qs]: the array of quanta, one per case. *)
Fixpoint add_quanta (es : list coroc_scase) (qs : list qid) : ST chworld unit :=
  match es, qs with
  | e :: es, q :: qs =>
      do! quantum_init q (s_chan e) self (s_buf e) true in
      do! on_ques (queue_add (case_que e) q) in
      add_quanta es qs
  | _, _ => ret tt
  end.

Inductive sel_outcome : Type :=
| SelDone (code : Z) (active : option chid)
| SelBlocks.

Definition _coroc_chan_set_select (qs : list qid) (set : coroc_chan_set) (block : bool)
  : ST chworld (sel_outcome * coroc_chan_set) :=
  match cases set with
  | [] => ret (SelDone (-1) None, set)
  | _ =>
      let! set := lock_chain_acquire set in
      let! '(code, active) := try_cases (cases set) 0 in
      if (code =? CHAN_SUCCESS) || negb block then
        do! lock_chain_release set in
        ret (SelDone code active, set)
      else
        do! modify (fun w => set_qtag (<[self := None]> (qtag w)) w) in
        do! add_quanta (cases set) qs in
        do! on_sch (sc_suspend self) in
        do! lock_chain_release set in
        ret (SelBlocks, set)
  end.

Fixpoint extract_quanta (es : list coroc_scase) (qs : list qid) (active : option chid) (code : Z)
  : ST chworld Z :=
  match es, qs with
  | e :: es, q :: qs =>
      let! qd := get_quantum q in
      let code := if bool_decide (active = Some (q_chan qd)) && q_close qd then CHAN_CLOSED else code in
      do! on_ques (queue_extract (case_que e) q) in
      extract_quanta es qs active code
  | _, _ => ret code
  end.

(** The part of select after [vpu_suspend]. *)
Definition select_resume (qs : list qid) (set : coroc_chan_set) : ST chworld (Z * option chid) :=
  let! set := lock_chain_acquire set in
  let! w := get in
  let! active := demand Dangling (qtag w !! self) in
  let! code := extract_quanta (cases set) qs active CHAN_SUCCESS in
  do! modify (fun w => set_quanta (foldr delete (quanta w) qs) w) in
  do! modify (fun w => set_qtag (<[self := None]> (qtag w)) w) in
  do! lock_chain_release set in
  ret (code, active).
End channels.
Arguments chworld : clear implicits.
