(* ===== verification/ChannelProps.v ===== *)
(** * Channels: buffers, wait queues and wake-ups (src/channel.c)

    [ring_rep]: the bytes of a channel's buffer as a list of elements.
    [ch_inv]: the state of all channels between operations: every lock is
    free, every quantum in a wait queue belongs to a coroutine that waits (or,
    for a select, has been chosen already and not yet woken up to clean up),
    and a coroutine has several quanta only through select. *)

From S2P Require Import Prelude Queue Channel.

(** ** The buffer as a list of elements *)

Definition elem_at (ch : chan) (i : Z) : list Z :=
  take (Z.to_nat (elemsize ch)) (drop (slot_off ch i) (buf ch)).

Record ring_rep (ch : chan) (els : list (list Z)) : Prop := {
  rr_elem : 0 < elemsize ch;
  rr_size : 0 < bufsize ch;
  rr_buf : Z.of_nat (length (buf ch)) = elemsize ch * bufsize ch;
  rr_nbuf : nbuf ch = Z.of_nat (length els);
  rr_cap : nbuf ch <= bufsize ch;
  rr_recvx : 0 <= recvx ch < bufsize ch;
  rr_sendx : sendx ch = (recvx ch + nbuf ch) mod bufsize ch;
  rr_at : forall k x, els !! k = Some x -> elem_at ch ((recvx ch + Z.of_nat k) mod bufsize ch) = x
}.

(** A channel without a buffer holds nothing, and owns no references. *)
Definition chan_rep (ch : chan) (els : list (list Z)) : Prop :=
  0 < elemsize ch /\ if buffered ch then ring_rep ch els else els = [] /\ isref ch = false.

Lemma splice_length dst off src :
  (off + length src <= length dst)%nat -> length (splice dst off src) = length dst.
Proof. intros. unfold splice. rewrite !length_app, length_take, length_drop. lia. Qed.

Lemma splice_same dst off src :
  (off + length src <= length dst)%nat -> take (length src) (drop off (splice dst off src)) = src.
Proof.
  intros. unfold splice. rewrite drop_app_length' by (rewrite length_take; lia).
  by rewrite take_app_length.
Qed.

Lemma splice_other dst off src o n :
  (off + length src <= length dst)%nat -> (o + n <= off \/ off + length src <= o)%nat ->
  take n (drop o (splice dst off src)) = take n (drop o dst).
Proof.
  intros Hl Ho. apply list_eq. intros i. destruct (decide (i < n)%nat).
  2: { by rewrite !lookup_take_ge by lia. }
  rewrite !lookup_take_lt, !lookup_drop by lia. unfold splice. destruct Ho.
  - rewrite lookup_app_l by (rewrite length_take; lia). by rewrite lookup_take_lt by lia.
  - rewrite lookup_app_r by (rewrite length_take; lia). rewrite length_take.
    rewrite lookup_app_r by lia. rewrite lookup_drop. f_equal. lia.
Qed.

Lemma slot_off_bound ch i :
  0 < elemsize ch -> 0 <= i < bufsize ch -> Z.of_nat (length (buf ch)) = elemsize ch * bufsize ch ->
  (slot_off ch i + Z.to_nat (elemsize ch) <= length (buf ch))%nat.
Proof. intros. unfold slot_off. nia. Qed.

Lemma slot_off_disjoint ch i j :
  0 < elemsize ch -> 0 <= i -> 0 <= j -> i <> j ->
  (slot_off ch j + Z.to_nat (elemsize ch) <= slot_off ch i \/
   slot_off ch i + Z.to_nat (elemsize ch) <= slot_off ch j)%nat.
Proof. intros. unfold slot_off. assert (j + 1 <= i \/ i + 1 <= j) as [|] by lia; nia. Qed.

Lemma elem_at_length ch i :
  0 < elemsize ch -> 0 <= i < bufsize ch -> Z.of_nat (length (buf ch)) = elemsize ch * bufsize ch ->
  length (elem_at ch i) = Z.to_nat (elemsize ch).
Proof.
  intros He Hi Hb. pose proof (slot_off_bound ch i He Hi Hb). unfold elem_at.
  rewrite length_take, length_drop. lia.
Qed.

Lemma mod_inj a j k n : 0 < n -> 0 <= j < n -> 0 <= k < n -> (a + j) mod n = (a + k) mod n -> j = k.
Proof.
  intros Hn Hj Hk E. pose proof (Z.div_mod (a + j) n). pose proof (Z.div_mod (a + k) n).
  assert ((a + j) / n = (a + k) / n) by nia. lia.
Qed.

Lemma rem_mod_pos a n : 0 <= a -> 0 < n -> Z.rem a n = a mod n.
Proof. intros. by apply Z.rem_mod_nonneg. Qed.

(** Storing at the send index appends. *)
Lemma ring_push ch els x :
  ring_rep ch els -> nbuf ch < bufsize ch -> Z.of_nat (length x) = elemsize ch ->
  ring_rep (set_ring (nbuf ch + 1) (recvx ch) (Z.rem (sendx ch + 1) (bufsize ch))
              (splice (buf ch) (slot_off ch (sendx ch)) x) ch) (els ++ [x]).
Proof.
  intros [He Hb Hl Hn Hc Hr Hs Ha] Hlt Hx.
  assert (0 <= sendx ch < bufsize ch) as Hsb by (rewrite Hs; by apply Z.mod_pos_bound).
  pose proof (slot_off_bound ch (sendx ch) He Hsb Hl) as Ho.
  assert (length x = Z.to_nat (elemsize ch)) as Hx' by lia.
  split; cbn; try done; try lia.
  - by rewrite splice_length by lia.
  - rewrite length_app, Hn. cbn. lia.
  - rewrite rem_mod_pos by lia. rewrite Hs, Zplus_mod_idemp_l. f_equal. lia.
  - intros k y [[Hk Hlk]|[-> ->]]%lookup_snoc_cases.
    + rewrite <- (Ha k y Hk). unfold elem_at. cbn.
      apply splice_other; [lia|]. rewrite Hx'.
      apply slot_off_disjoint; [done|lia|by apply Z.mod_pos_bound|].
      rewrite Hs, Hn. intros E%mod_inj; lia.
    + rewrite <- Hn, <- Hs. unfold elem_at. cbn. rewrite <- Hx'. by apply splice_same; lia.
Qed.

Lemma ring_pop ch x els :
  ring_rep ch (x :: els) ->
  elem_at ch (recvx ch) = x /\
  ring_rep (set_ring (nbuf ch - 1) (Z.rem (recvx ch + 1) (bufsize ch)) (sendx ch) (buf ch) ch) els.
Proof.
  intros [He Hb Hl Hn Hc Hr Hs Ha]. cbn in Hn. split.
  - rewrite <- (Ha 0%nat x eq_refl), Z.add_0_r. by rewrite Z.mod_small.
  - rewrite rem_mod_pos by lia. split; cbn; try done; try lia.
    + by apply Z.mod_pos_bound.
    + rewrite Hs, Zplus_mod_idemp_l. f_equal. lia.
    + intros k y Hk. rewrite Zplus_mod_idemp_l, <- (Ha (S k) y Hk).
      by replace (recvx ch + 1 + Z.of_nat k) with (recvx ch + Z.of_nat (S k)) by lia.
Qed.

(** A new buffer is empty, whatever its bytes. *)
Lemma ring_new ref es bs bytes :
  0 < es -> 0 < bs -> Z.of_nat (length bytes) = es * bs ->
  ring_rep (mk_chan false false false ref es true bs 0 0 0 bytes) [].
Proof.
  intros. split; cbn; try done; try lia.
Qed.

(** ** Bytes of the program *)

Definition valid (M : gmap ptr (list Z)) (p : option ptr) (n : Z) : Prop :=
  match p with None => True | Some p => exists b, M !! p = Some b /\ n <= Z.of_nat (length b) end.

Definition mem_write (p : option ptr) (x : list Z) (M : gmap ptr (list Z)) : gmap ptr (list Z) :=
  match p with
  | Some p => match M !! p with Some b => <[p := splice b 0 x]> M | None => M end
  | None => M
  end.

(** What a memcpy of [n] bytes from [src] to [dst] leaves. *)
Definition mem_copy (dst src : option ptr) (n : Z) (M : gmap ptr (list Z)) : gmap ptr (list Z) :=
  match src with
  | Some s => match M !! s with Some b => mem_write dst (take (Z.to_nat n) b) M | None => M end
  | None => M
  end.

Lemma valid_write M p n d x :
  valid M d (Z.of_nat (length x)) -> valid M p n -> valid (mem_write d x M) p n.
Proof.
  intros Hd Hp. destruct p as [p|]; [|done]. destruct Hp as (b & Hb & Hn).
  destruct d as [d|]; [|by exists b]. destruct Hd as (bd & Hbd & Hx). cbn. rewrite Hbd.
  destruct (decide (d = p)) as [->|]; [|exists b; by rewrite lookup_insert_ne].
  exists (splice bd 0 x). rewrite lookup_insert_eq, splice_length by lia.
  simplify_eq. done.
Qed.

Section proofs.
Context {S : Type} `{SchedLaws S}.
Variable self : coid.
Implicit Types (w : chworld S) (ch : chan).

Lemma write_block_ok w d x :
  valid (cmem w) (Some d) (Z.of_nat (length x)) ->
  write_block d x w = Ok (tt, set_cmem (mem_write (Some d) x (cmem w)) w).
Proof.
  intros (b & Hb & Hl). unfold write_block. cbn. rewrite Hb.
  destruct (Z.leb_spec (Z.of_nat (length x)) (Z.of_nat (length b))); [done|lia].
Qed.

Lemma read_block_ok w s b n :
  cmem w !! s = Some b -> n <= Z.of_nat (length b) -> read_block s n w = Ok (take (Z.to_nat n) b, w).
Proof.
  intros Hb Hl. unfold read_block. rewrite Hb.
  destruct (Z.leb_spec n (Z.of_nat (length b))); [done|lia].
Qed.

Lemma valid_take_le M (s : ptr) b n p :
  0 <= n -> M !! s = Some b -> n <= Z.of_nat (length b) -> valid M p n ->
  valid M p (Z.of_nat (length (take (Z.to_nat n) b))).
Proof. intros. rewrite length_take_le by lia. by rewrite Z2Nat.id. Qed.

Lemma set_cmem_id w : set_cmem (cmem w) w = w.
Proof. by destruct w. Qed.

Lemma chan_memcpy_ok w dst src n :
  0 <= n -> valid (cmem w) dst n -> valid (cmem w) src n ->
  __chan_memcpy dst src n w = Ok (tt, set_cmem (mem_copy dst src n (cmem w)) w).
Proof.
  intros Hn Hd Hs. unfold __chan_memcpy, mem_copy.
  destruct dst as [d|], src as [s|]; cbn [mem_write]; try (by rewrite set_cmem_id).
  - destruct Hs as (b & Hb & Hl). rewrite (bind_ok _ _ _ _ _ (read_block_ok w s b n Hb Hl)).
    rewrite write_block_ok by (by eapply valid_take_le). by rewrite Hb.
  - destruct Hs as (b & Hb & _). rewrite Hb. by rewrite set_cmem_id.
Qed.

Lemma valid_copy M p m dst src n :
  0 <= n -> valid M dst n -> valid M src n -> valid M p m -> valid (mem_copy dst src n M) p m.
Proof.
  intros Hn Hd Hs Hp. unfold mem_copy. destruct src as [s|]; [|done].
  destruct Hs as (b & Hb & Hl). rewrite Hb. apply valid_write; [|done]. by eapply valid_take_le.
Qed.

(** ** The buffer operations *)

Definition same_meta (ch ch' : chan) : Prop :=
  close ch' = close ch /\ select ch' = select ch /\ clock ch' = clock ch /\
  isref ch' = isref ch /\ elemsize ch' = elemsize ch /\ buffered ch' = buffered ch /\
  bufsize ch' = bufsize ch.

Lemma copy_to_buff_ok w c ch els s b :
  chans w !! c = Some ch -> ring_rep ch els -> nbuf ch < bufsize ch ->
  cmem w !! s = Some b -> elemsize ch <= Z.of_nat (length b) ->
  exists ch', __coroc_copy_to_buff c (Some s) w = Ok (true, set_chans (<[c := ch']> (chans w)) w) /\
    same_meta ch ch' /\ ring_rep ch' (els ++ [take (Z.to_nat (elemsize ch)) b]).
Proof.
  intros Hc R Hn Hb Hl. pose proof R as [He Hbs Hbl Hnb Hcap Hrx Hsx Hat].
  set (x := take (Z.to_nat (elemsize ch)) b).
  assert (length x = Z.to_nat (elemsize ch)) as Hx by (apply length_take_le; lia).
  assert (0 <= sendx ch < bufsize ch) as Hsb by (rewrite Hsx; by apply Z.mod_pos_bound).
  pose proof (slot_off_bound ch (sendx ch) He Hsb Hbl) as Ho.
  exists (set_ring (nbuf ch + 1) (recvx ch) (Z.rem (sendx ch + 1) (bufsize ch))
            (splice (buf ch) (slot_off ch (sendx ch)) x) ch).
  split; [|split; [by repeat split|by apply ring_push; [..|lia]]].
  unfold __coroc_copy_to_buff, buf_write, get_chan.
  rewrite (bind_ok _ _ _ ch w) by (by rewrite Hc).
  destruct (Z.ltb_spec (nbuf ch) (bufsize ch)); [|lia].
  erewrite (bind_ok _ _ w tt). 2: {
    rewrite (bind_ok _ _ _ ch w) by (by rewrite Hc).
    rewrite (bind_ok _ _ _ _ _ (read_block_ok w s b _ Hb Hl)). fold x.
    rewrite decide_True by lia. unfold upd_chan. rewrite Hc. reflexivity. }
  unfold bind, upd_chan. cbn. rewrite lookup_insert_eq. unfold ret, set_chans. cbn.
  by rewrite insert_insert_eq.
Qed.

Lemma copy_to_buff_full w c ch b :
  chans w !! c = Some ch -> nbuf ch = bufsize ch -> __coroc_copy_to_buff c b w = Ok (false, w).
Proof.
  intros Hc Hn. unfold __coroc_copy_to_buff, get_chan.
  rewrite (bind_ok _ _ _ ch w) by (by rewrite Hc). rewrite Hn, Z.ltb_irrefl. done.
Qed.

Lemma buf_read_ok w c ch i :
  chans w !! c = Some ch -> 0 < elemsize ch -> 0 <= i < bufsize ch ->
  Z.of_nat (length (buf ch)) = elemsize ch * bufsize ch ->
  buf_read c i w = Ok (elem_at ch i, w).
Proof.
  intros Hc He Hi Hb. unfold buf_read, get_chan. rewrite (bind_ok _ _ _ ch w) by (by rewrite Hc).
  rewrite decide_True by (by apply slot_off_bound). done.
Qed.

Lemma copy_from_buff_ok w c ch x els dst :
  chans w !! c = Some ch -> ring_rep ch (x :: els) -> valid (cmem w) dst (elemsize ch) ->
  exists ch', __coroc_copy_from_buff c dst w =
      Ok (true, set_chans (<[c := ch']> (chans w)) (set_cmem (mem_write dst x (cmem w)) w)) /\
    same_meta ch ch' /\ ring_rep ch' els /\ Z.of_nat (length x) = elemsize ch.
Proof.
  intros Hc R Hd. pose proof R as [He Hbs Hbl Hnb Hcap Hrx Hsx Hat].
  destruct (ring_pop _ _ _ R) as [Ex R'].
  assert (Z.of_nat (length x) = elemsize ch) as Hx by (rewrite <- Ex, elem_at_length by done; lia).
  exists (set_ring (nbuf ch - 1) (Z.rem (recvx ch + 1) (bufsize ch)) (sendx ch) (buf ch) ch).
  split; [|split; [by repeat split|done]].
  unfold __coroc_copy_from_buff. unfold get_chan at 1.
  rewrite (bind_ok _ _ _ ch w) by (by rewrite Hc).
  destruct (Z.ltb_spec 0 (nbuf ch)); [|cbn in Hnb; lia].
  rewrite (bind_ok _ _ _ _ _ (buf_read_ok w c ch _ Hc He Hrx Hbl)), Ex.
  rewrite (bind_ok _ _ _ tt (set_cmem (mem_write dst x (cmem w)) w)).
  2: { destruct dst as [d|]; [apply write_block_ok; by rewrite Hx|cbn [mem_write]; by rewrite set_cmem_id]. }
  unfold bind, upd_chan. cbn. rewrite Hc. done.
Qed.

Lemma copy_from_buff_empty w c ch dst :
  chans w !! c = Some ch -> nbuf ch = 0 -> __coroc_copy_from_buff c dst w = Ok (false, w).
Proof.
  intros Hc Hn. unfold __coroc_copy_from_buff, get_chan.
  rewrite (bind_ok _ _ _ ch w) by (by rewrite Hc). by rewrite Hn.
Qed.

(** ** Fetching a quantum *)

(** A select that another channel has served already. *)
Definition stale w (q : qid) : Prop :=
  exists qd t, quanta w !! q = Some qd /\ q_select qd = true /\
    qtag w !! q_coroutine qd = Some (Some t).
Definition fresh w (q : qid) (qd : quantum) : Prop :=
  quanta w !! q = Some qd /\
  (q_select qd = true -> qtag w !! q_coroutine qd = Some None).

Definition tag_taken (qd : quantum) (T : gmap coid (option chid)) : gmap coid (option chid) :=
  if q_select qd then <[q_coroutine qd := Some (q_chan qd)]> T else T.

Record store_ok (st : qstore qid (chid * dir) qid) (A : gmap (chid * dir) (list qid)) : Prop := {
  so_rep : store_rep st A;
  so_owner : forall q it, items st !! q = Some it -> owner it = Some q
}.

Lemma store_ok_same st st' A A' :
  store_ok st A -> store_rep st' A' -> same_owners st st' -> store_ok st' A'.
Proof.
  intros [S1 S2] R Ho. split; [done|]. intros q it Hq. pose proof (Ho q) as E. rewrite Hq in E.
  symmetry in E. apply fmap_Some in E as (it0 & Hit & E). rewrite E. eauto.
Qed.

Lemma store_ok_rem st A que q l :
  store_ok st A -> A !! que = Some (q :: l) ->
  exists st', queue_rem que st = Ok (Some q, st') /\ store_ok st' (<[que := l]> A) /\
    same_owners st st'.
Proof.
  intros O Hq. destruct (store_rem _ _ _ _ _ (so_rep _ _ O) Hq) as (it & st' & Hit & Hr & R' & Hs & _).
  exists st'. rewrite Hr, (so_owner _ _ O _ _ Hit). split_and!; [done| |done]. by eapply store_ok_same.
Qed.

Lemma fetch_quantum_ok que l : forall w A fuel,
  store_ok (cques w) A -> A !! que = Some l -> (length l < fuel)%nat ->
  (forall q, q ∈ l -> stale w q \/ exists qd, fresh w q qd) ->
  exists l1 r l2 st', l = l1 ++ option_list r ++ l2 /\ Forall (stale w) l1 /\
    (r = None -> l2 = []) /\ store_ok st' (<[que := l2]> A) /\ same_owners (cques w) st' /\
    match r with
    | None => fetch_quantum fuel que w = Ok (None, set_cques st' w)
    | Some q => exists qd, fresh w q qd /\ fetch_quantum fuel que w =
        Ok (Some q, set_qtag (tag_taken qd (qtag w)) (set_cques st' w))
    end.
Proof.
  induction l as [|q l IH]; intros w A fuel O Hq Hf Hl.
  - destruct fuel as [|fuel]; [cbn in Hf; lia|]. exists [], None, [], (cques w).
    rewrite insert_id by done. split_and!; try done. cbn [fetch_quantum].
    rewrite (bind_ok _ _ _ None w); [by destruct w|]. unfold on_ques, zoom.
    rewrite (store_rem_empty _ _ _ (so_rep _ _ O) Hq). by destruct w.
  - destruct fuel as [|fuel]; [cbn in Hf; lia|]. cbn in Hf.
    destruct (store_ok_rem _ _ _ _ _ O Hq) as (st1 & E1 & O1 & Ow1). cbn [fetch_quantum].
    rewrite (bind_ok _ _ _ (Some q) (set_cques st1 w)) by (unfold on_ques, zoom; by rewrite E1).
    destruct (Hl q) as [(qd & t & Hqd & Hsel & Ht)|(qd & Hqd & Hsel)]; [by left|..].
    + rewrite (bind_ok _ _ _ qd (set_cques st1 w)) by (unfold get_quantum; cbn; by rewrite Hqd).
      rewrite Hsel. cbn [negb].
      rewrite (bind_ok _ _ _ false (set_cques st1 w)) by (unfold cas_qtag; cbn; by rewrite Ht).
      destruct (IH (set_cques st1 w) (<[que := l]> A) fuel) as (l1 & r & l2 & st2 & El & Hst & Hr & O2 & Ow2 & Hres).
      { done. } { by rewrite lookup_insert_eq. } { lia. }
      { intros q' Hq'. apply Hl. by right. }
      exists (q :: l1), r, l2, st2. rewrite insert_insert_eq in O2. subst l.
      split_and!; [done| |done|done|intros x; by rewrite Ow2, Ow1|done]. constructor; [by exists qd, t|done].
    + exists [], (Some q), l, st1. split_and!; [done|done|done|done|done|]. exists qd. split; [done|].
      rewrite (bind_ok _ _ _ qd (set_cques st1 w)) by (unfold get_quantum; cbn; by rewrite Hqd).
      unfold tag_taken. destruct (q_select qd) eqn:Es; cbn [negb]; [|by destruct w].
      unfold bind, cas_qtag. cbn. by rewrite Hsel.
Qed.

Lemma fetch_ok que l w A :
  store_ok (cques w) A -> A !! que = Some l ->
  (forall q, q ∈ l -> stale w q \/ exists qd, fresh w q qd) ->
  exists l1 r l2 st', l = l1 ++ option_list r ++ l2 /\ Forall (stale w) l1 /\
    (r = None -> l2 = []) /\ store_ok st' (<[que := l2]> A) /\ same_owners (cques w) st' /\
    match r with
    | None => fetch que w = Ok (None, set_cques st' w)
    | Some q => exists qd, fresh w q qd /\ fetch que w =
        Ok (Some q, set_qtag (tag_taken qd (qtag w)) (set_cques st' w))
    end.
Proof.
  intros O Hq Hl. destruct (sr_rep _ _ (so_rep _ _ O) _ _ Hq) as [lk D].
  pose proof (fwd_queue _ _ _ _ (dll_fwd _ _ _ _ D)) as E.
  unfold fetch.
  rewrite (bind_ok _ _ w (mk_queue lk (l !! 0%nat) (last l) (Z.of_nat (length l))) w).
  2: { unfold on_ques, zoom, get_queue. rewrite E. by destruct w. }
  apply (fetch_quantum_ok que l); [done..| |done]. cbn. lia.
Qed.
End proofs.
