(* ===== verification/ChannelInv.v ===== *)
(** * The invariant of the channels (src/channel.c)

    [pc] says where each coroutine is: outside the channel functions, blocked
    in a send or receive on its quantum, or blocked in a select on its array
    of quanta.  [L] are the channels whose lock is held. *)

From S2P Require Import Prelude Queue Channel ChannelProps.

Inductive cpc : Type :=
| C_run
| C_block (q : qid) (c : chid) (d : dir)
| C_select (qs : list qid) (set : coroc_chan_set).

Definition set_pc (co : coid) (p : cpc) (pc : coid -> cpc) : coid -> cpc :=
  fun d => if decide (d = co) then p else pc d.

Lemma set_pc_eq co p pc : set_pc co p pc co = p.
Proof. unfold set_pc. by rewrite decide_True. Qed.
Lemma set_pc_ne co p pc d : d <> co -> set_pc co p pc d = pc d.
Proof. intros. unfold set_pc. by rewrite decide_False. Qed.

Section inv.
Context {S : Type} `{SchedLaws S}.
Implicit Types (w : chworld S) (ch : chan) (A : gmap (chid * dir) (list qid)) (pc : coid -> cpc).

(** The coroutine of a queued quantum: it waits, or a select of it has been
    served by another channel. *)
Definition live w (qd : quantum) : Prop :=
  if q_select qd
  then exists t, qtag w !! q_coroutine qd = Some t /\ (t = None -> sc_waiting (sch w) (q_coroutine qd))
  else sc_waiting (sch w) (q_coroutine qd).

Definition parked pc (q : qid) (c : chid) (d : dir) (qd : quantum) : Prop :=
  match pc (q_coroutine qd) with
  | C_run => False
  | C_block q' c' d' => q' = q /\ c' = c /\ d' = d /\ q_select qd = false
  | C_select qs set => q_select qd = true /\
      exists i e, qs !! i = Some q /\ cases set !! i = Some e /\ case_que e = (c, d)
  end.

Definition quantum_ok w pc (c : chid) (d : dir) (q : qid) (qd : quantum) : Prop :=
  quanta w !! q = Some qd /\ q_chan qd = c /\ q_close qd = false /\
  (exists ch, chans w !! c = Some ch /\ valid (cmem w) (q_itembuf qd) (elemsize ch)) /\
  live w qd /\ parked pc q c d qd.

Record select_ok w (co : coid) (qs : list qid) (set : coroc_chan_set) : Prop := {
  sl_len : length qs = length (cases set);
  sl_nodup : NoDup qs;
  sl_sorted : sorted set = true;
  sl_locks : NoDup (locks set);
  sl_perm : locks set ≡ₚ s_chan <$> cases set;
  sl_chans : forall c, c ∈ locks set -> is_Some (chans w !! c);
  sl_tag : exists t, qtag w !! co = Some t /\ (t = None -> sc_waiting (sch w) co) /\
    (forall c, t = Some c -> c ∈ locks set);
  sl_quanta : forall i q e, qs !! i = Some q -> cases set !! i = Some e ->
    exists qd it, quanta w !! q = Some qd /\ q_chan qd = s_chan e /\ q_coroutine qd = co /\
      items (cques w) !! q = Some it
}.

Record ch_inv w A pc (L : list chid) : Prop := {
  iv_store : store_ok (cques w) A;
  iv_sc : sc_ok (sch w);
  iv_chan : forall c ch, chans w !! c = Some ch ->
    clock ch = bool_decide (c ∈ L) /\ exists els, chan_rep ch els;
  iv_ques : forall c ch d, chans w !! c = Some ch -> is_Some (A !! (c, d));
  iv_quantum : forall c d l q, A !! (c, d) = Some l -> q ∈ l -> exists qd, quantum_ok w pc c d q qd;
  iv_block : forall co q c d, pc co = C_block q c d ->
    exists qd, quanta w !! q = Some qd /\ q_coroutine qd = co /\ is_Some (chans w !! c);
  iv_select : forall co qs set, pc co = C_select qs set -> select_ok w co qs set
}.

(** ** Reading the invariant *)

Lemma inv_fetchable w A pc L c d l :
  ch_inv w A pc L -> A !! (c, d) = Some l ->
  forall q, q ∈ l -> stale w q \/ exists qd, fresh w q qd.
Proof.
  intros I Hl q Hq. destruct (iv_quantum _ _ _ _ I _ _ _ _ Hl Hq) as (qd & Hqd & _ & _ & _ & Hlive & _).
  unfold live in Hlive. destruct (q_select qd) eqn:Es.
  - destruct Hlive as ([t|] & Ht & _); [left; by exists qd, t|right; exists qd; by split].
  - right. exists qd. split; [done|]. congruence.
Qed.

Lemma inv_not_queued w A pc L q :
  ch_inv w A pc L -> quanta w !! q = None -> forall c d l, A !! (c, d) = Some l -> q ∉ l.
Proof.
  intros I Hq c d l Hl Hin. destruct (iv_quantum _ _ _ _ I _ _ _ _ Hl Hin) as (qd & ? & _). congruence.
Qed.

(** A coroutine outside the channel functions has no quantum in a queue. *)
Lemma inv_run_unqueued w A pc L co c d l q qd :
  ch_inv w A pc L -> pc co = C_run -> A !! (c, d) = Some l -> q ∈ l -> quanta w !! q = Some qd ->
  q_coroutine qd <> co.
Proof.
  intros I Hp Hl Hin Hqd E. destruct (iv_quantum _ _ _ _ I _ _ _ _ Hl Hin) as (qd' & Hqd' & _ & _ & _ & _ & Hpk).
  assert (qd' = qd) as -> by congruence. unfold parked in Hpk. by rewrite E, Hp in Hpk.
Qed.

(** Queues are disjoint and without repetition. *)
Lemma queued_once w A pc L c d l1 q l2 c' d' l' :
  ch_inv w A pc L -> A !! (c, d) = Some (l1 ++ q :: l2) ->
  <[(c, d) := l2]> A !! (c', d') = Some l' -> q ∉ l'.
Proof.
  intros I Hl Hl' Hin. pose proof (so_rep _ _ (iv_store _ _ _ _ I)) as R.
  destruct (sr_rep _ _ R _ _ Hl) as [lk D].
  destruct (NoDup_mid _ _ _ (fwd_nodup _ _ _ _ (dll_fwd _ _ _ _ D))) as (_ & _ & _ & ? & ? & _).
  apply lookup_insert_Some in Hl' as [[E <-]|[Hne Hl']]; [done|].
  apply Hne. eapply (store_rep_disjoint _ _ _ _ _ _ q R Hl Hl'); [|done]. set_solver.
Qed.

Lemma sub_queue A (c : chid) d l1 (q : qid) l2 c' d' l' q' :
  A !! (c, d) = Some (l1 ++ q :: l2) -> <[(c, d) := l2]> A !! (c', d') = Some l' -> q' ∈ l' ->
  exists l, A !! (c', d') = Some l /\ q' ∈ l.
Proof.
  intros Hl [[[= <- <-] <-]|[Hne Hl']]%lookup_insert_Some Hin; [|eauto].
  exists (l1 ++ q :: l2). split; [done|]. set_solver.
Qed.

(** ** Waking the coroutine of a fetched quantum *)

Lemma items_same (st st' : qstore qid (chid * dir) qid) q it :
  same_owners st st' -> items st !! q = Some it -> exists it', items st' !! q = Some it'.
Proof.
  intros Ho Hq. pose proof (Ho q) as E. rewrite Hq in E. apply fmap_Some in E as (it' & ? & _). eauto.
Qed.

Lemma inv_wake w A pc L c d l1 q qd l2 st' s' M' Q' :
  ch_inv w A pc L -> A !! (c, d) = Some (l1 ++ q :: l2) -> fresh w q qd ->
  store_ok st' (<[(c, d) := l2]> A) -> same_owners (cques w) st' -> sc_ok s' ->
  (forall e, sc_waiting s' e <-> sc_waiting (sch w) e /\ e <> q_coroutine qd) ->
  (forall p n, valid (cmem w) p n -> valid M' p n) ->
  (forall q', q' <> q -> Q' !! q' = quanta w !! q') ->
  (exists qd', Q' !! q = Some qd' /\ q_chan qd' = q_chan qd /\ q_coroutine qd' = q_coroutine qd) ->
  ch_inv (mk_chworld (chans w) Q' st' (tag_taken qd (qtag w)) M' (puts w) s')
    (<[(c, d) := l2]> A) pc L.
Proof.
  intros I Hl [Hqd Hfr] O' Ho Hsc Hw HM HQ (qd1 & HQq & Ec1 & Eco1).
  destruct (iv_quantum _ _ _ _ I c d _ q Hl) as (qd0 & Hqd0 & Hch & Hcl & Hval & Hlive & Hpk); [set_solver|].
  assert (qd0 = qd) as -> by congruence.
  assert (forall co', q_coroutine qd <> co' -> tag_taken qd (qtag w) !! co' = qtag w !! co') as Htag.
  { intros co' Hne. unfold tag_taken. destruct (q_select qd); [by rewrite lookup_insert_ne|done]. }
  split; cbn; try done; try apply I.
  - intros c' ch d' Hc'. destruct (decide ((c', d') = (c, d))) as [[= -> ->]|].
    + rewrite lookup_insert_eq. done.
    + rewrite lookup_insert_ne by done. by eapply (iv_ques _ _ _ _ I).
  - intros c' d' l' q' Hl' Hin.
    pose proof (queued_once _ _ _ _ _ _ _ _ _ _ _ _ I Hl Hl') as Hnq.
    assert (q' <> q) as Hne by (intros ->; done).
    destruct (sub_queue _ _ _ _ _ _ _ _ _ _ Hl Hl' Hin) as (l0 & Hl0 & Hin0).
    destruct (iv_quantum _ _ _ _ I _ _ _ _ Hl0 Hin0) as (qd' & Hqd' & Hc' & Hcl' & (ch' & Hch' & Hv') & Hlv' & Hpk').
    exists qd'. split_and!; [by rewrite HQ|done|done|exists ch'; by auto| |done].
    destruct (decide (q_coroutine qd' = q_coroutine qd)) as [Eco|Nco].
    + (* another quantum of the same select *)
      unfold parked in Hpk, Hpk'. rewrite Eco in Hpk'. unfold live.
      destruct (pc (q_coroutine qd)) as [|q0 c0 d0|qs set]; [done|naive_solver|].
      destruct Hpk as [Hs1 _], Hpk' as [Hs2 _]. rewrite Hs2. cbn. unfold tag_taken. rewrite Hs1, Eco.
      exists (Some (q_chan qd)). by rewrite lookup_insert_eq.
    + unfold live in *. cbn. rewrite Htag by congruence. destruct (q_select qd').
      * destruct Hlv' as (t & Ht & Hwt). exists t. split; [done|]. intros E. apply Hw. auto.
      * apply Hw. auto.
  - intros co q' c' d' Hb. destruct (iv_block _ _ _ _ I _ _ _ _ Hb) as (qd' & Hqd' & ? & ?).
    destruct (decide (q' = q)) as [->|]; [|exists qd'; by rewrite HQ].
    exists qd1. split_and!; [done|congruence|done].
  - intros co qs set Hs. destruct (iv_select _ _ _ _ I _ _ _ Hs) as [Z1 Z2 Z3 Z4 Z5 Z6 (t & Ht & Hwt & Hin) Z8].
    split; try done; cbn.
    + destruct (decide (q_coroutine qd = co)) as [<-|Nco].
      * unfold parked in Hpk. rewrite Hs in Hpk. unfold tag_taken. destruct Hpk as (-> & i & e & _ & He & Hce).
        exists (Some (q_chan qd)). rewrite lookup_insert_eq. split_and!; [done|done|].
        intros ? [= <-]. rewrite Z5, Hch. injection Hce as <- _. by eapply list_elem_of_fmap_2, list_elem_of_lookup_2.
      * exists t. rewrite Htag by done. split_and!; [done| |done]. intros E. apply Hw. split; [auto|congruence].
    + intros i q' e Hi He. destruct (Z8 i q' e Hi He) as (qd' & it & ? & ? & ? & Hit).
      destruct (items_same _ _ _ _ Ho Hit) as [it' Hit'].
      destruct (decide (q' = q)) as [->|].
      * exists qd1, it'. split_and!; [done|congruence|congruence|done].
      * exists qd', it'. by rewrite HQ.
Qed.

(** ** Other changes that keep the invariant *)

Lemma inv_sub w A A' pc L st' :
  ch_inv w A pc L -> store_ok st' A' -> same_owners (cques w) st' ->
  (forall que, is_Some (A !! que) -> is_Some (A' !! que)) ->
  (forall que l' q, A' !! que = Some l' -> q ∈ l' -> exists l, A !! que = Some l /\ q ∈ l) ->
  ch_inv (set_cques st' w) A' pc L.
Proof.
  intros I O' Ho Hdom Hsub. split; cbn; try done; try apply I.
  - intros c ch d Hc. apply Hdom. by eapply (iv_ques _ _ _ _ I).
  - intros c d l q Hl Hq. destruct (Hsub _ _ _ Hl Hq) as (l0 & Hl0 & Hq0).
    exact (iv_quantum _ _ _ _ I _ _ _ _ Hl0 Hq0).
  - intros co qs set Hs. destruct (iv_select _ _ _ _ I _ _ _ Hs) as [Z1 Z2 Z3 Z4 Z5 Z6 Z7 Z8].
    split; try done; cbn. intros i q e Hi He. destruct (Z8 i q e Hi He) as (qd & it & ? & ? & ? & Hit).
    destruct (items_same _ _ _ _ Ho Hit) as [it' Hit']. by exists qd, it'.
Qed.

Lemma inv_drop w A pc L c d l l2 st' :
  ch_inv w A pc L -> A !! (c, d) = Some l -> (forall q, q ∈ l2 -> q ∈ l) ->
  store_ok st' (<[(c, d) := l2]> A) -> same_owners (cques w) st' ->
  ch_inv (set_cques st' w) (<[(c, d) := l2]> A) pc L.
Proof.
  intros I Hl Hsub O' Ho. eapply inv_sub; [done..| |].
  - intros que [x Hx]. destruct (decide (que = (c, d))) as [->|];
      [by rewrite lookup_insert_eq|rewrite lookup_insert_ne by done; by rewrite Hx].
  - intros que l' q [[<- <-]|[Hne Hl']]%lookup_insert_Some Hin; [|eauto].
    exists l. split; [done|]. by apply Hsub.
Qed.

Lemma inv_chan_upd w A pc L L' c ch ch' :
  ch_inv w A pc L -> chans w !! c = Some ch -> elemsize ch' = elemsize ch ->
  clock ch' = bool_decide (c ∈ L') -> (forall c', c' <> c -> c' ∈ L' <-> c' ∈ L) ->
  (exists els, chan_rep ch' els) ->
  ch_inv (set_chans (<[c := ch']> (chans w)) w) A pc L'.
Proof.
  intros I Hc Ee Hk HL Hrep.
  assert (forall x, is_Some (chans w !! x) -> is_Some (<[c := ch']> (chans w) !! x)) as Hsome.
  { intros x Hx. destruct (decide (c = x)) as [<-|]; [by rewrite lookup_insert_eq|by rewrite lookup_insert_ne]. }
  split; cbn; try apply I.
  - intros x chx [[<- <-]|[Hne Hx]]%lookup_insert_Some; [done|].
    destruct (iv_chan _ _ _ _ I x chx Hx) as [E Hr]. split; [|done]. rewrite E.
    apply bool_decide_ext. symmetry. apply HL. congruence.
  - intros x chx d [[<- <-]|[Hne Hx]]%lookup_insert_Some; by eapply (iv_ques _ _ _ _ I).
  - intros x d l q Hl Hq.
    destruct (iv_quantum _ _ _ _ I _ _ _ _ Hl Hq) as (qd & ? & ? & ? & (chx & Hx & Hv) & ? & ?).
    exists qd. split_and!; try done. cbn. destruct (decide (c = x)) as [<-|].
    + exists ch'. rewrite lookup_insert_eq. split; [done|]. rewrite Ee. by simplify_eq.
    + exists chx. by rewrite lookup_insert_ne.
  - intros co q x d Hb. destruct (iv_block _ _ _ _ I _ _ _ _ Hb) as (qd & ? & ? & ?).
    exists qd. split_and!; [done|done|]. by apply Hsome.
  - intros co qs set Hs. destruct (iv_select _ _ _ _ I _ _ _ Hs) as [Z1 Z2 Z3 Z4 Z5 Z6 Z7 Z8].
    split; try done. cbn. intros x Hx. by apply Hsome, Z6.
Qed.

Lemma inv_mem w A pc L M' :
  ch_inv w A pc L -> (forall p n, valid (cmem w) p n -> valid M' p n) ->
  ch_inv (set_cmem M' w) A pc L.
Proof.
  intros I HM. split; cbn; try apply I.
  - intros x d l q Hl Hq.
    destruct (iv_quantum _ _ _ _ I _ _ _ _ Hl Hq) as (qd & ? & ? & ? & (chx & Hx & Hv) & ? & ?).
    exists qd. split_and!; try done. exists chx. split; [done|by apply HM].
  - intros co qs set Hs. by destruct (iv_select _ _ _ _ I _ _ _ Hs); split.
Qed.

Lemma lock_acquire_ok w A pc L c ch :
  ch_inv w A pc L -> chans w !! c = Some ch -> c ∉ L ->
  lock_acquire c w = Ok (tt, set_chans (<[c := set_clock true ch]> (chans w)) w) /\
  ch_inv (set_chans (<[c := set_clock true ch]> (chans w)) w) A pc (c :: L).
Proof.
  intros I Hc HL. destruct (iv_chan _ _ _ _ I c ch Hc) as [Ek Hr].
  rewrite bool_decide_eq_false_2 in Ek by done. split.
  - unfold lock_acquire, get_chan, upd_chan, bind. rewrite Hc, Ek. cbn. by rewrite Hc.
  - eapply inv_chan_upd; [done..| | |].
    + cbn. symmetry. apply bool_decide_eq_true_2. by left.
    + intros c' Hne. set_solver.
    + destruct Hr as [els Hr]. exists els. destruct Hr as [? Hr]. split; [done|]. cbn.
      destruct (buffered ch); [destruct Hr; by split|done].
Qed.

Lemma lock_release_ok w A pc L L' c ch :
  ch_inv w A pc L -> chans w !! c = Some ch -> c ∈ L -> c ∉ L' ->
  (forall c', c' <> c -> c' ∈ L' <-> c' ∈ L) ->
  lock_release c w = Ok (tt, set_chans (<[c := set_clock false ch]> (chans w)) w) /\
  ch_inv (set_chans (<[c := set_clock false ch]> (chans w)) w) A pc L'.
Proof.
  intros I Hc HL HL' Hne. destruct (iv_chan _ _ _ _ I c ch Hc) as [Ek Hr].
  rewrite bool_decide_eq_true_2 in Ek by done. split.
  - unfold lock_release, get_chan, upd_chan, bind. rewrite Hc, Ek. cbn. by rewrite Hc.
  - eapply inv_chan_upd; [done..| |done|].
    + cbn. symmetry. by apply bool_decide_eq_false_2.
    + destruct Hr as [els Hr]. exists els. destruct Hr as [? Hr]. split; [done|]. cbn.
      destruct (buffered ch); [destruct Hr; by split|done].
Qed.

(** ** Queueing a quantum *)

Definition with_quantum (q : qid) (qd : quantum) (st' : qstore qid (chid * dir) qid) w : chworld S :=
  set_cques st' (set_quanta (<[q := qd]> (quanta w)) w).

(** [quantum_init] and [queue_add] for a quantum nobody uses. *)
Lemma enqueue_ok w A (co : coid) q c d l b sel :
  store_ok (cques w) A -> map_Forall (fun _ l => q ∉ l) A -> A !! (c, d) = Some l ->
  Z.of_nat (length l) + 1 < 2 ^ 32 ->
  exists st', bind (quantum_init q c co b sel) (fun _ => on_ques (queue_add (c, d) q)) w =
      Ok (tt, with_quantum q (mk_quantum false sel c co b) st' w) /\
    store_ok st' (<[(c, d) := l ++ [q]]> A) /\
    (forall x it, items (cques w) !! x = Some it -> exists it', items st' !! x = Some it') /\
    (exists it, items st' !! q = Some it).
Proof.
  intros [R Ow] Hn Hl Hlen.
  set (it0 := mk_item None None None (Some q) : queue_item_t qid (chid * dir) qid).
  set (st1 := mk_qstore (<[q := it0]> (items (cques w))) (queues (cques w))).
  assert (store_rep st1 A) as R1 by (apply (store_item_init _ _ q (Some q)); done).
  destruct (store_add st1 A (c, d) l q it0) as (st' & E & R' & Ho);
    [done|done|cbn; by rewrite lookup_insert_eq|done|done|].
  exists st'. split_and!.
  - unfold quantum_init, on_ques, zoom, queue_item_init, modify, bind. cbn. fold it0. fold st1.
    by rewrite E.
  - split; [done|]. intros x it Hx. pose proof (Ho x) as E1. rewrite Hx in E1. symmetry in E1.
    apply fmap_Some in E1 as (it1 & Hit1 & E1). rewrite E1. cbn in Hit1.
    apply lookup_insert_Some in Hit1 as [[<- <-]|[_ Hit1]]; [done|eauto].
  - intros x it Hx. apply (items_same st1 st' x (if decide (x = q) then it0 else it) Ho). cbn.
    case_decide as Ex; [subst; by rewrite lookup_insert_eq|by rewrite lookup_insert_ne].
  - apply (items_same st1 st' q it0 Ho). cbn. by rewrite lookup_insert_eq.
Qed.

Lemma inv_puts w A pc L ps : ch_inv w A pc L -> ch_inv (set_puts ps w) A pc L.
Proof. intros I. split; cbn; try apply I. intros co qs set Hs. by destruct (iv_select _ _ _ _ I _ _ _ Hs); split. Qed.

(** The state after a coroutine has queued its quanta and is suspended: the
    new quanta [N] are at the ends of their queues. *)
Record queued_by w A (co : coid) (p : cpc) (N : list (qid * (chid * dir)))
    (st' : qstore qid (chid * dir) qid) (Q' : gmap qid quantum) (A' : gmap (chid * dir) (list qid)) : Prop := {
  qb_store : store_ok st' A';
  qb_items : forall x it, items (cques w) !! x = Some it -> exists it', items st' !! x = Some it';
  qb_old : forall q, (forall que, (q, que) ∉ N) -> Q' !! q = quanta w !! q;
  qb_new : forall q c d, (q, (c, d)) ∈ N -> exists qd ch, Q' !! q = Some qd /\ quanta w !! q = None /\
    q_chan qd = c /\ q_close qd = false /\ q_coroutine qd = co /\ chans w !! c = Some ch /\
    valid (cmem w) (q_itembuf qd) (elemsize ch) /\
    q_select qd = (match p with C_select _ _ => true | _ => false end) /\
    match p with
    | C_run => False
    | C_block q' c' d' => q' = q /\ c' = c /\ d' = d
    | C_select qs set => exists i e, qs !! i = Some q /\ cases set !! i = Some e /\ case_que e = (c, d)
    end;
  qb_dom : forall que, is_Some (A !! que) -> is_Some (A' !! que);
  qb_elem : forall que l' q, A' !! que = Some l' -> q ∈ l' ->
    (exists l, A !! que = Some l /\ q ∈ l) \/ (q, que) ∈ N
}.

Lemma inv_queued_by w A pc L co p N st' Q' A' T' s' :
  ch_inv w A pc L -> queued_by w A co p N st' Q' A' -> pc co = C_run -> sc_ok s' ->
  (forall e, sc_waiting s' e <-> sc_waiting (sch w) e \/ e = co) ->
  (forall e, e <> co -> T' !! e = qtag w !! e) ->
  match p with
  | C_run => True
  | C_block q c d => exists qd, Q' !! q = Some qd /\ q_coroutine qd = co /\ is_Some (chans w !! c)
  | C_select qs set => T' !! co = Some None /\
      select_ok (mk_chworld (chans w) Q' st' T' (cmem w) (puts w) s') co qs set
  end ->
  ch_inv (mk_chworld (chans w) Q' st' T' (cmem w) (puts w) s') A' (set_pc co p pc) L.
Proof.
  intros I B Hpc Hsc Hw HT Hp.
  assert (forall q qd, quanta w !! q = Some qd -> Q' !! q = Some qd) as HQ.
  { intros q qd Hq. rewrite (qb_old _ _ _ _ _ _ _ _ B); [done|]. intros [c d] Hn.
    destruct (qb_new _ _ _ _ _ _ _ _ B _ _ _ Hn) as (? & ? & _ & ? & _). congruence. }
  split; cbn; try done; try apply I; try apply B.
  - intros c ch d Hc. apply (qb_dom _ _ _ _ _ _ _ _ B). by eapply (iv_ques _ _ _ _ I).
  - intros c d l q Hl Hq. destruct (qb_elem _ _ _ _ _ _ _ _ B _ _ _ Hl Hq) as [(l0 & Hl0 & Hq0)|Hn].
    + destruct (iv_quantum _ _ _ _ I _ _ _ _ Hl0 Hq0) as (qd & Hqd & ? & ? & ? & Hlv & Hpk).
      pose proof (inv_run_unqueued _ _ _ _ _ _ _ _ _ _ I Hpc Hl0 Hq0 Hqd) as Hne.
      exists qd. split_and!; [by apply HQ|done|done|done| |].
      * unfold live in *. cbn. rewrite HT by done. destruct (q_select qd).
        -- destruct Hlv as (t & ? & Ht). exists t. split; [done|]. intros E. apply Hw. auto.
        -- apply Hw. auto.
      * unfold parked in *. by rewrite set_pc_ne.
    + destruct (qb_new _ _ _ _ _ _ _ _ B _ _ _ Hn) as
        (qd & ch & Hqd & Hfr & Ec & Ecl & Eco & Hch & Hv & Hsel & Hpp).
      exists qd. split_and!; [done|done|done|by exists ch| |].
      * unfold live. cbn. rewrite Hsel, Eco. destruct p as [|q' c' d'|qs set]; [done|apply Hw; by right|].
        destruct Hp as [Ht _]. exists None. split; [done|]. intros _. apply Hw. by right.
      * unfold parked. rewrite Eco, set_pc_eq. destruct p; [done|naive_solver|done].
  - intros e q c d. destruct (decide (e = co)) as [->|Hne].
    + rewrite set_pc_eq. intros ->. done.
    + rewrite set_pc_ne by done. intros Hb. destruct (iv_block _ _ _ _ I _ _ _ _ Hb) as (qd & ? & ? & ?).
      exists qd. split_and!; [by apply HQ|done|done].
  - intros e qs set. destruct (decide (e = co)) as [->|Hne].
    + rewrite set_pc_eq. intros ->. apply Hp.
    + rewrite set_pc_ne by done. intros Hs.
      destruct (iv_select _ _ _ _ I _ _ _ Hs) as [Z1 Z2 Z3 Z4 Z5 Z6 (t & Ht & Hwt & Hloc) Z8].
      split; try done; cbn.
      * exists t. rewrite HT by done. split_and!; [done| |done]. intros E. apply Hw. auto.
      * intros i q x Hi Hx. destruct (Z8 i q x Hi Hx) as (qd & it & ? & ? & ? & Hit).
        destruct (qb_items _ _ _ _ _ _ _ _ B _ _ Hit) as [it' ?]. exists qd, it'.
        split_and!; [by apply HQ|done|done|done].
Qed.

(** The blocking branch of send and receive. *)
Lemma block_on_ok w A pc L L' self q c d l b ch :
  ch_inv w A pc L -> pc self = C_run -> sc_running (sch w) self -> quanta w !! q = None ->
  chans w !! c = Some ch -> c ∈ L -> c ∉ L' -> (forall c', c' <> c -> c' ∈ L' <-> c' ∈ L) ->
  valid (cmem w) b (elemsize ch) -> A !! (c, d) = Some l -> Z.of_nat (length l) + 1 < 2 ^ 32 ->
  exists w', block_on self q c d b w = Ok (Blocks, w') /\
    ch_inv w' (<[(c, d) := l ++ [q]]> A) (set_pc self (C_block q c d) pc) L' /\
    sc_waiting (sch w') self /\ cmem w' = cmem w /\ chans w' = <[c := set_clock false ch]> (chans w).
Proof.
  intros I Hpc Hrun Hq Hc HL HL' HLL Hv Hl Hlen.
  assert (map_Forall (fun _ l => q ∉ l) A) as Hn by (intros [c' d'] l' Hl'; by eapply inv_not_queued).
  destruct (enqueue_ok w A self q c d l b false (iv_store _ _ _ _ I) Hn Hl Hlen) as (st' & E & O' & Hit & _).
  destruct (sc_suspend_spec (sch w) self (iv_sc _ _ _ _ I) Hrun) as (s' & Es & Hok' & Hw' & _).
  set (qd := mk_quantum false false c self b).
  set (w1 := mk_chworld (chans w) (<[q := qd]> (quanta w)) st' (qtag w) (cmem w) (puts w) s').
  assert (ch_inv w1 (<[(c, d) := l ++ [q]]> A) (set_pc self (C_block q c d) pc) L) as I1.
  { eapply (inv_queued_by w A pc L self (C_block q c d) [(q, (c, d))]); try done.
    - split; try done.
      + intros x Hx. rewrite lookup_insert_ne; [done|]. intros ->. apply (Hx (c, d)). by left.
      + intros x c' d' Hin. apply list_elem_of_singleton in Hin. injection Hin as -> -> ->.
        exists qd, ch. rewrite lookup_insert_eq. split_and!; done.
      + intros que [y Hy]. destruct (decide (que = (c, d))) as [->|];
          [by rewrite lookup_insert_eq|rewrite lookup_insert_ne by done; by rewrite Hy].
      + intros que l' x [[<- <-]|[Hne Hl']]%lookup_insert_Some Hin; [|eauto].
        apply elem_of_app in Hin as [Hin| ->%list_elem_of_singleton]; [eauto|right; by left].
    - cbn. exists qd. rewrite lookup_insert_eq. split_and!; [done|done|by rewrite Hc]. }
  destruct (lock_release_ok w1 _ _ L L' c ch I1 Hc HL HL' HLL) as [Er I2].
  eexists. split_and!; [|exact I2|apply Hw'; by right|done|done].
  unfold block_on, bind at 1. unfold bind at 1 in E.
  destruct (quantum_init q c self b false w) as [[[] wq]|] eqn:Eq; [|done].
  rewrite (bind_ok _ _ _ _ _ E).
  rewrite (bind_ok _ _ _ tt w1) by (unfold on_sch, zoom; cbn; by rewrite Es).
  by rewrite (bind_ok _ _ _ _ _ Er).
Qed.
End inv.
