(* ===== verification/ChannelOps.v ===== *)
(** * Sending, receiving and closing (src/channel.c)

    Each operation on a channel whose invariant holds: which branch it takes,
    what it does to the channel, to the memory and to the waiting coroutines,
    and that the invariant holds again. *)

From S2P Require Import Prelude Queue Channel ChannelProps ChannelInv.

Section ops.
Context {S : Type} `{SchedLaws S}.
Implicit Types (w : chworld S) (ch : chan) (A : gmap (chid * dir) (list qid)) (pc : coid -> cpc).
Variable self : coid.

(** ** Sending and receiving *)

(** Where the coroutine is, and which locks are held, after an operation that
    may have blocked on [que]. *)
Definition after (r : outcome) w' A' pc L L' (q : qid) (c : chid) (d : dir) : Prop :=
  match r with
  | Done _ => ch_inv w' A' pc L /\ sc_running (sch w') self
  | Blocks => ch_inv w' A' (set_pc self (C_block q c d) pc) L' /\ sc_waiting (sch w') self
  end.

Lemma wake_ok w A pc L c d l1 q qd l2 st' w1 M' Q' :
  ch_inv w A pc L -> A !! (c, d) = Some (l1 ++ q :: l2) -> fresh w q qd -> sc_running (sch w) self ->
  store_ok st' (<[(c, d) := l2]> A) -> same_owners (cques w) st' ->
  w1 = mk_chworld (chans w) Q' st' (tag_taken qd (qtag w)) M' (puts w) (sch w) ->
  (forall p n, valid (cmem w) p n -> valid M' p n) ->
  (forall q', q' <> q -> Q' !! q' = quanta w !! q') ->
  (exists qd', Q' !! q = Some qd' /\ q_chan qd' = q_chan qd /\ q_coroutine qd' = q_coroutine qd) ->
  exists s', vpu_ready' self (q_coroutine qd) w1 = Ok (tt, set_sch s' w1) /\
    ch_inv (set_sch s' w1) (<[(c, d) := l2]> A) pc L /\ sc_running s' self /\
    (forall e, sc_waiting s' e <-> sc_waiting (sch w) e /\ e <> q_coroutine qd).
Proof.
  intros I Hl Hfr Hrun O' Ho -> HM HQ HQq.
  assert (sc_waiting (sch w) (q_coroutine qd)) as Hwait.
  { destruct (iv_quantum _ _ _ _ I c d _ q Hl) as (qd0 & Hqd0 & _ & _ & _ & Hlive & _); [set_solver|].
    destruct Hfr as [Hqd Hsel]. assert (qd0 = qd) as -> by congruence. unfold live in Hlive.
    destruct (q_select qd); [|done]. destruct Hlive as (t & Ht & Hw). apply Hw.
    rewrite Hsel in Ht by done. congruence. }
  destruct (sc_ready_spec (sch w) self (q_coroutine qd) (iv_sc _ _ _ _ I) Hrun Hwait)
    as (s' & Es & Hok & Hw & Hr).
  exists s'. split_and!.
  - unfold vpu_ready', on_sch, zoom. cbn. by rewrite Es.
  - by apply (inv_wake w A pc L c d l1 q qd l2 st' s' M' Q').
  - by apply Hr.
  - done.
Qed.

(** An attempt that fails has at most dropped quanta nobody waits with. *)
Definition fails_clean (r : outcome) w w' : Prop :=
  forall code, r = Done code -> code <> CHAN_SUCCESS -> exists st', w' = set_cques st' w.

Definition no_waiter w (l : list qid) : Prop := Forall (stale w) l.

(** What a send does, branch by branch; [l] is the receive queue. *)
Definition send_effect w A (q : qid) (c : chid) ch els (l ls : list qid) (s : ptr) (x : list Z) (block : bool)
    (r : outcome) w' A' : Prop :=
  (exists l1 qr qd l2, l = l1 ++ qr :: l2 /\ no_waiter w l1 /\ fresh w qr qd /\
     r = Done CHAN_SUCCESS /\ chans w' = chans w /\ A' = <[(c, recv_que) := l2]> A /\
     cmem w' = mem_copy (q_itembuf qd) (Some s) (elemsize ch) (cmem w) /\
     (forall e, sc_waiting (sch w') e <-> sc_waiting (sch w) e /\ e <> q_coroutine qd)) \/
  (no_waiter w l /\ cmem w' = cmem w /\
   if close ch then r = Done CHAN_CLOSED /\ chans w' = chans w /\ A' = <[(c, recv_que) := []]> A
   else if buffered ch && (nbuf ch <? bufsize ch) then
     r = Done CHAN_SUCCESS /\ A' = <[(c, recv_que) := []]> A /\
     exists ch', chans w' = <[c := ch']> (chans w) /\ same_meta ch ch' /\ chan_rep ch' (els ++ [x])
   else if block then r = Blocks /\ chans w' = <[c := set_clock false ch]> (chans w) /\
     A' = <[(c, send_que) := ls ++ [q]]> (<[(c, recv_que) := []]> A)
   else r = Done CHAN_BUSY /\ chans w' = chans w /\ A' = <[(c, recv_que) := []]> A).

Lemma send_wakes w A pc L L' q c ch els l1 qr qd l2 ls s x block st' :
  ch_inv w A pc L -> chans w !! c = Some ch -> 0 < elemsize ch -> sc_running (sch w) self ->
  A !! (c, recv_que) = Some (l1 ++ qr :: l2) -> no_waiter w l1 -> fresh w qr qd ->
  store_ok st' (<[(c, recv_que) := l2]> A) -> same_owners (cques w) st' ->
  fetch (c, recv_que) w = Ok (Some qr, set_qtag (tag_taken qd (qtag w)) (set_cques st' w)) ->
  valid (cmem w) (Some s) (elemsize ch) ->
  exists r w' A', __coroc_chan_send self q c (Some s) block w = Ok (r, w') /\
    after r w' A' pc L L' q c send_que /\ fails_clean r w w' /\
    send_effect w A q c ch els (l1 ++ qr :: l2) ls s x block r w' A'.
Proof.
  intros I Hc He Hrun Hl Hst Hfr O' Ho E Hs.
  destruct (iv_quantum _ _ _ _ I c recv_que _ qr Hl) as (qd0 & Hqd0 & Hqc & Hqcl & (ch0 & Hch0 & Hval) & _); [set_solver|].
  pose proof Hfr as [Hqd _]. assert (qd0 = qd) as -> by congruence. assert (ch0 = ch) as -> by congruence.
  set (M' := mem_copy (q_itembuf qd) (Some s) (elemsize ch) (cmem w)).
  set (w1 := mk_chworld (chans w) (quanta w) st' (tag_taken qd (qtag w)) M' (puts w) (sch w)).
  destruct (wake_ok w A pc L c recv_que l1 qr qd l2 st' w1 M' (quanta w)) as (s' & Es & I' & Hr' & Hw'); try done.
  { intros p n Hp. apply valid_copy; [lia|done..]. } { by exists qd. }
  exists (Done CHAN_SUCCESS), (set_sch s' w1), (<[(c, recv_que) := l2]> A). split_and!.
  - unfold __coroc_chan_send. rewrite (bind_ok _ _ _ _ _ E).
    set (w0 := set_qtag _ _).
    rewrite (bind_ok _ _ _ qd w0) by (unfold get_quantum; cbn; by rewrite Hqd).
    rewrite (bind_ok _ _ _ ch w0) by (unfold get_chan; cbn; by rewrite Hc).
    rewrite (bind_ok _ _ _ tt w1) by (rewrite chan_memcpy_ok by (done || lia); done).
    by rewrite (bind_ok _ _ _ _ _ Es).
  - done.
  - by intros code [= <-].
  - left. exists l1, qr, qd, l2. split_and!; done.
Qed.

Lemma chan_rep_some ch els : chan_rep ch els -> 0 < elemsize ch.
Proof. by intros [? _]. Qed.

Lemma chan_send_ok w A pc L L' q c ch els l ls s bytes block :
  ch_inv w A pc L -> pc self = C_run -> sc_running (sch w) self ->
  chans w !! c = Some ch -> chan_rep ch els ->
  c ∈ L -> c ∉ L' -> (forall c', c' <> c -> c' ∈ L' <-> c' ∈ L) ->
  A !! (c, recv_que) = Some l -> A !! (c, send_que) = Some ls -> (block = true -> quanta w !! q = None /\ Z.of_nat (length ls) + 1 < 2 ^ 32) ->
  cmem w !! s = Some bytes -> elemsize ch <= Z.of_nat (length bytes) ->
  exists r w' A', __coroc_chan_send self q c (Some s) block w = Ok (r, w') /\
    after r w' A' pc L L' q c send_que /\ fails_clean r w w' /\
    send_effect w A q c ch els l ls s (take (Z.to_nat (elemsize ch)) bytes) block r w' A'.
Proof.
  intros I Hpc Hrun Hc Hrep HL HL' HLL Hl Hls Hlen Hs Hsb.
  pose proof (chan_rep_some _ _ Hrep) as He.
  destruct (fetch_ok (c, recv_que) l w A (iv_store _ _ _ _ I) Hl (inv_fetchable _ _ _ _ _ _ _ I Hl))
    as (l1 & r & l2 & st' & El & Hst & Hnil & O' & Ho & Hres).
  destruct r as [qr|].
  { destruct Hres as (qd & Hfr & E). cbn in El. subst l.
    eapply send_wakes; try done. exists bytes. done. }
  rewrite Hnil in * by done. cbn in El. rewrite !app_nil_r in El. subst l1.
  set (w1 := set_cques st' w).
  assert (ch_inv w1 (<[(c, recv_que) := []]> A) pc L) as I1
    by (eapply inv_drop; [done|done|set_solver|done|done]).
  unfold __coroc_chan_send, send_effect. rewrite (bind_ok _ _ _ _ _ Hres).
  rewrite (bind_ok _ _ _ ch w1) by (unfold get_chan; cbn; by rewrite Hc).
  destruct (close ch) eqn:Ecl.
  { exists (Done CHAN_CLOSED), w1, (<[(c, recv_que) := []]> A). split_and!; [done|done|by intros ???; exists st'|].
    right. done. }
  destruct Hrep as [_ Hrep]. destruct (buffered ch) eqn:Eb; cbn [andb].
  - destruct (Z.ltb_spec (nbuf ch) (bufsize ch)) as [Hlt|Hge].
    + destruct (copy_to_buff_ok w1 c ch els s bytes) as (ch' & Ec & Hm & Hr'); [done..|].
      exists (Done CHAN_SUCCESS), (set_chans (<[c := ch']> (chans w)) w1), (<[(c, recv_que) := []]> A).
      rewrite (bind_ok _ _ _ _ _ Ec).
      assert (chan_rep ch' (els ++ [take (Z.to_nat (elemsize ch)) bytes])) as Hcr.
      { destruct Hm as (_ & _ & _ & _ & Ee & Ebf & _). split; [by rewrite Ee|]. by rewrite Ebf, Eb. }
      split_and!; [done| |by intros code [= <-]|].
      * split; [|done]. destruct Hm as (_ & _ & Ek & _ & Ee & _).
        eapply (inv_chan_upd w1 _ pc L L c ch ch' I1 Hc); [done| |done|by eexists].
        rewrite Ek. by apply (iv_chan _ _ _ _ I).
      * right. split_and!; [done|done|done|done|]. by exists ch'.
    + pose proof (rr_cap _ _ Hrep).
      rewrite (bind_ok _ _ _ _ _ (copy_to_buff_full w1 c ch (Some s) Hc ltac:(lia))).
      destruct block.
      * destruct (Hlen eq_refl) as [Hq Hlen'].
        destruct (block_on_ok w1 (<[(c, recv_que) := []]> A) pc L L' self q c send_que ls (Some s) ch)
          as (w' & E & I' & Hw & Hm & Hch); try done.
        { by exists bytes. } { by rewrite lookup_insert_ne. }
        exists Blocks, w', (<[(c, send_que) := ls ++ [q]]> (<[(c, recv_que) := []]> A)).
        split_and!; [done|done|done|]. right. by split_and!.
      * exists (Done CHAN_BUSY), w1, (<[(c, recv_que) := []]> A). split_and!; [done|done|by intros ???; exists st'|]. by right.
  - rewrite (bind_ok _ _ _ false w1) by done. destruct block.
    * destruct (Hlen eq_refl) as [Hq Hlen'].
      destruct (block_on_ok w1 (<[(c, recv_que) := []]> A) pc L L' self q c send_que ls (Some s) ch)
        as (w' & E & I' & Hw & Hm & Hch); try done.
      { by exists bytes. } { by rewrite lookup_insert_ne. }
      exists Blocks, w', (<[(c, send_que) := ls ++ [q]]> (<[(c, recv_que) := []]> A)).
      split_and!; [done|done|done|]. right. by split_and!.
    * exists (Done CHAN_BUSY), w1, (<[(c, recv_que) := []]> A). split_and!; [done|done|by intros ???; exists st'|]. by right.
Qed.


(** What a receive does, branch by branch; [l] is the send queue, [lr] the
    receive queue. *)
Definition recv_effect w A (q : qid) (c : chid) ch els (l lr : list qid) (b : option ptr) (block : bool)
    (r : outcome) w' A' : Prop :=
  match els with
  | x :: els' =>
      r = Done CHAN_SUCCESS /\ cmem w' = mem_write b x (cmem w) /\ A' = A /\
      exists ch', chans w' = <[c := ch']> (chans w) /\ same_meta ch ch' /\ chan_rep ch' els'
  | [] =>
      (exists l1 qs qd l2, l = l1 ++ qs :: l2 /\ no_waiter w l1 /\ fresh w qs qd /\
         r = Done CHAN_SUCCESS /\ chans w' = chans w /\ A' = <[(c, send_que) := l2]> A /\
         cmem w' = mem_copy b (q_itembuf qd) (elemsize ch) (cmem w) /\
         (forall e, sc_waiting (sch w') e <-> sc_waiting (sch w) e /\ e <> q_coroutine qd)) \/
      (no_waiter w l /\ cmem w' = cmem w /\
       if close ch then r = Done CHAN_CLOSED /\ chans w' = chans w /\ A' = <[(c, send_que) := []]> A
       else if block then r = Blocks /\ chans w' = <[c := set_clock false ch]> (chans w) /\
         A' = <[(c, recv_que) := lr ++ [q]]> (<[(c, send_que) := []]> A)
       else r = Done CHAN_BUSY /\ chans w' = chans w /\ A' = <[(c, send_que) := []]> A)
  end.

(** The part of [__coroc_chan_recv] after an empty buffer. *)
Definition recv_wait (q : qid) (c : chid) ch (b : option ptr) (block : bool) : ST (chworld S) outcome :=
  let! qp := fetch (c, send_que) in
  match qp with
  | Some qp =>
      let! qd := get_quantum qp in
      do! __chan_memcpy b (q_itembuf qd) (elemsize ch) in
      do! vpu_ready' self (q_coroutine qd) in
      ret (Done CHAN_SUCCESS)
  | None =>
      if close ch then ret (Done CHAN_CLOSED) else
      if block then block_on self q c recv_que b else ret (Done CHAN_BUSY)
  end.

Lemma recv_wakes w A pc L L' q c ch l1 qs qd l2 lr b block st' :
  ch_inv w A pc L -> chans w !! c = Some ch -> 0 < elemsize ch -> sc_running (sch w) self ->
  A !! (c, send_que) = Some (l1 ++ qs :: l2) -> no_waiter w l1 -> fresh w qs qd ->
  store_ok st' (<[(c, send_que) := l2]> A) -> same_owners (cques w) st' ->
  fetch (c, send_que) w = Ok (Some qs, set_qtag (tag_taken qd (qtag w)) (set_cques st' w)) ->
  valid (cmem w) b (elemsize ch) ->
  exists r w' A', recv_wait q c ch b block w = Ok (r, w') /\
    after r w' A' pc L L' q c recv_que /\ fails_clean r w w' /\
    recv_effect w A q c ch [] (l1 ++ qs :: l2) lr b block r w' A'.
Proof.
  intros I Hc He Hrun Hl Hst Hfr O' Ho E Hs.
  destruct (iv_quantum _ _ _ _ I c send_que _ qs Hl) as (qd0 & Hqd0 & Hqc & Hqcl & (ch0 & Hch0 & Hval) & _); [set_solver|].
  pose proof Hfr as [Hqd _]. assert (qd0 = qd) as -> by congruence. assert (ch0 = ch) as -> by congruence.
  set (M' := mem_copy b (q_itembuf qd) (elemsize ch) (cmem w)).
  set (w1 := mk_chworld (chans w) (quanta w) st' (tag_taken qd (qtag w)) M' (puts w) (sch w)).
  destruct (wake_ok w A pc L c send_que l1 qs qd l2 st' w1 M' (quanta w)) as (s' & Es & I' & Hr' & Hw'); try done.
  { intros p n Hp. apply valid_copy; [lia|done..]. } { by exists qd. }
  exists (Done CHAN_SUCCESS), (set_sch s' w1), (<[(c, send_que) := l2]> A). split_and!.
  - unfold recv_wait. rewrite (bind_ok _ _ _ _ _ E).
    set (w0 := set_qtag _ _).
    rewrite (bind_ok _ _ _ qd w0) by (unfold get_quantum; cbn; by rewrite Hqd).
    rewrite (bind_ok _ _ _ tt w1) by (rewrite chan_memcpy_ok by (done || lia); done).
    by rewrite (bind_ok _ _ _ _ _ Es).
  - done.
  - by intros code [= <-].
  - left. exists l1, qs, qd, l2. split_and!; done.
Qed.

Lemma recv_wait_ok w A pc L L' q c ch l lr b block :
  ch_inv w A pc L -> pc self = C_run -> sc_running (sch w) self ->
  chans w !! c = Some ch -> 0 < elemsize ch ->
  c ∈ L -> c ∉ L' -> (forall c', c' <> c -> c' ∈ L' <-> c' ∈ L) ->
  A !! (c, send_que) = Some l -> A !! (c, recv_que) = Some lr -> (block = true -> quanta w !! q = None /\ Z.of_nat (length lr) + 1 < 2 ^ 32) ->
  valid (cmem w) b (elemsize ch) ->
  exists r w' A', recv_wait q c ch b block w = Ok (r, w') /\
    after r w' A' pc L L' q c recv_que /\ fails_clean r w w' /\
    recv_effect w A q c ch [] l lr b block r w' A'.
Proof.
  intros I Hpc Hrun Hc He HL HL' HLL Hl Hlr Hlen Hb.
  destruct (fetch_ok (c, send_que) l w A (iv_store _ _ _ _ I) Hl (inv_fetchable _ _ _ _ _ _ _ I Hl))
    as (l1 & r & l2 & st' & El & Hst & Hnil & O' & Ho & Hres).
  destruct r as [qs|].
  { destruct Hres as (qd & Hfr & E). cbn in El. subst l. eapply recv_wakes; done. }
  rewrite Hnil in * by done. cbn in El. rewrite !app_nil_r in El. subst l1.
  set (w1 := set_cques st' w).
  assert (ch_inv w1 (<[(c, send_que) := []]> A) pc L) as I1
    by (eapply inv_drop; [done|done|set_solver|done|done]).
  unfold recv_wait, recv_effect. rewrite (bind_ok _ _ _ _ _ Hres).
  destruct (close ch) eqn:Ecl.
  { exists (Done CHAN_CLOSED), w1, (<[(c, send_que) := []]> A). split_and!; [done|done|by intros ???; exists st'|]. by right. }
  destruct block.
  - destruct (Hlen eq_refl) as [Hq Hlen'].
    destruct (block_on_ok w1 (<[(c, send_que) := []]> A) pc L L' self q c recv_que lr b ch)
      as (w' & E & I' & Hw & Hm & Hch); try done.
    { by rewrite lookup_insert_ne. }
    exists Blocks, w', (<[(c, recv_que) := lr ++ [q]]> (<[(c, send_que) := []]> A)).
    split_and!; [done|done|done|]. right. by split_and!.
  - exists (Done CHAN_BUSY), w1, (<[(c, send_que) := []]> A). split_and!; [done|done|by intros ???; exists st'|]. by right.
Qed.

Lemma chan_recv_ok w A pc L L' q c ch els l lr b block :
  ch_inv w A pc L -> pc self = C_run -> sc_running (sch w) self ->
  chans w !! c = Some ch -> chan_rep ch els ->
  c ∈ L -> c ∉ L' -> (forall c', c' <> c -> c' ∈ L' <-> c' ∈ L) ->
  A !! (c, send_que) = Some l -> A !! (c, recv_que) = Some lr -> (block = true -> quanta w !! q = None /\ Z.of_nat (length lr) + 1 < 2 ^ 32) ->
  valid (cmem w) b (elemsize ch) ->
  exists r w' A', __coroc_chan_recv self q c b block w = Ok (r, w') /\
    after r w' A' pc L L' q c recv_que /\ fails_clean r w w' /\
    recv_effect w A q c ch els l lr b block r w' A'.
Proof.
  intros I Hpc Hrun Hc Hrep HL HL' HLL Hl Hlr Hlen Hb.
  pose proof (chan_rep_some _ _ Hrep) as He. destruct Hrep as [_ Hrep].
  assert (__coroc_chan_recv self q c b block w =
    bind (if buffered ch then __coroc_copy_from_buff c b else ret false)
      (fun copied => if copied then ret (Done CHAN_SUCCESS) else recv_wait q c ch b block) w) as ->.
  { unfold __coroc_chan_recv. by rewrite (bind_ok _ _ _ ch w) by (unfold get_chan; by rewrite Hc). }
  destruct (buffered ch) eqn:Eb.
  2: { destruct Hrep as [-> _]. rewrite (bind_ok _ _ _ false w) by done. by apply recv_wait_ok. }
  destruct els as [|x els].
  { rewrite (bind_ok _ _ _ _ _ (copy_from_buff_empty w c ch b Hc (rr_nbuf _ _ Hrep))). by apply recv_wait_ok. }
  destruct (copy_from_buff_ok w c ch x els b Hc Hrep Hb) as (ch' & Ec & Hm & Hr' & Hx).
  rewrite (bind_ok _ _ _ _ _ Ec).
  set (w1 := set_cmem (mem_write b x (cmem w)) w).
  assert (ch_inv w1 A pc L) as I1.
  { apply inv_mem; [done|]. intros p n. apply valid_write. by rewrite Hx. }
  assert (chan_rep ch' els) as Hcr.
  { destruct Hm as (_ & _ & _ & _ & Ee & Ebf & _). split; [by rewrite Ee|]. by rewrite Ebf, Eb. }
  exists (Done CHAN_SUCCESS), (set_chans (<[c := ch']> (chans w)) w1), A. split_and!; [done| |by intros code [= <-]|].
  - split; [|done]. destruct Hm as (_ & _ & Ek & _ & Ee & _).
    eapply (inv_chan_upd w1 _ pc L L c ch ch' I1 Hc); [done| |done|by eexists].
    rewrite Ek. by apply (iv_chan _ _ _ _ I).
  - split_and!; [done|done|done|]. by exists ch'.
Qed.

(** ** The public operations *)

Lemma finish_ok w1 A' pc q c d r ch1 :
  after r w1 A' pc [c] [] q c d -> chans w1 !! c = Some ch1 ->
  exists w2, finish c r w1 = Ok (r, w2) /\ after r w2 A' pc [] [] q c d /\
    w2 = match r with Done _ => set_chans (<[c := set_clock false ch1]> (chans w1)) w1 | Blocks => w1 end.
Proof.
  intros Ha Hc. destruct r as [code|]; cbn in Ha; [|by exists w1].
  destruct Ha as [I Hr].
  destruct (lock_release_ok w1 A' pc [c] [] c ch1 I Hc) as [E I']; [by left|set_solver..|].
  eexists. split_and!; [|split; [exact I'|done]|done].
  unfold finish. by rewrite (bind_ok _ _ _ _ _ E).
Qed.

Lemma set_clock_id ch b : clock ch = b -> set_clock b ch = ch.
Proof. by destruct ch; cbn; intros ->. Qed.

Definition locked w (c : chid) ch : chworld S := set_chans (<[c := set_clock true ch]> (chans w)) w.

Lemma unlock_chan (M : gmap chid chan) (c : chid) ch :
  M !! c = Some ch -> clock ch = false ->
  <[c := set_clock false (set_clock true ch)]> (<[c := set_clock true ch]> M) = M.
Proof.
  intros Hc Hk. rewrite insert_insert_eq. change (set_clock false (set_clock true ch)) with (set_clock false ch).
  by rewrite set_clock_id, insert_id.
Qed.

Lemma chan_rep_clock ch b els : chan_rep ch els -> chan_rep (set_clock b ch) els.
Proof. intros [? Hr]. split; [done|]. cbn. destruct (buffered ch); [destruct Hr; by split|done]. Qed.

(** An operation of the channel under its lock that keeps the description of
    the channel, or replaces it by one that differs in the buffer only. *)
Lemma unlock_effect w w1 r c ch ch1 :
  chans w !! c = Some ch -> clock ch = false -> chans w1 !! c = Some ch1 ->
  let w2 := match r with Done _ => set_chans (<[c := set_clock false ch1]> (chans w1)) w1 | Blocks => w1 end in
  (r <> Blocks -> chans w1 = <[c := set_clock true ch]> (chans w) -> chans w2 = chans w) /\
  (r = Blocks -> chans w1 = <[c := set_clock false (set_clock true ch)]> (<[c := set_clock true ch]> (chans w)) ->
   chans w2 = chans w) /\
  (r <> Blocks -> chans w1 = <[c := ch1]> (<[c := set_clock true ch]> (chans w)) ->
   chans w2 = <[c := set_clock false ch1]> (chans w)).
Proof.
  intros Hc Hk H1. split_and!.
  - intros Hr E. destruct r; [|done]. cbn. rewrite E in H1 |- *. rewrite lookup_insert_eq in H1.
    injection H1 as <-. by apply unlock_chan.
  - intros -> E. cbn. rewrite E. by apply unlock_chan.
  - intros Hr E. destruct r; [|done]. cbn. rewrite E. by rewrite !insert_insert_eq.
Qed.

Lemma same_meta_unlock ch ch1 :
  clock ch = false -> same_meta (set_clock true ch) ch1 -> same_meta ch (set_clock false ch1).
Proof. intros Hk (?&?&?&?&?&?&?). by split_and!. Qed.

(** The channel is there after the operation. *)
Ltac find_chan w1 :=
  repeat match goal with
    | H : _ /\ _ |- _ => destruct H
    | H : exists _, _ |- _ => destruct H
    | E : chans w1 = _ |- _ => rewrite E; cbn; rewrite lookup_insert_eq; by eauto
    end.

Lemma chan_send_unlock w A q c ch els l ls s x block r w1 A' :
  chans w !! c = Some ch -> clock ch = false ->
  send_effect (locked w c ch) A q c (set_clock true ch) els l ls s x block r w1 A' ->
  exists ch1, chans w1 !! c = Some ch1 /\
    send_effect w A q c ch els l ls s x block r
      match r with Done _ => set_chans (<[c := set_clock false ch1]> (chans w1)) w1 | Blocks => w1 end A'.
Proof.
  intros Hc Hk Heff.
  assert (exists ch1, chans w1 !! c = Some ch1) as [ch1 H1].
  { destruct Heff as [(l1 & qr & qd & l2 & _ & _ & _ & _ & E & _)|(_ & _ & Heff)].
    { rewrite E. cbn. rewrite lookup_insert_eq. eauto. }
    cbn in Heff. destruct (close ch); [|destruct (buffered ch && _); [|destruct block]].
    all: by find_chan w1. }
  exists ch1. split; [done|].
  destruct (unlock_effect w w1 r c ch ch1 Hc Hk H1) as (U1 & U2 & U3).
  destruct Heff as [(l1 & qr & qd & l2 & Hl & Hs & Hf & -> & E & HA & HM & Hw)|(Hs & HM & Heff)].
  - left. exists l1, qr, qd, l2. split_and!; try done. by apply U1.
  - right. split_and!; [done|destruct r; done|]. cbn in Heff.
    destruct (close ch); [|destruct (buffered ch && _); [|destruct block]].
    + destruct Heff as (-> & E & HA). split_and!; try done. by apply U1.
    + destruct Heff as (-> & HA & ch' & E & Hm & Hr). split_and!; try done.
      assert (ch1 = ch') as -> by (rewrite E, lookup_insert_eq in H1; congruence).
      exists (set_clock false ch'). split_and!; [by apply U3|by apply same_meta_unlock|by apply chan_rep_clock].
    + destruct Heff as (-> & E & HA). split_and!; try done.
      rewrite set_clock_id, (insert_id (chans w)) by done. by apply U2.
    + destruct Heff as (-> & E & HA). split_and!; try done. by apply U1.
Qed.

Lemma chan_recv_unlock w A q c ch els l lr b block r w1 A' :
  chans w !! c = Some ch -> clock ch = false ->
  recv_effect (locked w c ch) A q c (set_clock true ch) els l lr b block r w1 A' ->
  exists ch1, chans w1 !! c = Some ch1 /\
    recv_effect w A q c ch els l lr b block r
      match r with Done _ => set_chans (<[c := set_clock false ch1]> (chans w1)) w1 | Blocks => w1 end A'.
Proof.
  intros Hc Hk Heff.
  assert (exists ch1, chans w1 !! c = Some ch1) as [ch1 H1].
  { destruct els as [|x els]; cbn in Heff; [|by find_chan w1].
    destruct Heff as [(l1 & qr & qd & l2 & _ & _ & _ & _ & E & _)|(_ & _ & Heff)].
    { rewrite E. cbn. rewrite lookup_insert_eq. eauto. }
    destruct (close ch); [|destruct block]; by find_chan w1. }
  exists ch1. split; [done|].
  destruct (unlock_effect w w1 r c ch ch1 Hc Hk H1) as (U1 & U2 & U3).
  destruct els as [|x els]; cbn in Heff |- *.
  - destruct Heff as [(l1 & qr & qd & l2 & Hl & Hs & Hf & -> & E & HA & HM & Hw)|(Hs & HM & Heff)].
    + left. exists l1, qr, qd, l2. split_and!; try done. by apply U1.
    + right. split_and!; [done|destruct r; done|].
      destruct (close ch); [|destruct block]; destruct Heff as (-> & E & HA); split_and!; try done.
      * by apply U1.
      * rewrite set_clock_id, (insert_id (chans w)) by done. by apply U2.
      * by apply U1.
  - destruct Heff as (-> & HM & HA & ch' & E & Hm & Hr). split_and!; try done.
    assert (ch1 = ch') as -> by (rewrite E, lookup_insert_eq in H1; congruence).
    exists (set_clock false ch'). split_and!; [by apply U3|by apply same_meta_unlock|by apply chan_rep_clock].
Qed.

Lemma send_ok w A pc q c ch els l ls s bytes block :
  ch_inv w A pc [] -> pc self = C_run -> sc_running (sch w) self ->
  chans w !! c = Some ch -> chan_rep ch els ->
  A !! (c, recv_que) = Some l -> A !! (c, send_que) = Some ls -> (block = true -> quanta w !! q = None /\ Z.of_nat (length ls) + 1 < 2 ^ 32) ->
  cmem w !! s = Some bytes -> elemsize ch <= Z.of_nat (length bytes) ->
  exists r w' A', _coroc_chan_send self q c (Some s) block w = Ok (r, w') /\
    after r w' A' pc [] [] q c send_que /\
    send_effect w A q c ch els l ls s (take (Z.to_nat (elemsize ch)) bytes) block r w' A'.
Proof.
  intros I Hpc Hrun Hc Hrep Hl Hls Hlen Hs Hsb.
  assert (clock ch = false) as Hk by (rewrite (proj1 (iv_chan _ _ _ _ I c ch Hc)); by apply bool_decide_eq_false_2, not_elem_of_nil).
  destruct (lock_acquire_ok w A pc [] c ch I Hc) as [El I0]; [set_solver|].
  destruct (chan_send_ok (locked w c ch) A pc [c] [] q c (set_clock true ch) els l ls s bytes block)
    as (r & w1 & A' & E & Ha & _ & Heff);
    [done|done|done|cbn; by rewrite lookup_insert_eq|by apply chan_rep_clock|by left|apply not_elem_of_nil| |done..|].
  { intros c' Hne. rewrite elem_of_nil, list_elem_of_singleton. naive_solver. }
  destruct (chan_send_unlock _ _ _ _ _ _ _ _ _ _ _ _ _ _ Hc Hk Heff) as (ch1 & H1 & Heff').
  destruct (finish_ok w1 A' pc q c send_que r ch1 Ha H1) as (w2 & Ef & Ha' & ->).
  eexists r, _, A'. split_and!; [|exact Ha'|exact Heff'].
  unfold _coroc_chan_send. rewrite (bind_ok _ _ _ _ _ El), (bind_ok _ _ _ _ _ E). done.
Qed.

Lemma recv_ok w A pc own q c0 c ch els l lr b block :
  c = from_option id own c0 ->
  ch_inv w A pc [] -> pc self = C_run -> sc_running (sch w) self ->
  chans w !! c = Some ch -> chan_rep ch els ->
  A !! (c, send_que) = Some l -> A !! (c, recv_que) = Some lr -> (block = true -> quanta w !! q = None /\ Z.of_nat (length lr) + 1 < 2 ^ 32) ->
  valid (cmem w) b (elemsize ch) ->
  exists r w' A', _coroc_chan_recv self q own c0 b block w = Ok (r, w') /\
    after r w' A' pc [] [] q c recv_que /\
    recv_effect w A q c ch els l lr b block r w' A'.
Proof.
  intros Ec I Hpc Hrun Hc Hrep Hl Hlr Hlen Hb.
  assert (clock ch = false) as Hk by (rewrite (proj1 (iv_chan _ _ _ _ I c ch Hc)); by apply bool_decide_eq_false_2, not_elem_of_nil).
  destruct (lock_acquire_ok w A pc [] c ch I Hc) as [El I0]; [set_solver|].
  destruct (chan_recv_ok (locked w c ch) A pc [c] [] q c (set_clock true ch) els l lr b block)
    as (r & w1 & A' & E & Ha & _ & Heff);
    [done|done|done|cbn; by rewrite lookup_insert_eq|by apply chan_rep_clock|by left|apply not_elem_of_nil| |done..|].
  { intros c' Hne. rewrite elem_of_nil, list_elem_of_singleton. naive_solver. }
  destruct (chan_recv_unlock _ _ _ _ _ _ _ _ _ _ _ _ _ Hc Hk Heff) as (ch1 & H1 & Heff').
  destruct (finish_ok w1 A' pc q c recv_que r ch1 Ha H1) as (w2 & Ef & Ha' & ->).
  eexists r, _, A'. split_and!; [|exact Ha'|exact Heff'].
  unfold _coroc_chan_recv. rewrite <- Ec. rewrite (bind_ok _ _ _ _ _ El), (bind_ok _ _ _ _ _ E). done.
Qed.

(** ** Closing *)

(** All quanta of [l] that were waiting on the channel [c] are marked closed
    and their coroutines woken, nothing else changes. *)
Record closed_all (c : chid) w w' (l : list qid) : Prop := {
  cl_closed : forall q qd, q ∈ l -> fresh w q qd -> quanta w' !! q = Some (set_q_close qd) /\
    (q_select qd = true -> qtag w' !! q_coroutine qd = Some (Some c));
  cl_quanta : forall q, (forall qd, q ∈ l -> ~ fresh w q qd) -> quanta w' !! q = quanta w !! q;
  cl_tag : forall e, (forall q qd, q ∈ l -> fresh w q qd -> q_coroutine qd <> e) -> qtag w' !! e = qtag w !! e;
  cl_wait : forall e, sc_waiting (sch w') e <->
    sc_waiting (sch w) e /\ (forall q qd, q ∈ l -> fresh w q qd -> q_coroutine qd <> e);
  cl_chans : chans w' = chans w;
  cl_mem : cmem w' = cmem w;
  cl_puts : puts w' = puts w
}.

(** No quantum is in both lists, and no coroutine has one in each. *)
Definition apart w (l1 l2 : list qid) : Prop :=
  forall q1 q2, q1 ∈ l1 -> q2 ∈ l2 -> q1 <> q2 /\
    forall qd1 qd2, quanta w !! q1 = Some qd1 -> quanta w !! q2 = Some qd2 ->
      q_coroutine qd1 <> q_coroutine qd2.

Lemma closed_fresh c w w1 l1 l2 q qd :
  closed_all c w w1 l1 -> apart w l1 l2 -> q ∈ l2 -> fresh w1 q qd <-> fresh w q qd.
Proof.
  intros C Hap Hq.
  assert (quanta w1 !! q = quanta w !! q) as Eq.
  { apply (cl_quanta _ _ _ _ C). intros qd' Hin _. by destruct (Hap q q Hin Hq). }
  unfold fresh. rewrite Eq.
  assert (quanta w !! q = Some qd -> qtag w1 !! q_coroutine qd = qtag w !! q_coroutine qd) as Et.
  { intros Hqd. apply (cl_tag _ _ _ _ C). intros q1 qd1 Hin [H1 _].
    destruct (Hap q1 q Hin Hq) as [_ Hne]. by apply Hne. }
  split; intros [Hqd Hs]; (split; [done|]); by rewrite Et in * by done.
Qed.

Lemma closed_app c w w1 w2 l1 l2 :
  closed_all c w w1 l1 -> closed_all c w1 w2 l2 -> apart w l1 l2 -> closed_all c w w2 (l1 ++ l2).
Proof.
  intros C1 C2 Hap. pose proof (fun q qd => closed_fresh c w w1 l1 l2 q qd C1 Hap) as Hf.
  split; [| | | |by rewrite (cl_chans _ _ _ _ C2), (cl_chans _ _ _ _ C1)
          |by rewrite (cl_mem _ _ _ _ C2), (cl_mem _ _ _ _ C1)
          |by rewrite (cl_puts _ _ _ _ C2), (cl_puts _ _ _ _ C1)].
  - intros q qd [Hin|Hin]%elem_of_app Hfr.
    + destruct (cl_closed _ _ _ _ C1 q qd Hin Hfr) as [Hq Ht]. split.
      * rewrite (cl_quanta _ _ _ _ C2); [done|]. intros qd' Hin2. by destruct (Hap q q Hin Hin2).
      * intros Hs. rewrite (cl_tag _ _ _ _ C2); [by apply Ht|]. intros q2 qd2 Hin2 Hf2.
        apply Hf in Hf2; [|done]. destruct (Hap q q2 Hin Hin2) as [_ Hne].
        intros E. apply (Hne qd qd2); [apply Hfr|apply Hf2|done].
    + apply (cl_closed _ _ _ _ C2 q qd Hin). by apply Hf.
  - intros q Hn. rewrite (cl_quanta _ _ _ _ C2).
    + apply (cl_quanta _ _ _ _ C1). intros qd Hin. apply Hn, elem_of_app. by left.
    + intros qd Hin Hfr. apply (Hn qd); [apply elem_of_app; by right|]. by apply Hf.
  - intros e Hn. rewrite (cl_tag _ _ _ _ C2).
    + apply (cl_tag _ _ _ _ C1). intros q qd Hin. apply Hn, elem_of_app. by left.
    + intros q qd Hin Hfr. apply (Hn q); [apply elem_of_app; by right|]. by apply Hf.
  - intros e. rewrite (cl_wait _ _ _ _ C2), (cl_wait _ _ _ _ C1). split.
    + intros [[Hw H1] H2]. split; [done|]. intros q qd [Hin|Hin]%elem_of_app Hfr; [by eapply H1|].
      eapply H2; [done|]. by apply Hf.
    + intros [Hw Hn]. split; [split; [done|]|]; intros q qd Hin Hfr; apply (Hn q qd).
      * apply elem_of_app; by left. * done.
      * apply elem_of_app; by right. * by apply Hf.
Qed.

(** A coroutine has at most one quantum in the queues of one channel. *)
Lemma queued_coroutine_once w A pc L c d1 d2 l1 l2 q1 q2 qd1 qd2 :
  ch_inv w A pc L -> A !! (c, d1) = Some l1 -> A !! (c, d2) = Some l2 -> q1 ∈ l1 -> q2 ∈ l2 ->
  quanta w !! q1 = Some qd1 -> quanta w !! q2 = Some qd2 -> q_coroutine qd1 = q_coroutine qd2 ->
  q1 = q2.
Proof.
  intros I H1 H2 Hi1 Hi2 Hq1 Hq2 Ec.
  destruct (iv_quantum _ _ _ _ I _ _ _ _ H1 Hi1) as (x1 & Hx1 & _ & _ & _ & _ & P1).
  destruct (iv_quantum _ _ _ _ I _ _ _ _ H2 Hi2) as (x2 & Hx2 & _ & _ & _ & _ & P2).
  assert (x1 = qd1) as -> by congruence. assert (x2 = qd2) as -> by congruence.
  unfold parked in P1, P2. rewrite Ec in P1.
  destruct (pc (q_coroutine qd2)) as [|q0 c0 d0|qs set] eqn:Ep; [done|naive_solver|].
  destruct P1 as (_ & i1 & e1 & Hs1 & He1 & Hc1), P2 as (_ & i2 & e2 & Hs2 & He2 & Hc2).
  pose proof (iv_select _ _ _ _ I _ _ _ Ep) as Sl.
  assert (NoDup (s_chan <$> cases set)) as Hnd
    by (rewrite <- (sl_perm _ _ _ _ Sl); apply (sl_locks _ _ _ _ Sl)).
  assert (i1 = i2) as ->; [|congruence].
  unfold case_que in Hc1, Hc2. injection Hc1 as E1 _. injection Hc2 as E2 _.
  eapply (NoDup_lookup _ _ _ c Hnd); rewrite list_lookup_fmap.
  - rewrite He1. cbn. by rewrite E1.
  - rewrite He2. cbn. by rewrite E2.
Qed.

Lemma closed_stale c w w' (l : list qid) :
  no_waiter w l -> quanta w' = quanta w -> qtag w' = qtag w -> sch w' = sch w -> chans w' = chans w ->
  cmem w' = cmem w -> puts w' = puts w -> closed_all c w w' l.
Proof.
  intros Hs Eq Et Es Ec Em Ep.
  assert (forall q qd, q ∈ l -> ~ fresh w q qd) as Hnf.
  { intros q qd Hin [Hqd Hf]. destruct (proj1 (Forall_forall _ _) Hs q Hin) as (qd' & t & Hqd' & Hsel & Ht).
    assert (qd' = qd) as -> by congruence. rewrite Hf in Ht by done. done. }
  split; try done.
  - intros q qd Hin Hf. by destruct (Hnf _ _ Hin Hf).
  - intros q _. by rewrite Eq.
  - intros e _. by rewrite Et.
  - intros e. rewrite Es. split; [|by intros [? _]]. intros Hw. split; [done|].
    intros q qd Hin Hf. by destruct (Hnf _ _ Hin Hf).
Qed.

(** One round of the loop of [coroc_chan_close]. *)
Lemma close_one w A pc L c d l1 q qd l2 st' :
  ch_inv w A pc L -> A !! (c, d) = Some (l1 ++ q :: l2) -> no_waiter w l1 -> fresh w q qd ->
  sc_running (sch w) self -> store_ok st' (<[(c, d) := l2]> A) -> same_owners (cques w) st' ->
  exists w1,
    (do! upd_quantum q set_q_close in let! qd := get_quantum q in vpu_ready' self (q_coroutine qd))
      (set_qtag (tag_taken qd (qtag w)) (set_cques st' w)) = Ok (tt, w1) /\
    ch_inv w1 (<[(c, d) := l2]> A) pc L /\ sc_running (sch w1) self /\
    closed_all c w w1 (l1 ++ [q]).
Proof.
  intros I Hl Hst Hfr Hrun O' Ho. pose proof Hfr as [Hqd Hsel].
  destruct (iv_quantum _ _ _ _ I c d _ q Hl) as (qd0 & Hqd0 & Hqc & _); [set_solver|].
  assert (qd0 = qd) as -> by congruence.
  set (w0 := mk_chworld (chans w) (<[q := set_q_close qd]> (quanta w)) st' (tag_taken qd (qtag w))
               (cmem w) (puts w) (sch w)).
  destruct (wake_ok w A pc L c d l1 q qd l2 st' w0 (cmem w) (<[q := set_q_close qd]> (quanta w)))
    as (s' & Es & I' & Hr' & Hw'); try done.
  { intros q' Hne. by rewrite lookup_insert_ne. }
  { exists (set_q_close qd). by rewrite lookup_insert_eq. }
  exists (set_sch s' w0). split_and!; [|done|done|].
  - rewrite (bind_ok _ _ _ tt w0) by (unfold upd_quantum; cbn; by rewrite Hqd).
    rewrite (bind_ok _ _ _ (set_q_close qd) w0) by (unfold get_quantum; cbn; by rewrite lookup_insert_eq).
    exact Es.
  - assert (forall q' qd', q' ∈ l1 ++ [q] -> fresh w q' qd' -> q' = q /\ qd' = qd) as Huniq.
    { intros q' qd' [Hin| ->%list_elem_of_singleton]%elem_of_app [Hqd' Hf'].
      - destruct (proj1 (Forall_forall _ _) Hst q' Hin) as (x & t & Hx & Hs & Ht).
        assert (x = qd') as -> by congruence. rewrite Hf' in Ht by done. done.
      - split; [done|]. congruence. }
    assert (q ∈ l1 ++ [q]) as Hq by (apply elem_of_app; right; by left).
    split; cbn; try done.
    + intros q' qd' Hin Hf. destruct (Huniq _ _ Hin Hf) as [-> ->]. rewrite lookup_insert_eq.
      split; [done|]. intros Hs. unfold tag_taken. by rewrite Hs, lookup_insert_eq, Hqc.
    + intros q' Hn. rewrite lookup_insert_ne; [done|]. intros <-. by apply (Hn qd).
    + intros e Hn. unfold tag_taken. destruct (q_select qd); [|done].
      rewrite lookup_insert_ne; [done|]. by apply (Hn q qd).
    + intros e. rewrite Hw'. split; intros [Hwe Hn]; (split; [done|]).
      * intros q' qd' Hin Hf. destruct (Huniq _ _ Hin Hf) as [-> ->]. congruence.
      * intros ->. by apply (Hn q qd).
Qed.

Lemma close_queue_ok c d n : forall l w A pc L fuel,
  ch_inv w A pc L -> sc_running (sch w) self -> A !! (c, d) = Some l -> (length l <= n)%nat ->
  (length l < fuel)%nat ->
  exists w', close_queue self fuel (c, d) w = Ok (tt, w') /\
    ch_inv w' (<[(c, d) := []]> A) pc L /\ sc_running (sch w') self /\ closed_all c w w' l.
Proof.
  induction n as [n IH] using lt_wf_ind. intros l w A pc L fuel I Hrun Hl Hn Hfuel.
  destruct fuel as [|fuel]; [lia|].
  destruct (fetch_ok (c, d) l w A (iv_store _ _ _ _ I) Hl (inv_fetchable _ _ _ _ _ _ _ I Hl))
    as (l1 & r & l2 & st' & El & Hst & Hnil & O' & Ho & Hres).
  cbn [close_queue]. destruct r as [q|].
  - destruct Hres as (qd & Hfr & E). cbn in El. subst l.
    destruct (close_one w A pc L c d l1 q qd l2 st') as (w1 & E1 & I1 & Hrun1 & C1); try done.
    rewrite length_app in *. cbn in *.
    destruct (IH (length l2) ltac:(lia) l2 w1 (<[(c, d) := l2]> A) pc L fuel)
      as (w2 & E2 & I2 & Hrun2 & C2); [done|done|by rewrite lookup_insert_eq|done|lia|].
    exists w2. split_and!; [|by rewrite insert_insert_eq in I2|done|].
    + rewrite (bind_ok _ _ _ _ _ E). unfold bind at 1 in E1. unfold bind at 1.
      destruct (upd_quantum q set_q_close _) as [[[] wa]|]; [|done]. unfold bind at 1 in E1. unfold bind at 1.
      destruct (get_quantum q wa) as [[qa wb]|]; [|done].
      by rewrite (bind_ok _ _ _ _ _ E1).
    + replace (l1 ++ q :: l2) with ((l1 ++ [q]) ++ l2) by (by rewrite <- app_assoc).
      eapply closed_app; [done..|].
      assert (NoDup (l1 ++ q :: l2)) as Hnd.
      { destruct (sr_rep _ _ (so_rep _ _ (iv_store _ _ _ _ I)) _ _ Hl) as [lk D].
        apply (fwd_nodup _ _ _ _ (dll_fwd _ _ _ _ D)). }
      intros q1 q2 Hi1 Hi2. assert (q1 <> q2) as Hne.
      { intros ->. apply NoDup_app in Hnd as (_ & Hd & Hnd2). apply NoDup_cons in Hnd2 as [? _]. set_solver. }
      split; [done|]. intros qd1 qd2 Hq1 Hq2 Ec. apply Hne.
      eapply (queued_coroutine_once w A pc L c d d); [done|exact Hl|exact Hl|set_solver|set_solver|done..].
  - rewrite Hnil in * by done. cbn in El. rewrite !app_nil_r in El. subst l1.
    exists (set_cques st' w). rewrite (bind_ok _ _ _ _ _ Hres). split_and!; [done| |done|].
    + eapply inv_drop; [done|done|set_solver|done|done].
    + by apply closed_stale.
Qed.

Lemma close_all_ok w A pc L c d l :
  ch_inv w A pc L -> sc_running (sch w) self -> A !! (c, d) = Some l ->
  exists w', close_all self (c, d) w = Ok (tt, w') /\
    ch_inv w' (<[(c, d) := []]> A) pc L /\ sc_running (sch w') self /\ closed_all c w w' l.
Proof.
  intros I Hrun Hl.
  destruct (sr_rep _ _ (so_rep _ _ (iv_store _ _ _ _ I)) _ _ Hl) as [lk D].
  pose proof (fwd_queue _ _ _ _ (dll_fwd _ _ _ _ D)) as E. unfold close_all.
  rewrite (bind_ok _ _ w (mk_queue lk (l !! 0%nat) (last l) (Z.of_nat (length l))) w)
    by (unfold on_ques, zoom, get_queue; rewrite E; by destruct w).
  eapply close_queue_ok; [done..|]. cbn. lia.
Qed.

(** Emptying the buffer drops the reference of every element in it. *)
Lemma clean_buff_ok c els : forall w A pc L ch fuel,
  ch_inv w A pc L -> chans w !! c = Some ch -> buffered ch = true -> ring_rep ch els ->
  (length els < fuel)%nat ->
  exists ch', __coroc_clean_buff fuel c w =
      Ok (tt, set_puts (puts w ++ els) (set_chans (<[c := ch']> (chans w)) w)) /\
    same_meta ch ch' /\ ring_rep ch' [].
Proof.
  induction els as [|x els IH]; intros w A pc L ch fuel I Hc Hb R Hf;
    (destruct fuel as [|fuel]; [cbn in Hf; lia|]); cbn [__coroc_clean_buff];
    rewrite (bind_ok _ _ _ ch w) by (unfold get_chan; by rewrite Hc);
    pose proof (rr_nbuf _ _ R) as Hn; cbn in Hn.
  - rewrite Hn. cbn. exists ch. rewrite app_nil_r, insert_id by done. split_and!; [by destruct w|done|done].
  - destruct (Z.ltb_spec 0 (nbuf ch)); [|lia]. destruct (ring_pop _ _ _ R) as [Ex R'].
    pose proof R as [He Hbs Hbl _ Hcap Hrx _ _].
    rewrite (bind_ok _ _ _ x w) by (rewrite (buf_read_ok w c ch) by done; by rewrite Ex).
    set (w1 := set_puts (puts w ++ [x]) w). rewrite (bind_ok _ _ _ tt w1) by done.
    set (ch1 := set_ring (nbuf ch - 1) (Z.rem (recvx ch + 1) (bufsize ch)) (sendx ch) (buf ch) ch) in *.
    set (w2 := set_chans (<[c := ch1]> (chans w1)) w1).
    rewrite (bind_ok _ _ _ tt w2) by (unfold upd_chan; cbn; by rewrite Hc).
    assert (ch_inv w2 A pc L) as I2.
    { destruct (iv_chan _ _ _ _ I c ch Hc) as [Ek _].
      assert (ch_inv w1 A pc L) as I1 by (by apply inv_puts).
      eapply (inv_chan_upd w1 A pc L L c ch ch1 I1 Hc); [done|done|done|].
      exists els. split; [done|]. cbn. by rewrite Hb. }
    destruct (IH w2 A pc L ch1 fuel I2) as (ch' & E & Hm & R2);
      [cbn; by rewrite lookup_insert_eq|done|done|cbn in Hf; lia|].
    exists ch'. split_and!; [|done|done]. rewrite E. cbn. by rewrite <- app_assoc, insert_insert_eq.
Qed.

Lemma closed_set_chans c X w w2 l :
  closed_all c (set_chans X w) w2 l -> closed_all c w (set_chans (chans w) w2) l.
Proof. intros []; by split. Qed.

(** The two loops of [coroc_chan_close] and the release of the buffered
    references, on an open channel under its lock. *)
Definition close_body (c : chid) : ST (chworld S) Z :=
  do! upd_chan c set_close in
  do! close_all self (c, send_que) in
  do! close_all self (c, recv_que) in
  let! ch := get_chan c in
  do! (if isref ch then __coroc_clean_buff (Datatypes.S (Z.to_nat (nbuf ch))) c else ret tt) in
  ret CHAN_SUCCESS.

Lemma close_loops_ok w A pc L c ls lr :
  ch_inv w A pc L -> sc_running (sch w) self ->
  A !! (c, send_que) = Some ls -> A !! (c, recv_que) = Some lr ->
  exists w', bind (close_all self (c, send_que)) (fun _ => close_all self (c, recv_que)) w = Ok (tt, w') /\
    ch_inv w' (<[(c, recv_que) := []]> (<[(c, send_que) := []]> A)) pc L /\ sc_running (sch w') self /\
    closed_all c w w' (ls ++ lr).
Proof.
  intros I Hrun Hs Hr.
  destruct (close_all_ok w A pc L c send_que ls I Hrun Hs) as (w1 & E1 & I1 & R1 & C1).
  destruct (close_all_ok w1 (<[(c, send_que) := []]> A) pc L c recv_que lr I1 R1) as (w2 & E2 & I2 & R2 & C2).
  { by rewrite lookup_insert_ne. }
  exists w2. split_and!; [by rewrite (bind_ok _ _ _ _ _ E1)|done|done|].
  eapply closed_app; [done..|]. intros q1 q2 H1 H2.
  assert (q1 <> q2) as Hne.
  { intros ->. pose proof (store_rep_disjoint _ _ _ _ _ _ q2 (so_rep _ _ (iv_store _ _ _ _ I)) Hs Hr H1 H2). done. }
  split; [done|]. intros qd1 qd2 Hq1 Hq2 Ec. apply Hne.
  by eapply (queued_coroutine_once w A pc L c send_que recv_que).
Qed.

Definition closed_chan ch ch' : Prop :=
  close ch' = true /\ clock ch' = false /\ isref ch' = isref ch /\ elemsize ch' = elemsize ch /\
  buffered ch' = buffered ch /\ bufsize ch' = bufsize ch.

Lemma close_body_ok w A pc c ch els ls lr :
  ch_inv w A pc [c] -> sc_running (sch w) self -> chans w !! c = Some ch -> chan_rep ch els ->
  A !! (c, send_que) = Some ls -> A !! (c, recv_que) = Some lr ->
  exists w2 ch', close_body c w = Ok (CHAN_SUCCESS,
      set_puts (if isref ch then puts w ++ els else puts w) (set_chans (<[c := ch']> (chans w)) w2)) /\
    closed_all c w w2 (ls ++ lr) /\ sc_running (sch w2) self /\
    same_meta (set_close ch) ch' /\ chan_rep ch' (if isref ch then [] else els) /\
    ch_inv (set_puts (if isref ch then puts w ++ els else puts w) (set_chans (<[c := ch']> (chans w)) w2))
      (<[(c, recv_que) := []]> (<[(c, send_que) := []]> A)) pc [c].
Proof.
  intros I Hrun Hc Hrep Hs Hr. destruct (iv_chan _ _ _ _ I c ch Hc) as [Ek _].
  set (w1 := set_chans (<[c := set_close ch]> (chans w)) w).
  assert (chan_rep (set_close ch) els) as Hrep1.
  { destruct Hrep as [? Hrep]. split; [done|]. cbn. destruct (buffered ch); [destruct Hrep; by split|done]. }
  assert (ch_inv w1 A pc [c]) as I1 by (eapply (inv_chan_upd w); try done; by eexists).
  destruct (close_loops_ok w1 A pc [c] c ls lr I1 Hrun Hs Hr) as (w2 & E2 & I2 & R2 & C2).
  unfold close_body. rewrite (bind_ok _ _ _ tt w1) by (unfold upd_chan; by rewrite Hc).
  unfold bind at 1 in E2. unfold bind at 1.
  destruct (close_all self (c, send_que) w1) as [[[] wa]|]; [|done]. rewrite (bind_ok _ _ _ _ _ E2).
  assert (chans w2 !! c = Some (set_close ch)) as Hc2 by (rewrite (cl_chans _ _ _ _ C2); cbn; by rewrite lookup_insert_eq).
  rewrite (bind_ok _ _ _ (set_close ch) w2) by (unfold get_chan; by rewrite Hc2). cbn [isref set_close nbuf].
  assert (forall ch', set_chans (<[c := ch']> (chans w2)) w2 = set_chans (<[c := ch']> (chans w)) (set_chans (chans w) w2)) as Ech.
  { intros ch'. rewrite (cl_chans _ _ _ _ C2). cbn. by rewrite insert_insert_eq. }
  exists (set_chans (chans w) w2).
  pose proof (closed_set_chans _ _ _ _ _ C2) as C. pose proof (cl_puts _ _ _ _ C) as Ep. cbn in Ep.
  destruct (isref ch) eqn:Er.
  - destruct Hrep1 as [He Hrep1]. cbn in Hrep1.
    destruct (buffered ch) eqn:Eb; [|destruct Hrep1; congruence].
    destruct (clean_buff_ok c els w2 _ pc [c] (set_close ch) (Datatypes.S (Z.to_nat (nbuf ch))) I2 Hc2) as (ch' & E & Hm & R');
      [done|done|pose proof (rr_nbuf _ _ Hrep1) as Hn; cbn in Hn; lia|].
    exists ch'. rewrite Ep, Ech in E. rewrite (bind_ok _ _ _ _ _ E).
    assert (chan_rep ch' []) as Hrep'.
    { destruct Hm as (_ & _ & _ & _ & Ee & Ebf & _). split; [by rewrite Ee|]. by rewrite Ebf; cbn; rewrite Eb. }
    split_and!; try done. rewrite <- Ech.
    pose proof (inv_chan_upd w2 _ pc [c] [c] c _ ch' I2 Hc2) as I3.
    apply inv_puts, I3; try done; [apply Hm| |by eexists].
    destruct Hm as (_ & _ & -> & _). done.
  - exists (set_close ch). rewrite (bind_ok _ _ _ tt w2) by done.
    assert (set_puts (puts w) (set_chans (<[c := set_close ch]> (chans w)) (set_chans (chans w) w2)) = w2) as ->.
    { rewrite <- Ech, insert_id by done. rewrite <- Ep. by destruct w2. }
    split_and!; done.
Qed.

Lemma close_ok w A pc c ch els ls lr :
  ch_inv w A pc [] -> sc_running (sch w) self -> chans w !! c = Some ch -> chan_rep ch els ->
  A !! (c, send_que) = Some ls -> A !! (c, recv_que) = Some lr ->
  if close ch then coroc_chan_close self c w = Ok (CHAN_CLOSED, w)
  else exists w2 ch', coroc_chan_close self c w = Ok (CHAN_SUCCESS,
      set_puts (if isref ch then puts w ++ els else puts w) (set_chans (<[c := ch']> (chans w)) w2)) /\
    closed_all c w w2 (ls ++ lr) /\ sc_running (sch w2) self /\
    closed_chan ch ch' /\ chan_rep ch' (if isref ch then [] else els) /\
    ch_inv (set_puts (if isref ch then puts w ++ els else puts w) (set_chans (<[c := ch']> (chans w)) w2))
      (<[(c, recv_que) := []]> (<[(c, send_que) := []]> A)) pc [].
Proof.
  intros I Hrun Hc Hrep Hs Hr.
  assert (clock ch = false) as Hk
    by (rewrite (proj1 (iv_chan _ _ _ _ I c ch Hc)); by apply bool_decide_eq_false_2, not_elem_of_nil).
  destruct (lock_acquire_ok w A pc [] c ch I Hc) as [El I0]; [set_solver|].
  fold (locked w c ch) in El, I0.
  assert (chans (locked w c ch) !! c = Some (set_clock true ch)) as Hc0 by (cbn; by rewrite lookup_insert_eq).
  unfold coroc_chan_close. rewrite (bind_ok _ _ _ _ _ El).
  rewrite (bind_ok _ _ _ (set_clock true ch) (locked w c ch)) by (unfold get_chan; by rewrite Hc0).
  cbn [close set_clock]. destruct (close ch) eqn:Ecl.
  - rewrite (bind_ok _ _ _ CHAN_CLOSED (locked w c ch)) by done.
    destruct (lock_release_ok _ A pc [c] [] c _ I0 Hc0) as [Er _]; [by left|set_solver..|].
    rewrite (bind_ok _ _ _ _ _ Er). unfold ret. do 2 f_equal. unfold locked. cbn.
    rewrite unlock_chan by done. by destruct w.
  - fold (close_body c).
    destruct (close_body_ok (locked w c ch) A pc c (set_clock true ch) els ls lr I0 Hrun Hc0)
      as (w2 & ch1 & E & C & R2 & Hm & Hrep' & I2); [by apply chan_rep_clock|done..|].
    cbn [isref set_clock puts locked set_chans chans] in *.
    rewrite (bind_ok _ _ _ _ _ E).
    set (w3 := set_puts _ _) in *.
    destruct (lock_release_ok w3 _ pc [c] [] c ch1 I2) as [Er I3];
      [cbn; by rewrite lookup_insert_eq|by left|set_solver..|].
    exists (set_chans (chans w) w2), (set_clock false ch1). rewrite (bind_ok _ _ _ _ _ Er).
    assert (set_chans (<[c := set_clock false ch1]> (chans w3)) w3 =
      set_puts (if isref ch then puts w ++ els else puts w)
        (set_chans (<[c := set_clock false ch1]> (chans w)) (set_chans (chans w) w2))) as Ew.
    { cbn. by rewrite !insert_insert_eq. }
    rewrite Ew in I3 |- *. split_and!; [done|by eapply closed_set_chans|done| |by apply chan_rep_clock|done].
    destruct Hm as (? & _ & _ & ? & ? & ? & ?). by split_and!.
Qed.

(** ** The theorems *)

(** C12: a send on a channel returns, keeps the invariant of the channels and
    leaves no lock held; it hands its element to the first receiver in the
    queue that still waits (waking it and no other coroutine), else reports a
    closed channel, else appends the element to the buffer while there is room,
    else blocks at the end of the send queue or reports a busy channel. *)
Theorem chan_send_spec w A pc q c ch els l ls s bytes block :
  ch_inv w A pc [] -> pc self = C_run -> sc_running (sch w) self ->
  chans w !! c = Some ch -> chan_rep ch els ->
  A !! (c, recv_que) = Some l -> A !! (c, send_que) = Some ls ->
  (block = true -> quanta w !! q = None /\ Z.of_nat (length ls) + 1 < 2 ^ 32) ->
  cmem w !! s = Some bytes -> elemsize ch <= Z.of_nat (length bytes) ->
  exists r w' A', _coroc_chan_send self q c (Some s) block w = Ok (r, w') /\
    after r w' A' pc [] [] q c send_que /\
    send_effect w A q c ch els l ls s (take (Z.to_nat (elemsize ch)) bytes) block r w' A'.
Proof. apply send_ok. Qed.

(** C13: a receive returns, keeps the invariant and leaves no lock held; it
    takes the oldest buffered element, else the element of the first sender in
    the queue that still waits (waking it and no other coroutine), else reports
    a closed channel, else blocks at the end of the receive queue or reports a
    busy channel. *)
Theorem chan_recv_spec w A pc own q c0 c ch els l lr b block :
  c = from_option id own c0 ->
  ch_inv w A pc [] -> pc self = C_run -> sc_running (sch w) self ->
  chans w !! c = Some ch -> chan_rep ch els ->
  A !! (c, send_que) = Some l -> A !! (c, recv_que) = Some lr ->
  (block = true -> quanta w !! q = None /\ Z.of_nat (length lr) + 1 < 2 ^ 32) ->
  valid (cmem w) b (elemsize ch) ->
  exists r w' A', _coroc_chan_recv self q own c0 b block w = Ok (r, w') /\
    after r w' A' pc [] [] q c recv_que /\
    recv_effect w A q c ch els l lr b block r w' A'.
Proof. apply recv_ok. Qed.

(** C14: closing an open channel marks it, wakes every coroutine that waits in
    either queue exactly once and marks its quantum closed, wakes nobody else,
    empties both queues, and drops the reference of each buffered element of a
    channel of references; closing a closed channel changes nothing and says so. *)
Theorem chan_close_spec w A pc c ch els ls lr :
  ch_inv w A pc [] -> sc_running (sch w) self -> chans w !! c = Some ch -> chan_rep ch els ->
  A !! (c, send_que) = Some ls -> A !! (c, recv_que) = Some lr ->
  if close ch then coroc_chan_close self c w = Ok (CHAN_CLOSED, w)
  else exists w2 ch', coroc_chan_close self c w = Ok (CHAN_SUCCESS,
      set_puts (if isref ch then puts w ++ els else puts w) (set_chans (<[c := ch']> (chans w)) w2)) /\
    closed_all c w w2 (ls ++ lr) /\ sc_running (sch w2) self /\
    closed_chan ch ch' /\ chan_rep ch' (if isref ch then [] else els) /\
    ch_inv (set_puts (if isref ch then puts w ++ els else puts w) (set_chans (<[c := ch']> (chans w)) w2))
      (<[(c, recv_que) := []]> (<[(c, send_que) := []]> A)) pc [].
Proof. apply close_ok. Qed.
End ops.
