(* ===== verification/ChannelSelect.v ===== *)
(** * Select (src/channel.c, include/inter/lock_chain.h)

    The chain of locks of a select, the pass over the cases, the registration
    on every channel when none is ready, and the end of the call. *)

From S2P Require Import Prelude Queue Channel ChannelProps ChannelInv ChannelOps.

Section sel.
Context {S : Type} `{SchedLaws S}.
Implicit Types (w : chworld S) (ch : chan) (A : gmap (chid * dir) (list qid)) (pc : coid -> cpc).

(** ** The chain of locks *)

Definition relock (b : bool) (ls : list chid) (M : gmap chid chan) : gmap chid chan :=
  foldl (fun M c => alter (set_clock b) c M) M ls.

Lemma relock_cons b l ls M : relock b (l :: ls) M = relock b ls (alter (set_clock b) l M).
Proof. done. Qed.

Lemma relock_notin b ls : forall M (c : chid), c ∉ ls -> relock b ls M !! c = M !! c.
Proof.
  induction ls as [|l ls IH]; intros M c Hn; [done|]. apply not_elem_of_cons in Hn as [Hne Hn].
  rewrite relock_cons, IH by done. by rewrite lookup_alter_ne.
Qed.

Lemma relock_in b ls : forall M (c : chid) ch,
  c ∈ ls -> M !! c = Some ch -> relock b ls M !! c = Some (set_clock b ch).
Proof.
  induction ls as [|l ls IH]; intros M c ch Hin Hc; [by apply not_elem_of_nil in Hin|]. rewrite relock_cons.
  destruct (decide (c ∈ ls)) as [Hls|Hls].
  - destruct (decide (l = c)) as [->|].
    + rewrite (IH _ c (set_clock b ch)) by (done || by rewrite lookup_alter_eq, Hc). done.
    + by apply IH; [|rewrite lookup_alter_ne].
  - apply elem_of_cons in Hin as [->|]; [|done].
    by rewrite relock_notin, lookup_alter_eq, Hc.
Qed.

Lemma relock_some b ls M (c : chid) : is_Some (M !! c) -> is_Some (relock b ls M !! c).
Proof.
  intros [ch Hc]. destruct (decide (c ∈ ls)); [by erewrite relock_in|by rewrite relock_notin, Hc].
Qed.

Lemma relock_none b ls : forall M (c : chid), M !! c = None -> relock b ls M !! c = None.
Proof.
  induction ls as [|l ls IH]; intros M c HM; [done|]. rewrite relock_cons. apply IH.
  rewrite lookup_alter. by destruct (decide _); [subst; rewrite HM|].
Qed.

Lemma relock_inverse ls M : (forall c ch, c ∈ ls -> M !! c = Some ch -> clock ch = false) ->
  relock false (reverse ls) (relock true ls M) = M.
Proof.
  intros Hk. apply map_eq. intros c. destruct (decide (c ∈ ls)) as [Hin|Hn].
  - assert (c ∈ reverse ls) as Hin' by (by apply elem_of_reverse).
    destruct (M !! c) as [ch|] eqn:Hc.
    + rewrite (relock_in false _ _ c (set_clock true ch)); [|done|by apply relock_in].
      f_equal. specialize (Hk c ch Hin Hc). destruct ch. cbn in *. by subst.
    + by apply relock_none, relock_none.
  - rewrite !relock_notin; [done|done|]. by rewrite elem_of_reverse.
Qed.

Lemma alter_some b (c : chid) ch (M : gmap chid chan) :
  M !! c = Some ch -> alter (set_clock b) c M = <[c := set_clock b ch]> M.
Proof. intros Hc. apply map_eq. intros x. rewrite lookup_alter, lookup_insert. by destruct (decide _); subst; rewrite ?Hc. Qed.

Lemma acquire_all_ok ls : forall w A pc L,
  ch_inv w A pc L -> NoDup ls -> (forall c, c ∈ ls -> is_Some (chans w !! c) /\ c ∉ L) ->
  acquire_all ls w = Ok (tt, set_chans (relock true ls (chans w)) w) /\
  ch_inv (set_chans (relock true ls (chans w)) w) A pc (reverse ls ++ L).
Proof.
  induction ls as [|l ls IH]; intros w A pc L I Hnd Hls; cbn [acquire_all].
  { by destruct w. }
  apply NoDup_cons in Hnd as [Hnl Hnd]. destruct (Hls l) as [[ch Hc] HL]; [by left|].
  destruct (lock_acquire_ok w A pc L l ch I Hc HL) as [E I1]. rewrite (bind_ok _ _ _ _ _ E).
  destruct (IH _ A pc (l :: L) I1 Hnd) as [E2 I2].
  { intros c Hin. destruct (Hls c) as [? ?]; [by right|]. assert (c <> l) by (by intros ->).
    cbn. rewrite lookup_insert_ne by done. split; [done|]. by apply not_elem_of_cons. }
  rewrite reverse_cons, <- app_assoc. rewrite relock_cons, (alter_some _ _ _ _ Hc).
  by split.
Qed.

(** A lock that is held, or comes twice in the chain, is waited for forever. *)
Lemma acquire_all_dup ls : forall w A pc L,
  ch_inv w A pc L -> (forall c, c ∈ ls -> is_Some (chans w !! c)) ->
  ~ NoDup ls \/ (exists c, c ∈ ls /\ c ∈ L) -> acquire_all ls w = Err SelfDeadlock.
Proof.
  induction ls as [|l ls IH]; intros w A pc L I Hc Hdup.
  { destruct Hdup as [Hn|(c & Hin & _)]; [by destruct Hn; constructor|by apply not_elem_of_nil in Hin]. }
  destruct (Hc l) as [ch Hch]; [by left|]. cbn [acquire_all]. destruct (decide (l ∈ L)) as [HL|HL].
  - unfold bind at 1, lock_acquire, bind at 1, get_chan. rewrite Hch.
    rewrite (proj1 (iv_chan _ _ _ _ I _ _ Hch)). by rewrite bool_decide_eq_true_2.
  - destruct (lock_acquire_ok w A pc L l ch I Hch HL) as [E I1]. rewrite (bind_ok _ _ _ _ _ E).
    apply (IH _ A pc (l :: L) I1).
    + intros c Hin. cbn. rewrite lookup_insert. destruct (decide _); [done|]. apply Hc. by right.
    + destruct (decide (l ∈ ls)) as [Hin|Hnin]; [right; exists l; split; [done|by left]|].
      destruct Hdup as [Hn|(c & [->|Hin]%elem_of_cons & HcL)]; [left|done|right; exists c; split; [done|by right]].
      intros Hnd. apply Hn. by constructor.
Qed.

Lemma inv_locks_ext w A pc L L' : ch_inv w A pc L -> (forall c, c ∈ L <-> c ∈ L') -> ch_inv w A pc L'.
Proof.
  intros I HL. split; try apply I. intros c ch Hc. destruct (iv_chan _ _ _ _ I c ch Hc) as [-> ?].
  split; [|done]. by apply bool_decide_ext.
Qed.

Lemma release_each_ok ls : forall w A pc L L',
  ch_inv w A pc L -> NoDup ls -> (forall c, c ∈ ls -> is_Some (chans w !! c) /\ c ∈ L) ->
  (forall c, c ∈ L' <-> c ∈ L /\ c ∉ ls) ->
  release_each ls w = Ok (tt, set_chans (relock false ls (chans w)) w) /\
  ch_inv (set_chans (relock false ls (chans w)) w) A pc L'.
Proof.
  induction ls as [|l ls IH]; intros w A pc L L' I Hnd Hls HL; cbn [release_each].
  { split; [by destruct w|]. cbn. apply (inv_locks_ext _ _ _ L); [by destruct w|]. set_solver. }
  apply NoDup_cons in Hnd as [Hnl Hnd]. destruct (Hls l) as [[ch Hc] Hl]; [by left|].
  destruct (lock_release_ok w A pc L (filter (fun c => c <> l) L) l ch I Hc Hl) as [E I1].
  { rewrite list_elem_of_filter. by intros [? _]. } { intros c Hne. rewrite list_elem_of_filter. naive_solver. }
  rewrite (bind_ok _ _ _ _ _ E). rewrite relock_cons, (alter_some _ _ _ _ Hc).
  apply (IH _ A pc _ L' I1 Hnd).
  - intros c Hin. destruct (Hls c) as [? ?]; [by right|]. assert (c <> l) by (by intros ->).
    cbn. rewrite lookup_insert_ne by done. split; [done|]. by apply list_elem_of_filter.
  - intros c. rewrite HL, list_elem_of_filter, not_elem_of_cons. naive_solver.
Qed.

(** ** The pass over the cases *)

Variable self : coid.

Definition has_waiter w A (que : chid * dir) : Prop :=
  exists l q qd, A !! que = Some l /\ q ∈ l /\ fresh w q qd.

(** The case can be served at once. *)
Definition case_ready w A (e : coroc_scase) : Prop :=
  exists ch, chans w !! s_chan e = Some ch /\
    match s_type e with
    | CHAN_SEND => has_waiter w A (s_chan e, recv_que) \/
        (close ch = false /\ buffered ch = true /\ nbuf ch < bufsize ch)
    | CHAN_RECV => has_waiter w A (s_chan e, send_que) \/ (buffered ch = true /\ 0 < nbuf ch)
    end.

Definition case_ok w (e : coroc_scase) : Prop :=
  exists ch, chans w !! s_chan e = Some ch /\ valid (cmem w) (s_buf e) (elemsize ch) /\
    (s_type e = CHAN_SEND -> s_buf e <> None).

(** What serving the case does: the send or the receive of the case. *)
Definition case_done w A (e : coroc_scase) w' A' : Prop :=
  exists ch els lr ls, chans w !! s_chan e = Some ch /\ chan_rep ch els /\
    A !! (s_chan e, recv_que) = Some lr /\ A !! (s_chan e, send_que) = Some ls /\
    match s_type e with
    | CHAN_SEND => exists s b, s_buf e = Some s /\ cmem w !! s = Some b /\
        send_effect w A 0 (s_chan e) ch els lr ls s (take (Z.to_nat (elemsize ch)) b) false
          (Done CHAN_SUCCESS) w' A'
    | CHAN_RECV => recv_effect w A 0 (s_chan e) ch els ls lr (s_buf e) false (Done CHAN_SUCCESS) w' A'
    end.

(** [A'] is [A] without some quanta nobody waits with. *)
Definition drops w A A' : Prop :=
  forall que, match A !! que with
    | None => A' !! que = None
    | Some l => exists l', A' !! que = Some l' /\ (length l' <= length l)%nat /\
        (forall q, q ∈ l' -> q ∈ l) /\ (forall q, q ∈ l -> q ∈ l' \/ stale w q)
    end.

Lemma drops_refl w A : drops w A A.
Proof. intros que. destruct (A !! que) as [l|]; [|done]. exists l. split_and!; auto. Qed.

Lemma drops_trans w A A1 A2 : drops w A A1 -> drops w A1 A2 -> drops w A A2.
Proof.
  intros D1 D2 que. specialize (D1 que). specialize (D2 que). destruct (A !! que) as [l|].
  - destruct D1 as (l1 & E1 & H1 & H2 & H3). rewrite E1 in D2. destruct D2 as (l2 & E2 & G1 & G2 & G3).
    exists l2. split_and!; [done|lia|auto|]. intros q Hq. destruct (H3 q Hq); [|by right]. auto.
  - by rewrite D1 in D2.
Qed.

Lemma drops_nil w A que l : A !! que = Some l -> no_waiter w l -> drops w A (<[que := []]> A).
Proof.
  intros Hl Hs x. destruct (decide (x = que)) as [->|Hne].
  - rewrite Hl, lookup_insert_eq. exists []. split_and!; [done|cbn; lia|set_solver|].
    intros q Hq. right. by apply (proj1 (Forall_forall _ _) Hs).
  - rewrite lookup_insert_ne by done. apply drops_refl.
Qed.

Lemma stale_not_fresh w q qd : stale w q -> ~ fresh w q qd.
Proof.
  intros (x & t & Hx & Hs & Ht) [Hqd Hf]. assert (x = qd) as -> by congruence.
  rewrite Hf in Ht by done. done.
Qed.

Lemma drops_waiter w A A' que : drops w A A' -> has_waiter w A' que <-> has_waiter w A que.
Proof.
  intros D. specialize (D que). split.
  - intros (l' & q & qd & Hl' & Hq & Hf). destruct (A !! que) as [l|] eqn:E; [|congruence].
    destruct D as (l0 & E0 & _ & Hsub & _). exists l, q, qd. split_and!; [done| |done].
    apply Hsub. congruence.
  - intros (l & q & qd & Hl & Hq & Hf). rewrite Hl in D. destruct D as (l' & E' & _ & _ & Hs).
    exists l', q, qd. split_and!; [done| |done]. destruct (Hs q Hq) as [|Hst]; [done|].
    by destruct (stale_not_fresh _ _ _ Hst Hf).
Qed.

Lemma drops_ready w A A' e : drops w A A' -> case_ready w A' e <-> case_ready w A e.
Proof.
  intros D. unfold case_ready. pose proof (drops_waiter w A A' (s_chan e, recv_que) D).
  pose proof (drops_waiter w A A' (s_chan e, send_que) D). destruct (s_type e); naive_solver.
Qed.

Lemma no_waiter_iff w A que l : A !! que = Some l -> no_waiter w l -> ~ has_waiter w A que.
Proof.
  intros Hl Hs (l' & q & qd & Hl' & Hq & Hf). assert (l' = l) as -> by congruence.
  exact (stale_not_fresh _ _ _ (proj1 (Forall_forall _ _) Hs q Hq) Hf).
Qed.

Definition tried w A e code w' A' : Prop :=
  (code = CHAN_SUCCESS /\ case_ready w A e /\ case_done w A e w' A') \/
  ((code = CHAN_BUSY \/ code = CHAN_CLOSED) /\ ~ case_ready w A e /\ drops w A A' /\
   exists st', w' = set_cques st' w).

Lemma try_send_ok w A pc L e :
  ch_inv w A pc L -> pc self = C_run -> sc_running (sch w) self -> s_chan e ∈ L ->
  s_type e = CHAN_SEND -> case_ok w e ->
  exists code w' A', try_case self e w = Ok (Done code, w') /\ ch_inv w' A' pc L /\
    sc_running (sch w') self /\ tried w A e code w' A'.
Proof.
  intros I Hpc Hrun HL Et (ch & Hc & Hv & Hbuf). destruct (iv_chan _ _ _ _ I _ _ Hc) as [_ [els Hrep]].
  destruct (iv_ques _ _ _ _ I _ _ recv_que Hc) as [lr Hr], (iv_ques _ _ _ _ I _ _ send_que Hc) as [ls Hs].
  destruct (s_buf e) as [s|] eqn:Eb; [|by destruct Hbuf]. destruct Hv as (b & Hsb & Hlb).
  destruct (chan_send_ok self w A pc L (filter (fun c => c <> s_chan e) L) 0 (s_chan e) ch els lr ls s b false)
    as (r & w' & A' & E & Ha & Hfc & Heff); try done.
  { rewrite list_elem_of_filter. by intros [? _]. } { intros c Hne. rewrite list_elem_of_filter. naive_solver. }
  unfold try_case, tried, case_ready, case_done. rewrite Et, Eb, E.
  pose proof Heff as [(l1 & qr & qd & l2 & El & Hst & Hfr & -> & _)|(Hnw & _ & Hbr)].
  - destruct Ha as [Hi Hr']. exists CHAN_SUCCESS, w', A'. split_and!; [done..|]. left. split_and!; [done| |].
    + exists ch. split; [done|]. left. exists lr, qr, qd. split_and!; [done|set_solver|done].
    + exists ch, els, lr, ls. split_and!; [done..|]. by exists s, b.
  - pose proof (no_waiter_iff w A (s_chan e, recv_que) lr Hr Hnw) as Hno.
    destruct (close ch) eqn:Ecl; [|destruct (buffered ch && (nbuf ch <? bufsize ch)) eqn:Ebf].
    + destruct Hbr as (-> & _ & ->). destruct Ha as [Hi Hr']. eexists CHAN_CLOSED, w', _. split_and!; [done..|].
      right. split_and!; [by right| |by eapply drops_nil|by eapply Hfc].
      intros (ch' & Hc' & [?|(? & ? & ?)]); [done|congruence].
    + destruct Hbr as (-> & HA' & Hbr). destruct Ha as [Hi Hr'].
      exists CHAN_SUCCESS, w', A'. split_and!; [done..|]. left. split_and!; [done| |].
      * exists ch. split; [done|]. right. apply andb_prop in Ebf as [? ?%Z.ltb_lt]. done.
      * exists ch, els, lr, ls. split_and!; [done..|]. by exists s, b.
    + destruct Hbr as (-> & _ & ->). destruct Ha as [Hi Hr']. eexists CHAN_BUSY, w', _. split_and!; [done..|].
      right. split_and!; [by left| |by eapply drops_nil|by eapply Hfc].
      intros (ch' & Hc' & [?|(? & ? & ?%Z.ltb_lt)]); [done|].
      assert (ch' = ch) as -> by congruence. by rewrite andb_false_iff in Ebf; destruct Ebf; congruence.
Qed.

Lemma try_recv_ok w A pc L e :
  ch_inv w A pc L -> pc self = C_run -> sc_running (sch w) self -> s_chan e ∈ L ->
  s_type e = CHAN_RECV -> case_ok w e ->
  exists code w' A', try_case self e w = Ok (Done code, w') /\ ch_inv w' A' pc L /\
    sc_running (sch w') self /\ tried w A e code w' A'.
Proof.
  intros I Hpc Hrun HL Et (ch & Hc & Hv & _). destruct (iv_chan _ _ _ _ I _ _ Hc) as [_ [els Hrep]].
  destruct (iv_ques _ _ _ _ I _ _ recv_que Hc) as [lr Hr], (iv_ques _ _ _ _ I _ _ send_que Hc) as [ls Hs].
  destruct (chan_recv_ok self w A pc L (filter (fun c => c <> s_chan e) L) 0 (s_chan e) ch els ls lr (s_buf e) false)
    as (r & w' & A' & E & Ha & Hfc & Heff); try done.
  { rewrite list_elem_of_filter. by intros [? _]. } { intros c Hne. rewrite list_elem_of_filter. naive_solver. }
  unfold try_case, tried, case_ready, case_done. rewrite Et, E.
  destruct els as [|x els].
  - pose proof Heff as [(l1 & qs & qd & l2 & El & Hst & Hfr & -> & _)|(Hnw & _ & Hbr)].
    + destruct Ha as [Hi Hr']. exists CHAN_SUCCESS, w', A'. split_and!; [done..|]. left. split_and!; [done| |].
      * exists ch. split; [done|]. left. exists ls, qs, qd. split_and!; [done|set_solver|done].
      * by exists ch, [], lr, ls.
    + pose proof (no_waiter_iff w A (s_chan e, send_que) ls Hs Hnw) as Hno.
      assert (buffered ch = true -> nbuf ch = 0) as Hz.
      { intros Eb. destruct Hrep as [_ Hrep]. rewrite Eb in Hrep. apply (rr_nbuf _ _ Hrep). }
      destruct (close ch) eqn:Ecl; destruct Hbr as (-> & _ & ->); destruct Ha as [Hi Hr'].
      all: eexists _, w', _; split_and!; [done..|]; right;
        split_and!; [auto| |by eapply drops_nil|by eapply Hfc].
      all: intros (ch' & Hc' & [?|(Hb & Hn)]); [done|]; assert (ch' = ch) as -> by congruence; rewrite Hz in Hn by done; lia.
  - pose proof Heff as (-> & _). destruct Ha as [Hi Hr'].
    exists CHAN_SUCCESS, w', A'. split_and!; [done..|]. left. split_and!; [done| |by exists ch, (x :: els), lr, ls].
    exists ch. split; [done|]. right. destruct Hrep as [_ Hrep]. destruct (buffered ch); [|by destruct Hrep].
    split; [done|]. rewrite (rr_nbuf _ _ Hrep). cbn. lia.
Qed.

Lemma try_case_ok w A pc L e :
  ch_inv w A pc L -> pc self = C_run -> sc_running (sch w) self -> s_chan e ∈ L -> case_ok w e ->
  exists code w' A', try_case self e w = Ok (Done code, w') /\ ch_inv w' A' pc L /\
    sc_running (sch w') self /\ tried w A e code w' A'.
Proof. intros. destruct (s_type e) eqn:?; [by eapply try_send_ok|by eapply try_recv_ok]. Qed.

(** The pass serves the first case that is ready, or none. *)
Definition passed w A (es : list coroc_scase) (code0 : Z) (r : Z * option chid) w' A' : Prop :=
  (exists es1 e es2 A1 st', es = es1 ++ e :: es2 /\ r = (CHAN_SUCCESS, Some (s_chan e)) /\
     Forall (fun e => ~ case_ready w A e) es1 /\ case_ready w A e /\ drops w A A1 /\
     case_done (set_cques st' w) A1 e w' A') \/
  (Forall (fun e => ~ case_ready w A e) es /\ r.2 = None /\ drops w A A' /\
   (exists st', w' = set_cques st' w) /\
   if decide (es = []) then r.1 = code0 else r.1 = CHAN_BUSY \/ r.1 = CHAN_CLOSED).

Lemma try_cases_ok es : forall w A pc L code0,
  ch_inv w A pc L -> pc self = C_run -> sc_running (sch w) self ->
  (forall e, e ∈ es -> s_chan e ∈ L /\ case_ok w e) ->
  exists r w' A', try_cases self es code0 w = Ok (r, w') /\ ch_inv w' A' pc L /\
    sc_running (sch w') self /\ passed w A es code0 r w' A'.
Proof.
  induction es as [|e es IH]; intros w A pc L code0 I Hpc Hrun Hes; cbn [try_cases].
  { exists (code0, None), w, A. split_and!; [done..|]. right. split_and!; [constructor|done|apply drops_refl| |done].
    exists (cques w). by destruct w. }
  destruct (Hes e) as [HL Hok]; [by left|].
  destruct (try_case_ok w A pc L e I Hpc Hrun HL Hok) as (code & w1 & A1 & E & I1 & R1 & HT).
  rewrite (bind_ok _ _ _ _ _ E). destruct HT as [(-> & Hrd & Hdn)|(Hcode & Hnr & Hdr & st1 & ->)].
  - exists (CHAN_SUCCESS, Some (s_chan e)), w1, A1. split_and!; [done..|]. left.
    exists [], e, es, A, (cques w). split_and!; [done|done|constructor|done|apply drops_refl|].
    by replace (set_cques (cques w) w) with w by (by destruct w).
  - replace (code =? CHAN_SUCCESS) with false by (by destruct Hcode as [-> | ->]).
    destruct (IH (set_cques st1 w) A1 pc L code I1 Hpc R1) as (r & w2 & A2 & E2 & I2 & R2 & HP).
    { intros e' He'. apply Hes. by right. }
    exists r, w2, A2. split_and!; [done..|].
    assert (forall e', ~ case_ready (set_cques st1 w) A1 e' <-> ~ case_ready w A e') as Heq.
    { intros e'. by rewrite <- (drops_ready w A A1 e' Hdr). }
    destruct HP as [(es1 & e' & es2 & A3 & st3 & -> & -> & Hf & Hrd & Hd3 & Hdn)|(Hf & Hn & Hd2 & (st2 & ->) & Hr)].
    + left. exists (e :: es1), e', es2, A3, st3. split_and!; [done|done| | |by eapply drops_trans|done].
      * constructor; [done|]. eapply Forall_impl; [exact Hf|]. intros ?. apply Heq.
      * by apply (drops_ready w A A1 e' Hdr).
    + right. split_and!; [|done|by eapply drops_trans|by exists st2|].
      * constructor; [done|]. eapply Forall_impl; [exact Hf|]. intros ?. apply Heq.
      * cbn. destruct (decide (es = [])); [by rewrite Hr|done].
Qed.

(** ** Registering on every channel *)

Definition sel_quantum (e : coroc_scase) : quantum := mk_quantum false true (s_chan e) self (s_buf e).

(** Every case has its quantum at the end of its queue, and nothing else
    changes. *)
Record registered w A (es : list coroc_scase) (qs : list qid)
    (st' : qstore qid (chid * dir) qid) (Q' : gmap qid quantum) A' : Prop := {
  rg_store : store_ok st' A';
  rg_items : forall x it, items (cques w) !! x = Some it -> exists it', items st' !! x = Some it';
  rg_old : forall q, q ∉ qs -> Q' !! q = quanta w !! q;
  rg_new : forall i q e, qs !! i = Some q -> es !! i = Some e -> Q' !! q = Some (sel_quantum e) /\
    (exists it, items st' !! q = Some it) /\
    exists l, A !! case_que e = Some l /\ A' !! case_que e = Some (l ++ [q]);
  rg_other : forall que, que ∉ case_que <$> es -> A' !! que = A !! que
}.

Lemma add_quanta_ok es : forall qs w A,
  length qs = length es -> NoDup qs -> NoDup (s_chan <$> es) -> store_ok (cques w) A ->
  (forall q, q ∈ qs -> map_Forall (fun _ l => q ∉ l) A) ->
  (forall e, e ∈ es -> exists l, A !! case_que e = Some l /\ Z.of_nat (length l) + 1 < 2 ^ 32) ->
  exists st' Q' A', add_quanta self es qs w = Ok (tt, set_cques st' (set_quanta Q' w)) /\
    registered w A es qs st' Q' A'.
Proof.
  induction es as [|e es IH]; intros qs w A Hlen Hnd Hnc O Hfr Hque;
    (destruct qs as [|q qs]; try (cbn in Hlen; lia)).
  { exists (cques w), (quanta w), A. split; [by destruct w|]. split; try done. eauto. }
  apply NoDup_cons in Hnd as [Hnq Hnd]. cbn in Hnc. apply NoDup_cons in Hnc as [Hne Hnc].
  destruct (Hque e) as (l & Hl & Hlb); [by left|].
  assert (forall e', e' ∈ es -> case_que e' <> case_que e) as Hdiff.
  { intros e' He' E. apply Hne. unfold case_que in E. injection E as E _. rewrite <- E.
    by apply list_elem_of_fmap_2. }
  destruct (enqueue_ok w A self q (s_chan e) (case_que e).2 l (s_buf e) true O) as (st1 & E1 & O1 & It1 & Itq);
    [apply Hfr; by left|done|done|].
  set (w1 := with_quantum q (sel_quantum e) st1 w).
  destruct (IH qs w1 (<[case_que e := l ++ [q]]> A)) as (st2 & Q2 & A2 & E2 & R2); try done.
  { cbn in Hlen. lia. }
  { intros q' Hq' que l' [[<- <-]|[Hn Hl']]%lookup_insert_Some.
    - intros [Hin| ->%list_elem_of_singleton]%elem_of_app; [|done]. exact (Hfr q' ltac:(by right) _ _ Hl Hin).
    - exact (Hfr q' ltac:(by right) _ _ Hl'). }
  { intros e' He'. rewrite lookup_insert_ne by (intros E; by eapply (Hdiff e')). apply Hque. by right. }
  exists st2, Q2, A2. split.
  - cbn [add_quanta]. unfold bind at 1 in E1. unfold bind at 1.
    destruct (quantum_init q (s_chan e) self (s_buf e) true w) as [[[] wq]|]; [|done].
    rewrite (bind_ok _ _ _ _ _ E1). exact E2.
  - destruct R2 as [B1 B2 B3 B4 B5]. split; [done| | | |].
    + intros x it Hx. destruct (It1 x it Hx) as [it' Hx']. by eapply B2.
    + intros x [Hne1 Hnx]%not_elem_of_cons. rewrite B3 by done. cbn. by rewrite lookup_insert_ne.
    + intros [|i] x e' Hx He'; cbn in Hx, He'.
      * injection Hx as <-. injection He' as <-. rewrite B3 by done. cbn. rewrite lookup_insert_eq.
        split_and!; [done| |].
        -- destruct Itq as [itq Hitq]. by eapply (B2 q itq).
        -- exists l. split; [done|]. rewrite B5, lookup_insert_eq; [done|].
           intros (e'' & Ee & Hin)%list_elem_of_fmap. by eapply (Hdiff e'').
      * destruct (B4 i x e' Hx He') as (G1 & G2 & l' & G3 & G4). split_and!; [done|done|].
        exists l'. split; [|done]. rewrite lookup_insert_ne in G3; [done|].
        intros E. eapply (Hdiff e'); [by eapply list_elem_of_lookup_2|done].
    + intros que Hn. cbn in Hn. apply not_elem_of_cons in Hn as [Hn1 Hn2].
      rewrite B5 by done. by rewrite lookup_insert_ne.
Qed.

Lemma registered_queued w A es qs st' Q' A' :
  registered w A es qs st' Q' A' -> length qs = length es ->
  forall que l' q, A' !! que = Some l' -> q ∈ l' ->
  (exists l, A !! que = Some l /\ q ∈ l) \/
  exists i e, qs !! i = Some q /\ es !! i = Some e /\ que = case_que e.
Proof.
  intros R Hlen que l' q Hl' Hq. destruct (decide (que ∈ case_que <$> es)) as [Hin|Hn].
  - apply list_elem_of_fmap in Hin as (e & -> & [i He]%list_elem_of_lookup).
    destruct (lookup_lt_is_Some_2 qs i) as [q0 Hq0]; [rewrite Hlen; by eapply lookup_lt_Some|].
    destruct (rg_new _ _ _ _ _ _ _ R i q0 e Hq0 He) as (_ & _ & l & Hl & Hl2).
    assert (l' = l ++ [q0]) as -> by congruence.
    apply elem_of_app in Hq as [Hq| ->%list_elem_of_singleton]; [left|right]; eauto.
  - rewrite (rg_other _ _ _ _ _ _ _ R) in Hl' by done. left. eauto.
Qed.

(** ** The call *)

(** A set of cases as [coroc_chan_set_send] and [coroc_chan_set_recv] build
    it, on distinct channels. *)
Record set_ok w (set : coroc_chan_set) : Prop := {
  so_perm : locks set ≡ₚ s_chan <$> cases set;
  so_distinct : NoDup (s_chan <$> cases set);
  so_cases : forall e, e ∈ cases set -> case_ok w e
}.

Lemma sort_perm set : locks (lock_chain_sort set) ≡ₚ locks set.
Proof. unfold lock_chain_sort. destruct (sorted set); [done|]. cbn. apply merge_sort_Permutation. Qed.
Lemma sort_cases set : cases (lock_chain_sort set) = cases set.
Proof. unfold lock_chain_sort. by destruct (sorted set). Qed.
Lemma sort_sorted set : sorted (lock_chain_sort set) = true.
Proof. unfold lock_chain_sort. by destruct (sorted set) eqn:E. Qed.
Lemma sort_id set : sorted set = true -> lock_chain_sort set = set.
Proof. unfold lock_chain_sort. by intros ->. Qed.

Lemma set_ok_sort w set : set_ok w set -> set_ok w (lock_chain_sort set).
Proof.
  intros [H1 H2 H3]. split; rewrite ?sort_cases; [|done|done]. by rewrite sort_perm.
Qed.

Lemma set_ok_locks w set : set_ok w set -> NoDup (locks set) /\ forall c, c ∈ locks set -> is_Some (chans w !! c).
Proof.
  intros [H1 H2 H3]. split; [by rewrite H1|]. intros c Hc. rewrite H1 in Hc.
  apply list_elem_of_fmap in Hc as (e & -> & He). destruct (H3 e He) as (ch & -> & _). done.
Qed.

Definition locked_set w (set : coroc_chan_set) : chworld S := set_chans (relock true (locks set) (chans w)) w.

Lemma chain_acquire_ok w A pc set :
  ch_inv w A pc [] -> NoDup (locks set) -> (forall c, c ∈ locks set -> is_Some (chans w !! c)) ->
  sorted set = true ->
  lock_chain_acquire set w = Ok (set, locked_set w set) /\
  ch_inv (locked_set w set) A pc (reverse (locks set)).
Proof.
  intros I Hnd Hc Hs. unfold lock_chain_acquire. rewrite sort_id by done.
  destruct (acquire_all_ok (locks set) w A pc [] I Hnd) as [E I'].
  { intros c Hin. split; [by apply Hc|apply not_elem_of_nil]. }
  rewrite app_nil_r in I'. split; [|done]. by rewrite (bind_ok _ _ _ _ _ E).
Qed.

(** Releasing the chain gives the channels back as they were but for what the
    operations changed. *)
Lemma chain_release_ok w A pc set :
  ch_inv w A pc (reverse (locks set)) -> NoDup (locks set) ->
  (forall c, c ∈ locks set -> is_Some (chans w !! c)) ->
  let w' := set_chans (relock false (reverse (locks set)) (chans w)) w in
  lock_chain_release set w = Ok (tt, w') /\ ch_inv w' A pc [].
Proof.
  intros I Hnd Hc. cbn. unfold lock_chain_release. eapply release_each_ok; [done|by rewrite reverse_Permutation| |].
  - intros c Hin. split; [by apply Hc, elem_of_reverse|done].
  - set_solver.
Qed.

Lemma relock_meta b ls M (c : chid) ch :
  M !! c = Some ch -> exists ch', relock b ls M !! c = Some ch' /\ elemsize ch' = elemsize ch.
Proof.
  intros Hc. destruct (decide (c ∈ ls)).
  - exists (set_clock b ch). by rewrite (relock_in b ls M c ch).
  - exists ch. by rewrite relock_notin.
Qed.

Lemma locked_case_ok w set e : case_ok w e -> case_ok (locked_set w set) e.
Proof.
  intros (ch & Hc & Hv & Hb). destruct (relock_meta true (locks set) _ _ _ Hc) as (ch' & Hc' & Ee).
  exists ch'. cbn. by rewrite Hc', Ee.
Qed.

Lemma free_locks w A pc c ch : ch_inv w A pc [] -> chans w !! c = Some ch -> clock ch = false.
Proof.
  intros I Hc. rewrite (proj1 (iv_chan _ _ _ _ I c ch Hc)). by apply bool_decide_eq_false_2, not_elem_of_nil.
Qed.

Lemma locked_ready w A set e :
  case_ready (locked_set w set) A e <-> case_ready w A e.
Proof.
  unfold case_ready. cbn. split; intros (ch & Hc & Hr).
  - destruct (chans w !! s_chan e) as [ch0|] eqn:E.
    + exists ch0. split; [done|]. destruct (decide (s_chan e ∈ locks set)).
      * rewrite (relock_in true (locks set) _ _ ch0) in Hc by done. by injection Hc as <-.
      * rewrite relock_notin in Hc by done. by simplify_eq.
    + by rewrite relock_none in Hc.
  - destruct (decide (s_chan e ∈ locks set)).
    + exists (set_clock true ch). by rewrite (relock_in true (locks set) _ _ ch).
    + exists ch. by rewrite relock_notin.
Qed.

Lemma insert_some_keeps (M : gmap chid chan) (c x : chid) y : is_Some (M !! x) -> is_Some (<[c := y]> M !! x).
Proof. intros. rewrite lookup_insert. by destruct (decide _). Qed.

Lemma case_done_chans w A e w' A' (c : chid) :
  case_done w A e w' A' -> is_Some (chans w !! c) -> is_Some (chans w' !! c).
Proof.
  intros (ch & els & lr & ls & _ & _ & _ & _ & Hd) Hc. destruct (s_type e).
  - destruct Hd as (s & b & _ & _ & [(l1 & q & qd & l2 & _ & _ & _ & _ & -> & _)|(_ & _ & Hd)]); [done|].
    destruct (close ch); [|destruct (buffered ch && _)]; cbn in Hd.
    1, 3: by destruct Hd as (? & -> & _).
    destruct Hd as (_ & _ & ch' & -> & _). by apply insert_some_keeps.
  - destruct els as [|x els].
    + destruct Hd as [(l1 & q & qd & l2 & _ & _ & _ & _ & -> & _)|(_ & _ & Hd)]; [done|].
      destruct (close ch); cbn in Hd; by destruct Hd as (? & -> & _).
    + destruct Hd as (_ & _ & _ & ch' & -> & _). by apply insert_some_keeps.
Qed.

(** What a select does. *)
Definition select_effect w A (qs : list qid) (set : coroc_chan_set) (block : bool) (r : sel_outcome) w' A' pc : Prop :=
  match r with
  | SelDone code (Some c) => code = CHAN_SUCCESS /\ ch_inv w' A' pc [] /\ sc_running (sch w') self /\
      exists es1 e es2 A1 st' w1, cases set = es1 ++ e :: es2 /\ c = s_chan e /\
        Forall (fun e => ~ case_ready w A e) es1 /\ case_ready w A e /\ drops w A A1 /\
        case_done (set_cques st' (locked_set w set)) A1 e w1 A' /\
        w' = set_chans (relock false (reverse (locks set)) (chans w1)) w1
  | SelDone code None => (code = CHAN_BUSY \/ code = CHAN_CLOSED) /\ block = false /\
      Forall (fun e => ~ case_ready w A e) (cases set) /\
      ch_inv w' A' pc [] /\ sc_running (sch w') self /\ drops w A A' /\ exists st', w' = set_cques st' w
  | SelBlocks => block = true /\ Forall (fun e => ~ case_ready w A e) (cases set) /\
      ch_inv w' A' (set_pc self (C_select qs set) pc) [] /\ sc_waiting (sch w') self /\
      chans w' = chans w /\ cmem w' = cmem w /\
      forall i q e, qs !! i = Some q -> cases set !! i = Some e ->
        quanta w' !! q = Some (sel_quantum e) /\ exists l, A' !! case_que e = Some (l ++ [q])
  end.

Lemma case_que_chan e : (case_que e).1 = s_chan e.
Proof. done. Qed.

(** The blocking branch. *)
Definition sel_block (qs : list qid) (set : coroc_chan_set) : ST (chworld S) (sel_outcome * coroc_chan_set) :=
  do! modify (fun w => set_qtag (<[self := None]> (qtag w)) w) in
  do! add_quanta self (cases set) qs in
  do! on_sch (sc_suspend self) in
  do! lock_chain_release set in
  ret (SelBlocks, set).

Lemma sel_block_inv w A pc L qs set st' Q' A' s' :
  ch_inv w A pc L -> pc self = C_run -> set_ok w set -> sorted set = true ->
  length qs = length (cases set) -> NoDup qs -> (forall q, q ∈ qs -> quanta w !! q = None) ->
  registered w A (cases set) qs st' Q' A' -> sc_ok s' ->
  (forall d, sc_waiting s' d <-> sc_waiting (sch w) d \/ d = self) ->
  ch_inv (mk_chworld (chans w) Q' st' (<[self := None]> (qtag w)) (cmem w) (puts w) s') A'
    (set_pc self (C_select qs set) pc) L.
Proof.
  intros I Hpc Hset Hsort Hlen Hnd Hfr R Hok Hw. destruct (set_ok_locks _ _ Hset) as [Hndl Hcl].
  assert (forall q c d, (q, (c, d)) ∈ zip qs (case_que <$> cases set) ->
    exists i e, qs !! i = Some q /\ cases set !! i = Some e /\ case_que e = (c, d)) as Hzip.
  { intros q c d [i Hi]%list_elem_of_lookup. apply lookup_zip_Some in Hi as [H1 H2].
    rewrite list_lookup_fmap in H2. apply fmap_Some in H2 as (e & He & ->). eauto. }
  eapply (inv_queued_by w A pc L self (C_select qs set) (zip qs (case_que <$> cases set)) st' Q' A');
    [done| |done|done|done|intros e Hne; by rewrite lookup_insert_ne|].
  - split; [apply R|apply R| | | |].
    + intros q Hn. apply (rg_old _ _ _ _ _ _ _ R). intros [i Hi]%list_elem_of_lookup.
      destruct (lookup_lt_is_Some_2 (cases set) i) as [e He]; [rewrite <- Hlen; by eapply lookup_lt_Some|].
      apply (Hn (case_que e)). apply (list_elem_of_lookup_2 _ i). apply lookup_zip_Some.
      by rewrite list_lookup_fmap, He.
    + intros q c d (i & e & Hi & He & Hce)%Hzip.
      destruct (rg_new _ _ _ _ _ _ _ R i q e Hi He) as (Hq & _ & _).
      destruct (so_cases _ _ Hset e) as (ch & Hc & Hv & _); [by eapply list_elem_of_lookup_2|].
      assert (c = s_chan e) as -> by (unfold case_que in Hce; congruence).
      exists (sel_quantum e), ch. split_and!; try done; [apply Hfr; by eapply list_elem_of_lookup_2|].
      exists i, e. done.
    + intros que Hq. destruct (decide (que ∈ case_que <$> cases set)) as [Hin|Hn].
      * apply list_elem_of_fmap in Hin as (e & -> & [i He]%list_elem_of_lookup).
        destruct (lookup_lt_is_Some_2 qs i) as [q Hq0]; [rewrite Hlen; by eapply lookup_lt_Some|].
        destruct (rg_new _ _ _ _ _ _ _ R i q e Hq0 He) as (_ & _ & l & _ & ->). done.
      * by rewrite (rg_other _ _ _ _ _ _ _ R).
    + intros que l' q Hl' Hq. destruct (registered_queued _ _ _ _ _ _ _ R Hlen que l' q Hl' Hq)
        as [?|(i & e & Hi & He & ->)]; [by left|right].
      apply (list_elem_of_lookup_2 _ i). apply lookup_zip_Some. by rewrite list_lookup_fmap, He.
  - split; [by rewrite lookup_insert_eq|]. split; try done; [apply Hset| |].
    + exists None. cbn. rewrite lookup_insert_eq. split_and!; [done| |done]. intros _. apply Hw. by right.
    + intros i q e Hi He. destruct (rg_new _ _ _ _ _ _ _ R i q e Hi He) as (Hq & (it & Hit) & _).
      by exists (sel_quantum e), it.
Qed.

Lemma sel_block_ok w A pc qs set :
  ch_inv w A pc (reverse (locks set)) -> pc self = C_run -> sc_running (sch w) self ->
  set_ok w set -> sorted set = true ->
  length qs = length (cases set) -> NoDup qs -> (forall q, q ∈ qs -> quanta w !! q = None) ->
  (forall e l, e ∈ cases set -> A !! case_que e = Some l -> Z.of_nat (length l) + 1 < 2 ^ 32) ->
  exists w' A', sel_block qs set w = Ok ((SelBlocks, set), w') /\
    ch_inv w' A' (set_pc self (C_select qs set) pc) [] /\ sc_waiting (sch w') self /\
    chans w' = relock false (reverse (locks set)) (chans w) /\ cmem w' = cmem w /\
    forall i q e, qs !! i = Some q -> cases set !! i = Some e ->
      quanta w' !! q = Some (sel_quantum e) /\ exists l, A' !! case_que e = Some (l ++ [q]).
Proof.
  intros I Hpc Hrun Hset Hsort Hlen Hnd Hfr Hbound. destruct (set_ok_locks _ _ Hset) as [Hndl Hcl].
  set (w0 := set_qtag (<[self := None]> (qtag w)) w).
  destruct (add_quanta_ok (cases set) qs w0 A Hlen Hnd (so_distinct _ _ Hset) (iv_store _ _ _ _ I))
    as (st' & Q' & A' & E & R).
  { intros q Hq [c d] l Hl. by eapply inv_not_queued; [|apply Hfr|]. }
  { intros e He. destruct (so_cases _ _ Hset e He) as (ch & Hc & _).
    destruct (iv_ques _ _ _ _ I _ _ (case_que e).2 Hc) as [l Hl]. exists l. split; [done|]. by eapply Hbound. }
  destruct (sc_suspend_spec (sch w) self (iv_sc _ _ _ _ I) Hrun) as (s' & Es & Hok & Hw & _).
  set (w1 := mk_chworld (chans w) Q' st' (<[self := None]> (qtag w)) (cmem w) (puts w) s').
  assert (ch_inv w1 A' (set_pc self (C_select qs set) pc) (reverse (locks set))) as I1.
  { eapply sel_block_inv; try done. destruct R as [X1 X2 X3 X4 X5]. by split. }
  destruct (chain_release_ok w1 A' _ set I1 Hndl Hcl) as [Er I2].
  eexists _, A'. split_and!; [|exact I2|apply Hw; by right|done|done|].
  - unfold sel_block. rewrite (bind_ok _ _ _ tt w0) by done. rewrite (bind_ok _ _ _ _ _ E).
    rewrite (bind_ok _ _ _ tt w1) by (unfold on_sch, zoom; cbn; by rewrite Es).
    by rewrite (bind_ok _ _ _ _ _ Er).
  - intros i q e Hi He. destruct (rg_new _ _ _ _ _ _ _ R i q e Hi He) as (Hq & _ & l & _ & Hl).
    split; [done|]. by exists l.
Qed.

Lemma locked_set_release w A pc set st :
  ch_inv w A pc [] -> set_chans (relock false (reverse (locks set)) (relock true (locks set) (chans w)))
    (set_cques st (locked_set w set)) = set_cques st w.
Proof.
  intros I. rewrite relock_inverse; [done|]. intros c ch _ Hc. by eapply free_locks.
Qed.

Lemma select_spec w A pc qs set block :
  ch_inv w A pc [] -> pc self = C_run -> sc_running (sch w) self -> set_ok w set -> cases set <> [] ->
  (block = true -> length qs = length (cases set) /\ NoDup qs /\ (forall q, q ∈ qs -> quanta w !! q = None) /\
    forall e l, e ∈ cases set -> A !! case_que e = Some l -> Z.of_nat (length l) + 1 < 2 ^ 32) ->
  exists r w' A', _coroc_chan_set_select self qs set block w = Ok ((r, lock_chain_sort set), w') /\
    select_effect w A qs (lock_chain_sort set) block r w' A' pc.
Proof.
  intros I Hpc Hrun Hset Hne Hblk.
  assert (@lock_chain_acquire S set = lock_chain_acquire (lock_chain_sort set)) as Eacq.
  { unfold lock_chain_acquire. by rewrite (sort_id (lock_chain_sort set)) by apply sort_sorted. }
  pose proof (set_ok_sort _ _ Hset) as Hset'. pose proof (sort_sorted set) as Hsort.
  rewrite <- (sort_cases set) in Hne, Hblk.
  assert (_coroc_chan_set_select self qs set block w =
    (let! set := lock_chain_acquire (lock_chain_sort set) in
     let! '(code, active) := try_cases self (cases set) 0 in
     if (code =? CHAN_SUCCESS) || negb block then
       do! lock_chain_release set in ret (SelDone code active, set)
     else sel_block qs set) w) as ->.
  { unfold _coroc_chan_set_select. rewrite <- Eacq, <- (sort_cases set). by destruct (cases (lock_chain_sort set)). }
  revert Hset' Hsort Hne Hblk. generalize (lock_chain_sort set). clear set Hset Eacq.
  intros set Hset Hsort Hne Hblk. destruct (set_ok_locks _ _ Hset) as [Hndl Hcl].
  destruct (chain_acquire_ok w A pc set I Hndl Hcl Hsort) as [Ea I0]. rewrite (bind_ok _ _ _ _ _ Ea).
  destruct (try_cases_ok (cases set) (locked_set w set) A pc (reverse (locks set)) 0 I0 Hpc Hrun)
    as (r & w1 & A1 & Et & I1 & R1 & HP).
  { intros e He. split; [|by apply locked_case_ok, (so_cases _ _ Hset)].
    apply elem_of_reverse. rewrite (so_perm _ _ Hset). by apply list_elem_of_fmap_2. }
  rewrite (bind_ok _ _ _ _ _ Et).
  assert (forall l, Forall (fun e => ~ case_ready (locked_set w set) A e) l -> Forall (fun e => ~ case_ready w A e) l) as Hnr.
  { intros l Hl. eapply Forall_impl; [exact Hl|]. intros e Hn Hr. by apply Hn, locked_ready. }
  assert (forall c, c ∈ locks set -> is_Some (chans (locked_set w set) !! c)) as Hcl'.
  { intros c Hc. by apply relock_some, Hcl. }
  destruct HP as [(es1 & e & es2 & A2 & st2 & Ees & -> & Hf & Hrd & Hd & Hdn)|(Hf & Hn & Hd & (st1 & ->) & Hcode)].
  - cbn [Z.eqb CHAN_SUCCESS orb].
    destruct (chain_release_ok w1 A1 pc set I1 Hndl) as [Er I2].
    { intros c Hc. eapply case_done_chans; [done|]. by apply Hcl'. }
    eexists _, _, A1. split; [by rewrite (bind_ok _ _ _ _ _ Er)|].
    split_and!; [done|exact I2|done|]. exists es1, e, es2, A2, st2, w1.
    split_and!; [done|done|by apply Hnr|by apply locked_ready in Hrd|done|done|done].
  - destruct r as [code act]. cbn in Hn, Hcode. subst act. rewrite decide_False in Hcode by done.
    replace (code =? CHAN_SUCCESS) with false by (by destruct Hcode as [-> | ->]). cbn [orb].
    assert (drops w A A1) as Hd' by done.
    destruct block; cbn [negb].
    + destruct (Hblk eq_refl) as (Hlen & Hnd & Hfr & Hbd).
      destruct (sel_block_ok (set_cques st1 (locked_set w set)) A1 pc qs set) as (w' & A' & E & I' & Hw & Hch & Hm & Hq);
        [done..| |done|done|done|done| |].
      { destruct Hset as [X1 X2 X3]. split; [done|done|]. intros e He. exact (locked_case_ok w set e (X3 e He)). }
      { intros e l He Hl. specialize (Hd' (case_que e)). destruct (A !! case_que e) as [l0|] eqn:El0; [|congruence].
        destruct Hd' as (l' & El' & Hlen' & _). assert (l' = l) as -> by congruence.
        pose proof (Hbd e l0 He El0). lia. }
      exists SelBlocks, w', A'. split; [done|]. split_and!; [done|exact (Hnr _ Hf)|done|done| |done|done].
      rewrite Hch. cbn. apply relock_inverse. intros c ch _ Hc. exact (free_locks w A pc c ch I Hc).
    + destruct (chain_release_ok _ A1 pc set I1 Hndl Hcl') as [Er I2].
      cbn [chans set_cques locked_set set_chans] in Er, I2.
      pose proof (locked_set_release w A pc set st1 I) as Ew. rewrite Ew in Er, I2.
      exists (SelDone code None), (set_cques st1 w), A1. split; [by rewrite (bind_ok _ _ _ _ _ Er)|].
      split_and!; try done; [by apply Hnr|]. by exists st1.
Qed.

(** ** After the suspension *)

Lemma foldr_delete_notin (qs : list qid) (Q : gmap qid quantum) q :
  q ∉ qs -> foldr delete Q qs !! q = Q !! q.
Proof.
  induction qs as [|x qs IH]; intros Hn; [done|]. apply not_elem_of_cons in Hn as [? ?]. cbn.
  rewrite lookup_delete_ne by done. by apply IH.
Qed.

(** Leaving the channel functions: the quanta of the coroutine go. *)
Lemma inv_leave w A pc L qs T' :
  ch_inv w A pc L -> (forall q qd, q ∈ qs -> quanta w !! q = Some qd -> q_coroutine qd = self) ->
  (forall c d l q qd, A !! (c, d) = Some l -> q ∈ l -> quanta w !! q = Some qd -> q_coroutine qd <> self) ->
  (forall e, e <> self -> T' !! e = qtag w !! e) ->
  ch_inv (set_qtag T' (set_quanta (foldr delete (quanta w) qs) w)) A (set_pc self C_run pc) L.
Proof.
  intros I Hown Hnq HT.
  assert (forall q qd, quanta w !! q = Some qd -> q_coroutine qd <> self -> foldr delete (quanta w) qs !! q = Some qd) as HQ.
  { intros q qd Hq Hne. rewrite foldr_delete_notin; [done|]. intros Hin. by eapply Hne, Hown. }
  split; cbn; try apply I.
  - intros c d l q Hl Hq. destruct (iv_quantum _ _ _ _ I _ _ _ _ Hl Hq) as (qd & Hqd & ? & ? & ? & Hlv & Hpk).
    pose proof (Hnq _ _ _ _ _ Hl Hq Hqd) as Hne. exists qd. split_and!; [by apply HQ|done|done|done| |].
    + unfold live in *. cbn. by rewrite HT.
    + unfold parked in *. by rewrite set_pc_ne.
  - intros co q c d. destruct (decide (co = self)) as [->|Hne]; [by rewrite set_pc_eq|].
    rewrite set_pc_ne by done. intros Hb. destruct (iv_block _ _ _ _ I _ _ _ _ Hb) as (qd & ? & <- & ?).
    exists qd. split_and!; [by apply HQ|done|done].
  - intros co qs' set. destruct (decide (co = self)) as [->|Hne]; [by rewrite set_pc_eq|].
    rewrite set_pc_ne by done. intros Hs.
    destruct (iv_select _ _ _ _ I _ _ _ Hs) as [Z1 Z2 Z3 Z4 Z5 Z6 Z7 Z8].
    split; try done; cbn; [by rewrite HT|].
    intros i q e Hi He. destruct (Z8 i q e Hi He) as (qd & it & Hqd & ? & Eco & ?).
    exists qd, it. split_and!; [apply HQ; congruence|done..].
Qed.

(** The end of a send or receive that blocked: awakened, or closed. *)
Lemma op_resume_ok w A pc q c d :
  ch_inv w A pc [] -> pc self = C_block q c d -> sc_running (sch w) self ->
  exists qd, quanta w !! q = Some qd /\
    chan_op_resume q c w = Ok (if q_close qd then CHAN_CLOSED else CHAN_AWAKEN,
                               set_quanta (delete q (quanta w)) w) /\
    ch_inv (set_quanta (delete q (quanta w)) w) A (set_pc self C_run pc) [].
Proof.
  intros I Hpc Hrun. destruct (iv_block _ _ _ _ I _ _ _ _ Hpc) as (qd & Hq & Eco & [ch Hc]).
  pose proof (free_locks _ _ _ _ _ I Hc) as Hk.
  destruct (lock_acquire_ok w A pc [] c ch I Hc) as [El I1]; [set_solver|].
  destruct (lock_release_ok _ A pc [c] [] c (set_clock true ch) I1) as [Er _];
    [cbn; by rewrite lookup_insert_eq|by left|set_solver..|].
  exists qd. split_and!; [done| |].
  - set (w1 := set_chans _ _) in *.
    assert (block_resume q c w = Ok (if q_close qd then CHAN_CLOSED else CHAN_AWAKEN, w1)) as Eb.
    { unfold block_resume. rewrite (bind_ok _ _ _ _ _ El).
      by rewrite (bind_ok _ _ _ qd w1) by (unfold get_quantum; cbn; by rewrite Hq). }
    unfold chan_op_resume. rewrite (bind_ok _ _ _ _ _ Eb), (bind_ok _ _ _ _ _ Er).
    unfold bind, modify, ret. cbn. unfold set_quanta. cbn. by rewrite unlock_chan.
  - assert (ch_inv (set_qtag (qtag w) (set_quanta (foldr delete (quanta w) [q]) w)) A (set_pc self C_run pc) []) as I2;
      [|done].
    apply inv_leave; [done| | |done].
    + intros q' qd' Hin ?. apply list_elem_of_singleton in Hin as ->. congruence.
    + intros c' d' l q' qd' Hl Hin Hqd' E.
      destruct (iv_quantum _ _ _ _ I _ _ _ _ Hl Hin) as (x & Hx & _ & _ & _ & Hlv & Hpk).
      assert (x = qd') as -> by congruence. unfold parked in Hpk. rewrite E, Hpc in Hpk.
      destruct Hpk as (_ & _ & _ & Hs). unfold live in Hlv. rewrite Hs, E in Hlv.
      by eapply sc_disjoint; [apply (iv_sc _ _ _ _ I)|..].
Qed.

Definition without (qs : list qid) A A' : Prop :=
  forall que, A' !! que = filter (fun q => q ∉ qs) <$> A !! que.

(** The code of a select: closed if the quantum of the active channel is. *)
Definition sel_code (Q : gmap qid quantum) (act : option chid) (qs : list qid) (code : Z) : Z :=
  foldl (fun code q => match Q !! q with
                       | Some qd => if bool_decide (act = Some (q_chan qd)) && q_close qd then CHAN_CLOSED else code
                       | None => code
                       end) code qs.

Lemma filter_keep (P : qid -> Prop) `{forall x, Decision (P x)} (l : list qid) :
  (forall x, x ∈ l -> P x) -> filter P l = l.
Proof.
  induction l as [|x l IH]; intros Hl; [done|]. rewrite filter_cons_True by (apply Hl; by left).
  f_equal. apply IH. intros y Hy. apply Hl. by right.
Qed.

Lemma filter_notin_cons (q : qid) qs (l : list qid) :
  filter (fun x => x ∉ q :: qs) l = filter (fun x => x ∉ qs) (filter (fun x => x <> q) l).
Proof.
  rewrite list_filter_filter. apply list_filter_iff. intros x. rewrite not_elem_of_cons. naive_solver.
Qed.

Lemma extract_quanta_ok es : forall qs w A act code,
  length qs = length es -> store_ok (cques w) A ->
  (forall i q e, qs !! i = Some q -> es !! i = Some e -> exists qd it, quanta w !! q = Some qd /\
     items (cques w) !! q = Some it /\ is_Some (A !! case_que e)) ->
  (forall i q e que l, qs !! i = Some q -> es !! i = Some e -> A !! que = Some l -> q ∈ l -> que = case_que e) ->
  exists st' A', extract_quanta es qs act code w = Ok (sel_code (quanta w) act qs code, set_cques st' w) /\
    store_ok st' A' /\ same_owners (cques w) st' /\ without qs A A'.
Proof.
  induction es as [|e es IH]; intros qs w A act code Hlen O Hq Hwhere;
    (destruct qs as [|q qs]; try (cbn in Hlen; lia)).
  { exists (cques w), A. split_and!; [by destruct w|done|done|]. intros que.
    destruct (A !! que) as [l|]; [|done]. cbn. by rewrite filter_keep by (intros; apply not_elem_of_nil). }
  destruct (Hq 0%nat q e) as (qd & it & Hqd & Hit & [l Hl]); [done..|].
  destruct (store_extract_filter (cques w) A (case_que e) l q it (so_rep _ _ O) Hl Hit) as (st1 & E1 & R1 & Ho1).
  set (w1 := set_cques st1 w). set (A1 := <[case_que e := filter (fun x => x <> q) l]> A) in *.
  set (code1 := if bool_decide (act = Some (q_chan qd)) && q_close qd then CHAN_CLOSED else code).
  assert (forall que, A1 !! que = filter (fun x => x <> q) <$> A !! que) as HA1.
  { intros que. subst A1. destruct (decide (que = case_que e)) as [->|Hne]; [by rewrite lookup_insert_eq, Hl|].
    rewrite lookup_insert_ne by done. destruct (A !! que) as [l0|] eqn:E; [|done]. cbn.
    rewrite filter_keep; [done|]. intros x Hx ->. by eapply Hne, (Hwhere 0%nat q e). }
  destruct (IH qs w1 A1 act code1) as (st2 & A2 & E2 & O2 & Ho2 & W2).
  { cbn in Hlen. lia. } { by eapply store_ok_same. }
  { intros i q' e' Hi He'. destruct (Hq (Datatypes.S i) q' e') as (qd' & it' & ? & Hit' & [l' Hl']); [done..|].
    destruct (items_same _ _ _ _ Ho1 Hit') as [it2 ?]. exists qd', it2. split_and!; [done|done|].
    by rewrite HA1, Hl'. }
  { intros i q' e' que l' Hi He' Hl' Hin. rewrite HA1 in Hl'. apply fmap_Some in Hl' as (l0 & Hl0 & ->).
    apply list_elem_of_filter in Hin as [_ Hin]. by eapply (Hwhere (Datatypes.S i) q' e'). }
  exists st2, A2. split_and!; [|done|intros x; by rewrite Ho2, <- (Ho1 x)|].
  - cbn [extract_quanta]. rewrite (bind_ok _ _ _ qd w) by (unfold get_quantum; by rewrite Hqd).
    fold code1. rewrite (bind_ok _ _ _ tt w1) by (unfold on_ques, zoom; by rewrite E1).
    rewrite E2. cbn [sel_code foldl]. by rewrite Hqd.
  - intros que. rewrite W2, HA1. destruct (A !! que) as [l0|]; [|done]. cbn. by rewrite filter_notin_cons.
Qed.

Lemma select_resume_ok w A pc qs set :
  ch_inv w A pc [] -> pc self = C_select qs set -> sc_running (sch w) self ->
  exists c w' A', qtag w !! self = Some (Some c) /\ c ∈ locks set /\
    select_resume self qs set w = Ok ((sel_code (quanta w) (Some c) qs CHAN_SUCCESS, Some c), w') /\
    ch_inv w' A' (set_pc self C_run pc) [] /\ without qs A A' /\
    chans w' = chans w /\ cmem w' = cmem w /\ sch w' = sch w.
Proof.
  intros I Hpc Hrun. pose proof (iv_select _ _ _ _ I _ _ _ Hpc) as [Z1 Z2 Z3 Z4 Z5 Z6 (t & Ht & Hwt & Htin) Z8].
  destruct t as [c|]; [|by destruct (sc_disjoint _ _ (iv_sc _ _ _ _ I) (Hwt eq_refl) Hrun)].
  destruct (chain_acquire_ok w A pc set I Z4 Z6 Z3) as [Ea I0]. set (w0 := locked_set w set) in *.
  destruct (extract_quanta_ok (cases set) qs w0 A (Some c) CHAN_SUCCESS Z1 (iv_store _ _ _ _ I0))
    as (st1 & A1 & Ex & O1 & Ho1 & W1).
  { intros i q e Hi He. destruct (Z8 i q e Hi He) as (qd & it & ? & Ec & ? & ?). exists qd, it. split_and!; [done|done|].
    destruct (Z6 (s_chan e)) as [ch Hc].
    { rewrite Z5. by eapply list_elem_of_fmap_2, list_elem_of_lookup_2. }
    by apply (iv_ques _ _ _ _ I _ ch (case_que e).2). }
  { intros i q e [c' d'] l Hi He Hl Hin. destruct (Z8 i q e Hi He) as (qd & it & Hqd & _ & Eco & _).
    destruct (iv_quantum _ _ _ _ I _ _ _ _ Hl Hin) as (x & Hx & _ & _ & _ & _ & Hpk).
    assert (x = qd) as -> by congruence. unfold parked in Hpk. rewrite Eco, Hpc in Hpk.
    destruct Hpk as (_ & j & e' & Hj & He' & <-).
    assert (i = j) as -> by (by eapply (NoDup_lookup qs _ _ q)). congruence. }
  assert (ch_inv (set_cques st1 w0) A1 pc (reverse (locks set))) as I1.
  { apply (inv_sub _ A); [done..| |].
    - intros que [l Hl]. by rewrite W1, Hl.
    - intros que l' q Hl' Hq. rewrite W1 in Hl'. apply fmap_Some in Hl' as (l & Hl & ->).
      apply list_elem_of_filter in Hq as [_ Hq]. eauto. }
  set (w2 := set_qtag (<[self := None]> (qtag w)) (set_quanta (foldr delete (quanta w) qs) (set_cques st1 w0))).
  assert (ch_inv w2 A1 (set_pc self C_run pc) (reverse (locks set))) as I2.
  { apply (inv_leave (set_cques st1 w0)); [done| | |intros; by rewrite lookup_insert_ne].
    - intros q qd [i Hi]%list_elem_of_lookup Hqd.
      destruct (lookup_lt_is_Some_2 (cases set) i) as [e He]; [rewrite <- Z1; by eapply lookup_lt_Some|].
      destruct (Z8 i q e Hi He) as (qd' & _ & ? & _ & <- & _). cbn in Hqd. congruence.
    - intros c' d' l' q qd Hl' Hq Hqd Eco.
      destruct (iv_quantum _ _ _ _ I1 _ _ _ _ Hl' Hq) as (x & Hx & _ & _ & _ & _ & Hpk).
      assert (x = qd) as -> by (cbn in *; congruence). unfold parked in Hpk. rewrite Eco, Hpc in Hpk.
      destruct Hpk as (_ & j & e' & Hj & _). rewrite W1 in Hl'. apply fmap_Some in Hl' as (l & Hl & ->).
      apply list_elem_of_filter in Hq as [Hn _]. by apply Hn, (list_elem_of_lookup_2 _ j). }
  destruct (chain_release_ok w2 A1 _ set I2 Z4) as [Er I3].
  { intros x Hx. by apply relock_some, Z6. }
  exists c, (set_cques st1 (set_qtag (<[self := None]> (qtag w)) (set_quanta (foldr delete (quanta w) qs) w))), A1.
  assert (set_chans (relock false (reverse (locks set)) (chans w2)) w2 =
    set_cques st1 (set_qtag (<[self := None]> (qtag w)) (set_quanta (foldr delete (quanta w) qs) w))) as Ew.
  { cbn. rewrite relock_inverse; [done|]. intros x ch _ Hx. exact (free_locks w A pc x ch I Hx). }
  rewrite Ew in Er, I3. split_and!; try done; [by apply Htin|].
  unfold select_resume. rewrite (bind_ok _ _ _ _ _ Ea). rewrite (bind_ok _ _ _ w0 w0) by done.
  rewrite (bind_ok _ _ _ (Some c) w0) by (unfold demand; cbn; by rewrite Ht).
  rewrite (bind_ok _ _ _ _ _ Ex).
  rewrite (bind_ok _ _ _ tt (set_quanta (foldr delete (quanta w) qs) (set_cques st1 w0))) by done.
  rewrite (bind_ok _ _ _ tt w2) by done. by rewrite (bind_ok _ _ _ _ _ Er).
Qed.

(** ** The theorems *)

(** C15: a select takes the locks of its channels in address order without
    deadlock, serves the first case that is ready and no other; if none is
    ready it returns at once with no effect, or, blocking, puts one quantum per
    case at the end of the queue of its channel and suspends; all locks are
    free afterwards. *)
Theorem chan_select_spec w A pc qs set block :
  ch_inv w A pc [] -> pc self = C_run -> sc_running (sch w) self -> set_ok w set -> cases set <> [] ->
  (block = true -> length qs = length (cases set) /\ NoDup qs /\ (forall q, q ∈ qs -> quanta w !! q = None) /\
    forall e l, e ∈ cases set -> A !! case_que e = Some l -> Z.of_nat (length l) + 1 < 2 ^ 32) ->
  exists r w' A', _coroc_chan_set_select self qs set block w = Ok ((r, lock_chain_sort set), w') /\
    select_effect w A qs (lock_chain_sort set) block r w' A' pc.
Proof. apply select_spec. Qed.

(** C16: when a blocked select runs again, exactly one channel of its set has
    served it: the call returns that channel, with the code for a closed
    channel when the quantum there was closed, and removes its remaining quanta
    from all queues, in which nothing else changes. *)
Theorem chan_select_resumes w A pc qs set :
  ch_inv w A pc [] -> pc self = C_select qs set -> sc_running (sch w) self ->
  exists c w' A', qtag w !! self = Some (Some c) /\ c ∈ locks set /\
    select_resume self qs set w = Ok ((sel_code (quanta w) (Some c) qs CHAN_SUCCESS, Some c), w') /\
    ch_inv w' A' (set_pc self C_run pc) [] /\ without qs A A' /\
    chans w' = chans w /\ cmem w' = cmem w /\ sch w' = sch w.
Proof. apply select_resume_ok. Qed.

(** C18: a select whose set names the same channel in two cases never returns:
    the chain takes the lock of that channel a second time and waits for
    itself. *)
Theorem select_twice_deadlocks w A pc qs set block :
  ch_inv w A pc [] -> locks set ≡ₚ s_chan <$> cases set ->
  (forall e, e ∈ cases set -> case_ok w e) -> ~ NoDup (s_chan <$> cases set) ->
  _coroc_chan_set_select self qs set block w = Err SelfDeadlock.
Proof.
  intros I Hp Hc Hnd. unfold _coroc_chan_set_select.
  destruct (cases set) as [|e es] eqn:Ec; [by destruct Hnd; constructor|]. rewrite <- Ec in *.
  unfold lock_chain_acquire. unfold bind at 1, bind at 1.
  rewrite (acquire_all_dup _ w A pc [] I); [done| |left].
  - intros c Hin. rewrite sort_perm, Hp in Hin. apply list_elem_of_fmap in Hin as (x & -> & Hx).
    destruct (Hc x Hx) as (ch & -> & _). done.
  - by rewrite sort_perm, Hp.
Qed.
End sel.
