(* ===== verification/ChannelSched.v ===== *)
(** * The scheduler behind the channels

    The scheduler of src/vpu.c as an instance of the interface the channels
    are verified against: [sc_ready] is [vpu_ready(c, false)] and [sc_suspend]
    is [vpu_suspend], called by the thread that runs the calling coroutine. *)

From stdpp Require Import functions.
From S2P Require Import Prelude Queue RunQueue Scheduler SchedInv SchedProps Coroutine System Channel.

(** The VPU whose current coroutine is [c]. *)
Definition vpu_of (w : world) (c : coid) : option nat :=
  fst <$> list_find (fun t => t.1 = Some c) (threads w).

Definition waits (w : world) (c : coid) : Prop :=
  exists co, coros w !! c = Some co /\ ctype co <> TSC_COROUTINE_IDLE /\ status co = TSC_COROUTINE_WAIT.

#[export] Instance world_ops : SchedOps world := {
  sc_ok w := sys_inv w /\ few w;
  sc_waiting := waits;
  sc_running w c := exists v, runs w v c;
  sc_ready self c := fun w => match vpu_of w self with
                              | Some v => vpu_ready (Some v) c false w
                              | None => Err NullDeref
                              end;
  sc_suspend self := fun w => match vpu_of w self with
                              | Some v => vpu_suspend v [] unlock_lock_release w
                              | None => Err NullDeref
                              end
}.

Lemma vpu_of_runs w v c : sys_inv w -> runs w v c -> vpu_of w c = Some v.
Proof.
  intros [_ T] (s & Hv & Hs). unfold vpu_of.
  destruct (list_find (fun t => t.1 = Some c) (threads w)) as [[u t]|] eqn:E.
  - apply list_find_Some in E as (Hu & Et & _). cbn. f_equal.
    by apply (ti_uniq _ _ T u v t (Some c, s)).
  - apply list_find_None in E. by destruct (proj1 (Forall_lookup _ _) E v _ Hv).
Qed.

Lemma runs_status w v c : sys_inv w -> runs w v c ->
  exists co, coros w !! c = Some co /\ ctype co <> TSC_COROUTINE_IDLE /\ status co = TSC_COROUTINE_RUNNING.
Proof. intros Y Hr. destruct (runs_inv _ _ _ Y Hr) as (vp & co & p & H). exists co. naive_solver. Qed.

Lemma few_insert (w w' : world) c co co' :
  coros w !! c = Some co -> coros w' = <[c := co']> (coros w) -> few w -> few w'.
Proof. unfold few. intros Hc -> Hf. by rewrite map_size_insert_Some by (by rewrite Hc). Qed.

(** Who waits after the state of one coroutine changed. *)
Lemma waits_insert (w w' : world) c co' d :
  coros w' = <[c := co']> (coros w) ->
  waits w' d <-> (d = c /\ ctype co' <> TSC_COROUTINE_IDLE /\ status co' = TSC_COROUTINE_WAIT) \/
                 (d <> c /\ waits w d).
Proof.
  intros E. unfold waits. rewrite E. destruct (decide (d = c)) as [->|Hne].
  - rewrite lookup_insert_eq. naive_solver.
  - rewrite lookup_insert_ne by done. naive_solver.
Qed.

Lemma world_ready_spec w self c : sys_inv w -> few w -> (exists v, runs w v self) -> waits w c ->
  exists w', sc_ready self c w = Ok (tt, w') /\ (sys_inv w' /\ few w') /\
    (forall d, waits w' d <-> waits w d /\ d <> c) /\
    (forall d, (exists v, runs w' v d) <-> exists v, runs w v d).
Proof.
  intros Y Hf [v Hr] (co & Hc & Hty & Hs). cbn [sc_ready world_ops]. rewrite (vpu_of_runs _ _ _ Y Hr).
  assert (v < length (vpus w))%nat as Hv.
  { destruct Hr as (s & Hv & _). apply lookup_lt_Some in Hv. unfold threads in Hv. by rewrite length_fmap in Hv. }
  destruct (ready_plain_keeps w (Some v) false c co) as (w' & E & Y'); try done; [by right|by intros ? [= <-]|].
  pose proof Y as [(R & Tr & I & HR) T]. pose proof (total_few _ _ _ I Hf). pose proof (ti_prio _ _ T _ _ Hc Hty).
  destruct (vpu_ready_plain (Some v) false w R Tr c co (Z.to_nat (priority co)))
    as (w2 & E2 & _ & Hco & [_ Hth]); [by right|apply I|done|done|lia|lia|lia|by intros ? [= <-]|].
  assert (w2 = w') as -> by congruence. exists w'. split_and!; [done|done|by eapply few_insert| |].
  - intros d. rewrite (waits_insert w w' c _ d Hco). cbn. naive_solver.
  - intros d. unfold runs. by rewrite (core_threads _ _ Hth).
Qed.

Lemma world_suspend_spec w self : sys_inv w -> few w -> (exists v, runs w v self) ->
  exists w', sc_suspend self w = Ok (tt, w') /\ (sys_inv w' /\ few w') /\
    (forall d, waits w' d <-> waits w d \/ d = self) /\
    (forall d, (exists v, runs w' v d) <-> (exists v, runs w v d) /\ d <> self).
Proof.
  intros Y Hf [v Hr]. cbn [sc_suspend world_ops]. rewrite (vpu_of_runs _ _ _ Y Hr).
  destruct (suspend_keeps w v self [] unlock_lock_release) as (w' & E & Y'); [done|done|constructor|set_solver|].
  destruct (runs_inv _ _ _ Y Hr) as (vp & co & p & Hv & Hcur & Ht & Hc & Hty & Hs & Hp & Hp4).
  pose proof Y as [(R & Tr & I & HR) T].
  destruct (vpu_suspend_rep w R Tr v vp self co [] unlock_lock_release) as (w2 & E2 & _ & Hco & Hvp & _);
    [apply I|done|done|done|done|constructor|set_solver|].
  assert (w2 = w') as -> by congruence. exists w'. split_and!; [done|done|by eapply few_insert| |].
  - intros d. rewrite (waits_insert w w' self _ d Hco). cbn. split; [naive_solver|].
    intros [Hw| ->]; [|by left]. right. split; [|done]. intros ->.
    destruct Hw as (co' & Hc' & _ & Hs'). congruence.
  - assert (threads w' = alter (run_on (scheduler vp)) v (threads w)) as Eth.
    { unfold threads at 1. rewrite Hvp. by apply (threads_insert w v vp). }
    intros d. split.
    + intros (u & s & Hu & Hne). rewrite Eth in Hu. apply alter_cases in Hu as [(-> & t0 & H0 & Et)|[Hnv Hu]].
      * rewrite Ht in H0. injection H0 as <-. unfold run_on in Et. cbn in Et. injection Et as Ea Eb. congruence.
      * split; [by exists u, s|]. intros ->. apply Hnv. by apply (ti_uniq _ _ T u v _ _ Hu Ht).
    + intros [(u & s & Hu & Hne) Hd]. exists u, s. split; [|done]. rewrite Eth, list_lookup_alter_ne; [done|].
      intros ->. rewrite Ht in Hu. congruence.
Qed.

#[export] Instance world_laws : SchedLaws world.
Proof.
  split.
  - intros w c [Y _] (co & Hc & _ & Hs) [v Hr]. destruct (runs_status _ _ _ Y Hr) as (co' & ? & _ & ?). congruence.
  - intros w self c [Y Hf] Hr Hw. by apply world_ready_spec.
  - intros w self c [Y _] [v Hr] [u Hu]. cbn. rewrite (vpu_of_runs _ _ _ Y Hr).
    destruct (runs_status _ _ _ Y Hu) as (co & Hc & _ & Hs). unfold vpu_ready, ready_enqueue.
    unfold bind at 1, bind at 1. unfold get_co. rewrite Hc. unfold bind at 1, assert_. by rewrite Hs.
  - intros w self [Y Hf] Hr. by apply world_suspend_spec.
Qed.
