(* ===== verification/ChannelSys.v ===== *)
(** * Programs that communicate over channels (src/channel.c)

    Coroutines create channels, send, receive, select and close in any order,
    block and are resumed; the scheduler starts and stops them in between.
    [chan_run] executes such a sequence of operations. *)

From S2P Require Import Prelude Queue Channel ChannelProps ChannelInv ChannelOps ChannelSelect.

Section sys.
Context {S : Type} `{SchedLaws S}.
Implicit Types (w : chworld S) (A : gmap (chid * dir) (list qid)) (pc : coid -> cpc).

Record cstate := mk_cstate { cw : chworld S; pcs : coid -> cpc }.

Inductive cevent : Type :=
| EvAlloc (c : chid) (elem bs : Z) (ref : bool) (bytes : list Z)
| EvSend (co : coid) (q : qid) (c : chid) (s : ptr) (block : bool)
| EvRecv (co : coid) (q : qid) (own : chid) (c : option chid) (b : option ptr) (block : bool)
| EvClose (co : coid) (c : chid)
| EvSelect (co : coid) (qs : list qid) (set : coroc_chan_set) (block : bool)
| EvResume (co : coid)        (* a coroutine returns from its suspension *)
| EvSched (s : S).            (* the scheduler starts and stops coroutines *)

Definition on_cw {R} (m : ST (chworld S) R) (f : R -> (coid -> cpc) -> coid -> cpc) : cstate -> res cstate :=
  fun st => match m (cw st) with
            | Ok (r, w') => Ok (mk_cstate w' (f r (pcs st)))
            | Err e => Err e
            end.

Definition chan_exec (e : cevent) (st : cstate) : res cstate :=
  match e with
  | EvAlloc c elem bs ref bytes => on_cw (_coroc_chan_allocate c elem bs ref bytes) (fun _ pc => pc) st
  | EvSend co q c s block =>
      on_cw (_coroc_chan_send co q c (Some s) block)
        (fun r pc => match r with Done _ => pc | Blocks => set_pc co (C_block q c send_que) pc end) st
  | EvRecv co q own c b block =>
      on_cw (_coroc_chan_recv co q own c b block)
        (fun r pc => match r with
                     | Done _ => pc
                     | Blocks => set_pc co (C_block q (from_option id own c) recv_que) pc
                     end) st
  | EvClose co c => on_cw (coroc_chan_close co c) (fun _ pc => pc) st
  | EvSelect co qs set block =>
      on_cw (_coroc_chan_set_select co qs set block)
        (fun r pc => match r with
                     | (SelDone _ _, _) => pc
                     | (SelBlocks, set') => set_pc co (C_select qs set') pc
                     end) st
  | EvResume co =>
      match pcs st co with
      | C_run => Ok st
      | C_block q c _ => on_cw (chan_op_resume q c) (fun _ => set_pc co C_run) st
      | C_select qs set => on_cw (select_resume co qs set) (fun _ => set_pc co C_run) st
      end
  | EvSched s => Ok (mk_cstate (set_sch s (cw st)) (pcs st))
  end.

Fixpoint chan_run (es : list cevent) (st : cstate) : res cstate :=
  match es with
  | [] => Ok st
  | e :: es => match chan_exec e st with Ok st' => chan_run es st' | Err f => Err f end
  end.

(** Fewer quanta than the counters of the wait queues can count. *)
Definition few_quanta w (n : nat) : Prop := Z.of_nat (size (quanta w) + n) + 1 < 2 ^ 32.

(** The caller runs outside the channel functions; the channels and the blocks
    it passes exist and are large enough; the quanta, which live on its stack
    or in a fresh allocation, are not in use. *)
Definition chan_enabled (e : cevent) (st : cstate) : Prop :=
  let w := cw st in
  let caller co := pcs st co = C_run /\ sc_running (sch w) co in
  match e with
  | EvAlloc c elem bs ref bytes => chans w !! c = None /\
      (forall d, queues (cques w) !! (c, d) = None) /\
      0 < elem < 2 ^ 30 /\ (0 < bs -> Z.of_nat (length bytes) = elem * bs)
  | EvSend co q c s block => caller co /\ few_quanta w 1 /\ quanta w !! q = None /\
      exists ch, chans w !! c = Some ch /\ valid (cmem w) (Some s) (elemsize ch)
  | EvRecv co q own c b block => caller co /\ few_quanta w 1 /\ quanta w !! q = None /\
      exists ch, chans w !! from_option id own c = Some ch /\ valid (cmem w) b (elemsize ch)
  | EvClose co c => sc_running (sch w) co /\ is_Some (chans w !! c)
  | EvSelect co qs set block => caller co /\ set_ok w set /\ few_quanta w (length qs) /\
      length qs = length (cases set) /\ NoDup qs /\ forall q, q ∈ qs -> quanta w !! q = None
  | EvResume co => sc_running (sch w) co
  | EvSched s => sc_ok s /\ forall d, pcs st d <> C_run -> sc_waiting s d <-> sc_waiting (sch w) d
  end.

Fixpoint chan_allowed (st : cstate) (es : list cevent) : Prop :=
  match es with
  | [] => True
  | e :: es => chan_enabled e st /\ forall st', chan_exec e st = Ok st' -> chan_allowed st' es
  end.

Definition chan_inv (st : cstate) : Prop := exists A, ch_inv (cw st) A (pcs st) [].

(** Before any channel exists. *)
Definition chan_start (M : gmap ptr (list Z)) (s : S) : cstate :=
  mk_cstate (mk_chworld ∅ ∅ (mk_qstore ∅ ∅) ∅ M [] s) (fun _ => C_run).

Lemma start_inv M s : sc_ok s -> chan_inv (chan_start M s).
Proof.
  intros Hs. exists ∅. split; cbn; done.
Qed.

(** ** Every operation keeps the invariant *)

Lemma queue_few w A pc L c d l : ch_inv w A pc L -> A !! (c, d) = Some l -> (length l <= size (quanta w))%nat.
Proof.
  intros I Hl. destruct (sr_rep _ _ (so_rep _ _ (iv_store _ _ _ _ I)) _ _ Hl) as [lk D].
  pose proof (fwd_nodup _ _ _ _ (dll_fwd _ _ _ _ D)) as Hnd.
  rewrite <- size_dom, <- (size_list_to_set (C := gset qid) l Hnd).
  apply subseteq_size. intros q Hq%elem_of_list_to_set.
  destruct (iv_quantum _ _ _ _ I _ _ _ _ Hl Hq) as (qd & Hqd & _). by eapply elem_of_dom_2.
Qed.

Lemma s31_small z : 0 <= z < 2 ^ 30 -> s31 z = z.
Proof. intros. unfold s31. rewrite Z.mod_small; lia. Qed.

Lemma alloc_keeps w A pc c elem bs ref bytes :
  ch_inv w A pc [] -> chans w !! c = None -> (forall d, queues (cques w) !! (c, d) = None) ->
  0 < elem < 2 ^ 30 -> (0 < bs -> Z.of_nat (length bytes) = elem * bs) ->
  exists w' A', _coroc_chan_allocate c elem bs ref bytes w = Ok (c, w') /\ ch_inv w' A' pc [].
Proof.
  intros I Hc Hq He Hb.
  assert (forall d, A !! (c, d) = None) as HA.
  { intros d. destruct (A !! (c, d)) as [l|] eqn:E; [|done].
    destruct (sr_rep _ _ (so_rep _ _ (iv_store _ _ _ _ I)) _ _ E) as [lk D].
    pose proof (fwd_queue _ _ _ _ (dll_fwd _ _ _ _ D)) as E'. by rewrite Hq in E'. }
  set (ch := if 0 <? bs then mk_chan false false false ((0 <? bs) && ref) elem true bs 0 0 0 bytes
             else mk_chan false false false ((0 <? bs) && ref) elem false 0 0 0 0 []).
  destruct (store_queue_init (cques w) A (c, recv_que) (so_rep _ _ (iv_store _ _ _ _ I))) as (st1 & E1 & R1 & Hi1);
    [by left|].
  destruct (store_queue_init st1 _ (c, send_que) R1) as (st2 & E2 & R2 & Hi2);
    [left; by rewrite lookup_insert_ne|].
  exists (set_cques st2 (set_chans (<[c := ch]> (chans w)) w)), (<[(c, send_que) := []]> (<[(c, recv_que) := []]> A)).
  split.
  - unfold _coroc_chan_allocate, coroc_chan_init. rewrite s31_small by lia. unfold on_ques, zoom, bind, modify, ret. subst ch.
    destruct (0 <? bs); cbn -[queue_init]; rewrite E1; cbn -[queue_init]; by rewrite E2.
  - pose proof (inv_sub w A (<[(c, send_que) := []]> (<[(c, recv_que) := []]> A)) pc [] st2 I) as I2.
    assert (forall (que : chid * dir) l, <[(c, send_que) := []]> (<[(c, recv_que) := []]> A) !! que = Some l ->
      (l = [] /\ que.1 = c) \/ A !! que = Some l) as HA'.
    { intros que l [[<- <-]|[_ [[<- <-]|[_ ?]]%lookup_insert_Some]]%lookup_insert_Some; auto. }
    assert (forall que : chid * dir, is_Some (A !! que) ->
      is_Some (<[(c, send_que) := []]> (<[(c, recv_que) := []]> A) !! que)) as Hdom.
    { intros [c' d'] [l Hl]. assert (c' <> c) by (intros ->; by rewrite HA in Hl).
      rewrite !lookup_insert_ne by congruence. by rewrite Hl. }
    destruct I2 as [J1 J2 J3 J4 J5 J6 J7].
    { split; [done|]. rewrite Hi2, Hi1. apply (iv_store _ _ _ _ I). }
    { intros x. by rewrite Hi2, Hi1. } { done. }
    { intros que l' q [[-> _]|Hl]%HA' Hin; [by apply not_elem_of_nil in Hin|eauto]. }
    assert (forall x, is_Some (chans w !! x) -> <[c := ch]> (chans w) !! x = chans w !! x) as Hkeep.
    { intros x [y Hy]. rewrite lookup_insert_ne; [done|]. congruence. }
    split; cbn in *; try done.
    + intros x chx [[<- <-]|[Hne Hx]]%lookup_insert_Some; [|by apply J3].
      subst ch. destruct (Z.ltb_spec 0 bs); cbn; (split; [symmetry; by apply bool_decide_eq_false_2, not_elem_of_nil|]);
        exists []; (split; [cbn; lia|]); cbn; [|done]. apply ring_new; [lia|done|by apply Hb].
    + intros x chx d [[<- <-]|[Hne Hx]]%lookup_insert_Some; [|by eapply J4].
      destruct d; [rewrite lookup_insert_ne by done|]; by rewrite lookup_insert_eq.
    + intros x d l q Hl Hin. destruct (J5 x d l q Hl Hin) as (qd & ? & ? & ? & (chx & Hx & Hv) & ? & ?).
      exists qd. split_and!; try done. exists chx. cbn in *. by rewrite Hkeep by (by rewrite Hx).
    + intros co q x d Hp. destruct (J6 co q x d Hp) as (qd & ? & ? & Hx). exists qd. split_and!; [done|done|].
      by rewrite Hkeep.
    + intros co qs set Hp. destruct (J7 co qs set Hp) as [Z1 Z2 Z3 Z4 Z5 Z6 Z7 Z8]. split; try done. cbn in *.
      intros x Hx. specialize (Z6 x Hx). by rewrite Hkeep.
Qed.

Lemma sched_keeps w A pc L s :
  ch_inv w A pc L -> sc_ok s -> (forall d, pc d <> C_run -> sc_waiting s d <-> sc_waiting (sch w) d) ->
  ch_inv (set_sch s w) A pc L.
Proof.
  intros I Hs Hw. split; cbn; try apply I; try done.
  - intros c d l q Hl Hq. destruct (iv_quantum _ _ _ _ I _ _ _ _ Hl Hq) as (qd & ? & ? & ? & ? & Hlv & Hpk).
    exists qd. split_and!; try done. assert (pc (q_coroutine qd) <> C_run) as Hp.
    { unfold parked in Hpk. intros E. by rewrite E in Hpk. }
    unfold live in *. cbn. destruct (q_select qd); [|by apply Hw].
    destruct Hlv as (t & ? & Ht). exists t. split; [done|]. intros E. by apply Hw; [|apply Ht].
  - intros co qs set Hp. destruct (iv_select _ _ _ _ I _ _ _ Hp) as [Z1 Z2 Z3 Z4 Z5 Z6 (t & ? & Ht & ?) Z8].
    split; try done. cbn. exists t. split_and!; [done| |done]. intros E. apply Hw; [congruence|auto].
Qed.

Lemma send_keeps w A pc co q c ch s block :
  ch_inv w A pc [] -> pc co = C_run -> sc_running (sch w) co -> few_quanta w 1 -> quanta w !! q = None ->
  chans w !! c = Some ch -> valid (cmem w) (Some s) (elemsize ch) ->
  exists r w' A', _coroc_chan_send co q c (Some s) block w = Ok (r, w') /\ after co r w' A' pc [] [] q c send_que.
Proof.
  intros I Hp Hr Hf Hq Hc (b & Hs & Hb). destruct (iv_chan _ _ _ _ I _ _ Hc) as [_ [els Hrep]].
  destruct (iv_ques _ _ _ _ I _ _ recv_que Hc) as [l Hl], (iv_ques _ _ _ _ I _ _ send_que Hc) as [ls Hls].
  destruct (send_ok co w A pc q c ch els l ls s b block) as (r & w' & A' & E & Ha & _); try done; [|eauto].
  intros _. split; [done|]. pose proof (queue_few _ _ _ _ _ _ _ I Hls). unfold few_quanta in Hf. lia.
Qed.

Lemma recv_keeps w A pc co q own c0 c ch b block :
  c = from_option id own c0 ->
  ch_inv w A pc [] -> pc co = C_run -> sc_running (sch w) co -> few_quanta w 1 -> quanta w !! q = None ->
  chans w !! c = Some ch -> valid (cmem w) b (elemsize ch) ->
  exists r w' A', _coroc_chan_recv co q own c0 b block w = Ok (r, w') /\ after co r w' A' pc [] [] q c recv_que.
Proof.
  intros Ec I Hp Hr Hf Hq Hc Hb. destruct (iv_chan _ _ _ _ I _ _ Hc) as [_ [els Hrep]].
  destruct (iv_ques _ _ _ _ I _ _ recv_que Hc) as [lr Hlr], (iv_ques _ _ _ _ I _ _ send_que Hc) as [l Hl].
  destruct (recv_ok co w A pc own q c0 c ch els l lr b block) as (r & w' & A' & E & Ha & _); try done; [|eauto].
  intros _. split; [done|]. pose proof (queue_few _ _ _ _ _ _ _ I Hlr). unfold few_quanta in Hf. lia.
Qed.

Lemma close_keeps w A pc co c ch :
  ch_inv w A pc [] -> sc_running (sch w) co -> chans w !! c = Some ch ->
  exists r w' A', coroc_chan_close co c w = Ok (r, w') /\ ch_inv w' A' pc [].
Proof.
  intros I Hr Hc. destruct (iv_chan _ _ _ _ I _ _ Hc) as [_ [els Hrep]].
  destruct (iv_ques _ _ _ _ I _ _ recv_que Hc) as [lr Hlr], (iv_ques _ _ _ _ I _ _ send_que Hc) as [ls Hls].
  pose proof (close_ok co w A pc c ch els ls lr I Hr Hc Hrep Hls Hlr) as E.
  destruct (close ch); [by exists CHAN_CLOSED, w, A|].
  destruct E as (w2 & ch' & E & _ & _ & _ & _ & I'). by eexists CHAN_SUCCESS, _, _.
Qed.

Lemma select_keeps w A pc co qs set block :
  ch_inv w A pc [] -> pc co = C_run -> sc_running (sch w) co -> set_ok w set -> few_quanta w (length qs) ->
  length qs = length (cases set) -> NoDup qs -> (forall q, q ∈ qs -> quanta w !! q = None) ->
  exists r set' w' A', _coroc_chan_set_select co qs set block w = Ok ((r, set'), w') /\
    ch_inv w' A' (match r with SelDone _ _ => pc | SelBlocks => set_pc co (C_select qs set') pc end) [].
Proof.
  intros I Hp Hr Hset Hf Hlen Hnd Hq. destruct (decide (cases set = [])) as [E|Hne].
  { eexists _, _, w, A. unfold _coroc_chan_set_select. by rewrite E. }
  destruct (select_spec co w A pc qs set block) as (r & w' & A' & E & Hs); try done.
  { intros _. split_and!; [done..|]. intros e l He Hl. destruct (case_que e) as [c d].
    pose proof (queue_few _ _ _ _ _ _ _ I Hl). unfold few_quanta in Hf. lia. }
  eexists r, _, w', A'. split; [exact E|]. destruct r as [code [c|]|]; cbn in Hs.
  - apply Hs. - apply Hs. - apply Hs.
Qed.

Lemma chan_step e st : chan_inv st -> chan_enabled e st ->
  exists st', chan_exec e st = Ok st' /\ chan_inv st'.
Proof.
  destruct st as [w pc]. intros [A I] He. cbn [cw pcs] in I. unfold chan_inv.
  destruct e as [c elem bs ref bytes|co q c s block|co q own c b block|co c|co qs set block|co|s];
    cbn in He |- *; unfold on_cw; cbn.
  - destruct He as (Hc & Hq & H1 & H2).
    destruct (alloc_keeps w A pc c elem bs ref bytes) as (w' & A' & -> & I'); eauto.
  - destruct He as ([Hp Hr] & Hf & Hq & ch & Hc & Hv).
    destruct (send_keeps w A pc co q c ch s block) as (r & w' & A' & -> & Ha); try done.
    destruct r; eexists; (split; [done|]); exists A'; apply Ha.
  - destruct He as ([Hp Hr] & Hf & Hq & ch & Hc & Hv).
    destruct (recv_keeps w A pc co q own c _ ch b block eq_refl) as (r & w' & A' & -> & Ha); try done.
    destruct r; eexists; (split; [done|]); exists A'; apply Ha.
  - destruct He as (Hr & ch & Hc). destruct (close_keeps w A pc co c ch) as (r & w' & A' & -> & I'); eauto.
  - destruct He as ([Hp Hr] & Hset & Hf & Hlen & Hnd & Hq).
    destruct (select_keeps w A pc co qs set block) as (r & set' & w' & A' & -> & I'); try done.
    destruct r; eauto.
  - destruct (pc co) as [|q c d|qs set] eqn:Ep; [eauto| |].
    + destruct (op_resume_ok co w A pc q c d I Ep He) as (qd & _ & -> & I'). eauto.
    + destruct (select_resume_ok co w A pc qs set I Ep He) as (c & w' & A' & _ & _ & -> & I' & _). eauto.
  - destruct He as [Hs Hw]. eexists. split; [done|]. exists A. by apply sched_keeps.
Qed.

Lemma chan_run_keeps es : forall st, chan_inv st -> chan_allowed st es ->
  exists st', chan_run es st = Ok st' /\ chan_inv st'.
Proof.
  induction es as [|e es IH]; intros st I Ha; [by exists st|]. destruct Ha as [He Ha].
  destruct (chan_step e st I He) as (st1 & E & I1). cbn. rewrite E. eauto.
Qed.

(** ** Non-blocking operations on a buffered channel *)

Inductive nbop : Type := NbSend (s : ptr) | NbRecv (d : option ptr).

(** A bounded queue of [cap] elements of [n] bytes. *)
Definition nb_spec (cap n : nat) (op : nbop) (a : list (list Z) * gmap ptr (list Z))
  : Z * (list (list Z) * gmap ptr (list Z)) :=
  let '(els, M) := a in
  match op with
  | NbSend s => if decide (length els < cap)%nat
                then (CHAN_SUCCESS, (els ++ [take n (default [] (M !! s))], M)) else (CHAN_BUSY, a)
  | NbRecv d => match els with
                | x :: els => (CHAN_SUCCESS, (els, mem_write d x M))
                | [] => (CHAN_BUSY, a)
                end
  end.

Definition nb_exec (co : coid) (c : chid) (op : nbop) : ST (chworld S) outcome :=
  match op with
  | NbSend s => _coroc_chan_send co 0 c (Some s) false
  | NbRecv d => _coroc_chan_recv co 0 c (Some c) d false
  end.

Fixpoint nb_specs (cap n : nat) (ops : list nbop) (a : list (list Z) * gmap ptr (list Z))
  : list Z * (list (list Z) * gmap ptr (list Z)) :=
  match ops with
  | [] => ([], a)
  | op :: ops => let '(r, a) := nb_spec cap n op a in let '(rs, a) := nb_specs cap n ops a in (r :: rs, a)
  end.

Fixpoint nb_execs (co : coid) (c : chid) (ops : list nbop) : ST (chworld S) (list outcome) :=
  match ops with
  | [] => ret []
  | op :: ops => let! r := nb_exec co c op in let! rs := nb_execs co c ops in ret (r :: rs)
  end.

(** The blocks the operations name hold an element. *)
Definition nb_ok (n : Z) (M : gmap ptr (list Z)) (op : nbop) : Prop :=
  match op with NbSend s => valid M (Some s) n | NbRecv d => valid M d n end.

(** The channel is open, nobody waits on it, and its buffer holds [els]. *)
Record nb_rep w A pc (co : coid) (c : chid) (cap n : nat) (els : list (list Z)) : Prop := {
  nb_inv : ch_inv w A pc [];
  nb_run : pc co = C_run /\ sc_running (sch w) co;
  nb_chan : exists ch, chans w !! c = Some ch /\ close ch = false /\ buffered ch = true /\
    bufsize ch = Z.of_nat cap /\ elemsize ch = Z.of_nat n /\ chan_rep ch els;
  nb_recvq : A !! (c, recv_que) = Some [];
  nb_sendq : A !! (c, send_que) = Some []
}.

Lemma nb_step w A pc co c cap n els op :
  nb_rep w A pc co c cap n els -> nb_ok (Z.of_nat n) (cmem w) op ->
  exists w' A', nb_exec co c op w = Ok (Done (nb_spec cap n op (els, cmem w)).1, w') /\
    nb_rep w' A' pc co c cap n (nb_spec cap n op (els, cmem w)).2.1 /\
    cmem w' = (nb_spec cap n op (els, cmem w)).2.2.
Proof.
  intros [I [Hp Hr] (ch & Hc & Hcl & Hb & Ecap & En & Hrep) Hlr Hls] Hok.
  assert (nbuf ch = Z.of_nat (length els)) as Hn.
  { destruct Hrep as [_ Hrep]. rewrite Hb in Hrep. apply (rr_nbuf _ _ Hrep). }
  assert (forall ch' els', same_meta ch ch' -> chan_rep ch' els' -> close ch' = false /\ buffered ch' = true /\
    bufsize ch' = Z.of_nat cap /\ elemsize ch' = Z.of_nat n /\ chan_rep ch' els') as Hmeta.
  { intros ch' els' (? & _ & _ & _ & ? & ? & ?) ?. split_and!; congruence. }
  destruct op as [s|d]; cbn in Hok |- *.
  - destruct Hok as (b & Hs & Hlb). rewrite Hs. cbn [default].
    destruct (send_ok co w A pc 0 c ch els [] [] s b false) as (r & w' & A' & E & Ha & Heff); try done; [lia|].
    destruct Heff as [(l1 & x & ? & ? & Hl & _)|(_ & HM & Heff)]; [by destruct l1|].
    rewrite Hcl, Hb, Hn, Ecap in Heff. cbn [andb] in Heff.
    destruct (Z.ltb_spec (Z.of_nat (length els)) (Z.of_nat cap)).
    + rewrite decide_True by lia. destruct Heff as (-> & -> & ch' & Hc' & Hm & Hrep').
      exists w', (<[(c, recv_que) := []]> A). split_and!; [done| |done]. destruct Ha as [I' Hr'].
      split; [done|done| |by rewrite lookup_insert_eq|by rewrite lookup_insert_ne].
      exists ch'. rewrite Hc', lookup_insert_eq. split; [done|]. rewrite En, Nat2Z.id in Hrep'. by apply Hmeta.
    + rewrite decide_False by lia. destruct Heff as (-> & Hc' & ->).
      exists w', (<[(c, recv_que) := []]> A). split_and!; [done| |done]. destruct Ha as [I' Hr'].
      split; [done|done| |by rewrite lookup_insert_eq|by rewrite lookup_insert_ne].
      exists ch. by rewrite Hc'.
  - destruct (recv_ok co w A pc c 0 (Some c) c ch els [] [] d false) as (r & w' & A' & E & Ha & Heff);
      try done; [by rewrite En|]. destruct els as [|x els]; cbn in Heff |- *.
    + destruct Heff as [(l1 & x & ? & ? & Hl & _)|(_ & HM & Heff)]; [by destruct l1|]. rewrite Hcl in Heff.
      destruct Heff as (-> & Hc' & ->). exists w', (<[(c, send_que) := []]> A). split_and!; [done| |done].
      destruct Ha as [I' Hr']. split; [done|done| |by rewrite lookup_insert_ne|by rewrite lookup_insert_eq].
      exists ch. by rewrite Hc'.
    + destruct Heff as (-> & HM & -> & ch' & Hc' & Hm & Hrep'). exists w', A. split_and!; [done| |done].
      destruct Ha as [I' Hr']. split; [done|done| |done|done].
      exists ch'. rewrite Hc', lookup_insert_eq. split; [done|]. by apply Hmeta.
Qed.

Lemma nb_ok_keeps cap n op op' els M :
  Forall (fun x => length x = n) els ->
  nb_ok (Z.of_nat n) M op -> nb_ok (Z.of_nat n) M op' ->
  nb_ok (Z.of_nat n) (nb_spec cap n op (els, M)).2.2 op' /\
  Forall (fun x => length x = n) (nb_spec cap n op (els, M)).2.1.
Proof.
  intros Hels Hop Hop'. destruct op as [s|d]; cbn in Hop |- *.
  - destruct Hop as (b & Hs & Hb). destruct (decide _); cbn; (split; [done|]); [|done].
    apply Forall_app. split; [done|]. constructor; [|constructor]. rewrite Hs. cbn.
    apply length_take_le. lia.
  - destruct els as [|x els]; cbn; [done|]. apply Forall_cons in Hels as [Hx Hels]. split; [|done].
    assert (forall p, valid M p (Z.of_nat n) -> valid (mem_write d x M) p (Z.of_nat n)) as Hw
      by (intros p; apply valid_write; by rewrite Hx).
    destruct op'; by apply Hw.
Qed.

(** ** The theorems *)


(** C17: on an open buffered channel on which nobody waits, any sequence of
    non-blocking sends and receives returns the codes and moves the bytes of a
    bounded first-in first-out queue. *)
Theorem buffer_is_bounded_fifo co c cap n ops : forall w A pc els,
  nb_rep w A pc co c cap n els -> Forall (fun x => length x = n) els ->
  Forall (nb_ok (Z.of_nat n) (cmem w)) ops ->
  exists w' A', nb_execs co c ops w = Ok (Done <$> (nb_specs cap n ops (els, cmem w)).1, w') /\
    nb_rep w' A' pc co c cap n (nb_specs cap n ops (els, cmem w)).2.1 /\
    cmem w' = (nb_specs cap n ops (els, cmem w)).2.2.
Proof.
  induction ops as [|op ops IH]; intros w A pc els R Hels Hops; [by exists w, A|].
  apply Forall_cons in Hops as [Hop Hops].
  destruct (nb_step w A pc co c cap n els op R Hop) as (w1 & A1 & E & R1 & HM).
  assert (Forall (nb_ok (Z.of_nat n) (nb_spec cap n op (els, cmem w)).2.2) ops) as Hops1.
  { eapply Forall_impl; [exact Hops|]. intros op' Hop'. by apply nb_ok_keeps. }
  destruct (nb_ok_keeps cap n op op els (cmem w) Hels Hop Hop) as [_ Hels1].
  cbn [nb_execs nb_specs]. rewrite (bind_ok _ _ _ _ _ E).
  destruct (nb_spec cap n op (els, cmem w)) as [r [els1 M1]]. cbn in *. subst M1.
  destruct (IH w1 A1 pc els1 R1 Hels1 Hops1) as (w2 & A2 & E2 & R2 & HM2).
  rewrite (bind_ok _ _ _ _ _ E2).
  destruct (nb_specs cap n ops (els1, cmem w1)) as [rs [els2 M2]]. cbn in *. by exists w2, A2.
Qed.
End sys.
Arguments cstate : clear implicits.
Arguments cevent : clear implicits.
