(* ===== verification/ChannelDemo.v ===== *)
(** * Channels on the scheduler: a program with two VPUs

    Two coroutines, 1 on VPU 0 and 10 on VPU 1, communicate over channels; the
    scheduler is the one of Scheduler.v.  The theorems about channels are
    applied to the states of this program. *)

From stdpp Require Import functions.
From S2P Require Import Prelude Queue RunQueue Scheduler SchedInv SchedProps Coroutine System.
From S2P Require Import Channel ChannelProps ChannelInv ChannelOps ChannelSelect ChannelSched ChannelSys.

(** ** Deciding what is enabled *)

Definition validb (M : gmap ptr (list Z)) (p : option ptr) (n : Z) : bool :=
  match p with
  | None => true
  | Some p => match M !! p with Some b => n <=? Z.of_nat (length b) | None => false end
  end.

Lemma validb_sound M p n : validb M p n = true -> valid M p n.
Proof.
  destruct p as [p|]; [|done]. cbn. destruct (M !! p) as [b|]; [|done]. intros ?%Z.leb_le. by exists b.
Qed.

Definition runningb (w : world) (c : coid) : bool :=
  existsb (fun v => bool_decide (runsb w v = Some c)) (seq 0 (length (vpus w))).

Lemma runningb_sound w c : runningb w c = true -> exists v, runs w v c.
Proof.
  intros (v & _ & Hv%bool_decide_eq_true)%existsb_exists. exists v. by apply runsb_sound.
Qed.

Definition callerb (st : cstate world) (co : coid) : bool :=
  match pcs st co with C_run => runningb (sch (cw st)) co | _ => false end.

Lemma callerb_sound st co : callerb st co = true -> pcs st co = C_run /\ sc_running (sch (cw st)) co.
Proof. unfold callerb. destruct (pcs st co); [|done..]. intros ?%runningb_sound. done. Qed.

Definition fewb (w : chworld world) (n : nat) : bool := Z.of_nat (size (quanta w) + n) + 1 <? 2 ^ 32.

Definition case_okb (w : chworld world) (e : coroc_scase) : bool :=
  match chans w !! s_chan e with
  | Some ch => validb (cmem w) (s_buf e) (elemsize ch) &&
      match s_type e with CHAN_SEND => bool_decide (s_buf e <> None) | CHAN_RECV => true end
  | None => false
  end.

Lemma case_okb_sound w e : case_okb w e = true -> case_ok w e.
Proof.
  unfold case_okb, case_ok. destruct (chans w !! s_chan e) as [ch|]; [|done].
  intros [H1%validb_sound H2]%andb_true_iff. exists ch. split_and!; [done|done|].
  intros E. rewrite E in H2. by apply bool_decide_eq_true in H2.
Qed.

Definition chan_enabledb (e : cevent world) (st : cstate world) : bool :=
  let w := cw st in
  match e with
  | EvAlloc c elem bs ref bytes => bool_decide (chans w !! c = None) &&
      bool_decide (is_Some (queues (cques w) !! (c, recv_que)) \/ is_Some (queues (cques w) !! (c, send_que))
                   -> False) &&
      (0 <? elem) && (elem <? 2 ^ 30) && bool_decide (Z.of_nat (length bytes) = elem * bs)
  | EvSend co q c s block => callerb st co && fewb w 1 && bool_decide (quanta w !! q = None) &&
      match chans w !! c with Some ch => validb (cmem w) (Some s) (elemsize ch) | None => false end
  | EvRecv co q own c b block => callerb st co && fewb w 1 && bool_decide (quanta w !! q = None) &&
      match chans w !! default own c with Some ch => validb (cmem w) b (elemsize ch) | None => false end
  | EvClose co c => runningb (sch w) co && bool_decide (is_Some (chans w !! c))
  | EvSelect co qs set block => callerb st co && bool_decide (locks set = s_chan <$> cases set) &&
      bool_decide (NoDup (s_chan <$> cases set)) && forallb (case_okb w) (cases set) && fewb w (length qs) &&
      bool_decide (length qs = length (cases set)) && bool_decide (NoDup qs) &&
      forallb (fun q => bool_decide (quanta w !! q = None)) qs
  | EvResume co => runningb (sch w) co
  | EvSched s => false
  end.

Lemma chan_enabledb_sound e st : chan_enabledb e st = true -> chan_enabled e st.
Proof.
  destruct e as [c elem bs ref bytes|co q c s block|co q own c b block|co c|co qs set block|co|s];
    cbn [chan_enabled chan_enabledb]; rewrite ?andb_true_iff.
  - intros ((((H1%bool_decide_eq_true & H2%bool_decide_eq_true) & H3) & H4) & H5%bool_decide_eq_true).
    split_and!; [done| |lia|lia|done]. intros [].
    + destruct (queues _ !! (c, recv_que)) eqn:?; [|done]. destruct H2. by left.
    + destruct (queues _ !! (c, send_que)) eqn:?; [|done]. destruct H2. by right.
  - intros ((([H1 H1']%callerb_sound & H2) & H3%bool_decide_eq_true) & H4). split_and!; try done.
    + by apply Z.ltb_lt in H2.
    + destruct (chans _ !! c) as [ch|]; [|done]. exists ch. split; [done|]. by apply validb_sound in H4.
  - intros ((([H1 H1']%callerb_sound & H2) & H3%bool_decide_eq_true) & H4). split_and!; try done.
    + by apply Z.ltb_lt in H2.
    + destruct (chans _ !! _) as [ch|]; [|done]. exists ch. split; [done|]. by apply validb_sound in H4.
  - intros [H1%runningb_sound H2%bool_decide_eq_true]. done.
  - intros ((((((([H1 H1']%callerb_sound & H2%bool_decide_eq_true) & H3%bool_decide_eq_true) & H4) & H5) &
      H6%bool_decide_eq_true) & H7%bool_decide_eq_true) & H8).
    rewrite forallb_forall in H4, H8. split_and!; try done.
    + split; [by rewrite H2|done|]. intros e He. apply case_okb_sound, H4. by apply list_elem_of_In.
    + by apply Z.ltb_lt in H5.
    + intros q Hq. apply (bool_decide_eq_true_1 _), H8. by apply list_elem_of_In.
  - apply runningb_sound.
  - done.
Qed.

Fixpoint chan_allowedb (st : cstate world) (es : list (cevent world)) : bool :=
  match es with
  | [] => true
  | e :: es => chan_enabledb e st && match chan_exec e st with Ok st' => chan_allowedb st' es | Err _ => true end
  end.

Lemma chan_allowedb_sound es : forall st, chan_allowedb st es = true -> chan_allowed st es.
Proof.
  induction es as [|e es IH]; intros st; [done|]. cbn [chan_allowed chan_allowedb].
  rewrite andb_true_iff. intros [H1 H2]. split; [by apply chan_enabledb_sound|].
  intros st' E. rewrite E in H2. by apply IH.
Qed.

(** ** The program *)

(** Both coroutines run. *)
Definition duo : world :=
  match sys_run (take 7 demo_events) boot2 with Ok (_, w) => w | Err _ => zero_world end.

Lemma duo_ok : sc_ok duo.
Proof.
  destruct (sys_run_keeps (take 7 demo_events) boot2) as (w & E & Y);
    [apply boot2_ok|apply sys_allowedb_sound; vm_compute; reflexivity|].
  unfold duo. rewrite E. split; [exact Y|]. assert (w = duo) as -> by (unfold duo; by rewrite E).
  vm_compute. reflexivity.
Qed.

Definition demo_mem : gmap ptr (list Z) := {[ 100%nat := [1; 2; 3; 4]; 101%nat := [0; 0; 0; 0]; 102%nat := [7; 7; 7; 7] ]}.
Definition demo_chan (es : list (cevent world)) : cstate world :=
  match chan_run es (chan_start demo_mem duo) with Ok st => st | Err _ => chan_start demo_mem duo end.

Lemma demo_chan_inv es : chan_allowedb (chan_start demo_mem duo) es = true -> chan_inv (demo_chan es).
Proof.
  intros Ha%chan_allowedb_sound.
  destruct (chan_run_keeps es _ (start_inv demo_mem duo duo_ok) Ha) as (st & E & I).
  unfold demo_chan. by rewrite E.
Qed.

(** Coroutine 10 blocks in a receive; then 1 sends, which wakes it. *)
Definition ev_rendezvous : list (cevent world) :=
  [EvAlloc 5 4 0 false []; EvRecv 10 200 5 (Some 5%nat) (Some 101%nat) true].
Definition ev_exchange : list (cevent world) := ev_rendezvous ++ [EvSend 1 201 5 100 true].


(** The element arrives: the block 101 of the receiver holds the bytes of 100. *)
Example exchange_moves_bytes : cmem (cw (demo_chan ev_exchange)) !! 101%nat = Some [1; 2; 3; 4].
Proof. vm_compute. reflexivity. Qed.

Definition demo_ch (es : list (cevent world)) (c : chid) : chan :=
  default (mk_chan false false false false 0 false 0 0 0 0 []) (chans (cw (demo_chan es)) !! c).

Lemma chan_send_spec_witness :
  let w := cw (demo_chan ev_rendezvous) in let ch := demo_ch ev_rendezvous 5 in
  exists A els l ls r w' A', _coroc_chan_send 1 201 5 (Some 100%nat) true w = Ok (r, w') /\
    after 1 r w' A' (pcs (demo_chan ev_rendezvous)) [] [] 201 5 send_que /\
    send_effect w A 201 5 ch els l ls 100 (take (Z.to_nat (elemsize ch)) [1; 2; 3; 4]) true r w' A'.
Proof.
  intros w ch. destruct (demo_chan_inv ev_rendezvous) as [A I]; [vm_compute; reflexivity|].
  assert (chans w !! 5%nat = Some ch) as Hc by (vm_compute; reflexivity).
  destruct (iv_chan _ _ _ _ I _ _ Hc) as [_ [els Hrep]].
  destruct (iv_ques _ _ _ _ I _ _ recv_que Hc) as [l Hl], (iv_ques _ _ _ _ I _ _ send_que Hc) as [ls Hls].
  exists A, els, l, ls.
  apply (chan_send_spec 1 w A (pcs (demo_chan ev_rendezvous)) 201 5 ch els l ls 100 [1; 2; 3; 4] true).
  - exact I.
  - vm_compute. reflexivity.
  - apply runningb_sound. vm_compute. reflexivity.
  - exact Hc.
  - exact Hrep.
  - exact Hl.
  - exact Hls.
  - intros _. split; [vm_compute; reflexivity|].
    pose proof (queue_few _ _ _ _ _ _ _ I Hls) as Hq. assert (size (quanta w) = 1%nat) as E by (vm_compute; reflexivity).
    change (cw (demo_chan ev_rendezvous)) with w in Hq. rewrite E in Hq. lia.
  - vm_compute. reflexivity.
  - vm_compute. discriminate.
Defined.

(** Coroutine 10 is blocked in a send. *)
Definition ev_sender : list (cevent world) :=
  [EvAlloc 5 4 0 false []; EvSend 10 200 5 102 true].

Lemma chan_recv_spec_witness :
  let w := cw (demo_chan ev_sender) in let ch := demo_ch ev_sender 5 in
  exists A els l lr r w' A', _coroc_chan_recv 1 201 5 (Some 5%nat) (Some 101%nat) true w = Ok (r, w') /\
    after 1 r w' A' (pcs (demo_chan ev_sender)) [] [] 201 5 recv_que /\
    recv_effect w A 201 5 ch els l lr (Some 101%nat) true r w' A'.
Proof.
  intros w ch. destruct (demo_chan_inv ev_sender) as [A I]; [vm_compute; reflexivity|].
  assert (chans w !! 5%nat = Some ch) as Hc by (vm_compute; reflexivity).
  destruct (iv_chan _ _ _ _ I _ _ Hc) as [_ [els Hrep]].
  destruct (iv_ques _ _ _ _ I _ _ recv_que Hc) as [lr Hlr], (iv_ques _ _ _ _ I _ _ send_que Hc) as [l Hl].
  exists A, els, l, lr.
  apply (chan_recv_spec 1 w A (pcs (demo_chan ev_sender)) 5 201 (Some 5%nat) 5 ch els l lr (Some 101%nat) true).
  - reflexivity.
  - exact I.
  - vm_compute. reflexivity.
  - apply runningb_sound. vm_compute. reflexivity.
  - exact Hc.
  - exact Hrep.
  - exact Hl.
  - exact Hlr.
  - intros _. split; [vm_compute; reflexivity|].
    pose proof (queue_few _ _ _ _ _ _ _ I Hlr) as Hq. assert (size (quanta w) = 1%nat) as E by (vm_compute; reflexivity).
    change (cw (demo_chan ev_sender)) with w in Hq. rewrite E in Hq. lia.
  - apply validb_sound. vm_compute. reflexivity.
Defined.

Lemma chan_close_spec_witness :
  let w := cw (demo_chan ev_sender) in let ch := demo_ch ev_sender 5 in
  exists (A : gmap (chid * dir) (list qid)) els ls lr w2 ch', close ch = false /\
    coroc_chan_close 1 5 w = Ok (CHAN_SUCCESS,
      set_puts (if isref ch then puts w ++ els else puts w) (set_chans (<[5%nat := ch']> (chans w)) w2)) /\
    closed_all 5 w w2 (ls ++ lr) /\ A !! (5%nat, send_que) = Some ls.
Proof.
  intros w ch. destruct (demo_chan_inv ev_sender) as [A I]; [vm_compute; reflexivity|].
  assert (chans w !! 5%nat = Some ch) as Hc by (vm_compute; reflexivity).
  destruct (iv_chan _ _ _ _ I _ _ Hc) as [_ [els Hrep]].
  destruct (iv_ques _ _ _ _ I _ _ recv_que Hc) as [lr Hlr], (iv_ques _ _ _ _ I _ _ send_que Hc) as [ls Hls].
  assert (sc_running (sch w) 1%nat) as Hr by (apply runningb_sound; vm_compute; reflexivity).
  pose proof (chan_close_spec 1 w A (pcs (demo_chan ev_sender)) 5 ch els ls lr I Hr Hc Hrep Hls Hlr) as H.
  assert (close ch = false) as Ecl by (vm_compute; reflexivity). rewrite Ecl in H.
  destruct H as (w2 & ch' & E & C & _). exists A, els, ls, lr, w2, ch'. split_and!; done.
Defined.

(** Coroutine 10 blocks in a select on two channels; 1 serves one of them. *)
Definition demo_set : coroc_chan_set :=
  mk_set false 2 [6; 5]%nat [mk_scase CHAN_RECV 6 (Some 101%nat); mk_scase CHAN_SEND 5 (Some 102%nat)].
Definition ev_two : list (cevent world) := [EvAlloc 5 4 0 false []; EvAlloc 6 4 0 false []].
Definition ev_select : list (cevent world) := ev_two ++ [EvSelect 10 [210; 211]%nat demo_set true; EvSend 1 201 6 100 true].

Lemma chan_select_spec_witness :
  let w := cw (demo_chan ev_two) in
  exists A r w' A', _coroc_chan_set_select 10 [210; 211]%nat demo_set true w =
      Ok ((r, lock_chain_sort demo_set), w') /\
    select_effect 10 w A [210; 211]%nat (lock_chain_sort demo_set) true r w' A' (pcs (demo_chan ev_two)).
Proof.
  intros w. destruct (demo_chan_inv ev_two) as [A I]; [vm_compute; reflexivity|]. exists A.
  apply (chan_select_spec 10 w A (pcs (demo_chan ev_two)) [210; 211]%nat demo_set true).
  - exact I.
  - vm_compute. reflexivity.
  - apply runningb_sound. vm_compute. reflexivity.
  - split.
    + vm_compute. reflexivity.
    + apply (bool_decide_unpack _). vm_compute. exact Logic.I.
    + assert (forallb (case_okb w) (cases demo_set) = true) as H by (vm_compute; reflexivity).
      rewrite forallb_forall in H. intros e He. apply case_okb_sound, H. by apply list_elem_of_In.
  - discriminate.
  - intros _. split_and!.
    + reflexivity.
    + apply (bool_decide_unpack _). vm_compute. exact Logic.I.
    + intros q Hq. assert (quanta w = ∅) as -> by (vm_compute; reflexivity). apply lookup_empty.
    + intros e l He Hl. destruct (case_que e) as [c d]. pose proof (queue_few _ _ _ _ _ _ _ I Hl) as Hq.
      assert (size (quanta w) = 0%nat) as E by (vm_compute; reflexivity).
      change (cw (demo_chan ev_two)) with w in Hq. rewrite E in Hq. lia.
Defined.

(** VPU 1 starts the woken coroutine. *)
Definition duo_again : world :=
  match sys_run [ev_enter 1; ev_pass 1] (sch (cw (demo_chan ev_select))) with Ok (_, w) => w | Err _ => duo end.

Lemma ev_select_inv : exists A, ch_inv (set_sch duo_again (cw (demo_chan ev_select))) A (pcs (demo_chan ev_select)) [].
Proof.
  destruct (demo_chan_inv ev_select) as [A I]; [vm_compute; reflexivity|]. exists A.
  apply sched_keeps; [exact I| |].
  - destruct (iv_sc _ _ _ _ I) as [Y _].
    destruct (sys_run_keeps [ev_enter 1; ev_pass 1] _ Y) as (w & E & Y');
      [apply sys_allowedb_sound; vm_compute; reflexivity|].
    assert (duo_again = w) as Ew by (unfold duo_again; by rewrite E).
    split; [rewrite Ew; exact Y'|]. vm_compute. reflexivity.
  - assert (forall w, status <$> coros w !! 10%nat <> Some TSC_COROUTINE_WAIT -> ~ waits w 10%nat) as Hn.
    { intros w Hw (co & Hc & _ & Hs). apply Hw. by rewrite Hc, <- Hs. }
    intros d Hd. destruct (decide (d = 10%nat)) as [->|Hne].
    + split; intros Hw; exfalso; revert Hw; apply Hn; vm_compute; discriminate.
    + exfalso. apply Hd.
      assert (exists p, pcs (demo_chan ev_select) = set_pc 10%nat p (fun _ => C_run)) as [p ->].
      { eexists. vm_compute. reflexivity. }
      by rewrite set_pc_ne.
Qed.

Lemma chan_select_resumes_witness :
  let w := set_sch duo_again (cw (demo_chan ev_select)) in
  exists qs set (A : gmap (chid * dir) (list qid)) c w' A',
    pcs (demo_chan ev_select) 10%nat = C_select qs set /\
    qtag w !! 10%nat = Some (Some c) /\ c ∈ locks set /\
    select_resume 10 qs set w = Ok ((sel_code (quanta w) (Some c) qs CHAN_SUCCESS, Some c), w') /\
    ch_inv w' A' (set_pc 10 C_run (pcs (demo_chan ev_select))) [] /\ without qs A A' /\
    chans w' = chans w /\ cmem w' = cmem w /\ sch w' = sch w.
Proof.
  intros w. destruct ev_select_inv as [A I]. exists [210; 211]%nat, (lock_chain_sort demo_set), A.
  assert (pcs (demo_chan ev_select) 10%nat = C_select [210; 211]%nat (lock_chain_sort demo_set)) as Hp
    by (vm_compute; reflexivity).
  destruct (chan_select_resumes 10 w A (pcs (demo_chan ev_select)) [210; 211]%nat (lock_chain_sort demo_set) I Hp)
    as (c & w' & A' & H); [apply runningb_sound; vm_compute; reflexivity|].
  exists c, w', A'. split; [exact Hp|exact H].
Defined.

(** A buffer of two elements. *)
Definition ev_buffer : list (cevent world) := [EvAlloc 5 4 2 false [0; 0; 0; 0; 0; 0; 0; 0]].
Definition nb_ops : list nbop :=
  [NbSend 100; NbSend 102; NbSend 100; NbRecv (Some 101%nat); NbSend 101; NbRecv (Some 102%nat); NbRecv None; NbRecv None].

Lemma buffer_is_bounded_fifo_witness :
  let w := cw (demo_chan ev_buffer) in
  exists w' A', nb_execs 1 5 nb_ops w = Ok (Done <$> (nb_specs 2 4 nb_ops ([], cmem w)).1, w') /\
    nb_rep w' A' (pcs (demo_chan ev_buffer)) 1 5 2 4 (nb_specs 2 4 nb_ops ([], cmem w)).2.1 /\
    cmem w' = (nb_specs 2 4 nb_ops ([], cmem w)).2.2.
Proof.
  intros w. destruct (demo_chan_inv ev_buffer) as [A I]; [vm_compute; reflexivity|].
  assert (chans w !! 5%nat = Some (demo_ch ev_buffer 5)) as Hc by (vm_compute; reflexivity).
  assert (forall d, A !! (5%nat, d) = Some []) as HA.
  { intros d. destruct (iv_ques _ _ _ _ I _ _ d Hc) as [l Hl].
    pose proof (queue_few _ _ _ _ _ _ _ I Hl) as Hq. assert (size (quanta w) = 0%nat) as E by (vm_compute; reflexivity).
    change (cw (demo_chan ev_buffer)) with w in Hq. rewrite E in Hq. destruct l; [done|cbn in Hq; lia]. }
  apply (buffer_is_bounded_fifo 1 5 2 4 nb_ops w A (pcs (demo_chan ev_buffer)) []).
  - split; [exact I| | |apply HA|apply HA].
    + split; [vm_compute; reflexivity|apply runningb_sound; vm_compute; reflexivity].
    + exists (demo_ch ev_buffer 5). split_and!; [exact Hc|vm_compute; reflexivity..|].
      destruct (iv_chan _ _ _ _ I _ _ Hc) as [_ [els Hrep]]. destruct els as [|x els]; [exact Hrep|].
      exfalso. destruct Hrep as [_ Hrep]. apply rr_nbuf in Hrep. vm_compute in Hrep. discriminate.
  - constructor.
  - assert (forallb (fun op => match op with NbSend s => validb (cmem w) (Some s) 4 | NbRecv d => validb (cmem w) d 4 end) nb_ops = true)
      as H by (vm_compute; reflexivity).
    rewrite forallb_forall in H. apply Forall_forall. intros op Hop%list_elem_of_In%H.
    destruct op; by apply validb_sound.
Defined.

Definition twice_set : coroc_chan_set :=
  mk_set false 2 [5; 5]%nat [mk_scase CHAN_RECV 5 (Some 101%nat); mk_scase CHAN_SEND 5 (Some 102%nat)].

Lemma select_twice_deadlocks_witness :
  _coroc_chan_set_select 10 [210; 211]%nat twice_set true (cw (demo_chan ev_two)) = Err SelfDeadlock.
Proof.
  destruct (demo_chan_inv ev_two) as [A I]; [vm_compute; reflexivity|].
  apply (select_twice_deadlocks 10 (cw (demo_chan ev_two)) A (pcs (demo_chan ev_two)) [210; 211]%nat twice_set true).
  - exact I.
  - reflexivity.
  - assert (forallb (case_okb (cw (demo_chan ev_two))) (cases twice_set) = true) as H by (vm_compute; reflexivity).
    rewrite forallb_forall in H. intros e He. apply case_okb_sound, H. by apply list_elem_of_In.
  - intros Hnd. apply NoDup_cons in Hnd as [Hn _]. apply Hn. by left.
Defined.

(** ** Behaviours of the code *)

(** A sender blocked on a full buffer stays blocked when a receive makes room,
    and a later send overtakes it. *)
Definition ev_overtake : list (cevent world) :=
  [EvAlloc 5 4 1 false [0; 0; 0; 0]; EvSend 1 201 5 100 true; EvSend 10 200 5 102 true;
   EvRecv 1 201 5 (Some 5%nat) (Some 101%nat) false; EvSend 1 201 5 100 false;
   EvRecv 1 201 5 (Some 5%nat) (Some 101%nat) false].

Example later_send_overtakes :
  cmem (cw (demo_chan ev_overtake)) !! 101%nat = Some [1; 2; 3; 4] /\
  pcs (demo_chan ev_overtake) 10%nat = C_block 200 5 send_que.
Proof. vm_compute. split; reflexivity. Qed.

(** A blocking select on a closed channel suspends, and nobody is left to wake
    the coroutine. *)
Definition closed_set : coroc_chan_set := mk_set false 1 [5]%nat [mk_scase CHAN_RECV 5 (Some 101%nat)].
Example select_on_closed_blocks :
  pcs (demo_chan [EvAlloc 5 4 0 false []; EvClose 1 5; EvSelect 10 [210]%nat closed_set true]) 10%nat =
  C_select [210]%nat (lock_chain_sort closed_set).
Proof. vm_compute. reflexivity. Qed.

(** Cases added after a select are not sorted into the chain of locks. *)
Example late_case_unsorted :
  let set := lock_chain_sort (mk_set false 3 [6]%nat [mk_scase CHAN_RECV 6 None]) in
  match coroc_chan_set_recv 0 set (Some 5%nat) None (cw (demo_chan ev_two)) with
  | Ok (set', _) => locks (lock_chain_sort set') = [6; 5]%nat
  | Err _ => False
  end.
Proof. vm_compute. reflexivity. Qed.
