(* ===== verification/Timer.v ===== *)
(** * Timers (src/time.c, include/inter/coroc_time.h)

    The internal timers wait in a binary heap ordered by their time; the heap
    is an array of pointers that grows by doubling, and every timer knows its
    place in it.  One coroutine, the timer daemon, fires the timers that are
    due.  [TimerEnv] is what the component uses of the channels, of the
    scheduler and of the program: [te_send] sends the time on the channel of
    the timer, [te_user] calls the function of the program. *)

From S2P Require Import Prelude.

Abbreviation tid := nat (only parsing).

(** [coroc_inter_timer_t]; the owner is the timer itself. *)
Record itimer := mk_itimer { when : Z; period : Z; index : Z; args : option nat }.
Definition set_when (z : Z) (t : itimer) : itimer := mk_itimer z (period t) (index t) (args t).
Definition set_index (z : Z) (t : itimer) : itimer := mk_itimer (when t) (period t) z (args t).

Definition TSC_DEFAULT_INTERTIMERS_CAP : Z := 32.

(** The clock, from what gettimeofday and clock_gettime store. *)
Definition coroc_getmicrotime (tv_sec tv_usec : Z) : Z := i64 (i64 (tv_sec * 1000000) + tv_usec).
Definition coroc_getnanotime (tv_sec tv_nsec : Z) : Z := i64 (i64 (tv_sec * 1000000000) + tv_nsec).

Class TimerEnv (W : Type) := {
  te_send : tid -> Z -> ST W unit;
  te_user : nat -> ST W unit;
  te_start : ST W nat;             (* coroc_coroutine_allocate of the daemon *)
  te_ready : nat -> ST W unit;     (* vpu_ready(daemon, true) *)
  te_suspend : ST W unit;          (* vpu_suspend of the daemon *)
  te_yield : ST W unit
}.

Section timers.
Context {W : Type} `{TimerEnv W}.

(** [coroc_intertimer_manager], the timers, and the rest of the system. *)
Record tworld := mk_tworld {
  tms : gmap tid itimer;
  tlock : bool;
  timers : list (option tid);
  tsuspend : bool;
  cap : Z;
  tsize : Z;
  daemon : option nat;
  env : W
}.
Definition set_tms v w := mk_tworld v (tlock w) (timers w) (tsuspend w) (cap w) (tsize w) (daemon w) (env w).
Definition set_tlock v w := mk_tworld (tms w) v (timers w) (tsuspend w) (cap w) (tsize w) (daemon w) (env w).
Definition set_timers v w := mk_tworld (tms w) (tlock w) v (tsuspend w) (cap w) (tsize w) (daemon w) (env w).
Definition set_tsuspend v w := mk_tworld (tms w) (tlock w) (timers w) v (cap w) (tsize w) (daemon w) (env w).
Definition set_cap v w := mk_tworld (tms w) (tlock w) (timers w) (tsuspend w) v (tsize w) (daemon w) (env w).
Definition set_tsize v w := mk_tworld (tms w) (tlock w) (timers w) (tsuspend w) (cap w) v (daemon w) (env w).
Definition set_daemon v w := mk_tworld (tms w) (tlock w) (timers w) (tsuspend w) (cap w) (tsize w) v (env w).
Definition set_env v w := mk_tworld (tms w) (tlock w) (timers w) (tsuspend w) (cap w) (tsize w) (daemon w) v.

Definition on_env {A} (m : ST W A) : ST tworld A := zoom env set_env m.

Definition get_timer (t : tid) : ST tworld itimer :=
  fun w => match tms w !! t with Some x => Ok (x, w) | None => Err Dangling end.
Definition upd_timer (t : tid) (f : itimer -> itimer) : ST tworld unit :=
  fun w => match tms w !! t with
           | Some x => Ok (tt, set_tms (<[t := f x]> (tms w)) w)
           | None => Err Dangling
           end.
Definition tlock_acquire : ST tworld unit :=
  fun w => if tlock w then Err SelfDeadlock else Ok (tt, set_tlock true w).
Definition tlock_release : ST tworld unit :=
  fun w => if tlock w then Ok (tt, set_tlock false w) else Err AssertFail.

(** [timers[i]], as a pointer that is then dereferenced. *)
Definition slot (i : Z) : ST tworld tid :=
  fun w => if i <? 0 then Err OutOfBounds else
           match timers w !! Z.to_nat i with
           | None => Err OutOfBounds
           | Some None => Err NullDeref
           | Some (Some t) => Ok (t, w)
           end.
Definition set_slot (i : Z) (t : tid) : ST tworld unit :=
  fun w => if (i <? 0) || (Z.of_nat (length (timers w)) <=? i) then Err OutOfBounds else
           Ok (tt, set_timers (<[Z.to_nat i := Some t]> (timers w)) w).
Definition when_at (i : Z) : ST tworld Z :=
  let! t := slot i in let! x := get_timer t in ret (when x).

(** ** The heap *)

Definition __exchange_heap (e0 e1 : Z) : ST tworld unit :=
  let! tmp := slot e0 in
  let! t1 := slot e1 in
  do! set_slot e0 t1 in
  do! set_slot e1 tmp in
  let! a := slot e0 in
  do! upd_timer a (set_index e0) in
  let! b := slot e1 in
  upd_timer b (set_index e1).

Fixpoint __down_adjust_heap (fuel : nat) (cur size : Z) : ST tworld unit :=
  match fuel with
  | 0%nat => throw OutOfFuel
  | S fuel =>
      let left := u32 (Z.shiftl cur 1 + 1) in
      let right := u32 (left + 1) in
      if size <=? left then ret tt else
      let! tmp := (if size <=? right then ret left else
                   let! a := when_at left in
                   let! b := when_at right in
                   ret (if a <? b then left else right)) in
      let! a := when_at tmp in
      let! b := when_at cur in
      if a <? b then
        do! __exchange_heap cur tmp in
        __down_adjust_heap fuel tmp size
      else ret tt
  end.

Fixpoint __up_adjust_heap (fuel : nat) (cur : Z) : ST tworld unit :=
  match fuel with
  | 0%nat => throw OutOfFuel
  | S fuel =>
      if cur =? 0 then ret tt else
      let parent := Z.shiftr (cur - 1) 1 in
      let! a := when_at cur in
      let! b := when_at parent in
      if a <? b then
        do! __exchange_heap cur parent in
        __up_adjust_heap fuel parent
      else ret tt
  end.

(** Every exchange moves [cur] strictly down, or strictly up. *)
Definition down (cur size : Z) : ST tworld unit := __down_adjust_heap (S (Z.to_nat size)) cur size.
Definition up (cur : Z) : ST tworld unit := __up_adjust_heap (S (Z.to_nat cur)) cur.

(** ** Firing *)

(** The callback of every timer. *)
Definition coroc_send_timer (t : tid) : ST tworld unit :=
  let! x := get_timer t in
  do! (match args x with Some f => on_env (te_user f) | None => ret tt end) in
  let! x := get_timer t in
  on_env (te_send t (when x)).

(** The fired timer at the root leaves the heap, or is due again later. *)
Definition expire (now : Z) (t : tid) (size : Z) : ST tworld Z :=
  let! x := get_timer t in
  if period x =? 0 then
    let! t0 := slot 0 in
    do! upd_timer t0 (set_index (-1)) in
    let size := size - 1 in
    do! (if 0 <? size then
           let! l := slot size in
           do! set_slot 0 l in
           let! t0 := slot 0 in
           upd_timer t0 (set_index 0)
         else ret tt) in
    do! modify (set_tsize size) in
    ret size
  else
    do! upd_timer t (set_when (u64 (now + period x))) in
    ret size.

(** The loop of the daemon over the timers that are due at [now]. *)
Fixpoint fire (fuel : nat) (now : Z) (size : Z) : ST tworld Z :=
  match fuel with
  | 0%nat => throw OutOfFuel
  | S fuel =>
      if negb (0 <? size) then ret size else
      let! t := slot 0 in
      let! x := get_timer t in
      if when x <=? now then
        do! coroc_send_timer t in
        let! size := expire now t size in
        do! (if 0 <? size then down 0 size else ret tt) in
        fire fuel now size
      else ret size
  end.

(** One round of [coroc_intertimer_routine]; [true]: it suspended. *)
Definition coroc_intertimer_routine (now : Z) : ST tworld bool :=
  do! tlock_acquire in
  let! w := get in
  let! size := fire (S (Z.to_nat (tsize w))) now (tsize w) in
  if size =? 0 then
    do! modify (set_tsuspend true) in
    do! on_env te_suspend in
    do! tlock_release in
    ret true
  else
    do! tlock_release in
    do! on_env te_yield in
    ret false.

(** ** Adding and deleting *)

Definition coroc_intertimer_start : ST tworld unit :=
  let! w := get in
  do! assert_ (bool_decide (daemon w = None)) in
  let! d := on_env te_start in
  modify (set_daemon (Some d)).

(** [garbage]: what the reallocation leaves in the new half of the array. *)
Definition coroc_add_intertimer (garbage : list (option tid)) (t : tid) : ST tworld Z :=
  do! tlock_acquire in
  let! w := get in
  do! (if cap w =? tsize w then
         modify (fun w => set_timers (timers w ++ garbage) (set_cap (i32 (cap w * 2)) w))
       else ret tt) in
  let size := tsize w in
  do! set_slot size t in
  do! upd_timer t (set_index size) in
  do! up size in
  do! modify (fun w => set_tsize (i32 (tsize w + 1)) w) in
  let! w := get in
  match daemon w with
  | None => do! coroc_intertimer_start in do! tlock_release in ret 0
  | Some d =>
      if (size =? 0) && tsuspend w then
        do! modify (set_tsuspend false) in
        do! tlock_release in
        do! on_env (te_ready d) in
        ret 0
      else do! tlock_release in ret 0
  end.

Definition coroc_del_intertimer (t : tid) : ST tworld Z :=
  do! tlock_acquire in
  let! w := get in
  let! x := get_timer t in
  let i := index x in
  if (i <? 0) || (tsize w <=? i) then do! tlock_release in ret (-1) else
  let! ti := slot i in
  if negb (bool_decide (ti = t)) then do! tlock_release in ret (-1) else
  let size := tsize w - 1 in
  let! l := slot size in
  do! set_slot i l in
  do! upd_timer l (set_index i) in
  do! down i size in
  do! modify (set_tsize size) in
  do! tlock_release in
  ret 0.

(** ** The timers of the program *)

(** [idx]: the index is not initialised. *)
Definition __coroc_timer_init (idx : Z) (t : tid) (per : Z) (func : option nat) : ST tworld unit :=
  modify (fun w => set_tms (<[t := mk_itimer 0 per idx func]> (tms w)) w).

Definition coroc_timer_start (garbage : list (option tid)) (now : Z) (t : tid) : ST tworld Z :=
  let! x := get_timer t in
  if when x <=? now then do! coroc_send_timer t in ret (-1)
  else coroc_add_intertimer garbage t.
Definition coroc_timer_stop (t : tid) : ST tworld Z := coroc_del_intertimer t.
Definition coroc_timer_at (garbage : list (option tid)) (now : Z) (t : tid) (wh : Z) : ST tworld tid :=
  do! upd_timer t (set_when wh) in
  do! coroc_timer_start garbage now t in
  ret t.
(** [now] and [now'] are the two readings of the clock. *)
Definition coroc_timer_after (garbage : list (option tid)) (now now' : Z) (t : tid) (after : Z) : ST tworld tid :=
  coroc_timer_at garbage now' t (u64 (now + after)).
Definition coroc_timer_reset (garbage : list (option tid)) (now : Z) (t : tid) (wh : Z) : ST tworld Z :=
  do! coroc_timer_stop t in
  do! upd_timer t (set_when wh) in
  coroc_timer_start garbage now t.
Definition coroc_timer_dealloc (t : tid) : ST tworld unit :=
  do! coroc_timer_stop t in
  modify (fun w => set_tms (delete t (tms w)) w).

(** [coroc_timer_allocate]: [t] is the new address. *)
Definition coroc_timer_allocate (idx : Z) (t : tid) (per : Z) (func : option nat) : ST tworld tid :=
  do! __coroc_timer_init idx t per func in ret t.

(** [coroc_udelay] up to its receive from the channel of the timer, which is in
    its own stack frame; and its return, when the frame is gone. *)
Definition coroc_udelay (garbage : list (option tid)) (now now' idx : Z) (t : tid) (us : Z) : ST tworld tid :=
  do! __coroc_timer_init idx t 0 None in
  coroc_timer_after garbage now now' t us.
Definition udelay_return (t : tid) : ST tworld unit :=
  modify (fun w => set_tms (delete t (tms w)) w).

Definition coroc_intertimer_initialize : ST tworld unit :=
  modify (fun w => mk_tworld (tms w) false (replicate (Z.to_nat TSC_DEFAULT_INTERTIMERS_CAP) None)
    (tsuspend w) TSC_DEFAULT_INTERTIMERS_CAP 0 (daemon w) (env w)).
End timers.
Arguments tworld : clear implicits.
