(* ===== verification/TimerProps.v ===== *)
(** * The timer heap: order, contents and firing (src/time.c) *)

From S2P Require Import Prelude Timer.

(** ** Heap order on keys

    The keys of the array as a function of the index; [j] is a child of [i]. *)
Definition child (i j : nat) : Prop := (j = 2 * i + 1 \/ j = 2 * i + 2)%nat.

Definition hord (f : nat -> Z) (n : nat) : Prop :=
  forall i j, child i j -> (j < n)%nat -> f i <= f j.

(** Ordered but for the edges from [c] down. *)
Definition hole_down (f : nat -> Z) (n c : nat) : Prop :=
  (forall i j, child i j -> (j < n)%nat -> i <> c -> f i <= f j) /\
  (forall p j, child p c -> child c j -> (j < n)%nat -> f p <= f j).
(** Ordered but for the edge from [c] up. *)
Definition hole_up (f : nat -> Z) (n c : nat) : Prop :=
  (forall i j, child i j -> (j < n)%nat -> j <> c -> f i <= f j) /\
  (forall p j, child p c -> child c j -> (j < n)%nat -> f p <= f j).

Definition fswap (f : nat -> Z) (a b : nat) : nat -> Z :=
  fun i => if decide (i = a) then f b else if decide (i = b) then f a else f i.

Lemma hord_ext f g n : (forall i, (i < n)%nat -> f i = g i) -> hord f n -> hord g n.
Proof. intros E Hf i j Hc Hj. rewrite <- !E by (unfold child in Hc; lia). by apply Hf. Qed.
Lemma hole_down_ext f g n c : (c < n)%nat -> (forall i, (i < n)%nat -> f i = g i) -> hole_down f n c -> hole_down g n c.
Proof.
  intros Hc E [H1 H2]. split.
  - intros i j Hij Hj Hne. rewrite <- !E by (unfold child in Hij; lia). by apply H1.
  - intros p j Hp Hcj Hj. rewrite <- !E by (unfold child in *; lia). by apply H2.
Qed.
Lemma hole_up_ext f g n c : (c < n)%nat -> (forall i, (i < n)%nat -> f i = g i) -> hole_up f n c -> hole_up g n c.
Proof.
  intros Hc E [H1 H2]. split.
  - intros i j Hij Hj Hne. rewrite <- !E by (unfold child in Hij; lia). by apply H1.
  - intros p j Hp Hcj Hj. rewrite <- !E by (unfold child in *; lia). by apply H2.
Qed.

Lemma hord_root f n i : hord f n -> (i < n)%nat -> f 0%nat <= f i.
Proof.
  intros Hf. induction i as [i IH] using lt_wf_ind. intros Hi. destruct i as [|i]; [lia|].
  assert (child (i / 2) (S i)) as Hc.
  { unfold child. pose proof (Nat.div_mod_eq i 2). pose proof (Nat.mod_upper_bound i 2). lia. }
  assert (i / 2 < S i)%nat as Hlt by (unfold child in Hc; lia).
  pose proof (IH _ Hlt ltac:(lia)). pose proof (Hf _ _ Hc Hi). lia.
Qed.

Lemma hole_down_root f n c : (forall p, ~ child p c) -> (forall i j, child i j -> (j < n)%nat -> i <> c -> f i <= f j) ->
  hole_down f n c.
Proof. intros Hn H1. split; [done|]. intros p j Hp. by destruct (Hn p). Qed.

(** Down: the smaller child moves up, or the order is restored. *)
Lemma down_step f n c m : hole_down f n c -> child c m -> (m < n)%nat ->
  (forall j, child c j -> (j < n)%nat -> f m <= f j) -> f m < f c -> hole_down (fswap f c m) n m.
Proof.
  intros [H1 H2] Hm Hmn Hmin Hlt. assert (c <> m) by (unfold child in Hm; lia). split.
  - intros i j Hij Hj Hne. unfold fswap.
    destruct (decide (i = c)) as [->|]; [|rewrite (decide_False (P := i = m)) by done].
    + rewrite (decide_False (P := j = c)) by (unfold child in Hij; lia).
      destruct (decide (j = m)); [lia|]. by apply Hmin.
    + destruct (decide (j = c)) as [->|].
      * apply (H2 i m Hij Hm Hmn).
      * destruct (decide (j = m)) as [->|]; [unfold child in *; lia|]. apply H1; done.
  - intros p j Hp Hmj Hj. assert (p = c) as -> by (unfold child in *; lia).
    unfold fswap. rewrite decide_True by done.
    rewrite !decide_False by (unfold child in *; lia). apply H1; [done|done|]. done.
Qed.
Lemma down_stop f n c : hole_down f n c -> (forall j, child c j -> (j < n)%nat -> f c <= f j) -> hord f n.
Proof. intros [H1 _] Hc i j Hij Hj. destruct (decide (i = c)) as [->|]; [by apply Hc|by apply H1]. Qed.

(** Up: the key moves to its parent, or the order is restored. *)
Lemma up_step f n c p : hole_up f n c -> (c < n)%nat -> child p c -> f c < f p -> hole_up (fswap f c p) n p.
Proof.
  intros [H1 H2] Hcn Hp Hlt. assert (c <> p) by (unfold child in Hp; lia). split.
  - intros i j Hij Hj Hne. unfold fswap.
    destruct (decide (j = c)) as [->|Hjc].
    + assert (i = p) as -> by (unfold child in *; lia). rewrite decide_False by done. rewrite decide_True by done. lia.
    + rewrite (decide_False (P := j = p)) by done.
      destruct (decide (i = c)) as [->|Hic]; [by apply (H2 p j)|].
      destruct (decide (i = p)) as [->|Hip].
      * pose proof (H1 p j Hij Hj Hjc). lia.
      * by apply H1.
  - intros q j Hq Hpj Hj. unfold fswap.
    assert (q <> c /\ q <> p /\ j <> p) as (? & ? & ?) by (unfold child in *; lia).
    rewrite !(decide_False (P := q = _)) by done.
    assert (f q <= f p) as Hqp by (apply H1; [done|unfold child in *; lia|done]).
    destruct (decide (j = c)) as [->|]; [done|]. rewrite decide_False by done.
    pose proof (H1 p j Hpj Hj ltac:(done)). lia.
Qed.
Lemma up_stop f n c : hole_up f n c -> (forall p, child p c -> f p <= f c) -> hord f n.
Proof. intros [H1 _] Hc i j Hij Hj. destruct (decide (j = c)) as [->|]; [by apply Hc|by apply H1]. Qed.

(** ** The array and the timers *)

Section heap.
Context {W : Type} `{TimerEnv W}.
Implicit Types (w : tworld W) (l : list tid).

(** The array starts with [l], and every timer of [l] knows its place. *)
Record hrep w l : Prop := {
  hr_arr : forall i t, l !! i = Some t -> timers w !! i = Some (Some t);
  hr_idx : forall i t, l !! i = Some t -> exists x, tms w !! t = Some x /\ index x = Z.of_nat i
}.

Definition key w (t : tid) : Z := match tms w !! t with Some x => when x | None => 0 end.
Definition keys w l (i : nat) : Z := match l !! i with Some t => key w t | None => 0 end.

(** What a change of the heap leaves alone. *)
Definition facts (x : itimer) : Z * Z * option nat := (when x, period x, args x).
Record hframe l w w' : Prop := {
  hf_facts : forall t, facts <$> tms w' !! t = facts <$> tms w !! t;
  hf_other : forall t, t ∉ l -> tms w' !! t = tms w !! t;
  hf_len : length (timers w') = length (timers w);
  hf_rest : (tlock w', tsuspend w', cap w', tsize w', daemon w', env w') =
            (tlock w, tsuspend w, cap w, tsize w, daemon w, env w)
}.

Lemma hframe_refl l w : hframe l w w.
Proof. by split. Qed.
Lemma hframe_trans l l' w1 w2 w3 :
  (forall t, t ∈ l' -> t ∈ l) -> hframe l w1 w2 -> hframe l' w2 w3 -> hframe l w1 w3.
Proof.
  intros Hl [A1 A2 A3 A4] [B1 B2 B3 B4]. split; [|..|congruence|congruence].
  - intros t. by rewrite B1.
  - intros t Ht. rewrite B2 by (intros ?; auto). by apply A2.
Qed.

Lemma hrep_nodup w l : hrep w l -> NoDup l.
Proof.
  intros R. apply NoDup_alt. intros i j t Hi Hj.
  destruct (hr_idx _ _ R _ _ Hi) as (x & Hx & Ei), (hr_idx _ _ R _ _ Hj) as (y & Hy & Ej).
  assert (x = y) as -> by congruence. lia.
Qed.

Lemma hframe_key l w w' t : hframe l w w' -> key w' t = key w t.
Proof.
  intros F. pose proof (hf_facts _ _ _ F t) as E. unfold key.
  destruct (tms w' !! t), (tms w !! t); try done. injection E. done.
Qed.
Lemma hframe_keys l w w' l' i : hframe l w w' -> keys w' l' i = keys w l' i.
Proof. intros F. unfold keys. destruct (l' !! i); [|done]. by eapply hframe_key. Qed.

Lemma slot_ok w l i t : hrep w l -> l !! i = Some t -> slot (Z.of_nat i) w = Ok (t, w).
Proof.
  intros R Hi. unfold slot. rewrite Nat2Z.id, (hr_arr _ _ R _ _ Hi).
  destruct (Z.ltb_spec (Z.of_nat i) 0); [lia|done].
Qed.
Lemma when_at_ok w l i t : hrep w l -> l !! i = Some t -> when_at (Z.of_nat i) w = Ok (keys w l i, w).
Proof.
  intros R Hi. unfold when_at. rewrite (bind_ok _ _ _ _ _ (slot_ok _ _ _ _ R Hi)).
  destruct (hr_idx _ _ R _ _ Hi) as (x & Hx & _).
  rewrite (bind_ok _ _ _ x w) by (unfold get_timer; by rewrite Hx).
  unfold ret, keys, key. by rewrite Hi, Hx.
Qed.
Lemma set_slot_ok w i t : (i < length (timers w))%nat ->
  set_slot (Z.of_nat i) t w = Ok (tt, set_timers (<[i := Some t]> (timers w)) w).
Proof.
  intros Hi. unfold set_slot. rewrite Nat2Z.id.
  destruct (Z.ltb_spec (Z.of_nat i) 0); [lia|]. by destruct (Z.leb_spec (Z.of_nat (length (timers w))) (Z.of_nat i)); [lia|].
Qed.
Lemma upd_timer_ok w t x f : tms w !! t = Some x -> upd_timer t f w = Ok (tt, set_tms (<[t := f x]> (tms w)) w).
Proof. intros Hx. unfold upd_timer. by rewrite Hx. Qed.
Lemma hrep_slot_lt w l i t : hrep w l -> l !! i = Some t -> (i < length (timers w))%nat.
Proof. intros R Hi. eapply lookup_lt_Some, (hr_arr _ _ R), Hi. Qed.

Definition swap l (i j : nat) : list tid :=
  match l !! i, l !! j with Some a, Some b => <[j := a]> (<[i := b]> l) | _, _ => l end.

Lemma swap_length l i j : length (swap l i j) = length l.
Proof. unfold swap. destruct (l !! i), (l !! j); rewrite ?length_insert; done. Qed.

Lemma swap_lookup l i j a b k : l !! i = Some a -> l !! j = Some b ->
  swap l i j !! k = if decide (k = j) then Some a else if decide (k = i) then Some b else l !! k.
Proof.
  intros Hi Hj. unfold swap. rewrite Hi, Hj. apply lookup_lt_Some in Hi as Hil. apply lookup_lt_Some in Hj as Hjl.
  destruct (decide (k = j)) as [->|].
  - rewrite list_lookup_insert_eq; [done|]. by rewrite length_insert.
  - rewrite list_lookup_insert_ne by done. destruct (decide (k = i)) as [->|].
    + by rewrite list_lookup_insert_eq.
    + by rewrite list_lookup_insert_ne.
Qed.

Lemma swap_elem l i j t : t ∈ swap l i j <-> t ∈ l.
Proof.
  destruct (l !! i) as [a|] eqn:Hi; [|unfold swap; by rewrite Hi].
  destruct (l !! j) as [b|] eqn:Hj; [|unfold swap; by rewrite Hi, Hj].
  split; intros [k Hk]%list_elem_of_lookup.
  - rewrite (swap_lookup l i j a b) in Hk by done.
    destruct (decide (k = j)); [injection Hk as <-; by eapply list_elem_of_lookup_2|].
    destruct (decide (k = i)); [injection Hk as <-; by eapply list_elem_of_lookup_2|].
    by eapply list_elem_of_lookup_2.
  - destruct (decide (k = i)) as [->|]; [|destruct (decide (k = j)) as [->|]].
    + apply (list_elem_of_lookup_2 _ j). rewrite (swap_lookup l i j a b) by done. rewrite decide_True by done. congruence.
    + apply (list_elem_of_lookup_2 _ i). rewrite (swap_lookup l i j a b) by done.
      rewrite decide_False by done. rewrite decide_True by done. congruence.
    + apply (list_elem_of_lookup_2 _ k). rewrite (swap_lookup l i j a b) by done. by rewrite !decide_False.
Qed.

(** Exchanging two places. *)
Lemma exchange_ok w l i j : hrep w l -> (i < length l)%nat -> (j < length l)%nat -> i <> j ->
  exists w', __exchange_heap (Z.of_nat i) (Z.of_nat j) w = Ok (tt, w') /\
    hrep w' (swap l i j) /\ hframe l w w'.
Proof.
  intros R Hil Hjl Hne.
  destruct (lookup_lt_is_Some_2 _ _ Hil) as [a Ha], (lookup_lt_is_Some_2 _ _ Hjl) as [b Hb].
  pose proof (hrep_slot_lt _ _ _ _ R Ha) as Hi'. pose proof (hrep_slot_lt _ _ _ _ R Hb) as Hj'.
  destruct (hr_idx _ _ R _ _ Ha) as (xa & Hxa & Eia), (hr_idx _ _ R _ _ Hb) as (xb & Hxb & Ejb).
  assert (a <> b) as Hab by (intros ->; apply Hne; rewrite Hxa in Hxb; injection Hxb as ->; lia).
  set (A1 := <[i := Some b]> (timers w)). set (A2 := <[j := Some a]> A1).
  set (w2 := set_timers A2 w).
  set (w' := set_tms (<[a := set_index (Z.of_nat j) xa]> (<[b := set_index (Z.of_nat i) xb]> (tms w))) w2).
  assert (A2 !! i = Some (Some b)) as H2i.
  { unfold A2, A1. rewrite list_lookup_insert_ne by done. by rewrite list_lookup_insert_eq. }
  assert (A2 !! j = Some (Some a)) as H2j.
  { unfold A2, A1. rewrite list_lookup_insert_eq; [done|]. by rewrite length_insert. }
  exists w'. split_and!.
  - unfold __exchange_heap. rewrite (bind_ok _ _ _ _ _ (slot_ok _ _ _ _ R Ha)), (bind_ok _ _ _ _ _ (slot_ok _ _ _ _ R Hb)).
    rewrite (bind_ok _ _ _ _ _ (set_slot_ok _ _ _ Hi')).
    rewrite (bind_ok _ _ _ tt w2) by (rewrite set_slot_ok by (cbn; by rewrite length_insert); done).
    rewrite (bind_ok _ _ _ b w2)
      by (unfold slot; rewrite Nat2Z.id; cbn; rewrite H2i; destruct (Z.ltb_spec (Z.of_nat i) 0); [lia|done]).
    rewrite (bind_ok _ _ _ tt _ (upd_timer_ok w2 b xb _ Hxb)).
    set (w3 := set_tms _ w2).
    rewrite (bind_ok _ _ _ a w3)
      by (unfold slot; rewrite Nat2Z.id; cbn; rewrite H2j; destruct (Z.ltb_spec (Z.of_nat j) 0); [lia|done]).
    rewrite (upd_timer_ok w3 a xa) by (cbn; by rewrite lookup_insert_ne). done.
  - split; intros k t Hk; rewrite (swap_lookup l i j a b) in Hk by done; cbn.
    + destruct (decide (k = j)) as [->|]; [congruence|]. destruct (decide (k = i)) as [->|]; [congruence|].
      unfold A2, A1. rewrite !list_lookup_insert_ne by done. by apply (hr_arr _ _ R).
    + destruct (decide (k = j)) as [->|Hkj].
      { injection Hk as <-. exists (set_index (Z.of_nat j) xa). by rewrite lookup_insert_eq. }
      destruct (decide (k = i)) as [->|Hki].
      { injection Hk as <-. exists (set_index (Z.of_nat i) xb). rewrite lookup_insert_ne by done. by rewrite lookup_insert_eq. }
      destruct (hr_idx _ _ R _ _ Hk) as (x & Hx & Ei). exists x.
      rewrite !lookup_insert_ne; [done| |]; intros ->; simplify_eq; lia.
  - split; cbn.
    + intros t. destruct (decide (a = t)) as [<-|]; [by rewrite lookup_insert_eq, Hxa|].
      rewrite lookup_insert_ne by done. destruct (decide (b = t)) as [<-|]; [by rewrite lookup_insert_eq, Hxb|].
      by rewrite lookup_insert_ne.
    + intros t Ht. rewrite !lookup_insert_ne; [done| |]; intros ->; apply Ht; by eapply list_elem_of_lookup_2.
    + unfold A2, A1. by rewrite !length_insert.
    + done.
Qed.

Lemma keys_swap w l i j k : (i < length l)%nat -> (j < length l)%nat ->
  keys w (swap l i j) k = fswap (keys w l) i j k.
Proof.
  intros Hi Hj. destruct (lookup_lt_is_Some_2 _ _ Hi) as [a Ha], (lookup_lt_is_Some_2 _ _ Hj) as [b Hb].
  unfold keys at 1, fswap. rewrite (swap_lookup l i j a b) by done. unfold keys.
  destruct (decide (k = j)) as [->|]; [|destruct (decide (k = i)) as [->|]; by rewrite ?Hb].
  rewrite Ha. destruct (decide (j = i)) as [->|]; [by rewrite Ha|done].
Qed.

Lemma swap_perm w l i j : hrep w l -> swap l i j ≡ₚ l.
Proof.
  intros R. pose proof (hrep_nodup _ _ R) as Hnd.
  destruct (l !! i) as [a|] eqn:Hi; [|unfold swap; by rewrite Hi].
  destruct (l !! j) as [b|] eqn:Hj; [|unfold swap; by rewrite Hi, Hj].
  apply NoDup_Permutation; [|done|intros t; apply swap_elem].
  apply NoDup_alt. intros k k' t. rewrite !(swap_lookup l i j a b) by done.
  rewrite NoDup_alt in Hnd.
  pose proof (fun x y z => Hnd x y z).
  repeat case_decide; intros; simplify_eq; try done;
    repeat match goal with H1 : l !! ?x = Some ?t, H2 : l !! ?y = Some ?t |- _ =>
      assert (x = y) by (by eapply Hnd); clear H1; subst end; congruence || done.
Qed.

Lemma child_left c : Z.of_nat (2 * c + 1) = Z.shiftl (Z.of_nat c) 1 + 1.
Proof. rewrite Z.shiftl_mul_pow2 by lia. lia. Qed.

Lemma down_ok n : forall fuel c w l,
  hrep w l -> length l = n -> Z.of_nat n + 1 < 2 ^ 31 -> (c <= n)%nat -> (n - c < fuel)%nat ->
  exists w' l', __down_adjust_heap fuel (Z.of_nat c) (Z.of_nat n) w = Ok (tt, w') /\
    hrep w' l' /\ l' ≡ₚ l /\ (hole_down (keys w l) n c -> hord (keys w' l') n) /\ hframe l w w'.
Proof.
  induction fuel as [|fuel IH]; intros c w l R Hlen Hn Hcn Hf; [lia|]. cbn [__down_adjust_heap].
  rewrite <- child_left. rewrite (u32_small (Z.of_nat (2 * c + 1))) by lia.
  replace (u32 (Z.of_nat (2 * c + 1) + 1)) with (Z.of_nat (2 * c + 2)) by (rewrite u32_small by lia; lia).
  destruct (Z.leb_spec (Z.of_nat n) (Z.of_nat (2 * c + 1))) as [Hl|Hl].
  { exists w, l. split_and!; try done; try apply hframe_refl. intros Hh. eapply down_stop; [done|].
    intros j Hj ?. unfold child in Hj. lia. }
  assert (exists m, child c m /\ (m < n)%nat /\ (forall j, child c j -> (j < n)%nat -> keys w l m <= keys w l j) /\
    (if Z.of_nat n <=? Z.of_nat (2 * c + 2) then ret (Z.of_nat (2 * c + 1)) else
     let! a := when_at (Z.of_nat (2 * c + 1)) in
     let! b := when_at (Z.of_nat (2 * c + 2)) in
     ret (if a <? b then Z.of_nat (2 * c + 1) else Z.of_nat (2 * c + 2))) w = Ok (Z.of_nat m, w)) as (m & Hm & Hmn & Hmin & Em).
  { destruct (Z.leb_spec (Z.of_nat n) (Z.of_nat (2 * c + 2))) as [Hr|Hr].
    - exists (2 * c + 1)%nat. split_and!; [by left|lia| |done]. intros j [->| ->] ?; lia.
    - destruct (lookup_lt_is_Some_2 l (2 * c + 1)) as [a Ha]; [lia|].
      destruct (lookup_lt_is_Some_2 l (2 * c + 2)) as [b Hb]; [lia|].
      rewrite (bind_ok _ _ _ _ _ (when_at_ok _ _ _ _ R Ha)), (bind_ok _ _ _ _ _ (when_at_ok _ _ _ _ R Hb)).
      destruct (Z.ltb_spec (keys w l (2 * c + 1)) (keys w l (2 * c + 2))).
      + exists (2 * c + 1)%nat. split_and!; [by left|lia| |done]. intros j [->| ->] ?; lia.
      + exists (2 * c + 2)%nat. split_and!; [by right|lia| |done]. intros j [->| ->] ?; lia. }
  rewrite (bind_ok _ _ _ _ _ Em).
  assert (c < m)%nat as Hcm by (unfold child in Hm; lia).
  destruct (lookup_lt_is_Some_2 l m) as [tm Htm]; [lia|]. destruct (lookup_lt_is_Some_2 l c) as [tc Htc]; [lia|].
  rewrite (bind_ok _ _ _ _ _ (when_at_ok _ _ _ _ R Htm)), (bind_ok _ _ _ _ _ (when_at_ok _ _ _ _ R Htc)).
  destruct (Z.ltb_spec (keys w l m) (keys w l c)) as [Hlt|Hge].
  - destruct (exchange_ok w l c m R) as (w1 & E1 & R1 & F1); [lia|lia|lia|].
    rewrite (bind_ok _ _ _ _ _ E1).
    assert (forall k, keys w1 (swap l c m) k = fswap (keys w l) c m k) as Hk.
    { intros k. rewrite (hframe_keys _ _ _ _ _ F1). apply keys_swap; lia. }
    destruct (IH m w1 (swap l c m)) as (w2 & l2 & E2 & R2 & P2 & O2 & F2); [done|by rewrite swap_length|done|lia|lia|].
    exists w2, l2. split_and!; [done|done| | |].
    + rewrite P2. by eapply swap_perm.
    + intros Hh. apply O2. eapply hole_down_ext; [done|intros k _; symmetry; apply Hk|]. by apply down_step.
    + eapply hframe_trans; [|done|done]. intros t. by rewrite swap_elem.
  - exists w, l. split_and!; try done; try apply hframe_refl. intros Hh. eapply down_stop; [done|].
    intros j Hj Hjn. specialize (Hmin j Hj Hjn). lia.
Qed.

Lemma up_ok n : forall fuel c w l,
  hrep w l -> length l = n -> hole_up (keys w l) n c -> (c < n)%nat -> (c < fuel)%nat ->
  exists w' l', __up_adjust_heap fuel (Z.of_nat c) w = Ok (tt, w') /\
    hrep w' l' /\ l' ≡ₚ l /\ hord (keys w' l') n /\ hframe l w w'.
Proof.
  induction fuel as [|fuel IH]; intros c w l R Hlen Hh Hcn Hf; [lia|]. cbn [__up_adjust_heap].
  destruct (Z.eqb_spec (Z.of_nat c) 0) as [E0|Hne].
  { exists w, l. split_and!; try done; try apply hframe_refl. eapply up_stop; [done|].
    intros p Hp. unfold child in Hp. lia. }
  set (p := ((c - 1) / 2)%nat).
  assert (Z.shiftr (Z.of_nat c - 1) 1 = Z.of_nat p) as Ep.
  { rewrite Z.shiftr_div_pow2 by lia. unfold p. rewrite Nat2Z.inj_div. f_equal. lia. }
  assert (child p c) as Hp.
  { unfold child, p. pose proof (Nat.div_mod_eq (c - 1) 2). pose proof (Nat.mod_upper_bound (c - 1) 2). lia. }
  assert (p < c)%nat as Hpc by (unfold child in Hp; lia). rewrite Ep. clearbody p.
  destruct (lookup_lt_is_Some_2 l p) as [tp Htp]; [lia|]. destruct (lookup_lt_is_Some_2 l c) as [tc Htc]; [lia|].
  rewrite (bind_ok _ _ _ _ _ (when_at_ok _ _ _ _ R Htc)), (bind_ok _ _ _ _ _ (when_at_ok _ _ _ _ R Htp)).
  destruct (Z.ltb_spec (keys w l c) (keys w l p)) as [Hlt|Hge].
  - destruct (exchange_ok w l c p R) as (w1 & E1 & R1 & F1); [lia|lia|lia|].
    rewrite (bind_ok _ _ _ _ _ E1).
    assert (forall k, keys w1 (swap l c p) k = fswap (keys w l) c p k) as Hk.
    { intros k. rewrite (hframe_keys _ _ _ _ _ F1). apply keys_swap; lia. }
    destruct (IH p w1 (swap l c p)) as (w2 & l2 & E2 & R2 & P2 & O2 & F2); [done|by rewrite swap_length| |lia|lia|].
    { eapply hole_up_ext; [lia|intros k _; symmetry; apply Hk|]. by apply up_step. }
    exists w2, l2. split_and!; [done|done| |done|].
    + rewrite P2. by eapply swap_perm.
    + eapply hframe_trans; [|done|done]. intros t. by rewrite swap_elem.
  - exists w, l. split_and!; try done; try apply hframe_refl. eapply up_stop; [done|].
    intros q Hq. assert (q = p) as -> by (unfold child in *; lia). done.
Qed.

(** ** The invariant of the timers *)

Record hinv w l : Prop := {
  hi_rep : hrep w l;
  hi_size : tsize w = Z.of_nat (length l);
  hi_cap : cap w = Z.of_nat (length (timers w)) /\ 0 < cap w;
  hi_ord : hord (keys w l) (length l);
  hi_few : Z.of_nat (length l) + 2 < 2 ^ 31
}.

Lemma hrep_ext w w' l :
  hrep w l -> (forall i t, l !! i = Some t -> timers w' !! i = timers w !! i) ->
  (forall t, t ∈ l -> index <$> tms w' !! t = index <$> tms w !! t) -> hrep w' l.
Proof.
  intros [R1 R2] H1 H2. split.
  - intros i t Hi. rewrite (H1 i t) by done. by apply R1.
  - intros i t Hi. destruct (R2 i t Hi) as (x & Hx & Ex).
    assert (t ∈ l) as Hin by (by eapply list_elem_of_lookup_2). specialize (H2 t Hin). rewrite Hx in H2.
    apply fmap_Some in H2 as (x' & Hx' & E). exists x'. split; [done|]. congruence.
Qed.

Lemma keys_ext w w' l i : (forall t, t ∈ l -> key w' t = key w t) -> keys w' l i = keys w l i.
Proof.
  intros Hk. unfold keys. destruct (l !! i) as [t|] eqn:E; [|done]. apply Hk. by eapply list_elem_of_lookup_2.
Qed.

Lemma hinv_root w t l : hinv w (t :: l) -> forall u, u ∈ t :: l -> key w t <= key w u.
Proof.
  intros I u [i Hi]%list_elem_of_lookup.
  pose proof (hord_root _ _ i (hi_ord _ _ I) (lookup_lt_Some _ _ _ Hi)) as Hr.
  unfold keys in Hr. by rewrite Hi in Hr.
Qed.

(** Sifting down from the root of an array of which only the root is out of
    place. *)
Lemma down_root w l :
  hrep w l -> Z.of_nat (length l) + 1 < 2 ^ 31 ->
  (forall i j, child i j -> (j < length l)%nat -> i <> 0%nat -> keys w l i <= keys w l j) ->
  exists w' l', (if 0 <? Z.of_nat (length l) then down 0 (Z.of_nat (length l)) else ret tt) w = Ok (tt, w') /\
    hrep w' l' /\ l' ≡ₚ l /\ hord (keys w' l') (length l) /\ hframe l w w'.
Proof.
  intros R Hn Ho. destruct (Z.ltb_spec 0 (Z.of_nat (length l))).
  - unfold down. rewrite Nat2Z.id.
    destruct (down_ok (length l) (S (length l)) 0 w l) as (w' & l' & E & R' & P' & O' & F'); [done|done|done|lia|lia|].
    exists w', l'. split_and!; try done. apply O', hole_down_root; [|done]. intros p Hp. unfold child in Hp. lia.
  - exists w, l. split_and!; try done; try apply hframe_refl. intros i j Hc Hj. lia.
Qed.

(** ** Firing *)

(** The calls into the environment come back. *)
Class TimerEnvTotal := {
  tt_send t v e : exists e', te_send t v e = Ok (tt, e');
  tt_user f e : exists e', te_user f e = Ok (tt, e');
  tt_start e : exists d e', te_start e = Ok (d, e');
  tt_ready d e : exists e', te_ready d e = Ok (tt, e');
  tt_suspend e : exists e', te_suspend e = Ok (tt, e');
  tt_yield e : exists e', te_yield e = Ok (tt, e')
}.
Context `{TimerEnvTotal}.

(** The calls for the timers [L], one after the other. *)
Fixpoint emits (T : gmap tid itimer) (L : list tid) : ST W unit :=
  match L with
  | [] => ret tt
  | t :: L =>
      let! x := demand Dangling (T !! t) in
      do! (match args x with Some f => te_user f | None => ret tt end) in
      do! te_send t (when x) in
      emits T L
  end.

Lemma emits_ext T T' L e : (forall t, t ∈ L -> facts <$> T' !! t = facts <$> T !! t) -> emits T' L e = emits T L e.
Proof.
  revert e. induction L as [|t L IH]; intros e HT; [done|]. cbn [emits].
  pose proof (HT t ltac:(by left)) as Ht. unfold bind at 1, demand. unfold bind at 3.
  destruct (T' !! t) as [x'|], (T !! t) as [x|]; try done. injection Ht as E1 E2 E3. rewrite E1, E3.
  unfold bind at 1. unfold bind at 2. destruct (match args x with Some f => te_user f | None => ret tt end e) as [[[] e1]|]; [|done].
  unfold bind. destruct (te_send t (when x) e1) as [[[] e2]|]; [|done]. apply IH. intros u Hu. apply HT. by right.
Qed.

Lemma send_timer_ok w t x : tms w !! t = Some x ->
  exists e', coroc_send_timer t w = Ok (tt, set_env e' w) /\
    (do! (match args x with Some f => te_user f | None => ret tt end) in te_send t (when x)) (env w) = Ok (tt, e').
Proof.
  intros Hx. unfold coroc_send_timer.
  rewrite (bind_ok _ _ _ x w) by (unfold get_timer; by rewrite Hx).
  assert (exists e1, (match args x with Some f => te_user f | None => ret tt end) (env w) = Ok (tt, e1)) as [e1 E1].
  { destruct (args x) as [f|]; [apply tt_user|by exists (env w)]. }
  destruct (tt_send t (when x) e1) as [e2 E2].
  exists e2. rewrite (bind_ok _ _ _ _ _ E1). split; [|done].
  rewrite (bind_ok _ _ _ tt (set_env e1 w)).
  2: { destruct (args x); [unfold on_env, zoom; by rewrite E1|]. injection E1 as <-. by destruct w. }
  rewrite (bind_ok _ _ _ x (set_env e1 w)) by (unfold get_timer; cbn; by rewrite Hx).
  unfold on_env, zoom. cbn. by rewrite E2.
Qed.

Definition due w (now : Z) (t : tid) : Prop := key w t <= now.
#[global] Instance due_dec w now t : Decision (due w now t).
Proof. unfold due. apply _. Defined.

(** The time of a timer of the heap after the daemon has run at [now]. *)
Definition refire (now : Z) (x : itimer) : Z :=
  if (when x <=? now) && negb (period x =? 0) then now + period x else when x.
(** It stays in the heap. *)
Definition stays w (now : Z) (t : tid) : Prop :=
  match tms w !! t with Some x => now < when x \/ period x <> 0 | None => False end.
#[global] Instance stays_dec w now t : Decision (stays w now t).
Proof. unfold stays. destruct (tms w !! t); apply _. Defined.

Record fired (now : Z) w l w' l' (L : list tid) : Prop := {
  fd_list : L ≡ₚ filter (due w now) l;
  fd_sorted : StronglySorted (fun a b => key w a <= key w b) L;
  fd_env : emits (tms w) L (env w) = Ok (tt, env w');
  fd_left : l' ≡ₚ filter (stays w now) l;
  fd_late : forall t, t ∈ l' -> now < key w' t;
  fd_when : forall t x, tms w !! t = Some x -> exists x', tms w' !! t = Some x' /\ period x' = period x /\
    args x' = args x /\ when x' = if bool_decide (t ∈ l) then refire now x else when x;
  fd_rest : (tlock w', tsuspend w', cap w', daemon w') = (tlock w, tsuspend w, cap w, daemon w)
}.

Lemma last_split (r : list tid) : r <> [] -> exists mid u, r = mid ++ [u].
Proof. intros Hr. destruct (exists_last Hr) as (mid & u & ->). eauto. Qed.

(** The state between the change at the root and the sifting. *)
Record expired (now : Z) w (t : tid) (x : itimer) (r : list tid) w1 l1 : Prop := {
  ex_rep : hrep w1 l1;
  ex_size : tsize w1 = Z.of_nat (length l1);
  ex_ord : forall i j, child i j -> (j < length l1)%nat -> i <> 0%nat -> keys w1 l1 i <= keys w1 l1 j;
  ex_list : l1 ≡ₚ (if period x =? 0 then r else t :: r);
  ex_other : forall u, u <> t -> facts <$> tms w1 !! u = facts <$> tms w !! u;
  ex_self : exists x1, tms w1 !! t = Some x1 /\ period x1 = period x /\ args x1 = args x /\
    when x1 = if period x =? 0 then when x else now + period x;
  ex_len : length (timers w1) = length (timers w);
  ex_rest : (tlock w1, tsuspend w1, cap w1, daemon w1, env w1) = (tlock w, tsuspend w, cap w, daemon w, env w)
}.

Lemma expire_keep now w t x r :
  hinv w (t :: r) -> tms w !! t = Some x -> period x <> 0 -> 0 <= now + period x < 2 ^ 64 ->
  exists w1 l1, expire now t (Z.of_nat (length (t :: r))) w = Ok (Z.of_nat (length l1), w1) /\
    expired now w t x r w1 l1.
Proof.
  intros I Hx Hp Hr. set (w1 := set_tms (<[t := set_when (now + period x) x]> (tms w)) w).
  exists w1, (t :: r). pose proof (hi_rep _ _ I) as R.
  assert (forall u, u <> t -> tms w1 !! u = tms w !! u) as Hu by (intros; cbn; by rewrite lookup_insert_ne).
  split.
  - unfold expire. rewrite (bind_ok _ _ _ x w) by (unfold get_timer; by rewrite Hx).
    destruct (Z.eqb_spec (period x) 0); [done|]. rewrite u64_small by done.
    by rewrite (bind_ok _ _ _ _ _ (upd_timer_ok _ _ _ _ Hx)).
  - destruct (Z.eqb_spec (period x) 0) as [|_]; [done|]. split; try done.
    + apply (hrep_ext w); [done|done|]. intros u _. destruct (decide (u = t)) as [->|]; [|by rewrite Hu].
      cbn. by rewrite lookup_insert_eq, Hx.
    + apply I.
    + assert (forall i, i <> 0%nat -> keys w1 (t :: r) i = keys w (t :: r) i) as Hk.
      { intros i Hi. unfold keys. destruct ((t :: r) !! i) as [u|] eqn:E; [|done].
        unfold key. rewrite Hu; [done|]. intros ->. apply Hi.
        by eapply (NoDup_lookup (t :: r) i 0 t (hrep_nodup _ _ R)). }
      intros i j Hc Hj Hne. rewrite !Hk by (unfold child in Hc; lia). by apply (hi_ord _ _ I).
    + destruct (Z.eqb_spec (period x) 0); done.
    + intros u Hne. by rewrite Hu.
    + exists (set_when (now + period x) x). destruct (Z.eqb_spec (period x) 0); [done|]. cbn.
      by rewrite lookup_insert_eq.
Qed.

Lemma expire_drop now w t x r :
  hinv w (t :: r) -> tms w !! t = Some x -> period x = 0 ->
  exists w1 l1, expire now t (Z.of_nat (length (t :: r))) w = Ok (Z.of_nat (length l1), w1) /\
    expired now w t x r w1 l1.
Proof.
  intros I Hx Hp. pose proof (hi_rep _ _ I) as R. pose proof (hrep_nodup _ _ R) as Hnd.
  set (w0 := set_tms (<[t := set_index (-1) x]> (tms w)) w).
  unfold expire. rewrite (bind_ok _ _ _ x w) by (unfold get_timer; by rewrite Hx). rewrite Hp. cbn [Z.eqb].
  rewrite (bind_ok _ _ _ _ _ (slot_ok _ _ 0 t R eq_refl)).
  rewrite (bind_ok _ _ _ _ _ (upd_timer_ok _ _ _ _ Hx)). fold w0.
  replace (Z.of_nat (length (t :: r)) - 1) with (Z.of_nat (length r)) by (cbn [length]; lia).
  destruct (decide (r = [])) as [->|Hne].
  - exists (set_tsize 0 w0), []. split; [done|]. split; try done.
    + by rewrite Hp.
    + intros u Hu. cbn. by rewrite lookup_insert_ne.
    + exists (set_index (-1) x). rewrite Hp. cbn. by rewrite lookup_insert_eq.
  - destruct (last_split r Hne) as (mid & u & ->).
    assert (length (mid ++ [u]) = S (length mid)) as Hlm by (rewrite length_app; cbn; lia).
    assert ((t :: mid ++ [u]) !! S (length mid) = Some u) as Hlast
      by (by apply (list_lookup_middle (t :: mid) [] u)).
    destruct (hr_idx _ _ R _ _ Hlast) as (y & Hy & _).
    assert (t <> u) as Htu.
    { apply NoDup_cons in Hnd as [Hn _]. intros ->. apply Hn, elem_of_app. right. by left. }
    set (w2 := set_tms (<[u := set_index 0 y]> (tms w0)) (set_timers (<[0%nat := Some u]> (timers w)) w0)).
    rewrite Hlm. rewrite (bind_ok _ _ _ tt w2).
    2: { destruct (Z.ltb_spec 0 (Z.of_nat (S (length mid)))); [|lia].
         rewrite (bind_ok _ _ _ u w0).
         2: { unfold slot. rewrite Nat2Z.id. cbn [timers w0 set_tms]. rewrite (hr_arr _ _ R _ _ Hlast).
              destruct (Z.ltb_spec (Z.of_nat (S (length mid))) 0); [lia|done]. }
         pose proof (hrep_slot_lt _ _ 0 t R eq_refl) as Hlt0.
         rewrite (bind_ok _ _ _ tt _ (set_slot_ok w0 0 u Hlt0)).
         set (wa := set_timers _ w0).
         rewrite (bind_ok _ _ _ u wa).
         2: { unfold slot. cbn [Z.ltb Z.compare Z.to_nat timers wa set_timers]. by rewrite list_lookup_insert_eq. }
         rewrite (upd_timer_ok wa u y) by (cbn; by rewrite lookup_insert_ne). done. }
    exists (set_tsize (Z.of_nat (S (length mid))) w2), (u :: mid). split; [by cbn [length]|].
    assert (forall i v, i <> 0%nat -> (u :: mid) !! i = Some v -> (t :: mid ++ [u]) !! i = Some v) as Hold.
    { intros [|i] v Hi Hv; [done|]. cbn in *. by apply lookup_app_l_Some. }
    assert (forall v, v <> t -> v <> u -> tms w2 !! v = tms w !! v) as Hv by (intros; cbn; by rewrite !lookup_insert_ne).
    assert (forall i v, i <> 0%nat -> (u :: mid) !! i = Some v -> v <> t /\ v <> u) as Hvt.
    { intros i v Hi Hv'. pose proof (Hold i v Hi Hv') as Ho. split; intros ->.
      - pose proof (NoDup_lookup _ i 0 t Hnd Ho eq_refl). done.
      - pose proof (NoDup_lookup _ i _ u Hnd Ho Hlast) as E. apply lookup_lt_Some in Hv'. cbn in Hv'. lia. }
    split; try done.
    + split.
      * intros i v Hi. destruct (decide (i = 0%nat)) as [->|Hi0].
        -- cbn in Hi. injection Hi as <-. cbn. by rewrite list_lookup_insert_eq by (exact (hrep_slot_lt _ _ 0 t R eq_refl)).
        -- cbn. rewrite list_lookup_insert_ne by done. apply (hr_arr _ _ R). by apply Hold.
      * intros i v Hi. destruct (decide (i = 0%nat)) as [->|Hi0].
        -- cbn in Hi. injection Hi as <-. exists (set_index 0 y). cbn. by rewrite lookup_insert_eq.
        -- destruct (Hvt i v Hi0 Hi). cbn [tms set_tsize]. rewrite Hv by done. apply (hr_idx _ _ R). by apply Hold.
    + assert (forall i, i <> 0%nat -> (i < S (length mid))%nat ->
        keys (set_tsize (Z.of_nat (S (length mid))) w2) (u :: mid) i = keys w (t :: mid ++ [u]) i) as Hk.
      { intros i Hi Hil. destruct (lookup_lt_is_Some_2 (u :: mid) i) as [v Hiv]; [done|].
        unfold keys. rewrite Hiv, (Hold i v Hi Hiv). destruct (Hvt i v Hi Hiv).
        unfold key. cbn [tms set_tsize]. by rewrite Hv. }
      intros i j Hc Hj Hi0. cbn [length] in Hj. rewrite !Hk by (unfold child in Hc; lia).
      apply (hi_ord _ _ I); [done|]. cbn. rewrite length_app. cbn. lia.
    + rewrite Hp. cbn [Z.eqb]. by rewrite Permutation_app_comm.
    + intros v Hvne. destruct (decide (v = u)) as [->|]; [|cbn [tms set_tsize]; by rewrite Hv].
      cbn. rewrite lookup_insert_eq, Hy. done.
    + exists (set_index (-1) x). rewrite Hp. cbn [Z.eqb]. cbn. rewrite lookup_insert_ne by done.
      by rewrite lookup_insert_eq.
    + cbn. by rewrite length_insert.
Qed.

(** One timer fires and the heap is in order again. *)
Record fired1 (now : Z) w (t : tid) (x : itimer) (r : list tid) w2 l2 : Prop := {
  f1_inv : hinv w2 l2;
  f1_list : l2 ≡ₚ (if period x =? 0 then r else t :: r);
  f1_other : forall u, u <> t -> facts <$> tms w2 !! u = facts <$> tms w !! u;
  f1_self : exists x2, tms w2 !! t = Some x2 /\ period x2 = period x /\ args x2 = args x /\
    when x2 = if period x =? 0 then when x else now + period x;
  f1_env : (do! (match args x with Some f => te_user f | None => ret tt end) in te_send t (when x)) (env w) =
    Ok (tt, env w2);
  f1_rest : (tlock w2, tsuspend w2, cap w2, daemon w2) = (tlock w, tsuspend w, cap w, daemon w)
}.

Lemma expire_ok now w t x r :
  hinv w (t :: r) -> tms w !! t = Some x -> 0 <= now -> now + 2 ^ 32 <= 2 ^ 64 -> 0 <= period x < 2 ^ 32 ->
  exists w1 l1, expire now t (Z.of_nat (length (t :: r))) w = Ok (Z.of_nat (length l1), w1) /\
    expired now w t x r w1 l1.
Proof.
  intros I Hx H1 H2 H3. destruct (decide (period x = 0)); [by apply expire_drop|].
  apply expire_keep; [done|done|done|lia].
Qed.

Lemma hinv_env w l e : hinv w l -> hinv (set_env e w) l.
Proof. intros [[R1 R2] S1 S2 S3 S4]. by split. Qed.

Lemma fire1_ok now w t x r :
  hinv w (t :: r) -> tms w !! t = Some x -> 0 <= now -> now + 2 ^ 32 <= 2 ^ 64 -> 0 <= period x < 2 ^ 32 ->
  exists w2 l2, (do! coroc_send_timer t in
    let! size := expire now t (Z.of_nat (length (t :: r))) in
    do! (if 0 <? size then down 0 size else ret tt) in ret size) w = Ok (Z.of_nat (length l2), w2) /\
    fired1 now w t x r w2 l2.
Proof.
  intros I Hx H1 H2 H3. destruct (send_timer_ok w t x Hx) as (e & E & Em).
  destruct (expire_ok now (set_env e w) t x r (hinv_env _ _ _ I) Hx H1 H2 H3) as (w1 & l1 & E1 & X).
  assert (length l1 <= length (t :: r))%nat as Hll.
  { rewrite (ex_list _ _ _ _ _ _ _ X). destruct (period x =? 0); cbn; lia. }
  pose proof (hi_few _ _ I) as Hf.
  destruct (down_root w1 l1 (ex_rep _ _ _ _ _ _ _ X)) as (w2 & l2 & E2 & R2 & P2 & O2 & F2); [lia|apply X|].
  assert (length l2 = length l1) as Hl2 by (by rewrite P2).
  pose proof (hf_rest _ _ _ F2) as Fr. pose proof (ex_rest _ _ _ _ _ _ _ X) as Xr.
  exists w2, l2. split.
  - rewrite (bind_ok _ _ _ _ _ E), (bind_ok _ _ _ _ _ E1), (bind_ok _ _ _ _ _ E2). by rewrite Hl2.
  - split.
    + split; [done| | |by rewrite Hl2|lia].
      * injection Fr as _ _ _ -> _ _. rewrite Hl2. apply X.
      * rewrite (hf_len _ _ _ F2), (ex_len _ _ _ _ _ _ _ X). injection Fr as _ _ -> _ _ _.
        injection Xr as _ _ -> _ _. apply I.
    + rewrite P2. apply X.
    + intros u Hu. rewrite (hf_facts _ _ _ F2). by apply (ex_other _ _ _ _ _ _ _ X).
    + destruct (ex_self _ _ _ _ _ _ _ X) as (x1 & Hx1 & Ep & Ea & Ew).
      pose proof (hf_facts _ _ _ F2 t) as Ef. rewrite Hx1 in Ef. apply fmap_Some in Ef as (x2 & Hx2 & Ef).
      injection Ef as E3 E4 E5. exists x2. split_and!; congruence.
    + rewrite Em. injection Fr as _ _ _ _ _ ->. by injection Xr as _ _ _ _ ->.
    + injection Fr as -> -> -> _ -> _. by injection Xr as -> -> -> -> _.
Qed.

Lemma filter_ext_in (P Q : tid -> Prop) `{forall t, Decision (P t), forall t, Decision (Q t)} (l : list tid) :
  (forall t, t ∈ l -> P t <-> Q t) -> filter P l = filter Q l.
Proof.
  induction l as [|t l IH]; intros Hl; [done|]. assert (P t <-> Q t) as Ht by (apply Hl; by left).
  rewrite !filter_cons, IH by (intros u Hu; apply Hl; by right).
  by destruct (decide (P t)), (decide (Q t)); try done; naive_solver.
Qed.

Lemma facts_key T T' w w' t : tms w = T -> tms w' = T' -> facts <$> T' !! t = facts <$> T !! t -> key w' t = key w t.
Proof. intros <- <- E. unfold key. destruct (tms w' !! t), (tms w !! t); try done. by injection E. Qed.

Lemma facts_stays w w' now t : facts <$> tms w' !! t = facts <$> tms w !! t -> stays w' now t <-> stays w now t.
Proof.
  unfold stays. intros E. destruct (tms w' !! t), (tms w !! t); try done. injection E as -> -> _. done.
Qed.

Lemma StronglySorted_ext (R R' : tid -> tid -> Prop) L :
  (forall a b, a ∈ L -> b ∈ L -> R a b -> R' a b) -> StronglySorted R L -> StronglySorted R' L.
Proof.
  intros HR Hs. induction Hs as [|a L Hs IH Ha]; constructor.
  - apply IH. intros x y Hx Hy. apply HR; by right.
  - apply Forall_forall. intros b Hb. apply HR; [by left|by right|]. by eapply (proj1 (Forall_forall _ _) Ha).
Qed.

(** The first timer and then the others. *)
Lemma fired_cons now w t x r w2 l2 w' l' L :
  hinv w (t :: r) -> tms w !! t = Some x -> when x <= now -> 0 <= period x ->
  fired1 now w t x r w2 l2 -> fired now w2 l2 w' l' L -> fired now w (t :: r) w' l' (t :: L).
Proof.
  intros I Hx Hdue Hper F1 F. pose proof (hrep_nodup _ _ (hi_rep _ _ I)) as [Hnt Hnd]%NoDup_cons.
  destruct (f1_self _ _ _ _ _ _ _ F1) as (x2 & Hx2 & Ep & Ea & Ew).
  assert (forall u, u ∈ r -> facts <$> tms w2 !! u = facts <$> tms w !! u) as Hfr.
  { intros u Hu. apply (f1_other _ _ _ _ _ _ _ F1). by intros ->. }
  assert (forall u, u ∈ r -> key w2 u = key w u) as Hkr by (intros u Hu; by eapply facts_key, Hfr).
  assert (key w t = when x) as Hkt by (unfold key; by rewrite Hx).
  assert (key w2 t = when x2) as Hkt2 by (unfold key; by rewrite Hx2).
  assert (filter (due w2 now) l2 ≡ₚ filter (due w now) r) as Hd.
  { rewrite (f1_list _ _ _ _ _ _ _ F1).
    assert (filter (due w2 now) r = filter (due w now) r) as Er
      by (apply filter_ext_in; intros u Hu; unfold due; by rewrite Hkr).
    destruct (Z.eqb_spec (period x) 0); [by rewrite Er|].
    rewrite filter_cons_False; [by rewrite Er|]. unfold due. lia. }
  assert (forall u, u ∈ L -> u ∈ r) as HLr.
  { intros u Hu. rewrite (fd_list _ _ _ _ _ _ F), Hd in Hu. by apply list_elem_of_filter in Hu as [_ ?]. }
  split.
  - rewrite filter_cons_True by (unfold due; lia). by rewrite (fd_list _ _ _ _ _ _ F), Hd.
  - constructor.
    + eapply StronglySorted_ext; [|apply (fd_sorted _ _ _ _ _ _ F)]. intros a b Hin1 Hin2. cbn.
      by rewrite !Hkr by auto.
    + apply Forall_forall. intros u Hu. apply (hinv_root w t r I). right. auto.
  - pose proof (f1_env _ _ _ _ _ _ _ F1) as E1. cbn [emits]. rewrite (bind_ok _ _ _ x (env w)) by (unfold demand; by rewrite Hx).
    unfold bind at 1 in E1. unfold bind at 1. destruct (_ (env w)) as [[[] e1]|]; [|done].
    rewrite (bind_ok _ _ _ _ _ E1), <- (fd_env _ _ _ _ _ _ F). symmetry. apply emits_ext. auto.
  - rewrite (fd_left _ _ _ _ _ _ F), (f1_list _ _ _ _ _ _ _ F1).
    assert (filter (stays w2 now) r = filter (stays w now) r) as Er
      by (apply filter_ext_in; intros u Hu; by apply facts_stays, Hfr).
    destruct (Z.eqb_spec (period x) 0) as [E0|E0].
    + rewrite (filter_cons_False (stays w now)); [by rewrite Er|]. unfold stays. rewrite Hx. lia.
    + rewrite !filter_cons_True; [by rewrite Er|unfold stays; rewrite Hx; by right|].
      unfold stays. rewrite Hx2. right. congruence.
  - apply F.
  - intros u y Hy. destruct (decide (u = t)) as [->|Hne].
    + assert (y = x) as -> by congruence. destruct (fd_when _ _ _ _ _ _ F t x2 Hx2) as (x' & Hx' & Ep' & Ea' & Ew').
      exists x'. split_and!; [done|congruence|congruence|]. rewrite bool_decide_eq_true_2 by (by left).
      rewrite Ew'. unfold refire. rewrite Ep, Ew. destruct (Z.leb_spec (when x) now) as [_|]; [|lia].
      destruct (Z.eqb_spec (period x) 0) as [E0|E0]; cbn [negb andb].
      * rewrite andb_false_r. by destruct (bool_decide _).
      * replace (now + period x <=? now) with false by (symmetry; apply Z.leb_gt; lia). cbn [andb].
        by destruct (bool_decide _).
    + pose proof (f1_other _ _ _ _ _ _ _ F1 u Hne) as Ef. rewrite Hy in Ef. apply fmap_Some in Ef as (y2 & Hy2 & Ef).
      injection Ef as E1 E2 E3. destruct (fd_when _ _ _ _ _ _ F u y2 Hy2) as (x' & Hx' & Ep' & Ea' & Ew').
      exists x'. split_and!; [done|congruence|congruence|]. rewrite Ew'.
      assert (bool_decide (u ∈ l2) = bool_decide (u ∈ t :: r)) as ->.
      { apply bool_decide_ext. rewrite (f1_list _ _ _ _ _ _ _ F1). destruct (period x =? 0); set_solver. }
      unfold refire. by rewrite <- E1, <- E2.
  - rewrite (fd_rest _ _ _ _ _ _ F). apply F1.
Qed.

Lemma fire_ok now : 0 <= now -> now + 2 ^ 32 <= 2 ^ 64 -> forall fuel w l,
  hinv w l -> (forall t x, t ∈ l -> tms w !! t = Some x -> 0 <= period x < 2 ^ 32) ->
  (length (filter (due w now) l) < fuel)%nat ->
  exists w' l' L, fire fuel now (Z.of_nat (length l)) w = Ok (Z.of_nat (length l'), w') /\
    hinv w' l' /\ fired now w l w' l' L.
Proof.
  intros Hn1 Hn2. induction fuel as [|fuel IH]; intros w l I Hper Hf; [lia|]. cbn [fire].
  destruct l as [|t r].
  { exists w, [], []. split_and!; [done|done|]. split; try done; [constructor|set_solver|].
    intros t x Hx. exists x. rewrite bool_decide_eq_false_2 by apply not_elem_of_nil. done. }
  destruct (Z.ltb_spec 0 (Z.of_nat (length (t :: r)))) as [_|Hl]; [|cbn in Hl; lia]. cbn [negb].
  destruct (hr_idx _ _ (hi_rep _ _ I) 0 t eq_refl) as (x & Hx & _).
  assert (key w t = when x) as Hk by (unfold key; by rewrite Hx).
  rewrite (bind_ok _ _ _ _ _ (slot_ok _ _ 0 t (hi_rep _ _ I) eq_refl)).
  rewrite (bind_ok _ _ _ x w) by (unfold get_timer; by rewrite Hx).
  destruct (Z.leb_spec (when x) now) as [Hd|Hd].
  - destruct (fire1_ok now w t x r I Hx Hn1 Hn2) as (w2 & l2 & E1 & F1); [apply (Hper t x); [by left|done]|].
    destruct (IH w2 l2 (f1_inv _ _ _ _ _ _ _ F1)) as (w' & l' & L & E2 & I' & F').
    + intros u y Hu Hy. destruct (decide (u = t)) as [->|Hne].
      * destruct (f1_self _ _ _ _ _ _ _ F1) as (x2 & Hx2 & Ep & _). assert (y = x2) as -> by congruence.
        rewrite Ep. apply (Hper t x); [by left|done].
      * pose proof (f1_other _ _ _ _ _ _ _ F1 u Hne) as Ef. rewrite Hy in Ef. symmetry in Ef.
        apply fmap_Some in Ef as (y0 & Hy0 & Ef). injection Ef as _ -> _. apply (Hper u y0); [|done].
        rewrite (f1_list _ _ _ _ _ _ _ F1) in Hu. destruct (period x =? 0); set_solver.
    + (* one timer less is due *)
      rewrite filter_cons_True in Hf by (unfold due; lia). cbn [length] in Hf.
      assert (length (filter (due w2 now) l2) <= length (filter (due w now) r))%nat; [|lia].
      pose proof (hrep_nodup _ _ (hi_rep _ _ I)) as [Hnt _]%NoDup_cons.
      rewrite (f1_list _ _ _ _ _ _ _ F1).
      assert (filter (due w2 now) r = filter (due w now) r) as Er.
      { apply filter_ext_in. intros u Hu. unfold due.
        by rewrite (facts_key _ _ w w2 u eq_refl eq_refl) by (apply (f1_other _ _ _ _ _ _ _ F1); by intros ->). }
      destruct (f1_self _ _ _ _ _ _ _ F1) as (x2 & Hx2 & _ & _ & Ew).
      pose proof (Hper t x ltac:(by left) Hx).
      destruct (Z.eqb_spec (period x) 0); [by rewrite Er|].
      rewrite filter_cons_False; [by rewrite Er|]. unfold due, key. rewrite Hx2. lia.
    + exists w', l', (t :: L). split_and!; [|done|].
      * unfold bind at 1 in E1. unfold bind at 1. destruct (coroc_send_timer t w) as [[[] wa]|]; [|done].
        apply bind_inv in E1 as (size & wb & Ea & E1). rewrite (bind_ok _ _ _ _ _ Ea).
        apply bind_inv in E1 as ([] & wc & Eb & E1). rewrite (bind_ok _ _ _ _ _ Eb). injection E1 as -> ->. done.
      * eapply fired_cons; try done. by apply (Hper t x); [left|].
  - exists w, (t :: r), []. split_and!; [done|done|].
    assert (forall u, u ∈ t :: r -> now < key w u) as Hlate.
    { intros u Hu. pose proof (hinv_root w t r I u Hu). lia. }
    split; try done.
    + assert (filter (due w now) (t :: r) = []) as ->; [|done].
      destruct (filter (due w now) (t :: r)) as [|u F] eqn:E; [done|].
      assert (u ∈ filter (due w now) (t :: r)) as Hu by (rewrite E; by left).
      apply list_elem_of_filter in Hu as [Hu1 Hu2]. specialize (Hlate u Hu2). unfold due in Hu1. lia.
    + constructor.
    + assert (filter (stays w now) (t :: r) = filter (fun _ => True) (t :: r)) as ->.
      { apply filter_ext_in. intros u Hu. split; [done|]. intros _. specialize (Hlate u Hu).
        apply list_elem_of_lookup in Hu as [i Hi]. destruct (hr_idx _ _ (hi_rep _ _ I) i u Hi) as (y & Hy & _).
        unfold stays, key in *. rewrite Hy in *. by left. }
      clear. induction (t :: r) as [|u l IHl]; [done|]. rewrite filter_cons_True by done. by rewrite <- IHl.
    + intros u y Hy. exists y. split_and!; try done. case_bool_decide as Hu; [|done].
      specialize (Hlate u Hu). unfold key in Hlate. rewrite Hy in Hlate. unfold refire.
      destruct (Z.leb_spec (when y) now); [lia|done].
Qed.

(** ** Adding a timer *)

Lemma upd_index_ok w t x z : tms w !! t = Some x ->
  facts <$> tms (set_tms (<[t := set_index z x]> (tms w)) w) !! t = facts <$> tms w !! t.
Proof. intros Hx. cbn. by rewrite lookup_insert_eq, Hx. Qed.

(** Appending a timer to the array and sifting it up. *)
Lemma push_ok w l t x :
  hrep w l -> hord (keys w l) (length l) -> (length l < length (timers w))%nat -> t ∉ l -> tms w !! t = Some x ->
  exists w' l', (do! set_slot (Z.of_nat (length l)) t in
     do! upd_timer t (set_index (Z.of_nat (length l))) in up (Z.of_nat (length l))) w = Ok (tt, w') /\
    hrep w' l' /\ l' ≡ₚ t :: l /\ hord (keys w' l') (length l') /\ hframe (t :: l) w w'.
Proof.
  intros R Ho Hlen Ht Hx. set (n := length l) in *.
  set (w1 := set_tms (<[t := set_index (Z.of_nat n) x]> (tms w)) (set_timers (<[n := Some t]> (timers w)) w)).
  assert (hrep w1 (l ++ [t])) as R1.
  { split; intros i u Hi; apply lookup_snoc_cases in Hi as [[Hi Hlt]|[-> ->]]; cbn.
    - rewrite list_lookup_insert_ne by lia. by apply (hr_arr _ _ R).
    - by rewrite list_lookup_insert_eq.
    - destruct (hr_idx _ _ R i u Hi) as (y & Hy & Ey). exists y. rewrite lookup_insert_ne; [done|].
      intros ->. apply Ht. by eapply list_elem_of_lookup_2.
    - exists (set_index (Z.of_nat n) x). by rewrite lookup_insert_eq. }
  assert (forall u, facts <$> tms w1 !! u = facts <$> tms w !! u) as Hf1.
  { intros u. destruct (decide (t = u)) as [<-|]; [by apply (upd_index_ok w)|]. cbn. by rewrite lookup_insert_ne. }
  assert (forall i, (i < n)%nat -> keys w1 (l ++ [t]) i = keys w l i) as Hk.
  { intros i Hi. unfold keys. rewrite lookup_app_l by done. destruct (l !! i); [|done]. by eapply facts_key, Hf1. }
  assert (length (l ++ [t]) = S n) as Hl1 by (rewrite length_app; cbn; lia).
  destruct (up_ok (S n) (S n) n w1 (l ++ [t]) R1 Hl1) as (w2 & l2 & E2 & R2 & P2 & O2 & F2); [|lia|lia|].
  { split.
    - intros i j Hc Hj Hne. rewrite !Hk by (unfold child in Hc; lia). apply Ho; [done|lia].
    - intros p j _ Hc Hj. unfold child in Hc. lia. }
  exists w2, l2. split_and!; [|done|by rewrite P2, Permutation_app_comm| |].
  - rewrite (bind_ok _ _ _ _ _ (set_slot_ok w n t Hlen)).
    rewrite (bind_ok _ _ _ tt w1) by (by rewrite (upd_timer_ok _ t x)).
    unfold up. by rewrite Nat2Z.id.
  - assert (length l2 = S n) as -> by (by rewrite P2). done.
  - assert (hframe (t :: l) w w1) as F1.
    { split; [done| |cbn; by rewrite length_insert|done].
      intros u Hu. cbn. rewrite lookup_insert_ne; [done|]. set_solver. }
    eapply hframe_trans; [|exact F1|exact F2]. set_solver.
Qed.

Lemma fact_of w w' t x : facts <$> tms w' !! t = facts <$> tms w !! t -> tms w !! t = Some x ->
  exists x', tms w' !! t = Some x' /\ facts x' = facts x.
Proof. intros E Hx. rewrite Hx in E. apply fmap_Some in E as (x' & ? & ->). eauto. Qed.

(** What the daemon is told. *)
Definition told w (w' : tworld W) : Prop :=
  match daemon w with
  | None => exists d, te_start (env w) = Ok (d, env w') /\ daemon w' = Some d /\ tsuspend w' = tsuspend w
  | Some d => daemon w' = Some d /\
      if (tsize w =? 0) && tsuspend w then te_ready d (env w) = Ok (tt, env w') /\ tsuspend w' = false
      else env w' = env w /\ tsuspend w' = tsuspend w
  end.

Lemma hrep_prefix w w' l : hrep w l -> tms w' = tms w -> (exists g, timers w' = timers w ++ g) -> hrep w' l.
Proof.
  intros R Et [g Eg]. apply (hrep_ext w); [done| |intros; by rewrite Et].
  intros i t Hi. rewrite Eg. apply lookup_app_l. by eapply hrep_slot_lt.
Qed.

(** The array has room for one more. *)
Lemma grow_ok garbage w l :
  hinv w l -> (cap w = tsize w -> length garbage = length (timers w)) -> cap w * 2 < 2 ^ 31 ->
  exists w1, (if cap w =? tsize w then
      modify (fun w => set_timers (timers w ++ garbage) (set_cap (i32 (cap w * 2)) w)) else ret tt) (set_tlock true w) =
        Ok (tt, w1) /\ hrep w1 l /\ (length l < length (timers w1))%nat /\ tms w1 = tms w /\
    cap w1 = Z.of_nat (length (timers w1)) /\ 0 < cap w1 /\
    (tlock w1, tsuspend w1, tsize w1, daemon w1, env w1) = (true, tsuspend w, tsize w, daemon w, env w).
Proof.
  intros I Hg Hc. pose proof (hi_rep _ _ I) as R. pose proof (hi_size _ _ I) as Hs. destruct (hi_cap _ _ I) as [Hcap Hpos].
  assert (length l <= length (timers w))%nat as Hle.
  { destruct (decide (length l = 0%nat)); [lia|].
    destruct (lookup_lt_is_Some_2 l (length l - 1)) as [u Hu]; [lia|]. pose proof (hrep_slot_lt _ _ _ _ R Hu). lia. }
  destruct (Z.eqb_spec (cap w) (tsize w)) as [E|Hne].
  - specialize (Hg E). eexists. split; [done|]. cbn. rewrite i32_small by lia.
    split_and!; [|rewrite length_app; lia|done|rewrite length_app; lia|lia|done].
    apply (hrep_prefix w); [done|done|]. by exists garbage.
  - exists (set_tlock true w). split; [done|]. cbn.
    split_and!; [|lia|done|done|done|done]. apply (hrep_prefix w); [done|done|]. exists []. by rewrite app_nil_r.
Qed.

Lemma daemon_ok w1 (n : Z) (w : tworld W) :
  tlock w1 = true -> tsuspend w1 = tsuspend w -> daemon w1 = daemon w -> env w1 = env w -> n = tsize w ->
  exists w2, (match daemon w1 with
    | None => do! coroc_intertimer_start in do! tlock_release in ret 0
    | Some d => if (n =? 0) && tsuspend w1 then
          do! modify (set_tsuspend false) in do! tlock_release in do! on_env (te_ready d) in ret 0
        else do! tlock_release in ret 0
    end) w1 = Ok (0, w2) /\ tlock w2 = false /\ told w w2 /\ tms w2 = tms w1 /\ timers w2 = timers w1 /\
    cap w2 = cap w1 /\ tsize w2 = tsize w1.
Proof.
  intros Hl Hs Hd He ->. rewrite Hd, Hs. unfold told. destruct (daemon w) as [d|] eqn:Ed.
  - destruct ((tsize w =? 0) && tsuspend w).
    + destruct (tt_ready d (env w)) as [e E]. exists (set_env e (set_tlock false (set_tsuspend false w1))).
      split_and!; try done. unfold bind, modify, tlock_release. cbn. rewrite Hl. cbn.
      unfold on_env, zoom. cbn. by rewrite He, E.
    + exists (set_tlock false w1). split_and!; try done. unfold bind, tlock_release. by rewrite Hl.
  - destruct (tt_start (env w)) as (d & e & E). exists (set_tlock false (set_daemon (Some d) (set_env e w1))).
    split_and!; try done.
    + unfold bind, coroc_intertimer_start, tlock_release, get, bind. cbn. rewrite Hd. cbn.
      unfold on_env, zoom. rewrite He, E. cbn. by rewrite Hl.
    + by exists d.
Qed.

Lemma add_ok garbage w l t x :
  hinv w l -> tlock w = false -> t ∉ l -> tms w !! t = Some x ->
  (cap w = tsize w -> length garbage = length (timers w)) -> cap w * 2 < 2 ^ 31 ->
  exists w' l', coroc_add_intertimer garbage t w = Ok (0, w') /\ tlock w' = false /\
    hinv w' l' /\ l' ≡ₚ t :: l /\
    (forall u, facts <$> tms w' !! u = facts <$> tms w !! u) /\ told w w'.
Proof.
  intros I Hlk Ht Hx Hg Hc. pose proof (hi_size _ _ I) as Hs.
  destruct (grow_ok garbage w l I Hg Hc) as (w1 & E1 & R1 & Hl1 & Et1 & Hc1 & Hp1 & Er1). injection Er1 as X1 X2 X3 X4 X5.
  destruct (push_ok w1 l t x R1) as (w2 & l2 & E2 & R2 & P2 & O2 & F2); [|done|done|by rewrite Et1|].
  { apply (hord_ext (keys w l)); [|apply I]. intros i _. apply keys_ext. intros u _. unfold key. by rewrite Et1. }
  pose proof (hf_rest _ _ _ F2) as Fr. injection Fr as Y1 Y2 Y3 Y4 Y5 Y6.
  assert (length l2 = S (length l)) as Hl2 by (by rewrite P2).
  assert ((length l <= length (timers w))%nat) as Hcase.
  { destruct (hi_cap _ _ I). destruct (decide (length l = 0%nat)); [lia|].
    destruct (lookup_lt_is_Some_2 l (length l - 1)) as [u Hu]; [lia|]. pose proof (hrep_slot_lt _ _ _ _ (hi_rep _ _ I) Hu). lia. }
  destruct (hi_cap _ _ I) as [Hcap _].
  set (w3 := set_tsize (tsize w2 + 1) w2).
  destruct (daemon_ok w3 (tsize w) w) as (w4 & E4 & Hl4 & Htold & Et4 & Ea4 & Ec4 & Es4); try (cbn; congruence).
  exists w4, l2. split_and!; [|done| |done| |done].
  - unfold coroc_add_intertimer. rewrite (bind_ok _ _ _ tt (set_tlock true w)) by (unfold tlock_acquire; by rewrite Hlk).
    rewrite (bind_ok _ _ _ (set_tlock true w) (set_tlock true w)) by done. cbn [cap tsize set_tlock].
    rewrite (bind_ok _ _ _ _ _ E1). rewrite Hs.
    apply bind_inv in E2 as ([] & wa & Ea & E2). rewrite (bind_ok _ _ _ _ _ Ea).
    apply bind_inv in E2 as ([] & wb & Eb & E2). rewrite (bind_ok _ _ _ _ _ Eb).
    rewrite (bind_ok _ _ _ _ _ E2).
    rewrite (bind_ok _ _ _ tt w3) by (unfold modify, w3; rewrite i32_small by lia; done).
    rewrite (bind_ok _ _ _ w3 w3) by done. rewrite <- Hs. exact E4.
  - split.
    + apply (hrep_ext w2); [done|intros; by rewrite Ea4|intros; by rewrite Et4].
    + rewrite Es4. cbn. lia.
    + rewrite Ec4, Ea4. cbn. rewrite Y3, (hf_len _ _ _ F2). by split.
    + apply (hord_ext (keys w2 l2)); [|done]. intros i _. symmetry. apply keys_ext. intros u _. unfold key. by rewrite Et4.
    + lia.
  - intros u. rewrite Et4. cbn. rewrite (hf_facts _ _ _ F2). by rewrite Et1.
Qed.

(** ** Sleeping *)

Lemma hinv_other w l t x : hinv w l -> t ∉ l -> hinv (set_tms (<[t := x]> (tms w)) w) l.
Proof.
  intros I Ht. assert (forall u, u ∈ l -> <[t := x]> (tms w) !! u = tms w !! u) as E.
  { intros u Hu. apply lookup_insert_ne. intros ->. done. }
  split; cbn; [|apply I..| |apply I].
  - apply (hrep_ext w); [apply I|done|]. intros u Hu. cbn. by rewrite E.
  - apply (hord_ext (keys w l)); [|apply I]. intros i _. symmetry. apply keys_ext.
    intros u Hu. unfold key. cbn. by rewrite E.
Qed.

(** [coroc_udelay] is a one-shot timer for the given time from now, in the
    heap with the others; when that time is already over at the second
    reading of the clock the value is sent at once. *)
Lemma udelay_ok garbage now now' idx w l t us :
  hinv w l -> tlock w = false -> t ∉ l -> 0 <= now -> 0 <= us -> now + us < 2 ^ 64 ->
  (cap w = tsize w -> length garbage = length (timers w)) -> cap w * 2 < 2 ^ 31 ->
  if now + us <=? now' then
    exists e, coroc_udelay garbage now now' idx t us w =
        Ok (t, set_env e (set_tms (<[t := mk_itimer (now + us) 0 idx None]> (tms w)) w)) /\
      te_send t (now + us) (env w) = Ok (tt, e)
  else
    exists w' l', coroc_udelay garbage now now' idx t us w = Ok (t, w') /\ tlock w' = false /\
      hinv w' l' /\ l' ≡ₚ t :: l /\ facts <$> tms w' !! t = Some (now + us, 0, None) /\
      (forall u, u <> t -> facts <$> tms w' !! u = facts <$> tms w !! u) /\ told w w'.
Proof.
  intros I Hl Ht Hn Hu Hlt Hg Hc. set (x := mk_itimer (now + us) 0 idx None).
  set (w1 := set_tms (<[t := x]> (tms w)) w).
  assert (coroc_udelay garbage now now' idx t us w = (do! coroc_timer_start garbage now' t in ret t) w1) as ->.
  { unfold coroc_udelay, coroc_timer_after, coroc_timer_at. rewrite u64_small by lia.
    erewrite bind_ok by reflexivity. erewrite bind_ok; [reflexivity|].
    unfold upd_timer. cbn. rewrite lookup_insert_eq. cbn. by rewrite insert_insert_eq. }
  assert (get_timer t w1 = Ok (x, w1)) as Hx by (unfold get_timer; cbn; by rewrite lookup_insert_eq).
  destruct (now + us <=? now') eqn:E.
  - destruct (tt_send t (now + us) (env w)) as [e He]. exists e. split; [|done].
    unfold coroc_timer_start. erewrite bind_ok; [reflexivity|].
    erewrite bind_ok by exact Hx. cbn [when x]. rewrite E. erewrite bind_ok; [reflexivity|].
    unfold coroc_send_timer. erewrite bind_ok by exact Hx. cbn [args x].
    erewrite bind_ok by reflexivity. erewrite bind_ok by exact Hx.
    unfold on_env, zoom. cbn. by rewrite He.
  - destruct (add_ok garbage w1 l t x) as (w' & l' & Ea & Hl' & I' & P & F & T); try done.
    { by apply hinv_other. } { cbn. by rewrite lookup_insert_eq. }
    exists w', l'. split_and!; try done.
    + unfold coroc_timer_start. erewrite bind_ok; [reflexivity|]. erewrite bind_ok by exact Hx. cbn [when x].
      rewrite E. exact Ea.
    + rewrite F. cbn. by rewrite lookup_insert_eq.
    + intros u Hne. rewrite F. cbn. by rewrite lookup_insert_ne.
Qed.

(** ** Deleting a timer *)

(** The last timer of the array takes the place [i]. *)
Lemma fill_ok w l i t l0 u :
  hrep w l -> l = l0 ++ [u] -> l !! i = Some t ->
  exists y w1, tms w !! u = Some y /\
    (do! set_slot (Z.of_nat i) u in upd_timer u (set_index (Z.of_nat i))) w = Ok (tt, w1) /\
    hrep w1 (<[i := u]> l0) /\ hframe l w w1.
Proof.
  intros R -> Hi.
  assert ((l0 ++ [u]) !! length l0 = Some u) as Hu by (by apply list_lookup_middle).
  destruct (hr_idx _ _ R _ _ Hu) as (y & Hy & Ey).
  pose proof (hrep_slot_lt _ _ _ _ R Hi) as Hit. apply lookup_lt_Some in Hi as Hil.
  rewrite length_app in Hil. cbn in Hil.
  set (w1 := set_tms (<[u := set_index (Z.of_nat i) y]> (tms w)) (set_timers (<[i := Some u]> (timers w)) w)).
  exists y, w1. split_and!; [done| | |].
  - rewrite (bind_ok _ _ _ _ _ (set_slot_ok w i u Hit)). by rewrite (upd_timer_ok _ u y).
  - assert (forall k v, k <> i -> <[i := u]> l0 !! k = Some v -> (l0 ++ [u]) !! k = Some v /\ v <> u) as Hold.
    { intros k v Hk Hv. rewrite list_lookup_insert_ne in Hv by done.
      assert ((l0 ++ [u]) !! k = Some v) as Hv' by (by apply lookup_app_l_Some). split; [done|]. intros ->.
      pose proof (NoDup_lookup _ _ _ _ (hrep_nodup _ _ R) Hv' Hu). apply lookup_lt_Some in Hv. lia. }
    split; intros k v Hk; cbn.
    + destruct (decide (k = i)) as [->|Hne].
      * rewrite list_lookup_insert_eq by done. apply list_lookup_insert_Some in Hk as [(_ & -> & _)|[? _]]; done.
      * rewrite list_lookup_insert_ne by done. apply (hr_arr _ _ R). by apply Hold.
    + destruct (decide (k = i)) as [->|Hne].
      * apply list_lookup_insert_Some in Hk as [(_ & -> & _)|[? _]]; [|done].
        exists (set_index (Z.of_nat i) y). by rewrite lookup_insert_eq.
      * destruct (Hold k v Hne Hk) as [Hv Hvu]. rewrite lookup_insert_ne by done. by apply (hr_idx _ _ R).
  - split; cbn.
    + intros v. destruct (decide (u = v)) as [<-|]; [by rewrite lookup_insert_eq, Hy|by rewrite lookup_insert_ne].
    + intros v Hv. rewrite lookup_insert_ne; [done|]. intros <-. apply Hv, elem_of_app. right. by left.
    + by rewrite length_insert.
    + done.
Qed.

Lemma insert_last_perm (l0 : list tid) i u t :
  (l0 ++ [u]) !! i = Some t -> t :: <[i := u]> l0 ≡ₚ l0 ++ [u].
Proof.
  intros Hi. apply lookup_snoc_cases in Hi as [[Hi Hlt]|[-> ->]].
  - rewrite insert_take_drop by done. rewrite (Permutation_app_comm l0 [u]). cbn.
    rewrite <- (take_drop_middle l0 i t) at 3 by done. rewrite <- !Permutation_middle. constructor.
  - rewrite list_insert_ge by lia. by rewrite Permutation_app_comm.
Qed.

(** The timer that takes the place is not smaller than the parent there. *)
Definition del_in_order w l (i : nat) : Prop :=
  forall p, child p i -> keys w l p <= keys w l (length l - 1).

Lemma del_ok w l t i :
  hinv w l -> tlock w = false -> l !! i = Some t ->
  exists w' l', coroc_del_intertimer t w = Ok (0, w') /\ tlock w' = false /\
    hrep w' l' /\ tsize w' = Z.of_nat (length l') /\ t :: l' ≡ₚ l /\
    (forall u, facts <$> tms w' !! u = facts <$> tms w !! u) /\ (env w', daemon w') = (env w, daemon w) /\
    (del_in_order w l i -> hinv w' l').
Proof.
  intros I Hlk Hi. pose proof (hi_rep _ _ I) as R. pose proof (hi_size _ _ I) as Hs.
  destruct (hr_idx _ _ R _ _ Hi) as (x & Hx & Ex). apply lookup_lt_Some in Hi as Hil.
  destruct (last_split l) as (l0 & u & El); [by intros ->|].
  assert (length l = S (length l0)) as Hlen by (rewrite El, length_app; cbn; lia).
  set (w0 := set_tlock true w). assert (hrep w0 l) as R0 by (apply (hrep_ext w); done).
  assert (l !! length l0 = Some u) as Hu by (rewrite El; by apply list_lookup_middle).
  destruct (fill_ok w0 l i t l0 u R0 El Hi) as (y & w1 & Hy & E1 & R1 & F1).
  assert (length (<[i := u]> l0) = length l0) as Hl1 by apply length_insert.
  pose proof (hi_few _ _ I) as Hf.
  destruct (down_ok (length l0) (S (length l0)) i w1 (<[i := u]> l0) R1 Hl1) as (w2 & l2 & E2 & R2 & P2 & O2 & F2);
    [lia|lia|lia|].
  assert (length l2 = length l0) as Hl2 by (by rewrite P2).
  pose proof (hf_rest _ _ _ F1) as Fr1. pose proof (hf_rest _ _ _ F2) as Fr2.
  injection Fr1 as A1 A2 A3 A4 A5 A6. injection Fr2 as B1 B2 B3 B4 B5 B6.
  set (w3 := set_tlock false (set_tsize (Z.of_nat (length l0)) w2)).
  exists w3, l2. split_and!.
  - unfold coroc_del_intertimer. rewrite (bind_ok _ _ _ tt w0) by (unfold tlock_acquire; by rewrite Hlk).
    rewrite (bind_ok _ _ _ w0 w0) by done.
    rewrite (bind_ok _ _ _ x w0) by (unfold get_timer; cbn; by rewrite Hx). rewrite Ex. cbn [tsize w0 set_tlock]. rewrite Hs.
    destruct (Z.ltb_spec (Z.of_nat i) 0); [lia|]. destruct (Z.leb_spec (Z.of_nat (length l)) (Z.of_nat i)); [lia|]. cbn [orb].
    rewrite (bind_ok _ _ _ _ _ (slot_ok _ _ _ _ R0 Hi)). rewrite bool_decide_eq_true_2 by done. cbn [negb].
    replace (Z.of_nat (length l) - 1) with (Z.of_nat (length l0)) by lia.
    rewrite (bind_ok _ _ _ _ _ (slot_ok _ _ _ _ R0 Hu)).
    apply bind_inv in E1 as ([] & wa & Ea & E1). rewrite (bind_ok _ _ _ _ _ Ea), (bind_ok _ _ _ _ _ E1).
    rewrite (bind_ok _ _ _ tt w2) by (unfold down; by rewrite Nat2Z.id).
    rewrite (bind_ok _ _ _ tt (set_tsize (Z.of_nat (length l0)) w2)) by done.
    unfold bind, tlock_release. cbn. rewrite B1, A1. done.
  - done.
  - apply (hrep_ext w2); done.
  - cbn. by rewrite Hl2.
  - rewrite P2, El. apply insert_last_perm. by rewrite <- El.
  - intros v. change (tms w3) with (tms w2). by rewrite (hf_facts _ _ _ F2), (hf_facts _ _ _ F1).
  - cbn. by rewrite B6, A6, B5, A5.
  - intros Hord.
    assert (hord (keys w2 l2) (length l0)) as Hh.
    { apply O2. assert (forall k, keys w1 (<[i := u]> l0) k =
        if decide (k = i) then (if decide (i < length l0)%nat then keys w l (length l0) else 0)
        else if decide (k < length l0)%nat then keys w l k else 0) as Hk.
      { intros k. rewrite (hframe_keys _ _ _ _ _ F1). unfold keys at 1. destruct (decide (k = i)) as [->|Hne].
        - destruct (decide (i < length l0)%nat); [|by rewrite lookup_ge_None_2 by (rewrite length_insert; lia)].
          rewrite list_lookup_insert_eq by done. unfold keys. by rewrite Hu.
        - rewrite list_lookup_insert_ne by done. destruct (decide (k < length l0)%nat) as [Hlt|];
            [|by rewrite lookup_ge_None_2 by lia].
          unfold keys. rewrite El, lookup_app_l by done. done. }
      pose proof (hi_ord _ _ I) as Ho. unfold del_in_order in Hord. replace (length l - 1)%nat with (length l0) in Hord by lia. split.
      - intros a b Hc Hb Ha. rewrite !Hk. rewrite (decide_False (P := a = i)) by done.
        rewrite (decide_True (P := (a < length l0)%nat)) by (unfold child in Hc; lia).
        destruct (decide (b = i)) as [->|Hbi].
        + rewrite decide_True by done. by apply Hord.
        + rewrite decide_True by done. apply Ho; [done|lia].
      - intros p j Hp Hij Hj. rewrite !Hk. rewrite !(decide_False (P := _ = i)) by (unfold child in *; lia).
        rewrite !decide_True by (unfold child in *; lia).
        pose proof (Ho p i Hp Hil). pose proof (Ho i j Hij ltac:(lia)). lia. }
    split.
    + apply (hrep_ext w2); done.
    + cbn. by rewrite Hl2.
    + cbn. rewrite B3, A3, (hf_len _ _ _ F2), (hf_len _ _ _ F1). apply (hi_cap _ _ I).
    + rewrite Hl2. apply (hord_ext (keys w2 l2)); done.
    + lia.
Qed.

(** A timer that is not in the heap is left alone. *)
Lemma del_absent w l t x : hinv w l -> tlock w = false -> t ∉ l -> tms w !! t = Some x ->
  coroc_del_intertimer t w = Ok (-1, w).
Proof.
  intros I Hlk Ht Hx. pose proof (hi_size _ _ I) as Hs.
  assert (set_tlock false (set_tlock true w) = w) as Ew by (destruct w; cbn in *; by subst).
  unfold coroc_del_intertimer. rewrite (bind_ok _ _ _ tt (set_tlock true w)) by (unfold tlock_acquire; by rewrite Hlk).
  rewrite (bind_ok _ _ _ (set_tlock true w) (set_tlock true w)) by done.
  rewrite (bind_ok _ _ _ x (set_tlock true w)) by (unfold get_timer; cbn; by rewrite Hx). cbn [tsize set_tlock]. rewrite Hs.
  destruct ((index x <? 0) || (Z.of_nat (length l) <=? index x)) eqn:Er; [unfold bind, tlock_release; cbn; by rewrite Ew|].
  apply orb_false_iff in Er as [E1%Z.ltb_ge E2%Z.leb_gt].
  destruct (lookup_lt_is_Some_2 l (Z.to_nat (index x))) as [v Hv]; [lia|].
  replace (index x) with (Z.of_nat (Z.to_nat (index x))) by lia.
  assert (hrep (set_tlock true w) l) as R0 by (apply (hrep_ext w); [apply I|done|done]).
  rewrite (bind_ok _ _ _ _ _ (slot_ok _ _ _ _ R0 Hv)).
  rewrite bool_decide_eq_false_2; [unfold bind, tlock_release; cbn; by rewrite Ew|].
  intros ->. apply Ht. by eapply list_elem_of_lookup_2.
Qed.

(** ** The daemon *)

Lemma routine_ok now w l :
  hinv w l -> tlock w = false -> 0 <= now -> now + 2 ^ 32 <= 2 ^ 64 ->
  (forall t x, t ∈ l -> tms w !! t = Some x -> 0 <= period x < 2 ^ 32) ->
  exists w1 w' l' L, coroc_intertimer_routine now w = Ok (bool_decide (l' = []), w') /\
    fired now w l w1 l' L /\ hinv w' l' /\ tlock w' = false /\ tms w' = tms w1 /\
    tsuspend w' = (if bool_decide (l' = []) then true else tsuspend w) /\
    (if bool_decide (l' = []) then te_suspend else te_yield) (env w1) = Ok (tt, env w').
Proof.
  intros I Hlk H1 H2 Hp. set (w0 := set_tlock true w).
  assert (hinv w0 l) as I0 by (destruct I as [[? ?] ? ? ? ?]; by split).
  pose proof (hi_size _ _ I) as Hs.
  destruct (fire_ok now H1 H2 (S (length l)) w0 l I0 Hp) as (w1 & l' & L & E & I1 & F).
  { pose proof (length_filter (due w0 now) l). lia. }
  pose proof (fd_rest _ _ _ _ _ _ F) as Fr. injection Fr as X1 X2 X3 X4.
  assert (fired now w l (set_tlock false w1) l' L) as F'.
  { destruct F. split; try done. cbn. cbn in X2, X3, X4. by rewrite Hlk, X2, X3, X4. }
  assert (coroc_intertimer_routine now w =
    (if Z.of_nat (length l') =? 0 then
       do! modify (set_tsuspend true) in do! on_env te_suspend in do! tlock_release in ret true
     else do! tlock_release in do! on_env te_yield in ret false) w1) as ->.
  { unfold coroc_intertimer_routine. rewrite (bind_ok _ _ _ tt w0) by (unfold tlock_acquire; by rewrite Hlk).
    rewrite (bind_ok _ _ _ w0 w0) by done. cbn [tsize w0 set_tlock]. rewrite Hs, Nat2Z.id.
    by rewrite (bind_ok _ _ _ _ _ E). }
  assert (forall w2, tms w2 = tms w1 -> timers w2 = timers w1 -> cap w2 = cap w1 -> tsize w2 = tsize w1 -> hinv w2 l') as Hinv.
  { intros w2 E1 E2 E3 E4. destruct I1 as [R1 S1 S2 S3 S4].
    split; [|by rewrite E4|by rewrite E3, E2| |done].
    - apply (hrep_ext w1); [done|intros; by rewrite E2|intros; by rewrite E1].
    - apply (hord_ext (keys w1 l')); [|done]. intros i _. symmetry. apply keys_ext. intros u _. unfold key. by rewrite E1. }
  destruct (Z.eqb_spec (Z.of_nat (length l')) 0) as [E0|E0].
  - assert (l' = []) as El by (destruct l'; [done|cbn in E0; lia]).
    destruct (tt_suspend (env w1)) as [e Ee].
    exists (set_tlock false w1), (set_tlock false (set_env e (set_tsuspend true w1))), l', L.
    rewrite bool_decide_eq_true_2 by done. split_and!; try done; [|by apply Hinv]. unfold bind, modify, on_env, zoom, tlock_release. cbn. rewrite Ee. cbn. by rewrite X1.
  - destruct (tt_yield (env w1)) as [e Ee].
    exists (set_tlock false w1), (set_env e (set_tlock false w1)), l', L.
    rewrite bool_decide_eq_false_2 by (intros ->; by apply E0). split_and!; try done; [|by apply Hinv]. unfold bind, on_env, zoom, tlock_release. cbn. rewrite X1. cbn. by rewrite Ee.
Qed.

(** ** The theorems *)

(** C22: adding a timer that is not in the heap puts it there and nothing else,
    keeps the heap order and the index of every timer exact, doubles the array
    when it is full, and starts the daemon, or wakes it when it slept for lack
    of timers, or leaves it alone. *)
Theorem add_timer_spec garbage w l t x :
  hinv w l -> tlock w = false -> t ∉ l -> tms w !! t = Some x ->
  (cap w = tsize w -> length garbage = length (timers w)) -> cap w * 2 < 2 ^ 31 ->
  exists w' l', coroc_add_intertimer garbage t w = Ok (0, w') /\ tlock w' = false /\
    hinv w' l' /\ l' ≡ₚ t :: l /\
    (forall u, facts <$> tms w' !! u = facts <$> tms w !! u) /\ told w w'.
Proof. apply add_ok. Qed.

(** C23: deleting a timer removes it and nothing else from the heap and reports
    success; a timer that is not in the heap is left alone and reported.  The
    heap order is kept when the timer that takes the place is not earlier than
    the parent there (the code sifts it down only). *)
Theorem del_timer_spec w l t x :
  hinv w l -> tlock w = false -> tms w !! t = Some x ->
  (t ∉ l -> coroc_del_intertimer t w = Ok (-1, w)) /\
  (forall i, l !! i = Some t ->
   exists w' l', coroc_del_intertimer t w = Ok (0, w') /\ tlock w' = false /\
    hrep w' l' /\ tsize w' = Z.of_nat (length l') /\ t :: l' ≡ₚ l /\
    (forall u, facts <$> tms w' !! u = facts <$> tms w !! u) /\ (env w', daemon w') = (env w, daemon w) /\
    (del_in_order w l i -> hinv w' l')).
Proof. intros I Hl Hx. split; [intros; by eapply del_absent|intros; by eapply del_ok]. Qed.

End heap.

(** ** A program with three timers *)

(** The calls of the component, in order. *)
Inductive tcall : Type :=
| Send (t : tid) (v : Z) | User (f : nat) | Start | Ready (d : nat) | Suspend | Yield.

#[export] Instance log_env : TimerEnv (list tcall) := {
  te_send t v := modify (fun l => l ++ [Send t v]);
  te_user f := modify (fun l => l ++ [User f]);
  te_start := fun l => Ok (7%nat, l ++ [Start]);
  te_ready d := modify (fun l => l ++ [Ready d]);
  te_suspend := modify (fun l => l ++ [Suspend]);
  te_yield := modify (fun l => l ++ [Yield])
}.
#[export] Instance log_total : TimerEnvTotal (W := list tcall).
Proof. split; intros; cbn; eauto. Qed.

Definition run_t {A} (m : ST (tworld (list tcall)) A) (w : tworld (list tcall)) : tworld (list tcall) :=
  match m w with Ok (_, w') => w' | Err _ => w end.

Definition no_timers : tworld (list tcall) :=
  run_t coroc_intertimer_initialize (mk_tworld ∅ false [] false 0 0 None []).

Lemma no_timers_inv : hinv no_timers [] /\ tlock no_timers = false.
Proof.
  split; [|done]. split; [split; intros i t Hi; by rewrite lookup_nil in Hi|done|done| |done].
  intros i j _ Hj. cbn in Hj. lia.
Qed.

Definition with_timers (ts : list (tid * itimer)) : tworld (list tcall) := set_tms (list_to_map ts) no_timers.
Fixpoint add_all (ts : list tid) (w : tworld (list tcall)) : tworld (list tcall) :=
  match ts with [] => w | t :: ts => add_all ts (run_t (coroc_add_intertimer [] t) w) end.

(** The heap holds timers 1, 2 and 3; 4 is not in it. *)
Definition four_timers : tworld (list tcall) := with_timers
  [(1%nat, mk_itimer 30 0 0 None); (2%nat, mk_itimer 10 5 0 (Some 9%nat)); (3%nat, mk_itimer 20 0 0 None);
   (4%nat, mk_itimer 5 0 0 None)].
Definition three : tworld (list tcall) := add_all [1; 2; 3]%nat four_timers.

Lemma three_inv : exists l, l ≡ₚ [3; 2; 1]%nat /\ hinv three l /\ tlock three = false.
Proof.
  set (w0 := four_timers). assert (hinv w0 []) as I0.
  { destruct no_timers_inv as [[[? ?] ? ? ? ?] _]. by split. }
  destruct (add_ok [] w0 [] 1 (mk_itimer 30 0 0 None)) as (w1 & l1 & E1 & L1 & I1 & P1 & F1 & _);
    [done|done|set_solver|done|done|done|].
  destruct (add_ok [] w1 l1 2 (mk_itimer 10 5 0 (Some 9%nat))) as (w2 & l2 & E2 & L2 & I2 & P2 & F2 & _).
  { done. } { done. } { rewrite P1. set_solver. }
  { vm_compute in E1. injection E1 as <-. done. } { vm_compute in E1. by injection E1 as <-. } { vm_compute in E1. by injection E1 as <-. }
  destruct (add_ok [] w2 l2 3 (mk_itimer 20 0 0 None)) as (w3 & l3 & E3 & L3 & I3 & P3 & F3 & _).
  { done. } { done. } { rewrite P2, P1. set_solver. }
  { vm_compute in E1. injection E1 as <-. vm_compute in E2. injection E2 as <-. done. }
  { vm_compute in E1. injection E1 as <-. vm_compute in E2. by injection E2 as <-. }
  { vm_compute in E1. injection E1 as <-. vm_compute in E2. by injection E2 as <-. }
  exists l3. assert (three = w3) as ->.
  { unfold three. fold w0. cbn [add_all]. unfold run_t. by rewrite E1, E2, E3. }
  split_and!; [by rewrite P3, P2, P1|done|done].
Qed.

Lemma three_absent l : l ≡ₚ [3; 2; 1]%nat -> 4%nat ∉ l.
Proof. intros ->. set_solver. Qed.

Lemma add_timer_spec_witness : exists w' l l', coroc_add_intertimer [] 4 three = Ok (0, w') /\ tlock w' = false /\
  hinv w' l' /\ l' ≡ₚ 4%nat :: l /\ l ≡ₚ [3; 2; 1]%nat /\
  (forall u, facts <$> tms w' !! u = facts <$> tms three !! u) /\ told three w'.
Proof.
  destruct three_inv as (l & P & I & Hl).
  destruct (add_timer_spec [] three l 4 (mk_itimer 5 0 0 None) I Hl (three_absent l P)) as (w' & l' & H).
  - vm_compute. reflexivity.
  - vm_compute. discriminate.
  - vm_compute. reflexivity.
  - exists w', l, l'. destruct H as (H1 & H2 & H3 & H4 & H5 & H6). split_and!; assumption.
Defined.

Lemma del_timer_spec_witness : exists l i, l ≡ₚ [3; 2; 1]%nat /\ l !! i = Some 2%nat /\
  exists w' l', coroc_del_intertimer 2 three = Ok (0, w') /\ 2%nat :: l' ≡ₚ l /\ (del_in_order three l i -> hinv w' l').
Proof.
  destruct three_inv as (l & P & I & Hl).
  assert (2%nat ∈ l) as Hin by (rewrite P; set_solver). apply list_elem_of_lookup in Hin as [i Hi].
  exists l, i. split; [exact P|]. split; [exact Hi|].
  destruct (del_timer_spec three l 2 (mk_itimer 10 5 0 (Some 9%nat)) I Hl) as [_ H].
  - vm_compute. reflexivity.
  - destruct (H i Hi) as (w' & l' & H1 & _ & _ & _ & H2 & _ & _ & H3). exists w', l'. split_and!; assumption.
Defined.


(** What the daemon does at time 25: the periodic timer 2 (due at 10), then 3. *)
Example three_at_25 : env (run_t (coroc_intertimer_routine 25) three) =
  [Start; User 9; Send 2 10; Send 3 20; Yield].
Proof. vm_compute. reflexivity. Qed.

(** ** Deleting can break the heap *)

(** Fifteen timers, number [n] with the [n]-th of these times; they are added
    in an order in which nothing moves. *)
Definition times : list Z := [1; 10; 2; 11; 12; 3; 4; 13; 14; 15; 16; 5; 6; 7; 8].
Definition fifteen : tworld (list tcall) :=
  add_all (seq 0 15) (with_timers (imap (fun i z => (i, mk_itimer z 0 0 None)) times)).

(** Timer 3 (time 11) is deleted; timer 14 (time 8) takes its place below timer
    1 (time 10).  At time 8 the daemon fires everything that is due but timer
    14. *)
Example deletion_delays_a_timer :
  let w := run_t (coroc_del_intertimer 3) fifteen in
  key w 14 = 8 /\
  env (run_t (coroc_intertimer_routine 8) w) =
  [Start; Send 0 1; Send 2 2; Send 5 3; Send 6 4; Send 11 5; Send 12 6; Send 13 7; Yield].
Proof. vm_compute. split; reflexivity. Qed.

(** ** A sleeper may be gone *)

(** The daemon sends the value of a sleeping coroutine; that returns from
    [coroc_udelay] at once on another VPU; the daemon then reads the timer in the
    frame that is gone. *)
Example daemon_uses_gone_frame :
  let w := run_t (coroc_udelay [] 10 10 0 5 20) no_timers in
  env (run_t (coroc_send_timer 5) w) = [Start; Send 5 30] /\
  (do! coroc_send_timer 5 in do! udelay_return 5 in expire 30 5 1) w = Err Dangling.
Proof. vm_compute. split; reflexivity. Qed.
