(* ===== verification/Hash.v ===== *)
(** * The cuckoo hash table (src/hash.c, include/inter/coroc_hash.h)

    Two arrays of pointers to entries; an entry sits in the array [i] at the
    place its key has under the hash function [i].  Insertion displaces at most
    [LIMIT] entries before the arrays are enlarged. *)

From S2P Require Import Prelude.

Definition CAPACITY : Z := 128.
Definition LIMIT : nat := 6.

Record hash_entry := mk_entry { ekey : Z; evalue : Z }.
#[export] Instance hash_entry_eq_dec : EqDecision hash_entry.
Proof. solve_decision. Defined.

Record hash_t := mk_hash {
  hlock : bool;
  capacity : Z;
  table0 : list (option hash_entry);
  table1 : list (option hash_entry)
}.
Definition table (i : bool) (h : hash_t) : list (option hash_entry) := if i then table1 h else table0 h.
Definition set_table (i : bool) (t : list (option hash_entry)) (h : hash_t) : hash_t :=
  if i then mk_hash (hlock h) (capacity h) (table0 h) t else mk_hash (hlock h) (capacity h) t (table1 h).
Definition set_capacity (c : Z) (h : hash_t) : hash_t := mk_hash (hlock h) c (table0 h) (table1 h).
Definition set_hlock (b : bool) (h : hash_t) : hash_t := mk_hash b (capacity h) (table0 h) (table1 h).

Definition __hash_fun0 (code : Z) : Z := u64 (17 * code + 72343) mod 9275507.
Definition __hash_fun1 (code : Z) : Z := u64 (19 * code + 89145) mod 8232341.
(** [pos] of every function of the file; [i] is the number of the array. *)
Definition hpos (i : bool) (key cap : Z) : nat :=
  Z.to_nat ((if i then __hash_fun1 key else __hash_fun0 key) mod cap).

(** An access to the array [i]. *)
Definition hslot (i : bool) (pos : nat) : ST hash_t (option hash_entry) :=
  fun h => match table i h !! pos with Some e => Ok (e, h) | None => Err OutOfBounds end.
Definition set_hslot (i : bool) (pos : nat) (e : option hash_entry) : ST hash_t unit :=
  fun h => if decide (pos < length (table i h))%nat
           then Ok (tt, set_table i (<[pos := e]> (table i h)) h) else Err OutOfBounds.

(** ** Enlarging *)

(** The entries of one array go to their places in a new one. *)
Fixpoint rehash (i : bool) (cap : Z) (old tmp : list (option hash_entry)) : res (list (option hash_entry)) :=
  match old with
  | [] => Ok tmp
  | None :: _ => Err NullDeref          (* e->key *)
  | Some e :: old => rehash i cap old (<[hpos i (ekey e) cap := Some e]> tmp)
  end.

Definition __resize : ST hash_t unit :=
  let! h := get in
  let cap := i32 (2 * capacity h) in
  let one i := fun h => match rehash i cap (table i h) (replicate (Z.to_nat cap) None) with
                        | Ok t => Ok (tt, set_table i t h)
                        | Err f => Err f
                        end in
  do! one false in
  do! one true in
  modify (set_capacity cap).

(** ** Insertion *)

(** The loop of [__add]: a code, or the entry left over after [k] rounds. *)
Fixpoint add_loop (k : nat) (i : bool) (e : hash_entry) : ST hash_t (Z + hash_entry) :=
  match k with
  | 0%nat => ret (inr e)
  | S k =>
      let! h := get in
      let pos := hpos i (ekey e) (capacity h) in
      let! tmp := hslot i pos in
      match tmp with
      | None => do! set_hslot i pos (Some e) in ret (inl 0)
      | Some tmp =>
          if ekey e =? ekey tmp then ret (inl (-1)) else
          do! set_hslot i pos (Some e) in
          add_loop k (negb i) tmp
      end
  end.

Fixpoint __add (fuel : nat) (e : hash_entry) : ST hash_t Z :=
  match fuel with
  | 0%nat => throw OutOfFuel
  | S fuel =>
      let! r := add_loop LIMIT false e in
      match r with
      | inl code => ret code
      | inr e => do! __resize in __add fuel e
      end
  end.

(** The array doubles each time; [32] doublings pass the range of [int]. *)
Definition hash_insert (key value : Z) : ST hash_t Z := __add 32 (mk_entry key value).

(** ** The other operations *)

Definition hash_init : ST hash_t unit :=
  modify (fun h => mk_hash (hlock h) CAPACITY (replicate (Z.to_nat CAPACITY) None) (replicate (Z.to_nat CAPACITY) None)).

(** [None]: NULL. *)
Definition hash_get (key : Z) (remove : bool) : ST hash_t (option Z) :=
  let look i : ST hash_t (option Z) :=
    let! h := get in
    let pos := hpos i key (capacity h) in
    let! e := hslot i pos in
    match e with
    | Some e => if ekey e =? key then
                  do! (if remove then set_hslot i pos None else ret tt) in ret (Some (evalue e))
                else ret None
    | None => ret None
    end in
  let! r := look false in
  match r with Some v => ret (Some v) | None => look true end.

(** [hash_fini]: the entries that are freed. *)
Definition hash_fini (h : hash_t) : list hash_entry := omap id (table0 h) ++ omap id (table1 h).

Definition hlock_acquire : ST hash_t unit := fun h => if hlock h then Err SelfDeadlock else Ok (tt, set_hlock true h).
Definition hlock_release : ST hash_t unit := fun h => if hlock h then Ok (tt, set_hlock false h) else Err AssertFail.
Definition atomic_hash_init : ST hash_t unit := do! modify (set_hlock false) in hash_init.
Definition atomic_hash_insert (key value : Z) : ST hash_t Z :=
  do! hlock_acquire in let! r := hash_insert key value in do! hlock_release in ret r.
Definition atomic_hash_get (key : Z) (remove : bool) : ST hash_t (option Z) :=
  do! hlock_acquire in let! r := hash_get key remove in do! hlock_release in ret r.

(** ** Contents *)

Definition occ (h : hash_t) (i : bool) (j : nat) (e : hash_entry) : Prop := table i h !! j = Some (Some e).
Definition has (h : hash_t) (e : hash_entry) : Prop := exists i j, occ h i j e.

(** Every entry is at the place of its key, and no key occurs twice. *)
Record hash_ok (h : hash_t) : Prop := {
  ho_cap : 0 < capacity h;
  ho_len : forall i, Z.of_nat (length (table i h)) = capacity h;
  ho_pos : forall i j e, occ h i j e -> j = hpos i (ekey e) (capacity h);
  ho_uniq : forall i j e i' j' e', occ h i j e -> occ h i' j' e' -> ekey e = ekey e' -> i = i' /\ j = j'
}.

Lemma hpos_lt h i k : hash_ok h -> (hpos i k (capacity h) < length (table i h))%nat.
Proof.
  intros O. pose proof (ho_cap _ O). pose proof (ho_len _ O i). unfold hpos.
  pose proof (Z.mod_pos_bound (if i then __hash_fun1 k else __hash_fun0 k) (capacity h)). lia.
Qed.

Lemma hslot_ok h i pos : (pos < length (table i h))%nat -> exists e, hslot i pos h = Ok (e, h) /\ table i h !! pos = Some e.
Proof. intros Hp. destruct (lookup_lt_is_Some_2 _ _ Hp) as [e He]. exists e. unfold hslot. by rewrite He. Qed.

Lemma set_hslot_ok h i pos e : (pos < length (table i h))%nat ->
  set_hslot i pos e h = Ok (tt, set_table i (<[pos := e]> (table i h)) h).
Proof. intros Hp. unfold set_hslot. by rewrite decide_True. Qed.

Lemma occ_set h i pos x i' j e : (pos < length (table i h))%nat ->
  occ (set_table i (<[pos := x]> (table i h)) h) i' j e <->
  (i' = i /\ j = pos /\ x = Some e) \/ (~ (i' = i /\ j = pos) /\ occ h i' j e).
Proof.
  intros Hp. unfold occ. destruct (decide (i' = i)) as [->|Hi].
  - replace (table i (set_table i (<[pos := x]> (table i h)) h)) with (<[pos := x]> (table i h)) by (by destruct i).
    destruct (decide (j = pos)) as [->|Hj].
    + rewrite list_lookup_insert_eq by done. naive_solver.
    + rewrite list_lookup_insert_ne by done. naive_solver.
  - replace (table i' (set_table i (<[pos := x]> (table i h)) h)) with (table i' h) by (by destruct i, i').
    naive_solver.
Qed.

Lemma set_table_len h i i' pos x : length (table i' (set_table i (<[pos := x]> (table i h)) h)) = length (table i' h).
Proof. destruct i, i'; cbn; rewrite ?length_insert; done. Qed.
Lemma set_table_cap h i t : capacity (set_table i t h) = capacity h.
Proof. by destruct i. Qed.

(** Putting [e], whose key is absent, at its place. *)
Lemma put_ok h i e x : hash_ok h -> (forall e', has h e' -> ekey e' <> ekey e) ->
  let pos := hpos i (ekey e) (capacity h) in
  table i h !! pos = Some x ->
  let h' := set_table i (<[pos := Some e]> (table i h)) h in
  hash_ok h' /\ forall e', has h' e' <-> e' = e \/ (has h e' /\ x <> Some e').
Proof.
  intros O Habs pos Hx h'. pose proof (hpos_lt h i (ekey e) O) as Hp. fold pos in Hp. split.
  - split.
    + unfold h'. rewrite set_table_cap. apply O.
    + intros i'. unfold h'. rewrite set_table_len, set_table_cap. apply O.
    + intros i' j e' He. unfold h'. rewrite set_table_cap. apply occ_set in He as [(-> & -> & [= ->])|[_ He]]; [done|by apply O|done].
    + intros i1 j1 e1 i2 j2 e2 H1 H2 E.
      apply occ_set in H1 as [(-> & -> & [= ->])|[_ H1]]; [| |done];
        apply occ_set in H2 as [(-> & -> & [= ->])|[_ H2]]; try done.
      * by destruct (Habs e2); [by exists i2, j2|].
      * by destruct (Habs e1); [by exists i1, j1|].
      * by eapply (ho_uniq _ O).
  - intros e'. split.
    + intros (i' & j & He). apply occ_set in He as [(-> & -> & [= ->])|[Hn He]]; [by left| |done].
      right. split; [by exists i', j|]. intros ->. apply Hn.
      by apply (ho_uniq _ O i' j e' i pos e').
    + intros [->|[(i' & j & He) Hne]]; [exists i, pos|exists i', j]; apply occ_set; [done|by left|done|].
      right. split; [|done]. intros [-> ->]. apply Hne. unfold occ in He. congruence.
Qed.

(** ** Insertion of a new key *)

Definition empty_slot (h : hash_t) : Prop := exists i j, table i h !! j = Some None.

Lemma empty_set h i pos e x : table i h !! pos = Some (Some x) ->
  empty_slot h -> empty_slot (set_table i (<[pos := Some e]> (table i h)) h).
Proof.
  intros Hx (i' & j & Hj). exists i', j. destruct (decide (i' = i)) as [->|Hi].
  - replace (table i (set_table i (<[pos := Some e]> (table i h)) h)) with (<[pos := Some e]> (table i h)) by (by destruct i).
    rewrite list_lookup_insert_ne; [done|]. intros ->. congruence.
  - by replace (table i' (set_table i (<[pos := Some e]> (table i h)) h)) with (table i' h) by (by destruct i, i').
Qed.

Lemma add_loop_ok k : forall i h e, hash_ok h -> (forall e', has h e' -> ekey e' <> ekey e) ->
  exists r h', add_loop k i e h = Ok (r, h') /\ hash_ok h' /\
    match r with
    | inl code => code = 0 /\ forall e', has h' e' <-> e' = e \/ has h e'
    | inr e1 => empty_slot h -> empty_slot h'
    end.
Proof.
  induction k as [|k IH]; intros i h e O Habs; [exists (inr e), h; auto|]. cbn [add_loop].
  rewrite (bind_ok _ _ _ h h) by done. set (pos := hpos i (ekey e) (capacity h)).
  pose proof (hpos_lt h i (ekey e) O) as Hp. fold pos in Hp.
  destruct (hslot_ok h i pos Hp) as (x & Es & Hx). rewrite (bind_ok _ _ _ _ _ Es).
  destruct (put_ok h i e x O Habs Hx) as [O' Hh]. fold pos in O', Hh.
  destruct x as [tmp|].
  - assert (has h tmp) as Htmp by (by exists i, pos).
    destruct (Z.eqb_spec (ekey e) (ekey tmp)) as [E|_]; [by destruct (Habs tmp Htmp)|].
    rewrite (bind_ok _ _ _ _ _ (set_hslot_ok h i pos (Some e) Hp)).
    set (h1 := set_table i (<[pos := Some e]> (table i h)) h) in *.
    destruct (IH (negb i) h1 tmp O') as (r & h' & E & O2 & Hr).
    { intros e' He' Ek. apply Hh in He' as [->|[He' Hne]]; [by apply (Habs tmp Htmp)|].
      destruct Htmp as (it & jt & Ht), He' as (ie & je & He).
      destruct (ho_uniq _ O _ _ _ _ _ _ Ht He (eq_sym Ek)) as [<- <-]. unfold occ in *. congruence. }
    exists r, h'. split_and!; [done|done|]. destruct r as [code|e1].
    + destruct Hr as [-> Hr]. split; [done|]. intros e'. rewrite Hr, Hh.
      destruct (decide (e' = tmp)) as [->|Hne]; naive_solver.
    + intros Hempty. apply Hr. by eapply empty_set.
  - rewrite (bind_ok _ _ _ _ _ (set_hslot_ok h i pos (Some e) Hp)).
    eexists (inl 0), _. split_and!; [done|done|done|]. intros e'. rewrite Hh. naive_solver.
Qed.

(** Enlarging reads the key of every slot, empty or not. *)
Lemma rehash_null i cap old : forall tmp, None ∈ old -> rehash i cap old tmp = Err NullDeref.
Proof.
  induction old as [|[e|] old IH]; intros tmp Hin; [by apply not_elem_of_nil in Hin| |done].
  cbn. apply IH. by apply elem_of_cons in Hin as [?|].
Qed.
Lemma rehash_full i cap old : forall tmp, None ∉ old -> exists t, rehash i cap old tmp = Ok t.
Proof.
  induction old as [|[e|] old IH]; intros tmp Hn; [by eexists| |by destruct Hn; left].
  cbn. apply IH. set_solver.
Qed.

Lemma resize_faults h : empty_slot h -> __resize h = Err NullDeref.
Proof.
  intros (i & j & Hj%list_elem_of_lookup_2). unfold __resize. rewrite (bind_ok _ _ _ h h) by done.
  set (cap := i32 (2 * capacity h)). set (new := replicate (Z.to_nat cap) None). unfold bind at 1.
  destruct (decide (None ∈ table false h)) as [H0|H0]; [by rewrite rehash_null|].
  destruct (rehash_full false cap _ new H0) as [t Et]. rewrite Et. unfold bind at 1.
  destruct i; [|done]. change (table true (set_table false t h)) with (table true h). by rewrite rehash_null.
Qed.

Lemma insert_ok h k v : hash_ok h -> (forall e, has h e -> ekey e <> k) -> empty_slot h ->
  (exists h', hash_insert k v h = Ok (0, h') /\ hash_ok h' /\
     forall e, has h' e <-> e = mk_entry k v \/ has h e) \/
  hash_insert k v h = Err NullDeref.
Proof.
  intros O Habs Hem. destruct (add_loop_ok LIMIT false h (mk_entry k v) O Habs) as (r & h' & E & O' & Hr).
  unfold hash_insert, __add. rewrite (bind_ok _ _ _ _ _ E). destruct r as [code|e1].
  - destruct Hr as [-> Hr]. left. exists h'. by split_and!.
  - right. unfold bind. by rewrite resize_faults by auto.
Qed.

(** ** Lookup *)

Definition look (key : Z) (remove : bool) (i : bool) : ST hash_t (option Z) :=
  let! h := get in
  let pos := hpos i key (capacity h) in
  let! e := hslot i pos in
  match e with
  | Some e => if ekey e =? key then
                do! (if remove then set_hslot i pos None else ret tt) in ret (Some (evalue e))
              else ret None
  | None => ret None
  end.

(** [h'] is [h] without the key [k] if [remove]. *)
Definition forgets (remove : bool) (k : Z) (h h' : hash_t) : Prop :=
  hash_ok h' /\ forall e, has h' e <-> has h e /\ (remove = true -> ekey e <> k).

Lemma look_ok h k remove i : hash_ok h ->
  (exists v h', look k remove i h = Ok (Some v, h') /\ has h (mk_entry k v) /\ forgets remove k h h') \/
  (look k remove i h = Ok (None, h) /\ forall j e, occ h i j e -> ekey e <> k).
Proof.
  intros O. unfold look. rewrite (bind_ok _ _ _ h h) by done. set (pos := hpos i k (capacity h)).
  pose proof (hpos_lt h i k O) as Hp. fold pos in Hp.
  destruct (hslot_ok h i pos Hp) as (x & Es & Hx). rewrite (bind_ok _ _ _ _ _ Es).
  assert (forall j e, occ h i j e -> ekey e = k -> x = Some e) as Hfind.
  { intros j e He Ek. pose proof (ho_pos _ O _ _ _ He) as Ej. rewrite Ek in Ej. fold pos in Ej. subst j.
    unfold occ in He. congruence. }
  destruct x as [e|]; [|right; split; [done|]; intros j e He Ek; by specialize (Hfind j e He Ek)].
  destruct (Z.eqb_spec (ekey e) k) as [Ek|Hne].
  2: { right. split; [done|]. intros j e' He' Ek. specialize (Hfind j e' He' Ek). congruence. }
  left. assert (e = mk_entry k (evalue e)) as Ee by (destruct e; cbn in *; by subst).
  assert (occ h i pos e) as Hocc by done.
  destruct remove.
  - rewrite (bind_ok _ _ _ _ _ (set_hslot_ok h i pos None Hp)). eexists (evalue e), _. split_and!; [done|rewrite <- Ee; by exists i, pos|].
    split.
    + split.
      * rewrite set_table_cap. apply O.
      * intros i'. rewrite set_table_len, set_table_cap. apply O.
      * intros i' j e' He. rewrite set_table_cap. apply occ_set in He as [(_ & _ & [=])|[_ He]]; [by apply O|done].
      * intros i1 j1 e1 i2 j2 e2 H1 H2. apply occ_set in H1 as [(_ & _ & [=])|[_ H1]]; [|done].
        apply occ_set in H2 as [(_ & _ & [=])|[_ H2]]; [|done]. by apply (ho_uniq _ O).
    + intros e'. split.
      * intros (i' & j & He). apply occ_set in He as [(_ & _ & [=])|[Hn He]]; [|done]. split; [by exists i', j|].
        intros _ Ek'. apply Hn. apply (ho_uniq _ O i' j e' i pos e); congruence || done.
      * intros [(i' & j & He) Hk]. exists i', j. apply occ_set; [done|]. right. split; [|done].
        intros [-> ->]. apply Hk; [done|]. unfold occ in He. congruence.
  - exists (evalue e), h. split_and!; [done|rewrite <- Ee; by exists i, pos|]. split; [done|]. naive_solver.
Qed.

Lemma get_ok h k remove : hash_ok h ->
  (exists v h', hash_get k remove h = Ok (Some v, h') /\ has h (mk_entry k v) /\ forgets remove k h h') \/
  (hash_get k remove h = Ok (None, h) /\ forall e, has h e -> ekey e <> k).
Proof.
  intros O. change (hash_get k remove) with
    (let! r := look k remove false in match r with Some v => ret (Some v) | None => look k remove true end).
  destruct (look_ok h k remove false O) as [(v & h' & E & Hv & Hf)|[E Hn]]; rewrite (bind_ok _ _ _ _ _ E).
  { left. by exists v, h'. }
  destruct (look_ok h k remove true O) as [(v & h' & E' & Hv & Hf)|[E' Hn']].
  - left. by exists v, h'.
  - right. split; [done|]. intros e (i & j & He). destruct i; [by eapply Hn'|by eapply Hn].
Qed.

Lemma has_functional h k v v' : hash_ok h -> has h (mk_entry k v) -> has h (mk_entry k v') -> v = v'.
Proof.
  intros O (i & j & H1) (i' & j' & H2). destruct (ho_uniq _ O _ _ _ _ _ _ H1 H2 eq_refl) as [<- <-].
  unfold occ in *. congruence.
Qed.

(** What a lookup that does not remove returns. *)
Lemma get_value h k : hash_ok h ->
  exists r, hash_get k false h = Ok (r, h) /\ forall v, r = Some v <-> has h (mk_entry k v).
Proof.
  intros O. destruct (get_ok h k false O) as [(v & h' & E & Hv & _)|[E Hn]].
  - exists (Some v). assert (h' = h) as ->.
    { unfold hash_get in E. revert E. unfold bind, get, hslot, ret.
      repeat case_match; intros; simplify_eq; done. }
    split; [done|]. intros v'. split; [by intros [= <-]|]. intros Hv'. f_equal. by eapply has_functional.
  - exists None. split; [done|]. intros v. split; [done|]. intros Hv. by destruct (Hn _ Hv).
Qed.

(** ** The theorems *)

(** Inserting a key that is absent, while an array slot is free, either
    stores the entry, keeps all others and every entry where the lookup
    functions search it, or runs out of displacements, enlarges the arrays and
    dereferences a null pointer there. *)
Theorem hash_insert_new h k v : hash_ok h -> (forall e, has h e -> ekey e <> k) -> empty_slot h ->
  (exists h', hash_insert k v h = Ok (0, h') /\ hash_ok h' /\
     forall e, has h' e <-> e = mk_entry k v \/ has h e) \/
  hash_insert k v h = Err NullDeref.
Proof. apply insert_ok. Qed.

(** C25: after a successful insertion of an absent key, looking the key up gives
    the value, every other key gives what it gave before, and removing the key
    gives the value and leaves the entries there were before. *)
Theorem hash_insert_get h k v h' : hash_ok h -> (forall e, has h e -> ekey e <> k) -> empty_slot h ->
  hash_insert k v h = Ok (0, h') ->
  hash_get k false h' = Ok (Some v, h') /\
  (forall k', k' <> k -> exists r, hash_get k' false h = Ok (r, h) /\ hash_get k' false h' = Ok (r, h')) /\
  exists h'', hash_get k true h' = Ok (Some v, h'') /\ hash_ok h'' /\ forall e, has h'' e <-> has h e.
Proof.
  intros O Habs Hem E. destruct (insert_ok h k v O Habs Hem) as [(h1 & E1 & O1 & Hh)|E1]; [|congruence].
  assert (h1 = h') as -> by congruence. split_and!.
  - destruct (get_value h' k O1) as (r & Er & Hr). rewrite Er. do 2 f_equal. apply Hr, Hh. by left.
  - intros k' Hne. destruct (get_value h k' O) as (r & Er & Hr), (get_value h' k' O1) as (r' & Er' & Hr').
    exists r. split; [done|]. rewrite Er'. do 2 f_equal. apply option_eq. intros v'. rewrite Hr, Hr', Hh.
    naive_solver.
  - destruct (get_ok h' k true O1) as [(v' & h'' & E' & Hv & O' & Hf)|[_ Hn]].
    + assert (v' = v) as -> by (eapply has_functional; [exact O1|exact Hv|apply Hh; by left]).
      exists h''. split_and!; [done|done|]. intros e. rewrite Hf, Hh. naive_solver.
    + by destruct (Hn (mk_entry k v)); [apply Hh; by left|].
Qed.

(** Enlarging dereferences a null pointer unless every slot of both arrays
    is taken. *)
Theorem hash_resize_faults h : empty_slot h -> __resize h = Err NullDeref.
Proof. apply resize_faults. Qed.

(** ** Examples *)

Definition hash_new : hash_t := mk_hash false CAPACITY (replicate 128 None) (replicate 128 None).

Lemma hash_new_init h : hash_init h = Ok (tt, set_hlock (hlock h) hash_new).
Proof. reflexivity. Qed.

Lemma hash_new_ok : hash_ok hash_new /\ (forall e, ~ has hash_new e) /\ empty_slot hash_new.
Proof.
  assert (forall i j e, ~ occ hash_new i j e) as Hno.
  { intros i j e He. unfold occ in He.
    assert (table i hash_new = replicate 128 None) as Et by (by destruct i). rewrite Et in He.
    apply lookup_replicate in He as [[=] _]. }
  split_and!.
  - split; [done|by intros []| |]; intros i j e; [|intros i' j' e']; intros He; by destruct (Hno i j e).
  - by intros e (i & j & He%Hno).
  - by exists false, 0%nat.
Qed.

Lemma hash_insert_new_witness :
  (exists h', hash_insert 5 50 hash_new = Ok (0, h') /\ hash_ok h' /\
     forall e, has h' e <-> e = mk_entry 5 50 \/ has hash_new e) \/
  hash_insert 5 50 hash_new = Err NullDeref.
Proof.
  destruct hash_new_ok as (H1 & H2 & H3). apply (hash_insert_new hash_new 5 50 H1); [|exact H3].
  intros e He. destruct (H2 e He).
Defined.

Definition after_insert (k v : Z) (h : hash_t) : hash_t :=
  match hash_insert k v h with Ok (_, h') => h' | Err _ => h end.

Lemma hash_insert_get_witness :
  hash_get 5 false (after_insert 5 50 hash_new) = Ok (Some 50, after_insert 5 50 hash_new) /\
  (forall k', k' <> 5 -> exists r, hash_get k' false hash_new = Ok (r, hash_new) /\
     hash_get k' false (after_insert 5 50 hash_new) = Ok (r, after_insert 5 50 hash_new)) /\
  exists h'', hash_get 5 true (after_insert 5 50 hash_new) = Ok (Some 50, h'') /\ hash_ok h'' /\
    forall e, has h'' e <-> has hash_new e.
Proof.
  destruct hash_new_ok as (H1 & H2 & H3).
  apply (hash_insert_get hash_new 5 50 (after_insert 5 50 hash_new) H1).
  - intros e He. destruct (H2 e He).
  - exact H3.
  - vm_compute. reflexivity.
Defined.

Lemma hash_resize_faults_witness : __resize hash_new = Err NullDeref.
Proof. apply (hash_resize_faults hash_new). apply hash_new_ok. Defined.

(** Three keys that differ by 128 are enough. *)
Example three_keys_crash :
  hash_insert 256 3 (after_insert 128 2 (after_insert 0 1 hash_new)) = Err NullDeref.
Proof. vm_compute. reflexivity. Qed.

(** Inserting a key again can report the duplicate and yet replace the value. *)
Example duplicate_replaces :
  match hash_insert 0 7 (after_insert 128 2 (after_insert 0 1 hash_new)) with
  | Ok (code, h) => code = -1 /\ hash_get 0 false h = Ok (Some 7, h)
  | Err _ => False
  end.
Proof. vm_compute. split; reflexivity. Qed.
