(* ===== verification/FutexLock.v ===== *)
(** * The futex lock (src/futex_lock.c, include/inter/futex_lock.h)

    The lock behind [lock_acquire] and [lock_release] in a build with
    ENABLE_FUTEX.  Any number of threads use one lock; every access to
    [lock->key] and every system call is a step, and the steps of the threads
    interleave freely.

    [lock_next], [unlock_next] and [trylock_next] are the three functions as
    programs over a program counter: the new key and the new place, from the
    key read.  The system calls follow futex(2): FUTEX_WAIT goes to sleep only
    while the key has the value given, FUTEX_WAKE wakes one sleeper, any, if
    there is one, and a sleeper may also return on its own (a signal). *)

From S2P Require Import Prelude.

Definition MUTEX_UNLOCKED : Z := 0.
Definition MUTEX_LOCKED : Z := 1.
Definition MUTEX_SLEEPING : Z := 2.
Definition ACTIVE_SPIN : nat := 4.
Definition PASSIVE_SPIN : nat := 1.

(** Where a thread is; [wait] and [i] are the variables of the function. *)
Inductive pc : Type :=
| f_idle                               (* outside, without the lock *)
| f_enter                              (* before the first exchange *)
| f_active (wait : Z) (i : nat)        (* first loop, before reading the key *)
| f_active_cas (wait : Z) (i : nat)    (* ... before the compare-and-swap *)
| f_passive (wait : Z) (i : nat)       (* second loop *)
| f_passive_cas (wait : Z) (i : nat)
| f_sleep                              (* before exchanging MUTEX_SLEEPING *)
| f_wait                               (* before FUTEX_WAIT *)
| f_blocked                            (* asleep in FUTEX_WAIT *)
| f_held                               (* outside, with the lock *)
| f_unlock                             (* before the exchange of unlock *)
| f_wake                               (* before FUTEX_WAKE *)
| f_try                                (* before the compare-and-swap of trylock *)
| f_failed.                            (* the assertion of unlock failed *)

#[export] Instance pc_eq_dec : EqDecision pc.
Proof. solve_decision. Defined.

(** [_coroc_futex_lock] *)
Definition lock_next (key : Z) (p : pc) : option (Z * pc) :=
  match p with
  | f_enter => Some (MUTEX_LOCKED, if key =? MUTEX_UNLOCKED then f_held else f_active key 0)
  | f_active wait i =>
      if (i <? ACTIVE_SPIN)%nat
      then Some (key, if key =? MUTEX_UNLOCKED then f_active_cas wait i else f_active wait (S i))
      else Some (key, f_passive wait 0)
  | f_active_cas wait i =>
      if key =? MUTEX_UNLOCKED then Some (wait, f_held) else Some (key, f_active wait i)
  | f_passive wait i =>
      if (i <? PASSIVE_SPIN)%nat
      then Some (key, if key =? MUTEX_UNLOCKED then f_passive_cas wait i else f_passive wait (S i))
      else Some (key, f_sleep)
  | f_passive_cas wait i =>
      if key =? MUTEX_UNLOCKED then Some (wait, f_held) else Some (key, f_passive wait i)
  | f_sleep => Some (MUTEX_SLEEPING, if key =? MUTEX_UNLOCKED then f_held else f_wait)
  | f_wait => Some (key, if key =? MUTEX_SLEEPING then f_blocked else f_active MUTEX_SLEEPING 0)
  | _ => None
  end.

(** [_coroc_futex_unlock], up to the system call *)
Definition unlock_next (key : Z) (p : pc) : option (Z * pc) :=
  match p with
  | f_unlock => Some (MUTEX_UNLOCKED,
                      if key =? MUTEX_UNLOCKED then f_failed
                      else if key =? MUTEX_SLEEPING then f_wake else f_idle)
  | _ => None
  end.

(** [_coroc_futex_trylock] *)
Definition trylock_next (key : Z) (p : pc) : option (Z * pc) :=
  match p with
  | f_try => if key =? MUTEX_UNLOCKED then Some (MUTEX_LOCKED, f_held) else Some (key, f_idle)
  | _ => None
  end.

Record fstate := mk_f { key : Z; pcs : list pc }.

Definition goto (i : nat) (k : Z) (p : pc) (s : fstate) : fstate := mk_f k (<[i := p]> (pcs s)).

Definition next (k : Z) (p : pc) : option (Z * pc) :=
  match lock_next k p with
  | Some r => Some r
  | None => match unlock_next k p with Some r => Some r | None => trylock_next k p end
  end.

(** Steps inside the functions. *)
Inductive istep (s : fstate) : fstate -> Prop :=
| is_run i p k' p' : pcs s !! i = Some p -> next (key s) p = Some (k', p') ->
    istep s (goto i k' p' s)
| is_wake i j : pcs s !! i = Some f_wake -> pcs s !! j = Some f_blocked ->
    istep s (goto j (key s) (f_active MUTEX_SLEEPING 0) (goto i (key s) f_idle s))
| is_wake_none i : pcs s !! i = Some f_wake -> f_blocked ∉ pcs s ->
    istep s (goto i (key s) f_idle s)
| is_return i : pcs s !! i = Some f_blocked ->
    istep s (goto i (key s) (f_active MUTEX_SLEEPING 0) s).

(** Calls: a thread locks or tries to lock while it has not got the lock, and
    unlocks while it has. *)
Inductive fstep (s : fstate) : fstate -> Prop :=
| fs_step s' : istep s s' -> fstep s s'
| fs_lock i : pcs s !! i = Some f_idle -> fstep s (goto i (key s) f_enter s)
| fs_trylock i : pcs s !! i = Some f_idle -> fstep s (goto i (key s) f_try s)
| fs_unlock i : pcs s !! i = Some f_held -> fstep s (goto i (key s) f_unlock s).

(** [_coroc_futex_init]: [n] threads that have not called anything yet. *)
Definition _coroc_futex_init (n : nat) : fstate := mk_f MUTEX_UNLOCKED (replicate n f_idle).

(** ** The invariant *)

(** The thread has the lock. *)
Definition holds (p : pc) : bool := match p with f_held | f_unlock => true | _ => false end.

(** The thread will leave [MUTEX_SLEEPING] in the key when it gets the lock,
    or is going to wake a sleeper. *)
Definition aware (p : pc) : bool :=
  match p with
  | f_active w _ | f_active_cas w _ | f_passive w _ | f_passive_cas w _ => w =? MUTEX_SLEEPING
  | f_sleep | f_wait | f_wake => true
  | _ => false
  end.

(** The value a waiter stores is one of the two locked ones. *)
Definition wait_ok (p : pc) : bool :=
  match p with
  | f_active w _ | f_active_cas w _ | f_passive w _ | f_passive_cas w _ =>
      (w =? MUTEX_LOCKED) || (w =? MUTEX_SLEEPING)
  | f_failed => false
  | _ => true
  end.

Definition valid_key (k : Z) : Prop := k = MUTEX_UNLOCKED \/ k = MUTEX_LOCKED \/ k = MUTEX_SLEEPING.

Record futex_inv (s : fstate) : Prop := {
  fi_key : valid_key (key s);
  fi_wait : forall i p, pcs s !! i = Some p -> wait_ok p;
  fi_one : forall i j p q, pcs s !! i = Some p -> pcs s !! j = Some q -> holds p -> holds q -> i = j;
  fi_held : key s <> MUTEX_UNLOCKED <-> exists i p, pcs s !! i = Some p /\ holds p;
  fi_aware : f_blocked ∈ pcs s ->
    key s = MUTEX_SLEEPING \/ exists i p, pcs s !! i = Some p /\ aware p
}.

(** A step of one thread, as the lock sees it: the thread takes the lock when
    it is free, or gives it up, or neither. *)
Record safe_move (k : Z) (p : pc) (k' : Z) (p' : pc) : Prop := {
  sm_key : valid_key k';
  sm_wait : wait_ok p';
  sm_take : holds p' -> holds p \/ k = MUTEX_UNLOCKED;
  sm_free : k' = MUTEX_UNLOCKED <-> (holds p = true \/ k = MUTEX_UNLOCKED) /\ holds p' = false
}.

(** ... and as the sleepers see it. *)
Record live_move (k : Z) (p : pc) (k' : Z) (p' : pc) : Prop := {
  lm_block : p' = f_blocked -> k' = MUTEX_SLEEPING;
  lm_aware : aware p -> aware p' \/ k' = MUTEX_SLEEPING;
  lm_sleeping : k = MUTEX_SLEEPING -> k' = MUTEX_SLEEPING \/ aware p'
}.

Ltac by_cases :=
  repeat (case_match; simplify_eq/=);
  repeat match goal with H : (_ =? _) = true |- _ => apply Z.eqb_eq in H; subst end;
  repeat match goal with H : (_ =? _) = false |- _ => apply Z.eqb_neq in H end.

Lemma next_safe k p k' p' : valid_key k -> wait_ok p -> (holds p -> k <> MUTEX_UNLOCKED) ->
  next k p = Some (k', p') -> safe_move k p k' p' /\ live_move k p k' p'.
Proof.
  intros [ -> | [ -> | -> ]] Hw Hh E; destruct p; unfold next in E; cbn in *; by_cases;
    try apply orb_True in Hw; unfold MUTEX_UNLOCKED, MUTEX_LOCKED, MUTEX_SLEEPING, valid_key in *;
    repeat match goal with H : Is_true (_ =? _) \/ _ |- _ =>
      destruct H as [H|H]; apply Is_true_true, Z.eqb_eq in H; subst end;
    try done; try (by destruct Hh);
    split; split; cbn; unfold valid_key, MUTEX_UNLOCKED, MUTEX_LOCKED, MUTEX_SLEEPING; naive_solver lia.
Qed.

Section moves.
Context (s : fstate) (i : nat) (p : pc) (k' : Z) (p' : pc).
Hypothesis (I : futex_inv s) (Hi : pcs s !! i = Some p).

Let s' := goto i k' p' s.

Lemma goto_at : pcs s' !! i = Some p'.
Proof. apply list_lookup_insert_eq. by eapply lookup_lt_Some. Qed.

Lemma goto_cases j q : pcs s' !! j = Some q -> (j = i /\ q = p') \/ (j <> i /\ pcs s !! j = Some q).
Proof.
  destruct (decide (j = i)) as [->|Hne]; [rewrite goto_at; naive_solver|].
  cbn. rewrite list_lookup_insert_ne by done. eauto.
Qed.

Lemma goto_ne j q : j <> i -> pcs s !! j = Some q -> pcs s' !! j = Some q.
Proof. intros. cbn. by rewrite list_lookup_insert_ne. Qed.

(** Nobody but [i] has the lock when [i] has it or the key is free. *)
Lemma alone j q : holds p \/ key s = MUTEX_UNLOCKED -> j <> i -> pcs s !! j = Some q -> ~ holds q.
Proof.
  intros [Hp|Hk] Hne Hj Hq; [by apply Hne; eapply (fi_one _ I)|].
  apply (fi_held _ I); [|done]. eauto.
Qed.

Lemma move_inv : safe_move (key s) p k' p' ->
  (f_blocked ∈ pcs s' -> k' = MUTEX_SLEEPING \/ exists j q, pcs s' !! j = Some q /\ aware q) ->
  futex_inv s'.
Proof.
  intros [Mk Mw Mt Mf] Ha. split; [done| | | |done].
  - intros j q [[-> ->]|[_ Hj]]%goto_cases; [done|by eapply (fi_wait _ I)].
  - intros j1 j2 q1 q2 [[-> ->]|[N1 H1]]%goto_cases [[-> ->]|[N2 H2]]%goto_cases Q1 Q2; [done|..].
    + destruct (alone j2 q2); auto.
    + destruct (alone j1 q1); auto.
    + by eapply (fi_one _ I).
  - cbn. rewrite Mf. split.
    + intros Hn. destruct (holds p') eqn:Ep'; [exists i, p'; split; [apply goto_at|]; rewrite Ep'; done|].
      destruct (proj1 (fi_held _ I)) as (j & q & Hj & Hq); [naive_solver|].
      exists j, q. split; [|done]. apply goto_ne; [|done]. intros ->.
      assert (q = p) as -> by congruence. apply Is_true_true in Hq. tauto.
    + intros (j & q & [[-> ->]|[Hne Hj]]%goto_cases & Hq) [Hc Hp'].
      * by rewrite Hp' in Hq.
      * refine (alone j q _ Hne Hj Hq). destruct Hc as [Hc|Hc]; [left; by rewrite Hc|by right].
Qed.

Lemma move_aware : live_move (key s) p k' p' -> f_blocked ∈ pcs s' ->
  k' = MUTEX_SLEEPING \/ exists j q, pcs s' !! j = Some q /\ aware q.
Proof.
  intros [Lb La Ls] (j & Hj)%list_elem_of_lookup.
  destruct (goto_cases _ _ Hj) as [[-> Hp']|[Hne Hj']]; [auto|].
  destruct (fi_aware _ I) as [Hk|(j2 & q & Hj2 & Hq)]; [by eapply list_elem_of_lookup_2| |].
  - destruct (Ls Hk); [auto|]. right. exists i, p'. split; [apply goto_at|done].
  - destruct (decide (j2 = i)) as [->|]; [|right; exists j2, q; split; [by apply goto_ne|done]].
    assert (q = p) as -> by congruence. destruct (La Hq); [|auto].
    right. exists i, p'. split; [apply goto_at|done].
Qed.
End moves.

Lemma same_safe s i p p' : futex_inv s -> pcs s !! i = Some p -> wait_ok p' -> holds p' = holds p ->
  safe_move (key s) p (key s) p'.
Proof.
  intros I Hi Hw Hh. split; [apply I|done|rewrite Hh; auto|]. rewrite Hh.
  split; [|intros [[?|?] ?]; congruence]. intros Hk. split; [by right|]. destruct (holds p) eqn:E; [|done].
  destruct (proj2 (fi_held _ I)); [|done]. exists i, p. by rewrite E.
Qed.

(** A step that leaves the key alone. *)
Lemma same_inv s i p p' : futex_inv s -> pcs s !! i = Some p -> wait_ok p' -> holds p' = holds p ->
  p' <> f_blocked -> (aware p -> aware p') -> futex_inv (goto i (key s) p' s).
Proof.
  intros I Hi Hw Hh Hb Ha. eapply move_inv; [done|done|by eapply same_safe|].
  eapply move_aware; [done|done|]. split; [done|auto|auto].
Qed.

Lemma istep_inv s s' : futex_inv s -> istep s s' -> futex_inv s'.
Proof.
  intros I St. destruct St as [i p k' p' Hi E|i j Hi Hj|i Hi Hn|i Hi].
  - destruct (next_safe (key s) p k' p') as [Ms Ml]; [apply I|by eapply (fi_wait _ I)| |done|].
    + intros Hh. apply (fi_held _ I). eauto.
    + eapply move_inv; [done..|]. by eapply move_aware.
  - assert (i <> j) as Hne by congruence.
    assert (futex_inv (goto j (key s) (f_active MUTEX_SLEEPING 0) s)) as I'
      by (by eapply same_inv).
    unfold goto at 1 2. cbn. rewrite list_insert_insert_ne by done.
    change (futex_inv (goto i (key s) f_idle (goto j (key s) (f_active MUTEX_SLEEPING 0) s))).
    assert (pcs (goto j (key s) (f_active MUTEX_SLEEPING 0) s) !! i = Some f_wake) as Hi'
      by (by apply goto_ne).
    eapply move_inv; [done|done|by apply (same_safe _ _ _ f_idle I' Hi')|]. intros _. right.
    exists j, (f_active MUTEX_SLEEPING 0). split; [|done]. apply goto_ne; [done|]. by eapply goto_at.
  - eapply move_inv; [done|done|by eapply same_safe|].
    intros (j & Hj)%list_elem_of_lookup. exfalso. apply Hn.
    eapply goto_cases in Hj as [[_ ?]|[_ Hj]]; [done|by eapply list_elem_of_lookup_2|done].
  - by eapply same_inv.
Qed.

Lemma fstep_inv s s' : futex_inv s -> fstep s s' -> futex_inv s'.
Proof. intros I [? ?|i Hi|i Hi|i Hi]; [by eapply istep_inv|by eapply same_inv..]. Qed.

Lemma init_inv n : futex_inv (_coroc_futex_init n).
Proof.
  split; cbn; [by left| | | |].
  - by intros i p [-> _]%lookup_replicate.
  - by intros i j p q [-> _]%lookup_replicate.
  - split; [done|]. by intros (i & p & [-> _]%lookup_replicate & ?).
  - by intros ?%elem_of_replicate_inv.
Qed.

Lemma reach_inv n s : rtc fstep (_coroc_futex_init n) s -> futex_inv s.
Proof. generalize (init_inv n). intros I R. induction R; eauto using fstep_inv. Qed.

(** ** The abstract lock *)

(** [None]: free; [Some i]: thread [i] has it. *)
Definition holder (s : fstate) : option nat := fst <$> list_find (fun p => Is_true (holds p)) (pcs s).

Lemma holder_spec s i : futex_inv s ->
  holder s = Some i <-> exists p, pcs s !! i = Some p /\ holds p.
Proof.
  intros I. unfold holder. split.
  - intros ([j p] & (Hj & Hp & _)%list_find_Some & ->)%fmap_Some. eauto.
  - intros (p & Hi & Hp). destruct (list_find _ (pcs s)) as [[j q]|] eqn:E;
      [|apply list_find_None in E; rewrite Forall_lookup in E; by destruct (E i p Hi)]. cbn. f_equal.
    apply list_find_Some in E as (Hj & Hq & _). by eapply (fi_one _ I).
Qed.

Lemma holder_none s : futex_inv s -> holder s = None <-> key s = MUTEX_UNLOCKED.
Proof.
  intros I. destruct (decide (key s = MUTEX_UNLOCKED)) as [Hk|Hk].
  - split; [done|]. intros _. destruct (holder s) as [i|] eqn:E; [|done].
    apply holder_spec in E as (p & ? & ?); [|done]. destruct (proj2 (fi_held _ I)); eauto.
  - split; [|done]. intros E. apply (fi_held _ I) in Hk as (i & p & ? & ?).
    assert (holder s = Some i) by (apply holder_spec; eauto). congruence.
Qed.

Inductive lock_spec : option nat -> option nat -> Prop :=
| ls_acquire i : lock_spec None (Some i)
| ls_release i : lock_spec (Some i) None.

(** Who has the lock after a step had it before, or took it when it was free. *)
Lemma taken s s' j q : futex_inv s -> fstep s s' -> pcs s' !! j = Some q -> holds q ->
  (exists p, pcs s !! j = Some p /\ holds p) \/ key s = MUTEX_UNLOCKED.
Proof.
  intros I St Hj Hq.
  destruct St as [s' [i p k' p' Hi E|i i' Hi Hi'|i Hi _|i Hi]|i Hi|i Hi|i Hi];
    try (eapply goto_cases in Hj as [[-> ->]|[_ Hj]]; [..|done]; by eauto).
  - eapply goto_cases in Hj as [[-> ->]|[_ Hj]]; [..|done]; [|eauto].
    destruct (next_safe (key s) p k' p') as [Ms _]; [apply I|by eapply (fi_wait _ I)| |done|].
    + intros Hh. apply (fi_held _ I). eauto.
    + destruct (sm_take _ _ _ _ Ms Hq); eauto.
  - cbn in Hj. apply list_lookup_insert_Some in Hj as [(_ & <- & _)|[_ Hj]]; [done|].
    apply list_lookup_insert_Some in Hj as [(_ & <- & _)|[_ Hj]]; [done|]. eauto.
Qed.

Lemma step_refines s s' : futex_inv s -> fstep s s' ->
  holder s' = holder s \/ lock_spec (holder s) (holder s').
Proof.
  intros I St. pose proof (fstep_inv _ _ I St) as I'.
  destruct (holder s) as [i|] eqn:E, (holder s') as [j|] eqn:E'; [|right; constructor..|by left].
  left. f_equal. apply holder_spec in E' as (q & Hj & Hq); [|done].
  destruct (taken s s' j q I St Hj Hq) as [Hs|Hk].
  - apply holder_spec in Hs; [congruence|done].
  - apply holder_none in Hk; [congruence|done].
Qed.

(** ** Progress *)

(** The thread is inside [_coroc_futex_lock]. *)
Definition wants (p : pc) : bool :=
  match p with
  | f_enter | f_active _ _ | f_active_cas _ _ | f_passive _ _ | f_passive_cas _ _
  | f_sleep | f_wait | f_blocked => true
  | _ => false
  end.

(** The steps a thread that is not asleep needs when the key is free and it
    runs alone. *)
Definition rank (p : pc) : nat :=
  match p with
  | f_active _ i => if (i <? ACTIVE_SPIN)%nat then 2 else 3
  | f_passive _ _ => 2
  | f_wait => 3
  | _ => 1
  end.

Definition running (p : pc) : Prop := wants p /\ p <> f_blocked.

Lemma free_step p : running p -> exists k' p', next MUTEX_UNLOCKED p = Some (k', p') /\
  (p' = f_held \/ k' = MUTEX_UNLOCKED /\ running p' /\ (rank p' < rank p)%nat).
Proof.
  intros [Hw Hb].
  destruct p as [| |w i|w i|w i|w i| | | | | | | |]; try done; unfold next, lock_next, rank; try (by eauto).
  - destruct (i <? ACTIVE_SPIN)%nat; do 2 eexists; (split; [done|]); right; unfold running; cbn; naive_solver lia.
  - destruct (i <? PASSIVE_SPIN)%nat; do 2 eexists; (split; [done|]); right; unfold running; cbn; naive_solver lia.
  - do 2 eexists; (split; [done|]). right. unfold running. cbn. naive_solver lia.
Qed.

Lemma rank_bounds p : (1 <= rank p <= 3)%nat.
Proof. unfold rank. destruct p; try lia. destruct (_ <? _)%nat; lia. Qed.

Lemma solo_takes m : forall s i p, (rank p <= m)%nat -> key s = MUTEX_UNLOCKED ->
  pcs s !! i = Some p -> running p ->
  exists n s', (n <= m)%nat /\ nsteps istep n s s' /\ pcs s' !! i = Some f_held.
Proof.
  induction m as [|m IH]; intros s i p Hm Hk Hi Hr.
  { pose proof (rank_bounds p). lia. }
  destruct (free_step p Hr) as (k' & p' & E & Hp'). rewrite <- Hk in E.
  assert (istep s (goto i k' p' s)) as St by (by eapply is_run).
  assert (pcs (goto i k' p' s) !! i = Some p') as Hi' by (by eapply goto_at).
  destruct Hp' as [->|(-> & Hr' & Hlt)].
  - exists 1%nat, (goto i k' f_held s). split_and!; [lia|by apply nsteps_once|done].
  - destruct (IH (goto i MUTEX_UNLOCKED p' s) i p') as (n & s' & ? & ? & ?); [lia|done..|].
    exists (S n), s'. split_and!; [lia|by eapply nsteps_l|done].
Qed.

(** The free lock gets to a thread that waits for it. *)
Lemma free_taken s i p : futex_inv s -> key s = MUTEX_UNLOCKED -> pcs s !! i = Some p -> wants p ->
  exists m s' j, (m <= 4)%nat /\ nsteps istep m s s' /\ pcs s' !! j = Some f_held /\
    exists q, pcs s !! j = Some q /\ wants q.
Proof.
  intros I Hk Hi Hw.
  assert (forall j q, pcs s !! j = Some q -> running q -> exists m s' j, (m <= 4)%nat /\
    nsteps istep m s s' /\ pcs s' !! j = Some f_held /\ exists q, pcs s !! j = Some q /\ wants q) as Hrun.
  { intros j q Hj Hr. destruct (solo_takes (rank q) s j q) as (m & s' & ? & ? & ?); [lia|done..|].
    pose proof (rank_bounds q). destruct Hr. exists m, s', j. split_and!; [lia|eauto..]. }
  destruct (decide (p = f_blocked)) as [->|Hb]; [|by eapply Hrun].
  destruct (fi_aware _ I) as [Hs|(j & q & Hj & Hq)];
    [by eapply list_elem_of_lookup_2|by rewrite Hk in Hs|].
  destruct (decide (q = f_wake)) as [->|Hn].
  - assert (i <> j) as Hne by congruence.
    pose proof (is_wake s j i Hj Hi) as St.
    destruct (solo_takes 3 (goto i (key s) (f_active MUTEX_SLEEPING 0) (goto j (key s) f_idle s)) i
                (f_active MUTEX_SLEEPING 0)) as (m & s' & ? & ? & ?); [cbn; lia|done| |done|].
    { eapply goto_at. by apply goto_ne. }
    exists (S m), s', i. split_and!; [lia|by eapply nsteps_l|done|eauto].
  - apply (Hrun j q); [done|]. unfold running. by destruct q.
Qed.

(** ** The theorems *)

(** C26: the futex lock is a lock.  Whatever any number of threads do with it, a
    step leaves the holder as it is, or gives the free lock to one thread, or
    takes it from its holder; two threads never have it at once, the key is
    MUTEX_UNLOCKED exactly when nobody has it, and the assertion of unlock does
    not fail. *)
Theorem futex_refines_lock n s s' : rtc fstep (_coroc_futex_init n) s -> fstep s s' ->
  (holder s' = holder s \/ lock_spec (holder s) (holder s')) /\
  (forall i j p q, pcs s' !! i = Some p -> pcs s' !! j = Some q -> holds p -> holds q -> i = j) /\
  (holder s' = None <-> key s' = MUTEX_UNLOCKED) /\ f_failed ∉ pcs s'.
Proof.
  intros R%reach_inv St. pose proof (fstep_inv _ _ R St) as I'. split_and!.
  - by apply step_refines.
  - apply I'.
  - by apply holder_none.
  - intros (i & Hi)%list_elem_of_lookup. by apply (fi_wait _ I') in Hi.
Qed.

(** No wake-up is lost.  In every state the threads can reach, when the
    lock is free and a thread waits for it, asleep in the kernel or not, then
    within four steps of threads that are already inside the functions one of
    the waiting threads has the lock. *)
Theorem futex_progress n s i p : rtc fstep (_coroc_futex_init n) s -> key s = MUTEX_UNLOCKED ->
  pcs s !! i = Some p -> wants p ->
  exists m s' j, (m <= 4)%nat /\ nsteps istep m s s' /\ pcs s' !! j = Some f_held /\
    exists q, pcs s !! j = Some q /\ wants q.
Proof.
  intros I%reach_inv. by apply free_taken.
Qed.

(** ** A run of two threads *)

(** Thread 0 takes the lock; thread 1 spins and goes to sleep; thread 0
    releases the lock and is about to wake it. *)
Ltac frun i := eapply rtc_l; [apply fs_step; eapply (is_run _ i); vm_compute; reflexivity|]; cbn [goto key pcs].
Ltac fcall c i := eapply rtc_l; [apply (c _ i); vm_compute; reflexivity|]; cbn [goto key pcs].

Definition asleep : fstate := mk_f MUTEX_SLEEPING [f_unlock; f_blocked].
Definition freed : fstate := mk_f MUTEX_UNLOCKED [f_wake; f_blocked].

Lemma asleep_reachable : rtc fstep (_coroc_futex_init 2) asleep.
Proof.
  unfold _coroc_futex_init. cbn [replicate].
  fcall fs_lock 0%nat. frun 0%nat. fcall fs_lock 1%nat. do 10 frun 1%nat. fcall fs_unlock 0%nat.
  apply rtc_refl.
Qed.

Lemma asleep_step : fstep asleep freed.
Proof. apply fs_step, (is_run asleep 0 f_unlock MUTEX_UNLOCKED f_wake); reflexivity. Qed.

Lemma futex_refines_lock_witness :
  (holder freed = holder asleep \/ lock_spec (holder asleep) (holder freed)) /\
  (forall i j p q, pcs freed !! i = Some p -> pcs freed !! j = Some q -> holds p -> holds q -> i = j) /\
  (holder freed = None <-> key freed = MUTEX_UNLOCKED) /\ f_failed ∉ pcs freed.
Proof. exact (futex_refines_lock 2 asleep freed asleep_reachable asleep_step). Defined.

Lemma futex_progress_witness : exists m s' j, (m <= 4)%nat /\ nsteps istep m freed s' /\
  pcs s' !! j = Some f_held /\ exists q, pcs freed !! j = Some q /\ wants q.
Proof.
  apply (futex_progress 2 freed 1 f_blocked); [|reflexivity|reflexivity|exact I].
  exact (rtc_r _ _ _ asleep_reachable asleep_step).
Defined.
