(* ===== verification/Group.v ===== *)
(** * Task groups (src/group.c, include/inter/coroc_group.h)

    A parent spawns subtasks into a group and waits for them.  Every atomic
    operation on the counters, every operation on the lock and every call of
    the scheduler is a step; the parent and the subtasks interleave freely.

    The scheduler's part is as small as the code needs it: [vpu_suspend] makes
    the parent WAIT and then releases the lock, and [vpu_ready] asserts that
    the coroutine it is given WAITs (Scheduler.v has the whole of both). *)

From S2P Require Import Prelude.

(** The parent: in its own code, or inside [coroc_group_sync]. *)
Inductive parent_pc : Type :=
| p_run            (* has not called [coroc_group_sync] *)
| p_lock           (* before [lock_acquire] *)
| p_check          (* with the lock, before reading the counter again *)
| p_set            (* ... before storing itself in [group->parent] *)
| p_suspend        (* ... before [vpu_suspend] *)
| p_wait           (* TSC_COROUTINE_WAIT *)
| p_done.          (* [coroc_group_sync] returned *)

(** A subtask: in its own code, or inside [coroc_group_notify]. *)
Inductive kid_pc : Type :=
| k_run            (* has not called [coroc_group_notify] *)
| k_dec            (* before decrementing the counter *)
| k_lock           (* saw zero, before [lock_acquire] *)
| k_read           (* with the lock, before reading [group->parent] *)
| k_unlock (par : bool)   (* ... before [lock_release]; [par]: parent is not NULL *)
| k_ready          (* before [vpu_ready(parent, true)] *)
| k_done           (* [coroc_group_notify] returned *)
| k_failed.        (* the assertion in [vpu_ready] failed *)

#[export] Instance parent_pc_eq_dec : EqDecision parent_pc.
Proof. solve_decision. Defined.
#[export] Instance kid_pc_eq_dec : EqDecision kid_pc.
Proof. solve_decision. Defined.

(** [struct coroc_group] with the parent, the subtasks and the values they
    passed to [coroc_group_notify] so far. *)
Record group := mk_group {
  count : Z;
  errors : Z;
  glock : bool;
  parent : bool;             (* not NULL *)
  ppc : parent_pc;
  kids : list kid_pc;
  retvals : list Z
}.

(** [coroc_group_init]: the parent counts as one. *)
Definition coroc_group_init : group := mk_group 1 0 false false p_run [] [].
(** [coroc_group_alloc]: a new one; it asserts that there was memory. *)
Definition coroc_group_alloc : group := coroc_group_init.

Definition set_ppc (p : parent_pc) (g : group) : group :=
  mk_group (count g) (errors g) (glock g) (parent g) p (kids g) (retvals g).
Definition set_kid (i : nat) (k : kid_pc) (g : group) : group :=
  mk_group (count g) (errors g) (glock g) (parent g) (ppc g) (<[i := k]> (kids g)) (retvals g).
Definition set_glock (b : bool) (g : group) : group :=
  mk_group (count g) (errors g) b (parent g) (ppc g) (kids g) (retvals g).
Definition set_parent (g : group) : group :=
  mk_group (count g) (errors g) (glock g) true (ppc g) (kids g) (retvals g).
Definition add_count (d : Z) (g : group) : group :=
  mk_group (u32 (count g + d)) (errors g) (glock g) (parent g) (ppc g) (kids g) (retvals g).
Definition add_retval (v : Z) (g : group) : group :=
  mk_group (count g) (if v =? 0 then errors g else u32 (errors g + 1)) (glock g) (parent g)
           (ppc g) (kids g) (retvals g ++ [v]).
Definition add_kid (g : group) : group :=
  mk_group (count g) (errors g) (glock g) (parent g) (ppc g) (kids g ++ [k_run]) (retvals g).

(** The parent, or a subtask that has not notified, spawns a subtask into the
    group ([coroc_group_add_task]); a process has fewer than 2^32 - 1 tasks. *)
Definition may_add (g : group) : Prop :=
  (ppc g = p_run \/ k_run ∈ kids g) /\ Z.of_nat (length (kids g)) < 2 ^ 32 - 2.

Inductive add_step (g : group) : group -> Prop :=
| coroc_group_add_task : may_add g -> add_step g (add_kid (add_count 1 g)).

(** [coroc_group_notify] of subtask [i] *)
Inductive notify_step (i : nat) (g : group) : group -> Prop :=
| ns_call retval : kids g !! i = Some k_run ->
    notify_step i g (set_kid i k_dec (add_retval retval g))
| ns_dec : kids g !! i = Some k_dec ->
    notify_step i g (set_kid i (if u32 (count g - 1) =? 0 then k_lock else k_done) (add_count (-1) g))
| ns_lock : kids g !! i = Some k_lock -> glock g = false ->
    notify_step i g (set_kid i k_read (set_glock true g))
| ns_read : kids g !! i = Some k_read ->
    notify_step i g (set_kid i (k_unlock (parent g)) g)
| ns_unlock par : kids g !! i = Some (k_unlock par) ->
    notify_step i g (set_kid i (if par then k_ready else k_done) (set_glock false g))
| ns_ready : kids g !! i = Some k_ready -> ppc g = p_wait ->
    notify_step i g (set_kid i k_done (set_ppc p_done g))
| ns_ready_assert : kids g !! i = Some k_ready -> ppc g <> p_wait ->
    notify_step i g (set_kid i k_failed g).

(** [coroc_group_sync]; the branch that finds the counter at zero returns
    without releasing the lock. *)
Inductive sync_step (g : group) : group -> Prop :=
| ss_dec : ppc g = p_run ->
    sync_step g (set_ppc (if 0 <? u32 (count g - 1) then p_lock else p_done) (add_count (-1) g))
| ss_lock : ppc g = p_lock -> glock g = false ->
    sync_step g (set_ppc p_check (set_glock true g))
| ss_check : ppc g = p_check ->
    sync_step g (set_ppc (if 0 <? count g then p_set else p_done) g)
| ss_set : ppc g = p_set ->
    sync_step g (set_ppc p_suspend (set_parent g))
| ss_suspend : ppc g = p_suspend ->
    sync_step g (set_ppc p_wait (set_glock false g)).

Inductive gstep (g : group) : group -> Prop :=
| gs_add g' : add_step g g' -> gstep g g'
| gs_notify i g' : notify_step i g g' -> gstep g g'
| gs_sync g' : sync_step g g' -> gstep g g'.

(** ** The invariant *)

(** Not yet counted off. *)
Definition live (k : kid_pc) : bool := match k with k_run | k_dec => true | _ => false end.
Definition runs (k : kid_pc) : bool := match k with k_run => true | _ => false end.
(** Inside the part of [coroc_group_notify] behind the counter. *)
Definition late (k : kid_pc) : bool :=
  match k with k_lock | k_read | k_unlock _ | k_ready => true | _ => false end.
Definition kid_locks (k : kid_pc) : bool := match k with k_read | k_unlock _ => true | _ => false end.
Definition par_locks (p : parent_pc) : bool := match p with p_check | p_set | p_suspend => true | _ => false end.
(** A subtask that will wake the parent if the parent is there to be woken. *)
Definition waker (k : kid_pc) : bool :=
  match k with k_lock | k_read | k_unlock true | k_ready => true | _ => false end.

Definition nonzero (v : Z) : bool := negb (v =? 0).

Record group_inv (g : group) : Prop := {
  gi_count : count g = Z.of_nat (count_if live (kids g)) + (if decide (ppc g = p_run) then 1 else 0);
  gi_bound : Z.of_nat (length (kids g)) < 2 ^ 32 - 1;
  gi_rets : (length (retvals g) + count_if runs (kids g) = length (kids g))%nat;
  gi_errors : errors g = Z.of_nat (count_if nonzero (retvals g));
  gi_late : forall i k, kids g !! i = Some k -> late k -> count g = 0 /\ ppc g <> p_run;
  gi_one : forall i j k k', kids g !! i = Some k -> kids g !! j = Some k' -> late k -> late k' -> i = j;
  gi_kid : forall i k, kids g !! i = Some k -> kid_locks k -> glock g = true /\ par_locks (ppc g) = false /\ ppc g <> p_done;
  gi_par : par_locks (ppc g) -> glock g = true;
  gi_parent : match ppc g with
              | p_suspend | p_wait => parent g = true
              | p_done => True
              | _ => parent g = false
              end;
  gi_unlock : forall i b, kids g !! i = Some (k_unlock b) -> ppc g = (if b then p_wait else p_lock);
  gi_ready : forall i, kids g !! i = Some k_ready -> ppc g = p_wait;
  gi_failed : k_failed ∉ kids g;
  gi_wait : ppc g = p_set \/ ppc g = p_suspend \/ ppc g = p_wait ->
    0 < count g \/ exists i k, kids g !! i = Some k /\ waker k;
  gi_done : ppc g = p_done -> count g = 0;
  gi_stuck : forall i, kids g !! i = Some k_lock -> ppc g = p_done -> glock g = true;
  gi_owner : glock g = true -> par_locks (ppc g) \/ ppc g = p_done \/
    exists i k, kids g !! i = Some k /\ kid_locks k
}.

Lemma u32_dec c : 0 < c < 2 ^ 32 -> u32 (c - 1) = c - 1.
Proof. intros. apply u32_small. lia. Qed.

Section inv.
Context (g : group) (I : group_inv g).

Lemma live_bound : 0 <= Z.of_nat (count_if live (kids g)) < 2 ^ 32 - 1.
Proof. pose proof (count_if_le live (kids g)). pose proof (gi_bound _ I). lia. Qed.

Lemma count_bound : 0 <= count g < 2 ^ 32.
Proof. pose proof live_bound. rewrite (gi_count _ I). case_decide; lia. Qed.

Lemma live_pos i k : kids g !! i = Some k -> live k -> 0 < count g.
Proof.
  intros Hi Hk. rewrite (gi_count _ I).
  pose proof (count_if_pos live _ k (list_elem_of_lookup_2 _ _ _ Hi) Hk). case_decide; lia.
Qed.

(** While a subtask is behind the counter, no other has to be counted off. *)
Lemma no_late : 0 < count g \/ ppc g = p_run -> forall i k, kids g !! i = Some k -> late k = false.
Proof.
  intros Hc i k Hi. destruct (late k) eqn:E; [|done].
  destruct (gi_late _ I i k Hi); [by rewrite E|]. naive_solver lia.
Qed.

Lemma rets_bound i k : kids g !! i = Some k -> k = k_run -> Z.of_nat (length (retvals g)) + 1 < 2 ^ 32.
Proof.
  intros Hi ->. pose proof (gi_rets _ I). pose proof (gi_bound _ I).
  pose proof (count_if_pos runs (kids g) k_run
    (list_elem_of_lookup_2 _ _ _ Hi) Logic.I). lia.
Qed.

Lemma others i k j q : kids g !! i = Some k -> late k -> j <> i -> kids g !! j = Some q -> late q = false.
Proof.
  intros Hi Hk Hne Hj. destruct (late q) eqn:E; [|done]. destruct Hne.
  eapply (gi_one _ I); [done..|by rewrite E|done].
Qed.

(** A subtask behind the counter does a step; the counters stay as they are. *)
Lemma kid_inv i k k' lk p : kids g !! i = Some k -> late k -> live k' = false -> k' <> k_failed -> k' <> k_lock ->
  p = ppc g \/ (p = p_done /\ ppc g = p_wait) ->
  (kid_locks k' -> lk = true /\ par_locks p = false /\ p <> p_done) ->
  (par_locks p -> lk = true) ->
  (forall b, k' = k_unlock b -> p = if b then p_wait else p_lock) ->
  (k' = k_ready -> p = p_wait) ->
  (waker k -> waker k' \/ p = p_lock \/ p = p_done) ->
  (lk = true -> kid_locks k' \/ p = p_done) ->
  group_inv (set_kid i k' (set_ppc p (set_glock lk g))).
Proof.
  intros Hi Hl Hl' Hf Hk' Hp Hkl Hpl Hu Hr Hw Hown.
  destruct (gi_late _ I i k Hi Hl) as [H0 Hnr].
  pose proof (count_if_insert live _ i k k' Hi) as Hc.
  pose proof (count_if_insert runs _ i k k' Hi) as Hd. cbn in Hd.
  replace (live k) with false in Hc by (by destruct k). rewrite Hl' in Hc.
  replace (runs k) with false in Hd by (by destruct k).
  replace (runs k') with false in Hd by (by destruct k').
  pose proof (gi_count _ I) as Gc. rewrite decide_False in Gc by done.
  assert (p <> p_run) as Hpr by naive_solver.
  assert (forall j q, <[i:=k']> (kids g) !! j = Some q -> (j = i /\ q = k') \/
    (kids g !! j = Some q /\ late q = false)) as Hcase.
  { intros j q [(<- & <- & _)|[Hne Hj]]%list_lookup_insert_Some; [by left|]. right. split; [done|].
    by eapply (others i k j). }
  split; cbn.
  - rewrite decide_False by done. lia.
  - rewrite length_insert. apply I.
  - rewrite length_insert. pose proof (gi_rets _ I). lia.
  - apply I.
  - done.
  - intros j1 j2 q1 q2 [[-> ->]|[_ H1]]%Hcase [[-> ->]|[_ H2]]%Hcase; [done|by rewrite ?H1, ?H2..].
  - intros j q [[-> ->]|[_ H1]]%Hcase Hq; [by apply Hkl|by destruct q].
  - done.
  - pose proof (gi_parent _ I). destruct Hp as [->|[-> _]]; [done|exact Logic.I].
  - intros j b [[-> ?]|[_ H1]]%Hcase; [by apply Hu|done].
  - intros j [[-> ?]|[_ H1]]%Hcase; [by apply Hr|done].
  - intros (j & [[-> ?]|[H1 _]]%Hcase)%list_elem_of_lookup; [done|].
    by eapply (gi_failed _ I), list_elem_of_lookup_2.
  - intros Hpp. right. exists i, k'. split; [apply list_lookup_insert_eq; by eapply lookup_lt_Some|].
    destruct (gi_wait _ I) as [?|(j & q & Hj & Hq)]; [naive_solver|lia|].
    assert (j = i) as ->.
    { destruct (decide (j = i)); [done|].
      pose proof (others i k j q Hi Hl). destruct q as [| | | |[]| | |]; naive_solver. }
    assert (q = k) as -> by congruence. naive_solver.
  - done.
  - by intros j [[_ ?]|[_ ?]]%Hcase.
  - intros [?|?]%Hown; [right; right; exists i, k'|auto].
    split; [apply list_lookup_insert_eq; by eapply lookup_lt_Some|done].
Qed.

(** A subtask that is not behind the counter yet does a step. *)
Lemma early_inv i k k' c e rs : kids g !! i = Some k -> live k ->
  (k' = k_dec /\ k = k_run \/ k' = (if c =? 0 then k_lock else k_done) /\ k = k_dec) ->
  c = count g - (if live k' then 0 else 1) ->
  (length rs = length (retvals g) + (if runs k then 1 else 0))%nat ->
  e = Z.of_nat (count_if nonzero rs) ->
  group_inv (mk_group c e (glock g) (parent g) (ppc g) (<[i := k']> (kids g)) rs).
Proof.
  intros Hi Hl Hk Hcc Hrs He.
  pose proof (live_pos i k Hi Hl) as Hpos.
  pose proof (count_if_insert live _ i k k' Hi) as Hc.
  pose proof (count_if_insert runs _ i k k' Hi) as Hd. cbn in Hd.
  replace (live k) with true in Hc by (by destruct k).
  replace (runs k') with false in Hd by (destruct Hk as [[-> _]|[-> _]]; [|case_match]; done).
  pose proof (gi_count _ I) as Gc.
  assert (forall j q, <[i:=k']> (kids g) !! j = Some q -> late q -> j = i /\ q = k') as Hcase.
  { intros j q [(<- & <- & _)|[Hne Hj]]%list_lookup_insert_Some Hq; [done|].
    rewrite (no_late (or_introl Hpos) j q Hj) in Hq. done. }
  assert (late k' -> k' = k_lock /\ c = 0 /\ ppc g <> p_run) as Hlate.
  { destruct Hk as [[-> ->]|[-> ->]]; [done|]. destruct (Z.eqb_spec c 0); [|done].
    intros _. split_and!; [done|done|]. intros Hr. rewrite decide_True in Gc by done. cbn in *. lia. }
  split; cbn.
  - destruct (live k'); lia.
  - rewrite length_insert. apply I.
  - rewrite length_insert. pose proof (gi_rets _ I). destruct (runs k); lia.
  - done.
  - intros j q Hj Hq. destruct (Hcase j q Hj Hq) as [-> ->]. by destruct Hlate.
  - intros j1 j2 q1 q2 H1 H2 Q1 Q2. destruct (Hcase _ _ H1 Q1), (Hcase _ _ H2 Q2). congruence.
  - intros j q Hj Hq. destruct (Hcase j q Hj) as [-> ->]; [by destruct q|].
    destruct Hlate as (-> & _); [by destruct k'|done].
  - apply I.
  - apply I.
  - intros j b Hj. destruct (Hcase _ _ Hj) as [-> Ek]; [done|]. destruct Hlate as [? _]; [by rewrite <- Ek|congruence].
  - intros j Hj. destruct (Hcase _ _ Hj) as [-> Ek]; [done|]. destruct Hlate as [? _]; [by rewrite <- Ek|congruence].
  - intros (j & [(<- & -> & _)|[Hne Hj]]%list_lookup_insert_Some)%list_elem_of_lookup;
      [destruct Hk as [[? _]|[? _]]; [|destruct (c =? 0)]; done|].
    by eapply (gi_failed _ I), list_elem_of_lookup_2.
  - intros Hp. destruct (Z.eq_dec c 0) as [->|]; [right|left; destruct (live k'); lia].
    exists i, k'. split; [apply list_lookup_insert_eq; by eapply lookup_lt_Some|].
    destruct Hk as [[-> ->]|[-> ->]]; [|done]. cbn in *. lia.
  - intros Hd'. pose proof (gi_done _ I Hd'). lia.
  - intros _ _ Hd'. pose proof (gi_done _ I Hd'). lia.
  - intros [?|[?|(j & q & Hj & Hq)]]%(gi_owner _ I); [auto..|].
    pose proof (no_late (or_introl Hpos) j q Hj). by destruct q.
Qed.

(** The parent does a step with the counter as it is. *)
Lemma par_inv p lk par : ppc g <> p_run -> p <> p_run ->
  (forall i k, kids g !! i = Some k -> kid_locks k -> lk = true /\ par_locks p = false /\ p <> p_done) ->
  (par_locks p -> lk = true) ->
  match p with p_suspend | p_wait => par = true | p_done => True | _ => par = false end ->
  (forall i b, kids g !! i = Some (k_unlock b) -> p = if b then p_wait else p_lock) ->
  (forall i, kids g !! i = Some k_ready -> p = p_wait) ->
  (p = p_set \/ p = p_suspend \/ p = p_wait -> 0 < count g \/ exists i k, kids g !! i = Some k /\ waker k) ->
  (p = p_done -> count g = 0) ->
  (forall i, kids g !! i = Some k_lock -> p = p_done -> lk = true) ->
  (lk = true -> par_locks p \/ p = p_done) ->
  group_inv (mk_group (count g) (errors g) lk par p (kids g) (retvals g)).
Proof.
  intros Hr Hp H1 H2 H3 H4 H5 H6 H7 H8 H9. pose proof (gi_count _ I) as Gc. rewrite decide_False in Gc by done.
  split; cbn; try (by apply I); try done.
  - by rewrite decide_False.
  - intros i k Hi Hk. split; [by apply (gi_late _ I i k)|done].
  - intros [?|?]%H9; auto.
Qed.
End inv.

Lemma add_inv g g' : group_inv g -> add_step g g' -> group_inv g'.
Proof.
  intros I [[Hw Hb]].
  assert (0 < count g) as Hpos.
  { destruct Hw as [Hr|(i & Hi)%list_elem_of_lookup]; [|by eapply live_pos].
    rewrite (gi_count _ I), decide_True by done. lia. }
  pose proof (no_late g I (or_introl Hpos)) as Hno. pose proof (gi_count _ I) as Gc.
  assert (u32 (count g + 1) = count g + 1) as Eu.
  { apply u32_small. pose proof (count_if_le live (kids g)). destruct (decide (ppc g = p_run)); lia. }
  assert (forall j q, (kids g ++ [k_run]) !! j = Some q ->
    q = k_run \/ (kids g !! j = Some q /\ late q = false)) as Hcase.
  { intros j q [[Hj _]|[_ ->]]%lookup_snoc_cases; [right; eauto|by left]. }
  split; cbn; rewrite ?Eu, ?count_if_app, ?length_app; cbn.
  - destruct (decide (ppc g = p_run)); lia.
  - lia.
  - pose proof (gi_rets _ I). lia.
  - apply I.
  - intros j q [->|[_ Hq]]%Hcase; [done|by rewrite Hq].
  - intros j1 j2 q1 q2 [->|[_ H1]]%Hcase; [done|by rewrite H1].
  - intros j q [->|[_ Hq]]%Hcase; [done|by destruct q].
  - apply I.
  - apply I.
  - by intros j b [?|[_ Hq]]%Hcase.
  - by intros j [?|[_ Hq]]%Hcase.
  - intros [?|?%list_elem_of_singleton]%elem_of_app; [by apply (gi_failed _ I)|done].
  - left. lia.
  - intros Hd%(gi_done _ I). lia.
  - intros j _ Hd%(gi_done _ I). lia.
  - intros [?|[?|(j & q & Hj & Hq)]]%(gi_owner _ I); [auto..|].
    specialize (Hno j q Hj). by destruct q.
Qed.

Lemma notify_inv i g g' : group_inv g -> notify_step i g g' -> group_inv g'.
Proof.
  intros I St. pose proof (count_bound g I) as Hcb.
  destruct St as [v Hi|Hi|Hi Hl|Hi|par Hi|Hi Hp|Hi Hp].
  - apply (early_inv g I i k_run); [done|done|by left|cbn; lia|cbn; rewrite length_app; cbn; lia|].
    unfold add_retval; cbn [errors retvals]. rewrite count_if_app. cbn [count_if]. unfold nonzero at 2.
    pose proof (gi_errors _ I) as He.
    destruct (v =? 0); cbn; [lia|]. rewrite u32_small; [lia|]. rewrite He.
    pose proof (rets_bound g I i _ Hi eq_refl). pose proof (count_if_le nonzero (retvals g)). lia.
  - pose proof (live_pos g I i _ Hi Logic.I). rewrite u32_dec by lia. unfold set_kid, add_count. cbn.
    rewrite u32_small by lia. replace (count g + -1) with (count g - 1) by lia.
    apply (early_inv g I i k_dec); [done|done|by right| |cbn; lia|apply I].
    by destruct (_ =? _).
  - apply (kid_inv g I i k_lock k_read true (ppc g)); try done; try (by left).
    intros _. split_and!; [done| |].
    + destruct (par_locks (ppc g)) eqn:E; [|done].
      pose proof (gi_par _ I) as Hx. rewrite E, Hl in Hx. by specialize (Hx Logic.I).
    + intros Hd. by rewrite (gi_stuck _ I i Hi Hd) in Hl.
  - destruct (gi_kid _ I i _ Hi Logic.I) as (Hg & Hpl & Hd), (gi_late _ I i _ Hi Logic.I) as [H0 Hr].
    pose proof (gi_parent _ I) as Hpar.
    replace g with (set_ppc (ppc g) (set_glock (glock g) g)) at 2 by (by destruct g).
    apply (kid_inv g I i k_read (k_unlock (parent g)) (glock g) (ppc g)); try done; [by left| | |intros _; by left].
    + intros b [= <-]. destruct (ppc g); try done; by rewrite Hpar.
    + intros _. destruct (ppc g); try done; rewrite Hpar; auto.
  - destruct (gi_kid _ I i _ Hi Logic.I) as (Hg & Hpl & Hd).
    apply (kid_inv g I i (k_unlock par) _ false (ppc g)); try done; try (by destruct par).
    + by left.
    + by rewrite Hpl.
    + pose proof (gi_unlock _ I i _ Hi). by destruct par.
    + destruct par; [by left|done].
  - destruct (gi_late _ I i _ Hi Logic.I) as [H0 Hr].
    replace (set_ppc p_done g) with (set_ppc p_done (set_glock (glock g) g)) by (by destruct g).
    apply (kid_inv g I i k_ready k_done (glock g) p_done); try done; [by right|auto|auto].
  - by destruct Hp; apply (gi_ready _ I i).
Qed.

(** With the lock free, or with the parent holding it, no subtask has it. *)
Lemma no_kid_locks g : group_inv g -> glock g = false \/ par_locks (ppc g) ->
  forall i k, kids g !! i = Some k -> kid_locks k -> False.
Proof.
  intros I H i k Hi Hk. destruct (gi_kid _ I i k Hi Hk) as (H1 & H2 & _).
  destruct H as [H|H]; [congruence|by rewrite H2 in H].
Qed.

Lemma sync_inv g g' : group_inv g -> sync_step g g' -> group_inv g'.
Proof.
  intros I St. pose proof (gi_count _ I) as Gc. pose proof (gi_parent _ I) as Hpar.
  pose proof (no_kid_locks g I) as Hno. pose proof (gi_ready _ I) as Hr.
  assert (forall p lk par, ppc g <> p_run -> ppc g <> p_wait -> p <> p_run ->
    glock g = false \/ par_locks (ppc g) -> (par_locks p -> lk = true) ->
    match p with p_suspend | p_wait => par = true | p_done => True | _ => par = false end ->
    (p = p_set \/ p = p_suspend \/ p = p_wait -> 0 < count g \/ exists i k, kids g !! i = Some k /\ waker k) ->
    (p = p_done -> count g = 0 /\ lk = true) ->
    (lk = true -> par_locks p \/ p = p_done) ->
    group_inv (mk_group (count g) (errors g) lk par p (kids g) (retvals g))) as Hmove.
  { intros p lk par H1 H2 H3 H4 H5 H6 H7 H8 H9. apply par_inv; try done.
    - intros i k Hi Hk. by destruct (Hno H4 i k).
    - intros i b Hi. by destruct (Hno H4 i _ Hi).
    - intros i Hi. by destruct H2; eapply Hr.
    - naive_solver.
    - naive_solver. }
  destruct St as [Hp|Hp Hl|Hp|Hp|Hp]; rewrite Hp in Hpar;
    try (rewrite decide_False in Gc by (by rewrite Hp)).
  - pose proof (no_late g I (or_intror Hp)) as Hnl. rewrite decide_True in Gc by done.
    pose proof (live_bound g I). unfold set_ppc, add_count. cbn.
    replace (u32 (count g + -1)) with (count g - 1) by (rewrite u32_small; lia).
    rewrite u32_dec by lia.
    assert (forall i k, kids g !! i = Some k -> kid_locks k \/ late k -> False) as Hn.
    { intros i k Hi Hk. specialize (Hnl i k Hi). by destruct k, Hk. }
    set (p := if 0 <? count g - 1 then p_lock else p_done).
    assert (p = p_lock \/ p = p_done /\ count g - 1 = 0) as Hp'.
    { unfold p. destruct (Z.ltb_spec 0 (count g - 1)); [by left|right; split; [done|lia]]. }
    clearbody p. assert (p <> p_run) as Hpr by (by destruct Hp' as [->|[-> _]]). clear Hmove Hno.
    split; cbn.
    + rewrite decide_False by done. lia.
    + apply (gi_bound _ I).
    + apply (gi_rets _ I).
    + apply (gi_errors _ I).
    + intros i k Hi Hk. by destruct (Hn i k Hi); right.
    + apply (gi_one _ I).
    + intros i k Hi Hk. by destruct (Hn i k Hi); left.
    + by destruct Hp' as [->|[-> _]].
    + by destruct Hp' as [->|[-> _]].
    + intros i b Hi. by destruct (Hn i _ Hi); left.
    + intros i Hi. by destruct (Hn i _ Hi); right.
    + apply (gi_failed _ I).
    + destruct Hp' as [->|[-> _]]; intros [?|[?|?]]; done.
    + by destruct Hp' as [->|[-> ?]].
    + intros i Hi. by destruct (Hn i _ Hi); right.
    + intros [Hx|[Hx|(i & k & Hi & Hk)]]%(gi_owner _ I); [by rewrite Hp in Hx|congruence|].
      by destruct (Hn i k Hi); left.
  - apply Hmove; rewrite ?Hp; try done; [by left|naive_solver|by left].
  - unfold set_ppc. destruct (Z.ltb_spec 0 (count g)); apply Hmove; rewrite ?Hp; try done; try (by right).
    + intros _. apply (gi_par _ I). by rewrite Hp.
    + by left.
    + by left.
    + naive_solver.
    + intros _. split; [|apply (gi_par _ I); by rewrite Hp]. pose proof (count_bound g I). lia.
  - apply Hmove; rewrite ?Hp; try done; [by right| | |by left].
    + intros _. apply (gi_par _ I). by rewrite Hp.
    + intros _. apply (gi_wait _ I). by left.
  - apply Hmove; rewrite ?Hp; try done; [by right|]. intros _. apply (gi_wait _ I). by right; left.
Qed.

Lemma gstep_inv g g' : group_inv g -> gstep g g' -> group_inv g'.
Proof. intros I [? ?|? ? ?|? ?]; eauto using add_inv, notify_inv, sync_inv. Qed.

Lemma init_group_inv : group_inv coroc_group_init.
Proof.
  split; cbn; try done; try (by intros ? ? ?); [|by intros [?|[?|?]]].
  by intros (? & ?)%list_elem_of_lookup.
Qed.

Lemma reach_group g : rtc gstep coroc_group_init g -> group_inv g.
Proof. generalize init_group_inv. intros I R. induction R; eauto using gstep_inv. Qed.

(** ** Waking the parent *)

(** The steps of subtask [i] until the parent runs. *)
Lemma waker_progress g i k : group_inv g -> ppc g = p_wait -> kids g !! i = Some k -> waker k ->
  exists n g', (n <= 4)%nat /\ nsteps (notify_step i) n g g' /\ ppc g' = p_done.
Proof.
  assert (forall g, kids g !! i = Some k_ready -> ppc g = p_wait ->
    exists g', nsteps (notify_step i) 1 g g' /\ ppc g' = p_done) as H1.
  { intros h Hi Hp. eexists. split; [by apply nsteps_once, ns_ready|done]. }
  assert (forall g, kids g !! i = Some (k_unlock true) -> ppc g = p_wait ->
    exists g', nsteps (notify_step i) 2 g g' /\ ppc g' = p_done) as H2.
  { intros h Hi Hp. pose proof (ns_unlock i h true Hi) as St.
    destruct (H1 (set_kid i k_ready (set_glock false h))) as (g' & ? & ?);
      [by apply list_lookup_insert_eq, lookup_lt_is_Some; eauto|done|]. eauto using nsteps_l. }
  assert (forall g, group_inv g -> kids g !! i = Some k_read -> ppc g = p_wait ->
    exists g', nsteps (notify_step i) 3 g g' /\ ppc g' = p_done) as H3.
  { intros h I Hi Hp. pose proof (ns_read i h Hi) as St. pose proof (gi_parent _ I) as Hpar.
    rewrite Hp in Hpar. rewrite Hpar in St.
    destruct (H2 (set_kid i (k_unlock true) h)) as (g' & ? & ?);
      [by apply list_lookup_insert_eq, lookup_lt_is_Some; eauto|done|]. eauto using nsteps_l. }
  intros I Hp Hi Hk. destruct k as [| | | |[]| | |]; try done.
  - assert (glock g = false) as Hl.
    { destruct (glock g) eqn:E; [|done].
      destruct (gi_owner _ I E) as [Hx|[Hx|(j & q & Hj & Hq)]]; [by rewrite Hp in Hx|congruence|].
      assert (j = i) as -> by (eapply (gi_one _ I); [done..|by destruct q|done]). by simplify_eq. }
    pose proof (ns_lock i g Hi Hl) as St. pose proof (notify_inv _ _ _ I St) as I'.
    destruct (H3 _ I') as (g' & ? & ?);
      [by apply list_lookup_insert_eq, lookup_lt_is_Some; eauto|done|].
    exists 4%nat, g'. eauto using nsteps_l.
  - destruct (H3 g) as (g' & ? & ?); [done..|]. exists 3%nat, g'. eauto.
  - destruct (H2 g) as (g' & ? & ?); [done..|]. exists 2%nat, g'. eauto.
  - destruct (H1 g) as (g' & ? & ?); [done..|]. exists 1%nat, g'. split_and!; [lia|done|done].
Qed.

(** ** The lock that is never released *)

(** Once the parent has the lock and the counter is zero, the lock stays taken
    and the subtask waiting for it stays where it is. *)
Definition leaked (i : nat) (g : group) : Prop :=
  group_inv g /\ kids g !! i = Some k_lock /\ glock g = true /\ (ppc g = p_check \/ ppc g = p_done).

Lemma leaked_step i g g' : leaked i g -> gstep g g' -> leaked i g'.
Proof.
  intros (I & Hi & Hl & Hp) St. pose proof (gstep_inv _ _ I St) as I'.
  destruct (gi_late _ I i _ Hi Logic.I) as [H0 Hr]. pose proof (gi_count _ I) as Gc.
  rewrite decide_False in Gc by done.
  split; [done|]. destruct St as [g' [[Hw Hb]]|j g' St|g' St].
  - exfalso. destruct Hw as [?|(j & Hj)%list_elem_of_lookup]; [done|].
    pose proof (live_pos g I j _ Hj Logic.I). lia.
  - assert (j <> i -> forall k, <[j:=k]> (kids g) !! i = Some k_lock) as Hne
      by (intros; by rewrite list_lookup_insert_ne).
    assert (forall k, kids g !! j = Some k -> live k = true -> False) as Hlive.
    { intros k Hj Hk. pose proof (live_pos g I j k Hj). rewrite Hk in *. cbn in *. lia. }
    assert (forall k, kids g !! j = Some k -> late k = true -> j = i) as Hlate.
    { intros k Hj Hk. by eapply (gi_one _ I); [exact Hj|exact Hi|rewrite Hk|]. }
    destruct St as [v Hj|Hj|Hj ?|Hj|par Hj|Hj ?|Hj ?];
      try (by destruct (Hlive _ Hj)); try congruence;
      by rewrite (Hlate _ Hj eq_refl) in Hj; congruence.
  - destruct St as [?|?|?|?|?]; try (by destruct Hp; congruence).
    cbn. rewrite H0. cbn. auto.
Qed.

Lemma leaked_forever i g g' : leaked i g -> rtc gstep g g' -> leaked i g'.
Proof. intros L R. induction R; eauto using leaked_step. Qed.

(** ** The end of a group *)

Lemma nobody_left g : group_inv g -> ppc g = p_done -> (forall k, k ∈ kids g -> live k = false) ->
  glock g = false -> forall k, k ∈ kids g -> k = k_done.
Proof.
  intros I Hp Hl Hg k Hk. pose proof (Hl k Hk) as Hlk. destruct (proj1 (list_elem_of_lookup _ _) Hk) as [i Hi].
  destruct k; try done; exfalso.
  - pose proof (gi_stuck _ I i Hi Hp). congruence.
  - destruct (gi_kid _ I i _ Hi Logic.I). congruence.
  - destruct (gi_kid _ I i _ Hi Logic.I). congruence.
  - pose proof (gi_ready _ I i Hi). congruence.
  - by apply (gi_failed _ I).
Qed.

(** ** The theorems *)

(** C27: [coroc_group_sync] returns only when every subtask of the group has
    notified, and then [errors] counts those that passed a value other than
    zero; [vpu_ready] is only ever called for a parent that WAITs, so its
    assertion does not fail and the parent is not woken twice; and when the lock
    is free then, as it is unless the parent kept it, no subtask will touch the
    group any more, so that [__CoroC_Sync] may free it.  For any
    interleaving of the parent and the subtasks. *)
Theorem group_sync_waits g : rtc gstep coroc_group_init g ->
  (k_failed ∉ kids g) /\
  (ppc g = p_done -> (forall k, k ∈ kids g -> live k = false) /\
     length (retvals g) = length (kids g) /\
     errors g = Z.of_nat (count_if nonzero (retvals g)) /\
     (glock g = false -> forall k, k ∈ kids g -> k = k_done)).
Proof.
  intros I%reach_group. split; [apply I|]. intros Hp.
  pose proof (gi_done _ I Hp) as H0. rewrite (gi_count _ I), decide_False in H0 by congruence.
  assert (forall k, k ∈ kids g -> live k = false) as Hl by (apply count_if_0; lia).
  split_and!; [done| |apply I|by apply (nobody_left g I)]. rewrite <- (gi_rets _ I).
  rewrite (proj2 (count_if_0 runs (kids g))); [lia|]. intros k Hk. specialize (Hl k Hk). by destruct k.
Qed.

(** C28: no wake-up is lost.  When the parent is suspended and every subtask has
    been counted off, the last of them is still on its way and, within four of
    its own steps, the parent runs again; nobody else has to move. *)
Theorem group_parent_resumes g : rtc gstep coroc_group_init g -> ppc g = p_wait ->
  (forall k, k ∈ kids g -> live k = false) ->
  exists i n g', (n <= 4)%nat /\ nsteps (notify_step i) n g g' /\ ppc g' = p_done.
Proof.
  intros I%reach_group Hp Hl. destruct (gi_wait _ I) as [Hc|(i & k & Hi & Hk)]; [by auto| |].
  - rewrite (gi_count _ I), decide_False in Hc by congruence.
    rewrite (proj2 (count_if_0 live (kids g)) Hl) in Hc. lia.
  - destruct (waker_progress g i k I Hp Hi Hk) as (n & g' & ? & ? & ?). by exists i, n, g'.
Qed.

(** A subtask that counts down to zero between the two readings of the
    counter in [coroc_group_sync] never finishes: the parent returns with the
    lock taken, nobody releases it, and the subtask waits for it for ever. *)
Theorem group_sync_leaks_lock g i : rtc gstep coroc_group_init g ->
  ppc g = p_check -> kids g !! i = Some k_lock ->
  forall g', rtc gstep g g' -> kids g' !! i = Some k_lock /\ glock g' = true.
Proof.
  intros I%reach_group Hp Hi g' R.
  assert (leaked i g) as L by (split_and!; [done|done|apply (gi_par _ I); by rewrite Hp|auto]).
  destruct (leaked_forever i g g' L R) as (_ & ? & ? & _). done.
Qed.

(** ** Runs with one subtask *)

Local Tactic Notation "gnotify" uconstr(c) := eapply rtc_l; [eapply (gs_notify _ 0%nat), c; vm_compute; reflexivity|]; vm_compute.
Local Tactic Notation "gsync" uconstr(c) := eapply rtc_l; [apply gs_sync, c; vm_compute; reflexivity|]; vm_compute.

(** The subtask fails with 7 after the parent went to sleep. *)
Definition slept : group := mk_group 0 1 false true p_wait [k_lock] [7].
Definition synced : group := mk_group 0 1 false true p_done [k_done] [7].

Lemma one_task : gstep coroc_group_init (mk_group 2 0 false false p_run [k_run] []).
Proof. apply gs_add. apply (coroc_group_add_task coroc_group_init). split; [by left|vm_compute; done]. Qed.

Lemma slept_reachable : rtc gstep coroc_group_init slept.
Proof.
  eapply rtc_l; [exact one_task|].
  gsync ss_dec. gsync ss_lock. gsync ss_check. gsync ss_set. gsync ss_suspend.
  gnotify (ns_call 0 _ 7). gnotify ns_dec. apply rtc_refl.
Qed.

Lemma synced_reachable : rtc gstep coroc_group_init synced.
Proof.
  transitivity slept; [exact slept_reachable|]. unfold slept.
  eapply rtc_l; [eapply (gs_notify _ 0%nat), ns_lock; vm_compute; reflexivity|]; vm_compute.
  gnotify ns_read. gnotify ns_unlock.
  eapply rtc_l; [eapply (gs_notify _ 0%nat), ns_ready; vm_compute; reflexivity|]; vm_compute.
  apply rtc_refl.
Qed.

(** The subtask counts down between the two readings of the parent. *)
Definition raced : group := mk_group 0 0 true false p_check [k_lock] [0].

Lemma raced_reachable : rtc gstep coroc_group_init raced.
Proof.
  eapply rtc_l; [exact one_task|].
  gsync ss_dec. gnotify (ns_call 0 _ 0). gnotify ns_dec. gsync ss_lock. apply rtc_refl.
Qed.

Lemma group_sync_waits_witness :
  (k_failed ∉ kids synced) /\
  (ppc synced = p_done -> (forall k, k ∈ kids synced -> live k = false) /\
     length (retvals synced) = length (kids synced) /\
     errors synced = Z.of_nat (count_if nonzero (retvals synced)) /\
     (glock synced = false -> forall k, k ∈ kids synced -> k = k_done)).
Proof. exact (group_sync_waits synced synced_reachable). Defined.

Lemma group_parent_resumes_witness :
  exists i n g', (n <= 4)%nat /\ nsteps (notify_step i) n slept g' /\ ppc g' = p_done.
Proof.
  apply (group_parent_resumes slept slept_reachable); [reflexivity|].
  intros k ->%list_elem_of_singleton. reflexivity.
Defined.

Lemma group_sync_leaks_lock_witness :
  count raced = 0 /\
  (forall g', rtc gstep raced g' -> kids g' !! 0%nat = Some k_lock /\ glock g' = true).
Proof. split; [reflexivity|]. apply (group_sync_leaks_lock raced 0 raced_reachable); reflexivity. Defined.
