(* ===== verification/Async.v ===== *)
(** * The pool of asynchronous threads (src/async.c, include/inter/async.h)

    A coroutine hands a blocking call to the pool and is suspended; a thread
    of the pool takes the request, does the call and makes the coroutine ready.

    The request lives on the stack of the coroutine: [reqs] and the items of
    the queue have it from the submission until the coroutine runs on
    ([submit_resume]), and a later access is a dangling one.  The queue is
    Queue.v's, with the one queue [tt].

    Everything between taking and releasing the mutex is one step: the queue is
    only touched there.  A thread that finds the queue empty sleeps on the
    condition ([a_cond]); pthread_cond_signal wakes one sleeper, any ([pick]),
    and a sleeper may also wake up without a signal.

    [AsyncEnv] is what the pool uses of the scheduler, and the callbacks. *)

From S2P Require Import Prelude Queue SchedInv.

Abbreviation coid := nat (only parsing).
Abbreviation rid := nat (only parsing).

Class AsyncEnv (S : Type) := {
  ae_waiting : S -> coid -> Prop;
  ae_ready : coid -> ST S unit;          (* vpu_ready(c, false), by a thread that is no VPU *)
  ae_suspend : coid -> ST S unit;        (* async_wait = 1, vpu_suspend *)
  ae_call : nat -> nat -> ST S unit      (* func(argument) *)
}.

(** [vpu_ready] succeeds for a coroutine that waits and takes it, and only it,
    from the waiting ones; [vpu_suspend] adds the caller; a callback does not
    touch coroutines. *)
Class AsyncLaws (S : Type) `{AsyncEnv S} := {
  ae_ready_spec s c : ae_waiting s c -> exists s', ae_ready c s = Ok (tt, s') /\
    forall d, ae_waiting s' d <-> ae_waiting s d /\ d <> c;
  ae_suspend_spec s c : ~ ae_waiting s c -> exists s', ae_suspend c s = Ok (tt, s') /\
    forall d, ae_waiting s' d <-> ae_waiting s d \/ d = c;
  ae_call_spec s f a : exists s', ae_call f a s = Ok (tt, s') /\
    forall d, ae_waiting s' d <-> ae_waiting s d
}.

(** [coroc_async_request_t]; its [link] is the item of the queue. *)
Record request := mk_req { rwait : coid; rfunc : nat; rarg : nat }.

(** A thread of the pool. *)
Inductive worker : Type :=
| a_top                (* about to take the mutex *)
| a_cond               (* asleep in pthread_cond_wait *)
| a_work (r : rid)     (* has taken [r] *)
| a_ready (r : rid).   (* has done the call of [r] *)

#[export] Instance worker_eq_dec : EqDecision worker.
Proof. solve_decision. Defined.

Section pool.
Context {S : Type} `{AsyncEnv S}.

Record pool := mk_pool {
  amutex : bool;
  aque : qstore rid unit rid;
  reqs : gmap rid request;
  threads : option (list worker);       (* [None]: NULL *)
  called : list (nat * nat);            (* the calls done so far *)
  aenv : S
}.

Definition set_amutex v p := mk_pool v (aque p) (reqs p) (threads p) (called p) (aenv p).
Definition set_aque v p := mk_pool (amutex p) v (reqs p) (threads p) (called p) (aenv p).
Definition set_reqs v p := mk_pool (amutex p) (aque p) v (threads p) (called p) (aenv p).
Definition set_threads v p := mk_pool (amutex p) (aque p) (reqs p) v (called p) (aenv p).
Definition set_called v p := mk_pool (amutex p) (aque p) (reqs p) (threads p) v (aenv p).
Definition set_aenv v p := mk_pool (amutex p) (aque p) (reqs p) (threads p) (called p) v.

Definition on_aque {A} (c : ST (qstore rid unit rid) A) : ST pool A := zoom aque set_aque c.
Definition on_aenv {A} (c : ST S A) : ST pool A := zoom aenv set_aenv c.

Definition mutex_lock : ST pool unit :=
  fun p => if amutex p then Err SelfDeadlock else Ok (tt, set_amutex true p).
Definition mutex_unlock : ST pool unit :=
  fun p => if amutex p then Ok (tt, set_amutex false p) else Err AssertFail.

Definition get_req (r : rid) : ST pool request :=
  fun p => match reqs p !! r with Some q => Ok (q, p) | None => Err Dangling end.
Definition get_worker (i : nat) : ST pool worker :=
  fun p => match threads p with
           | None => Err NullDeref
           | Some ws => match ws !! i with Some t => Ok (t, p) | None => Err OutOfBounds end
           end.
Definition set_worker (i : nat) (t : worker) : ST pool unit :=
  fun p => match threads p with
           | None => Err NullDeref
           | Some ws => Ok (tt, set_threads (Some (<[i := t]> ws)) p)
           end.

(** The threads asleep, by number. *)
Definition sleepers (ws : list worker) : list nat :=
  filter (fun i => ws !! i = Some a_cond) (seq 0 (length ws)).

(** [pthread_cond_signal]: sleeper number [pick], counted round. *)
Definition cond_signal (pick : nat) : ST pool unit :=
  fun p => match threads p with
           | None => Err NullDeref
           | Some ws => match sleepers ws !! (pick mod length (sleepers ws))%nat with
                        | Some i => Ok (tt, set_threads (Some (<[i := a_top]> ws)) p)
                        | None => Ok (tt, p)
                        end
           end.

Definition call (f a : nat) : ST pool unit :=
  do! on_aenv (ae_call f a) in modify (fun p => set_called (called p ++ [(f, a)]) p).

(** [coroc_async_pool_initialize]; the threads start by taking the mutex.  A
    negative [n] passes the test and starts no thread: the array is empty. *)
Definition coroc_async_pool_initialize (n : Z) : ST pool unit :=
  do! modify (set_amutex false) in
  if n =? 0 then modify (set_threads None) else
  do! on_aque (queue_init tt) in
  modify (set_threads (Some (replicate (Z.to_nat n) a_top))).

(** [coroc_async_request_submit] by [self] with [req] at [r], up to the
    suspension; [true]: the call was done at once. *)
Definition coroc_async_request_submit (pick : nat) (self : coid) (r : rid) (func arg : nat)
  : ST pool bool :=
  let! p := get in
  match threads p with
  | None => do! call func arg in ret true
  | Some _ =>
      do! modify (fun p => set_reqs (<[r := mk_req self func arg]> (reqs p)) p) in
      do! on_aque (queue_item_init r (Some r)) in
      do! mutex_lock in
      do! on_aque (queue_add tt r) in
      do! cond_signal pick in
      do! on_aenv (ae_suspend self) in
      do! mutex_unlock in
      ret false
  end.

(** The suspended coroutine runs again and returns: [req] is gone. *)
Definition submit_resume (r : rid) : ST pool unit :=
  modify (fun p => set_aque (mk_qstore (delete r (items (aque p))) (queues (aque p)))
                     (set_reqs (delete r (reqs p)) p)).

(** [coroc_async_thread_routine]: the section under the mutex, *)
Definition worker_take (i : nat) : ST pool unit :=
  do! mutex_lock in
  let! q := on_aque (get_queue tt) in
  if qstatus q =? 0 then
    do! mutex_unlock in set_worker i a_cond
  else
    let! req := on_aque (queue_rem tt) in
    let! r := demand AssertFail req in
    do! mutex_unlock in set_worker i (a_work r).

(** the call, *)
Definition worker_call (i : nat) (r : rid) : ST pool unit :=
  let! q := get_req r in
  do! call (rfunc q) (rarg q) in
  set_worker i (a_ready r).

(** and the wake-up. *)
Definition worker_ready (i : nat) (r : rid) : ST pool unit :=
  let! q := get_req r in
  do! on_aenv (ae_ready (rwait q)) in
  set_worker i a_top.

(** What thread [i] does next. *)
Definition coroc_async_thread_routine (i : nat) : ST pool unit :=
  let! t := get_worker i in
  match t with
  | a_top => worker_take i
  | a_cond => set_worker i a_top          (* a wake-up without a signal *)
  | a_work r => worker_call i r
  | a_ready r => worker_ready i r
  end.

(** ** The invariant *)

Definition serves (t : worker) : option rid := match t with a_work r | a_ready r => Some r | _ => None end.

(** A request that is not served yet; [l]: the requests in the queue, in order. *)
Definition pending (ws : list worker) (l : list rid) (r : rid) : Prop :=
  r ∈ l \/ exists i t, ws !! i = Some t /\ serves t = Some r.

Record pool_inv (p : pool) (ws : list worker) (l : list rid) : Prop := {
  pi_threads : threads p = Some ws;
  pi_mutex : amutex p = false;
  pi_queue : fwd_rep (aque p) tt false l;
  pi_items : forall r, r ∈ l -> exists it, items (aque p) !! r = Some it /\ owner it = Some r;
  pi_reqs : forall r, pending ws l r -> is_Some (reqs p !! r);
  pi_served : forall i t r, ws !! i = Some t -> serves t = Some r -> r ∉ l;
  pi_once : forall i j t u r, ws !! i = Some t -> ws !! j = Some u ->
    serves t = Some r -> serves u = Some r -> i = j;
  pi_wait : forall r q, reqs p !! r = Some q -> pending ws l r -> ae_waiting (aenv p) (rwait q);
  pi_own : forall r r' q q', reqs p !! r = Some q -> reqs p !! r' = Some q' -> rwait q = rwait q' -> r = r';
  pi_awake : l <> [] -> ws <> [] -> exists i t, ws !! i = Some t /\ t <> a_cond
}.
End pool.
Arguments pool S : clear implicits.

(** ** The operations keep it *)

Lemma sleepers_spec ws i : i ∈ sleepers ws <-> ws !! i = Some a_cond.
Proof.
  unfold sleepers. rewrite list_elem_of_filter, elem_of_seq. split; [naive_solver|].
  intros Hi. split; [done|]. apply lookup_lt_Some in Hi. lia.
Qed.

Section pool_proofs.
Context {S : Type} `{AsyncLaws S}.
Implicit Types (p : pool S) (ws : list worker) (l : list rid).

(** What a signal does to the threads. *)
Definition signalled (ws ws' : list worker) : Prop :=
  (ws' = ws /\ forall i, ws !! i <> Some a_cond) \/
  exists i, ws !! i = Some a_cond /\ ws' = <[i := a_top]> ws.

Lemma signal_ok pick p ws : threads p = Some ws -> exists ws',
  cond_signal pick p = Ok (tt, set_threads (Some ws') p) /\ signalled ws ws'.
Proof.
  intros Hw. unfold cond_signal. rewrite Hw.
  destruct (sleepers ws !! _) as [i|] eqn:E.
  - exists (<[i := a_top]> ws). split; [done|]. right. exists i. split; [|done].
    apply sleepers_spec. by eapply list_elem_of_lookup_2.
  - exists ws. split; [by rewrite <- Hw; destruct p|]. left. split; [done|].
    apply lookup_ge_None in E. destruct (sleepers ws) as [|j js] eqn:Es.
    + intros i Hi%sleepers_spec. rewrite Es in Hi. by apply not_elem_of_nil in Hi.
    + cbn [length] in E. pose proof (Nat.mod_upper_bound pick (Datatypes.S (length js))). lia.
Qed.

(** A signal does not change what the threads serve. *)
Lemma signalled_serves ws ws' i t r : signalled ws ws' -> serves t = Some r ->
  ws' !! i = Some t <-> ws !! i = Some t.
Proof.
  intros [[-> _]|(j & Hj & ->)] Ht; [done|]. rewrite list_lookup_insert_Some. split.
  - intros [(_ & <- & _)|[_ ?]]; done.
  - intros Hi. right. split; [|done]. intros ->. by simplify_eq.
Qed.

Lemma signalled_awake ws ws' : signalled ws ws' -> ws' <> [] -> exists i t, ws' !! i = Some t /\ t <> a_cond.
Proof.
  intros [[-> Hn]|(j & Hj & ->)] He.
  - destruct ws as [|t ws]; [done|]. exists 0%nat, t. split; [done|]. intros ->. by destruct (Hn 0%nat).
  - exists j, a_top. split; [|done]. apply list_lookup_insert_eq. by eapply lookup_lt_Some.
Qed.

Lemma pending_signalled ws ws' l r : signalled ws ws' -> pending ws' l r <-> pending ws l r.
Proof.
  intros G. unfold pending. f_equiv. f_equiv. intros i. f_equiv. intros t.
  split; intros [Hi Ht]; (split; [|done]); by apply (signalled_serves ws ws' i t r G Ht).
Qed.

(** The bound on the queue: its requests are distinct entries of [reqs]. *)
Lemma queue_size p ws l : pool_inv p ws l -> (length l <= size (reqs p))%nat.
Proof.
  intros I. rewrite <- size_dom, <- (size_list_to_set (C := gset rid) l) by apply (pi_queue _ _ _ I).
  apply subseteq_size. intros r Hr%elem_of_list_to_set. apply elem_of_dom, (pi_reqs _ _ _ I). by left.
Qed.

Lemma submit_ok pick p ws l self r f a :
  pool_inv p ws l -> reqs p !! r = None -> ~ ae_waiting (aenv p) self ->
  (forall r q, reqs p !! r = Some q -> rwait q <> self) -> Z.of_nat (size (reqs p)) + 1 < 2 ^ 32 ->
  exists p' ws', coroc_async_request_submit pick self r f a p = Ok (false, p') /\
    pool_inv p' ws' (l ++ [r]) /\ signalled ws ws' /\
    reqs p' = <[r := mk_req self f a]> (reqs p) /\ called p' = called p /\
    (forall d, ae_waiting (aenv p') d <-> ae_waiting (aenv p) d \/ d = self).
Proof.
  intros I Hr Hs Hself Hsz. pose proof (queue_size _ _ _ I) as Hlen.
  assert (~ pending ws l r) as Hnp by (intros Hp; destruct (pi_reqs _ _ _ I r Hp); congruence).
  assert (r ∉ l) as Hrl by (intros ?; apply Hnp; by left).
  set (it := mk_item (L := rid) (Q := unit) None None None (Some r)).
  set (st0 := mk_qstore (<[r := it]> (items (aque p))) (queues (aque p))).
  assert (fwd_rep st0 tt false l) as F0.
  { apply (fwd_rep_frame (aque p)); [apply I|done|]. intros x Hx. cbn. by rewrite lookup_insert_ne by naive_solver. }
  destruct (queue_add_fwd st0 tt false l r it) as (st1 & E1 & F1 & Ho & _ & _);
    [done|apply lookup_insert_eq|done|lia|].
  destruct (signal_ok pick (set_aque st1 (set_amutex true (set_reqs (<[r := mk_req self f a]> (reqs p)) p))) ws)
    as (ws' & Esig & G); [apply I|].
  destruct (ae_suspend_spec (aenv p) self Hs) as (s' & Es & Hw).
  exists (mk_pool false st1 (<[r := mk_req self f a]> (reqs p)) (Some ws') (called p) s'), ws'.
  split_and!; try done.
  - unfold coroc_async_request_submit. unfold get. unfold bind at 1. rewrite (pi_threads _ _ _ I).
    unfold modify at 1. unfold bind at 1. unfold bind at 1.
    unfold on_aque at 1, zoom at 1. unfold queue_item_init, modify. cbn [aque set_reqs].
    unfold bind at 1. unfold mutex_lock. cbn [amutex set_aque set_reqs]. rewrite (pi_mutex _ _ _ I).
    unfold bind at 1. unfold on_aque, zoom. cbn [aque set_amutex set_aque]. fold it. fold st0. rewrite E1.
    unfold bind at 1. unfold set_aque, set_amutex, set_reqs, set_threads in *.
    cbn [amutex reqs threads called aenv aque] in *. rewrite Esig.
    unfold bind, on_aenv, zoom. cbn. by rewrite Es.
  - split; cbn; try done.
    + intros x Hx. assert (owner <$> items st1 !! x = Some (Some x)) as Hox.
      { rewrite Ho. cbn. apply elem_of_app in Hx as [Hx| ->%list_elem_of_singleton].
        - rewrite lookup_insert_ne by naive_solver. destruct (pi_items _ _ _ I x Hx) as (? & -> & ?). cbn. by f_equal.
        - by rewrite lookup_insert_eq. }
      apply fmap_Some in Hox as (it' & ? & ?). by exists it'.
    + intros x Hx. destruct (decide (x = r)) as [->|Hne]; [by rewrite lookup_insert_eq|].
      rewrite lookup_insert_ne by done. apply (pi_reqs _ _ _ I). apply (pending_signalled _ _ _ _ G) in Hx.
      destruct Hx as [Hx|Hx]; [|by right]. left. set_solver.
    + intros i t x Hi Ht. apply (signalled_serves _ _ i t x G Ht) in Hi.
      pose proof (pi_served _ _ _ I i t x Hi Ht). intros [?| ->%list_elem_of_singleton]%elem_of_app; [done|].
      apply Hnp. right. eauto.
    + intros i j t u x Hi Hj Ht Hu. apply (signalled_serves _ _ i t x G Ht) in Hi.
      apply (signalled_serves _ _ j u x G Hu) in Hj. by eapply (pi_once _ _ _ I).
    + intros x q Hx Hp. apply Hw. destruct (decide (x = r)) as [->|Hne].
      * rewrite lookup_insert_eq in Hx. injection Hx as <-. by right.
      * rewrite lookup_insert_ne in Hx by done. left. apply (pi_wait _ _ _ I x q Hx).
        apply (pending_signalled _ _ _ _ G) in Hp. destruct Hp as [Hp|Hp]; [|by right]. left. set_solver.
    + intros x y q q' [(<- & <-)|(Hx & Hx')]%lookup_insert_Some [(<- & <-)|(Hy & Hy')]%lookup_insert_Some Hq;
        [done| | |by eapply (pi_own _ _ _ I)]; cbn in Hq.
      * by destruct (Hself y q').
      * by destruct (Hself x q).
    + intros _. by eapply signalled_awake.
Qed.

(** Thread [i] goes from [t] to [t'] and takes nothing new. *)
Lemma pending_move ws l i t t' r : ws !! i = Some t -> (forall r, serves t' = Some r -> serves t = Some r) ->
  pending (<[i := t']> ws) l r -> pending ws l r.
Proof.
  intros Hi Ht [Hl|(j & u & Hj & Hu)]; [by left|right].
  apply list_lookup_insert_Some in Hj as [(<- & <- & _)|[_ Hj]]; eauto.
Qed.

Lemma move_worker p ws l i t t' cl s' :
  pool_inv p ws l -> ws !! i = Some t -> (forall r, serves t' = Some r -> serves t = Some r) ->
  (l <> [] -> t' <> a_cond) ->
  (forall r q, reqs p !! r = Some q -> pending (<[i := t']> ws) l r -> ae_waiting s' (rwait q)) ->
  pool_inv (mk_pool false (aque p) (reqs p) (Some (<[i := t']> ws)) cl s') (<[i := t']> ws) l.
Proof.
  intros I Hi Ht Hc Hw.
  assert (forall j u r, <[i := t']> ws !! j = Some u -> serves u = Some r ->
    exists u', ws !! j = Some u' /\ serves u' = Some r) as Hback.
  { intros j u r [(<- & <- & _)|[_ Hj]]%list_lookup_insert_Some Hu; eauto. }
  split; cbn; try done; try (by apply I).
  - intros r Hr. apply (pi_reqs _ _ _ I). exact (pending_move ws l i t t' r Hi Ht Hr).
  - intros j u r Hj Hu. destruct (Hback j u r Hj Hu) as (u' & ? & ?). by eapply (pi_served _ _ _ I).
  - intros j k u v r Hj Hk Hu Hv. destruct (Hback j u r Hj Hu) as (u' & ? & ?), (Hback k v r Hk Hv) as (v' & ? & ?).
    by eapply (pi_once _ _ _ I).
  - intros Hl _. exists i, t'. split; [|by apply Hc]. apply list_lookup_insert_eq. by eapply lookup_lt_Some.
Qed.

Lemma take_empty_ok p ws i : pool_inv p ws [] -> ws !! i = Some a_top ->
  exists p', worker_take i p = Ok (tt, p') /\ pool_inv p' (<[i := a_cond]> ws) [] /\
    reqs p' = reqs p /\ called p' = called p /\ aenv p' = aenv p.
Proof.
  intros I Hi. exists (mk_pool false (aque p) (reqs p) (Some (<[i := a_cond]> ws)) (called p) (aenv p)).
  split_and!; try done.
  - unfold worker_take, mutex_lock, bind at 1. rewrite (pi_mutex _ _ _ I).
    unfold bind, on_aque, zoom, get_queue. cbn. rewrite (fwd_queue _ _ _ _ (pi_queue _ _ _ I)).
    change (qstatus _ =? 0) with true. unfold mutex_unlock, set_worker. cbn. by rewrite (pi_threads _ _ _ I).
  - eapply move_worker; [done|done|done|done|]. intros r q Hr Hp. apply (pi_wait _ _ _ I r q Hr).
    by refine (pending_move _ _ _ _ _ _ Hi _ Hp).
Qed.

Lemma take_ok p ws r l i : pool_inv p ws (r :: l) -> ws !! i = Some a_top ->
  exists p', worker_take i p = Ok (tt, p') /\ pool_inv p' (<[i := a_work r]> ws) l /\
    reqs p' = reqs p /\ called p' = called p /\ aenv p' = aenv p.
Proof.
  intros I Hi. destruct (pi_items _ _ _ I r) as (it & Hit & Hown); [left|].
  destruct (queue_rem_fwd (aque p) tt false r l) as (it' & st' & Hit' & E & F & Ho & _); [apply I|].
  assert (it' = it) as -> by congruence.
  pose proof (fwd_nodup _ _ _ _ (pi_queue _ _ _ I)) as [Hrl _]%NoDup_cons.
  exists (mk_pool false st' (reqs p) (Some (<[i := a_work r]> ws)) (called p) (aenv p)).
  assert (forall x, pending (<[i := a_work r]> ws) l x -> pending ws (r :: l) x) as Hp.
  { intros x [Hx|(j & u & Hj & Hu)]; [left; by right|].
    apply list_lookup_insert_Some in Hj as [(<- & <- & _)|[_ Hj]]; [|right; eauto].
    cbn in Hu. simplify_eq. left. left. }
  split_and!; try done.
  - unfold worker_take, mutex_lock, bind at 1. rewrite (pi_mutex _ _ _ I).
    unfold bind at 1, on_aque at 1, zoom, get_queue. cbn [aque set_amutex].
    rewrite (fwd_queue _ _ _ _ (pi_queue _ _ _ I)). cbn [qstatus length].
    replace (Z.of_nat (Datatypes.S (length l)) =? 0) with false by (symmetry; apply Z.eqb_neq; lia).
    unfold bind at 1, on_aque, zoom. cbn [aque set_aque set_amutex]. rewrite E, Hown.
    unfold bind, demand, mutex_unlock, set_worker. cbn. by rewrite (pi_threads _ _ _ I).
  - split; cbn; try done; try (by apply I).
    + intros x Hx. destruct (pi_items _ _ _ I x) as (xi & Hxi & Hxo); [by right|].
      specialize (Ho x). rewrite Hxi in Ho. cbn in Ho. apply fmap_Some in Ho as (y & ? & ?). exists y.
      split; [done|congruence].
    + intros x Hx. apply (pi_reqs _ _ _ I), Hp, Hx.
    + intros j u x [(<- & <- & _)|[_ Hj]]%list_lookup_insert_Some Hu; [by cbn in Hu; simplify_eq|].
      pose proof (pi_served _ _ _ I j u x Hj Hu). set_solver.
    + intros j k u v x [(<- & <- & _)|[N1 Hj]]%list_lookup_insert_Some
        [(<- & <- & _)|[N2 Hk]]%list_lookup_insert_Some Hu Hv; [done| | |by eapply (pi_once _ _ _ I)];
        cbn in *; simplify_eq; exfalso.
      * eapply (pi_served _ _ _ I k v); [done|done|left].
      * eapply (pi_served _ _ _ I j u); [done|done|left].
    + intros x q Hx Hx'. apply (pi_wait _ _ _ I x q Hx), Hp, Hx'.
    + intros _ _. exists i, (a_work r). split; [|done]. apply list_lookup_insert_eq. by eapply lookup_lt_Some.
Qed.

Lemma call_ok p ws l i r : pool_inv p ws l -> ws !! i = Some (a_work r) ->
  exists p' q, worker_call i r p = Ok (tt, p') /\ pool_inv p' (<[i := a_ready r]> ws) l /\
    reqs p !! r = Some q /\ reqs p' = reqs p /\ called p' = called p ++ [(rfunc q, rarg q)] /\
    (forall d, ae_waiting (aenv p') d <-> ae_waiting (aenv p) d).
Proof.
  intros I Hi. destruct (pi_reqs _ _ _ I r) as [q Hq]; [right; eauto|].
  destruct (ae_call_spec (aenv p) (rfunc q) (rarg q)) as (s' & Es & Hw).
  exists (mk_pool false (aque p) (reqs p) (Some (<[i := a_ready r]> ws)) (called p ++ [(rfunc q, rarg q)]) s'), q.
  split_and!; try done.
  - unfold worker_call, bind at 1, get_req. rewrite Hq. unfold bind, call, on_aenv, zoom, modify, set_worker.
    unfold bind. rewrite Es. cbn. rewrite (pi_threads _ _ _ I). unfold set_threads, set_called, set_aenv. cbn. by rewrite (pi_mutex _ _ _ I).
  - eapply move_worker; [done|done|done|done|]. intros x y Hx Hp. apply Hw, (pi_wait _ _ _ I x y Hx).
    by refine (pending_move _ _ _ _ _ _ Hi _ Hp).
Qed.

Lemma ready_ok p ws l i r : pool_inv p ws l -> ws !! i = Some (a_ready r) ->
  exists p' q, worker_ready i r p = Ok (tt, p') /\ pool_inv p' (<[i := a_top]> ws) l /\
    reqs p !! r = Some q /\ reqs p' = reqs p /\ called p' = called p /\
    (forall d, ae_waiting (aenv p') d <-> ae_waiting (aenv p) d /\ d <> rwait q).
Proof.
  intros I Hi. destruct (pi_reqs _ _ _ I r) as [q Hq]; [right; eauto|].
  destruct (ae_ready_spec (aenv p) (rwait q)) as (s' & Es & Hw); [apply (pi_wait _ _ _ I r); [done|right; eauto]|].
  exists (mk_pool false (aque p) (reqs p) (Some (<[i := a_top]> ws)) (called p) s'), q.
  split_and!; try done.
  - unfold worker_ready, bind at 1, get_req. rewrite Hq. unfold bind, on_aenv, zoom, set_worker.
    rewrite Es. cbn. rewrite (pi_threads _ _ _ I). unfold set_threads, set_called, set_aenv. cbn. by rewrite (pi_mutex _ _ _ I).
  - eapply move_worker; [done|done|done|done|]. intros x y Hx Hp. apply Hw. split.
    + apply (pi_wait _ _ _ I x y Hx). by refine (pending_move _ _ _ _ _ _ Hi _ Hp).
    + intros E. assert (x = r) as -> by (by eapply (pi_own _ _ _ I)).
      destruct Hp as [Hp|(j & u & Hj & Hu)]; [by eapply (pi_served _ _ _ I i)|].
      apply list_lookup_insert_Some in Hj as [(<- & <- & _)|[Hne Hj]]; [done|].
      apply Hne. by eapply (pi_once _ _ _ I).
Qed.

Lemma worker_wakeup_ok p ws l i : pool_inv p ws l -> ws !! i = Some a_cond ->
  exists p', set_worker i a_top p = Ok (tt, p') /\ pool_inv p' (<[i := a_top]> ws) l /\
    reqs p' = reqs p /\ called p' = called p /\ aenv p' = aenv p.
Proof.
  intros I Hi. exists (mk_pool false (aque p) (reqs p) (Some (<[i := a_top]> ws)) (called p) (aenv p)).
  split_and!; try done.
  - unfold set_worker. rewrite (pi_threads _ _ _ I). unfold set_threads. by rewrite (pi_mutex _ _ _ I).
  - eapply move_worker; [done|done|done|done|]. intros r q Hr Hp. apply (pi_wait _ _ _ I r q Hr).
    by refine (pending_move _ _ _ _ _ _ Hi _ Hp).
Qed.

Lemma resume_ok p ws l r q : pool_inv p ws l -> reqs p !! r = Some q -> ~ ae_waiting (aenv p) (rwait q) ->
  exists p', submit_resume r p = Ok (tt, p') /\ pool_inv p' ws l /\
    reqs p' = delete r (reqs p) /\ called p' = called p /\ aenv p' = aenv p /\ ~ pending ws l r.
Proof.
  intros I Hq Hn. assert (~ pending ws l r) as Hnp by (intros Hp; by apply Hn, (pi_wait _ _ _ I r q Hq)).
  assert (forall x, x ∈ l -> x <> r) as Hne by (intros x Hx ->; apply Hnp; by left).
  eexists. split; [done|]. split_and!; try done. split; cbn; try (by apply I).
  - apply (fwd_rep_frame (aque p)); [apply I|done|]. intros x Hx. cbn. rewrite lookup_delete_ne; [done|].
    by intros <-; apply (Hne r).
  - intros x Hx. rewrite lookup_delete_ne; [by apply I|]. by intros <-; apply (Hne r).
  - intros x Hx. rewrite lookup_delete_ne; [by apply I|]. by intros <-.
  - intros x y [_ Hx]%lookup_delete_Some Hp. by eapply (pi_wait _ _ _ I).
  - intros x y u v [_ Hx]%lookup_delete_Some [_ Hy]%lookup_delete_Some. by eapply (pi_own _ _ _ I).
Qed.

(** ** Runs of the pool *)

Inductive aevent : Type :=
| E_submit (pick : nat) (self : coid) (r : rid) (f a : nat)
| E_thread (i : nat)
| E_resume (r : rid)
| E_env (s : S).          (* the rest of the program *)

Definition aexec (e : aevent) : ST (pool S) unit :=
  match e with
  | E_submit pick self r f a => do! coroc_async_request_submit pick self r f a in ret tt
  | E_thread i => coroc_async_thread_routine i
  | E_resume r => submit_resume r
  | E_env s => modify (set_aenv s)
  end.

(** A coroutine that runs submits a request at a place of its own stack; a
    thread of the pool does its next step; a coroutine that is no longer
    suspended returns from its submission; and what else the program does wakes
    no coroutine that is suspended for the pool. *)
Definition allowed (e : aevent) (p : pool S) : Prop :=
  match e with
  | E_submit _ self r _ _ =>
      reqs p !! r = None /\ ~ ae_waiting (aenv p) self /\
      (forall r q, reqs p !! r = Some q -> rwait q <> self) /\ Z.of_nat (size (reqs p)) + 1 < 2 ^ 32
  | E_thread i => exists ws, threads p = Some ws /\ (i < length ws)%nat
  | E_resume r => exists q, reqs p !! r = Some q /\ ~ ae_waiting (aenv p) (rwait q)
  | E_env s => forall r q, reqs p !! r = Some q -> ae_waiting (aenv p) (rwait q) -> ae_waiting s (rwait q)
  end.

Definition submits (e : aevent) : list (nat * nat) :=
  match e with E_submit _ _ _ f a => [(f, a)] | _ => [] end.

(** The states of a process whose pool has [n] threads, with the calls that
    were submitted. *)
Inductive areach (n : Z) : pool S -> list (nat * nat) -> Prop :=
| ar_init p0 p : reqs p0 = ∅ -> called p0 = [] -> aque p0 = mk_qstore ∅ ∅ ->
    coroc_async_pool_initialize n p0 = Ok (tt, p) -> areach n p []
| ar_step p sub e p' : areach n p sub -> allowed e p -> aexec e p = Ok (tt, p') ->
    areach n p' (sub ++ submits e).

(** The requests whose call is still to be done. *)
Definition doing (t : worker) : option rid := match t with a_work r => Some r | _ => None end.
Definition todo ws l : list rid := omap doing ws ++ l.
Definition call_of (p : pool S) (r : rid) : nat * nat :=
  match reqs p !! r with Some q => (rfunc q, rarg q) | None => (0, 0)%nat end.

Definition accounted p ws l (sub : list (nat * nat)) : Prop :=
  sub ≡ₚ called p ++ (call_of p <$> todo ws l).

Lemma omap_front t ws : omap doing (t :: ws) = option_list (doing t) ++ omap doing ws.
Proof. by destruct t. Qed.

Lemma omap_move ws i t t' : ws !! i = Some t -> exists k,
  omap doing ws ≡ₚ option_list (doing t) ++ k /\ omap doing (<[i := t']> ws) ≡ₚ option_list (doing t') ++ k.
Proof.
  intros Hi. exists (omap doing (take i ws) ++ omap doing (drop (Datatypes.S i) ws)).
  rewrite insert_take_drop by (by eapply lookup_lt_Some). rewrite <- (take_drop_middle ws i t Hi) at 1.
  rewrite !omap_app, !omap_front. split; apply Permutation_app_swap_app.
Qed.

Lemma omap_same ws i t t' : ws !! i = Some t -> doing t' = doing t ->
  omap doing (<[i := t']> ws) ≡ₚ omap doing ws.
Proof. intros Hi E. destruct (omap_move ws i t t' Hi) as (k & -> & ->). by rewrite E. Qed.

Lemma omap_signalled ws ws' : signalled ws ws' -> omap doing ws' ≡ₚ omap doing ws.
Proof. intros [[-> _]|(i & Hi & ->)]; [done|by eapply omap_same]. Qed.

Lemma todo_pending ws l r : r ∈ todo ws l -> pending ws l r.
Proof.
  intros [(t & Ht & E)%list_elem_of_omap|?]%elem_of_app; [right|by left].
  apply list_elem_of_lookup in Ht as [i Hi]. exists i, t. by destruct t; simplify_eq/=.
Qed.

Lemma accounted_frame p p' ws l sub : pool_inv p ws l ->
  called p' = called p -> (forall r, pending ws l r -> reqs p' !! r = reqs p !! r) ->
  accounted p ws l sub -> accounted p' ws l sub.
Proof.
  intros I Hc Hr A. unfold accounted. rewrite Hc.
  replace (call_of p' <$> todo ws l) with (call_of p <$> todo ws l); [done|].
  apply list_fmap_ext. intros i r Hi. unfold call_of. rewrite Hr; [done|].
  by eapply todo_pending, list_elem_of_lookup_2.
Qed.

Lemma thread_ok p ws l i t sub : pool_inv p ws l -> ws !! i = Some t -> accounted p ws l sub ->
  exists p' t' l', coroc_async_thread_routine i p = Ok (tt, p') /\
    pool_inv p' (<[i := t']> ws) l' /\ accounted p' (<[i := t']> ws) l' sub.
Proof.
  intros I Hi A. unfold coroc_async_thread_routine.
  rewrite (bind_ok _ _ _ t p) by (unfold get_worker; by rewrite (pi_threads _ _ _ I), Hi).
  destruct t as [| |r|r].
  - destruct l as [|r l].
    + destruct (take_empty_ok p ws i I Hi) as (p' & E & I' & Hr & Hc & _). exists p', a_cond, []. split_and!; [done|done|].
      unfold accounted in *. rewrite Hc. unfold call_of in *. rewrite Hr. unfold todo in *.
      by rewrite (omap_same ws i a_top a_cond Hi).
    + destruct (take_ok p ws r l i I Hi) as (p' & E & I' & Hr & Hc & _). exists p', (a_work r), l.
      split_and!; [done|done|]. unfold accounted in *. rewrite Hc. unfold call_of in *. rewrite Hr. unfold todo in *.
      destruct (omap_move ws i a_top (a_work r) Hi) as (k & E1 & E2). rewrite E2. rewrite E1 in A. cbn in *.
      by rewrite A, fmap_app, fmap_cons, fmap_app, <- Permutation_middle.
  - destruct (worker_wakeup_ok p ws l i I Hi) as (p' & E & I' & Hr & Hc & _). exists p', a_top, l. split_and!; [done|done|].
    unfold accounted in *. rewrite Hc. unfold call_of in *. rewrite Hr. unfold todo in *.
    by rewrite (omap_same ws i a_cond a_top Hi).
  - destruct (call_ok p ws l i r I Hi) as (p' & q & E & I' & Hq & Hr & Hc & _). exists p', (a_ready r), l.
    split_and!; [done|done|]. unfold accounted in *. rewrite Hc, A. unfold call_of. rewrite Hr. unfold todo in *.
    destruct (omap_move ws i (a_work r) (a_ready r) Hi) as (k & E1 & E2). rewrite E1, E2. cbn.
    rewrite Hq, <- app_assoc. done.
  - destruct (ready_ok p ws l i r I Hi) as (p' & q & E & I' & Hq & Hr & Hc & _). exists p', a_top, l.
    split_and!; [done|done|]. unfold accounted in *. rewrite Hc. unfold call_of in *. rewrite Hr. unfold todo in *.
    by rewrite (omap_same ws i (a_ready r) a_top Hi).
Qed.

Lemma event_ok e p ws l sub : pool_inv p ws l -> accounted p ws l sub -> allowed e p ->
  exists p' ws' l', aexec e p = Ok (tt, p') /\ pool_inv p' ws' l' /\ length ws' = length ws /\
    accounted p' ws' l' (sub ++ submits e).
Proof.
  intros I A Ha. destruct e as [pick self r f a|i|r|s]; cbn [aexec submits]; rewrite ?app_nil_r.
  - destruct Ha as (Hr & Hs & Hself & Hsz).
    destruct (submit_ok pick p ws l self r f a) as (p' & ws' & E & I' & G & Hr' & Hc & _); [done..|].
    assert (~ pending ws l r) as Hnp by (intros Hp; destruct (pi_reqs _ _ _ I r Hp); congruence).
    exists p', ws', (l ++ [r]). split_and!; [by rewrite (bind_ok _ _ _ _ _ E)|done| |].
    + destruct G as [[-> _]|(i & _ & ->)]; [done|apply length_insert].
    + apply (accounted_frame p p') in A; [|done|done|].
      * assert (call_of p' r = (f, a)) as Hcr by (unfold call_of; by rewrite Hr', lookup_insert_eq).
        unfold accounted, todo in *. rewrite A, (omap_signalled _ _ G), !fmap_app. cbn.
        rewrite Hcr, !app_assoc. done.
      * intros x Hx. rewrite Hr', lookup_insert_ne; [done|]. by intros ->.
  - destruct Ha as (ws' & Hw & Hi). assert (ws' = ws) as -> by (pose proof (pi_threads _ _ _ I); congruence).
    apply lookup_lt_is_Some in Hi as [t Hi].
    destruct (thread_ok p ws l i t sub I Hi A) as (p' & t' & l' & E & I' & A').
    exists p', (<[i := t']> ws), l'. split_and!; [done|done|apply length_insert|done].
  - destruct Ha as (q & Hq & Hw). destruct (resume_ok p ws l r q I Hq Hw) as (p' & E & I' & Hr & Hc & _ & Hnp).
    exists p', ws, l. split_and!; [done|done|done|]. apply (accounted_frame p); [done|done| |done].
    intros x Hx. rewrite Hr, lookup_delete_ne; [done|]. by intros ->.
  - exists (set_aenv s p), ws, l. split_and!; [done| |done|done].
    destruct I. split; try done. cbn. eauto.
Qed.

Lemma init_ok n p0 p : 0 < n -> reqs p0 = ∅ -> called p0 = [] -> aque p0 = mk_qstore ∅ ∅ ->
  coroc_async_pool_initialize n p0 = Ok (tt, p) ->
  let ws := replicate (Z.to_nat n) a_top in pool_inv p ws [] /\ accounted p ws [] [].
Proof.
  intros Hn Hr Hc Hq E ws. unfold coroc_async_pool_initialize in E. unfold bind at 1, modify at 1 in E.
  destruct (Z.eqb_spec n 0); [lia|]. unfold bind, on_aque, zoom, queue_init, modify in E. cbn in E.
  rewrite Hq in E. injection E as <-.
  assert (forall i t, ws !! i = Some t -> t = a_top) as Hws by (by intros i t [-> _]%lookup_replicate).
  assert (forall r, ~ pending ws [] r) as Hnp.
  { intros r [?%not_elem_of_nil|(i & t & ->%Hws & ?)]; done. }
  assert (omap doing ws = []) as Hom.
  { unfold ws. clear. generalize (Z.to_nat n). intros k. induction k as [|k IH]; [done|exact IH]. }
  split.
  - split; cbn; try done.
    + split; cbn; [apply NoDup_nil_2|lia|by rewrite lookup_insert_eq|done].
    + by intros r ?%not_elem_of_nil.
    + by intros r ?%Hnp.
    + by intros i t r ->%Hws.
    + by intros i j t u r ->%Hws.
    + by intros r q _ ?%Hnp.
    + rewrite Hr. intros r r' q q' Hx. by rewrite lookup_empty in Hx.
  - unfold accounted, todo. cbn. by rewrite Hom, Hc.
Qed.

Lemma reach_ok n p sub : 0 < n -> areach n p sub -> exists ws l,
  pool_inv p ws l /\ accounted p ws l sub /\ length ws = Z.to_nat n.
Proof.
  intros Hn R. induction R as [p0 p Hr Hc Hq E|p sub e p' R (ws & l & I & A & Hlen) Ha E].
  - destruct (init_ok n p0 p) as [I A]; [done..|]. eexists _, []. split_and!; [done|done|apply length_replicate].
  - destruct (event_ok e p ws l sub I A Ha) as (p2 & ws' & l' & E' & I' & Hl & A').
    assert (p2 = p') as -> by congruence. exists ws', l'. by rewrite Hl.
Qed.

(** Thread [i] does [k] steps. *)
Fixpoint thread_run (k : nat) (i : nat) : ST (pool S) unit :=
  match k with
  | 0%nat => ret tt
  | Datatypes.S k => do! coroc_async_thread_routine i in thread_run k i
  end.

Lemma thread_run_app k k' i p p1 p2 : thread_run k i p = Ok (tt, p1) -> thread_run k' i p1 = Ok (tt, p2) ->
  thread_run (k + k') i p = Ok (tt, p2).
Proof.
  revert p. induction k as [|k IH]; cbn; intros p E E'; [by injection E as ->|].
  apply bind_inv in E as ([] & s & E1 & E2). rewrite (bind_ok _ _ _ _ _ E1). by apply IH.
Qed.

Lemma routine_at p ws l i t : pool_inv p ws l -> ws !! i = Some t ->
  coroc_async_thread_routine i p =
  match t with
  | a_top => worker_take i | a_cond => set_worker i a_top
  | a_work r => worker_call i r | a_ready r => worker_ready i r
  end p.
Proof.
  intros I Hi. unfold coroc_async_thread_routine.
  by rewrite (bind_ok _ _ _ t p) by (unfold get_worker; by rewrite (pi_threads _ _ _ I), Hi).
Qed.

Lemma at_insert ws i (t u : worker) : ws !! i = Some t -> <[i := u]> ws !! i = Some u.
Proof. intros Hi. apply list_lookup_insert_eq. by eapply lookup_lt_Some. Qed.

(** The coroutine of [r] is no longer suspended. *)
Definition released (p : pool S) (r : rid) : Prop :=
  forall q, reqs p !! r = Some q -> ~ ae_waiting (aenv p) (rwait q).

(** From having done the call of [r]: one step. *)
Lemma finish_ready p ws l i r : pool_inv p ws l -> ws !! i = Some (a_ready r) ->
  exists p', thread_run 1 i p = Ok (tt, p') /\ pool_inv p' (<[i := a_top]> ws) l /\
    reqs p' = reqs p /\ released p' r /\ (forall d, ae_waiting (aenv p') d -> ae_waiting (aenv p) d).
Proof.
  intros I Hi. destruct (ready_ok p ws l i r I Hi) as (p' & q & E & I' & Hq & Hr & _ & Hw).
  exists p'. cbn. rewrite (bind_ok _ _ _ tt p') by (by rewrite (routine_at p ws l i _ I Hi)).
  split_and!; try done.
  - intros q'. rewrite Hr. intros Hq' Hd%Hw. destruct Hd as [_ Hd]. apply Hd. congruence.
  - intros d Hd%Hw. tauto.
Qed.

(** From having taken [r]: two steps. *)
Lemma finish_work p ws l i r : pool_inv p ws l -> ws !! i = Some (a_work r) ->
  exists p', thread_run 2 i p = Ok (tt, p') /\ pool_inv p' (<[i := a_top]> ws) l /\
    reqs p' = reqs p /\ released p' r /\ (forall d, ae_waiting (aenv p') d -> ae_waiting (aenv p) d).
Proof.
  intros I Hi. destruct (call_ok p ws l i r I Hi) as (p1 & q & E & I1 & Hq & Hr & _ & Hw).
  destruct (finish_ready p1 (<[i := a_ready r]> ws) l i r) as (p' & E' & I' & Hr' & Hrel & Hw');
    [done|by eapply at_insert|]. rewrite list_insert_insert_eq in I'.
  exists p'. change 2%nat with (1 + 1)%nat. split_and!; [|done|congruence|done|naive_solver].
  apply (thread_run_app 1 1 i p p1 p'); [|done]. cbn.
  by rewrite (bind_ok _ _ _ tt p1) by (by rewrite (routine_at p ws l i _ I Hi)).
Qed.

(** A thread that is awake empties the queue on its own. *)
Lemma drain l : forall p ws i, pool_inv p ws l -> ws !! i = Some a_top ->
  exists p', thread_run (3 * length l) i p = Ok (tt, p') /\ pool_inv p' ws [] /\
    reqs p' = reqs p /\ (forall r, r ∈ l -> released p' r) /\
    (forall d, ae_waiting (aenv p') d -> ae_waiting (aenv p) d).
Proof.
  induction l as [|r l IH]; intros p ws i I Hi.
  { exists p. split_and!; try done. by intros r ?%not_elem_of_nil. }
  destruct (take_ok p ws r l i I Hi) as (p1 & E1 & I1 & Hr1 & _ & He1).
  destruct (finish_work p1 _ l i r I1 (at_insert _ _ _ _ Hi)) as (p2 & E2 & I2 & Hr2 & Hrel & Hw2).
  rewrite list_insert_insert_eq, list_insert_id in I2 by done.
  destruct (IH p2 ws i I2 Hi) as (p' & E' & I' & Hr' & Hrel' & Hw').
  exists p'. split_and!; [|done|congruence| |intros d Hd; rewrite <- He1; auto].
  - replace (3 * length (r :: l))%nat with (1 + (2 + 3 * length l))%nat by (cbn; lia).
    eapply thread_run_app; [|by eapply thread_run_app]. cbn.
    by rewrite (bind_ok _ _ _ tt p1) by (by rewrite (routine_at p ws _ i _ I Hi)).
  - intros x [->|Hx]%elem_of_cons; [|auto]. intros q Hq Hd. rewrite Hr' in Hq.
    apply (Hrel q); [done|auto].
Qed.

(** ** The theorems *)

(** C30: the pool is safe.  From the start of a pool with at least one thread,
    whatever coroutines submit, the threads do and the program does in between,
    no step faults: no request is used after its coroutine returned, no
    coroutine is made ready that does not wait, no thread takes a request that
    is not there. *)
Theorem async_pool_safe n p sub e : 0 < n -> areach n p sub -> allowed e p ->
  exists p', aexec e p = Ok (tt, p').
Proof.
  intros Hn R Ha. destruct (reach_ok n p sub Hn R) as (ws & l & I & A & _).
  destruct (event_ok e p ws l sub I A Ha) as (p' & _ & _ & E & _). eauto.
Qed.

(** C31: every submitted call is done exactly once: the submitted calls are
    those done, those a thread has taken and those in the queue, and a
    coroutine is suspended as long as its call is not done. *)
Theorem async_calls_once n p sub : 0 < n -> areach n p sub ->
  exists ws l, threads p = Some ws /\ fwd_rep (aque p) tt false l /\
    sub ≡ₚ called p ++ (call_of p <$> omap doing ws ++ l) /\
    (forall r q, reqs p !! r = Some q -> r ∈ omap doing ws ++ l -> ae_waiting (aenv p) (rwait q)).
Proof.
  intros Hn R. destruct (reach_ok n p sub Hn R) as (ws & l & I & A & _).
  exists ws, l. split_and!; [apply I|apply I|done|].
  intros r q Hq Hr. by apply (pi_wait _ _ _ I r q Hq), todo_pending.
Qed.

(** No request waits for ever.  Whenever the queue is not empty one of the
    threads is awake, and on its own it serves all of it within three steps per
    request and at most two more: every coroutine whose request was in the
    queue is ready then. *)
Theorem async_pool_progress n p sub : 0 < n -> areach n p sub ->
  exists l, fwd_rep (aque p) tt false l /\
    (l <> [] -> exists i k p', (k <= 3 * length l + 2)%nat /\ thread_run k i p = Ok (tt, p') /\
       fwd_rep (aque p') tt false [] /\ forall r, r ∈ l -> released p' r).
Proof.
  intros Hn R. destruct (reach_ok n p sub Hn R) as (ws & l & I & _ & Hlen).
  exists l. split; [apply I|]. intros Hl.
  destruct (pi_awake _ _ _ I Hl) as (i & t & Hi & Ht); [by intros ->; cbn in Hlen; lia|].
  assert (exists k p1, (k <= 2)%nat /\ thread_run k i p = Ok (tt, p1) /\ pool_inv p1 (<[i := a_top]> ws) l)
    as (k & p1 & Hk & E1 & I1).
  { destruct t as [| |r|r]; [|done|..].
    - exists 0%nat, p. split_and!; [lia|done|]. by rewrite list_insert_id.
    - destruct (finish_work p ws l i r I Hi) as (p' & ? & ? & _). by exists 2%nat, p'.
    - destruct (finish_ready p ws l i r I Hi) as (p' & ? & ? & _). exists 1%nat, p'. split_and!; [lia|done|done]. }
  destruct (drain l p1 _ i I1 (at_insert _ _ _ _ Hi)) as (p' & E & I' & _ & Hrel & _).
  exists i, (k + 3 * length l)%nat, p'. split_and!; [lia|by eapply thread_run_app|apply I'|done].
Qed.
End pool_proofs.

(** ** A pool with one thread *)

(** The coroutines that wait, as a set. *)
#[export] Instance waiting_set : AsyncEnv (gset coid) := {
  ae_waiting s c := c ∈ s;
  ae_ready c := fun s => if decide (c ∈ s) then Ok (tt, s ∖ {[c]}) else Err AssertFail;
  ae_suspend c := modify (fun s => s ∪ {[c]});
  ae_call _ _ := ret tt
}.

#[export] Instance waiting_set_laws : AsyncLaws (gset coid).
Proof.
  split; cbn.
  - intros s c Hc. rewrite decide_True by done. eexists. split; [done|]. set_solver.
  - intros s c _. eexists. split; [done|]. set_solver.
  - intros s _ _. by exists s.
Qed.

Definition result {A} (d : A) (r : res (unit * A)) : A := match r with Ok (_, p) => p | Err _ => d end.

Definition off : pool (gset coid) := mk_pool false (mk_qstore ∅ ∅) ∅ None [] ∅.
Definition started : pool (gset coid) := result off (coroc_async_pool_initialize 1 off).
Definition submitted : pool (gset coid) := result off (aexec (E_submit 0 5 100 1 2) started).
Definition taken_one : pool (gset coid) := result off (aexec (E_thread 0) submitted).

Lemma submitted_reachable : areach 1 submitted [(1, 2)]%nat.
Proof.
  apply (ar_step 1 started [] (E_submit 0 5 100 1 2)).
  - apply (ar_init 1 off); reflexivity.
  - split_and!; [reflexivity|set_solver|intros r q Hq; change (reqs started) with (∅ : gmap rid request) in Hq; by rewrite lookup_empty in Hq|reflexivity].
  - vm_compute. reflexivity.
Qed.

Lemma thread_allowed : allowed (E_thread 0) submitted.
Proof. exists [a_top]. split; [reflexivity|]. cbn. lia. Qed.

Lemma taken_reachable : areach 1 taken_one [(1, 2)]%nat.
Proof.
  apply (ar_step 1 submitted [(1, 2)]%nat (E_thread 0) taken_one); [exact submitted_reachable|exact thread_allowed|].
  vm_compute. reflexivity.
Qed.

Lemma async_pool_safe_witness : exists p', aexec (E_thread 0) submitted = Ok (tt, p').
Proof.
  apply (async_pool_safe 1 submitted [(1, 2)]%nat (E_thread 0));
    [reflexivity|exact submitted_reachable|exact thread_allowed].
Defined.

Lemma async_calls_once_witness :
  exists ws l, threads taken_one = Some ws /\ fwd_rep (aque taken_one) tt false l /\
    [(1, 2)]%nat ≡ₚ called taken_one ++ (call_of taken_one <$> omap doing ws ++ l) /\
    (forall r q, reqs taken_one !! r = Some q -> r ∈ omap doing ws ++ l -> ae_waiting (aenv taken_one) (rwait q)).
Proof. apply (async_calls_once 1 taken_one [(1, 2)]%nat); [reflexivity|exact taken_reachable]. Defined.

Lemma async_pool_progress_witness :
  exists l, fwd_rep (aque submitted) tt false l /\
    (l <> [] -> exists i k p', (k <= 3 * length l + 2)%nat /\ thread_run k i submitted = Ok (tt, p') /\
       fwd_rep (aque p') tt false [] /\ forall r, r ∈ l -> released p' r).
Proof. apply (async_pool_progress 1 submitted [(1, 2)]%nat); [reflexivity|exact submitted_reachable]. Defined.

(** The whole of a request: submitted, taken, called, made ready. *)
Example request_served :
  match thread_run 3 0 submitted with
  | Ok (_, p) => called p = [(1, 2)]%nat /\ aenv p = ∅
  | Err _ => False
  end.
Proof. vm_compute. by split. Qed.

(** A negative number of threads is taken for a pool without any: a submitted
    request suspends its coroutine and no thread ever takes it. *)
Definition negative_pool : pool (gset coid) :=
  result off (aexec (E_submit 0 5 100 1 2) (result off (coroc_async_pool_initialize (-1) off))).

Example negative_pool_blocks : threads negative_pool = Some [] /\ aenv negative_pool = {[5%nat]}.
Proof. vm_compute. by split. Qed.
