(* ===== verification/Vfs.v ===== *)
(** * Files (src/vfs.c, include/inter/vfs.h)

    A file operation is done by the calling thread ([sync]) or as a request to
    the pool of asynchronous threads.  A driver is a record of callbacks over
    a world [W] (files and memory) that this component does not look into.

    What the rest of the program does between the submission and the call, and
    between the call and the return, are the functions [before] and [after]:
    the pool does the call exactly once and the coroutine goes on afterwards
    (Async.v). *)

From S2P Require Import Prelude.

Abbreviation ptr := nat (only parsing).

(** [TSC_VFS_OPEN] and the others *)
Inductive ops_type : Type :=
| TSC_VFS_OPEN | TSC_VFS_CLOSE | TSC_VFS_READ | TSC_VFS_WRITE | TSC_VFS_LSEEK
| TSC_VFS_FLUSH | TSC_VFS_IOCTL.

Definition O_CREAT : Z := 64.

Section vfs.
Context {W : Type}.
Variables before after : W -> W.

(** [struct coroc_vfs_driver]; [None] is a null pointer. *)
Record coroc_vfs_driver := mk_driver {
  d_open : ptr -> Z -> Z -> ST W Z;
  d_read : Z -> ptr -> Z -> ST W Z;
  d_write : Z -> ptr -> Z -> ST W Z;
  d_lseek : option (Z -> Z -> Z -> ST W Z);
  d_flush : option (Z -> ST W unit);
  d_ioctl : option (Z -> Z -> Z -> ST W Z);
  d_close : Z -> ST W Z
}.

(** The default file driver: the system calls, without flush and ioctl. *)
Variables (os_open : ptr -> Z -> Z -> ST W Z) (os_read os_write : Z -> ptr -> Z -> ST W Z)
  (os_lseek : Z -> Z -> Z -> ST W Z) (os_close : Z -> ST W Z).
Definition coroc_vfs_file_drv : coroc_vfs_driver :=
  mk_driver os_open os_read os_write (Some os_lseek) None None os_close.

Record coroc_vfs_ops := mk_ops {
  o_type : ops_type;
  o_fd : Z;
  o_arg0 : Z;
  o_arg1 : Z;
  o_buf : option ptr;
  o_driver : coroc_vfs_driver
}.
Definition set_arg0 (v : Z) (o : coroc_vfs_ops) : coroc_vfs_ops :=
  mk_ops (o_type o) (o_fd o) v (o_arg1 o) (o_buf o) (o_driver o).

(** [coroc_vfs_callback], run by a thread of the pool: the operations after it. *)
Definition coroc_vfs_callback (ops : coroc_vfs_ops) : ST W coroc_vfs_ops :=
  let drv := o_driver ops in
  match o_type ops with
  | TSC_VFS_OPEN =>
      let! b := demand NullDeref (o_buf ops) in
      let! fd := d_open drv b (i32 (o_arg0 ops)) (i32 (o_arg1 ops)) in
      ret (set_arg0 fd ops)
  | TSC_VFS_CLOSE => do! d_close drv (o_fd ops) in ret ops
  | TSC_VFS_FLUSH =>
      do! (match d_flush drv with Some f => f (o_fd ops) | None => ret tt end) in ret ops
  | TSC_VFS_READ =>
      let! b := demand NullDeref (o_buf ops) in
      let! sz := d_read drv (o_fd ops) b (u64 (o_arg0 ops)) in
      ret (set_arg0 sz ops)
  | TSC_VFS_WRITE =>
      let! b := demand NullDeref (o_buf ops) in
      let! sz := d_write drv (o_fd ops) b (u64 (o_arg0 ops)) in
      ret (set_arg0 sz ops)
  | TSC_VFS_LSEEK =>
      match d_lseek drv with
      | Some f => let! off := f (o_fd ops) (i64 (o_arg0 ops)) (i32 (o_arg1 ops)) in
                  ret (set_arg0 off ops)
      | None => throw Uninit          (* [off] is stored without a value *)
      end
  | TSC_VFS_IOCTL =>
      let! r := (match d_ioctl drv with
                 | Some f => f (o_fd ops) (i32 (o_arg0 ops)) (i32 (o_arg1 ops))
                 | None => ret (-1)
                 end) in
      ret (set_arg0 r ops)
  end.

(** [__coroc_vfs_add_ops] *)
Definition __coroc_vfs_add_ops (ops : coroc_vfs_ops) : ST W coroc_vfs_ops :=
  do! modify before in
  let! ops := coroc_vfs_callback ops in
  do! modify after in
  ret ops.

Definition __coroc_vfs_init_ops (type : ops_type) (fd arg0 arg1 : Z) (buf : option ptr)
    (drv : coroc_vfs_driver) : coroc_vfs_ops :=
  mk_ops type fd (i64 arg0) (i64 arg1) buf drv.

(** [None]: the default driver. *)
Definition the_driver (drv : option coroc_vfs_driver) : coroc_vfs_driver :=
  match drv with Some d => d | None => coroc_vfs_file_drv end.

(** [mode]: the argument after [flags], if the caller gave one. *)
Definition __coroc_vfs_open (drv : option coroc_vfs_driver) (sync : bool) (name : ptr) (flags : Z)
    (vmode : option Z) : ST W Z :=
  let drv := the_driver drv in
  let! mode := (if Z.land flags O_CREAT =? 0 then ret 420 else demand Uninit vmode) in
  if sync then d_open drv name flags mode else
  let! ops := __coroc_vfs_add_ops (__coroc_vfs_init_ops TSC_VFS_OPEN 0 flags mode (Some name) drv) in
  ret (i32 (o_arg0 ops)).

Definition __coroc_vfs_close (drv : option coroc_vfs_driver) (sync : bool) (fd : Z) : ST W Z :=
  let drv := the_driver drv in
  if sync then d_close drv fd else
  let! ops := __coroc_vfs_add_ops (__coroc_vfs_init_ops TSC_VFS_CLOSE fd 0 0 None drv) in
  ret (i32 (o_arg0 ops)).

(** [sync && drv->flush] *)
Definition __coroc_vfs_flush (drv : option coroc_vfs_driver) (sync : bool) (fd : Z) : ST W unit :=
  let drv := the_driver drv in
  match sync, d_flush drv with
  | true, Some f => f fd
  | _, _ =>
      do! __coroc_vfs_add_ops (__coroc_vfs_init_ops TSC_VFS_FLUSH fd 0 0 None drv) in ret tt
  end.

Definition __coroc_vfs_read (drv : option coroc_vfs_driver) (sync : bool) (fd : Z) (buf : ptr) (size : Z)
  : ST W Z :=
  let drv := the_driver drv in
  if sync then d_read drv fd buf size else
  let! ops := __coroc_vfs_add_ops (__coroc_vfs_init_ops TSC_VFS_READ fd size 0 (Some buf) drv) in
  ret (i64 (o_arg0 ops)).

Definition __coroc_vfs_write (drv : option coroc_vfs_driver) (sync : bool) (fd : Z) (buf : ptr) (size : Z)
  : ST W Z :=
  let drv := the_driver drv in
  if sync then d_write drv fd buf size else
  let! ops := __coroc_vfs_add_ops (__coroc_vfs_init_ops TSC_VFS_WRITE fd size 0 (Some buf) drv) in
  ret (i64 (o_arg0 ops)).

Definition __coroc_vfs_lseek (drv : option coroc_vfs_driver) (sync : bool) (fd offset whence : Z) : ST W Z :=
  let drv := the_driver drv in
  if sync then
    match d_lseek drv with None => ret (-1) | Some f => f fd offset whence end
  else
  let! ops := __coroc_vfs_add_ops (__coroc_vfs_init_ops TSC_VFS_LSEEK fd offset whence None drv) in
  ret (i64 (o_arg0 ops)).

(** [voption]: the argument after [cmd], if the caller gave one. *)
Definition __coroc_vfs_ioctl (drv : option coroc_vfs_driver) (sync : bool) (fd cmd : Z)
    (voption : option Z) : ST W Z :=
  let drv := the_driver drv in
  let! option := demand Uninit voption in
  if sync then
    match d_ioctl drv with None => ret (-1) | Some f => f fd cmd option end
  else
  let! ops := __coroc_vfs_add_ops (__coroc_vfs_init_ops TSC_VFS_IOCTL fd cmd option None drv) in
  ret (i32 (o_arg0 ops)).

(** ** The asynchronous calls do what the synchronous ones do *)

(** The same operation on the world at the time of the call. *)
Definition delayed {A} (c : ST W A) : ST W A :=
  do! modify before in let! a := c in do! modify after in ret a.

(** The results of a driver are values of their C types. *)
Definition yields (P : Z -> Prop) (c : ST W Z) : Prop := forall w r w', c w = Ok (r, w') -> P r.
Definition int (x : Z) : Prop := - 2 ^ 31 <= x < 2 ^ 31.
Definition long (x : Z) : Prop := - 2 ^ 63 <= x < 2 ^ 63.
Record well_typed (d : coroc_vfs_driver) : Prop := {
  wt_open n f m : yields int (d_open d n f m);
  wt_read fd b n : yields long (d_read d fd b n);
  wt_write fd b n : yields long (d_write d fd b n);
  wt_lseek f : d_lseek d = Some f -> forall fd o w, yields long (f fd o w);
  wt_ioctl f : d_ioctl d = Some f -> forall fd c o, yields int (f fd c o)
}.

(** A call [c] whose result is stored in [arg0] and read back through [cast]. *)
Lemma stored_result (ops : coroc_vfs_ops) (c : ST W Z) (cast : Z -> Z) (P : Z -> Prop) w :
  (forall w, coroc_vfs_callback ops w = (let! r := c in ret (set_arg0 r ops)) w) ->
  yields P c -> (forall r, P r -> cast r = r) ->
  (let! o := __coroc_vfs_add_ops ops in ret (cast (o_arg0 o))) w = delayed c w.
Proof.
  intros Hcb Hy Hc. unfold __coroc_vfs_add_ops, delayed, bind, modify, ret.
  rewrite Hcb. unfold bind, ret. destruct (c (before w)) as [[r w']|] eqn:E; [|done].
  cbn. rewrite Hc; [done|by eapply Hy].
Qed.

Lemma int_i32 x : int x -> i32 x = x.
Proof. apply i32_small. Qed.
Lemma long_i64 x : long x -> i64 x = x.
Proof. apply i64_small. Qed.
Lemma int_i64 x : int x -> i64 x = x.
Proof. unfold int. intros. apply i64_small. lia. Qed.
Lemma int_cast x : int x -> i32 (i64 x) = x.
Proof. intros Hx. by rewrite int_i64, int_i32. Qed.
Lemma size_cast x : 0 <= x < 2 ^ 64 -> u64 (i64 x) = x.
Proof.
  intros Hx. unfold u64, i64. rewrite Zminus_mod_idemp_l.
  replace (x + 2 ^ 63 - 2 ^ 63) with x by lia. by apply Z.mod_small.
Qed.

Lemma open_async drv name flags vmode w : well_typed (the_driver drv) -> int flags ->
  (forall m, vmode = Some m -> int m) ->
  __coroc_vfs_open drv false name flags vmode w = delayed (__coroc_vfs_open drv true name flags vmode) w.
Proof.
  intros T Hf Hm. unfold __coroc_vfs_open.
  set (mode := if Z.land flags O_CREAT =? 0 then Some 420 else vmode).
  replace (if Z.land flags O_CREAT =? 0 then _ else _) with (demand (S := W) Uninit mode)
    by (unfold mode; by destruct (Z.land flags O_CREAT =? 0)).
  assert (forall m, mode = Some m -> int m) as Hm'.
  { unfold mode, int. destruct (Z.land flags O_CREAT =? 0); [intros ? [= <-]; lia|done]. }
  clearbody mode. destruct mode as [m|]; [|done].
  etransitivity; [|exact (stored_result (__coroc_vfs_init_ops TSC_VFS_OPEN 0 flags m (Some name) (the_driver drv))
    (d_open (the_driver drv) name flags m) i32 int w
    ltac:(intros w'; cbn; unfold bind at 1; cbn; by rewrite !int_cast by auto) (wt_open _ T _ _ _) int_i32)].
  done.
Qed.

Lemma read_async drv fd buf size w : well_typed (the_driver drv) -> 0 <= size < 2 ^ 64 ->
  __coroc_vfs_read drv false fd buf size w = delayed (__coroc_vfs_read drv true fd buf size) w /\
  __coroc_vfs_write drv false fd buf size w = delayed (__coroc_vfs_write drv true fd buf size) w.
Proof.
  intros T Hs. split.
  - apply (stored_result _ (d_read (the_driver drv) fd buf size) i64 long); [|apply T|apply long_i64].
    intros w'. cbn. unfold bind at 1. cbn. by rewrite size_cast.
  - apply (stored_result _ (d_write (the_driver drv) fd buf size) i64 long); [|apply T|apply long_i64].
    intros w'. cbn. unfold bind at 1. cbn. by rewrite size_cast.
Qed.

Lemma lseek_async drv fd offset whence f w : well_typed (the_driver drv) -> long offset -> int whence ->
  d_lseek (the_driver drv) = Some f ->
  __coroc_vfs_lseek drv false fd offset whence w = delayed (__coroc_vfs_lseek drv true fd offset whence) w.
Proof.
  intros T Ho Hw Hf. unfold __coroc_vfs_lseek. rewrite Hf.
  apply (stored_result _ (f fd offset whence) i64 long); [|by apply T|apply long_i64].
  intros w'. cbn. rewrite Hf. by rewrite !long_i64, int_cast by (rewrite ?long_i64; done).
Qed.

Lemma ioctl_async drv fd cmd vopt w : well_typed (the_driver drv) -> int cmd ->
  (forall o, vopt = Some o -> int o) ->
  __coroc_vfs_ioctl drv false fd cmd vopt w = delayed (__coroc_vfs_ioctl drv true fd cmd vopt) w.
Proof.
  intros T Hc Ho. unfold __coroc_vfs_ioctl. destruct vopt as [o|]; [|done].
  change (delayed _ w) with (delayed (match d_ioctl (the_driver drv) with None => ret (-1) | Some f => f fd cmd o end) w).
  apply (stored_result _ (match d_ioctl (the_driver drv) with None => ret (-1) | Some f => f fd cmd o end) i32 int);
    [| |apply int_i32].
  - intros w'. cbn. unfold bind. destruct (d_ioctl (the_driver drv)); [|done]. by rewrite !int_cast by auto.
  - destruct (d_ioctl (the_driver drv)) eqn:E; [by apply T|]. intros ? r ? [= <- _]. unfold int. lia.
Qed.

(** ** The theorems *)


(** Where the two forms differ.  An asynchronous close returns 0 whatever
    the driver returned; for a driver without lseek the synchronous form
    reports -1 and the asynchronous one returns an indeterminate value; and a
    synchronous flush with a driver that has none, such as the default one, is
    a request to the pool. *)
Theorem vfs_async_differs drv fd offset whence w :
  __coroc_vfs_close drv false fd w = delayed (do! __coroc_vfs_close drv true fd in ret 0) w /\
  (d_lseek (the_driver drv) = None ->
     __coroc_vfs_lseek drv true fd offset whence w = Ok (-1, w) /\
     __coroc_vfs_lseek drv false fd offset whence w = Err Uninit) /\
  __coroc_vfs_flush None true fd w = Ok (tt, after (before w)).
Proof.
  split_and!.
  - unfold __coroc_vfs_close, delayed, __coroc_vfs_add_ops, bind, modify, ret. cbn. unfold bind, ret.
    by destruct (d_close _ fd (before w)) as [[]|].
  - intros E. unfold __coroc_vfs_lseek. rewrite E. split; [done|].
    unfold __coroc_vfs_add_ops, bind, modify. cbn. by rewrite E.
  - done.
Qed.
End vfs.

(** ** A driver over one file *)

(** The bytes of the file, the position, and memory as one buffer. *)
Record fworld := mk_fworld { f_bytes : list Z; f_pos : nat; f_mem : list Z }.

Definition file_read (fd : Z) (b : ptr) (n : Z) : ST fworld Z := fun w =>
  let got := take (Z.to_nat n) (drop (f_pos w) (f_bytes w)) in
  Ok (Z.of_nat (length got) mod 2 ^ 31, mk_fworld (f_bytes w) (f_pos w + length got) got).
Definition file_lseek (fd off whence : Z) : ST fworld Z := fun w =>
  Ok (off mod 2 ^ 31, mk_fworld (f_bytes w) (Z.to_nat (off mod 2 ^ 31)) (f_mem w)).
Definition file_write (fd : Z) (b : ptr) (n : Z) : ST fworld Z := fun w =>
  Ok (Z.of_nat (length (f_mem w)) mod 2 ^ 31, mk_fworld (f_bytes w ++ f_mem w) (f_pos w) (f_mem w)).
Definition file_drv : coroc_vfs_driver :=
  mk_driver (fun _ _ _ => ret 3) file_read file_write (Some file_lseek) None None (fun _ => ret (-1)).

Lemma small_typed x : int (x mod 2 ^ 31) /\ long (x mod 2 ^ 31).
Proof. pose proof (Z.mod_pos_bound x (2 ^ 31) eq_refl). unfold int, long. lia. Qed.

Lemma file_drv_typed : well_typed file_drv.
Proof.
  split; cbn.
  - intros n f m w r w' [= <- _]. unfold int. lia.
  - intros fd b n w r w' [= <- _]. apply small_typed.
  - intros fd b n w r w' [= <- _]. apply small_typed.
  - intros f [= <-] fd o wh w r w' [= <- _]. apply small_typed.
  - done.
Qed.

(** While the coroutine is suspended, another one moves the file to 1. *)
Definition moved (w : fworld) : fworld := mk_fworld (f_bytes w) 1 (f_mem w).


(** The driver's close fails with -1; the coroutine sees 0. *)
Lemma vfs_async_differs_witness :
  __coroc_vfs_close moved id (fun _ _ _ => ret 3) file_read file_write file_lseek (fun _ => ret 0)
    (Some file_drv) false 3 (mk_fworld [] 0 []) = Ok (0, mk_fworld [] 1 []) /\
  __coroc_vfs_close moved id (fun _ _ _ => ret 3) file_read file_write file_lseek (fun _ => ret 0)
    (Some file_drv) true 3 (mk_fworld [] 0 []) = Ok (-1, mk_fworld [] 0 []).
Proof.
  destruct (vfs_async_differs moved id (fun _ _ _ => ret 3) file_read file_write file_lseek (fun _ => ret 0)
    (Some file_drv) 3 0 0 (mk_fworld [] 0 [])) as (E & _ & _).
  rewrite E. vm_compute. split; reflexivity.
Defined.
