(* ===== verification/Netpoll.v ===== *)
(** * Waiting for the network (src/netpoll.c, src/netpoll_epoll.c,
      include/inter/netpoll.h, include/inter/refcnt.h)

    First the transfers [coroc_net_read], [coroc_net_timed_read] and
    [coroc_net_write], over a socket ([Socket]); then the descriptors by which
    coroutines wait, over a class of back ends with epoll as an instance.

    A descriptor is shared by the coroutine that waits, by the poller and by
    the timer of a timed wait; each has a reference, and the last one to drop
    its reference frees it.  [descs] has the descriptors that are not freed: an
    access to another one is a dangling one.

    The poller works on the events one [epoll_wait] gave it ([batch]); between
    two of them the timer and the coroutines may do their part.  The part of
    the scheduler is the interface of Async.v. *)

From S2P Require Import Prelude Queue Async.

(** ** Transfers *)

(** The result of read(2) and write(2): bytes or their number, EAGAIN, or
    another error. *)
Inductive io (A : Type) : Type := io_done (a : A) | io_again | io_error.
Arguments io_done {A} a.
Arguments io_again {A}.
Arguments io_error {A}.

Class Socket (W : Type) := {
  so_read : Z -> ST W (io (list Z));
  so_write : list Z -> ST W (io Z);
  so_wait : ST W unit;                  (* coroc_net_wait *)
  so_timedwait : Z -> ST W bool;        (* coroc_net_timedwait; false: timed out *)
  so_input : W -> list Z;               (* the bytes still to come *)
  so_sent : W -> list Z;                (* the bytes handed over *)
  so_patience : W -> nat                (* how often EAGAIN can still come *)
}.

(** read(2) gives the next bytes, none only at the end; write(2) takes bytes
    from the front; EAGAIN does not come for ever; waiting moves no bytes. *)
Class SocketLaws (W : Type) `{Socket W} := {
  so_read_spec n w : 0 < n -> exists r w', so_read n w = Ok (r, w') /\ so_sent w' = so_sent w /\
    match r with
    | io_done bs => (so_patience w' <= so_patience w)%nat /\ Z.of_nat (length bs) <= n /\
                    so_input w = bs ++ so_input w' /\ (bs = [] -> so_input w = [])
    | io_again => (so_patience w' < so_patience w)%nat /\ so_input w' = so_input w
    | io_error => so_input w' = so_input w
    end;
  so_write_spec data w : data <> [] -> exists r w', so_write data w = Ok (r, w') /\ so_input w' = so_input w /\
    match r with
    | io_done m => (so_patience w' <= so_patience w)%nat /\ 0 <= m <= Z.of_nat (length data) /\
                   so_sent w' = so_sent w ++ take (Z.to_nat m) data
    | io_again => (so_patience w' < so_patience w)%nat /\ so_sent w' = so_sent w
    | io_error => so_sent w' = so_sent w
    end;
  so_wait_spec w : exists w', so_wait w = Ok (tt, w') /\ so_input w' = so_input w /\
    so_sent w' = so_sent w /\ (so_patience w' <= so_patience w)%nat;
  so_timedwait_spec us w : exists b w', so_timedwait us w = Ok (b, w') /\ so_input w' = so_input w /\
    so_sent w' = so_sent w /\ (so_patience w' <= so_patience w)%nat
}.

Section transfer.
Context {W : Type} `{SocketLaws W}.

(** The loops of [coroc_net_read]: result and buffer.  An EAGAIN repeats the
    inner loop with the same arguments. *)
Fixpoint net_read_loop (fuel : nat) (n total : Z) (buf : list Z) : ST W (Z * list Z) :=
  match fuel with
  | 0%nat => throw OutOfFuel
  | S fuel =>
      if total <? n then
        let! m := so_read (n - total) in
        match m with
        | io_again => do! so_wait in net_read_loop fuel n total buf
        | io_error => ret (-1, buf)
        | io_done bs => if Z.of_nat (length bs) =? 0 then ret (total, buf)
                        else net_read_loop fuel n (total + Z.of_nat (length bs)) (buf ++ bs)
        end
      else ret (total, buf)
  end.
Definition coroc_net_read (fuel : nat) (n : Z) : ST W (Z * list Z) := net_read_loop fuel n 0 [].

Fixpoint coroc_net_timed_read (fuel : nat) (n timeout : Z) : ST W (Z * list Z) :=
  match fuel with
  | 0%nat => throw OutOfFuel
  | S fuel =>
      let! m := so_read n in
      match m with
      | io_again => let! ok := so_timedwait timeout in
                    if (ok : bool) then coroc_net_timed_read fuel n timeout else ret (-1, [])
      | io_error => ret (-1, [])
      | io_done bs => ret (Z.of_nat (length bs), bs)
      end
  end.

Fixpoint net_write_loop (fuel : nat) (buf : list Z) (total : Z) : ST W Z :=
  match fuel with
  | 0%nat => throw OutOfFuel
  | S fuel =>
      let n := Z.of_nat (length buf) in
      if total <? n then
        let! m := so_write (drop (Z.to_nat total) buf) in
        match m with
        | io_again => do! so_wait in net_write_loop fuel buf total
        | io_error => ret (-1)
        | io_done m => if m =? 0 then ret total else net_write_loop fuel buf (total + m)
        end
      else ret total
  end.
Definition coroc_net_write (fuel : nat) (buf : list Z) : ST W Z := net_write_loop fuel buf 0.

(** Enough passes: one per byte and one per EAGAIN. *)
Definition read_fuel (n : Z) (w : W) : nat := S (Z.to_nat n + so_patience w).

Lemma read_loop_ok fuel : forall n total buf w, 0 <= total <= n ->
  (Z.to_nat (n - total) + so_patience w < fuel)%nat ->
  exists r got w', net_read_loop fuel n total buf w = Ok ((r, buf ++ got), w') /\
    so_input w = got ++ so_input w' /\ so_sent w' = so_sent w /\ Z.of_nat (length got) <= n - total /\
    (r = -1 \/ r = total + Z.of_nat (length got) /\ (r = n \/ so_input w' = [])).
Proof.
  induction fuel as [|fuel IH]; intros n total buf w Ht Hf; [lia|]. cbn [net_read_loop].
  destruct (Z.ltb_spec total n) as [Hlt|Hge].
  2:{ exists total, [], w. rewrite app_nil_r. cbn. split_and!; [done..|lia|]. right. split; [lia|left; lia]. }
  destruct (so_read_spec (n - total) w) as (m & w1 & E & Hs & Hm); [lia|].
  rewrite (bind_ok _ _ _ _ _ E). destruct m as [bs| |].
  - destruct Hm as (Hp & Hl & Hi & He). destruct (Z.eqb_spec (Z.of_nat (length bs)) 0) as [Hz|Hz].
    + assert (bs = []) as -> by (apply length_zero_iff_nil; lia).
      exists total, [], w1. rewrite app_nil_r. cbn. split_and!; [done|done|done|lia|]. right. split; [lia|right].
      rewrite (He eq_refl) in Hi. by rewrite Hi.
    + destruct (IH n (total + Z.of_nat (length bs)) (buf ++ bs) w1) as (r & got & w' & E' & Hi' & Hs' & Hl' & Hr);
        [lia|lia|].
      exists r, (bs ++ got), w'. rewrite E', <- app_assoc, length_app. split_and!; [done| |congruence|lia|].
      * by rewrite Hi, Hi', app_assoc.
      * destruct Hr as [?|[-> Hr]]; [by left|right]. split; [lia|]. destruct Hr; [left; lia|by right].
  - destruct Hm as [Hp Hi]. destruct (so_wait_spec w1) as (w2 & E2 & Hi2 & Hs2 & Hp2).
    rewrite (bind_ok _ _ _ _ _ E2).
    destruct (IH n total buf w2) as (r & got & w' & E' & Hi' & Hs' & Hl' & Hr); [lia|lia|].
    exists r, got, w'. split_and!; [done|congruence|congruence|done|done].
  - exists (-1), [], w1. rewrite app_nil_r. cbn. split_and!; [done|done|done|lia|by left].
Qed.

Lemma write_loop_ok fuel : forall buf total w, 0 <= total <= Z.of_nat (length buf) ->
  (Z.to_nat (Z.of_nat (length buf) - total) + so_patience w < fuel)%nat ->
  exists r k w', net_write_loop fuel buf total w = Ok (r, w') /\ so_input w' = so_input w /\
    total <= k <= Z.of_nat (length buf) /\
    so_sent w' = so_sent w ++ take (Z.to_nat (k - total)) (drop (Z.to_nat total) buf) /\
    (r = -1 \/ r = k).
Proof.
  induction fuel as [|fuel IH]; intros buf total w Ht Hf; [lia|]. cbn [net_write_loop].
  destruct (Z.ltb_spec total (Z.of_nat (length buf))) as [Hlt|Hge].
  2:{ exists total, total, w. replace (total - total) with 0 by lia. rewrite take_0, app_nil_r. auto with lia. }
  destruct (so_write_spec (drop (Z.to_nat total) buf) w) as (m & w1 & E & Hs & Hm).
  { intros E%(f_equal length). rewrite length_drop in E. cbn in E. lia. }
  rewrite (bind_ok _ _ _ _ _ E). destruct m as [m| |].
  - destruct Hm as (Hp & Hl & Hi). rewrite length_drop in Hl. destruct (Z.eqb_spec m 0) as [->|Hz].
    + exists total, total, w1. replace (total - total) with 0 by lia. cbn in Hi. rewrite take_0 in *. auto with lia.
    + destruct (IH buf (total + m) w1) as (r & k & w' & E' & Hi' & Hk & Hs' & Hr); [lia|lia|].
      exists r, k, w'. split_and!; [done|congruence|lia|lia| |done].
      rewrite Hs', Hi, <- app_assoc. f_equal.
      replace (Z.to_nat (total + m)) with (Z.to_nat total + Z.to_nat m)%nat by lia.
      rewrite <- drop_drop. replace (Z.to_nat (k - total)) with (Z.to_nat m + Z.to_nat (k - (total + m)))%nat by lia.
      by rewrite take_take_drop.
  - destruct Hm as [Hp Hi]. destruct (so_wait_spec w1) as (w2 & E2 & Hi2 & Hs2 & Hp2).
    rewrite (bind_ok _ _ _ _ _ E2).
    destruct (IH buf total w2) as (r & k & w' & E' & Hi' & Hk & Hs' & Hr); [lia|lia|].
    exists r, k, w'. split_and!; [done|congruence|lia|lia| |done]. by rewrite Hs', Hs2, Hi.
  - exists (-1), total, w1. replace (total - total) with 0 by lia. rewrite take_0, app_nil_r. auto with lia.
Qed.
End transfer.

(** ** Descriptors *)

Abbreviation did := nat (only parsing).

Definition TSC_NETPOLL_READ : Z := 1.
Definition TSC_NETPOLL_WRITE : Z := 2.
Definition TSC_NETPOLL_ERROR : Z := 4.
Definition EPOLLIN : Z := 1.
Definition EPOLLOUT : Z := 4.
Definition EPOLLERR : Z := 8.
Definition EPOLLRDHUP : Z := 8192.
Definition EPOLLET : Z := 2147483648.

(** [struct coroc_poll_desc]; [drefs] is the counter of its [refcnt]. *)
Record poll_desc := mk_desc {
  drefs : Z;
  ddone : bool;
  dfd : Z;
  dmode : Z;
  dwait : coid;
  dlock : bool
}.
Definition set_drefs v d := mk_desc v (ddone d) (dfd d) (dmode d) (dwait d) (dlock d).
Definition set_ddone v d := mk_desc (drefs d) v (dfd d) (dmode d) (dwait d) (dlock d).
Definition set_dmode v d := mk_desc (drefs d) (ddone d) (dfd d) v (dwait d) (dlock d).
Definition set_dlock v d := mk_desc (drefs d) (ddone d) (dfd d) (dmode d) (dwait d) v.

(** *** The back end

    epoll and kqueue differ in what they are asked for a mode, and in what the
    loop makes of an event; all else is the same code. *)

Class NetBackend := {
  be_events : Z -> Z;                   (* what is asked for a mode *)
  be_mode : Z -> Z -> Z -> Z            (* [mode] after an event, from [mode] before it,
                                           the mode of the descriptor and the event *)
}.

(** The events [__coroc_netpoll_ctl] asks for. *)
Definition ctl_events (mode : Z) : Z :=
  let e := EPOLLET in
  let e := if Z.land mode TSC_NETPOLL_READ =? 0 then e else Z.lor e (Z.lor EPOLLIN EPOLLRDHUP) in
  if Z.land mode TSC_NETPOLL_WRITE =? 0 then e else Z.lor e EPOLLOUT.

(** [mode] after an event of the loop. *)
Definition event_mode (mode dm ev : Z) : Z :=
  if negb (Z.land ev EPOLLERR =? 0) then TSC_NETPOLL_ERROR else
  let mode := if negb (Z.land dm TSC_NETPOLL_READ =? 0) && negb (Z.land ev (Z.lor EPOLLIN EPOLLRDHUP) =? 0)
              then Z.lor mode TSC_NETPOLL_READ else mode in
  if negb (Z.land dm TSC_NETPOLL_WRITE =? 0) && negb (Z.land ev EPOLLOUT =? 0)
  then Z.lor mode TSC_NETPOLL_WRITE else mode.

#[export] Instance epoll : NetBackend := { be_events := ctl_events; be_mode := event_mode }.

Section netpoll.
Context {S : Type} `{AsyncEnv S} {B : NetBackend}.

Record nworld := mk_nworld {
  descs : gmap did poll_desc;
  epset : gmap did Z;               (* the epoll set: descriptors with their events *)
  num_op : Z;                       (* __coroc_num_op *)
  armed : gset did;                 (* the deadlines in the timer heap *)
  inside : gset did;                (* the waits that have not returned *)
  late : gset did;                  (* the timeouts before their last statement *)
  batch : list (did * Z);           (* events the poller has still to handle *)
  bmode : Z;                        (* its variable [mode] *)
  nenv : S
}.
Definition set_descs v w := mk_nworld v (epset w) (num_op w) (armed w) (inside w) (late w) (batch w) (bmode w) (nenv w).
Definition set_epset v w := mk_nworld (descs w) v (num_op w) (armed w) (inside w) (late w) (batch w) (bmode w) (nenv w).
Definition set_num_op v w := mk_nworld (descs w) (epset w) v (armed w) (inside w) (late w) (batch w) (bmode w) (nenv w).
Definition set_armed v w := mk_nworld (descs w) (epset w) (num_op w) v (inside w) (late w) (batch w) (bmode w) (nenv w).
Definition set_inside v w := mk_nworld (descs w) (epset w) (num_op w) (armed w) v (late w) (batch w) (bmode w) (nenv w).
Definition set_late v w := mk_nworld (descs w) (epset w) (num_op w) (armed w) (inside w) v (batch w) (bmode w) (nenv w).
Definition set_batch v w := mk_nworld (descs w) (epset w) (num_op w) (armed w) (inside w) (late w) v (bmode w) (nenv w).
Definition set_bmode v w := mk_nworld (descs w) (epset w) (num_op w) (armed w) (inside w) (late w) (batch w) v (nenv w).
Definition set_nenv v w := mk_nworld (descs w) (epset w) (num_op w) (armed w) (inside w) (late w) (batch w) (bmode w) v.

Definition get_desc (d : did) : ST nworld poll_desc :=
  fun w => match descs w !! d with Some x => Ok (x, w) | None => Err Dangling end.
Definition upd_desc (d : did) (f : poll_desc -> poll_desc) : ST nworld unit :=
  fun w => match descs w !! d with
           | Some x => Ok (tt, set_descs (<[d := f x]> (descs w)) w)
           | None => Err Dangling
           end.
Definition on_nenv {A} (c : ST S A) : ST nworld A := zoom nenv set_nenv c.

(** [lock_acquire], [lock_release] of [desc->lock] *)
Definition dlock_acquire (d : did) : ST nworld unit :=
  let! x := get_desc d in
  if dlock x then throw SelfDeadlock else upd_desc d (set_dlock true).
Definition dlock_release (d : did) : ST nworld unit := upd_desc d (set_dlock false).

(** [coroc_refcnt_get], and [coroc_refcnt_put] with [TSC_DEALLOC] *)
Definition __coroc_refcnt_get (d : did) : ST nworld unit :=
  upd_desc d (fun x => set_drefs (u32 (drefs x + 1)) x).
Definition __coroc_refcnt_put (d : did) : ST nworld bool :=
  do! upd_desc d (fun x => set_drefs (u32 (drefs x - 1)) x) in
  let! x := get_desc d in
  if drefs x =? 0 then do! modify (fun w => set_descs (delete d (descs w)) w) in ret true
  else ret false.

(** [__coroc_poll_desc_init] of the descriptor at [d] for the caller [self] *)
Definition __coroc_poll_desc_init (self : coid) (d : did) (fd mode : Z) : ST nworld unit :=
  modify (fun w => set_descs (<[d := mk_desc 1 false fd mode self false]> (descs w)) w).

Definition __coroc_netpoll_add (d : did) : ST nworld unit :=
  do! __coroc_refcnt_get d in
  do! modify (fun w => set_num_op (i32 (num_op w + 1)) w) in
  let! x := get_desc d in
  modify (fun w => set_epset (<[d := be_events (dmode x)]> (epset w)) w).

Definition __coroc_netpoll_rem (d : did) : ST nworld unit :=
  do! __coroc_refcnt_put d in
  do! modify (fun w => set_num_op (i32 (num_op w - 1)) w) in
  let! x := get_desc d in
  modify (fun w => set_epset (delete d (epset w)) w).

(** [coroc_net_wait] up to the suspension, and after it. *)
Definition coroc_net_wait (self : coid) (d : did) (fd mode : Z) : ST nworld unit :=
  do! modify (fun w => set_inside ({[d]} ∪ inside w) w) in
  do! __coroc_poll_desc_init self d fd mode in
  do! dlock_acquire d in
  do! __coroc_netpoll_add d in
  do! on_nenv (ae_suspend self) in
  dlock_release d.

Definition net_wait_resume (d : did) : ST nworld Z :=
  do! modify (fun w => set_inside (inside w ∖ {[d]}) w) in
  let! x := get_desc d in
  do! __coroc_refcnt_put d in
  ret (dmode x).

(** [coroc_net_timedwait]: the timer has a reference of its own. *)
Definition coroc_net_timedwait (self : coid) (d : did) (fd mode usec : Z) : ST nworld unit :=
  do! assert_ (0 <? usec) in
  do! modify (fun w => set_inside ({[d]} ∪ inside w) w) in
  do! __coroc_poll_desc_init self d fd mode in
  do! __coroc_refcnt_get d in
  do! dlock_acquire d in
  do! __coroc_netpoll_add d in
  do! modify (fun w => set_armed ({[d]} ∪ armed w) w) in
  do! on_nenv (ae_suspend self) in
  dlock_release d.

(** [coroc_del_intertimer] gives 0 when the deadline was still in the heap. *)
Definition net_timedwait_resume (d : did) : ST nworld Z :=
  let! w := get in
  do! (if decide (d ∈ armed w) then
         do! modify (fun w => set_armed (armed w ∖ {[d]}) w) in
         do! __coroc_refcnt_put d in ret tt
       else ret tt) in
  net_wait_resume d.

(** [__coroc_netpoll_timeout], called by the timer daemon when it took the
    deadline of [d] from the heap: up to [vpu_ready], after which the coroutine
    may run on another VPU, *)
Definition timeout_fire (d : did) : ST nworld unit :=
  do! modify (fun w => set_armed (armed w ∖ {[d]}) w) in
  do! modify (fun w => set_late ({[d]} ∪ late w) w) in
  do! dlock_acquire d in
  let! x := get_desc d in
  let succ := negb (ddone x) in
  do! (if succ then
         do! upd_desc d (set_ddone true) in
         do! upd_desc d (set_dmode 0) in
         __coroc_netpoll_rem d
       else ret tt) in
  do! dlock_release d in
  if succ then let! x := get_desc d in on_nenv (ae_ready (dwait x)) else ret tt.

(** and the last reference. *)
Definition timeout_drop (d : did) : ST nworld unit :=
  do! modify (fun w => set_late (late w ∖ {[d]}) w) in
  do! __coroc_refcnt_put d in
  ret tt.

Definition __coroc_netpoll_timeout (d : did) : ST nworld unit :=
  do! timeout_fire d in timeout_drop d.

Definition coroc_netpoll_wakeup (d : did) : ST nworld unit :=
  do! dlock_acquire d in
  do! __coroc_netpoll_rem d in
  do! dlock_release d in
  let! x := get_desc d in
  on_nenv (ae_ready (dwait x)).

(** [__coroc_netpoll_polling]: [epoll_wait] gives events, *)
Definition poll_collect (events : list (did * Z)) : ST nworld unit :=
  modify (fun w => set_bmode 0 (set_batch events w)).

(** and one round of the loop; [mode] keeps its value from one to the next. *)
Definition poll_one : ST nworld unit :=
  let! w := get in
  match batch w with
  | [] => ret tt
  | (d, ev) :: rest =>
      do! modify (set_batch rest) in
      let! x := get_desc d in
      if ddone x then ret tt else
      do! upd_desc d (set_ddone true) in
      let mode := be_mode (bmode w) (dmode x) ev in
      do! modify (set_bmode mode) in
      do! upd_desc d (set_dmode mode) in
      coroc_netpoll_wakeup d
  end.

Definition __coroc_netpoll_size (w : nworld) : Z := num_op w.
End netpoll.
Arguments nworld S : clear implicits.

(** ** The invariant of the descriptors *)

Lemma bind_bind {S A B C} (c : ST S A) (k : A -> ST S B) (h : B -> ST S C) s :
  bind (bind c k) h s = bind c (fun a => bind (k a) h) s.
Proof. unfold bind. by destruct (c s) as [[]|]. Qed.

Section netpoll_proofs.
Context {S : Type} `{AsyncLaws S} {B : NetBackend}.
Implicit Types (w : nworld S) (d : did) (x : poll_desc).

Definition b2z (b : bool) : Z := if b then 1 else 0.

(** Who has a reference: the wait, the timer, a timeout that is under way, and
    the poller as long as nobody has claimed the descriptor. *)
Definition refs w d x : Z :=
  b2z (bool_decide (d ∈ inside w)) + b2z (bool_decide (d ∈ armed w)) +
  b2z (bool_decide (d ∈ late w)) + b2z (negb (ddone x)).

Definition desc_ok w d (o : option poll_desc) : Prop :=
  match o with
  | None => (d ∉ inside w) /\ (d ∉ armed w) /\ (d ∉ late w) /\ epset w !! d = None
  | Some x =>
      drefs x = refs w d x /\ 0 < drefs x /\ dlock x = false /\
      if ddone x then epset w !! d = None /\ (d ∈ inside w -> ~ ae_waiting (nenv w) (dwait x))
      else (d ∈ inside w) /\ (d ∉ late w) /\ ae_waiting (nenv w) (dwait x) /\ is_Some (epset w !! d)
  end.

Record ninv w : Prop := {
  ni_desc : forall d, desc_ok w d (descs w !! d);
  ni_own : forall d e x y, d ∈ inside w -> e ∈ inside w -> descs w !! d = Some x -> descs w !! e = Some y ->
    dwait x = dwait y -> d = e;
  ni_batch : forall d ev, (d, ev) ∈ batch w -> exists x, descs w !! d = Some x /\ ddone x = false;
  ni_once : NoDup (batch w).*1;
  ni_num : num_op w = Z.of_nat (size (epset w)) /\ num_op w < 2 ^ 31
}.

(** Nothing but what belongs to [d] changes. *)
Record only_at d w w' : Prop := {
  oa_descs : forall e, e <> d -> descs w' !! e = descs w !! e;
  oa_epset : forall e, e <> d -> epset w' !! e = epset w !! e;
  oa_armed : forall e, e <> d -> e ∈ armed w' <-> e ∈ armed w;
  oa_inside : forall e, e <> d -> e ∈ inside w' <-> e ∈ inside w;
  oa_late : forall e, e <> d -> e ∈ late w' <-> e ∈ late w;
  oa_wait : forall e y, e <> d -> e ∈ inside w -> descs w !! e = Some y ->
    ae_waiting (nenv w') (dwait y) <-> ae_waiting (nenv w) (dwait y)
}.

Lemma desc_ok_frame d w w' e : ninv w -> only_at d w w' -> e <> d -> desc_ok w' e (descs w' !! e).
Proof.
  intros I O Hne. pose proof (ni_desc _ I e) as D. rewrite (oa_descs _ _ _ O e Hne).
  destruct (descs w !! e) as [y|] eqn:Ey; cbn in *.
  - unfold refs in *. rewrite (oa_epset _ _ _ O e Hne).
    rewrite (bool_decide_ext _ _ (oa_inside _ _ _ O e Hne)), (bool_decide_ext _ _ (oa_armed _ _ _ O e Hne)),
      (bool_decide_ext _ _ (oa_late _ _ _ O e Hne)).
    destruct D as (? & ? & ? & D). split_and!; [done..|].
    destruct (ddone y).
    + destruct D as [? D]. split; [done|]. intros Hi%(oa_inside _ _ _ O e Hne).
      rewrite (oa_wait _ _ _ O e y) by done. auto.
    + destruct D as (Hi & Hl & Hw & ?). split_and!; [by apply (oa_inside _ _ _ O)|by rewrite (oa_late _ _ _ O)| |done].
      by rewrite (oa_wait _ _ _ O e y).
  - rewrite (oa_epset _ _ _ O e Hne), (oa_inside _ _ _ O e Hne), (oa_armed _ _ _ O e Hne), (oa_late _ _ _ O e Hne).
    done.
Qed.

(** The invariant after a step that concerns [d]. *)
Lemma ninv_step d w w' : ninv w -> only_at d w w' -> desc_ok w' d (descs w' !! d) ->
  (d ∈ inside w' -> forall x e y, descs w' !! d = Some x -> e <> d -> e ∈ inside w -> descs w !! e = Some y ->
     dwait y <> dwait x) ->
  (forall e ev, (e, ev) ∈ batch w' -> e <> d /\ (e, ev) ∈ batch w) -> NoDup (batch w').*1 ->
  num_op w' = Z.of_nat (size (epset w')) /\ num_op w' < 2 ^ 31 -> ninv w'.
Proof.
  intros I O D Hown Hb Hn Hz. split; [| | |done|done].
  - intros e. destruct (decide (e = d)) as [->|Hne]; [done|by eapply desc_ok_frame].
  - intros e e' x y He He' Hx Hy Exy.
    destruct (decide (e = d)) as [->|Hne], (decide (e' = d)) as [->|Hne']; [done| | |].
    + rewrite (oa_descs _ _ _ O e' Hne') in Hy. apply (oa_inside _ _ _ O e' Hne') in He'.
      by destruct (Hown He x e' y).
    + rewrite (oa_descs _ _ _ O e Hne) in Hx. apply (oa_inside _ _ _ O e Hne) in He.
      by destruct (Hown He' y e x).
    + rewrite (oa_descs _ _ _ O e Hne) in Hx. rewrite (oa_descs _ _ _ O e' Hne') in Hy.
      apply (oa_inside _ _ _ O e Hne) in He. apply (oa_inside _ _ _ O e' Hne') in He'.
      by eapply (ni_own _ I).
  - intros e ev Hin. destruct (Hb e ev Hin) as [Hne Hin']. destruct (ni_batch _ I e ev Hin') as (x & Hx & ?).
    exists x. by rewrite (oa_descs _ _ _ O e Hne).
Qed.

Lemma put_more w d x : descs w !! d = Some x -> 1 < drefs x < 2 ^ 32 ->
  __coroc_refcnt_put d w = Ok (false, set_descs (<[d := set_drefs (drefs x - 1) x]> (descs w)) w).
Proof.
  intros Hd Hx. unfold __coroc_refcnt_put, bind, upd_desc, get_desc. rewrite Hd. cbn.
  rewrite lookup_insert_eq. cbn. rewrite u32_small by lia.
  by destruct (Z.eqb_spec (drefs x - 1) 0); [lia|].
Qed.

Lemma put_last w d x : descs w !! d = Some x -> drefs x = 1 ->
  __coroc_refcnt_put d w = Ok (true, set_descs (delete d (descs w)) w).
Proof.
  intros Hd Hx. unfold __coroc_refcnt_put, bind, upd_desc, get_desc. rewrite Hd. cbn.
  rewrite lookup_insert_eq. cbn. rewrite Hx. change (u32 (1 - 1) =? 0) with true.
  unfold modify, set_descs. cbn. by rewrite delete_insert_eq.
Qed.

Lemma rem_ok w d x : descs w !! d = Some x -> 1 < drefs x < 2 ^ 32 -> - 2 ^ 31 < num_op w < 2 ^ 31 ->
  __coroc_netpoll_rem d w = Ok (tt,
    set_epset (delete d (epset w)) (set_num_op (num_op w - 1)
      (set_descs (<[d := set_drefs (drefs x - 1) x]> (descs w)) w))).
Proof.
  intros Hd Hx Hn. unfold __coroc_netpoll_rem. rewrite (bind_ok _ _ _ _ _ (put_more w d x Hd Hx)).
  unfold bind, modify, get_desc. cbn. rewrite lookup_insert_eq, i32_small by lia. done.
Qed.

Lemma refs_bound w d x : 0 <= refs w d x <= 4.
Proof. unfold refs, b2z. repeat case_match; lia. Qed.

(** A descriptor nobody has claimed: its wait is under way. *)
Lemma undone w d x : ninv w -> descs w !! d = Some x -> ddone x = false ->
  d ∈ inside w /\ ae_waiting (nenv w) (dwait x) /\ is_Some (epset w !! d) /\
  2 <= drefs x <= 4 /\ dlock x = false /\ 1 <= num_op w < 2 ^ 31.
Proof.
  intros I Hd Hn. pose proof (ni_desc _ I d) as D. rewrite Hd in D. cbn in D. rewrite Hn in D.
  destruct D as (Hr & _ & Hl & Hi & _ & Hw & He). destruct (ni_num _ I) as [Hz Hz'].
  split_and!; try done.
  - rewrite Hr. unfold refs, b2z. rewrite (bool_decide_true _ Hi), Hn. cbn. repeat case_match; lia.
  - rewrite Hr. apply refs_bound.
  - rewrite Hz. destruct He as [v He]. rewrite <- (insert_delete_id _ _ _ He), map_size_insert_None; [lia|apply lookup_delete_eq].
Qed.

(** The steps that make the waiting coroutine of [d] ready: claim it, take it
    from the epoll set, call [vpu_ready]. *)
Lemma claim_ok w d x m : ninv w -> descs w !! d = Some x -> ddone x = false ->
  exists s', ae_ready (dwait x) (nenv w) = Ok (tt, s') /\
   (forall c, ae_waiting s' c <-> ae_waiting (nenv w) c /\ c <> dwait x) /\
   forall ar la ba mo, (forall e ev, (e, ev) ∈ ba -> e <> d /\ (e, ev) ∈ batch w) -> NoDup ba.*1 ->
     (forall e, e <> d -> e ∈ ar <-> e ∈ armed w) -> (forall e, e <> d -> e ∈ la <-> e ∈ late w) ->
     b2z (bool_decide (d ∈ ar)) + b2z (bool_decide (d ∈ la)) =
       b2z (bool_decide (d ∈ armed w)) + b2z (bool_decide (d ∈ late w)) ->
     ninv (mk_nworld (<[d := mk_desc (drefs x - 1) true (dfd x) m (dwait x) false]> (descs w)) (delete d (epset w))
             (num_op w - 1) ar (inside w) la ba mo s').
Proof.
  intros I Hd Hn. destruct (undone w d x I Hd Hn) as (Hi & Hw & He & Hr & Hl & Hz).
  destruct (ae_ready_spec (nenv w) (dwait x) Hw) as (s' & E & Hs). exists s'. split_and!; [done|done|].
  intros ar la ba mo Hba Hnd Har Hla Hcnt. apply (ninv_step d w); [done| | | |done|done|].
  - split; cbn; try done.
    + intros e Hne. by rewrite lookup_insert_ne.
    + intros e Hne. by rewrite lookup_delete_ne.
    + intros e y Hne Hie Hy. rewrite Hs. split; [tauto|]. intros ?. split; [done|].
      intros Ew. apply Hne. by eapply (ni_own _ I e d y x).
  - cbn. rewrite lookup_insert_eq. cbn. rewrite lookup_delete_eq. split_and!; [|lia|done|done|].
    + pose proof (ni_desc _ I d) as D. rewrite Hd in D. cbn in D. destruct D as (D & _). rewrite D.
      unfold refs. cbn. rewrite Hn. cbn. lia.
    + intros _ [_ ?]%Hs. done.
  - cbn. rewrite lookup_insert_eq. intros _ x' e y [= <-] Hne Hie Hy Ew. cbn in Ew. apply Hne. by eapply (ni_own _ I e d y x).
  - cbn. destruct He as [v He]. destruct (ni_num _ I) as [Hz1 _].
    rewrite <- (insert_delete_id _ _ _ He), map_size_insert_None in Hz1 by apply lookup_delete_eq.
    split; lia.
Qed.

Lemma acquire_ok w d x : descs w !! d = Some x -> dlock x = false ->
  dlock_acquire d w = Ok (tt, set_descs (<[d := set_dlock true x]> (descs w)) w).
Proof.
  intros Hd Hl. unfold dlock_acquire, bind, get_desc. rewrite Hd. cbn. rewrite Hl. unfold upd_desc. by rewrite Hd.
Qed.

(** Taking [d] from the poller under its lock. *)
Lemma locked_rem_ok w d x : descs w !! d = Some x -> dlock x = true -> 1 < drefs x < 2 ^ 32 ->
  - 2 ^ 31 < num_op w < 2 ^ 31 ->
  (do! __coroc_netpoll_rem d in dlock_release d) w = Ok (tt,
    mk_nworld (<[d := mk_desc (drefs x - 1) (ddone x) (dfd x) (dmode x) (dwait x) false]> (descs w))
      (delete d (epset w)) (num_op w - 1) (armed w) (inside w) (late w) (batch w) (bmode w) (nenv w)).
Proof.
  intros Hd Hl Hr Hn. rewrite (bind_ok _ _ _ _ _ (rem_ok w d x Hd Hr Hn)).
  unfold dlock_release, upd_desc. cbn. rewrite lookup_insert_eq. unfold set_descs. cbn. by rewrite insert_insert_eq.
Qed.

Lemma wakeup_runs w d x s' : descs w !! d = Some x -> dlock x = false -> 1 < drefs x < 2 ^ 32 ->
  - 2 ^ 31 < num_op w < 2 ^ 31 -> ae_ready (dwait x) (nenv w) = Ok (tt, s') ->
  coroc_netpoll_wakeup d w = Ok (tt,
    mk_nworld (<[d := mk_desc (drefs x - 1) (ddone x) (dfd x) (dmode x) (dwait x) false]> (descs w))
      (delete d (epset w)) (num_op w - 1) (armed w) (inside w) (late w) (batch w) (bmode w) s').
Proof.
  intros Hd Hl Hr Hn Hs. unfold coroc_netpoll_wakeup. rewrite (bind_ok _ _ _ _ _ (acquire_ok w d x Hd Hl)).
  pose proof (locked_rem_ok (set_descs (<[d := set_dlock true x]> (descs w)) w) d (set_dlock true x)
    (lookup_insert_eq _ _ _) eq_refl Hr Hn) as E. cbn in E. rewrite insert_insert_eq in E.
  apply bind_inv in E as (? & w1 & E1 & E2). rewrite (bind_ok _ _ _ _ _ E1), (bind_ok _ _ _ _ _ E2).
  unfold bind, get_desc, on_nenv, zoom. cbn. rewrite lookup_insert_eq. cbn. by rewrite Hs.
Qed.

Lemma poll_ok w : ninv w -> exists w', poll_one w = Ok (tt, w') /\ ninv w'.
Proof.
  intros I. unfold poll_one. unfold get. unfold bind at 1. destruct (batch w) as [|[d ev] rest] eqn:Eb; [by exists w|].
  destruct (ni_batch _ I d ev) as (x & Hd & Hn); [rewrite Eb; left|].
  destruct (undone w d x I Hd Hn) as (Hi & Hw & He & Hr & Hl & Hz).
  set (m := be_mode (bmode w) (dmode x) ev).
  destruct (claim_ok w d x m I Hd Hn) as (s' & Es & _ & Hinv).
  pose proof (ni_once _ I) as ND. rewrite Eb in ND. cbn in ND. apply NoDup_cons in ND as [Hnin ND].
  eexists. split.
  - unfold modify. unfold bind at 1. unfold bind at 1, get_desc at 1. cbn [descs set_batch]. rewrite Hd, Hn.
    unfold bind at 1, upd_desc at 1. cbn [descs set_batch]. rewrite Hd. fold m.
    unfold bind at 1. unfold bind at 1, upd_desc at 1. cbn [descs set_bmode set_descs]. rewrite lookup_insert_eq.
    cbn. apply (wakeup_runs _ d (set_dmode m (set_ddone true x)) s');
      [by cbn; rewrite lookup_insert_eq|done|cbn; lia|cbn; lia|done].
  - cbn. rewrite !insert_insert_eq. apply Hinv; [|done|done|done|done].
    intros e ev' Hin. split; [|rewrite Eb; by right]. intros ->. apply Hnin. apply list_elem_of_fmap. by exists (d, ev').
Qed.

(** The timer fires while no event of [d] is on its way in the poller. *)
Lemma timeout_fire_ok w d : ninv w -> d ∈ armed w -> d ∉ late w -> d ∉ (batch w).*1 ->
  exists w', timeout_fire d w = Ok (tt, w') /\ ninv w'.
Proof.
  intros I Ha Hla Hb. pose proof (ni_desc _ I d) as D. destruct (descs w !! d) as [x|] eqn:Hd; [|cbn in D; tauto].
  assert (forall e ev, (e, ev) ∈ batch w -> e <> d /\ (e, ev) ∈ batch w) as Hba.
  { intros e ev Hin. split; [|done]. intros ->. apply Hb, list_elem_of_fmap. by exists (d, ev). }
  assert (dlock x = false) as Hl by (cbn in D; tauto).
  assert (b2z (bool_decide (d ∈ armed w ∖ {[d]})) + b2z (bool_decide (d ∈ {[d]} ∪ late w)) =
    b2z (bool_decide (d ∈ armed w)) + b2z (bool_decide (d ∈ late w))) as Hcnt.
  { rewrite (bool_decide_false (d ∈ armed w ∖ _)), (bool_decide_true (d ∈ _ ∪ _)),
      (bool_decide_true (d ∈ armed w)), (bool_decide_false (d ∈ late w)) by set_solver. done. }
  unfold timeout_fire, modify. unfold bind at 1. unfold bind at 1.
  set (w1 := set_late _ _).
  assert (descs w1 !! d = Some x) as Hd1 by done.
  rewrite (bind_ok _ _ _ _ _ (acquire_ok w1 d x Hd1 Hl)). unfold bind at 1, get_desc at 1. cbn [descs set_descs].
  rewrite lookup_insert_eq. cbn [ddone set_dlock].
  destruct (ddone x) eqn:Hn; cbn [negb].
  - unfold bind at 1. cbn. unfold bind, dlock_release, upd_desc. cbn. rewrite lookup_insert_eq. cbn.
    eexists. split; [done|]. rewrite insert_insert_eq.
    replace (set_dlock false (set_dlock true x)) with x by (destruct x; cbn in *; by subst).
    rewrite insert_id by done. cbn in D. rewrite Hn in D. destruct D as (Dr & Dp & _ & De & Dw).
    apply (ninv_step d w); [done| | | |done|apply I|apply I].
    + split; cbn; try done; set_solver.
    + cbn. rewrite Hd. cbn. rewrite Hn. split_and!; try done. rewrite Dr. unfold refs. cbn [inside armed late w1 set_late set_armed].
      rewrite Hn. cbn. lia.
    + cbn. rewrite Hd. intros Hin x' e y [= <-] Hne Hie Hy Ew. apply Hne. by eapply (ni_own _ I e d y x).
  - destruct (undone w d x I Hd Hn) as (Hi & Hw & He & Hr & _ & Hz).
    destruct (claim_ok w d x 0 I Hd Hn) as (s' & Es & _ & Hinv).
    eexists. split; [|apply (Hinv (armed w ∖ {[d]}) ({[d]} ∪ late w) (batch w) (bmode w));
      [done|apply I|set_solver|set_solver|done]].
    rewrite bind_bind. unfold bind at 1, upd_desc at 1. cbn [descs set_descs]. rewrite lookup_insert_eq.
    rewrite bind_bind. unfold bind at 1, upd_desc at 1. cbn [descs set_descs]. rewrite lookup_insert_eq.
    erewrite bind_ok; [|eapply (rem_ok _ d (set_dmode 0 (set_ddone true (set_dlock true x))));
      [apply lookup_insert_eq|cbn; lia|cbn; lia]].
    unfold bind, dlock_release, upd_desc, get_desc, on_nenv, zoom. cbn. rewrite !lookup_insert_eq. cbn.
    rewrite lookup_insert_eq. cbn. rewrite Es. unfold set_nenv, set_descs. cbn. by rewrite !insert_insert_eq.
Qed.

(** A claimed descriptor is not in the batch. *)
Lemma done_batch w d x : ninv w -> descs w !! d = Some x -> ddone x = true ->
  forall e ev, (e, ev) ∈ batch w -> e <> d /\ (e, ev) ∈ batch w.
Proof.
  intros I Hd Hn e ev Hin. split; [|done]. intros ->. destruct (ni_batch _ I d ev Hin) as (y & ? & ?). congruence.
Qed.

(** One of those that share a claimed descriptor drops its reference: the
    sets after it are [ins], [ar] and [la]; the last one frees it. *)
Lemma drop_ref w d x ins ar la : ninv w -> descs w !! d = Some x -> ddone x = true ->
  (forall e, e <> d -> e ∈ ins <-> e ∈ inside w) -> (forall e, e <> d -> e ∈ ar <-> e ∈ armed w) ->
  (forall e, e <> d -> e ∈ la <-> e ∈ late w) -> (d ∈ ins -> d ∈ inside w) ->
  b2z (bool_decide (d ∈ ins)) + b2z (bool_decide (d ∈ ar)) + b2z (bool_decide (d ∈ la)) = drefs x - 1 ->
  exists b w', __coroc_refcnt_put d (set_late la (set_armed ar (set_inside ins w))) = Ok (b, w') /\ ninv w' /\
    inside w' = ins /\ armed w' = ar /\ late w' = la /\ nenv w' = nenv w /\ batch w' = batch w /\
    (if b then drefs x = 1 /\ descs w' = delete d (descs w)
     else 1 < drefs x /\ descs w' = <[d := set_drefs (drefs x - 1) x]> (descs w)).
Proof.
  intros I Hd Hn Hins Har Hla Hin Hcnt. pose proof (done_batch w d x I Hd Hn) as Hb.
  pose proof (ni_desc _ I d) as D. rewrite Hd in D. cbn in D. rewrite Hn in D. destruct D as (Dr & Dp & Dl & De & Dw).
  pose proof (refs_bound w d x). set (w1 := set_late la (set_armed ar (set_inside ins w))).
  assert (descs w1 !! d = Some x) as Hd1 by done.
  destruct (decide (drefs x = 1)) as [Hone|Hone].
  - eexists true, _. split; [by apply (put_last w1 d x)|]. split_and!; try done.
    assert ((d ∉ ins) /\ (d ∉ ar) /\ (d ∉ la)) as (? & ? & ?).
    { rewrite Hone in Hcnt. unfold b2z in Hcnt. repeat case_bool_decide; try lia. done. }
    apply (ninv_step d w); [done| | | |done|apply I|apply I].
    + split; cbn; try done. intros e Hne. by rewrite lookup_delete_ne.
    + cbn. rewrite lookup_delete_eq. cbn. done.
    + cbn. done.
  - eexists false, _. split; [by apply (put_more w1 d x); [done|lia]|]. split_and!; try done; [|lia].
    apply (ninv_step d w); [done| | | |done|apply I|apply I].
    + split; cbn; try done. intros e Hne. by rewrite lookup_insert_ne.
    + cbn. rewrite lookup_insert_eq. cbn. rewrite Hn. split_and!; [|lia|done|done|auto].
      unfold refs. cbn. rewrite Hn. cbn. lia.
    + cbn. rewrite lookup_insert_eq. intros Hi x' e y [= <-] Hne Hie Hy Ew. cbn in Ew.
      apply Hne. eapply (ni_own _ I e d y x); auto.
Qed.

Lemma done_refs w d x : ninv w -> descs w !! d = Some x -> ddone x = true ->
  drefs x = b2z (bool_decide (d ∈ inside w)) + b2z (bool_decide (d ∈ armed w)) + b2z (bool_decide (d ∈ late w)).
Proof.
  intros I Hd Hn. pose proof (ni_desc _ I d) as D. rewrite Hd in D. cbn in D. destruct D as (-> & _).
  unfold refs. rewrite Hn. cbn. lia.
Qed.

Lemma drop_ok w d x : ninv w -> d ∈ late w -> descs w !! d = Some x -> ddone x = true ->
  exists w', timeout_drop d w = Ok (tt, w') /\ ninv w'.
Proof.
  intros I Hl Hd Hn. pose proof (done_refs w d x I Hd Hn) as Hr. rewrite (bool_decide_true (d ∈ late w)) in Hr by done.
  destruct (drop_ref w d x (inside w) (armed w) (late w ∖ {[d]})) as (b & w' & E & I' & _); try done; [set_solver| |].
  { rewrite (bool_decide_false (d ∈ late w ∖ _)) by set_solver. unfold b2z at 3. unfold b2z at 3 in Hr. lia. }
  exists w'. split; [|done]. unfold timeout_drop, modify. unfold bind at 1.
  replace (set_late (late w ∖ {[d]}) w) with (set_late (late w ∖ {[d]}) (set_armed (armed w) (set_inside (inside w) w)))
    by (by destruct w). by rewrite (bind_ok _ _ _ _ _ E).
Qed.

(** The wait returns: what it reads, and what is left. *)
Lemma resume_wait_ok w d x : ninv w -> d ∈ inside w -> d ∉ armed w -> descs w !! d = Some x -> ddone x = true ->
  exists w', net_wait_resume d w = Ok (dmode x, w') /\ ninv w' /\ (d ∉ inside w') /\ armed w' = armed w.
Proof.
  intros I Hi Ha Hd Hn. pose proof (done_refs w d x I Hd Hn) as Hr. rewrite (bool_decide_true (d ∈ inside w)) in Hr by done.
  destruct (drop_ref w d x (inside w ∖ {[d]}) (armed w) (late w)) as (b & w' & E & I' & E1 & E2 & _); try done; [set_solver| |].
  { rewrite (bool_decide_false (d ∈ inside w ∖ _)) by set_solver. unfold b2z at 1. unfold b2z at 1 in Hr. lia. }
  exists w'. split_and!; [|done|set_solver|done]. unfold net_wait_resume, modify. unfold bind at 1.
  unfold bind at 1, get_desc. cbn [descs set_inside]. rewrite Hd.
  replace (set_inside (inside w ∖ {[d]}) w) with (set_late (late w) (set_armed (armed w) (set_inside (inside w ∖ {[d]}) w)))
    by (by destruct w). by rewrite (bind_ok _ _ _ _ _ E).
Qed.

Lemma resume_timed_ok w d x : ninv w -> d ∈ inside w -> descs w !! d = Some x -> ddone x = true ->
  exists w', net_timedwait_resume d w = Ok (dmode x, w') /\ ninv w' /\ (d ∉ inside w') /\ (d ∉ armed w').
Proof.
  intros I Hi Hd Hn. destruct (decide (d ∈ armed w)) as [Ha|Ha].
  - pose proof (done_refs w d x I Hd Hn) as Hr.
    rewrite (bool_decide_true (d ∈ inside w)), (bool_decide_true (d ∈ armed w)) in Hr by done.
    destruct (drop_ref w d x (inside w) (armed w ∖ {[d]}) (late w)) as (b & w1 & E & I1 & Ei & Ea & El & _ & _ & Ed);
      try done; [set_solver| |].
    { rewrite (bool_decide_false (d ∈ armed w ∖ _)), (bool_decide_true (d ∈ inside w)) by set_solver.
      unfold b2z at 2. unfold b2z at 2 in Hr. lia. }
    destruct b; [unfold b2z in Hr; repeat case_match; lia|]. destruct Ed as [_ Ed].
    destruct (resume_wait_ok w1 d (set_drefs (drefs x - 1) x)) as (w' & E' & I' & Hi' & Ha');
      [done|by rewrite Ei|rewrite Ea; set_solver|by rewrite Ed, lookup_insert_eq|done|].
    exists w'. split_and!; [|done|done|rewrite Ha', Ea; set_solver].
    unfold net_timedwait_resume. unfold bind at 1, get. rewrite decide_True by done.
    rewrite bind_bind. unfold modify. unfold bind at 1. rewrite bind_bind.
    replace (set_armed (armed w ∖ {[d]}) w) with (set_late (late w) (set_armed (armed w ∖ {[d]}) (set_inside (inside w) w)))
      by (by destruct w). by rewrite (bind_ok _ _ _ _ _ E).
  - destruct (resume_wait_ok w d x) as (w' & E & I' & Hi' & Ha'); try done.
    exists w'. split_and!; [|done|done|by rewrite Ha'].
    rewrite <- E. unfold net_timedwait_resume. unfold bind at 1, get. by rewrite decide_False.
Qed.

(** A descriptor that is not in use. *)
Lemma fresh_desc w d : ninv w -> descs w !! d = None -> (d ∉ inside w) /\ (d ∉ armed w) /\ (d ∉ late w) /\ epset w !! d = None.
Proof. intros I Hd. pose proof (ni_desc _ I d) as D. by rewrite Hd in D. Qed.

(** The state of a wait that has begun, timed ([ar] has [d]) or not. *)
Lemma wait_inv w d self fd mode n ar s' : ninv w -> descs w !! d = None ->
  (forall e y, e ∈ inside w -> descs w !! e = Some y -> dwait y <> self) ->
  (forall c, ae_waiting s' c <-> ae_waiting (nenv w) c \/ c = self) -> num_op w + 1 < 2 ^ 31 ->
  (forall e, e <> d -> e ∈ ar <-> e ∈ armed w) -> n = 2 + b2z (bool_decide (d ∈ ar)) ->
  ninv (mk_nworld (<[d := mk_desc n false fd mode self false]> (descs w)) (<[d := be_events mode]> (epset w))
          (num_op w + 1) ar ({[d]} ∪ inside w) (late w) (batch w) (bmode w) s').
Proof.
  intros I Hd Hself Hs Hz Har ->. destruct (fresh_desc w d I Hd) as (Hi & Ha & Hl & He).
  apply (ninv_step d w); [done| | | | |apply I|].
  - split; cbn; try done.
    + intros e Hne. by rewrite lookup_insert_ne.
    + intros e Hne. by rewrite lookup_insert_ne.
    + set_solver.
    + intros e y Hne Hie Hy. rewrite Hs. split; [|by left]. intros [?|E]; [done|]. by destruct (Hself e y).
  - cbn. rewrite lookup_insert_eq. cbn. rewrite lookup_insert_eq. split_and!; [| |done|set_solver|done|apply Hs; by right|done].
    + unfold refs. cbn. rewrite (bool_decide_true (d ∈ {[d]} ∪ _)), (bool_decide_false (d ∈ late w)) by set_solver.
      cbn. lia.
    + unfold b2z. case_match; lia.
  - cbn. rewrite lookup_insert_eq. intros _ x' e y [= <-] Hne Hie Hy. cbn. by eapply Hself.
  - cbn. intros e ev Hin. split; [|done]. intros ->. destruct (ni_batch _ I d ev Hin) as (y & ? & ?). congruence.
  - cbn. destruct (ni_num _ I) as [Hz1 _]. rewrite map_size_insert_None by done. split; lia.
Qed.

Lemma netwait_ok w self d fd mode : ninv w -> descs w !! d = None -> ~ ae_waiting (nenv w) self ->
  (forall e y, e ∈ inside w -> descs w !! e = Some y -> dwait y <> self) -> num_op w + 1 < 2 ^ 31 ->
  exists w', coroc_net_wait self d fd mode w = Ok (tt, w') /\ ninv w'.
Proof.
  intros I Hd Hw Hself Hz. destruct (ae_suspend_spec (nenv w) self Hw) as (s' & Es & Hs).
  destruct (ni_num _ I) as [Hn0 _].
  eexists. split; [|apply (wait_inv w d self fd mode 2 (armed w) s'); try done].
  - unfold coroc_net_wait, __coroc_poll_desc_init, dlock_acquire, __coroc_netpoll_add, __coroc_refcnt_get,
      dlock_release, upd_desc, get_desc, on_nenv, zoom, modify, bind.
    cbn. repeat (rewrite lookup_insert_eq; cbn). rewrite Es. cbn. repeat (rewrite lookup_insert_eq; cbn).
    unfold set_descs. cbn. rewrite !insert_insert_eq, i32_small by lia. done.
  - destruct (fresh_desc w d I Hd) as (_ & Ha & _). by rewrite (bool_decide_false _ Ha).
Qed.

Lemma nettimedwait_ok w self d fd mode usec : ninv w -> descs w !! d = None -> ~ ae_waiting (nenv w) self ->
  (forall e y, e ∈ inside w -> descs w !! e = Some y -> dwait y <> self) -> num_op w + 1 < 2 ^ 31 -> 0 < usec ->
  exists w', coroc_net_timedwait self d fd mode usec w = Ok (tt, w') /\ ninv w'.
Proof.
  intros I Hd Hw Hself Hz Hu. destruct (ae_suspend_spec (nenv w) self Hw) as (s' & Es & Hs).
  destruct (ni_num _ I) as [Hn0 _].
  eexists. split; [|apply (wait_inv w d self fd mode 3 ({[d]} ∪ armed w) s'); try done; [set_solver|]].
  - unfold coroc_net_timedwait, __coroc_poll_desc_init, dlock_acquire, __coroc_netpoll_add, __coroc_refcnt_get,
      dlock_release, upd_desc, get_desc, on_nenv, zoom, modify. rewrite (proj2 (Z.ltb_lt 0 usec) Hu). unfold assert_, bind, ret.
    cbn. repeat (rewrite lookup_insert_eq; cbn). rewrite Es. cbn. repeat (rewrite lookup_insert_eq; cbn).
    unfold set_descs. cbn. rewrite !insert_insert_eq, i32_small by lia. done.
  - by rewrite (bool_decide_true (d ∈ {[d]} ∪ armed w)) by set_solver.
Qed.

(** ** Runs *)

Inductive nevent : Type :=
| N_wait (self : coid) (d : did) (fd mode : Z)
| N_timedwait (self : coid) (d : did) (fd mode usec : Z)
| N_resume (d : did)
| N_timed_resume (d : did)
| N_fire (d : did)
| N_drop (d : did)
| N_collect (events : list (did * Z))
| N_poll
| N_env (s : S).

Definition nexec (e : nevent) : ST (nworld S) unit :=
  match e with
  | N_wait self d fd mode => coroc_net_wait self d fd mode
  | N_timedwait self d fd mode usec => coroc_net_timedwait self d fd mode usec
  | N_resume d => do! net_wait_resume d in ret tt
  | N_timed_resume d => do! net_timedwait_resume d in ret tt
  | N_fire d => timeout_fire d
  | N_drop d => timeout_drop d
  | N_collect events => poll_collect events
  | N_poll => poll_one
  | N_env s => modify (set_nenv s)
  end.

(** A coroutine that runs waits with a descriptor from malloc; a coroutine that
    is ready again returns from its wait; the timer fires for a deadline in the
    heap, when the poller has no event of that descriptor under way; epoll_wait
    gives events of descriptors in its set, each once; and the rest of the
    program wakes no coroutine that waits here and suspends none that is about
    to return. *)
Definition nallowed (e : nevent) w : Prop :=
  match e with
  | N_wait self d _ _ =>
      descs w !! d = None /\ ~ ae_waiting (nenv w) self /\
      (forall e y, e ∈ inside w -> descs w !! e = Some y -> dwait y <> self) /\ num_op w + 1 < 2 ^ 31
  | N_timedwait self d _ _ usec =>
      descs w !! d = None /\ ~ ae_waiting (nenv w) self /\
      (forall e y, e ∈ inside w -> descs w !! e = Some y -> dwait y <> self) /\ num_op w + 1 < 2 ^ 31 /\ 0 < usec
  | N_resume d => (d ∈ inside w) /\ (d ∉ armed w) /\
      forall x, descs w !! d = Some x -> ~ ae_waiting (nenv w) (dwait x)
  | N_timed_resume d => (d ∈ inside w) /\ forall x, descs w !! d = Some x -> ~ ae_waiting (nenv w) (dwait x)
  | N_fire d => (d ∈ armed w) /\ (d ∉ late w) /\ (d ∉ (batch w).*1)
  | N_drop d => d ∈ late w
  | N_collect events => batch w = [] /\ NoDup events.*1 /\ forall d ev, (d, ev) ∈ events -> is_Some (epset w !! d)
  | N_poll => True
  | N_env s => forall d x, d ∈ inside w -> descs w !! d = Some x ->
      ae_waiting s (dwait x) <-> ae_waiting (nenv w) (dwait x)
  end.

Inductive nreach : nworld S -> Prop :=
| nr_init s : nreach (mk_nworld ∅ ∅ 0 ∅ ∅ ∅ [] 0 s)
| nr_step w e w' : nreach w -> nallowed e w -> nexec e w = Ok (tt, w') -> nreach w'.

Lemma resumable w d : ninv w -> d ∈ inside w -> (forall x, descs w !! d = Some x -> ~ ae_waiting (nenv w) (dwait x)) ->
  exists x, descs w !! d = Some x /\ ddone x = true.
Proof.
  intros I Hi Hw. pose proof (ni_desc _ I d) as D. destruct (descs w !! d) as [x|] eqn:Hd; [|cbn in D; tauto].
  exists x. split; [done|]. destruct (ddone x) eqn:Hn; [done|].
  destruct (undone w d x I Hd Hn) as (_ & Hx & _). by destruct (Hw x).
Qed.

Lemma nevent_ok e w : ninv w -> nallowed e w -> exists w', nexec e w = Ok (tt, w') /\ ninv w'.
Proof.
  intros I Ha. destruct e as [self d fd mode|self d fd mode usec|d|d|d|d|events| |s]; cbn [nexec nallowed] in *.
  - destruct Ha as (? & ? & ? & ?). by apply netwait_ok.
  - destruct Ha as (? & ? & ? & ? & ?). by apply nettimedwait_ok.
  - destruct Ha as (Hi & Hna & Hw). destruct (resumable w d I Hi Hw) as (x & Hd & Hn).
    destruct (resume_wait_ok w d x) as (w' & E & I' & _); try done. exists w'. by rewrite (bind_ok _ _ _ _ _ E).
  - destruct Ha as (Hi & Hw). destruct (resumable w d I Hi Hw) as (x & Hd & Hn).
    destruct (resume_timed_ok w d x) as (w' & E & I' & _); try done. exists w'. by rewrite (bind_ok _ _ _ _ _ E).
  - destruct Ha as (? & ? & ?). by apply timeout_fire_ok.
  - pose proof (ni_desc _ I d) as D. destruct (descs w !! d) as [x|] eqn:Hd; [|cbn in D; tauto].
    destruct (ddone x) eqn:Hn; [by apply (drop_ok w d x)|]. cbn in D. rewrite Hn in D. tauto.
  - destruct Ha as (Hb & ND & He). eexists. split; [done|]. destruct I. split; try done. cbn.
    intros d ev Hin. specialize (ni_desc0 d). destruct (He d ev Hin) as [v Hv].
    destruct (descs w !! d) as [x|] eqn:Hd; cbn in ni_desc0; [|naive_solver].
    exists x. split; [done|]. destruct (ddone x); [|done]. destruct ni_desc0 as (_ & _ & _ & ? & _). congruence.
  - by apply poll_ok.
  - eexists. split; [done|]. destruct I. split; try done. cbn. intros d. specialize (ni_desc0 d).
    destruct (descs w !! d) as [x|] eqn:Hd; cbn in *; [|done].
    destruct ni_desc0 as (? & ? & ? & D). split_and!; try done. destruct (ddone x).
    + destruct D as [? D]. split; [done|]. intros Hi. rewrite (Ha d x) by done. auto.
    + destruct D as (Hi & ? & ? & ?). split_and!; try done. by rewrite (Ha d x).
Qed.

Lemma nreach_inv w : nreach w -> ninv w.
Proof.
  intros R. induction R as [s|w e w' R I Ha E].
  - split; cbn; [| | |apply NoDup_nil_2|done].
    + intros d. rewrite lookup_empty. cbn. by split_and!.
    + intros d e x y Hd. set_solver.
    + intros d ev Hin. by apply not_elem_of_nil in Hin.
  - destruct (nevent_ok e w I Ha) as (w2 & E2 & I2). congruence.
Qed.

(** ** The theorems *)

End netpoll_proofs.


(** ** A socket that says EAGAIN and moves two bytes at a time *)

Record dsock := mk_dsock { ds_in : list Z; ds_out : list Z; ds_again : nat }.

#[export] Instance demo_socket : Socket dsock := {
  so_read n := fun w =>
    match ds_again w with
    | S k => Ok (io_again, mk_dsock (ds_in w) (ds_out w) k)
    | O => let m := Z.to_nat (Z.min n 2) in
           Ok (io_done (take m (ds_in w)), mk_dsock (drop m (ds_in w)) (ds_out w) 0)
    end;
  so_write data := fun w =>
    match ds_again w with
    | S k => Ok (io_again, mk_dsock (ds_in w) (ds_out w) k)
    | O => Ok (io_done (Z.of_nat (length (take 2 data))), mk_dsock (ds_in w) (ds_out w ++ take 2 data) 0)
    end;
  so_wait := ret tt;
  so_timedwait _ := ret true;
  so_input := ds_in;
  so_sent := ds_out;
  so_patience := ds_again
}.

#[export] Instance demo_socket_laws : SocketLaws dsock.
Proof.
  split; cbn.
  - intros n w Hn. destruct (ds_again w) eqn:E; do 2 eexists; (split; [done|]); cbn; split_and!; try done; try lia.
    + rewrite length_take. lia.
    + by rewrite take_drop.
    + destruct (ds_in w); [done|]. destruct (Z.to_nat (Z.min n 2)) eqn:Em; [lia|done].
  - intros data w Hd. destruct (ds_again w) eqn:E; do 2 eexists; (split; [done|]); cbn; split_and!; try done; try lia.
    + rewrite length_take. lia.
    + rewrite Nat2Z.id. by destruct data as [|a [|b l]].
  - intros w. by exists w.
  - intros us w. by exists true, w.
Qed.


Example read_four :
  let w := mk_dsock [1; 2; 3; 4; 5] [] 3 in
  coroc_net_read (read_fuel 4 w) 4 w = Ok ((4, [1; 2; 3; 4]), mk_dsock [5] [] 0).
Proof. vm_compute. reflexivity. Qed.

(** ** A wait with a timeout *)

Definition nidle : nworld (gset coid) := mk_nworld ∅ ∅ 0 ∅ ∅ ∅ [] 0 ∅.
Definition nthen (e : nevent) (w : nworld (gset coid)) : nworld (gset coid) := result nidle (nexec e w).

(** Coroutine 5 waits for input on descriptor 100 of socket 3. *)
Definition waiting_one : nworld (gset coid) := nthen (N_timedwait 5 100 3 TSC_NETPOLL_READ 1000) nidle.

Lemma waiting_one_reachable : nreach waiting_one.
Proof.
  apply (nr_step nidle (N_timedwait 5 100 3 TSC_NETPOLL_READ 1000)).
  - apply nr_init.
  - cbn. split_and!; [done|set_solver|set_solver|lia|lia].
  - vm_compute. reflexivity.
Qed.


(** The whole of a timed wait that the timer ends: nothing is left. *)
Example timed_out :
  let w := nthen (N_drop 100) (nthen (N_timed_resume 100) (nthen (N_fire 100) waiting_one)) in
  descs w = ∅ /\ epset w = ∅ /\ num_op w = 0 /\ nenv w = ∅.
Proof. vm_compute. done. Qed.

(** The poller has taken the event of descriptor 100 when the timer fires; the
    coroutine returns and the descriptor is freed; the poller then reads it. *)
Example poller_uses_freed :
  nexec N_poll (nthen (N_drop 100) (nthen (N_timed_resume 100) (nthen (N_fire 100)
    (nthen (N_collect [(100%nat, EPOLLIN)]) waiting_one)))) = Err Dangling.
Proof. vm_compute. reflexivity. Qed.

(** Coroutine 5 waits to read and 6 to write; the poller reports to 6 that it
    can read as well, since [mode] is not reset between two events. *)
Example mode_leaks :
  let w := nthen N_poll (nthen N_poll (nthen (N_collect [(100%nat, EPOLLIN); (101%nat, EPOLLOUT)])
             (nthen (N_wait 6 101 4 TSC_NETPOLL_WRITE) waiting_one))) in
  dmode <$> descs w !! 101%nat = Some (TSC_NETPOLL_READ + TSC_NETPOLL_WRITE).
Proof. vm_compute. reflexivity. Qed.
