(* ===== verification/Net.v ===== *)
(** * Sockets (src/net.c)

    Names and addresses: a C string is the list of its characters, without the
    terminating zero; an IPv4 address is the list of its four bytes in memory
    order, [None] a byte that was never written.

    [NetOs] is what the functions use of the operating system and of the
    network poller (Netpoll.v); [own] are the descriptors the calling coroutine
    has open, by which the theorems say that none is lost. *)

From S2P Require Import Prelude Netpoll.

Abbreviation cstr := (list Z) (only parsing).

(** ** [strtoul] with base 0, from the C library *)

Definition isspace (c : Z) : bool := (c =? 32) || ((9 <=? c) && (c <=? 13)).
Definition digit_val (c : Z) : Z :=
  if (48 <=? c) && (c <=? 57) then c - 48
  else if (97 <=? c) && (c <=? 122) then c - 87
  else if (65 <=? c) && (c <=? 90) then c - 55
  else 36.
Definition ULONG_MAX : Z := 2 ^ 64 - 1.

Fixpoint skip_spaces (s : cstr) : cstr :=
  match s with c :: s' => if isspace c then skip_spaces s' else s | [] => [] end.

(** The value of the leading digits, and what follows them. *)
Fixpoint digits (base acc : Z) (s : cstr) : Z * cstr :=
  match s with
  | c :: s' => if digit_val c <? base then digits base (acc * base + digit_val c) s' else (acc, s)
  | [] => (acc, [])
  end.

(** The base the prefix selects, and the text without a prefix 0x. *)
Definition number_base (s : cstr) : Z * cstr :=
  match s with
  | 48 :: x :: d :: s' =>
      if ((x =? 120) || (x =? 88)) && (digit_val d <? 16) then (16, d :: s') else (8, s)
  | 48 :: _ => (8, s)
  | _ => (10, s)
  end.

Definition sign (s : cstr) : bool * cstr :=
  match s with
  | 45 :: s' => (true, s')
  | 43 :: s' => (false, s')
  | _ => (false, s)
  end.

Definition strtoul (s : cstr) : Z * cstr :=
  let '(neg, s1) := sign (skip_spaces s) in
  let '(base, s2) := number_base s1 in
  match s2 with
  | c :: _ =>
      if digit_val c <? base then
        let '(v, rest) := digits base 0 s2 in
        (if ULONG_MAX <? v then ULONG_MAX else if neg then u64 (- v) else v, rest)
      else (0, s)
  | [] => (0, s)
  end.

(** ** Addresses *)

(** The loop of [__coroc_parseip] with [k] bytes to go; [None]: return -1. *)
Fixpoint ip_parts (k : nat) (p : cstr) : option (list Z) :=
  match k, p with
  | 0%nat, _ | _, [] => Some []
  | S k, _ =>
      let '(v, p) := strtoul p in
      let x := i32 v in
      if (x <? 0) || (256 <? x) then None else
      match p with
      | [] => (u8 x ::.) <$> ip_parts k []
      | c :: p => if c =? 46 then (u8 x ::.) <$> ip_parts k p else None
      end
  end.

Definition CLASS (a : Z) : Z := Z.shiftr a 6.

(** The bytes of [*ip]; [None]: -1.  Without a part the class is taken of a
    byte that was never written. *)
Definition __coroc_parseip (name : cstr) : res (option (list (option Z))) :=
  match ip_parts 4 name with
  | None => Ok None
  | Some addr =>
      match addr with
      | [] => Err Uninit
      | a :: _ =>
          if (CLASS a =? 0) || (CLASS a =? 1) then
            match addr with
            | [a; b; c] => Ok (Some [Some a; Some 0; Some b; Some c])
            | [a; b] => Ok (Some [Some a; Some 0; Some 0; Some b])
            | [a; b; c; d] => Ok (Some [Some a; Some b; Some c; Some d])
            | _ => Ok None
            end
          else if CLASS a =? 2 then
            match addr with
            | [a; b; c] => Ok (Some [Some a; Some b; Some 0; Some c])
            | [a; b; c; d] => Ok (Some [Some a; Some b; Some c; Some d])
            | _ => Ok None
            end
          else Ok (Some (take 4 ((Some <$> addr) ++ replicate 4 None)))
      end
  end.

(** "%d" of a byte, and the name [coroc_net_timed_accept] writes: at most 15
    characters and the zero. *)
Definition dec (n : Z) : cstr :=
  if n <? 10 then [48 + n]
  else if n <? 100 then [48 + n / 10; 48 + n mod 10]
  else [48 + n / 100; 48 + n / 10 mod 10; 48 + n mod 10].

Definition server_name (ip : list Z) : cstr :=
  match ip with
  | [a; b; c; d] => take 15 (dec a ++ [46] ++ dec b ++ [46] ++ dec c ++ [46] ++ dec d)
  | _ => []
  end.

(** ** Printing and parsing an address *)

Definition is_dec (c : Z) : Prop := 48 <= c <= 57.

Lemma digit_dec c : is_dec c -> digit_val c = c - 48.
Proof. unfold is_dec, digit_val. intros. by destruct (Z.leb_spec 48 c), (Z.leb_spec c 57); try lia. Qed.

(** What may follow the digits of a part. *)
Definition stops (s : cstr) : Prop := match s with [] => True | c :: _ => c = 46 end.

Lemma digits_stop base acc s : stops s -> base <= 36 -> digits base acc s = (acc, s).
Proof.
  intros Hs Hb. destruct s as [|c s]; [done|]. cbn in Hs. subst c. cbn.
  by destruct (Z.ltb_spec 36 base); [lia|].
Qed.

Lemma digits_dec acc c s : is_dec c -> digits 10 acc (c :: s) = digits 10 (acc * 10 + (c - 48)) s.
Proof.
  intros Hc. cbn. rewrite digit_dec by done. unfold is_dec in Hc.
  by destruct (Z.ltb_spec (c - 48) 10); [|lia].
Qed.

Lemma strtoul_nonzero c s v rest : is_dec c -> c <> 48 -> digits 10 0 (c :: s) = (v, rest) -> v <= ULONG_MAX ->
  strtoul (c :: s) = (v, rest).
Proof.
  intros Hc Hz Ed Hv. unfold is_dec in Hc. unfold strtoul.
  replace (skip_spaces (c :: s)) with (c :: s).
  2:{ cbn. unfold isspace.
      by destruct (Z.eqb_spec c 32), (Z.leb_spec 9 c), (Z.leb_spec c 13); try lia. }
  assert (sign (c :: s) = (false, c :: s)) as ->.
  { unfold sign. destruct c as [|c|c]; try lia. do 6 (destruct c as [c|c|]; try done; try lia). }
  assert (number_base (c :: s) = (10, c :: s)) as ->.
  { unfold number_base. destruct c as [|c|c]; try lia. do 6 (destruct c as [c|c|]; try done; try lia). }
  rewrite digit_dec by done. destruct (Z.ltb_spec (c - 48) 10); [|lia].
  rewrite Ed. by destruct (Z.ltb_spec ULONG_MAX v); [lia|].
Qed.

Lemma strtoul_dec n rest : 0 <= n < 256 -> stops rest -> strtoul (dec n ++ rest) = (n, rest).
Proof.
  intros Hn Hr. unfold dec.
  pose proof (Z.div_mod n 10 ltac:(lia)) as D1. pose proof (Z.mod_pos_bound n 10 ltac:(lia)) as M1.
  pose proof (Z.div_mod (n / 10) 10 ltac:(lia)) as D2. pose proof (Z.mod_pos_bound (n / 10) 10 ltac:(lia)) as M2.
  assert (n / 100 = n / 10 / 10) as D3 by (by rewrite Z.div_div by lia).
  destruct (Z.ltb_spec n 10); [|destruct (Z.ltb_spec n 100)]; cbn [app].
  - destruct (decide (n = 0)) as [->|Hz].
    + destruct rest as [|c s]; [done|]. cbn in Hr. subst c. unfold strtoul. cbn.
      by destruct s as [|d s].
    + apply strtoul_nonzero; [unfold is_dec; lia|lia| |unfold ULONG_MAX; lia].
      rewrite digits_dec, digits_stop by (done || unfold is_dec; lia). f_equal. lia.
  - apply strtoul_nonzero; [unfold is_dec; lia|lia| |unfold ULONG_MAX; lia].
    rewrite !digits_dec, digits_stop by (done || unfold is_dec; lia). f_equal. lia.
  - apply strtoul_nonzero; [unfold is_dec; lia|lia| |unfold ULONG_MAX; lia].
    rewrite !digits_dec, digits_stop by (done || unfold is_dec; lia). f_equal. lia.
Qed.

Lemma length_dec n : (1 <= length (dec n) <= 3)%nat.
Proof. unfold dec. destruct (n <? 10), (n <? 100); cbn; lia. Qed.

(** One part of a name. *)
Lemma ip_parts_dec k n rest : 0 <= n < 256 -> stops rest ->
  ip_parts (S k) (dec n ++ rest) = (n ::.) <$> ip_parts k (match rest with [] => [] | _ :: s => s end).
Proof.
  intros Hn Hr. cbn [ip_parts]. rewrite strtoul_dec by done.
  assert (dec n ++ rest <> []) as Hne by (pose proof (length_dec n); destruct (dec n); [cbn in *; lia|done]).
  destruct (dec n ++ rest) as [|x xs]; [done|]. rewrite i32_small by lia.
  destruct (Z.ltb_spec n 0); [lia|]. destruct (Z.ltb_spec 256 n); [lia|]. cbn [orb].
  assert (u8 n = n) as -> by (apply Z.mod_small; lia).
  destruct rest as [|c s]; [done|]. cbn in Hr. by subst c.
Qed.

Definition byte (x : Z) : Prop := 0 <= x < 256.

(** C35: the name [coroc_net_timed_accept] writes for a peer fits its buffer of
    16 characters whole, and [__coroc_parseip] reads it back as the same four
    bytes, for every address. *)
Theorem ip_print_parse a b c d : byte a -> byte b -> byte c -> byte d ->
  server_name [a; b; c; d] = dec a ++ [46] ++ dec b ++ [46] ++ dec c ++ [46] ++ dec d /\
  (length (server_name [a; b; c; d]) < 16)%nat /\
  __coroc_parseip (server_name [a; b; c; d]) = Ok (Some [Some a; Some b; Some c; Some d]).
Proof.
  intros Ha Hb Hc Hd.
  assert (server_name [a; b; c; d] = dec a ++ [46] ++ dec b ++ [46] ++ dec c ++ [46] ++ dec d) as E.
  { unfold server_name. apply take_ge. rewrite !length_app. cbn.
    pose proof (length_dec a). pose proof (length_dec b). pose proof (length_dec c). pose proof (length_dec d). lia. }
  split_and!; [done| |].
  - rewrite E, !length_app. cbn.
    pose proof (length_dec a). pose proof (length_dec b). pose proof (length_dec c). pose proof (length_dec d). lia.
  - rewrite E. unfold __coroc_parseip.
    do 3 (rewrite ip_parts_dec by done; cbn [app]).
    rewrite <- (app_nil_r (dec d)), ip_parts_dec by done. cbn [ip_parts fmap option_fmap option_map].
    assert (0 <= CLASS a <= 3) as Hcl.
    { unfold CLASS, byte in *. rewrite Z.shiftr_div_pow2 by lia. split; [apply Z.div_pos; lia|].
      apply Z.lt_succ_r, Z.div_lt_upper_bound; lia. }
    destruct (Z.eqb_spec (CLASS a) 0), (Z.eqb_spec (CLASS a) 1), (Z.eqb_spec (CLASS a) 2); try lia; done.
Qed.

Lemma ip_print_parse_witness :
  server_name [192; 168; 0; 1] = dec 192 ++ [46] ++ dec 168 ++ [46] ++ dec 0 ++ [46] ++ dec 1 /\
  (length (server_name [192; 168; 0; 1]%Z) < 16)%nat /\
  __coroc_parseip (server_name [192; 168; 0; 1]) = Ok (Some [Some 192; Some 168; Some 0; Some 1]).
Proof. apply (ip_print_parse 192 168 0 1); unfold byte; lia. Defined.

(** What else is read: 256 as 0, text after the fourth part, an address of
    class C with bytes missing; and the empty name. *)
Example reads_256 : __coroc_parseip (dec 1 ++ [46; 50; 53; 54; 46; 51; 46; 52]) = Ok (Some [Some 1; Some 0; Some 3; Some 4]).
Proof. vm_compute. reflexivity. Qed.
Example reads_five_parts :
  __coroc_parseip (server_name [1; 2; 3; 4] ++ [46; 120]) = Ok (Some [Some 1; Some 2; Some 3; Some 4]).
Proof. vm_compute. reflexivity. Qed.
Example reads_class_c : __coroc_parseip (dec 192 ++ [46] ++ dec 1) = Ok (Some [Some 192; Some 1; None; None]).
Proof. vm_compute. reflexivity. Qed.
Example reads_empty : __coroc_parseip [] = Err Uninit.
Proof. reflexivity. Qed.

(** ** The operating system *)

(** An address and a port, and what [connect] says. *)
Record sockaddr := mk_sa { sin_addr : list (option Z); sin_port : Z }.
Inductive connected : Type := conn_ok | conn_inprogress | conn_failed.

Class NetOs (W : Type) := {
  os_gethostbyname : cstr -> ST W (option (list Z));
  os_socket : bool -> ST W Z;                        (* true: SOCK_STREAM *)
  os_getsockopt_type : Z -> ST W bool;               (* SO_TYPE; true: >= 0 *)
  os_setsockopt : Z -> ST W unit;                    (* the result is not looked at *)
  os_so_error : Z -> ST W Z;                         (* SO_ERROR *)
  os_bind : Z -> sockaddr -> ST W bool;              (* false: < 0 *)
  os_listen : Z -> Z -> ST W unit;
  os_connect : Z -> sockaddr -> ST W connected;
  os_getpeername : Z -> ST W bool;                   (* false: < 0 *)
  os_accept4 : Z -> ST W (Z * list Z * Z);           (* descriptor, address, port (network order) *)
  os_nonblock : Z -> ST W unit;                      (* coroc_net_nonblock *)
  os_close : Z -> ST W unit;
  os_set_errno : Z -> ST W unit;
  net_wait : Z -> Z -> ST W Z;                       (* coroc_net_wait *)
  net_timedwait : Z -> Z -> Z -> ST W Z;             (* coroc_net_timedwait *)
  own : W -> gset Z
}.

Definition ECONNREFUSED : Z := 111.
Definition htons (x : Z) : Z := u16 (Z.lor (Z.shiftl x 8) (Z.land (Z.shiftr x 8) 255)).

Section net.
Context {W : Type} `{NetOs W}.

(** [coroc_net_lookup]; [None]: -1 *)
Definition coroc_net_lookup (name : cstr) : ST W (option (list (option Z))) :=
  fun w => match __coroc_parseip name with
  | Err f => Err f
  | Ok (Some ip) => Ok (Some ip, w)
  | Ok None => (let! he := os_gethostbyname name in ret (option_map (fmap Some) he)) w
  end.

(** [None] as [server]: NULL *)
Definition coroc_net_announce (istcp : bool) (server : option cstr) (port : Z) : ST W Z :=
  let! addr := (match server with
                | Some s => if bool_decide (s = [42]) then ret (Some (replicate 4 (Some 0)))
                            else coroc_net_lookup s
                | None => ret (Some (replicate 4 (Some 0)))
                end) in
  match addr with
  | None => ret (-1)
  | Some ip =>
      let sa := mk_sa ip (htons (u16 port)) in
      let! fd := os_socket istcp in
      if fd <? 0 then ret (-1) else
      let! typed := (if istcp then os_getsockopt_type fd else ret false) in
      do! (if (typed : bool) then os_setsockopt fd else ret tt) in
      let! bound := os_bind fd sa in
      if negb bound then do! os_close fd in ret (-1) else
      do! (if istcp then os_listen fd port else ret tt) in
      do! os_nonblock fd in
      ret fd
  end.

(** The new descriptor with the name and the port of the peer. *)
Definition coroc_net_timed_accept (fd usec : Z) : ST W (Z * option (cstr * Z)) :=
  let! go := (if usec <=? 0 then do! net_wait fd TSC_NETPOLL_READ in ret true
              else let! m := net_timedwait fd TSC_NETPOLL_READ usec in ret (negb (m =? 0))) in
  if negb go then ret (-1, None) else
  let! '(cfd, ip, p) := os_accept4 fd in
  if cfd <? 0 then ret (-1, None) else
  do! os_setsockopt cfd in
  ret (cfd, Some (server_name ip, htons p)).

Definition coroc_net_accept (fd : Z) : ST W (Z * option (cstr * Z)) := coroc_net_timed_accept fd 0.

Definition coroc_net_timed_dial (istcp : bool) (server : cstr) (port usec : Z) : ST W Z :=
  let! addr := coroc_net_lookup server in
  match addr with
  | None => ret (-1)
  | Some ip =>
      let! fd := os_socket istcp in
      if fd <? 0 then ret (-1) else
      do! os_nonblock fd in
      do! (if istcp then ret tt else os_setsockopt fd) in
      let! c := os_connect fd (mk_sa ip (htons (u16 port))) in
      match c with
      | conn_failed => do! os_close fd in ret (-1)
      | _ =>
          let! go := (if usec <=? 0 then do! net_wait fd TSC_NETPOLL_WRITE in ret true
                      else let! m := net_timedwait fd TSC_NETPOLL_WRITE usec in ret (negb (m =? 0))) in
          if negb go then do! os_close fd in ret (-1) else
          let! peer := os_getpeername fd in
          if (peer : bool) then ret fd else
          let! n := os_so_error fd in
          do! os_close fd in
          do! os_set_errno (if n =? 0 then ECONNREFUSED else n) in
          ret (-1)
      end
  end.

Definition coroc_net_dial (istcp : bool) (server : cstr) (port : Z) : ST W Z :=
  coroc_net_timed_dial istcp server port 0.
End net.

(** What the operating system does with descriptors. *)
Section laws.
Context {W : Type} `{NetOs W}.

Definition quiet {A} (c : ST W A) : Prop := forall w, exists a w', c w = Ok (a, w') /\ own w' = own w.

(** [fd] is new. *)
Definition opens (w : W) (fd : Z) (w' : W) : Prop :=
  (fd < 0 /\ own w' = own w) \/ (0 <= fd /\ (fd ∉ own w) /\ own w' = {[fd]} ∪ own w).
End laws.

(** The calls return; [socket] and [accept4] give a new descriptor or fail,
    [close] ends one, the others open and close nothing. *)
Class NetLaws (W : Type) `{NetOs W} := {
  l_host name : quiet (os_gethostbyname name);
  l_socket b w : exists fd w', os_socket b w = Ok (fd, w') /\ opens w fd w';
  l_type fd : quiet (os_getsockopt_type fd);
  l_setsockopt fd : quiet (os_setsockopt fd);
  l_so_error fd : quiet (os_so_error fd);
  l_bind fd sa : quiet (os_bind fd sa);
  l_listen fd n : quiet (os_listen fd n);
  l_connect fd sa : quiet (os_connect fd sa);
  l_getpeername fd : quiet (os_getpeername fd);
  l_accept fd w : exists cfd ip p w', os_accept4 fd w = Ok (cfd, ip, p, w') /\ opens w cfd w';
  l_nonblock fd : quiet (os_nonblock fd);
  l_close fd w : exists w', os_close fd w = Ok (tt, w') /\ own w' = own w ∖ {[fd]};
  l_errno n : quiet (os_set_errno n);
  l_wait fd m : quiet (net_wait fd m);
  l_timedwait fd m us : quiet (net_timedwait fd m us)
}.

Section net_proofs.
Context {W : Type} `{NetLaws W}.

Lemma quiet_ret {A} (a : A) : quiet (ret (S := W) a).
Proof. intros w. by exists a, w. Qed.
Lemma quiet_bind {A B} (c : ST W A) (k : A -> ST W B) : quiet c -> (forall a, quiet (k a)) -> quiet (bind c k).
Proof.
  intros Hc Hk w. destruct (Hc w) as (a & w1 & E & E1). destruct (Hk a w1) as (b & w2 & E' & E2).
  exists b, w2. rewrite (bind_ok _ _ _ _ _ E). split; [done|congruence].
Qed.
Lemma quiet_if {A} (b : bool) (c d : ST W A) : quiet c -> quiet d -> quiet (if b then c else d).
Proof. by destruct b. Qed.

(** The result of an operation that opens a descriptor or reports -1. *)
Definition opened (c : ST W Z) (w : W) : Prop := exists r w', c w = Ok (r, w') /\
  (r = -1 /\ own w' = own w \/ 0 <= r /\ (r ∉ own w) /\ own w' = {[r]} ∪ own w).

(** While [fd] is open: the rest either returns it or closes it and fails. *)
Definition settled (fd : Z) (c : ST W Z) : Prop := forall w, exists r w', c w = Ok (r, w') /\
  (r = -1 /\ own w' = own w ∖ {[fd]} \/ r = fd /\ own w' = own w).

Lemma settled_ret fd : settled fd (ret fd).
Proof. intros w. exists fd, w. auto. Qed.
Lemma settled_bind {A} fd (c : ST W A) k : quiet c -> (forall a, settled fd (k a)) -> settled fd (bind c k).
Proof.
  intros Hc Hk w. destruct (Hc w) as (a & w1 & E & E1). destruct (Hk a w1) as (r & w2 & E' & Hr).
  exists r, w2. rewrite (bind_ok _ _ _ _ _ E). rewrite E1 in Hr. auto.
Qed.
Lemma settled_close fd : settled fd (do! os_close fd in ret (-1)).
Proof.
  intros w. destruct (l_close fd w) as (w' & E & Ho). exists (-1), w'. rewrite (bind_ok _ _ _ _ _ E). auto.
Qed.
Lemma settled_fail fd n : settled fd (do! os_close fd in do! os_set_errno n in ret (-1)).
Proof.
  intros w. destruct (l_close fd w) as (w1 & E & Ho). destruct (l_errno n w1) as (a & w2 & E' & Ho').
  exists (-1), w2. rewrite (bind_ok _ _ _ _ _ E), (bind_ok _ _ _ _ _ E'). rewrite <- Ho, Ho'. auto.
Qed.
Lemma settled_if fd (b : bool) c d : settled fd c -> settled fd d -> settled fd (if b then c else d).
Proof. by destruct b. Qed.

(** Opening a socket and settling it. *)
Lemma opened_socket b k w : (forall fd, settled fd (k fd)) ->
  opened (let! fd := os_socket b in if fd <? 0 then ret (-1) else k fd) w.
Proof.
  intros Hk. destruct (l_socket b w) as (fd & w1 & E & Ho). unfold opened. rewrite (bind_ok _ _ _ _ _ E).
  destruct Ho as [[Hn Ho]|(Hp & Hf & Ho)], (Z.ltb_spec fd 0); try lia; [by exists (-1), w1; auto|].
  destruct (Hk fd w1) as (r & w2 & E2 & [[-> Ho2]|[-> Ho2]]).
  - exists (-1), w2. split; [done|]. left. split; [done|]. rewrite Ho2, Ho. set_solver.
  - exists fd, w2. split; [done|]. right. split_and!; [done|done|congruence].
Qed.

Lemma opened_quiet {A} (c : ST W A) k w : quiet c -> (forall a w', own w' = own w -> opened (k a) w') ->
  opened (bind c k) w.
Proof.
  intros Hc Hk. destruct (Hc w) as (a & w1 & E & E1). unfold opened. rewrite (bind_ok _ _ _ _ _ E).
  destruct (Hk a w1 E1) as (r & w2 & E' & Hr). rewrite E1 in Hr. eauto.
Qed.

Lemma opened_none w : opened (ret (-1)) w.
Proof. exists (-1), w. auto. Qed.

(** A name that is parsed or looked up. *)
Lemma lookup_quiet name : __coroc_parseip name <> Err Uninit -> quiet (coroc_net_lookup name).
Proof.
  intros Hn w. unfold coroc_net_lookup. destruct (__coroc_parseip name) as [[ip|]|f] eqn:E.
  - by exists (Some ip), w.
  - apply quiet_bind; [apply l_host|]. intros. apply quiet_ret.
  - exfalso. unfold __coroc_parseip in E. repeat (case_match; try done).
Qed.

Create HintDb net.
Hint Resolve quiet_ret quiet_if quiet_bind l_host l_type l_setsockopt l_so_error l_bind l_listen l_connect
  l_getpeername l_nonblock l_errno l_wait l_timedwait : net.
Hint Resolve settled_ret settled_close settled_fail settled_if settled_bind : net.

Lemma dial_settled fd (istcp : bool) sa usec : settled fd
  (do! os_nonblock fd in
   do! (if istcp then ret tt else os_setsockopt fd) in
   let! c := os_connect fd sa in
   match c with
   | conn_failed => do! os_close fd in ret (-1)
   | _ =>
       let! go := (if usec <=? 0 then do! net_wait fd TSC_NETPOLL_WRITE in ret true
                   else let! m := net_timedwait fd TSC_NETPOLL_WRITE usec in ret (negb (m =? 0))) in
       if negb go then do! os_close fd in ret (-1) else
       let! peer := os_getpeername fd in
       if (peer : bool) then ret fd else
       let! n := os_so_error fd in
       do! os_close fd in
       do! os_set_errno (if n =? 0 then ECONNREFUSED else n) in
       ret (-1)
   end).
Proof. do 3 (apply settled_bind; [auto with net|intros ?]). case_match; auto 20 with net. Qed.

Lemma announce_settled fd (istcp : bool) sa port : settled fd
  (let! typed := (if istcp then os_getsockopt_type fd else ret false) in
   do! (if (typed : bool) then os_setsockopt fd else ret tt) in
   let! bound := os_bind fd sa in
   if negb bound then do! os_close fd in ret (-1) else
   do! (if istcp then os_listen fd port else ret tt) in
   do! os_nonblock fd in
   ret fd).
Proof. do 3 (apply settled_bind; [auto with net|intros ?]). auto 20 with net. Qed.

(** ** No descriptor is lost *)

(** C36: dialling, announcing and accepting either succeed with one new open
    descriptor or report -1 and leave the descriptors of the coroutine as they
    were: every error path after the socket is made closes it.  (The name has
    to have a character: the empty one is parsed from memory never written.) *)
Theorem net_keeps_descriptors istcp name port usec fd w : __coroc_parseip name <> Err Uninit ->
  opened (coroc_net_timed_dial istcp name port usec) w /\
  opened (coroc_net_announce istcp (Some name) port) w /\
  opened (coroc_net_announce istcp None port) w /\
  opened (let! r := coroc_net_timed_accept fd usec in ret r.1) w.
Proof.
  intros Hn. split_and!.
  - unfold coroc_net_timed_dial. apply opened_quiet; [by apply lookup_quiet|]. intros [ip|] w' _; [|apply opened_none].
    apply opened_socket. intros s. apply dial_settled.
  - unfold coroc_net_announce. apply opened_quiet.
    { case_bool_decide; [apply quiet_ret|by apply lookup_quiet]. }
    intros [ip|] w' _; [|apply opened_none]. apply opened_socket. intros s. apply announce_settled.
  - unfold coroc_net_announce. apply opened_quiet; [apply quiet_ret|].
    intros [ip|] w' _; [|apply opened_none]. apply opened_socket. intros s. apply announce_settled.
  - set (go := if usec <=? 0 then do! net_wait fd TSC_NETPOLL_READ in ret true
              else let! m := net_timedwait fd TSC_NETPOLL_READ usec in ret (negb (m =? 0))).
    assert (quiet go) as Hg by (unfold go; auto with net). destruct (Hg w) as (g & w1 & E & Ho).
    unfold opened, coroc_net_timed_accept. fold go. unfold bind at 1. rewrite (bind_ok _ _ _ _ _ E).
    destruct g; cbn [negb]; [|exists (-1), w1; cbn; auto].
    destruct (l_accept fd w1) as (cfd & ip & p & w2 & E2 & Hop). rewrite (bind_ok _ _ _ _ _ E2).
    rewrite <- Ho. destruct Hop as [[Hneg Ho2]|(Hp & Hf & Ho2)], (Z.ltb_spec cfd 0); try lia;
      [by exists (-1), w2; auto|].
    destruct (l_setsockopt cfd w2) as ([] & w3 & E3 & Ho3). rewrite (bind_ok _ _ _ _ _ E3).
    exists cfd, w3. split; [done|]. right. split_and!; [done|done|congruence].
Qed.
End net_proofs.

(** ** A host where every call succeeds *)

(** The open descriptors, and one that is not. *)
Definition fresh_fd (s : gset Z) : Z := Z.of_nat (fresh (set_map Z.to_nat s : gset nat)).

Lemma fresh_fd_new s : fresh_fd s ∉ s.
Proof.
  intros Hs. apply (is_fresh (set_map Z.to_nat s : gset nat)), elem_of_map.
  exists (fresh_fd s). unfold fresh_fd at 1. by rewrite Nat2Z.id.
Qed.

#[export] Instance demo_os : NetOs (gset Z) := {
  os_gethostbyname _ := ret (Some [127; 0; 0; 1]);
  os_socket _ := fun s => Ok (fresh_fd s, {[fresh_fd s]} ∪ s);
  os_getsockopt_type _ := ret true;
  os_setsockopt _ := ret tt;
  os_so_error _ := ret 0;
  os_bind _ _ := ret true;
  os_listen _ _ := ret tt;
  os_connect _ _ := ret conn_inprogress;
  os_getpeername _ := ret false;
  os_accept4 _ := fun s => Ok (fresh_fd s, [10; 0; 0; 1], 20480, {[fresh_fd s]} ∪ s);
  os_nonblock _ := ret tt;
  os_close fd := modify (fun s => s ∖ {[fd]});
  os_set_errno _ := ret tt;
  net_wait _ m := ret m;
  net_timedwait _ m _ := ret m;
  own s := s
}.

#[export] Instance demo_laws : NetLaws (gset Z).
Proof.
  assert (forall s, opens (W := gset Z) s (fresh_fd s) ({[fresh_fd s]} ∪ s)) as Ho.
  { intros s. right. split_and!; [unfold fresh_fd; lia|apply fresh_fd_new|done]. }
  split; try (by intros; apply quiet_ret).
  - intros b w. by exists (fresh_fd w), ({[fresh_fd w]} ∪ w).
  - intros fd w. by exists (fresh_fd w), [10; 0; 0; 1], 20480, ({[fresh_fd w]} ∪ w).
  - intros fd w. by exists (w ∖ {[fd]}).
Qed.

Lemma net_keeps_descriptors_witness :
  let w := {[0; 1; 2]} : gset Z in let name := server_name [10; 0; 0; 1] in
  opened (coroc_net_timed_dial true name 80 0) w /\
  opened (coroc_net_announce true (Some name) 80) w /\
  opened (coroc_net_announce true None 80) w /\
  opened (let! r := coroc_net_timed_accept 2 0 in ret r.1) w.
Proof. exact (net_keeps_descriptors true (server_name [10; 0; 0; 1]) 80 0 2 {[0; 1; 2]} ltac:(vm_compute; discriminate)). Defined.

(** The connection is refused: the descriptor is closed again. *)
Example dial_refused : coroc_net_timed_dial true (server_name [10; 0; 0; 1]) 80 0 ({[0; 1; 2]} : gset Z) = Ok (-1, {[0; 1; 2]}).
Proof. vm_compute. reflexivity. Qed.
(** Port 80 in network order, and the name of the peer. *)
Example accept_peer : exists w, coroc_net_accept 2 ({[0; 1; 2]} : gset Z) =
  Ok ((3, Some (server_name [10; 0; 0; 1], 80)), w).
Proof. exists {[0; 1; 2; 3]}. vm_compute. reflexivity. Qed.
