(* ===== verification/Message.v ===== *)
(** * Messages between coroutines (src/message.c, include/inter/message.h)

    Every coroutine has an internal channel whose buffer is a queue of messages
    without a bound.  Only the coroutine itself receives from it
    ([_coroc_chan_recv(NULL, ...)]), so its [recv_que] holds at most its own
    quantum ([rq]) and, since the buffer takes every message, no sender ever
    blocks: [send_que] stays empty.  [mailbox] is the channel of one coroutine,
    with these two queues as the code leaves them; the queue of messages is one
    of Queue.v.

    [heap] has the blocks [coroc_send] allocates for the bytes; the buffers of
    the callers are lists of bytes.  A blocked receive goes on in [_resume]
    functions; [slot] is its variable [_msg], which the sender fills in.  The
    part of the scheduler is the interface of Async.v. *)

From S2P Require Import Prelude Queue SchedInv Channel Async.

Abbreviation mid := nat (only parsing).

(** [struct coroc_msg] *)
Record msg := mk_msg { msize : Z; mptr : ptr }.

Section mailbox.
Context {S : Type} `{AsyncEnv S}.

Record mailbox := mk_mbox {
  mlock : bool;
  mclose : bool;
  rq : option coid;                 (* the owner, waiting for a message *)
  slot : option msg;                (* its [_msg]; [None]: not written *)
  mque : qstore mid unit mid;
  msgs : gmap mid msg;              (* the [coroc_msg_item_t]s *)
  heap : gmap ptr (list Z);
  menv : S
}.
Definition set_mlock v m := mk_mbox v (mclose m) (rq m) (slot m) (mque m) (msgs m) (heap m) (menv m).
Definition set_mclose v m := mk_mbox (mlock m) v (rq m) (slot m) (mque m) (msgs m) (heap m) (menv m).
Definition set_rq v m := mk_mbox (mlock m) (mclose m) v (slot m) (mque m) (msgs m) (heap m) (menv m).
Definition set_slot v m := mk_mbox (mlock m) (mclose m) (rq m) v (mque m) (msgs m) (heap m) (menv m).
Definition set_mque v m := mk_mbox (mlock m) (mclose m) (rq m) (slot m) v (msgs m) (heap m) (menv m).
Definition set_msgs v m := mk_mbox (mlock m) (mclose m) (rq m) (slot m) (mque m) v (heap m) (menv m).
Definition set_heap v m := mk_mbox (mlock m) (mclose m) (rq m) (slot m) (mque m) (msgs m) v (menv m).
Definition set_menv v m := mk_mbox (mlock m) (mclose m) (rq m) (slot m) (mque m) (msgs m) (heap m) v.

Definition on_mque {A} (c : ST (qstore mid unit mid) A) : ST mailbox A := zoom mque set_mque c.
Definition on_menv {A} (c : ST S A) : ST mailbox A := zoom menv set_menv c.

Definition mlock_acquire : ST mailbox unit :=
  fun m => if mlock m then Err SelfDeadlock else Ok (tt, set_mlock true m).
Definition mlock_release : ST mailbox unit :=
  fun m => if mlock m then Ok (tt, set_mlock false m) else Err AssertFail.

(** [__coroc_alloc_msg_item]: the item at [i] *)
Definition __coroc_alloc_msg_item (i : mid) (x : msg) : ST mailbox unit :=
  do! modify (fun m => set_msgs (<[i := x]> (msgs m)) m) in
  on_mque (queue_item_init i (Some i)).

Definition __coroc_copy_to_mque (i : mid) (x : msg) : ST mailbox unit :=
  do! __coroc_alloc_msg_item i x in
  on_mque (queue_add tt i).

(** [None]: false *)
Definition __coroc_copy_from_mque : ST mailbox (option msg) :=
  let! r := on_mque (queue_rem tt) in
  match r with
  | None => ret None
  | Some i =>
      let! m := get in
      let! x := demand Dangling (msgs m !! i) in
      do! modify (fun m => set_msgs (delete i (msgs m)) m) in
      do! modify (fun m => set_mque (mk_qstore (delete i (items (mque m))) (queues (mque m))) m) in
      ret (Some x)
  end.

Definition coroc_async_chan_init : ST mailbox unit :=
  do! modify (fun m => set_mlock false (set_mclose false (set_rq None m))) in
  on_mque (atomic_queue_init tt).

(** The loop of [coroc_async_chan_fini]; [fuel]: more than the messages there
    are. *)
Fixpoint drop_messages (fuel : nat) : ST mailbox unit :=
  match fuel with
  | 0%nat => throw OutOfFuel
  | Datatypes.S fuel =>
      let! x := __coroc_copy_from_mque in
      match x with Some _ => drop_messages fuel | None => ret tt end
  end.
Definition coroc_async_chan_fini (fuel : nat) : ST mailbox unit :=
  do! mlock_acquire in
  do! drop_messages fuel in
  do! modify (set_mclose true) in
  mlock_release.

(** [_coroc_chan_send(target, &_msg, true)] on an internal channel *)
Definition mbox_send (i : mid) (x : msg) : ST mailbox Z :=
  do! mlock_acquire in
  let! m := get in
  let! r := (match rq m with
             | Some c =>
                 do! modify (set_rq None) in
                 do! modify (set_slot (Some x)) in
                 do! on_menv (ae_ready c) in
                 ret CHAN_SUCCESS
             | None =>
                 if mclose m then ret CHAN_CLOSED else
                 do! __coroc_copy_to_mque i x in
                 ret CHAN_SUCCESS
             end) in
  do! mlock_release in
  ret r.

(** [_coroc_chan_recv(NULL, &_msg, block)]: the result and [_msg] if it was
    written; [None]: suspended. *)
Definition mbox_recv (self : coid) (block : bool) : ST mailbox (option (Z * option msg)) :=
  do! mlock_acquire in
  let! x := __coroc_copy_from_mque in
  match x with
  | Some x => do! mlock_release in ret (Some (CHAN_SUCCESS, Some x))
  | None =>
      let! m := get in
      if mclose m then do! mlock_release in ret (Some (CHAN_CLOSED, None)) else
      if block then
        do! modify (set_rq (Some self)) in
        do! modify (set_slot None) in
        do! on_menv (ae_suspend self) in
        do! mlock_release in
        ret None
      else do! mlock_release in ret (Some (CHAN_BUSY, None))
  end.

(** After the suspension. *)
Definition mbox_recv_resume : ST mailbox (Z * option msg) :=
  do! mlock_acquire in
  let! m := get in
  do! mlock_release in
  ret (CHAN_AWAKEN, slot m).

(** [coroc_send] of the first [size] bytes of [buf]: [p] is the block
    [TSC_ALLOC] gives. *)
Definition coroc_send (p : ptr) (i : mid) (buf : list Z) (size : Z) : ST mailbox Z :=
  do! demand OutOfBounds (if Z.of_nat (length buf) <? size then None else Some tt) in
  do! modify (fun m => set_heap (<[p := take (Z.to_nat size) buf]> (heap m)) m) in
  do! mbox_send i (mk_msg size p) in
  ret CHAN_SUCCESS.

(** What [coroc_recv] does with [_msg]: copies and frees. *)
Definition recv_copy (size : Z) (r : Z * option msg) : ST mailbox (Z * list Z) :=
  let! x := demand Uninit r.2 in
  let! m := get in
  let! b := demand Dangling (heap m !! mptr x) in
  let n := if size <? msize x then size else msize x in
  do! demand OutOfBounds (if Z.of_nat (length b) <? n then None else Some tt) in
  do! modify (fun m => set_heap (delete (mptr x) (heap m)) m) in
  ret (r.1, take (Z.to_nat n) b).

(** [None]: suspended *)
Definition coroc_recv (self : coid) (size : Z) (block : bool) : ST mailbox (option (Z * list Z)) :=
  let! r := mbox_recv self block in
  match r with
  | None => ret None
  | Some r => let! v := recv_copy size r in ret (Some v)
  end.
Definition coroc_recv_resume (size : Z) : ST mailbox (Z * list Z) :=
  let! r := mbox_recv_resume in recv_copy size r.

(** [coroc_sendp], [coroc_recvp]: the pointer itself. *)
Definition coroc_sendp (i : mid) (p : ptr) (size : Z) : ST mailbox Z :=
  do! mbox_send i (mk_msg size p) in ret CHAN_SUCCESS.
Definition coroc_recvp (self : coid) (block : bool) : ST mailbox (option (Z * msg)) :=
  let! r := mbox_recv self block in
  match r with
  | None => ret None
  | Some r => let! x := demand Uninit r.2 in ret (Some (r.1, x))
  end.

(** ** The specification: a queue of blocks of bytes *)

Inductive owner_state : Type :=
| ow_runs                       (* not in a receive *)
| ow_waits (c : coid)           (* suspended in a receive *)
| ow_gets (b : list Z).         (* was given the block, has not returned *)

Record mspec := mk_mspec { ms_queue : list (list Z); ms_owner : owner_state }.

Inductive mcall : Type :=
| M_send (p : ptr) (i : mid) (buf : list Z) (size : Z)
| M_recv (self : coid) (size : Z) (block : bool)
| M_resume (size : Z).

(** The bytes a receive of at most [size] bytes takes from a block. *)
Definition cut (size : Z) (b : list Z) : list Z := take (Z.to_nat size) b.

(** [None]: not a call the owner or a sender can make. *)
Definition mcall_spec (c : mcall) (a : mspec) : option (option (Z * list Z) * mspec) :=
  match c with
  | M_send _ _ buf size =>
      if (0 <=? size) && (size <=? Z.of_nat (length buf)) then
        Some (None, match ms_owner a with
                    | ow_waits _ => mk_mspec (ms_queue a) (ow_gets (cut size buf))
                    | o => mk_mspec (ms_queue a ++ [cut size buf]) o
                    end)
      else None
  | M_recv self size block =>
      if size <? 0 then None else
      match ms_owner a, ms_queue a with
      | ow_runs, b :: l => Some (Some (CHAN_SUCCESS, cut size b), mk_mspec l ow_runs)
      | ow_runs, [] => if block then Some (None, mk_mspec [] (ow_waits self)) else None
      | _, _ => None
      end
  | M_resume size =>
      if size <? 0 then None else
      match ms_owner a with
      | ow_gets b => Some (Some (CHAN_AWAKEN, cut size b), mk_mspec (ms_queue a) ow_runs)
      | _ => None
      end
  end.

Definition mexec (c : mcall) : ST mailbox (option (Z * list Z)) :=
  match c with
  | M_send p i buf size => do! coroc_send p i buf size in ret None
  | M_recv self size block => coroc_recv self size block
  | M_resume size => let! r := coroc_recv_resume size in ret (Some r)
  end.

(** Fresh addresses; a coroutine that receives is not suspended. *)
Definition mready (c : mcall) (m : mailbox) : Prop :=
  match c with
  | M_send p i _ _ => heap m !! p = None /\ msgs m !! i = None /\ Z.of_nat (size (msgs m)) + 1 < 2 ^ 32
  | M_recv self _ _ => ~ ae_waiting (menv m) self
  | M_resume _ => True
  end.

(** The block of a message. *)
Definition holds_block (h : gmap ptr (list Z)) (x : msg) (b : list Z) : Prop :=
  h !! mptr x = Some b /\ msize x = Z.of_nat (length b).

(** A mailbox whose queue is [ids] and whose state is [a]: the blocks of the
    heap are those of the messages, each once. *)
Record mrep (m : mailbox) (a : mspec) (ids : list mid) : Prop := {
  mr_lock : mlock m = false;
  mr_open : mclose m = false;
  mr_queue : fwd_rep (mque m) tt false ids;
  mr_items : forall i, i ∈ ids -> exists it, items (mque m) !! i = Some it /\ owner it = Some i;
  mr_dom : forall i, i ∈ ids <-> is_Some (msgs m !! i);
  mr_len : length ids = length (ms_queue a);
  mr_block : forall k i b, ids !! k = Some i -> ms_queue a !! k = Some b ->
    exists x, msgs m !! i = Some x /\ holds_block (heap m) x b;
  mr_ptrs : forall i j x y, msgs m !! i = Some x -> msgs m !! j = Some y -> mptr x = mptr y -> i = j;
  mr_owner : match ms_owner a with
             | ow_runs => rq m = None
             | ow_waits c => rq m = Some c /\ ae_waiting (menv m) c /\ ids = []
             | ow_gets b => rq m = None /\ exists x, slot m = Some x /\ holds_block (heap m) x b /\
                              forall i y, msgs m !! i = Some y -> mptr y <> mptr x
             end;
  mr_heap : forall p, is_Some (heap m !! p) ->
    (exists i x, msgs m !! i = Some x /\ mptr x = p) \/
    (exists b x, ms_owner a = ow_gets b /\ slot m = Some x /\ mptr x = p)
}.
End mailbox.
Arguments mailbox S : clear implicits.

Section mailbox_proofs.
Context {S : Type} `{AsyncLaws S}.
Implicit Types (m : mailbox S) (a : mspec) (ids : list mid).

Lemma mbox_size m a ids : mrep m a ids -> length ids = size (msgs m).
Proof.
  intros R. rewrite <- size_dom, <- (size_list_to_set (C := gset mid) ids) by apply (mr_queue _ _ _ R).
  f_equal. apply set_eq. intros i. rewrite elem_of_list_to_set, elem_of_dom. apply (mr_dom _ _ _ R).
Qed.

(** Adding a message to the queue. *)
Lemma to_mque_ok m a ids i x : mrep m a ids -> msgs m !! i = None -> Z.of_nat (length ids) + 1 < 2 ^ 32 ->
  exists q', __coroc_copy_to_mque i x m = Ok (tt, set_mque q' (set_msgs (<[i := x]> (msgs m)) m)) /\
    fwd_rep q' tt false (ids ++ [i]) /\
    (forall j, j ∈ ids ++ [i] -> exists it, items q' !! j = Some it /\ owner it = Some j).
Proof.
  intros R Hi Hlen. assert (i ∉ ids) as Hnin by (intros [? ?]%(mr_dom _ _ _ R); congruence).
  set (it := mk_item (L := mid) (Q := unit) None None None (Some i)).
  set (st0 := mk_qstore (<[i := it]> (items (mque m))) (queues (mque m))).
  assert (fwd_rep st0 tt false ids) as F0.
  { apply (fwd_rep_frame (mque m)); [apply R|done|]. intros j Hj. cbn. by rewrite lookup_insert_ne by naive_solver. }
  destruct (queue_add_fwd st0 tt false ids i it) as (q' & E & F & Ho & _); [done|apply lookup_insert_eq|done|lia|].
  exists q'. split_and!; [|done|].
  - unfold __coroc_copy_to_mque, __coroc_alloc_msg_item, bind, modify, on_mque, zoom, queue_item_init, modify. cbn.
    fold it. fold st0. by rewrite E.
  - intros j Hj. assert (owner <$> items q' !! j = Some (Some j)) as Hoj.
    { rewrite Ho. cbn. apply elem_of_app in Hj as [Hj| ->%list_elem_of_singleton].
      - rewrite lookup_insert_ne by naive_solver. destruct (mr_items _ _ _ R j Hj) as (? & -> & ?). cbn. by f_equal.
      - by rewrite lookup_insert_eq. }
    apply fmap_Some in Hoj as (y & ? & ?). eauto.
Qed.

Lemma from_mque_empty m a : mrep m a [] -> __coroc_copy_from_mque m = Ok (None, m).
Proof.
  intros R. unfold __coroc_copy_from_mque, bind, on_mque, zoom.
  rewrite (queue_rem_empty _ _ _ (mr_queue _ _ _ R)). by destruct m.
Qed.

Lemma from_mque_ok m a i ids x : mrep m a (i :: ids) -> msgs m !! i = Some x ->
  exists q', __coroc_copy_from_mque m = Ok (Some x, set_mque q' (set_msgs (delete i (msgs m)) m)) /\
    fwd_rep q' tt false ids /\
    (forall j, j ∈ ids -> exists it, items q' !! j = Some it /\ owner it = Some j).
Proof.
  intros R Hx. destruct (mr_items _ _ _ R i) as (it & Hit & Hown); [left|].
  destruct (queue_rem_fwd (mque m) tt false i ids) as (it' & st & Hit' & E & F & Ho & _); [apply R|].
  assert (it' = it) as -> by congruence.
  pose proof (fwd_nodup _ _ _ _ (mr_queue _ _ _ R)) as [Hnin _]%NoDup_cons.
  exists (mk_qstore (delete i (items st)) (queues st)). split_and!.
  - unfold __coroc_copy_from_mque, bind, on_mque, zoom. rewrite E, Hown. cbn. unfold demand. by rewrite Hx.
  - apply (fwd_rep_frame st); [done|done|]. intros j Hj. cbn. rewrite lookup_delete_ne; [done|]. by intros ->.
  - intros j Hj. cbn. rewrite lookup_delete_ne by (by intros ->). specialize (Ho j).
    destruct (mr_items _ _ _ R j) as (jt & Hjt & Hj2); [by right|]. rewrite Hjt in Ho. cbn in Ho.
    apply fmap_Some in Ho as (y & ? & ?). exists y. split; [done|congruence].
Qed.

(** A receive copies the block and frees it. *)
Lemma recv_copy_ok m x b sz r : holds_block (heap m) x b -> 0 <= sz ->
  recv_copy sz (r, Some x) m = Ok ((r, cut sz b), set_heap (delete (mptr x) (heap m)) m).
Proof.
  intros [Hh Hs] Hz. unfold recv_copy, bind, demand, get, modify. cbn. rewrite Hh. cbn.
  set (n := if sz <? msize x then sz else msize x).
  assert (n <= Z.of_nat (length b)) as Hn by (unfold n; destruct (Z.ltb_spec sz (msize x)); lia).
  destruct (Z.ltb_spec (Z.of_nat (length b)) n); [lia|]. cbn. unfold ret, cut. do 3 f_equal.
  unfold n. destruct (Z.ltb_spec sz (msize x)); [done|].
  rewrite Hs, Nat2Z.id, !take_ge by lia. done.
Qed.

(** The block of [coroc_send]. *)
Lemma new_block (h : gmap ptr (list Z)) p buf sz : 0 <= sz <= Z.of_nat (length buf) ->
  holds_block (<[p := take (Z.to_nat sz) buf]> h) (mk_msg sz p) (cut sz buf).
Proof. intros Hs. split; cbn; [by rewrite lookup_insert_eq|]. unfold cut. rewrite length_take. lia. Qed.

Lemma keep_block (h : gmap ptr (list Z)) p v x b : h !! p = None -> holds_block h x b -> holds_block (<[p := v]> h) x b.
Proof. intros Hp [Hx Hs]. split; [|done]. rewrite lookup_insert_ne; [done|]. intros ->. congruence. Qed.

Lemma keep_deleted (h : gmap ptr (list Z)) x y b : mptr y <> mptr x -> holds_block h y b ->
  holds_block (delete (mptr x) h) y b.
Proof. intros Hne [Hx Hs]. split; [|done]. by rewrite lookup_delete_ne by congruence. Qed.

(** A message that is in use has its block in the heap. *)
Lemma used_ptr m a ids i x : mrep m a ids -> msgs m !! i = Some x -> is_Some (heap m !! mptr x).
Proof.
  intros R Hx. assert (i ∈ ids) as [k Hk]%list_elem_of_lookup by (by apply (mr_dom _ _ _ R)).
  pose proof (lookup_lt_Some _ _ _ Hk) as Hl. rewrite (mr_len _ _ _ R) in Hl. apply lookup_lt_is_Some in Hl as [b Hb].
  destruct (mr_block _ _ _ R k i b Hk Hb) as (y & Hy & [Hh _]). assert (y = x) as -> by congruence. eauto.
Qed.

Lemma send_queued_ok m a ids p i buf sz : mrep m a ids -> rq m = None ->
  (ms_owner a = ow_runs \/ exists b, ms_owner a = ow_gets b) ->
  heap m !! p = None -> msgs m !! i = None -> Z.of_nat (size (msgs m)) + 1 < 2 ^ 32 ->
  0 <= sz <= Z.of_nat (length buf) ->
  exists m', coroc_send p i buf sz m = Ok (CHAN_SUCCESS, m') /\
    mrep m' (mk_mspec (ms_queue a ++ [cut sz buf]) (ms_owner a)) (ids ++ [i]).
Proof.
  intros R Hrq How Hp Hi Hsz Hs. rewrite <- (mbox_size _ _ _ R) in Hsz.
  set (m1 := set_mlock true (set_heap (<[p := take (Z.to_nat sz) buf]> (heap m)) m)).
  assert (exists q', __coroc_copy_to_mque i (mk_msg sz p) m1 =
      Ok (tt, set_mque q' (set_msgs (<[i := mk_msg sz p]> (msgs m)) m1)) /\ fwd_rep q' tt false (ids ++ [i]) /\
      (forall j, j ∈ ids ++ [i] -> exists it, items q' !! j = Some it /\ owner it = Some j)) as (q' & E & F & Hq).
  { destruct (to_mque_ok m a ids i (mk_msg sz p) R Hi Hsz) as (q' & E & F & Hq). exists q'. split_and!; [|done|done].
    revert E. unfold __coroc_copy_to_mque, __coroc_alloc_msg_item, bind, modify, on_mque, zoom. cbn.
    destruct (queue_add _ _ _) as [[]|]; [|done]. intros [= <- E]. unfold set_mque, set_msgs in *. cbn in *. congruence. }
  exists (mk_mbox false (mclose m) None (slot m) q' (<[i := mk_msg sz p]> (msgs m))
            (<[p := take (Z.to_nat sz) buf]> (heap m)) (menv m)).
  assert (forall j y, msgs m !! j = Some y -> mptr y <> p) as Hfresh.
  { intros j y Hy Ep. destruct (used_ptr m a ids j y R Hy) as [? ?]. congruence. }
  split.
  - unfold coroc_send. destruct (Z.ltb_spec (Z.of_nat (length buf)) sz); [lia|].
    unfold bind at 1. cbn [demand]. unfold modify. unfold bind at 1.
    unfold mbox_send, mlock_acquire. unfold bind at 1, bind at 1. cbn [mlock set_heap]. rewrite (mr_lock _ _ _ R).
    unfold bind at 1, get. cbn [rq set_mlock set_heap mclose]. rewrite Hrq, (mr_open _ _ _ R). fold m1.
    unfold bind. rewrite E. cbn. unfold m1, set_mque, set_msgs, set_mlock, set_heap. cbn. by rewrite Hrq, (mr_open _ _ _ R).
  - pose proof (mr_owner _ _ _ R) as Ro. split; cbn; try done; try (by apply R).
    + intros j. rewrite elem_of_app, list_elem_of_singleton, (mr_dom _ _ _ R).
      destruct (decide (j = i)) as [->|Hne]; [rewrite lookup_insert_eq; naive_solver|].
      rewrite lookup_insert_ne by done. naive_solver.
    + rewrite !length_app, (mr_len _ _ _ R). done.
    + intros k j b Hk Hb. apply lookup_snoc_cases in Hk as [[Hk Hlt]|[-> ->]].
      * rewrite lookup_app_l in Hb by (rewrite <- (mr_len _ _ _ R); done).
        destruct (mr_block _ _ _ R k j b Hk Hb) as (x & Hx & Hbl). exists x.
        rewrite lookup_insert_ne by congruence. split; [done|by apply keep_block].
      * rewrite lookup_app_r, (mr_len _ _ _ R), Nat.sub_diag in Hb by (rewrite (mr_len _ _ _ R); lia).
        injection Hb as <-. exists (mk_msg sz p). split; [apply lookup_insert_eq|by apply new_block].
    + intros j k x y [[<- <-]|[Hj Hx]]%lookup_insert_Some [[<- <-]|[Hk Hy]]%lookup_insert_Some Exy;
        [done| | |by eapply (mr_ptrs _ _ _ R)]; cbn in Exy.
      * by destruct (Hfresh k y).
      * by destruct (Hfresh j x).
    + destruct (ms_owner a) as [|c|b]; [done|by destruct How as [?|[? ?]]|]. split; [done|].
      destruct Ro as (_ & x & Hx & Hb & Hne). exists x. split_and!; [done|by apply keep_block|].
      intros j y [[<- <-]|[_ Hy]]%lookup_insert_Some; [|by eapply Hne]. cbn. intros ->. destruct Hb. congruence.
    + intros q [b Hb]. destruct (decide (q = p)) as [->|Hne].
      * left. exists i, (mk_msg sz p). by rewrite lookup_insert_eq.
      * rewrite lookup_insert_ne in Hb by done. destruct (mr_heap _ _ _ R q) as [(j & x & Hx & ?)|?]; [by eauto| |by right].
        left. exists j, x. rewrite lookup_insert_ne; [done|congruence].
Qed.

Lemma send_waiting_ok m a c p i buf sz : mrep m a [] -> ms_owner a = ow_waits c ->
  heap m !! p = None -> 0 <= sz <= Z.of_nat (length buf) ->
  exists m', coroc_send p i buf sz m = Ok (CHAN_SUCCESS, m') /\
    mrep m' (mk_mspec (ms_queue a) (ow_gets (cut sz buf))) [].
Proof.
  intros R Ho Hp Hs. pose proof (mr_owner _ _ _ R) as Ro. rewrite Ho in Ro. destruct Ro as (Hrq & Hw & _).
  destruct (ae_ready_spec (menv m) c Hw) as (s' & Es & _).
  assert (forall j, msgs m !! j = None) as Hnone.
  { intros j. destruct (msgs m !! j) eqn:E; [|done]. assert (j ∈ @nil mid) as Hj by (by apply (mr_dom _ _ _ R)).
    by apply not_elem_of_nil in Hj. }
  exists (mk_mbox false (mclose m) None (Some (mk_msg sz p)) (mque m) (msgs m)
            (<[p := take (Z.to_nat sz) buf]> (heap m)) s'). split.
  - unfold coroc_send. destruct (Z.ltb_spec (Z.of_nat (length buf)) sz); [lia|].
    unfold bind at 1. cbn [demand]. unfold modify. unfold bind at 1.
    unfold mbox_send, mlock_acquire. unfold bind at 1, bind at 1. cbn [mlock set_heap]. rewrite (mr_lock _ _ _ R).
    unfold bind at 1, get. cbn [rq set_mlock set_heap mclose]. rewrite Hrq.
    unfold bind, on_menv, zoom, modify. cbn. by rewrite Es.
  - split; cbn; try done; try (by apply R).
    + split; [done|]. exists (mk_msg sz p). split_and!; [done|by apply new_block|]. intros j y Hy.
      rewrite Hnone in Hy. done.
    + intros q [b Hb]. right. destruct (decide (q = p)) as [->|Hne].
      * exists (cut sz buf), (mk_msg sz p). done.
      * rewrite lookup_insert_ne in Hb by done. destruct (mr_heap _ _ _ R q) as [(j & x & Hx & _)|(b' & x & Hx & _)];
          [by eauto|by rewrite Hnone in Hx|congruence].
Qed.

Lemma recv_queued_ok m a b l ids self sz block : mrep m a ids -> ms_owner a = ow_runs -> ms_queue a = b :: l -> 0 <= sz ->
  exists m' ids', coroc_recv self sz block m = Ok (Some (CHAN_SUCCESS, cut sz b), m') /\
    mrep m' (mk_mspec l ow_runs) ids'.
Proof.
  intros R Ho Hq Hs. pose proof (mr_len _ _ _ R) as Hl. rewrite Hq in Hl. destruct ids as [|i ids]; [done|].
  destruct (mr_block _ _ _ R 0 i b) as (x & Hx & Hb); [done|by rewrite Hq|].
  pose proof (mr_owner _ _ _ R) as Ro. rewrite Ho in Ro.
  pose proof (fwd_nodup _ _ _ _ (mr_queue _ _ _ R)) as [Hnin _]%NoDup_cons.
  destruct (from_mque_ok m a i ids x R Hx) as (q' & E & F & Hq').
  assert (__coroc_copy_from_mque (set_mlock true m) = Ok (Some x, set_mlock true (set_mque q' (set_msgs (delete i (msgs m)) m)))) as E'.
  { revert E. unfold __coroc_copy_from_mque, bind, on_mque, zoom. cbn.
    destruct (queue_rem _ _) as [[[o|] st]|]; [|done|done]. unfold demand, get. cbn.
    destruct (msgs m !! o); [|done]. unfold modify, ret, set_mque, set_msgs, set_mlock. cbn. intros. congruence. }
  exists (mk_mbox false (mclose m) (rq m) (slot m) q' (delete i (msgs m)) (delete (mptr x) (heap m)) (menv m)), ids. split.
  - unfold coroc_recv, mbox_recv, mlock_acquire. unfold bind at 1, bind at 1. rewrite (mr_lock _ _ _ R).
    rewrite (bind_ok _ _ _ _ _ E'). unfold bind at 1, mlock_release, bind at 1. cbn [mlock set_mlock].
    cbn [ret]. unfold ret. erewrite recv_copy_ok by (exact Hb || exact Hs). done.
  - split; cbn; try done; try (by apply R).
    + intros j. rewrite lookup_delete_is_Some, <- (mr_dom _ _ _ R), elem_of_cons. naive_solver.
    + cbn in Hl. lia.
    + intros k j b' Hk Hb'. destruct (mr_block _ _ _ R (Datatypes.S k) j b') as (y & Hy & Hby); [done|by rewrite Hq|].
      assert (j <> i) as Hne by (intros ->; by eapply Hnin, list_elem_of_lookup_2).
      exists y. rewrite lookup_delete_ne by done. split; [done|]. apply keep_deleted; [|done].
      intros Ep. by destruct Hne; eapply (mr_ptrs _ _ _ R).
    + intros j k y z [_ Hy]%lookup_delete_Some [_ Hz]%lookup_delete_Some. by eapply (mr_ptrs _ _ _ R).
    + intros q [v [Hne Hv]%lookup_delete_Some]. destruct (mr_heap _ _ _ R q) as [(j & y & Hy & Ep)|(? & ? & ? & _)];
        [by eauto| |congruence]. left. exists j, y. rewrite lookup_delete_ne; [done|]. intros ->. congruence.
Qed.

Lemma recv_blocks_ok m a ids self sz : mrep m a ids -> ms_owner a = ow_runs -> ms_queue a = [] ->
  ~ ae_waiting (menv m) self ->
  exists m', coroc_recv self sz true m = Ok (None, m') /\ mrep m' (mk_mspec [] (ow_waits self)) [].
Proof.
  intros R Ho Hq Hw. pose proof (mr_len _ _ _ R) as Hl. rewrite Hq in Hl. destruct ids; [|done].
  destruct (ae_suspend_spec (menv m) self Hw) as (s' & Es & Hs).
  exists (mk_mbox false (mclose m) (Some self) None (mque m) (msgs m) (heap m) s'). split.
  - assert (__coroc_copy_from_mque (set_mlock true m) = Ok (None, set_mlock true m)) as E.
    { pose proof (from_mque_empty m a R) as E. revert E. unfold __coroc_copy_from_mque, bind, on_mque, zoom. cbn.
      destruct (queue_rem _ _) as [[[o|] st]|]; [| |done]; unfold demand, get, ret.
      - unfold modify. destruct (msgs (set_mque st m) !! o); done.
      - intros [= E]. by rewrite <- E. }
    unfold coroc_recv, mbox_recv, mlock_acquire. unfold bind at 1, bind at 1. rewrite (mr_lock _ _ _ R).
    rewrite (bind_ok _ _ _ _ _ E). unfold bind, get. cbn. rewrite (mr_open _ _ _ R).
    unfold on_menv, zoom, modify. cbn. rewrite Es. cbn. unfold mlock_release, ret, set_menv, set_slot, set_rq, set_mlock. cbn. by rewrite ?(mr_open _ _ _ R).
  - split; cbn; try done; try (by apply R).
    + split_and!; [done|apply Hs; by right|done].
    + intros p Hp. destruct (mr_heap _ _ _ R p Hp) as [?|(? & ? & ? & _)]; [by left|congruence].
Qed.

Lemma mresume_ok m a ids b sz : mrep m a ids -> ms_owner a = ow_gets b -> 0 <= sz ->
  exists m', coroc_recv_resume sz m = Ok ((CHAN_AWAKEN, cut sz b), m') /\
    mrep m' (mk_mspec (ms_queue a) ow_runs) ids.
Proof.
  intros R Ho Hs. pose proof (mr_owner _ _ _ R) as Ro. rewrite Ho in Ro. destruct Ro as (Hrq & x & Hx & Hb & Hne).
  exists (mk_mbox false (mclose m) (rq m) (slot m) (mque m) (msgs m) (delete (mptr x) (heap m)) (menv m)). split.
  - unfold coroc_recv_resume, mbox_recv_resume, mlock_acquire, mlock_release, bind at 1, bind at 1. rewrite (mr_lock _ _ _ R).
    unfold bind at 1, get, bind at 1. cbn [mlock set_mlock]. unfold ret. cbn [slot set_mlock]. rewrite Hx.
    erewrite recv_copy_ok by (exact Hb || exact Hs). unfold set_heap, set_mlock. cbn. by rewrite ?Hx.
  - split; cbn; try done; try (by apply R).
    + intros k j b' Hk Hb'. destruct (mr_block _ _ _ R k j b' Hk Hb') as (y & Hy & Hby). exists y.
      split; [done|]. apply keep_deleted; [by eapply Hne|done].
    + intros p [v [Hp Hv]%lookup_delete_Some]. destruct (mr_heap _ _ _ R p) as [?|(b' & y & _ & Hy & Ep)];
        [by eauto|by left|]. rewrite Hx in Hy. injection Hy as <-. done.
Qed.

End mailbox_proofs.

(** ** A mailbox *)

(** [memset] clears a coroutine before its channel is initialised. *)
Definition zero_mbox : mailbox (gset coid) := mk_mbox false false None None (mk_qstore ∅ ∅) ∅ ∅ ∅.
Definition mbox : mailbox (gset coid) := result zero_mbox (coroc_async_chan_init zero_mbox).

Lemma mbox_rep : mrep mbox (mk_mspec [] ow_runs) [].
Proof.
  split; try done.
  - split; [apply NoDup_nil_2|cbn; lia|vm_compute; reflexivity|done].
  - by intros i ?%not_elem_of_nil.
  - intros i. split; [by intros ?%not_elem_of_nil|]. change (msgs mbox) with (∅ : gmap mid msg).
    rewrite lookup_empty. by intros [].
  - intros p. change (heap mbox) with (∅ : gmap ptr (list Z)). rewrite lookup_empty. by intros [].
Qed.

Definition mafter (c : mcall) (m : mailbox (gset coid)) : mailbox (gset coid) :=
  match mexec c m with Ok (_, m') => m' | Err _ => m end.


(** Two messages, received in order, the second one cut. *)
Example two_messages :
  let m := mafter (M_send 51 8 [5; 6; 7] 3) (mafter (M_send 50 7 [1; 2] 2) mbox) in
  mexec (M_recv 9 10 true) m = Ok (Some (CHAN_SUCCESS, [1; 2]), mafter (M_recv 9 10 true) m) /\
  exists m', mexec (M_recv 9 2 true) (mafter (M_recv 9 10 true) m) = Ok (Some (CHAN_SUCCESS, [5; 6]), m').
Proof. split; [vm_compute; reflexivity|]. eexists. vm_compute. reflexivity. Qed.

(** A receive that does not block, with no message: [_msg] was never written. *)
Example empty_receive : mexec (M_recv 9 4 false) mbox = Err Uninit.
Proof. vm_compute. reflexivity. Qed.

(** A message to a coroutine that has exited: reported as sent, and its block
    stays allocated. *)
Example send_to_exited :
  let m := match coroc_async_chan_fini 1 mbox with Ok (_, m) => m | Err _ => mbox end in
  mclose m = true /\
  match coroc_send 50 7 [1; 2] 2 m with
  | Ok (r, m') => r = CHAN_SUCCESS /\ heap m' = {[50%nat := [1; 2]]} /\ msgs m' = ∅
  | Err _ => False
  end.
Proof. vm_compute. done. Qed.
