(* ===== verification/Boot.v ===== *)
(** * Starting the process, and the platform it starts on
      (src/boot.c, src/coroc_main.c, src/context.c, src/notify.c,
       src/futex_impl.c,
       include/inter/notify.h, include/inter/support.h)

    The configuration [coroc_boot] takes from its arguments and the
    environment; how the address of a coroutine reaches its first function;
    the clock signal's mask; and
    sleeping with a timeout. *)

From S2P Require Import Prelude Queue RunQueue Scheduler Netpoll Net.

(** ** [strtol] with base 0, from the C library

    The value and whether it was in range (errno is not set otherwise). *)
Definition LONG_MAX : Z := 2 ^ 63 - 1.
Definition strtol (s : list Z) : Z * bool :=
  let '(neg, s1) := sign (skip_spaces s) in
  let '(base, s2) := number_base s1 in
  match s2 with
  | c :: _ =>
      if digit_val c <? base then
        let v := (digits base 0 s2).1 in
        let v := if (neg : bool) then - v else v in
        if LONG_MAX <? v then (LONG_MAX, false)
        else if v <? - LONG_MAX - 1 then (- LONG_MAX - 1, false) else (v, true)
      else (0, true)
  | [] => (0, true)
  end.

(** ** [coroc_boot] *)

(** The environment: [getenv] of a variable. *)
Inductive env_var : Type := TSC_NP | TSC_ASYNC | TSC_PROFILE.
Definition environment : Type := env_var -> option (list Z).

(** [__coroc_env2int(env, ret)]: whether it succeeded, and [*ret] after it. *)
Definition __coroc_env2int (getenv : environment) (env : env_var) (r : Z) : bool * Z :=
  match getenv env with
  | None => (false, r)
  | Some value => let '(v, ok) := strtol value in (ok, i32 v)
  end.

(** The parts of the runtime in the order they are started. *)
Inductive init_call : Type :=
| init_clock | init_intertimer | init_netpoll
| init_async_pool (n : Z) | init_vpu (np : Z) | init_profiler (p : Z).

(** [coroc_boot] up to [clock_routine], which does not return. *)
Definition coroc_boot (getenv : environment) (online np nasync : Z) : list init_call :=
  let np := if np <=? 0 then
              let np := (__coroc_env2int getenv TSC_NP np).2 in
              if np <=? 0 then online else np
            else np in
  let nasync := if nasync <=? 0 then
                  let '(ok, n) := __coroc_env2int getenv TSC_ASYNC nasync in
                  if ok then n else if 1 <? np then Z.shiftr np 1 else 1
                else nasync in
  let profile := (__coroc_env2int getenv TSC_PROFILE 0).2 in
  [init_clock; init_intertimer; init_netpoll; init_async_pool nasync; init_vpu np; init_profiler profile].

(** [__coroc_main], the [main] of a program that defines none. *)
Definition __coroc_main (getenv : environment) (online : Z) : list init_call :=
  coroc_boot getenv online 0 (-1).

(** ** The entry of a coroutine (src/context.c)

    [makecontext] passes integers of 32 bits: the address is split in two. *)
Definition split_address (coroutine : Z) : Z * Z :=
  let tmp := u64 coroutine in
  let low := u32 tmp in
  let tmp := Z.shiftr tmp 16 in
  let high := u32 (Z.shiftr tmp 16) in
  (low, high).

(** [bootstrap]: [high << 16] is computed in 32 bits. *)
Definition join_address (low high : Z) : Z :=
  let tmp := u32 (Z.shiftl high 16) in
  let tmp := i64 (Z.shiftl tmp 16) in
  Z.lor tmp low.

(** What the new context calls, in order, for the coroutines by address with
    their types and arguments. *)
Inductive entry_call : Type :=
| call_main                      (* entry(__argc, __argv) *)
| call_entry (arguments : Z)     (* entry(arguments) *)
| call_exit (value : Z).         (* coroc_coroutine_exit(value) *)
Definition bootstrap (coroutines : gmap Z (coroutine_type * Z)) (low high : Z) : res (list entry_call) :=
  match coroutines !! join_address low high with
  | None => Err Dangling
  | Some (type, arguments) =>
      Ok [if bool_decide (type = TSC_COROUTINE_MAIN) then call_main else call_entry arguments;
          call_exit 0]
  end.

(** ** The mask of the clock signal (include/inter/support.h)

    The nesting count of a thread, and whether the signal is blocked. *)
Record sigstate := mk_sig { sigmask_nest : Z; sig_blocked : bool }.
Definition TSC_SIGNAL_MASK (s : sigstate) : sigstate :=
  mk_sig (i32 (sigmask_nest s + 1)) (if sigmask_nest s =? 0 then true else sig_blocked s).
Definition TSC_SIGNAL_UNMASK (s : sigstate) : sigstate :=
  let n := i32 (sigmask_nest s - 1) in
  mk_sig n (if n =? 0 then false else sig_blocked s).

(** ** Sleeping on a note (src/notify.c, src/futex_impl.c)

    The operating system is two sequences: [key i] is the note's key as read
    after the [i]-th call of FUTEX_WAIT, [clock i] the [i]-th reading of the clock. *)

(** The timespec given to FUTEX_WAIT; [None]: no timeout. *)
Definition _coroc_futex_sleep (ns : Z) : option (Z * Z) :=
  if ns <? 0 then None else Some (Z.quot ns 1000000000, Z.rem ns 1000000000).

Section tsleep.
Variables key clock : nat -> Z.

(** The loop from round [i]: the timeouts it asked for, and whether the key
    was set when it was left; [None] when the fuel does not suffice. *)
Fixpoint tsleep_loop (fuel i : nat) (ns deadline : Z) : option (list (option (Z * Z)) * bool) :=
  match fuel with
  | O => None
  | S fuel =>
      let call := _coroc_futex_sleep ns in
      if negb (key i =? 0) then Some ([call], true) else
      let now := clock (S i) in
      if deadline <=? now then Some ([call], false) else
      match tsleep_loop fuel (S i) (i64 (deadline - now)) deadline with
      | Some (calls, r) => Some (call :: calls, r)
      | None => None
      end
  end.

Definition __coroc_notify_tsleep (fuel : nat) (ns : Z) : option (list (option (Z * Z)) * bool) :=
  let now := clock 0%nat in
  let deadline := i64 (ns + now) in
  tsleep_loop fuel 0 ns deadline.

(** [coroc_notify_tsleep]: no sleep for a time that is not positive. *)
Definition coroc_notify_tsleep (fuel : nat) (ns : Z) : option (list (option (Z * Z)) * bool) :=
  if 0 <? ns then __coroc_notify_tsleep fuel ns else Some ([], false).

End tsleep.

(** [coroc_notify_wakeup]: the key after it, and how many threads FUTEX_WAKE
    is asked to wake. *)
Definition coroc_notify_wakeup (key : Z) : Z * Z := if key =? 0 then (1, 1) else (key, 0).

(** [__coroc_nanosleep]: the time asked of [nanosleep]. *)
Definition __coroc_nanosleep (ns : Z) : Z * Z := (u64 ns / 1000000000, u64 ns mod 1000000000).

(** ** Lemmas *)

Lemma join_split p : 0 <= p < 2 ^ 64 ->
  join_address (split_address p).1 (split_address p).2 = p mod 2 ^ 48.
Proof.
  intros Hp. unfold join_address, split_address. cbn [fst snd].
  rewrite u64_small by done. rewrite Z.shiftr_shiftr by lia. change (16 + 16) with 32.
  assert (forall x, 0 <= x < 2 ^ 32 -> i64 (Z.shiftl x 16) = Z.shiftl x 16) as Hi.
  { intros x Hx. apply i64_small. rewrite Z.shiftl_mul_pow2 by lia.
    change (2 ^ 16) with 65536. change (2 ^ 32) with 4294967296 in Hx.
    change (2 ^ 63) with 9223372036854775808. lia. }
  rewrite Hi by apply u32_range. unfold u32.
  apply Z.bits_inj'. intros n Hn.
  rewrite Z.lor_spec, Z.shiftl_spec, !Z.testbit_mod_pow2 by lia.
  destruct (decide (n < 32)).
  - rewrite (proj2 (Z.ltb_lt n 32)), (proj2 (Z.ltb_lt n 48)) by lia.
    destruct (decide (n - 16 < 0)); [by rewrite (Z.testbit_neg_r _ (n - 16)), andb_false_r by lia|].
    rewrite Z.shiftl_spec, (Z.testbit_neg_r _ (n - 16 - 16)) by lia.
    by rewrite andb_false_r.
  - rewrite Z.shiftl_spec, !Z.testbit_mod_pow2, Z.shiftr_spec by lia.
    replace (n - 16 - 16 + 32) with n by lia. rewrite (proj2 (Z.ltb_ge n 32)) by lia.
    rewrite orb_false_r. 
    destruct (Z.testbit p n) eqn:E; [|by rewrite !andb_false_r]. rewrite !andb_true_r.
    destruct (decide (n < 48)).
    + rewrite !(proj2 (Z.ltb_lt _ _)) by lia. done.
    + rewrite (proj2 (Z.ltb_ge n 48)), (proj2 (Z.ltb_ge (n - 16) 32)) by lia. done.
Qed.

Lemma i32_range x : - 2 ^ 31 <= i32 x < 2 ^ 31.
Proof. unfold i32. pose proof (Z.mod_pos_bound (x + 2 ^ 31) (2 ^ 32) ltac:(lia)). lia. Qed.

(** Code that masks the signal around parts of itself. *)
Inductive masked_code : Type := m_end | m_block (inner rest : masked_code).
Fixpoint run_masked (c : masked_code) (s : sigstate) : sigstate :=
  match c with
  | m_end => s
  | m_block inner rest => run_masked rest (TSC_SIGNAL_UNMASK (run_masked inner (TSC_SIGNAL_MASK s)))
  end.
Fixpoint mask_depth (c : masked_code) : Z :=
  match c with
  | m_end => 0
  | m_block inner rest => Z.max (1 + mask_depth inner) (mask_depth rest)
  end.
Definition mask_ok (s : sigstate) : Prop :=
  0 <= sigmask_nest s /\ sig_blocked s = (0 <? sigmask_nest s).

Lemma mask_depth_pos c : 0 <= mask_depth c.
Proof. induction c; cbn; lia. Qed.

(** The mask nests: such code leaves the signal as it found it, and the
    signal is blocked inside. *)
Lemma masked_restores c : forall s, mask_ok s -> sigmask_nest s + mask_depth c < 2 ^ 31 ->
  run_masked c s = s /\ sig_blocked (TSC_SIGNAL_MASK s) = true.
Proof.
  induction c as [|inner IHi rest IHr]; intros s [Hn Hb] Hd; cbn in Hd.
  all: assert (sig_blocked (TSC_SIGNAL_MASK s) = true) as Hm
    by (cbn; destruct (Z.eqb_spec (sigmask_nest s) 0); [done|];
        rewrite Hb; destruct (Z.ltb_spec 0 (sigmask_nest s)); [done|lia]).
  { done. }
  cbn [run_masked]. pose proof (mask_depth_pos inner). pose proof (mask_depth_pos rest).
  assert (sigmask_nest (TSC_SIGNAL_MASK s) = sigmask_nest s + 1) as Hs.
  { cbn. apply i32_small. lia. }
  destruct (IHi (TSC_SIGNAL_MASK s)) as [-> _].
  { split; [lia|]. rewrite Hm, Hs. destruct (Z.ltb_spec 0 (sigmask_nest s + 1)); [done|lia]. }
  { lia. }
  assert (TSC_SIGNAL_UNMASK (TSC_SIGNAL_MASK s) = s) as ->; [|split; [|done]; apply IHr; [done|lia]].
  unfold TSC_SIGNAL_UNMASK. rewrite Hs, Hm. replace (sigmask_nest s + 1 - 1) with (sigmask_nest s) by lia.
  rewrite i32_small by lia. destruct s as [n b]. cbn in *. f_equal. rewrite Hb.
  destruct (Z.eqb_spec n 0) as [->|]; [done|]. destruct (Z.ltb_spec 0 n); [done|lia].
Qed.

(** Once the mask is left in place, code that masks and unmasks no longer lets
    the signal through. *)
Example unmask_forgotten :
  let s := TSC_SIGNAL_MASK (mk_sig 0 false) in
  run_masked (m_block m_end m_end) s = mk_sig 1 true.
Proof. reflexivity. Qed.

Section tsleep_facts.
Context (key clock : nat -> Z) (ns : Z).
Context (Hns : 0 < ns) (Hpos : forall i, 0 <= clock i) (Hfit : clock 0%nat + ns < 2 ^ 63).
Let deadline := clock 0%nat + ns.

(** Round [k] is the last one. *)
Definition tsleep_stops (k : nat) : Prop := key k <> 0 \/ deadline <= clock (S k).

Lemma tsleep_loop_ends k : tsleep_stops k -> (forall j, (j < k)%nat -> ~ tsleep_stops j) ->
  forall fuel i, (i <= k)%nat -> (k - i < fuel)%nat ->
  tsleep_loop key clock fuel i (deadline - clock i) deadline =
  Some ((fun j => _coroc_futex_sleep (deadline - clock j)) <$> seq i (S (k - i)), negb (key k =? 0)).
Proof.
  intros Hk Hmin. induction fuel as [|fuel IH]; intros i Hi Hf; [lia|]. cbn [tsleep_loop].
  destruct (decide (i = k)) as [->|Hne].
  - rewrite Nat.sub_diag. destruct (Z.eqb_spec (key k) 0) as [E|E]; [|done].
    destruct Hk as [Hk|Hk]; [done|]. cbn. destruct (Z.leb_spec deadline (clock (S k))); [done|lia].
  - assert (~ tsleep_stops i) as Hni by (apply Hmin; lia). unfold tsleep_stops in Hni.
    destruct (Z.eqb_spec (key i) 0) as [E|E]; [|tauto]. cbn [negb].
    destruct (Z.leb_spec deadline (clock (S i))); [tauto|].
    specialize (Hpos (S i)). rewrite i64_small by lia. rewrite IH by lia.
    replace (S (k - i)) with (S (S (k - S i))) by lia. done.
Qed.

Lemma tsleep_first n : tsleep_stops n ->
  exists k, (k <= n)%nat /\ tsleep_stops k /\ forall j, (j < k)%nat -> ~ tsleep_stops j.
Proof.
  induction n as [n IH] using lt_wf_ind. intros Hs.
  assert (forall j, Decision (tsleep_stops j)) by (intros j; unfold tsleep_stops; apply _).
  destruct (decide (Exists tsleep_stops (seq 0 n))) as [He|Hno].
  - apply Exists_exists in He as (j & Hj%elem_of_seq & Hsj).
    destruct (IH j ltac:(lia) Hsj) as (k & ? & ?). exists k. split; [lia|done].
  - exists n. repeat split; [lia|done|]. intros j Hj Hsj. apply Hno, Exists_exists.
    exists j. split; [apply elem_of_seq; lia|done].
Qed.
End tsleep_facts.

(** A timeout is a valid timespec of the same duration. *)
Lemma futex_timespec ns : 0 <= ns ->
  exists sec nsec, _coroc_futex_sleep ns = Some (sec, nsec) /\
    0 <= sec /\ 0 <= nsec < 1000000000 /\ sec * 1000000000 + nsec = ns.
Proof.
  intros Hns. unfold _coroc_futex_sleep. destruct (Z.ltb_spec ns 0); [lia|]. do 2 eexists.
  split; [done|]. rewrite Z.quot_div_nonneg, Z.rem_mod_nonneg by lia.
  pose proof (Z.div_mod ns 1000000000). pose proof (Z.mod_pos_bound ns 1000000000).
  pose proof (Z.div_pos ns 1000000000). lia.
Qed.

(** ** Properties *)

(** With at least one processor online the runtime is started with at least
    one VPU whatever the arguments and the environment, and with the count the
    caller gives when it is positive; and with at least one thread for
    asynchronous calls unless the caller leaves the count to a variable
    TSC_ASYNC that is not positive.  The parts are started in the order their
    initialisations need: the pool of threads before the VPUs. *)
Theorem boot_counts getenv online np nasync :
  1 <= online -> np < 2 ^ 31 -> nasync < 2 ^ 31 ->
  exists np' nasync' p,
    coroc_boot getenv online np nasync =
      [init_clock; init_intertimer; init_netpoll; init_async_pool nasync'; init_vpu np'; init_profiler p] /\
    1 <= np' /\ (0 < np -> np' = np) /\ (np <= 0 -> getenv TSC_NP = None -> np' = online) /\
    (0 < nasync -> nasync' = nasync) /\
    (nasync <= 0 -> getenv TSC_ASYNC = None -> nasync' = Z.max 1 (np' / 2)) /\
    (1 <= nasync' \/ exists value, getenv TSC_ASYNC = Some value /\ nasync' = i32 (strtol value).1).
Proof.
  intros Hon Hnp Hna. unfold coroc_boot.
  destruct (__coroc_env2int getenv TSC_NP np) as [okn n] eqn:En. cbn [snd].
  destruct (__coroc_env2int getenv TSC_ASYNC nasync) as [oka a] eqn:Ea.
  set (np' := if np <=? 0 then if n <=? 0 then online else n else np).
  assert (1 <= np') as Hnp'.
  { unfold np'. destruct (Z.leb_spec np 0); [|lia]. destruct (Z.leb_spec n 0); lia. }
  assert ((if 1 <? np' then Z.shiftr np' 1 else 1) = Z.max 1 (np' / 2)) as Hhalf.
  { rewrite Z.shiftr_div_pow2 by lia. change (2 ^ 1) with 2.
    destruct (Z.ltb_spec 1 np'); [|replace np' with 1 by lia; done].
    pose proof (Z.div_le_lower_bound np' 2 1). lia. }
  do 3 eexists. split; [reflexivity|]. split_and!; [done|..].
  - intros. unfold np'. by destruct (Z.leb_spec np 0); [lia|].
  - intros Hle Hnone. unfold __coroc_env2int in En. rewrite Hnone in En. simplify_eq.
    unfold np'. rewrite (proj2 (Z.leb_le n 0)) by lia. done.
  - intros. by destruct (Z.leb_spec nasync 0); [lia|].
  - intros Hle Hnone. unfold __coroc_env2int in Ea. rewrite Hnone in Ea. simplify_eq.
    rewrite (proj2 (Z.leb_le _ 0)) by lia. apply Hhalf.
  - destruct (Z.leb_spec nasync 0); [|left; lia]. unfold __coroc_env2int in Ea.
    destruct (getenv TSC_ASYNC) as [value|] eqn:Ev.
    + destruct (strtol value) as [v ok] eqn:Es. simplify_eq. destruct oka.
      * right. exists value. by rewrite Es.
      * left. rewrite Hhalf. lia.
    + simplify_eq. left. rewrite Hhalf. lia.
Qed.

(** An environment that sets TSC_ASYNC to the given text. *)
Definition only_async (value : list Z) : environment :=
  fun v => match v with TSC_ASYNC => Some value | _ => None end.

Lemma boot_counts_witness :
  exists np' nasync' p,
    __coroc_main (only_async [52]) 8 =
      [init_clock; init_intertimer; init_netpoll; init_async_pool nasync'; init_vpu np'; init_profiler p] /\
    1 <= np'.
Proof.
  destruct (boot_counts (only_async [52]) 8 0 (-1)) as (np' & na & p & E & Hnp & _); [lia..|].
  by exists np', na, p.
Defined.

(** TSC_ASYNC=-1 starts a pool without threads. *)
Example boot_no_threads :
  init_async_pool (-1) ∈ __coroc_main (only_async [45; 49]) 8.
Proof. vm_compute. do 3 right. left. Qed.

(** The address of a coroutine that is split in two integers for
    [makecontext] arrives in [bootstrap] without its bits from the 48th on; so a
    new context runs its own coroutine, and then exits, when its address is
    below 2^48. *)
Theorem entry_address (coroutines : gmap Z (coroutine_type * Z)) p type arguments :
  0 <= p < 2 ^ 64 ->
  let '(low, high) := split_address p in
  join_address low high = p mod 2 ^ 48 /\
  (p < 2 ^ 48 -> coroutines !! p = Some (type, arguments) ->
   bootstrap coroutines low high =
     Ok [if bool_decide (type = TSC_COROUTINE_MAIN) then call_main else call_entry arguments; call_exit 0]).
Proof.
  intros Hp. pose proof (join_split p Hp) as Hj.
  destruct (split_address p) as [low high]. cbn [fst snd] in Hj. split; [done|].
  intros Hlt Hc. unfold bootstrap. rewrite Hj, Z.mod_small by lia. by rewrite Hc.
Qed.

Lemma entry_address_witness :
  bootstrap {[ 139637976727552 := (TSC_COROUTINE_NORMAL, 7) ]}
    (split_address 139637976727552).1 (split_address 139637976727552).2
  = Ok [call_entry 7; call_exit 0].
Proof.
  apply (entry_address {[ 139637976727552 := (TSC_COROUTINE_NORMAL, 7) ]} 139637976727552 TSC_COROUTINE_NORMAL 7);
    [lia|lia|reflexivity].
Defined.

(** C38: A sleep on a note ends as soon as its key is set or the deadline is
    reached, whichever happens in the earlier round, never before; it asks the
    kernel in each round for exactly the time that is left, which is positive;
    and it ends when the clock reaches the deadline, in as many rounds as that
    takes. *)
Theorem tsleep_ends (key clock : nat -> Z) ns n :
  0 < ns -> (forall i, 0 <= clock i) -> clock 0%nat + ns < 2 ^ 63 -> clock 0%nat + ns <= clock (S n) ->
  exists k, (k <= n)%nat /\
    coroc_notify_tsleep key clock (S n) ns =
      Some ((fun j => _coroc_futex_sleep (clock 0%nat + ns - clock j)) <$> seq 0 (S k), negb (key k =? 0)) /\
    (key k <> 0 \/ clock 0%nat + ns <= clock (S k)) /\
    (forall j, (j < k)%nat -> key j = 0 /\ clock (S j) < clock 0%nat + ns) /\
    (forall j, (j <= k)%nat -> 0 < clock 0%nat + ns - clock j).
Proof.
  intros Hns Hpos Hfit Hn.
  destruct (tsleep_first key clock ns n (or_intror Hn)) as (k & Hk & Hs & Hmin).
  assert (forall j, (j < k)%nat -> key j = 0 /\ clock (S j) < clock 0%nat + ns) as Hb.
  { intros j Hj. specialize (Hmin j Hj). unfold tsleep_stops in Hmin.
    destruct (decide (key j = 0)); [|tauto]. split; [done|]. apply Z.lt_nge. tauto. }
  exists k. split_and!; [done| |done|done|].
  - unfold coroc_notify_tsleep, __coroc_notify_tsleep. rewrite (proj2 (Z.ltb_lt 0 ns)) by lia.
    specialize (Hpos 0%nat) as H0. rewrite i64_small by lia. rewrite (Z.add_comm ns).
    pose proof (tsleep_loop_ends key clock ns Hpos Hfit k Hs Hmin (S n) 0 ltac:(lia) ltac:(lia)) as HE.
    replace (clock 0%nat + ns - clock 0%nat) with ns in HE by lia. by rewrite Nat.sub_0_r in HE.
  - intros [|j] Hj; [lia|]. destruct (Hb j); lia.
Qed.

(** A note that is set after the third of five rounds. *)
Lemma tsleep_ends_witness :
  exists k, (k <= 4)%nat /\
    coroc_notify_tsleep (fun i => if (i <? 3)%nat then 0 else 1) (fun i => 100 * Z.of_nat i) 5 500 =
      Some ((fun j => _coroc_futex_sleep (500 - 100 * Z.of_nat j)) <$> seq 0 (S k), true).
Proof.
  destruct (tsleep_ends (fun i => if (i <? 3)%nat then 0 else 1) (fun i => 100 * Z.of_nat i) 500 4)
    as (k & Hk & E & Hs & _); [lia|intros; lia|lia|lia|].
  exists k. split; [done|]. rewrite E. destruct (Nat.ltb_spec k 3) as [Hlt|]; [|done].
  exfalso. destruct Hs as [|Hs]; [done|lia].
Defined.
