(* ===== verification/NetpollPoll.v ===== *)
(** * The network poller over poll(2) (src/netpoll_poll.c)

    The table of the waiting descriptors and the array of [struct pollfd] kept
    parallel to it: adding at the end, deleting by moving the last entry into
    the hole, and the polling loop, which deletes entries of the table while it
    goes over it.

    [ran d] says whether the coroutine waiting on [d] runs at once when it is
    made ready: it reads the mode and frees the descriptor, so the theorems hold
    for every such choice. *)

From S2P Require Import Prelude Netpoll.

Definition POLLIN : Z := 1.
Definition POLLOUT : Z := 4.
Definition POLLERR : Z := 8.
Definition POLLRDHUP : Z := 8192.

Record pollfd := mk_pollfd { pfd : Z; pevents : Z; prevents : Z }.
Definition set_revents (v : Z) (p : pollfd) : pollfd := mk_pollfd (pfd p) (pevents p) v.

(** The fields of [struct coroc_poll_desc] this back end uses. *)
Record pdesc := mk_pdesc { pd_done : bool; pd_fd : Z; pd_mode : Z; pd_id : Z; pd_wait : nat; pd_lock : bool }.
Definition set_pd_done v x := mk_pdesc v (pd_fd x) (pd_mode x) (pd_id x) (pd_wait x) (pd_lock x).
Definition set_pd_mode v x := mk_pdesc (pd_done x) (pd_fd x) v (pd_id x) (pd_wait x) (pd_lock x).
Definition set_pd_id v x := mk_pdesc (pd_done x) (pd_fd x) (pd_mode x) v (pd_wait x) (pd_lock x).
Definition set_pd_lock v x := mk_pdesc (pd_done x) (pd_fd x) (pd_mode x) (pd_id x) (pd_wait x) v.

(** [coroc_netpoll_manager] with its two arrays ([None]: never written), the
    descriptors alive, and the coroutines made ready with the mode they find. *)
Record pworld := mk_pworld {
  pcap : Z;
  psize : Z;
  pfds : list (option pollfd);
  ptable : list (option nat);
  pmutex : bool;
  pdescs : gmap nat pdesc;
  pwoken : list (nat * Z)
}.
Definition set_pcap v w := mk_pworld v (psize w) (pfds w) (ptable w) (pmutex w) (pdescs w) (pwoken w).
Definition set_psize v w := mk_pworld (pcap w) v (pfds w) (ptable w) (pmutex w) (pdescs w) (pwoken w).
Definition set_pfds v w := mk_pworld (pcap w) (psize w) v (ptable w) (pmutex w) (pdescs w) (pwoken w).
Definition set_ptable v w := mk_pworld (pcap w) (psize w) (pfds w) v (pmutex w) (pdescs w) (pwoken w).
Definition set_pmutex v w := mk_pworld (pcap w) (psize w) (pfds w) (ptable w) v (pdescs w) (pwoken w).
Definition set_pdescs v w := mk_pworld (pcap w) (psize w) (pfds w) (ptable w) (pmutex w) v (pwoken w).
Definition set_pwoken v w := mk_pworld (pcap w) (psize w) (pfds w) (ptable w) (pmutex w) (pdescs w) v.

Definition get_pdesc (d : nat) : ST pworld pdesc :=
  fun w => match pdescs w !! d with Some x => Ok (x, w) | None => Err Dangling end.
Definition upd_pdesc (d : nat) (f : pdesc -> pdesc) : ST pworld unit :=
  fun w => match pdescs w !! d with
           | Some x => Ok (tt, set_pdescs (<[d := f x]> (pdescs w)) w)
           | None => Err Dangling
           end.

(** Entries of the arrays; a read entry is [None] when it was never written. *)
Definition read_at {A} (l : list (option A)) (i : Z) : ST pworld (option A) :=
  demand OutOfBounds (if i <? 0 then None else l !! Z.to_nat i).
Definition write_at {A} (set : list (option A) -> pworld -> pworld) (l : list (option A)) (i : Z)
    (v : option A) : ST pworld unit :=
  if (0 <=? i) && (i <? Z.of_nat (length l)) then modify (set (<[Z.to_nat i := v]> l))
  else throw OutOfBounds.

(** [realloc] to [n] entries. *)
Definition resize_to {A} (n : Z) (l : list (option A)) : list (option A) :=
  take (Z.to_nat n) l ++ replicate (Z.to_nat n - length l) None.

Definition mutex_acquire : ST pworld unit :=
  let! w := get in if pmutex w then throw SelfDeadlock else modify (set_pmutex true).
Definition mutex_release : ST pworld unit := modify (set_pmutex false).

Definition __coroc_netpoll_init (max : Z) : ST pworld unit :=
  modify (fun w => mk_pworld max 0 (replicate (Z.to_nat max) None) (replicate (Z.to_nat max) None)
                             false (pdescs w) (pwoken w)).

(** [__coroc_netpoll_fini]: both arrays are freed. *)
Definition __coroc_netpoll_fini : ST pworld unit :=
  do! modify (set_pfds []) in
  modify (set_ptable []).

(** The events asked for a mode. *)
Definition poll_events (mode : Z) : Z :=
  let e := 0 in
  let e := if Z.land mode TSC_NETPOLL_READ =? 0 then e else Z.lor e POLLIN in
  if Z.land mode TSC_NETPOLL_WRITE =? 0 then e else Z.lor e POLLOUT.

(** The enlargement at the start of [__coroc_netpoll_add]. *)
Definition poll_grow : ST pworld unit :=
  modify (fun w => if psize w =? pcap w then
                     let cap := i32 (pcap w * 2) in
                     set_ptable (resize_to cap (ptable w)) (set_pfds (resize_to cap (pfds w)) (set_pcap cap w))
                   else w).

Definition __coroc_netpoll_add (d : nat) : ST pworld unit :=
  do! mutex_acquire in
  do! poll_grow in
  let! w := get in
  let size := psize w in
  do! write_at set_ptable (ptable w) size (Some d) in
  do! upd_pdesc d (set_pd_id size) in
  let! x := get_pdesc d in
  do! write_at set_pfds (pfds w) size (Some (mk_pollfd (pd_fd x) (poll_events (pd_mode x)) 0)) in
  do! modify (fun w => set_psize (i32 (psize w + 1)) w) in
  mutex_release.

Definition __coroc_netpoll_rem (d : nat) : ST pworld unit :=
  let! x := get_pdesc d in
  let id := pd_id x in
  let! w := get in
  let size := psize w in
  let! last := read_at (pfds w) (size - 1) in
  do! write_at set_pfds (pfds w) id last in
  let! last := read_at (ptable w) (size - 1) in
  do! write_at set_ptable (ptable w) id last in
  let! last := demand Uninit last in
  do! upd_pdesc last (set_pd_id id) in
  modify (fun w => set_psize (i32 (psize w - 1)) w).

Section polling.
Variable ran : nat -> bool.

(** [vpu_ready(desc->wait, false)]: the coroutine made ready, the mode it will
    find, and the descriptor freed if it runs at once. *)
Definition poll_ready (d : nat) : ST pworld unit :=
  let! x := get_pdesc d in
  do! modify (fun w => set_pwoken (pwoken w ++ [(pd_wait x, pd_mode x)]) w) in
  if ran d then modify (fun w => set_pdescs (delete d (pdescs w)) w) else ret tt.

Definition coroc_netpoll_wakeup (d : nat) : ST pworld unit :=
  let! x := get_pdesc d in
  do! (if pd_lock x then throw SelfDeadlock else upd_pdesc d (set_pd_lock true)) in
  do! __coroc_netpoll_rem d in
  do! upd_pdesc d (set_pd_lock false) in
  poll_ready d.

(** [mode] after an entry, from [mode] before it, the descriptor's and the
    events found. *)
Definition revents_mode (mode dm ev : Z) : Z :=
  if negb (Z.land ev POLLERR =? 0) then TSC_NETPOLL_ERROR else
  let mode := if negb (Z.land dm TSC_NETPOLL_READ =? 0) && negb (Z.land ev (Z.lor POLLIN POLLRDHUP) =? 0)
              then Z.lor mode TSC_NETPOLL_READ else mode in
  if negb (Z.land dm TSC_NETPOLL_WRITE =? 0) && negb (Z.land ev POLLOUT =? 0)
  then Z.lor mode TSC_NETPOLL_WRITE else mode.

(** The loop from entry [i], with [n] entries to go. *)
Fixpoint poll_entries (n : nat) (i mode : Z) : ST pworld unit :=
  match n with
  | O => ret tt
  | S n =>
      let! w := get in
      let! desc := read_at (ptable w) i in
      let! d := demand Uninit desc in
      let! x := get_pdesc d in
      if pd_done x then poll_entries n (i + 1) mode else
      do! upd_pdesc d (set_pd_done true) in
      let! p := read_at (pfds w) i in
      let! p := demand Uninit p in
      let mode := revents_mode mode (pd_mode x) (prevents p) in
      do! upd_pdesc d (set_pd_mode mode) in
      do! coroc_netpoll_wakeup d in
      poll_entries n (i + 1) mode
  end.

(** What poll(2) leaves in the entries: the events found of each. *)
Definition store_revents (evs : list Z) (l : list (option pollfd)) : list (option pollfd) :=
  imap (fun i o => match evs !! i with Some ev => set_revents ev <$> o | None => o end) l.

(** [evs]: the events found, [None] when poll(2) failed. *)
Definition __coroc_netpoll_polling (evs : option (list Z)) : ST pworld bool :=
  let! w := get in
  let size := psize w in
  if size =? 0 then ret false else
  match evs with
  | None => ret false
  | Some evs =>
      do! modify (fun w => set_pfds (store_revents evs (pfds w)) w) in
      if bool_decide (Forall (fun ev => ev = 0) evs) then ret false else
      do! mutex_acquire in
      do! poll_entries (Z.to_nat size) 0 0 in
      do! mutex_release in
      ret true
  end.

End polling.

Definition __coroc_netpoll_size (w : pworld) : Z := psize w.

(** ** The table holds a list of descriptors *)

Record ptab (w : pworld) (ds : list nat) : Prop := {
  pt_size : psize w = Z.of_nat (length ds);
  pt_cap : length (ptable w) = Z.to_nat (pcap w);
  pt_fds : length (pfds w) = Z.to_nat (pcap w);
  pt_room : psize w <= pcap w;
  pt_ent : forall k d, ds !! k = Some d -> ptable w !! k = Some (Some d) /\
    exists x p, pdescs w !! d = Some x /\ pd_id x = Z.of_nat k /\
      pfds w !! k = Some (Some p) /\ pfd p = pd_fd x
}.

Lemma ptab_nodup w ds : ptab w ds -> NoDup ds.
Proof.
  intros T. apply NoDup_alt. intros i j d Hi Hj.
  destruct (pt_ent _ _ T i d Hi) as (_ & x & p & E1 & E2 & _).
  destruct (pt_ent _ _ T j d Hj) as (_ & y & q & E3 & E4 & _). simplify_eq. lia.
Qed.

(** The list after the entry [k] was deleted: the last one takes its place. *)
Definition swap_out (k : nat) (ds : list nat) : list nat :=
  take (pred (length ds)) (match last ds with Some l => <[k := l]> ds | None => ds end).

Lemma swap_out_length k ds : length (swap_out k ds) = pred (length ds).
Proof. unfold swap_out. rewrite length_take. destruct (last ds); rewrite ?length_insert; lia. Qed.

Lemma last_at (ds : list nat) l : last ds = Some l <-> ds !! pred (length ds) = Some l.
Proof. by rewrite last_lookup. Qed.

Lemma swap_out_lookup k ds d l j e : NoDup ds -> ds !! k = Some d -> last ds = Some l ->
  swap_out k ds !! j = Some e ->
  e <> d /\ (j < pred (length ds))%nat /\ (j <> k /\ ds !! j = Some e \/ j = k /\ e = l).
Proof.
  intros Hnd Hk Hl Hj. unfold swap_out in Hj. rewrite Hl in Hj. apply last_at in Hl.
  apply lookup_take_Some in Hj as [Hj Hlt].
  destruct (decide (j = k)) as [->|Hne].
  - rewrite list_lookup_insert_eq in Hj by (by eapply lookup_lt_Some). simplify_eq. split_and!; [|done|by right].
    intros ->. pose proof (NoDup_lookup _ _ _ _ Hnd Hk Hl). lia.
  - rewrite list_lookup_insert_ne in Hj by done. split_and!; [|done|by left].
    intros ->. by pose proof (NoDup_lookup _ _ _ _ Hnd Hk Hj).
Qed.

Lemma swap_out_mem k ds d l e : ds !! k = Some d -> last ds = Some l -> e ∈ ds -> e <> d ->
  e ∈ swap_out k ds.
Proof.
  intros Hk Hl [j Hj]%list_elem_of_lookup Hne. pose proof Hl as Hl'. apply last_at in Hl'.
  apply list_elem_of_lookup. unfold swap_out. rewrite Hl.
  pose proof (lookup_lt_Some _ _ _ Hj). pose proof (lookup_lt_Some _ _ _ Hk).
  destruct (decide (j = pred (length ds))) as [->|Hj'].
  - exists k. simplify_eq. rewrite lookup_take_lt, list_lookup_insert_eq; [done|done|].
    enough (k <> pred (length ds)) by lia. intros ->. simplify_eq.
  - exists j. rewrite lookup_take_lt by lia. rewrite list_lookup_insert_ne; [done|].
    intros ->. simplify_eq.
Qed.

(** Changes of descriptors that keep their place and file descriptor. *)
Lemma ptab_descs w ds m : ptab w ds ->
  (forall e x, e ∈ ds -> pdescs w !! e = Some x ->
     exists y, m !! e = Some y /\ pd_id y = pd_id x /\ pd_fd y = pd_fd x) ->
  ptab (set_pdescs m w) ds.
Proof.
  intros [] Hm. split; [done..|]. intros k d Hk. destruct (pt_ent0 k d Hk) as (? & x & p & Hx & ? & ? & ?).
  split; [done|]. destruct (Hm d x (list_elem_of_lookup_2 _ _ _ Hk) Hx) as (y & ? & ? & ?).
  exists y, p. split_and!; [done|congruence|done|congruence].
Qed.

(** ** Adding and removing *)

Lemma resize_lookup {A} n (l : list (option A)) k v : (length l <= Z.to_nat n)%nat ->
  l !! k = Some v -> resize_to n l !! k = Some v.
Proof.
  intros Hn Hk. unfold resize_to. rewrite take_ge by done. by apply lookup_app_l_Some.
Qed.

Lemma resize_length {A} n (l : list (option A)) : (length l <= Z.to_nat n)%nat ->
  length (resize_to n l) = Z.to_nat n.
Proof. intros. unfold resize_to. rewrite length_app, length_replicate, length_take. lia. Qed.

Lemma grow_spec w ds : ptab w ds -> 0 < pcap w < 2 ^ 30 ->
  exists w', poll_grow w = Ok (tt, w') /\ ptab w' ds /\ psize w' = psize w /\ psize w' < pcap w' /\
    pmutex w' = pmutex w /\ pdescs w' = pdescs w /\ pwoken w' = pwoken w.
Proof.
  intros T Hc. pose proof T as []. eexists. split; [reflexivity|].
  destruct (Z.eqb_spec (psize w) (pcap w)) as [E|E]; [|split_and!; [done|done|lia|done..]].
  rewrite i32_small by lia. split_and!; [|done|cbn; lia|done..].
  split; cbn; [done|rewrite resize_length; lia|rewrite resize_length; lia|lia|].
  intros k d Hk. destruct (pt_ent0 k d Hk) as (H1 & x & p & H2 & H3 & H4 & H5).
  split; [apply resize_lookup; [lia|done]|]. exists x, p. split_and!; [done|done| |done].
  apply resize_lookup; [lia|done].
Qed.

Lemma write_at_ok {A} set (l : list (option A)) i v w : 0 <= i < Z.of_nat (length l) ->
  write_at set l i v w = Ok (tt, set (<[Z.to_nat i := v]> l) w).
Proof.
  intros. unfold write_at. by rewrite (proj2 (Z.leb_le 0 i)), (proj2 (Z.ltb_lt i _)) by lia.
Qed.

Lemma read_at_ok {A} (l : list (option A)) (i : nat) v w : l !! i = Some v ->
  read_at l (Z.of_nat i) w = Ok (v, w).
Proof.
  intros Hi. unfold read_at. rewrite (proj2 (Z.ltb_ge _ 0)) by lia. rewrite Nat2Z.id, Hi. done.
Qed.

Lemma add_spec w ds d x : ptab w ds -> 0 < pcap w < 2 ^ 30 -> pmutex w = false ->
  pdescs w !! d = Some x -> (d ∉ ds) ->
  exists w', __coroc_netpoll_add d w = Ok (tt, w') /\ ptab w' (ds ++ [d]) /\ pmutex w' = false /\
    pdescs w' = <[d := set_pd_id (psize w) x]> (pdescs w) /\ pwoken w' = pwoken w.
Proof.
  intros T Hc Hm Hx Hd. unfold __coroc_netpoll_add.
  assert (ptab (set_pmutex true w) ds) as T1 by (destruct T; done).
  destruct (grow_spec _ _ T1 Hc) as (w1 & E1 & T2 & Hs & Hr & Hm1 & Hd1 & Hw1).
  unfold mutex_acquire. rewrite (bind_ok _ _ _ tt (set_pmutex true w)) by (unfold bind, get; by rewrite Hm).
  rewrite (bind_ok _ _ _ tt w1) by done.
  pose proof T2 as []. cbn in Hs, Hr, Hm1, Hd1, Hw1. rewrite Hs in *.
  rewrite (bind_ok _ _ _ w1 w1) by done. cbn zeta. rewrite Hs.
  erewrite bind_ok by (apply write_at_ok; lia).
  unfold upd_pdesc, get_pdesc. erewrite bind_ok by (cbn; rewrite Hd1, Hx; reflexivity).
  erewrite bind_ok by (cbn; rewrite lookup_insert_eq; reflexivity).
  erewrite bind_ok by (apply write_at_ok; lia).
  eexists. split; [reflexivity|]. cbn. rewrite Hs. split_and!; [|done|done|done]. pose proof (pt_room _ _ T).
  split; cbn; rewrite ?length_insert; [|done|done| |].
  - rewrite i32_small, length_app by lia. cbn. lia.
  - rewrite i32_small by lia. lia.
  - assert (Z.to_nat (psize w) = length ds) as Hn by lia. rewrite Hn.
    intros k e Hk. apply lookup_app_Some in Hk as [Hk|[Hge Hk]].
    + assert (k <> length ds) by (apply lookup_lt_Some in Hk; lia).
      assert (e <> d) by (intros ->; by apply Hd, (list_elem_of_lookup_2 _ k)).
      destruct (pt_ent0 k e Hk) as (? & y & p & Hy & ? & ? & ?).
      rewrite !list_lookup_insert_ne by done. split; [done|]. exists y, p.
      rewrite lookup_insert_ne by done. rewrite Hd1 in Hy. done.
    + destruct (k - length ds)%nat eqn:Ek; [|done]. cbn in Hk. simplify_eq.
      replace k with (length ds) by lia.
      rewrite !list_lookup_insert_eq by lia. split; [done|]. do 2 eexists. rewrite lookup_insert_eq.
      split_and!; [done|cbn; lia|done|done].
Qed.

Lemma rem_spec w ds k d l : ptab w ds -> ds !! k = Some d -> last ds = Some l ->
  psize w < 2 ^ 31 ->
  exists w' y p, __coroc_netpoll_rem d w = Ok (tt, w') /\ ptab w' (swap_out k ds) /\
    pdescs w !! l = Some y /\ pdescs w' = <[l := set_pd_id (Z.of_nat k) y]> (pdescs w) /\
    ptable w' = <[k := Some l]> (ptable w) /\ pfds w' = <[k := Some p]> (pfds w) /\
    pmutex w' = pmutex w /\ pwoken w' = pwoken w.
Proof.
  intros T Hk Hl Hs. pose proof (ptab_nodup _ _ T) as Hnd. pose proof T as [].
  pose proof (lookup_lt_Some _ _ _ Hk) as Hlt. pose proof Hl as Hl'. apply last_at in Hl'.
  destruct (pt_ent0 k d Hk) as (Hkt & x & p & Hx & Hid & Hkf & _).
  destruct (pt_ent0 _ l Hl') as (Hlt' & y & q & Hy & Hly & Hlf & Hlq).
  pose proof (lookup_lt_Some _ _ _ Hkt). pose proof (lookup_lt_Some _ _ _ Hkf).
  unfold __coroc_netpoll_rem, get_pdesc, upd_pdesc.
  erewrite bind_ok by (rewrite Hx; reflexivity). rewrite Hid.
  rewrite (bind_ok _ _ _ w w) by done.
  replace (psize w - 1) with (Z.of_nat (pred (length ds))) by lia.
  rewrite (bind_ok _ _ _ (Some q) w) by (by apply read_at_ok).
  erewrite bind_ok by (apply write_at_ok; lia).
  erewrite bind_ok by (apply read_at_ok; done).
  erewrite bind_ok by (apply write_at_ok; lia).
  erewrite bind_ok by reflexivity.
  erewrite bind_ok by (cbn; rewrite Hy; reflexivity).
  rewrite !Nat2Z.id. eexists _, y, q. split; [reflexivity|]. cbn. split_and!; [|done..].
  split; cbn; rewrite ?length_insert, ?swap_out_length; [|done|done| |].
  - rewrite i32_small by lia. lia.
  - rewrite i32_small by lia. lia.
  - intros j e Hj. destruct (swap_out_lookup _ _ _ _ _ _ Hnd Hk Hl Hj) as (Hed & Hjl & Hcase).
    destruct (decide (j = k)) as [->|Hne].
    + destruct Hcase as [[]|[_ ->]]; [done|]. rewrite !list_lookup_insert_eq by done. split; [done|].
      eexists _, q. rewrite lookup_insert_eq. split_and!; [done..|]. by cbn.
    + destruct Hcase as [[_ Hje]|[? _]]; [|done]. rewrite !list_lookup_insert_ne by done.
      destruct (pt_ent0 j e Hje) as (? & z & r & Hz & ? & ? & ?). split; [done|].
      assert (e <> l) by (intros ->; pose proof (NoDup_lookup _ _ _ _ Hnd Hje Hl'); lia).
      exists z, r. by rewrite lookup_insert_ne by done.
Qed.

(** Waking the coroutine of an entry: the entry is deleted, the others keep
    their descriptors but for their places. *)
Lemma wakeup_spec ran w ds k d x : ptab w ds -> ds !! k = Some d -> pdescs w !! d = Some x ->
  pd_lock x = false -> psize w < 2 ^ 31 ->
  exists w' l p, coroc_netpoll_wakeup ran d w = Ok (tt, w') /\ ptab w' (swap_out k ds) /\
    last ds = Some l /\ ptable w' = <[k := Some l]> (ptable w) /\ pfds w' = <[k := Some p]> (pfds w) /\
    pmutex w' = pmutex w /\ pwoken w' = pwoken w ++ [(pd_wait x, pd_mode x)] /\
    (forall e y, e <> d -> pdescs w !! e = Some y -> exists n, pdescs w' !! e = Some (set_pd_id n y)).
Proof.
  intros T Hk Hx Hlk Hs. pose proof (ptab_nodup _ _ T) as Hnd.
  assert (exists l, last ds = Some l) as [l Hl].
  { destruct (last ds) eqn:E; [by eexists|]. apply last_None in E as ->. done. }
  assert (ptab (set_pdescs (<[d := set_pd_lock true x]> (pdescs w)) w) ds) as T1.
  { apply ptab_descs; [done|]. intros e y _ Hy. destruct (decide (e = d)) as [->|].
    - rewrite lookup_insert_eq. eexists. split; [done|]. by simplify_eq.
    - rewrite lookup_insert_ne by done. by eexists. }
  destruct (rem_spec _ _ _ _ _ T1 Hk Hl Hs) as (w1 & y & p & E1 & T2 & Hy & Hd1 & Ht & Hf & Hm & Hw).
  unfold coroc_netpoll_wakeup, get_pdesc, upd_pdesc.
  erewrite bind_ok by (rewrite Hx; reflexivity). rewrite Hlk.
  erewrite bind_ok by (rewrite Hx; reflexivity).
  erewrite bind_ok by exact E1. cbn in Hy, Hd1, Ht, Hf, Hm, Hw.
  assert (exists z, pdescs w1 !! d = Some z /\ pd_wait z = pd_wait x /\ pd_mode z = pd_mode x) as (z & Hz & Hzw & Hzm).
  { rewrite Hd1. destruct (decide (l = d)) as [->|].
    - rewrite lookup_insert_eq in *. eexists. split; [done|]. by simplify_eq.
    - rewrite lookup_insert_ne, lookup_insert_eq by done. by eexists. }
  erewrite bind_ok by (rewrite Hz; reflexivity).
  unfold poll_ready, get_pdesc. erewrite bind_ok by (cbn; rewrite lookup_insert_eq; reflexivity). cbn [bind modify].
  assert (d ∉ swap_out k ds) as Hnot.
  { intros [j Hj]%list_elem_of_lookup. by destruct (swap_out_lookup _ _ _ _ _ _ Hnd Hk Hl Hj). }
  set (m := if ran d then delete d (pdescs w1) else <[d := set_pd_lock false z]> (pdescs w1)).
  exists (set_pwoken (pwoken w ++ [(pd_wait x, pd_mode x)]) (set_pdescs m w1)), l, p.
  split. { unfold bind, modify, ret, m. destruct (ran d); cbn; rewrite Hw, Hzw, Hzm; [|done].
    by rewrite delete_insert_eq. }
  split. { assert (ptab (set_pdescs m w1) (swap_out k ds)) as []; [|done].
    apply ptab_descs; [done|]. intros e x' He Hx'. assert (e <> d) by (by intros ->).
    exists x'. split; [|done]. unfold m. destruct (ran d); [by rewrite lookup_delete_ne|by rewrite lookup_insert_ne]. }
  split_and!; [done..|]. intros e x' Hne Hx'. cbn.
  assert (m !! e = pdescs w1 !! e) as -> by
    (unfold m; destruct (ran d); [by rewrite lookup_delete_ne|by rewrite lookup_insert_ne]).
  rewrite Hd1. destruct (decide (e = l)) as [->|].
  - rewrite lookup_insert_eq. rewrite lookup_insert_ne in Hy by done. simplify_eq. by eexists.
  - rewrite !lookup_insert_ne by done. exists (pd_id x'). rewrite Hx'. by destruct x'.
Qed.

(** ** The polling loop *)

(** The coroutines made ready, in the order of the table, with their modes:
    the mode of an entry also has the bits of the entries before it. *)
Fixpoint poll_served (m : gmap nat pdesc) (mode : Z) (l : list (nat * Z)) : list (nat * Z) :=
  match l with
  | [] => []
  | (d, ev) :: l =>
      match m !! d with
      | Some x => let mode := revents_mode mode (pd_mode x) ev in (pd_wait x, mode) :: poll_served m mode l
      | None => poll_served m mode l
      end
  end.

Section loop.
Context (ran : nat -> bool) (w0 : pworld) (ds : list nat) (evs : list Z).
Context (Hfree : forall d x, d ∈ ds -> pdescs w0 !! d = Some x -> pd_done x = false /\ pd_lock x = false).
Context (Hevs : forall j ev, evs !! j = Some ev -> exists p, pfds w0 !! j = Some (Some p) /\ prevents p = ev).
Context (Hlen : length evs = length ds) (Hmax : Z.of_nat (length ds) < 2 ^ 31) (Hnd : NoDup ds).

(** Before entry [i]: the entries from [i] on are still where they were, even
    past the end of the table [cur], whose own entries moved down. *)
Record lpinv (i : nat) (w : pworld) (cur : list nat) : Prop := {
  lp_tab : ptab w cur;
  lp_len : (length cur + i = length ds)%nat;
  lp_cur : forall k d, cur !! k = Some d -> exists j, ds !! j = Some d /\ (i <= j)%nat /\ (k <= j)%nat;
  lp_rest : forall j d, ds !! j = Some d -> (i <= j)%nat ->
    d ∈ cur /\ ptable w !! j = Some (Some d) /\ pfds w !! j = pfds w0 !! j /\
    exists x n, pdescs w0 !! d = Some x /\ pdescs w !! d = Some (set_pd_id n x);
  lp_mutex : pmutex w = true
}.

Lemma lpinv_start : ptab w0 ds -> pmutex w0 = true -> lpinv 0 w0 ds.
Proof.
  clear Hlen Hevs Hmax Hnd. intros T Hm. split; [done|lia| | |done].
  - intros k d Hk. exists k. split_and!; [done|lia|lia].
  - intros j d Hj _. split; [by eapply list_elem_of_lookup_2|].
    destruct (pt_ent _ _ T j d Hj) as (? & x & p & Hx & ? & ? & ?). split_and!; [done|done|].
    exists x, (pd_id x). split; [done|]. rewrite Hx. by destruct x.
Qed.

(** An entry of the loop. *)
Lemma lpinv_step i w cur d ev x mode : lpinv i w cur -> ds !! i = Some d -> evs !! i = Some ev ->
  pdescs w0 !! d = Some x ->
  let mode' := revents_mode mode (pd_mode x) ev in
  exists w' cur', lpinv (S i) w' cur' /\ pwoken w' = pwoken w ++ [(pd_wait x, mode')] /\
    forall n, poll_entries ran (S n) (Z.of_nat i) mode w = poll_entries ran n (Z.of_nat (S i)) mode' w'.
Proof.
  intros I Hi Hev Hx mode'. destruct (lp_rest _ _ _ I i d Hi ltac:(lia)) as (Hcur & Ht & Hf & x' & n0 & Hx' & Hwx).
  simplify_eq. destruct (Hfree d x (list_elem_of_lookup_2 _ _ _ Hi) Hx) as [Hdone Hlock].
  destruct (Hevs i ev Hev) as (p & Hp & Hpe). rewrite Hp in Hf.
  apply list_elem_of_lookup in Hcur as [k Hk].
  destruct (lp_cur _ _ _ I k d Hk) as (j & Hj & _ & Hkj).
  assert (j = i) as -> by (eapply NoDup_lookup; eauto).
  set (y := set_pd_mode mode' (set_pd_done true (set_pd_id n0 x))).
  set (w1 := set_pdescs (<[d := y]> (pdescs w)) w).
  assert (ptab w1 cur) as T1.
  { apply ptab_descs; [apply I|]. intros e z _ Hz. destruct (decide (e = d)) as [->|].
    - rewrite lookup_insert_eq. eexists. split; [done|]. by simplify_eq.
    - rewrite lookup_insert_ne by done. by eexists. }
  pose proof (lp_len _ _ _ I).
  destruct (wakeup_spec ran w1 cur k d y) as (w' & l & q & E & T' & Hl & Ht' & Hf' & Hm' & Hw' & Hd');
    [done|done|cbn; by rewrite lookup_insert_eq|done|rewrite (pt_size _ _ T1); lia|].
  exists w', (swap_out k cur). split; [|split; [done|]].
  - pose proof (ptab_nodup _ _ (lp_tab _ _ _ I)) as Hndc.
    assert (forall e j', ds !! j' = Some e -> e <> d -> (i <= j')%nat -> (S i <= j')%nat) as Hne.
    { intros e j' Hj' Hed Hle. destruct (decide (j' = i)) as [->|]; [by simplify_eq|lia]. }
    split; [done| | | |].
    + rewrite swap_out_length. apply lookup_lt_Some in Hk. lia.
    + intros k' e He. destruct (swap_out_lookup _ _ _ _ _ _ Hndc Hk Hl He) as (Hed & Hlt & Hc).
      destruct Hc as [[_ Hc]|[-> ->]].
      * destruct (lp_cur _ _ _ I k' e Hc) as (j' & ? & ? & ?). exists j'. split_and!; [done|by eapply Hne|done].
      * apply last_at in Hl. destruct (lp_cur _ _ _ I _ l Hl) as (j' & ? & ? & ?).
        exists j'. split_and!; [done|by eapply Hne|lia].
    + intros j' e Hj' Hle. assert (e <> d) as Hed by (intros ->; pose proof (NoDup_lookup _ _ _ _ Hnd Hi Hj'); lia).
      destruct (lp_rest _ _ _ I j' e Hj' ltac:(lia)) as (Hec & Hte & Hfe & z & n1 & Hz & Hwz).
      split; [by eapply swap_out_mem|]. rewrite Ht', Hf', !list_lookup_insert_ne by lia.
      split; [done|split; [done|]].
      destruct (Hd' e (set_pd_id n1 z)) as [n2 Hn2]; [done|cbn; by rewrite lookup_insert_ne|].
      exists z, n2. by split.
    + rewrite Hm'. apply I.
  - intros n. cbn [poll_entries]. rewrite (bind_ok _ _ _ w w) by done.
    erewrite bind_ok by (by apply read_at_ok). erewrite bind_ok by reflexivity.
    unfold get_pdesc, upd_pdesc at 1. erewrite bind_ok by (rewrite Hwx; reflexivity). cbn [pd_done set_pd_id].
    rewrite Hdone. erewrite bind_ok by (rewrite Hwx; reflexivity).
    erewrite bind_ok by (by apply read_at_ok). erewrite bind_ok by reflexivity.
    rewrite Hpe. cbn [pd_mode set_pd_id]. fold mode'.
    unfold upd_pdesc. erewrite bind_ok by (cbn; rewrite lookup_insert_eq; reflexivity).
    cbn [pdescs set_pdescs]. rewrite insert_insert_eq.
    erewrite bind_ok by exact E. f_equal. lia.
Qed.

Lemma poll_entries_spec : forall n i w cur mode, (i + n = length ds)%nat -> lpinv i w cur ->
  exists w', poll_entries ran n (Z.of_nat i) mode w = Ok (tt, w') /\ lpinv (length ds) w' [] /\
    pwoken w' = pwoken w ++ poll_served (pdescs w0) mode (drop i (zip ds evs)).
Proof.
  induction n as [|n IH]; intros i w cur mode Hn I.
  - assert (cur = []) as -> by (pose proof (lp_len _ _ _ I); destruct cur; [done|cbn in *; lia]).
    exists w. replace (length ds) with i by lia. split_and!; [done|done|].
    rewrite drop_ge by (rewrite length_zip_with; lia). by rewrite app_nil_r.
  - destruct (lookup_lt_is_Some_2 ds i ltac:(lia)) as [d Hd].
    destruct (lookup_lt_is_Some_2 evs i ltac:(lia)) as [ev Hev].
    destruct (lp_rest _ _ _ I i d Hd ltac:(lia)) as (_ & _ & _ & x & n0 & Hx & _).
    destruct (lpinv_step i w cur d ev x mode I Hd Hev Hx) as (w1 & cur1 & I1 & Hw1 & E).
    destruct (IH (S i) w1 cur1 (revents_mode mode (pd_mode x) ev) ltac:(lia) I1) as (w' & E' & I' & Hw').
    exists w'. rewrite E. split_and!; [done|done|]. rewrite Hw', Hw1, <- app_assoc. f_equal.
    rewrite (drop_S (zip ds evs) (d, ev) i) by (rewrite lookup_zip_with, Hd; cbn; by rewrite Hev).
    cbn. by rewrite Hx.
Qed.
End loop.

Lemma store_revents_tab w ds evs : ptab w ds -> ptab (set_pfds (store_revents evs (pfds w)) w) ds.
Proof.
  intros []. split; cbn; [done|done|by unfold store_revents; rewrite length_imap|done|].
  intros k d Hk. destruct (pt_ent0 k d Hk) as (? & x & p & ? & ? & Hp & ?). split; [done|].
  unfold store_revents. rewrite list_lookup_imap, Hp. cbn.
  destruct (evs !! k); eexists x, _; split_and!; done.
Qed.

Lemma store_revents_at w ds evs j ev : ptab w ds -> length evs = length ds -> evs !! j = Some ev ->
  exists p, store_revents evs (pfds w) !! j = Some (Some p) /\ prevents p = ev.
Proof.
  intros T Hlen Hj. destruct (lookup_lt_is_Some_2 ds j) as [d Hd].
  { rewrite <- Hlen. by eapply lookup_lt_Some. }
  destruct (pt_ent _ _ T j d Hd) as (? & x & p & ? & ? & Hp & ?).
  exists (set_revents ev p). unfold store_revents. by rewrite list_lookup_imap, Hp; cbn; rewrite Hj.
Qed.

Lemma poll_served_waits m : forall l mode, (forall d ev, (d, ev) ∈ l -> is_Some (m !! d)) ->
  Forall2 (fun s d => exists x, m !! d = Some x /\ s.1 = pd_wait x) (poll_served m mode l) l.*1.
Proof.
  induction l as [|[d ev] l IH]; intros mode Hl; cbn; [constructor|].
  destruct (Hl d ev ltac:(left)) as [x Hx]. rewrite Hx. constructor; [by exists x|].
  apply IH. intros d' ev' Hin. apply (Hl d' ev'). by right.
Qed.

(** ** Properties *)

(** When poll(2) finds an event, the loop over the table, which deletes the
    entries while it reads them, visits every descriptor of the table exactly
    once, in order, whichever woken coroutines free their descriptors meanwhile:
    it never touches a freed one, it leaves the table empty, and it wakes the
    coroutine of every descriptor, also of one without an event.  The mode a
    coroutine finds has the bits of the entries before its own. *)
Theorem polling_wakes_all ran w ds evs :
  ptab w ds -> ds <> [] -> Z.of_nat (length ds) < 2 ^ 31 -> pmutex w = false ->
  (forall d x, d ∈ ds -> pdescs w !! d = Some x -> pd_done x = false /\ pd_lock x = false) ->
  length evs = length ds -> ~ Forall (fun ev => ev = 0) evs ->
  exists w', __coroc_netpoll_polling ran (Some evs) w = Ok (true, w') /\
    ptab w' [] /\ __coroc_netpoll_size w' = 0 /\ pmutex w' = false /\
    pwoken w' = pwoken w ++ poll_served (pdescs w) 0 (zip ds evs) /\
    Forall2 (fun s d => exists x, pdescs w !! d = Some x /\ s.1 = pd_wait x)
            (poll_served (pdescs w) 0 (zip ds evs)) ds.
Proof.
  intros T Hne Hmax Hm Hfree Hlen Hev.
  set (w0 := set_pmutex true (set_pfds (store_revents evs (pfds w)) w)).
  assert (ptab w0 ds) as T0 by (destruct (store_revents_tab w ds evs T); done).
  destruct (poll_entries_spec ran w0 ds evs Hfree (fun j ev => store_revents_at w ds evs j ev T Hlen) Hlen Hmax
    (ptab_nodup _ _ T0) (length ds) 0 w0 ds 0 ltac:(lia) (lpinv_start w0 ds T0 eq_refl)) as (w1 & E & I & Hw).
  exists (set_pmutex false w1). unfold __coroc_netpoll_polling.
  rewrite (bind_ok _ _ _ w w) by done. rewrite (pt_size _ _ T).
  destruct (Z.eqb_spec (Z.of_nat (length ds)) 0); [destruct ds; [done|cbn in *; lia]|].
  erewrite bind_ok by reflexivity. rewrite bool_decide_eq_false_2 by done.
  unfold mutex_acquire. rewrite (bind_ok _ _ _ tt w0) by (unfold bind, get; cbn; by rewrite Hm).
  rewrite Nat2Z.id. erewrite bind_ok by exact E.
  destruct (lp_tab _ _ _ _ _ I). split_and!; [done|done|done|done|done|].
  rewrite <- (fst_zip ds evs) at 2 by lia. apply poll_served_waits.
  intros d ev Hin%elem_of_zip_l. apply list_elem_of_lookup in Hin as [k Hk].
  destruct (pt_ent _ _ T k d Hk) as (_ & x & p & Hx & _). by eexists.
Qed.

(** Three coroutines wait to read; the table has room for two at first. *)
Definition poll_start : pworld :=
  mk_pworld 2 0 [None; None] [None; None] false
    {[ 5%nat := mk_pdesc false 11 TSC_NETPOLL_READ (-1) 50 false;
       6%nat := mk_pdesc false 12 TSC_NETPOLL_READ (-1) 60 false;
       7%nat := mk_pdesc false 13 TSC_NETPOLL_READ (-1) 70 false ]} [].
Definition poll_three : pworld :=
  match (do! __coroc_netpoll_add 5 in do! __coroc_netpoll_add 6 in __coroc_netpoll_add 7) poll_start with
  | Ok (_, w) => w
  | Err _ => poll_start
  end.

Lemma poll_three_tab : ptab poll_three [5; 6; 7]%nat.
Proof.
  split; [vm_compute; done..|]. intros k d Hk.
  destruct k as [|[|[|k]]]; cbn in Hk; simplify_eq;
    (split; [vm_compute; done|]); do 2 eexists; (split; [vm_compute; done|]);
    (split; [vm_compute; done|]); (split; vm_compute; done).
Qed.

Lemma polling_wakes_all_witness :
  exists w', __coroc_netpoll_polling (fun d => (d <? 7)%nat) (Some [0; POLLIN; 0]) poll_three = Ok (true, w') /\
    __coroc_netpoll_size w' = 0.
Proof.
  destruct (polling_wakes_all (fun d => (d <? 7)%nat) poll_three [5; 6; 7]%nat [0; POLLIN; 0])
    as (w' & E & _ & Hs & _).
  - exact poll_three_tab.
  - done.
  - cbn. lia.
  - reflexivity.
  - intros d x Hd. repeat (apply elem_of_cons in Hd as [->|Hd]); [..|by apply not_elem_of_nil in Hd];
      vm_compute; intros; simplify_eq; split; reflexivity.
  - reflexivity.
  - intros HF. inversion HF as [|? ? _ HF']. inversion HF' as [|? ? HF'' _]. discriminate.
  - exists w'. split; [exact E|exact Hs].
Defined.

(** Only the second has data: the first is woken with no mode, the third with
    the mode of the second. *)
Example poll_wakes_idle :
  match __coroc_netpoll_polling (fun _ => false) (Some [0; POLLIN; 0]) poll_three with
  | Ok (_, w) => pwoken w
  | Err _ => []
  end = [(50%nat, 0); (60%nat, TSC_NETPOLL_READ); (70%nat, TSC_NETPOLL_READ)].
Proof. vm_compute. reflexivity. Qed.
