(* ===== verification/IdleConc.v ===== *)
(** * Sleeping and waking VPUs under concurrency (src/vpu.c)

    A VPU that finds no ready coroutine goes to sleep on the condition variable
    of the manager; [vpu_ready] wakes one.  Scheduler.v has these operations one
    at a time; here every atomic operation on a counter of the manager, every
    operation on its mutex and every call on its condition variable is a step,
    and the steps of the VPUs and of the other threads that call [vpu_ready]
    (those of the asynchronous pool, and the clock thread) interleave freely.

    The run queues are only their number of tasks [queued]: a scan may find
    nothing although a task is there (it was put after the scan looked), and
    takes a task only when there is one.  A task is put into its queue before
    [total_ready] counts it, so that another VPU may take it and count it off
    first. *)

From S2P Require Import Prelude.

(** The counters of [vpu_manager], and its mutex. *)
Record imgr := mk_imgr {
  alive : Z;
  idle : Z;
  total_ready : Z;
  total_iowait : Z;
  queued : Z;
  locked : bool
}.
Definition set_alive v m := mk_imgr v (idle m) (total_ready m) (total_iowait m) (queued m) (locked m).
Definition set_idle v m := mk_imgr (alive m) v (total_ready m) (total_iowait m) (queued m) (locked m).
Definition set_total_ready v m := mk_imgr (alive m) (idle m) v (total_iowait m) (queued m) (locked m).
Definition set_total_iowait v m := mk_imgr (alive m) (idle m) (total_ready m) v (queued m) (locked m).
Definition set_queued v m := mk_imgr (alive m) (idle m) (total_ready m) (total_iowait m) v (locked m).
Definition set_locked v m := mk_imgr (alive m) (idle m) (total_ready m) (total_iowait m) (queued m) v.

(** Places inside [vpu_ready], after the task was put into a queue; [io] is
    [coroutine->async_wait]. *)
Inductive rpc : Type :=
| r_inc (io : bool)     (* before counting [total_ready] up *)
| r_iowait              (* before counting [total_iowait] down *)
| r_lock                (* [vpu_wakeup_one], before taking the mutex *)
| r_alive               (* with the mutex, before testing [alive] *)
| r_idle                (* ... [idle] *)
| r_total               (* ... [total_ready] *)
| r_signal              (* ... before [pthread_cond_signal] *)
| r_unlock.             (* ... before releasing it *)

(** A step of [vpu_ready] with [xt_index = n]; [None]: not now, or a signal;
    the new place [None]: it returns. *)
Definition ready_next (n : Z) (m : imgr) (r : rpc) : option (imgr * option rpc) :=
  match r with
  | r_inc io => Some (set_total_ready (u32 (total_ready m + 1)) m, Some (if io then r_iowait else r_lock))
  | r_iowait => Some (set_total_iowait (u32 (total_iowait m - 1)) m, Some r_lock)
  | r_lock => if locked m then None else Some (set_locked true m, Some r_alive)
  | r_alive => Some (m, Some (if alive m =? 0 then r_signal else if alive m <? n then r_idle else r_unlock))
  | r_idle => Some (m, Some (if idle m =? 0 then r_total else r_unlock))
  | r_total => Some (m, Some (if Z.shiftl (alive m) 1 <? total_ready m then r_signal else r_unlock))
  | r_signal => None
  | r_unlock => Some (set_locked false m, None)
  end.

(** From where a VPU called [vpu_ready]. *)
Inductive vret : Type :=
| ret_run                (* a coroutine *)
| ret_scan (loops : Z)   (* the network poller, from the scan *)
| ret_poll.              (* ... from the loop that waits for the network *)

(** A VPU; from [v_enter] on it is in [core_sched]. *)
Inductive vpc : Type :=
| v_run                        (* runs a coroutine *)
| v_call (b : vret) (r : rpc)  (* in [vpu_ready] *)
| v_yield                      (* [core_yield], the task put, before counting it *)
| v_wait                       (* [core_wait] of an asynchronous call, before counting it *)
| v_enter                      (* before counting [idle] up *)
| v_scan (loops : Z)           (* looks for a task; [idle_loops] *)
| v_took                       (* took a task, before counting [idle] down *)
| v_took_total                 (* ... [total_ready] down *)
| v_lock                       (* before taking the mutex *)
| v_dec                        (* with the mutex, before [alive--] *)
| v_ready0                     (* ... before the first reading of [total_ready] *)
| v_iowait                     (* ... before reading [total_iowait] *)
| v_idle_dec                   (* ... going to sleep, before counting [idle] down *)
| v_cond                       (* ... before [pthread_cond_wait] *)
| v_blocked                    (* asleep *)
| v_woken                      (* awake, before it has the mutex again *)
| v_idle_inc                   (* with the mutex, before counting [idle] up *)
| v_ready1                     (* ... before the second reading of [total_ready] *)
| v_net                        (* ... before [__coroc_netpoll_size] *)
| v_backtrace                  (* ... before [vpu_backtrace] *)
| v_alive (poll : bool)        (* ... before [alive++]; [poll]: to wait for the network *)
| v_unlock (poll : bool)       (* ... before releasing the mutex *)
| v_poll.                      (* waits for the network *)

#[export] Instance rpc_eq_dec : EqDecision rpc.
Proof. solve_decision. Defined.
#[export] Instance vret_eq_dec : EqDecision vret.
Proof. solve_decision. Defined.
#[export] Instance vpc_eq_dec : EqDecision vpc.
Proof. solve_decision. Defined.

Definition MAX_SPIN_LOOP_NUM : Z := 1.
Definition back (b : vret) : vpc :=
  match b with ret_run => v_run | ret_scan k => v_scan k | ret_poll => v_poll end.

(** A step of a VPU, other than a signal and the end of its sleep. *)
Inductive idle_step (n : Z) (m : imgr) : vpc -> imgr -> vpc -> Prop :=
(* the coroutine it runs makes another ready, yields, or suspends *)
| iv_ready io : idle_step n m v_run (set_queued (queued m + 1) m) (v_call ret_run (r_inc io))
| iv_yield : idle_step n m v_run (set_queued (queued m + 1) m) v_yield
| iv_wait : idle_step n m v_run m v_wait
| iv_leave : idle_step n m v_run m v_enter
(* vpu_ready, core_yield, core_wait *)
| iv_call b r m' r' : ready_next n m r = Some (m', Some r') -> idle_step n m (v_call b r) m' (v_call b r')
| iv_return b r m' : ready_next n m r = Some (m', None) -> idle_step n m (v_call b r) m' (back b)
| iv_preempt : alive m = n ->
    idle_step n m (v_call ret_run r_lock) (set_queued (queued m + 1) m) v_yield
| iv_yield_inc : idle_step n m v_yield (set_total_ready (u32 (total_ready m + 1)) m) v_enter
| iv_wait_inc : idle_step n m v_wait (set_total_iowait (u32 (total_iowait m + 1)) m) v_enter
(* core_sched *)
| iv_enter : idle_step n m v_enter (set_idle (u16 (idle m + 1)) m) (v_scan 0)
| iv_polled k io : idle_step n m (v_scan k) (set_queued (queued m + 1) m) (v_call (ret_scan k) (r_inc io))
| iv_take k : 0 < queued m -> idle_step n m (v_scan k) (set_queued (queued m - 1) m) v_took
| iv_took : idle_step n m v_took (set_idle (u16 (idle m - 1)) m) v_took_total
| iv_took_total : idle_step n m v_took_total (set_total_ready (u32 (total_ready m - 1)) m) v_run
| iv_none k : idle_step n m (v_scan k) m (if MAX_SPIN_LOOP_NUM <? k + 1 then v_lock else v_scan (k + 1))
| iv_lock : locked m = false -> idle_step n m v_lock (set_locked true m) v_dec
| iv_dec : let a := u16 (alive m - 1) in
    idle_step n m v_dec (set_alive a m) (if 0 <? a then v_idle_dec else v_ready0)
| iv_ready0 : idle_step n m v_ready0 m (if total_ready m =? 0 then v_iowait else v_ready1)
| iv_iowait : idle_step n m v_iowait m (if 0 <? total_iowait m then v_idle_dec else v_ready1)
| iv_idle_dec : idle_step n m v_idle_dec (set_idle (u16 (idle m - 1)) m) v_cond
| iv_cond : idle_step n m v_cond (set_locked false m) v_blocked
| iv_woken : locked m = false -> idle_step n m v_woken (set_locked true m) v_idle_inc
| iv_idle_inc : idle_step n m v_idle_inc (set_idle (u16 (idle m + 1)) m) (v_alive false)
| iv_ready1 : idle_step n m v_ready1 m (if total_ready m =? 0 then v_net else v_alive false)
| iv_net size : idle_step n m v_net m (if 0 <? size then v_alive true else v_backtrace)
| iv_backtrace : idle_step n m v_backtrace m (v_alive false)
| iv_alive p : idle_step n m (v_alive p) (set_alive (u16 (alive m + 1)) m) (v_unlock p)
| iv_unlock p : idle_step n m (v_unlock p) (set_locked false m) (if p then v_poll else v_scan 0)
| iv_poll_ready io : idle_step n m v_poll (set_queued (queued m + 1) m) (v_call ret_poll (r_inc io))
| iv_poll_done : idle_step n m v_poll m (v_scan 0).

(** The system: the manager, the VPUs, and the other threads ([None]: outside
    [vpu_ready]). *)
Record istate := mk_istate { mgr : imgr; vpus : list vpc; others : list (option rpc) }.

Definition xt_index (s : istate) : Z := Z.of_nat (length (vpus s)).
Definition set_vpu (i : nat) (m : imgr) (p : vpc) (s : istate) : istate :=
  mk_istate m (<[i := p]> (vpus s)) (others s).
Definition set_other (i : nat) (m : imgr) (r : option rpc) (s : istate) : istate :=
  mk_istate m (vpus s) (<[i := r]> (others s)).

(** [pthread_cond_signal]: it wakes one sleeper, any, if there is one. *)
Definition signals (s s' : istate) : Prop :=
  (exists j, vpus s !! j = Some v_blocked /\ s' = set_vpu j (mgr s) v_woken s) \/
  ((v_blocked ∉ vpus s) /\ s' = s).

(** Fewer than 2^31 tasks and threads. *)
Definition small (s : istate) : Prop :=
  queued (mgr s) + Z.of_nat (length (vpus s)) + Z.of_nat (length (others s)) < 2 ^ 31.

(** A step of another thread inside [vpu_ready]. *)
Inductive waker_step (s : istate) : istate -> Prop :=
| ws_next i r m' r' : others s !! i = Some (Some r) -> ready_next (xt_index s) (mgr s) r = Some (m', r') ->
    waker_step s (set_other i m' r' s)
| ws_signal i s' : others s !! i = Some (Some r_signal) -> signals s s' ->
    waker_step s (set_other i (mgr s') (Some r_unlock) s').

Inductive cstep (s : istate) : istate -> Prop :=
| cs_vpu i p m' p' : vpus s !! i = Some p -> small s -> idle_step (xt_index s) (mgr s) p m' p' ->
    cstep s (set_vpu i m' p' s)
| cs_vpu_signal i b s' : vpus s !! i = Some (v_call b r_signal) -> signals s s' ->
    cstep s (set_vpu i (mgr s') (v_call b r_unlock) s')
| cs_spurious i : vpus s !! i = Some v_blocked -> cstep s (set_vpu i (mgr s) v_woken s)
| cs_other_ready i io : others s !! i = Some None -> small s ->
    cstep s (set_other i (set_queued (queued (mgr s) + 1) (mgr s)) (Some (r_inc io)) s)
| cs_waker s' : waker_step s s' -> cstep s s'.

(** [n] VPUs before their first [core_sched], and [k] other threads; the
    counters as [coroc_vpu_initialize] leaves them, with [q] tasks queued. *)
Definition idle_start (n k : nat) (q : Z) : istate :=
  mk_istate (mk_imgr (Z.of_nat n) 0 q 0 q false) (replicate n v_enter) (replicate k None).

(** ** The counters *)

(** Between [alive--] and [alive++]. *)
Definition region (p : vpc) : bool :=
  match p with
  | v_ready0 | v_iowait | v_idle_dec | v_cond | v_blocked | v_woken | v_idle_inc | v_ready1 | v_net
  | v_backtrace | v_alive _ => true
  | _ => false
  end.
(** Counted in [idle]. *)
Definition counted (p : vpc) : bool :=
  match p with
  | v_run | v_call ret_run _ | v_yield | v_wait | v_enter | v_took_total | v_cond | v_blocked | v_woken | v_idle_inc => false
  | _ => true
  end.
(** Took a task that [total_ready] still counts; put one that it does not yet. *)
Definition took (p : vpc) : bool := match p with v_took | v_took_total => true | _ => false end.
Definition rputs (r : rpc) : bool := match r with r_inc _ => true | _ => false end.
Definition puts (p : vpc) : bool :=
  match p with v_call _ r => rputs r | v_yield => true | _ => false end.
(** Has the mutex. *)
Definition rholds (r : rpc) : bool :=
  match r with r_alive | r_idle | r_total | r_signal | r_unlock => true | _ => false end.
Definition holds (p : vpc) : bool :=
  match p with
  | v_call _ r => rholds r
  | v_dec | v_ready0 | v_iowait | v_idle_dec | v_cond | v_idle_inc | v_ready1 | v_net | v_backtrace
  | v_alive _ | v_unlock _ => true
  | _ => false
  end.
Definition oputs (o : option rpc) : bool := match o with Some r => rputs r | None => false end.
Definition oholds (o : option rpc) : bool := match o with Some r => rholds r | None => false end.

(** Asleep or going to sleep; a thread that will look whether to wake one. *)
Definition doze (p : vpc) : bool :=
  match p with v_iowait | v_idle_dec | v_cond | v_blocked => true | _ => false end.
Definition pending (o : option rpc) : bool :=
  match o with
  | Some (r_inc _ | r_iowait | r_lock | r_alive | r_signal) => true
  | _ => false
  end.
(** Found [alive] not to be zero, with the mutex. *)
Definition found_alive (o : option rpc) : bool :=
  match o with Some (r_idle | r_total) => true | _ => false end.

Definition b_alive (p : vpc) : Z := Z.b2z (negb (region p)).
Definition b_idle (p : vpc) : Z := Z.b2z (counted p).
Definition b_ready (p : vpc) : Z := Z.b2z (took p) - Z.b2z (puts p).
Definition b_holds (p : vpc) : Z := Z.b2z (holds p).
Definition bo_ready (o : option rpc) : Z := - Z.b2z (oputs o).
Definition bo_holds (o : option rpc) : Z := Z.b2z (oholds o).

Record iinv (s : istate) : Prop := {
  ii_alive : alive (mgr s) = u16 (sumz b_alive (vpus s));
  ii_idle : idle (mgr s) = u16 (sumz b_idle (vpus s));
  ii_total : total_ready (mgr s) = u32 (queued (mgr s) + (sumz b_ready (vpus s) + sumz bo_ready (others s)));
  ii_mutex : Z.b2z (locked (mgr s)) = sumz b_holds (vpus s) + sumz bo_holds (others s);
  ii_check : forall o, o ∈ others s -> found_alive o -> alive (mgr s) <> 0;
  ii_doze : Forall (fun p => doze p) (vpus s) -> queued (mgr s) = 0 \/ exists o, o ∈ others s /\ pending o;
  ii_vpus : 0 < Z.of_nat (length (vpus s)) < 2 ^ 16;
  ii_small : Z.of_nat (length (vpus s)) + Z.of_nat (length (others s)) < 2 ^ 31;
  ii_queued : 0 <= queued (mgr s) <= 2 ^ 31
}.

Lemma u16_add a b : u16 (u16 a + b) = u16 (a + b).
Proof. unfold u16. by rewrite Zplus_mod_idemp_l. Qed.

Lemma u16_sub a b : u16 (u16 a - b) = u16 (a - b).
Proof. unfold u16. by rewrite Zminus_mod_idemp_l. Qed.

Lemma u16_small x : 0 <= x < 2 ^ 16 -> u16 x = x.
Proof. intros. unfold u16. by rewrite Z.mod_small. Qed.

(** How the parts of the manager follow a thread that goes from one place to
    another: [da], [di], [dr], [dh] are the changes of its weights. *)
Definition follows (m m' : imgr) (da di dr dh : Z) : Prop :=
  (forall a, alive m = u16 a -> alive m' = u16 (a + da)) /\
  (forall a, idle m = u16 a -> idle m' = u16 (a + di)) /\
  (forall a, total_ready m = u32 (queued m + a) -> total_ready m' = u32 (queued m' + (a + dr))) /\
  Z.b2z (locked m') = Z.b2z (locked m) + dh.

Ltac counters :=
  unfold follows, bo_ready, bo_holds, b_alive, b_idle, b_ready, b_holds; cbn;
  split_and!;
  [ let a := fresh in let H := fresh in intros a H; rewrite H, ?u16_add, ?u16_sub; f_equal; lia
  | let a := fresh in let H := fresh in intros a H; rewrite H, ?u16_add, ?u16_sub; f_equal; lia
  | let a := fresh in let H := fresh in intros a H; rewrite H, ?u32_add_l, ?u32_sub_l; f_equal; lia
  | repeat match goal with H : locked _ = _ |- _ => rewrite H end; cbn; lia ].

Ltac branches :=
  repeat (simplify_eq; match goal with
  | E : context [if ?b then _ else _] |- _ => destruct b eqn:?
  | |- context [if ?b then _ else _] => destruct b eqn:?
  end); simplify_eq.

Lemma ready_follows n m r m' r' : ready_next n m r = Some (m', r') -> (rholds r -> locked m = true) ->
  follows m m' 0 0 (bo_ready r' - bo_ready (Some r)) (bo_holds r' - bo_holds (Some r)).
Proof.
  intros E Hl. destruct r; cbn in E, Hl; branches; try specialize (Hl I); counters.
Qed.

Lemma follows_eq m m' a i r h a' i' r' h' : follows m m' a i r h ->
  a = a' -> i = i' -> r = r' -> h = h' -> follows m m' a' i' r' h'.
Proof. by intros ? -> -> -> ->. Qed.

Lemma idle_follows n m p m' p' : idle_step n m p m' p' -> (holds p -> locked m = true) ->
  follows m m' (b_alive p' - b_alive p) (b_idle p' - b_idle p) (b_ready p' - b_ready p) (b_holds p' - b_holds p).
Proof.
  intros E Hl. destruct E; cbn in Hl; branches; try specialize (Hl I);
    try match goal with a := _ |- _ => subst a end;
    try (counters; fail);
    match goal with E : ready_next _ _ _ = _, b : vret |- _ =>
      eapply follows_eq; [by apply (ready_follows _ _ _ _ _ E)|..];
      unfold bo_ready, bo_holds, b_alive, b_idle, b_ready, b_holds; destruct b; cbn; lia
    end.
Qed.

(** ** The invariant is kept *)

Record cinv (s : istate) : Prop := {
  ci_alive : alive (mgr s) = u16 (sumz b_alive (vpus s));
  ci_idle : idle (mgr s) = u16 (sumz b_idle (vpus s));
  ci_total : total_ready (mgr s) = u32 (queued (mgr s) + (sumz b_ready (vpus s) + sumz bo_ready (others s)));
  ci_mutex : Z.b2z (locked (mgr s)) = sumz b_holds (vpus s) + sumz bo_holds (others s)
}.

Lemma cinv_vpu s i p m' p' : cinv s -> vpus s !! i = Some p ->
  follows (mgr s) m' (b_alive p' - b_alive p) (b_idle p' - b_idle p) (b_ready p' - b_ready p) (b_holds p' - b_holds p) ->
  cinv (set_vpu i m' p' s).
Proof.
  intros [Ha Hi Ht Hm] Hp (Fa & Fi & Ft & Fm). split; cbn [mgr vpus others set_vpu]; rewrite ?(sumz_insert _ _ _ _ _ Hp).
  - rewrite (Fa _ Ha). f_equal. lia.
  - rewrite (Fi _ Hi). f_equal. lia.
  - rewrite (Ft _ Ht). f_equal. lia.
  - rewrite Fm, Hm. lia.
Qed.

Lemma cinv_other s i o m' o' : cinv s -> others s !! i = Some o ->
  follows (mgr s) m' 0 0 (bo_ready o' - bo_ready o) (bo_holds o' - bo_holds o) ->
  cinv (set_other i m' o' s).
Proof.
  intros [Ha Hi Ht Hm] Ho (Fa & Fi & Ft & Fm). split; cbn [mgr vpus others set_other]; rewrite ?(sumz_insert _ _ _ _ _ Ho).
  - rewrite (Fa _ Ha). f_equal. lia.
  - rewrite (Fi _ Hi). f_equal. lia.
  - rewrite (Ft _ Ht). f_equal. lia.
  - rewrite Fm, Hm. lia.
Qed.

Lemma iinv_cinv s : iinv s -> cinv s.
Proof. by intros []. Qed.

Lemma b_holds_pos p : 0 <= b_holds p.
Proof. unfold b_holds. destruct (holds p); cbn; lia. Qed.
Lemma bo_holds_pos o : 0 <= bo_holds o.
Proof. unfold bo_holds. destruct (oholds o); cbn; lia. Qed.

Lemma vpu_holder s p : cinv s -> p ∈ vpus s -> holds p -> locked (mgr s) = true.
Proof.
  intros C Hp Hh. pose proof (ci_mutex _ C) as Hm.
  pose proof (sumz_pos b_holds _ _ b_holds_pos Hp) as H1. pose proof (sumz_nonneg bo_holds (others s) bo_holds_pos).
  unfold b_holds in H1 at 1. destruct (holds p); [|done]. cbn in H1. destruct (locked (mgr s)); [done|]. cbn in Hm. lia.
Qed.

Lemma other_holder s o : cinv s -> o ∈ others s -> oholds o ->
  locked (mgr s) = true /\ forall p, p ∈ vpus s -> holds p = false.
Proof.
  intros C Ho Hh. pose proof (ci_mutex _ C) as Hm.
  pose proof (sumz_pos bo_holds _ _ bo_holds_pos Ho) as H1. pose proof (sumz_nonneg b_holds (vpus s) b_holds_pos).
  unfold bo_holds in H1 at 1. destruct (oholds o); [|done]. cbn in H1. split.
  - destruct (locked (mgr s)); [done|]. cbn in Hm. lia.
  - intros p Hp. pose proof (sumz_pos b_holds _ _ b_holds_pos Hp) as H2. unfold b_holds in H2 at 1.
    destruct (holds p); [|done]. cbn in H2. destruct (locked (mgr s)); cbn in Hm; lia.
Qed.

(** All asleep: nobody is counted in [alive] and nobody has a task in hand. *)
Lemma doze_sums l : Forall (fun p => doze p) l -> sumz b_alive l = 0 /\ sumz b_ready l = 0.
Proof.
  induction 1 as [|p l Hp _ [IH1 IH2]]; cbn; [done|]. rewrite IH1, IH2.
  unfold b_alive, b_ready. destruct p; done.
Qed.

Lemma doze_alive s : cinv s -> Forall (fun p => doze p) (vpus s) -> alive (mgr s) = 0.
Proof. intros C Hd. by rewrite (ci_alive _ C), (proj1 (doze_sums _ Hd)). Qed.

(** With the counter at zero and all asleep, either nothing is queued or some
    thread has yet to count what it put. *)
Lemma nothing_or_pending s : cinv s -> 0 <= queued (mgr s) <= 2 ^ 31 ->
  Z.of_nat (length (others s)) < 2 ^ 31 -> sumz b_ready (vpus s) = 0 -> total_ready (mgr s) = 0 ->
  queued (mgr s) = 0 \/ exists o, o ∈ others s /\ pending o.
Proof.
  intros C Hq Hl Hb Ht. rewrite (ci_total _ C), Hb in Ht.
  assert (sumz bo_ready (others s) = - sumz (fun o => Z.b2z (oputs o)) (others s)) as Hs.
  { clear. induction (others s) as [|o l IH]; cbn; [done|]. rewrite IH. unfold bo_ready. lia. }
  assert (forall o, 0 <= Z.b2z (oputs o)) as Hpos by (intros o; destruct (oputs o); cbn; lia).
  destruct (decide (0 < sumz (fun o => Z.b2z (oputs o)) (others s))) as [Hlt|Hge].
  - right. destruct (sumz_exists _ _ Hpos Hlt) as (o & Ho & Hput). exists o. split; [done|].
    destruct o as [[]|]; cbn in Hput; (done || lia).
  - left. pose proof (sumz_nonneg _ (others s) Hpos). unfold u32 in Ht.
    rewrite Z.mod_small in Ht by lia. lia.
Qed.

Lemma doze_insert l i (p : vpc) : (i < length l)%nat -> Forall (fun p => doze p) (<[i := p]> l) -> doze p.
Proof.
  intros Hi HF. rewrite Forall_forall in HF. apply HF, (list_elem_of_lookup_2 _ i).
  by rewrite list_lookup_insert_eq.
Qed.

(** A VPU that stays asleep was asleep. *)
Lemma doze_back l i (p p' : vpc) : l !! i = Some p -> doze p ->
  Forall (fun p => doze p) (<[i := p']> l) -> Forall (fun p => doze p) l.
Proof.
  intros Hi Hd HF. rewrite Forall_lookup in *. intros j q Hq.
  destruct (decide (j = i)) as [->|]; [by simplify_eq|]. apply (HF j). by rewrite list_lookup_insert_ne.
Qed.

Lemma queued_step n m p m' p' : idle_step n m p m' p' -> 0 <= queued m ->
  0 <= queued m' <= queued m + 1 /\ (doze p' -> queued m' = queued m) /\ (holds p = false -> alive m' = alive m).
Proof.
  intros E Hq. destruct E; branches; cbn; try (split_and!; [lia|lia|done|done]);
    try (split_and!; [lia|lia|by intros []|done]); try (split_and!; [lia|lia|done|by intros ?]).
  all: match goal with E : ready_next _ _ ?r = _ |- _ => destruct r; cbn in E; branches; cbn; split_and!; (lia || done) end.
Qed.

Lemma doze_vpu s i p m' p' : iinv s -> vpus s !! i = Some p -> idle_step (xt_index s) (mgr s) p m' p' ->
  cinv (set_vpu i m' p' s) -> Forall (fun p => doze p) (<[i := p']> (vpus s)) ->
  queued m' = 0 \/ exists o, o ∈ others s /\ pending o.
Proof.
  intros I Hp E C HF. pose proof (lookup_lt_Some _ _ _ Hp) as Hlt.
  pose proof (doze_insert _ _ _ Hlt HF) as Hd.
  destruct (queued_step _ _ _ _ _ E (proj1 (ii_queued _ I))) as (_ & Hq & _). rewrite (Hq Hd).
  destruct (doze p) eqn:Hdp.
  { apply (ii_doze _ I). eapply doze_back; [done| |done]. by rewrite Hdp. }
  pose proof (doze_alive _ C HF) as Ha. pose proof (proj2 (doze_sums _ HF)) as Hb. cbn in Ha.
  destruct E; try done; branches; try done.
  - exfalso. by destruct b.
  - exfalso. subst a. cbn in Ha. match goal with E : (0 <? _) = true |- _ => apply Z.ltb_lt in E end. lia.
  - rewrite (sumz_insert _ _ _ _ _ Hp) in Hb. change (b_ready v_ready0) with 0 in Hb. change (b_ready v_iowait) with 0 in Hb.
    match goal with E : (total_ready _ =? 0) = true |- _ => apply Z.eqb_eq in E end.
    apply nothing_or_pending; [by apply iinv_cinv|apply I| |lia|done].
    pose proof (ii_small _ I). lia.
Qed.

Lemma iinv_vpu s i p m' p' : iinv s -> vpus s !! i = Some p -> small s ->
  idle_step (xt_index s) (mgr s) p m' p' -> iinv (set_vpu i m' p' s).
Proof.
  intros I Hp Hs E. pose proof (list_elem_of_lookup_2 _ _ _ Hp) as Hin.
  assert (cinv (set_vpu i m' p' s)) as C.
  { eapply cinv_vpu; [by apply iinv_cinv|done|]. apply (idle_follows _ _ _ _ _ E).
    intros Hh. by eapply vpu_holder, Hh; [apply iinv_cinv|]. }
  destruct (queued_step _ _ _ _ _ E (proj1 (ii_queued _ I))) as (Hq & _ & Hal).
  pose proof C as []. split; [done..| | | | |]; cbn; rewrite ?length_insert.
  - intros o Ho Hf. destruct (other_holder s o) as [_ Hnone]; [by apply iinv_cinv|done|by destruct o as [[]|]|].
    rewrite (Hal (Hnone p Hin)). by apply (ii_check _ I o).
  - intros HF. by eapply doze_vpu.
  - apply I.
  - apply I.
  - unfold small in Hs. lia.
Qed.

(** A sleeper that wakes. *)
Lemma iinv_woken s i : iinv s -> vpus s !! i = Some v_blocked -> iinv (set_vpu i (mgr s) v_woken s).
Proof.
  intros I Hp. assert (cinv (set_vpu i (mgr s) v_woken s)) as [].
  { eapply cinv_vpu; [by apply iinv_cinv|done|]. counters. }
  split; [done..|apply I| | | |]; cbn; rewrite ?length_insert; try apply I.
  intros HF. exfalso. by apply doze_insert in HF; [|eapply lookup_lt_Some].
Qed.

(** The caller of [pthread_cond_signal] goes on. *)
Lemma iinv_vpu_signalled s i b : iinv s -> vpus s !! i = Some (v_call b r_signal) ->
  iinv (set_vpu i (mgr s) (v_call b r_unlock) s).
Proof.
  intros I Hp. assert (cinv (set_vpu i (mgr s) (v_call b r_unlock) s)) as [].
  { eapply cinv_vpu; [by apply iinv_cinv|done|]. destruct b; counters. }
  split; [done..|apply I| | | |]; cbn; rewrite ?length_insert; try apply I.
  intros HF. exfalso. by apply doze_insert in HF; [|eapply lookup_lt_Some].
Qed.

Lemma signals_inv s s' : iinv s -> signals s s' -> iinv s' /\ others s' = others s /\ mgr s' = mgr s /\
  length (vpus s') = length (vpus s) /\ (forall i p, vpus s !! i = Some p -> p <> v_blocked -> vpus s' !! i = Some p).
Proof.
  intros I [(j & Hj & ->)|[_ ->]]; [|by eauto]. split; [by apply iinv_woken|]. cbn. rewrite length_insert. split_and!; try done.
  intros i p Hi Hne. rewrite list_lookup_insert_ne; [done|]. intros ->. by simplify_eq.
Qed.

Lemma elem_of_insert_inv {A} (l : list A) i x y : x ∈ <[i := y]> l -> x = y \/ x ∈ l.
Proof.
  intros [j Hj]%list_elem_of_lookup. destruct (decide (j = i)) as [->|Hne].
  - destruct (decide (i < length l)%nat).
    + rewrite list_lookup_insert_eq in Hj by done. simplify_eq. by left.
    + right. rewrite list_insert_ge in Hj by lia. by eapply list_elem_of_lookup_2.
  - rewrite list_lookup_insert_ne in Hj by done. right. by eapply list_elem_of_lookup_2.
Qed.

Lemma other_ready_follows m : follows m (set_queued (queued m + 1) m) 0 0 (-1) 0.
Proof. counters. Qed.

Lemma iinv_other_ready s i io : iinv s -> others s !! i = Some None -> small s ->
  iinv (set_other i (set_queued (queued (mgr s) + 1) (mgr s)) (Some (r_inc io)) s).
Proof.
  intros I Ho Hs. assert (cinv (set_other i (set_queued (queued (mgr s) + 1) (mgr s)) (Some (r_inc io)) s)) as [].
  { eapply cinv_other; [by apply iinv_cinv|done|]. apply other_ready_follows. }
  pose proof (lookup_lt_Some _ _ _ Ho).
  split; [done..| | | | |]; cbn; rewrite ?length_insert; try apply I.
  - intros o [->|Hin]%elem_of_insert_inv; [done|by apply (ii_check _ I)].
  - intros _. right. exists (Some (r_inc io)). split; [by apply list_elem_of_insert|done].
  - pose proof (ii_queued _ I). unfold small in Hs. lia.
Qed.

Lemma ready_keeps n m r m' r' : ready_next n m r = Some (m', r') ->
  alive m' = alive m /\ queued m' = queued m.
Proof. intros E. destruct r; cbn in E; branches; done. Qed.

(** Only a thread that finds VPUs awake gives up. *)
Lemma ready_pending n m r m' r' : ready_next n m r = Some (m', r') -> alive m = 0 -> pending (Some r) -> pending r'.
Proof. intros E Ha Hp. destruct r; cbn in E; branches; try done; lia. Qed.

Lemma iinv_other s i r m' r' : iinv s -> others s !! i = Some (Some r) ->
  ready_next (xt_index s) (mgr s) r = Some (m', r') -> iinv (set_other i m' r' s).
Proof.
  intros I Ho E. pose proof (list_elem_of_lookup_2 _ _ _ Ho) as Hin. pose proof (lookup_lt_Some _ _ _ Ho) as Hlt.
  assert (cinv (set_other i m' r' s)) as [].
  { eapply cinv_other; [by apply iinv_cinv|done|]. apply (ready_follows _ _ _ _ _ E).
    intros Hh. by apply (other_holder s (Some r)); [apply iinv_cinv|..]. }
  destruct (ready_keeps _ _ _ _ _ E) as [Ha Hq].
  split; [done..| | | | |]; cbn; rewrite ?length_insert; try (rewrite Hq); try apply I; rewrite ?Ha.
  - intros o [->|Ho']%elem_of_insert_inv Hf; [|by apply (ii_check _ I o)].
    destruct r; cbn in E; branches; try done; [lia|]. by apply (ii_check _ I (Some r_idle)).
  - intros HF. destruct (ii_doze _ I HF) as [?|(o & [j Hj]%list_elem_of_lookup & Hpend)]; [by left|right].
    destruct (decide (j = i)) as [->|Hne].
    + simplify_eq. exists r'. split; [by apply list_elem_of_insert|].
      eapply ready_pending; [done| |done]. by apply doze_alive; [apply iinv_cinv|].
    + exists o. split; [|done]. apply (list_elem_of_lookup_2 _ j). by rewrite list_lookup_insert_ne.
Qed.

(** All asleep while a thread has the mutex: all are blocked. *)
Lemma doze_blocked s o : iinv s -> o ∈ others s -> oholds o -> Forall (fun p => doze p) (vpus s) ->
  v_blocked ∈ vpus s.
Proof.
  intros I Ho Hh HF. destruct (other_holder s o (iinv_cinv _ I) Ho Hh) as [_ Hn].
  pose proof (ii_vpus _ I). destruct (vpus s) as [|p l] eqn:El; [cbn in *; lia|].
  pose proof (Hn p ltac:(left)) as Hp. rewrite Forall_cons in HF. destruct HF as [Hd _].
  destruct p; try done. left.
Qed.

Lemma iinv_other_signal s i s' : iinv s -> others s !! i = Some (Some r_signal) -> signals s s' ->
  iinv (set_other i (mgr s') (Some r_unlock) s').
Proof.
  intros I Ho Hsig. pose proof (list_elem_of_lookup_2 _ _ _ Ho) as Hin.
  destruct (signals_inv _ _ I Hsig) as (I' & Eo & Em & _ & _). rewrite <- Eo in Ho.
  assert (cinv (set_other i (mgr s') (Some r_unlock) s')) as [].
  { eapply cinv_other; [by apply iinv_cinv|done|]. counters. }
  split; [done..| | | | |]; cbn; rewrite ?length_insert; try apply I'.
  - intros o [->|Ho']%elem_of_insert_inv; [done|by apply (ii_check _ I')].
  - intros HF. exfalso. destruct Hsig as [(j & Hj & ->)|[Hnone ->]]; cbn in HF.
    + by apply doze_insert in HF; [|eapply lookup_lt_Some].
    + apply Hnone. by eapply (doze_blocked s (Some r_signal)).
Qed.

Lemma waker_inv s s' : iinv s -> waker_step s s' -> iinv s'.
Proof. intros I []; eauto using iinv_other, iinv_other_signal. Qed.

Lemma istate_step_inv s s' : iinv s -> cstep s s' -> iinv s'.
Proof.
  intros I [i p m' p' Hp Hs E|i b s1 Hp Hsig|i Hp|i io Ho Hs|s1 W];
    eauto using iinv_vpu, iinv_woken, iinv_other_ready, waker_inv.
  destruct (signals_inv _ _ I Hsig) as (I' & _ & _ & _ & Hk).
  apply iinv_vpu_signalled; [done|]. by apply Hk.
Qed.

Lemma idle_start_inv n k q : (0 < n)%nat -> Z.of_nat n < 2 ^ 16 -> Z.of_nat n + Z.of_nat k < 2 ^ 31 ->
  0 <= q <= 2 ^ 31 -> iinv (idle_start n k q).
Proof.
  intros Hn Hn' Hk Hq. split; cbn [mgr vpus others idle_start alive idle total_ready queued locked];
    rewrite ?sumz_replicate, ?length_replicate; try lia; unfold b_alive, b_idle, b_ready, b_holds, bo_ready, bo_holds; cbn.
  - rewrite u16_small; lia.
  - rewrite u16_small; lia.
  - rewrite u32_small; lia.
  - lia.
  - intros HF. destruct n; [lia|]. inversion HF. done.
Qed.

Lemma reach_idle n k q s : (0 < n)%nat -> Z.of_nat n < 2 ^ 16 -> Z.of_nat n + Z.of_nat k < 2 ^ 31 ->
  0 <= q <= 2 ^ 31 -> rtc cstep (idle_start n k q) s -> iinv s.
Proof.
  intros ? ? ? ? R. assert (iinv (idle_start n k q)) as I by (by apply idle_start_inv). clear -I R.
  induction R as [|x y z St _ IH]; [done|]. apply IH. by eapply istate_step_inv.
Qed.

(** ** Waking *)

(** The steps of [vpu_ready] up to the signal, counted from the place. *)
Definition wake_rank (r : rpc) : nat :=
  match r with r_inc _ => 5 | r_iowait => 4 | r_lock => 3 | r_alive => 2 | r_signal => 1 | _ => 0 end.

Lemma pending_wakes : forall k s j r, iinv s -> Forall (fun p => p = v_blocked) (vpus s) ->
  others s !! j = Some (Some r) -> pending (Some r) -> (locked (mgr s) = false \/ rholds r) ->
  (wake_rank r <= k)%nat ->
  exists n s', (n <= k)%nat /\ nsteps waker_step n s s' /\ v_woken ∈ vpus s'.
Proof.
  induction k as [|k IH]; intros s j r I HF Hj Hp Hl Hk; [by destruct r; cbn in *; try lia|].
  assert (alive (mgr s) = 0) as Ha.
  { apply doze_alive; [by apply iinv_cinv|]. eapply Forall_impl; [done|]. by intros ? ->. }
  destruct (decide (r = r_signal)) as [->|Hne].
  - pose proof (ii_vpus _ I). destruct (vpus s) as [|p l] eqn:El; [cbn in *; lia|].
    rewrite Forall_cons in HF. destruct HF as [-> _].
    eexists 1%nat, _. split; [lia|]. split.
    + eapply nsteps_once, (ws_signal s j (set_vpu 0 (mgr s) v_woken s)); [done|].
      left. exists 0%nat. by rewrite El.
    + cbn. rewrite El. left.
  - assert (exists m' r', ready_next (xt_index s) (mgr s) r = Some (m', Some r') /\ pending (Some r') /\
      (wake_rank r' < wake_rank r)%nat /\ (locked m' = false \/ rholds r')) as (m' & r' & E & Hp' & Hr & Hl').
    { destruct r as [io| | | | | | |]; try done; cbn.
      - destruct Hl; [|done]. destruct io; eexists _, _; (split; [done|]); cbn; (split_and!; [done|lia|by left]).
      - destruct Hl; [|done]. eexists _, _; (split; [done|]); cbn; (split_and!; [done|lia|by left]).
      - destruct Hl as [Hl|]; [|done]. rewrite Hl. eexists _, _; (split; [done|]); cbn; (split_and!; [done|lia|by right]).
      - rewrite Ha. eexists _, _; (split; [done|]); cbn; (split_and!; [done|lia|by right]). }
    destruct (IH (set_other j m' (Some r') s) j r') as (n & s' & Hn & R & Hw).
    + by eapply iinv_other.
    + done.
    + cbn. apply list_lookup_insert_eq. by eapply lookup_lt_Some.
    + done.
    + done.
    + lia.
    + exists (S n), s'. split_and!; [lia| |done]. eapply nsteps_l; [|done]. by eapply ws_next.
Qed.

(** A thread that has the mutex while all VPUs are blocked. *)
Lemma blocked_holder s : iinv s -> Forall (fun p => p = v_blocked) (vpus s) -> locked (mgr s) = true ->
  exists j r, others s !! j = Some (Some r) /\ rholds r /\ (pending (Some r) \/ r = r_unlock).
Proof.
  intros I HF Hl. pose proof (ii_mutex _ I) as Hm. rewrite Hl in Hm. cbn in Hm.
  assert (sumz b_holds (vpus s) = 0) as Hz.
  { clear -HF. induction HF as [|p l -> _ IH]; cbn; [done|]. by rewrite IH. }
  destruct (sumz_exists bo_holds (others s) bo_holds_pos) as (o & Ho & Hh); [lia|].
  destruct o as [r|]; [|by cbn in Hh].
  assert (found_alive (Some r) = false) as Hf.
  { destruct (found_alive (Some r)) eqn:E; [|done]. exfalso. apply (ii_check _ I (Some r)); [done|by rewrite E|].
    apply doze_alive; [by apply iinv_cinv|]. eapply Forall_impl; [done|]. by intros ? ->. }
  apply list_elem_of_lookup in Ho as [j Hj]. exists j, r.
  destruct r; cbn in *; try lia; try done; split_and!; auto.
Qed.

Lemma blocked_wakes s : iinv s -> Forall (fun p => p = v_blocked) (vpus s) -> 0 < queued (mgr s) ->
  exists n s', (n <= 6)%nat /\ nsteps waker_step n s s' /\ v_woken ∈ vpus s'.
Proof.
  intros I HF Hq.
  assert (Forall (fun p => doze p) (vpus s)) as Hd by (eapply Forall_impl; [done|]; by intros ? ->).
  destruct (ii_doze _ I Hd) as [?|(o & [j Hj]%list_elem_of_lookup & Hp)]; [lia|].
  destruct o as [r|]; [|done].
  assert (wake_rank r <= 5)%nat by (destruct r; cbn; lia).
  destruct (locked (mgr s)) eqn:El.
  - destruct (blocked_holder s I HF El) as (k & r2 & Hk & Hh & [Hp2| ->]).
    + destruct (pending_wakes 5 s k r2) as (n & s' & ? & ? & ?); try done; [by right|destruct r2; cbn; lia|].
      exists n, s'. split; [lia|done].
    + set (s1 := set_other k (set_locked false (mgr s)) None s).
      assert (k <> j) by (intros ->; by simplify_eq).
      assert (waker_step s s1) as St by (eapply ws_next; [done|reflexivity]).
      destruct (pending_wakes 5 s1 j r) as (n & s' & ? & ? & ?); try done.
      * by eapply waker_inv.
      * cbn. by rewrite list_lookup_insert_ne.
      * by left.
      * exists (S n), s'. split_and!; [lia| |done]. by eapply nsteps_l.
  - destruct (pending_wakes 5 s j r) as (n & s' & ? & ? & ?); try done; [by left|].
    exists n, s'. split; [lia|done].
Qed.

(** ** Properties *)

Lemma sumz_count {A} (f : A -> bool) l : sumz (fun x => Z.b2z (f x)) l = Z.of_nat (count_if f l).
Proof. induction l as [|x l IH]; cbn; [done|]. rewrite IH. destruct (f x); cbn; lia. Qed.

Lemma count_u16 (f : vpc -> bool) s : iinv s ->
  u16 (sumz (fun p => Z.b2z (f p)) (vpus s)) = Z.of_nat (count_if f (vpus s)).
Proof.
  intros I. rewrite sumz_count. apply u16_small. pose proof (count_if_le f (vpus s)). pose proof (ii_vpus _ I). lia.
Qed.



(** ** A run with one VPU

    It takes the only task, which starts an asynchronous call and suspends;
    the VPU goes to sleep, and a thread of the pool makes the task ready again. *)

Local Tactic Notation "ivpu" uconstr(c) :=
  eapply rtc_l; [eapply (cs_vpu _ 0%nat); [vm_compute; reflexivity|vm_compute; reflexivity|eapply c; vm_compute; reflexivity]|];
  vm_compute.

Definition io_asleep : istate := mk_istate (mk_imgr 0 0 0 1 0 false) [v_blocked] [None].
Definition io_ready : istate := mk_istate (mk_imgr 0 0 0 1 1 false) [v_blocked] [Some (r_inc true)].

Lemma io_asleep_reachable : rtc cstep (idle_start 1 1 1) io_asleep.
Proof.
  ivpu iv_enter. ivpu iv_take. ivpu iv_took. ivpu iv_took_total. ivpu iv_wait. ivpu iv_wait_inc.
  ivpu iv_enter. ivpu iv_none. ivpu iv_none. ivpu iv_lock. ivpu iv_dec. ivpu iv_ready0. ivpu iv_iowait.
  ivpu iv_idle_dec. ivpu iv_cond. apply rtc_refl.
Qed.


