(* ===== verification/RefCnt.v ===== *)
(** * Reference counts (include/inter/refcnt.h, the macros of include/libcoroc.h
      that count references)

    A program of the language CoroC keeps references in variables; the compiler
    turns their uses into these operations.  An object alive is its count;
    releasing it removes it, so that any later use is the fault [Dangling].
    References also travel inside channels: [rchan] are those on their way, and
    an operation on a channel is given by its result, since which of them it has
    is a matter of Channel.v.

    The release handler is the one of [__CoroC_New_Basic], [free]. *)

From S2P Require Import Prelude.

(** Results of channel operations (include/inter/channel.h). *)
Definition CHAN_SUCCESS : Z := 0.
Definition CHAN_BUSY : Z := 2.
Definition CHAN_CLOSED : Z := 4.

(** Objects by address with their counts, the variables (NULL is [None]), and
    the references inside channels. *)
Record rworld := mk_rworld {
  robjs : gmap nat Z;
  rvars : list (option nat);
  rchan : list nat
}.
Definition set_robjs v w := mk_rworld v (rvars w) (rchan w).
Definition set_rvars v w := mk_rworld (robjs w) v (rchan w).
Definition set_rchan v w := mk_rworld (robjs w) (rvars w) v.

Definition get_count (o : nat) : ST rworld Z :=
  fun w => match robjs w !! o with Some c => Ok (c, w) | None => Err Dangling end.
Definition set_count (o : nat) (c : Z) : ST rworld unit :=
  modify (fun w => set_robjs (<[o := c]> (robjs w)) w).
Definition get_var (x : nat) : ST rworld (option nat) :=
  fun w => match rvars w !! x with Some v => Ok (v, w) | None => Err OutOfBounds end.
Definition set_var (x : nat) (v : option nat) : ST rworld unit :=
  modify (fun w => set_rvars (<[x := v]> (rvars w)) w).

(** ** include/inter/refcnt.h *)

Definition coroc_refcnt_init (o : nat) : ST rworld unit := set_count o 1.

Definition __coroc_refcnt_get (ref : option nat) : ST rworld (option nat) :=
  let! o := demand NullDeref ref in
  let! c := get_count o in
  do! set_count o (u32 (c + 1)) in
  ret ref.

Definition __coroc_refcnt_put (ref : option nat) : ST rworld bool :=
  match ref with
  | None => ret false
  | Some o =>
      let! c := get_count o in
      let c := u32 (c - 1) in
      do! set_count o c in
      if c =? 0 then do! modify (fun w => set_robjs (delete o (robjs w)) w) in ret true
      else ret false
  end.

Definition __coroc_refcnt_assign (to : nat) (from : option nat) : ST rworld (option nat) :=
  let! old := get_var to in
  do! __coroc_refcnt_put old in
  let! v := match from with None => ret None | Some _ => __coroc_refcnt_get from end in
  do! set_var to v in
  ret v.

Definition __coroc_refcnt_assign_expr (to : nat) (from : option nat) : ST rworld (option nat) :=
  let! old := get_var to in
  do! __coroc_refcnt_put old in
  do! set_var to from in
  ret from.

(** ** include/libcoroc.h *)

(** [__CoroC_New_Basic]: zeroed memory at the address [o], and a reference. *)
Definition __CoroC_New_Basic (o : nat) : ST rworld (option nat) :=
  do! set_count o 0 in
  __coroc_refcnt_get (Some o).

(** [__refcnt_put_array] *)
Fixpoint __refcnt_put_array (xs : list nat) : ST rworld unit :=
  match xs with
  | [] => ret tt
  | x :: xs =>
      let! v := get_var x in
      do! __coroc_refcnt_put v in
      __refcnt_put_array xs
  end.

(** [__CoroC_Chan_SendRef] (blocking) and [__CoroC_Chan_SendRef_NB] of the
    variable [x], when the send returns [rc]; on success the channel has it. *)
Definition chan_ok (block : bool) (rc : Z) : bool :=
  if block then negb (rc =? CHAN_CLOSED) else rc =? CHAN_SUCCESS.
Definition __CoroC_Chan_SendRef (block : bool) (x : nat) (rc : Z) : ST rworld bool :=
  let! v := get_var x in
  do! __coroc_refcnt_get v in
  if chan_ok block rc then
    let! o := demand NullDeref v in
    do! modify (fun w => set_rchan (rchan w ++ [o]) w) in ret true
  else
    do! __coroc_refcnt_put v in ret false.

(** [__CoroC_Chan_RecvRef] and [__CoroC_Chan_RecvRef_NB] into the variable [x],
    when the receive returns [rc]; on success it stores the [i]-th reference of
    the channels into the variable. *)
Definition __CoroC_Chan_RecvRef (block : bool) (x : nat) (rc : Z) (i : nat) : ST rworld bool :=
  let! v := get_var x in
  do! __coroc_refcnt_put v in
  if chan_ok block rc then
    let! w := get in
    let! o := demand OutOfBounds (rchan w !! i) in
    do! set_var x (Some o) in
    do! modify (set_rchan (delete i (rchan w))) in
    ret true
  else ret false.

(** [__CoroC_Select_SendRef] and [__CoroC_Select_RecvRef] add a case to a
    select: the count is changed when the case is added, whichever case the select
    then takes. *)
Definition __CoroC_Select_SendRef (x : nat) : ST rworld unit :=
  let! v := get_var x in
  do! __coroc_refcnt_get v in ret tt.
Definition __CoroC_Select_RecvRef (x : nat) : ST rworld unit :=
  let! v := get_var x in
  do! __coroc_refcnt_put v in ret tt.

(** ** Programs *)

Inductive revent : Type :=
| R_declare                          (* a new variable, NULL *)
| R_new (x o : nat)                  (* x = new object *)
| R_assign (x y : nat)               (* x = y *)
| R_null (x : nat)                   (* x = NULL *)
| R_send (block : bool) (x : nat) (rc : Z)
| R_recv (block : bool) (x : nat) (rc : Z) (i : nat)
| R_scope (xs : list nat).           (* the variables go out of scope *)

Definition rexec (e : revent) : ST rworld unit :=
  match e with
  | R_declare => modify (fun w => set_rvars (rvars w ++ [None]) w)
  | R_new x o => let! v := __CoroC_New_Basic o in
                 do! __coroc_refcnt_assign_expr x v in ret tt
  | R_assign x y => let! v := get_var y in
                    do! __coroc_refcnt_assign x v in ret tt
  | R_null x => do! __coroc_refcnt_assign x None in ret tt
  | R_send block x rc => do! __CoroC_Chan_SendRef block x rc in ret tt
  | R_recv block x rc i => do! __CoroC_Chan_RecvRef block x rc i in ret tt
  | R_scope xs => do! __refcnt_put_array xs in
                  modify (fun w => set_rvars (foldl (fun l x => <[x := None]> l) (rvars w) xs) w)
  end.

(** ** Ownership: the count is the number of references *)

Definition points (o : nat) (v : option nat) : Z := Z.b2z (bool_decide (v = Some o)).
Definition carries (o : nat) (p : nat) : Z := Z.b2z (bool_decide (p = o)).
Definition rcount (l : list (option nat)) (ch : list nat) (o : nat) : Z :=
  sumz (points o) l + sumz (carries o) ch.

(** An object is alive exactly while [f] counts references to it, and its count
    is their number. *)
Definition counts (f : nat -> Z) (w : rworld) : Prop :=
  forall o, robjs w !! o = if f o =? 0 then None else Some (f o).
Definition bump (f : nat -> Z) (o : nat) (d : Z) : nat -> Z :=
  fun p => f p + (if bool_decide (p = o) then d else 0).

(** The references of the program are the variables and what is in channels. *)
Definition owned (w : rworld) : Prop := counts (rcount (rvars w) (rchan w)) w.

Definition fits (w : rworld) : Prop :=
  Z.of_nat (length (rvars w)) + Z.of_nat (length (rchan w)) < 2 ^ 32 - 1.

(** What a program does: it does not assign the only reference of an object to
    itself, sends a reference that is not NULL, and receives successfully. *)
Definition rallowed (e : revent) (w : rworld) : Prop :=
  fits w /\
  match e with
  | R_declare => True
  | R_new x o => (x < length (rvars w))%nat /\ robjs w !! o = None
  | R_assign x y => (x < length (rvars w))%nat /\
      exists v, rvars w !! y = Some v /\
        (x = y -> forall o, v = Some o -> robjs w !! o <> Some 1)
  | R_null x => (x < length (rvars w))%nat
  | R_send block x rc => exists o, rvars w !! x = Some (Some o)
  | R_recv block x rc i => (x < length (rvars w))%nat /\ chan_ok block rc = true /\ (i < length (rchan w))%nat
  | R_scope xs => NoDup xs /\ Forall (fun x => (x < length (rvars w))%nat) xs
  end.

Inductive rreach : rworld -> Prop :=
| rreach_start : rreach (mk_rworld ∅ [] [])
| rreach_step w e w' : rreach w -> rallowed e w -> rexec e w = Ok (tt, w') -> rreach w'.

(** ** Lemmas *)

Lemma points_range o v : 0 <= points o v <= 1.
Proof. unfold points. destruct (bool_decide _); cbn; lia. Qed.
Lemma carries_range o v : 0 <= carries o v <= 1.
Proof. unfold carries. destruct (bool_decide _); cbn; lia. Qed.

Lemma points_null o : points o None = 0.
Proof. done. Qed.
Lemma points_same o : points o (Some o) = 1.
Proof. unfold points. by rewrite bool_decide_eq_true_2. Qed.
Lemma points_other o p : p <> o -> points p (Some o) = 0.
Proof. intros. unfold points. by rewrite bool_decide_eq_false_2 by congruence. Qed.
Lemma carries_same o : carries o o = 1.
Proof. unfold carries. by rewrite bool_decide_eq_true_2. Qed.
Lemma carries_other o p : p <> o -> carries p o = 0.
Proof. intros. unfold carries. by rewrite bool_decide_eq_false_2 by congruence. Qed.
Lemma bump_same f o d : bump f o d o = f o + d.
Proof. unfold bump. by rewrite bool_decide_eq_true_2. Qed.
Lemma bump_other f o d p : p <> o -> bump f o d p = f p.
Proof. intros. unfold bump. rewrite bool_decide_eq_false_2 by done. lia. Qed.

(** The weights of [p] against an object [o]. *)
Ltac weigh p o :=
  destruct (decide (p = o)) as [->|];
  [rewrite ?bump_same, ?points_same, ?carries_same, ?points_null; try lia
  |rewrite ?bump_other, ?points_other, ?carries_other, ?points_null by done; try lia].

Lemma rcount_range l ch o : 0 <= rcount l ch o <= Z.of_nat (length l) + Z.of_nat (length ch).
Proof.
  unfold rcount. pose proof (sumz_bounds (points o) l 0 1 (points_range o)).
  pose proof (sumz_bounds (carries o) ch 0 1 (carries_range o)). lia.
Qed.

Lemma rcount_set l ch x v u o : l !! x = Some v ->
  rcount (<[x := u]> l) ch o = rcount l ch o - points o v + points o u.
Proof. intros Hx. unfold rcount. rewrite (sumz_insert _ _ _ _ _ Hx). lia. Qed.

Lemma rcount_var l ch x o : l !! x = Some (Some o) -> 0 < rcount l ch o.
Proof.
  intros Hx. unfold rcount. pose proof (sumz_bounds (carries o) ch 0 1 (carries_range o)).
  pose proof (sumz_pos (points o) l (Some o) (fun v => proj1 (points_range o v)) (list_elem_of_lookup_2 _ _ _ Hx)) as Hp.
  unfold points in Hp at 1. rewrite bool_decide_eq_true_2 in Hp by done. cbn in Hp. lia.
Qed.

Lemma counts_ext f g w : (forall o, f o = g o) -> counts f w -> counts g w.
Proof. intros E C o. rewrite (C o). by rewrite E. Qed.

Lemma counts_alive f w o : counts f w -> f o <> 0 -> robjs w !! o = Some (f o).
Proof. intros C Hf. rewrite (C o). by destruct (Z.eqb_spec (f o) 0). Qed.

Lemma get_spec f w o : counts f w -> 0 < f o < 2 ^ 32 - 1 ->
  exists w', __coroc_refcnt_get (Some o) w = Ok (Some o, w') /\ counts (bump f o 1) w' /\
    rvars w' = rvars w /\ rchan w' = rchan w.
Proof.
  intros C Hf. unfold __coroc_refcnt_get, get_count, set_count. run_st.
  rewrite (counts_alive f w o C) by lia. eexists. split; [done|]. split_and!; [|done..].
  intros p. cbn. destruct (decide (p = o)) as [->|Hne].
  - rewrite lookup_insert_eq, bump_same, u32_small by lia.
    destruct (Z.eqb_spec (f o + 1) 0); [lia|done].
  - rewrite lookup_insert_ne, bump_other by done. apply C.
Qed.

Lemma put_spec f w o : counts f w -> 0 < f o < 2 ^ 32 ->
  exists w', __coroc_refcnt_put (Some o) w = Ok (f o =? 1, w') /\ counts (bump f o (-1)) w' /\
    rvars w' = rvars w /\ rchan w' = rchan w.
Proof.
  intros C Hf. unfold __coroc_refcnt_put, get_count, set_count. run_st.
  rewrite (counts_alive f w o C) by lia. rewrite u32_small by lia.
  destruct (Z.eqb_spec (f o - 1) 0) as [E|E]; (destruct (Z.eqb_spec (f o) 1); [|]); try lia;
    eexists; (split; [done|]); (split_and!; [|done..]); intros p; cbn;
    (destruct (decide (p = o)) as [->|Hne]; [rewrite bump_same|rewrite bump_other by done]).
  - rewrite lookup_delete_eq. by destruct (Z.eqb_spec (f o + -1) 0); [|lia].
  - rewrite lookup_delete_ne, lookup_insert_ne by done. apply C.
  - rewrite lookup_insert_eq. by destruct (Z.eqb_spec (f o + -1) 0); [lia|].
  - rewrite lookup_insert_ne by done. apply C.
Qed.

(** Giving up the reference of a variable. *)
Lemma put_var l ch w x v : counts (rcount l ch) w -> l !! x = Some v ->
  Z.of_nat (length l) + Z.of_nat (length ch) < 2 ^ 32 ->
  exists b w', __coroc_refcnt_put v w = Ok (b, w') /\ counts (rcount (<[x := None]> l) ch) w' /\
    rvars w' = rvars w /\ rchan w' = rchan w.
Proof.
  intros C Hx Hl. destruct v as [o|].
  - pose proof (rcount_var l ch x o Hx). pose proof (rcount_range l ch o).
    destruct (put_spec _ w o C ltac:(lia)) as (w' & E & C' & Hv & Hc). exists (rcount l ch o =? 1), w'.
    split_and!; [done| |done..]. eapply counts_ext, C'. intros p. rewrite (rcount_set _ _ _ _ _ _ Hx). weigh p o.
  - exists false, w. split_and!; [done| |done..]. by rewrite list_insert_id.
Qed.

(** A new reference in a variable that had none. *)
Lemma get_var_spec l ch w x o : counts (rcount l ch) w -> l !! x = Some None -> 0 < rcount l ch o ->
  Z.of_nat (length l) + Z.of_nat (length ch) < 2 ^ 32 - 1 ->
  exists w', __coroc_refcnt_get (Some o) w = Ok (Some o, w') /\ counts (rcount (<[x := Some o]> l) ch) w' /\
    rvars w' = rvars w /\ rchan w' = rchan w.
Proof.
  intros C Hx Ho Hl. pose proof (rcount_range l ch o).
  destruct (get_spec _ w o C ltac:(lia)) as (w' & E & C' & Hv & Hc). exists w'. split_and!; [done| |done..].
  eapply counts_ext, C'. intros p. rewrite (rcount_set _ _ _ _ _ _ Hx). weigh p o.
Qed.

Lemma put_array_spec xs : forall l w, NoDup xs ->
  counts (rcount l (rchan w)) w -> (forall x, x ∈ xs -> exists v, rvars w !! x = Some v /\ l !! x = Some v) ->
  Z.of_nat (length l) + Z.of_nat (length (rchan w)) < 2 ^ 32 ->
  exists w', __refcnt_put_array xs w = Ok (tt, w') /\ rvars w' = rvars w /\ rchan w' = rchan w /\
    counts (rcount (foldl (fun l x => <[x := None]> l) l xs) (rchan w)) w'.
Proof.
  induction xs as [|x xs IH]; intros l w Hnd C Hx Hl; [by exists w|].
  apply NoDup_cons in Hnd as [Hnot Hnd]. destruct (Hx x ltac:(left)) as (v & Hv & Hlv).
  destruct (put_var l (rchan w) w x v C Hlv Hl) as (b & w1 & E & C1 & Hv1 & Hc1).
  destruct (IH (<[x := None]> l) w1 Hnd) as (w' & E' & Hv' & Hc' & C').
  - by rewrite Hc1.
  - intros y Hy. rewrite Hv1, list_lookup_insert_ne by (by intros ->). apply Hx. by right.
  - by rewrite length_insert, Hc1.
  - exists w'. split_and!; [|congruence|congruence|by rewrite <- Hc1]. cbn [__refcnt_put_array].
    unfold get_var. erewrite bind_ok by (rewrite Hv; reflexivity). by erewrite bind_ok by exact E.
Qed.

Lemma assign_ok w x y v : owned w -> fits w -> (x < length (rvars w))%nat -> rvars w !! y = Some v ->
  (x = y -> forall o, v = Some o -> robjs w !! o <> Some 1) ->
  exists w', __coroc_refcnt_assign x v w = Ok (v, w') /\ owned w'.
Proof.
  intros C Hf [old Hx]%lookup_lt_is_Some_2 Hy Hself. unfold fits in Hf.
  destruct (put_var _ _ w x old C Hx ltac:(lia)) as (b & w1 & E1 & C1 & Hv1 & Hc1).
  unfold __coroc_refcnt_assign, get_var. erewrite bind_ok by (rewrite Hx; reflexivity).
  erewrite bind_ok by exact E1.
  assert (<[x := None]> (rvars w) !! x = Some None) as Hxn by (apply list_lookup_insert_eq; by eapply lookup_lt_Some).
  destruct v as [o|].
  - destruct (get_var_spec _ _ w1 x o C1 Hxn) as (w2 & E2 & C2 & Hv2 & Hc2).
    { rewrite (rcount_set _ _ _ _ _ _ Hx). pose proof (rcount_range (rvars w) (rchan w) o).
      destruct (decide (x = y)) as [->|Hne].
      - simplify_eq. rewrite points_same, points_null. pose proof (rcount_var _ (rchan w) _ _ Hx).
        specialize (Hself eq_refl o eq_refl). rewrite (counts_alive _ _ _ C) in Hself by lia.
        destruct (decide (rcount (rvars w) (rchan w) o = 1)); [congruence|lia].
      - pose proof (rcount_var (<[x := None]> (rvars w)) (rchan w) y o) as Hp.
        rewrite list_lookup_insert_ne in Hp by done. specialize (Hp Hy).
        rewrite (rcount_set _ _ _ _ _ _ Hx) in Hp. done. }
    { rewrite length_insert. lia. }
    erewrite bind_ok by exact E2. unfold set_var. run_st. eexists. split; [done|].
    unfold owned. cbn. rewrite Hv2, Hc2, Hv1, Hc1. by rewrite list_insert_insert_eq in C2.
  - unfold set_var. run_st. eexists. split; [done|]. unfold owned. cbn. by rewrite Hv1, Hc1.
Qed.

Lemma new_ok w x o : owned w -> fits w -> (x < length (rvars w))%nat -> robjs w !! o = None ->
  exists w', rexec (R_new x o) w = Ok (tt, w') /\ owned w'.
Proof.
  intros C Hf [old Hx]%lookup_lt_is_Some_2 Ho. unfold fits in Hf.
  set (f := rcount (rvars w) (rchan w)) in *.
  assert (f o = 0) as Hz.
  { destruct (decide (f o = 0)); [done|]. by rewrite (counts_alive _ _ _ C) in Ho. }
  set (w1 := set_robjs (<[o := 1]> (robjs w)) w).
  assert (__CoroC_New_Basic o w = Ok (Some o, w1)) as E1.
  { unfold __CoroC_New_Basic, __coroc_refcnt_get, get_count, set_count. run_st.
    rewrite lookup_insert_eq. cbn. by rewrite insert_insert_eq. }
  assert (counts (bump f o 1) w1) as C1.
  { intros p. cbn. destruct (decide (p = o)) as [->|Hne].
    - rewrite lookup_insert_eq, bump_same, Hz. done.
    - rewrite lookup_insert_ne, bump_other by done. apply C. }
  cbn [rexec]. erewrite bind_ok by exact E1. unfold __coroc_refcnt_assign_expr, get_var.
  assert (exists w2 b, __coroc_refcnt_put old w1 = Ok (b, w2) /\
    counts (rcount (<[x := Some o]> (rvars w)) (rchan w)) w2 /\ rvars w2 = rvars w /\ rchan w2 = rchan w)
    as (w2 & b & E2 & C2 & Hv2 & Hc2).
  { destruct old as [p|].
    - pose proof (rcount_var _ (rchan w) _ _ Hx) as Hp. fold f in Hp. assert (p <> o) by (intros ->; lia).
      pose proof (rcount_range (rvars w) (rchan w) p) as Hr. fold f in Hr.
      destruct (put_spec _ w1 p C1) as (w2 & E & C2 & ? & ?); [rewrite bump_other by done; lia|].
      eexists w2, _. split_and!; [done| |done..]. eapply counts_ext, C2. intros q.
      rewrite (rcount_set _ _ _ _ _ _ Hx). fold f. destruct (decide (q = p)) as [->|].
      + rewrite bump_same, bump_other, points_same, points_other by done. lia.
      + rewrite bump_other, (points_other p q) by done. weigh q o.
    - exists w1, false. split_and!; [done| |done..]. eapply counts_ext, C1. intros q.
      rewrite (rcount_set _ _ _ _ _ _ Hx). fold f. weigh q o. }
  erewrite bind_ok.
  2: { erewrite bind_ok by (cbn; rewrite Hx; reflexivity). erewrite bind_ok by exact E2. unfold set_var. run_st. reflexivity. }
  eexists. split; [done|]. unfold owned. cbn. by rewrite Hv2, Hc2.
Qed.

Lemma send_ref_ok w block x rc o : owned w -> fits w -> rvars w !! x = Some (Some o) ->
  exists w', __CoroC_Chan_SendRef block x rc w = Ok (chan_ok block rc, w') /\ owned w' /\
    rvars w' = rvars w /\ rchan w' = rchan w ++ (if chan_ok block rc then [o] else []).
Proof.
  intros C Hf Hx. unfold fits in Hf. pose proof (rcount_var _ (rchan w) _ _ Hx).
  pose proof (rcount_range (rvars w) (rchan w) o).
  destruct (get_spec _ w o C ltac:(lia)) as (w1 & E1 & C1 & Hv1 & Hc1).
  unfold __CoroC_Chan_SendRef, get_var. erewrite bind_ok by (rewrite Hx; reflexivity).
  erewrite bind_ok by exact E1. destruct (chan_ok block rc).
  - run_st. eexists. split; [done|]. cbn. rewrite Hv1, Hc1. split_and!; [|done..]. unfold owned. cbn.
    rewrite Hv1. eapply counts_ext, C1. intros p.
    assert (rcount (rvars w) (rchan w ++ [o]) p = rcount (rvars w) (rchan w) p + carries p o) as ->
      by (unfold rcount; rewrite sumz_app; cbn; lia). weigh p o.
  - destruct (put_spec _ w1 o C1) as (w2 & E2 & C2 & Hv2 & Hc2); [rewrite bump_same; lia|].
    erewrite bind_ok by exact E2. exists w2. rewrite app_nil_r. split; [done|]. split_and!; [|congruence..].
    unfold owned. rewrite Hv2, Hc2, Hv1, Hc1. eapply counts_ext, C2. intros p. weigh p o.
Qed.

Lemma recv_ref_ok w block x rc i : owned w -> fits w -> (x < length (rvars w))%nat ->
  chan_ok block rc = true -> (i < length (rchan w))%nat ->
  exists o w', __CoroC_Chan_RecvRef block x rc i w = Ok (true, w') /\ owned w' /\
    rchan w !! i = Some o /\ rvars w' = <[x := Some o]> (rvars w) /\ rchan w' = delete i (rchan w).
Proof.
  intros C Hf [old Hx]%lookup_lt_is_Some_2 Hok [o Hi]%lookup_lt_is_Some_2. unfold fits in Hf.
  destruct (put_var _ _ w x old C Hx ltac:(lia)) as (b & w1 & E1 & C1 & Hv1 & Hc1).
  unfold __CoroC_Chan_RecvRef, get_var, set_var. erewrite bind_ok by (rewrite Hx; reflexivity).
  erewrite bind_ok by exact E1. rewrite Hok. run_st. rewrite Hc1, Hi. cbn.
  eexists o, _. split; [done|]. cbn. rewrite Hv1. split_and!; try done.
  unfold owned. cbn. eapply counts_ext, C1. intros p.
  unfold rcount. rewrite (sumz_delete _ _ _ _ Hi), !(sumz_insert _ _ _ _ _ Hx). weigh p o.
Qed.

Lemma revent_ok e w : owned w -> rallowed e w -> exists w', rexec e w = Ok (tt, w') /\ owned w'.
Proof.
  intros C [Hf Hal]. destruct e as [|x o|x y|x|block x rc|block x rc i|xs]; cbn [rallowed] in Hal.
  - eexists. split; [done|]. eapply counts_ext, C. intros o. cbn. unfold rcount. rewrite sumz_app. cbn [sumz]. rewrite points_null. lia.
  - destruct Hal. by apply new_ok.
  - destruct Hal as (Hx & v & Hy & Hself). destruct (assign_ok w x y v) as (w' & E & C'); try done.
    exists w'. split; [|done]. cbn [rexec]. unfold get_var. erewrite bind_ok by (rewrite Hy; reflexivity).
    by erewrite bind_ok by exact E.
  - destruct (put_var (rvars w) (rchan w) w x (default None (rvars w !! x))) as (b & w1 & E & C1 & Hv & Hc).
    + done.
    + destruct (lookup_lt_is_Some_2 _ _ Hal) as [v Hv]. by rewrite Hv.
    + unfold fits in Hf. lia.
    + destruct (lookup_lt_is_Some_2 _ _ Hal) as [v Hx]. rewrite Hx in E. cbn [default from_option id] in E.
      cbn [rexec]. unfold __coroc_refcnt_assign, get_var, set_var.
      erewrite bind_ok.
      2: { erewrite bind_ok by (rewrite Hx; reflexivity). erewrite bind_ok by exact E. run_st. reflexivity. }
      eexists. split; [done|]. unfold owned. cbn. by rewrite Hv, Hc.
  - destruct Hal as [o Hx]. destruct (send_ref_ok w block x rc o) as (w' & E & C' & _); try done.
    exists w'. split; [|done]. cbn [rexec]. by erewrite bind_ok by exact E.
  - destruct Hal as (Hx & Hok & Hi). destruct (recv_ref_ok w block x rc i) as (o & w' & E & C' & _); try done.
    exists w'. split; [|done]. cbn [rexec]. by erewrite bind_ok by exact E.
  - destruct Hal as [Hnd Hlt]. destruct (put_array_spec xs (rvars w) w) as (w' & E & Hv & Hc & C'); try done.
    + intros x Hx. rewrite Forall_forall in Hlt. destruct (lookup_lt_is_Some_2 _ _ (Hlt x Hx)) as [v Hv]. by exists v.
    + unfold fits in Hf. lia.
    + cbn [rexec]. erewrite bind_ok by exact E. eexists. split; [done|]. unfold owned. cbn. by rewrite Hv, Hc.
Qed.

Lemma rreach_owned w : rreach w -> owned w.
Proof.
  induction 1 as [|w e w' R IH Hal E].
  - intros o. cbn. by rewrite lookup_empty.
  - destruct (revent_ok e w IH Hal) as (w2 & E2 & C). rewrite E in E2. by simplify_eq.
Qed.

(** ** Properties *)


(** The two uses that break the counts: assigning the only reference of an
    object to itself releases the object and then counts it up; and a receive
    into a variable that fails (the channel is closed, or a non-blocking one finds
    nothing) drops the variable's reference but leaves the variable, so that its
    end of scope gives up the reference a second time. *)
Theorem references_misused w x o : rreach w -> rvars w !! x = Some (Some o) -> robjs w !! o = Some 1 ->
  rexec (R_assign x x) w = Err Dangling /\
  forall block rc i, chan_ok block rc = false ->
    exists w', rexec (R_recv block x rc i) w = Ok (tt, w') /\ rvars w' = rvars w /\
      rexec (R_scope [x]) w' = Err Dangling.
Proof.
  intros R Hx Ho. assert (__coroc_refcnt_put (Some o) w = Ok (true, set_robjs (delete o (robjs w)) w)) as E.
  { unfold __coroc_refcnt_put, get_count, set_count. run_st. rewrite Ho. replace (u32 (1 - 1)) with 0 by done. cbn. by rewrite delete_insert_eq. }
  split.
  - cbn [rexec]. unfold get_var. erewrite bind_ok by (rewrite Hx; reflexivity).
    apply bind_err. unfold __coroc_refcnt_assign, get_var. erewrite bind_ok by (rewrite Hx; reflexivity).
    erewrite bind_ok by exact E. apply bind_err. unfold __coroc_refcnt_get, get_count. run_st.
    by rewrite lookup_delete_eq.
  - intros block rc i Hrc. exists (set_robjs (delete o (robjs w)) w). split_and!; [|done|].
    + cbn [rexec]. erewrite bind_ok; [reflexivity|]. unfold __CoroC_Chan_RecvRef, get_var.
      erewrite bind_ok by (rewrite Hx; reflexivity). erewrite bind_ok by exact E. by rewrite Hrc.
    + cbn [rexec __refcnt_put_array]. apply bind_err. unfold get_var. erewrite bind_ok by (cbn; rewrite Hx; reflexivity).
      apply bind_err. unfold __coroc_refcnt_put, get_count. run_st. by rewrite lookup_delete_eq.
Qed.

(** Two variables; the first has a new object. *)
Definition one_ref : rworld := mk_rworld {[ 7%nat := 1 ]} [Some 7%nat; None] [].

Lemma one_ref_reachable : rreach one_ref.
Proof.
  apply (rreach_step (mk_rworld ∅ [None; None] []) (R_new 0 7)); [|split; [done|split; [cbn; lia|done]]|vm_compute; reflexivity].
  apply (rreach_step (mk_rworld ∅ [None] []) R_declare); [|done|reflexivity].
  apply (rreach_step (mk_rworld ∅ [] []) R_declare); [constructor|done|reflexivity].
Qed.


Lemma references_misused_witness : rexec (R_assign 0 0) one_ref = Err Dangling.
Proof. apply (references_misused one_ref 0 7 one_ref_reachable); reflexivity. Defined.

(** A select that takes another case: an object that was to be sent is never
    released, a variable that was to receive names an object that is gone. *)
Example select_leaks_reference :
  (do! __CoroC_Select_SendRef 0 in rexec (R_scope [0%nat])) one_ref
  = Ok (tt, mk_rworld {[ 7%nat := 1 ]} [None; None] []).
Proof. vm_compute. done. Qed.
Example select_drops_reference :
  (do! __CoroC_Select_RecvRef 0 in rexec (R_scope [0%nat])) one_ref = Err Dangling.
Proof. reflexivity. Qed.
