(* ===== verification/Darwin.v ===== *)
(** * What Darwin lacks: a clock, a spin lock and a barrier
      (include/inter/darwin/time_.h, pthread_spinlock.h, src/darwin/pthread_barrier.c)

    Any number of threads use one lock or one barrier; every access to the
    lock's word, every operation on the barrier's mutex and condition variable
    is a step, and the steps interleave freely.  The barrier's counter is only
    accessed with its mutex held, so an access and the operation that follows
    under the mutex are one step. *)

From S2P Require Import Prelude FutexLock Timer.

(** ** The clock (include/inter/darwin/time_.h)

    [rv] and the time are what gettimeofday gives; the timespec is stored when it succeeds. *)
Definition clock_gettime (rv tv_sec tv_usec : Z) : Z * option (Z * Z) :=
  if negb (rv =? 0) then (rv, None) else (0, Some (tv_sec, tv_usec * 1000)).

(** The two clocks of the runtime agree, until the nanoseconds since 1970 leave 63 bits. *)
Lemma clocks_agree sec usec ts :
  0 <= sec < 9223372036 -> 0 <= usec < 1000000 -> (clock_gettime 0 sec usec).2 = Some ts ->
  coroc_getnanotime ts.1 ts.2 = 1000 * coroc_getmicrotime sec usec.
Proof.
  intros Hs Hu [= <-]. unfold coroc_getnanotime, coroc_getmicrotime. cbn [fst snd].
  rewrite !(i64_small (sec * _)) by lia. rewrite !i64_small by lia. lia.
Qed.

(** ** The spin lock *)

Module Spin.

Inductive spc : Type :=
| s_out                 (* without the lock *)
| s_spin (i : Z)        (* [pthread_spin_lock], before the compare-and-swap *)
| s_yield               (* ... before [sched_yield] *)
| s_try                 (* [pthread_spin_trylock], before the compare-and-swap *)
| s_held                (* with the lock *)
| s_unlock.             (* [pthread_spin_unlock], before the store *)

Record sstate := mk_s { slock : Z; spcs : list spc }.

(** [pthread_spin_init] *)
Definition pthread_spin_init (n : nat) : sstate := mk_s 0 (replicate n s_out).

(** [pthread_spin_lock]: the new word and the new place. *)
Definition spin_lock_next (lock : Z) (p : spc) : option (Z * spc) :=
  match p with
  | s_spin i =>
      if lock =? 0 then Some (1, s_held)
      else Some (lock, if i + 1 <? 10000 then s_spin (i + 1) else s_yield)
  | s_yield => Some (lock, s_spin 0)
  | _ => None
  end.
(** [pthread_spin_trylock] *)
Definition spin_trylock_next (lock : Z) (p : spc) : option (Z * spc) :=
  match p with
  | s_try => if lock =? 0 then Some (1, s_held) else Some (lock, s_out)
  | _ => None
  end.
(** [pthread_spin_unlock] *)
Definition spin_unlock_next (lock : Z) (p : spc) : option (Z * spc) :=
  match p with
  | s_unlock => Some (0, s_out)
  | _ => None
  end.

Inductive snext (lock : Z) (p : spc) : Z -> spc -> Prop :=
| sn_lock l' p' : spin_lock_next lock p = Some (l', p') -> snext lock p l' p'
| sn_trylock l' p' : spin_trylock_next lock p = Some (l', p') -> snext lock p l' p'
| sn_unlock l' p' : spin_unlock_next lock p = Some (l', p') -> snext lock p l' p'
(* calls *)
| sn_call_lock : p = s_out -> snext lock p lock (s_spin 0)
| sn_call_try : p = s_out -> snext lock p lock s_try
| sn_call_unlock : p = s_held -> snext lock p lock s_unlock.

Inductive sstep (s : sstate) : sstate -> Prop :=
| sstep_at i p l' p' : spcs s !! i = Some p -> snext (slock s) p l' p' ->
    sstep s (mk_s l' (<[i := p']> (spcs s))).

Definition sholds (p : spc) : bool := match p with s_held | s_unlock => true | _ => false end.
Definition b_sholds (p : spc) : Z := Z.b2z (sholds p).
Definition sholder (s : sstate) : option nat := fst <$> list_find (fun p => Is_true (sholds p)) (spcs s).

(** The word counts the threads that have the lock. *)
Definition sinv (s : sstate) : Prop := slock s = sumz b_sholds (spcs s) /\ slock s <= 1.

Lemma b_sholds_pos p : 0 <= b_sholds p.
Proof. unfold b_sholds. destruct (sholds p); cbn; lia. Qed.

Lemma sholder_free s : sumz b_sholds (spcs s) = 0 -> sholder s = None.
Proof.
  intros Hs. unfold sholder. destruct (list_find _ _) as [[i p]|] eqn:E; [|done].
  apply list_find_Some in E as (Hi & Hp & _).
  pose proof (sumz_pos b_sholds _ _ b_sholds_pos (list_elem_of_lookup_2 _ _ _ Hi)) as Hle.
  unfold b_sholds in Hle at 1. destruct (sholds p); [cbn in Hle; lia|done].
Qed.

Lemma sholder_one s i p : sumz b_sholds (spcs s) = 1 -> spcs s !! i = Some p -> sholds p -> sholder s = Some i.
Proof.
  intros Hs Hi Hp. unfold sholder. destruct (list_find _ _) as [[j q]|] eqn:E.
  - cbn. f_equal. apply list_find_Some in E as (Hj & Hq & _).
    destruct (decide (j = i)) as [|Hne]; [done|]. exfalso.
    pose proof (sumz_two b_sholds _ _ _ _ _ b_sholds_pos Hj Hi Hne) as H1.
    unfold b_sholds in H1 at 1 2. destruct (sholds p), (sholds q); try done. cbn in H1. lia.
  - apply list_find_None in E. rewrite Forall_lookup in E. by destruct (E i p Hi).
Qed.

Lemma snext_word lock p l' p' : snext lock p l' p' -> 0 <= lock <= 1 -> (sholds p -> lock = 1) ->
  l' = lock - b_sholds p + b_sholds p' /\ l' <= 1.
Proof.
  intros E Hl Hh. unfold b_sholds.
  destruct E as [l' p' E|l' p' E|l' p' E| -> | -> | ->]; try (cbn; lia); destruct p; cbn in E; simplify_eq;
    try (specialize (Hh I)); repeat case_match; simplify_eq; cbn; lia.
Qed.

Lemma holder_word s i p : sinv s -> spcs s !! i = Some p -> sholds p -> slock s = 1.
Proof.
  intros [Hs Hle] Hi Hp. pose proof (sumz_pos b_sholds _ _ b_sholds_pos (list_elem_of_lookup_2 _ _ _ Hi)) as H1.
  unfold b_sholds in H1 at 1. destruct (sholds p); [cbn in H1; lia|done].
Qed.

Lemma sinv_word s : sinv s -> 0 <= slock s <= 1.
Proof. intros [Hs Hle]. pose proof (sumz_nonneg b_sholds (spcs s) b_sholds_pos). lia. Qed.

Lemma sstep_inv s s' : sinv s -> sstep s s' -> sinv s'.
Proof.
  intros I [i p l' p' Hi E].
  destruct (snext_word _ _ _ _ E (sinv_word _ I) (holder_word _ _ _ I Hi)) as [Hl Hle].
  destruct I as [Hs _]. split; cbn; [|done]. rewrite (sumz_insert _ _ _ _ _ Hi). lia.
Qed.

Lemma reach_spin n s : rtc sstep (pthread_spin_init n) s -> sinv s.
Proof.
  intros R. assert (sinv (pthread_spin_init n)) as I
    by (split; cbn; rewrite ?sumz_replicate; unfold b_sholds; cbn; lia).
  induction R; eauto using sstep_inv.
Qed.

Lemma spin_step_refines s s' : sinv s -> sstep s s' ->
  sholder s' = sholder s \/ lock_spec (sholder s) (sholder s').
Proof.
  intros I St. pose proof (sstep_inv _ _ I St) as I'.
  pose proof (sinv_word _ I) as W. pose proof (sinv_word _ I') as W'.
  pose proof (proj1 I) as Hs. pose proof (proj1 I') as Hs'.
  assert (forall s, sumz b_sholds (spcs s) = 0 \/ sumz b_sholds (spcs s) = 1 ->
    sholder s = None /\ sumz b_sholds (spcs s) = 0 \/
    exists j q, sholder s = Some j /\ spcs s !! j = Some q /\ sholds q) as Hcase.
  { intros t [Ht|Ht]; [left; split; [by apply sholder_free|done]|right].
    destruct (sumz_exists b_sholds (spcs t) b_sholds_pos) as (q & [j Hj]%list_elem_of_lookup & Hq); [lia|].
    assert (sholds q) as Hq' by (unfold b_sholds in Hq; by destruct (sholds q)).
    exists j, q. split; [|done]. by eapply sholder_one. }
  destruct (Hcase s ltac:(lia)) as [[-> H0]|(j & q & Ej & Hj & Hq)];
    destruct (Hcase s' ltac:(lia)) as [[-> H1]|(j' & q' & -> & Hj' & Hq')];
    [by left|right; constructor|rewrite Ej; right; constructor|].
  destruct St as [i p l' p' Hi E]. left. rewrite Ej. f_equal. cbn in Hj'. destruct (decide (j' = i)) as [->|Hne].
  - rewrite list_lookup_insert_eq in Hj' by (by eapply lookup_lt_Some). simplify_eq.
    destruct (sholds p) eqn:Hp.
    + assert (sholder s = Some i) as E2; [|congruence]. apply (sholder_one s i p); [|done|by rewrite Hp].
      pose proof (holder_word s j q I Hj Hq). lia.
    + exfalso. pose proof (holder_word s j q I Hj Hq) as Hl. rewrite Hl in E.
      destruct E as [l' p' E|l' p' E|l' p' E|Ep|Ep|Ep]; try (by subst); destruct p; cbn in E; simplify_eq;
        repeat case_match; by simplify_eq.
  - rewrite list_lookup_insert_ne in Hj' by done.
    assert (sholder s = Some j') as E2; [|congruence]. apply (sholder_one s j' q'); [|done..].
    pose proof (holder_word s j q I Hj Hq). lia.
Qed.

Lemma free_holder s : sinv s -> slock s = 0 <-> sholder s = None.
Proof.
  intros I. split.
  - intros E. apply sholder_free. destruct I. lia.
  - intros E. destruct (decide (slock s = 0)) as [|Hne]; [done|]. exfalso.
    pose proof (sinv_word _ I) as W. pose proof (proj1 I) as Hs.
    destruct (sumz_exists b_sholds (spcs s) b_sholds_pos) as (q & [j Hj]%list_elem_of_lookup & Hq); [lia|].
    assert (sholder s = Some j); [|congruence]. apply (sholder_one s j q); [lia|done|].
    unfold b_sholds in Hq. by destruct (sholds q).
Qed.

Lemma spin_takes s i p : spcs s !! i = Some p -> slock s = 0 -> (exists k, p = s_spin k) \/ p = s_yield ->
  exists m t, (m <= 2)%nat /\ nsteps sstep m s t /\ spcs t !! i = Some s_held.
Proof.
  intros Hi Hf Hp. pose proof (lookup_lt_Some _ _ _ Hi) as Hlt.
  assert (forall t k, spcs t !! i = Some (s_spin k) -> slock t = 0 ->
    sstep t (mk_s 1 (<[i := s_held]> (spcs t)))) as Htake.
  { intros t k Ht H0. eapply sstep_at; [done|]. apply sn_lock. cbn. by rewrite H0. }
  destruct Hp as [[k ->]| ->].
  - exists 1%nat, (mk_s 1 (<[i := s_held]> (spcs s))). split_and!; [lia|eapply nsteps_once; eauto|].
    by apply list_lookup_insert_eq.
  - set (s1 := mk_s (slock s) (<[i := s_spin 0]> (spcs s))).
    assert (spcs s1 !! i = Some (s_spin 0)) as H1 by (by apply list_lookup_insert_eq).
    exists 2%nat, (mk_s 1 (<[i := s_held]> (spcs s1))). split_and!; [lia| |].
    + eapply nsteps_l; [|eapply nsteps_once, Htake; [exact H1|done]]. eapply sstep_at; [done|]. by apply sn_lock.
    + apply list_lookup_insert_eq. cbn. by rewrite length_insert.
Qed.

End Spin.

(** ** The barrier *)

Module Barrier.

Inductive bpc : Type :=
| b_out                 (* outside [pthread_barrier_wait] *)
| b_lock                (* before taking the mutex *)
| b_count               (* with the mutex, before counting itself *)
| b_wait                (* ... before [pthread_cond_wait] *)
| b_blocked             (* asleep *)
| b_woken               (* awake, before it has the mutex again *)
| b_unlock (v : Z).     (* with the mutex, before releasing it and returning [v] *)

#[export] Instance bpc_eq_dec : EqDecision bpc.
Proof. solve_decision. Defined.

(** A thread, how often it was counted at the barrier and how often it returned. *)
Record bthread := mk_bt { bplace : bpc; bcalls : Z; brets : Z }.
Definition bgo (p : bpc) (t : bthread) : bthread := mk_bt p (bcalls t) (brets t).

(** [pthread_barrier_t] with the threads that use it. *)
Record bstate := mk_b { bcount : Z; tripCount : Z; bmutex : bool; bths : list bthread }.

(** [pthread_barrier_init] for [n] threads; [None]: it returns -1. *)
Definition pthread_barrier_init (count : Z) (n : nat) : option bstate :=
  if count =? 0 then None else Some (mk_b 0 count false (replicate n (mk_bt b_out 0 0))).

(** [pthread_cond_broadcast] *)
Definition wake_all (l : list bthread) : list bthread :=
  (fun t => if bool_decide (bplace t = b_blocked) then bgo b_woken t else t) <$> l.

(** A step of [pthread_barrier_wait]. *)
Inductive bstep (s : bstate) : bstate -> Prop :=
| bs_call i t : bths s !! i = Some t -> bplace t = b_out ->
    bstep s (mk_b (bcount s) (tripCount s) (bmutex s) (<[i := bgo b_lock t]> (bths s)))
| bs_lock i t : bths s !! i = Some t -> bplace t = b_lock -> bmutex s = false ->
    bstep s (mk_b (bcount s) (tripCount s) true (<[i := bgo b_count t]> (bths s)))
| bs_trip i t : bths s !! i = Some t -> bplace t = b_count -> tripCount s <= i32 (bcount s + 1) ->
    bstep s (mk_b 0 (tripCount s) (bmutex s)
               (<[i := mk_bt (b_unlock 1) (bcalls t + 1) (brets t)]> (wake_all (bths s))))
| bs_count i t : bths s !! i = Some t -> bplace t = b_count -> i32 (bcount s + 1) < tripCount s ->
    bstep s (mk_b (i32 (bcount s + 1)) (tripCount s) (bmutex s)
               (<[i := mk_bt b_wait (bcalls t + 1) (brets t)]> (bths s)))
| bs_wait i t : bths s !! i = Some t -> bplace t = b_wait ->
    bstep s (mk_b (bcount s) (tripCount s) false (<[i := bgo b_blocked t]> (bths s)))
| bs_woken i t : bths s !! i = Some t -> bplace t = b_woken -> bmutex s = false ->
    bstep s (mk_b (bcount s) (tripCount s) true (<[i := bgo (b_unlock 0) t]> (bths s)))
| bs_return i t v : bths s !! i = Some t -> bplace t = b_unlock v ->
    bstep s (mk_b (bcount s) (tripCount s) false
               (<[i := mk_bt b_out (bcalls t) (brets t + 1)]> (bths s))).

(** POSIX allows [pthread_cond_wait] to return without a signal. *)
Inductive bspurious (s : bstate) : bstate -> Prop :=
| bs_spurious i t : bths s !! i = Some t -> bplace t = b_blocked ->
    bspurious s (mk_b (bcount s) (tripCount s) (bmutex s) (<[i := bgo b_woken t]> (bths s))).

(** *** The invariant: rounds *)

(** Counted in the round that is under way; has the mutex. *)
Definition counted (p : bpc) : bool := match p with b_wait | b_blocked => true | _ => false end.
Definition has_mutex (p : bpc) : bool := match p with b_count | b_wait | b_unlock _ => true | _ => false end.
Definition w_counted (t : bthread) : Z := Z.b2z (counted (bplace t)).
Definition w_mutex (t : bthread) : Z := Z.b2z (has_mutex (bplace t)).

(** In round [g]. *)
Definition in_round (g : Z) (t : bthread) : Prop :=
  match bplace t with
  | b_out | b_lock | b_count => bcalls t = g /\ brets t = g
  | b_wait | b_blocked => bcalls t = g + 1 /\ brets t = g
  | b_woken | b_unlock _ => bcalls t = g /\ brets t = g - 1
  end.

Record binv (g : Z) (s : bstate) : Prop := {
  bi_round : Forall (in_round g) (bths s);
  bi_count : bcount s = sumz w_counted (bths s);
  bi_below : bcount s < tripCount s;
  bi_trip : tripCount s = Z.of_nat (length (bths s)) /\ tripCount s < 2 ^ 31;
  bi_mutex : Z.b2z (bmutex s) = sumz w_mutex (bths s)
}.

Lemma w_range t : 0 <= w_counted t <= 1 /\ 0 <= w_mutex t <= 1.
Proof. unfold w_counted, w_mutex. destruct (counted _), (has_mutex _); cbn; lia. Qed.

(** A sum that misses its maximum by one, which is at [i]. *)
Lemma sum_full {A} (f : A -> Z) l i x : (forall y, f y <= 1) -> l !! i = Some x -> f x = 0 ->
  Z.of_nat (length l) <= sumz f l + 1 -> forall j y, l !! j = Some y -> j <> i -> f y = 1.
Proof.
  intros Hf Hi Hx Hl j y Hj Hne.
  assert (forall k, sumz f k <= Z.of_nat (length k)) as Hle.
  { intros k. induction k as [|z k IH]; cbn [sumz length]; [lia|]. specialize (Hf z). lia. }
  assert (exists k, delete i l !! k = Some y) as [k Hk].
  { destruct (decide (j < i)%nat); [exists j; by rewrite list_lookup_delete_lt|].
    exists (pred j). rewrite list_lookup_delete_ge by lia. by replace (S (pred j)) with j by lia. }
  specialize (Hle (delete k (delete i l))). specialize (Hf y).
  rewrite (sumz_delete _ _ _ _ Hk), (sumz_delete _ _ _ _ Hi), !length_delete in Hle by (by eexists).
  pose proof (lookup_lt_Some _ _ _ Hi). apply lookup_lt_Some in Hk.
  rewrite length_delete in Hk by (by eexists). lia.
Qed.

Lemma binv_set g s i t t' c m : binv g s -> bths s !! i = Some t -> in_round g t' ->
  c = bcount s - w_counted t + w_counted t' -> c < tripCount s ->
  Z.b2z m = Z.b2z (bmutex s) - w_mutex t + w_mutex t' ->
  binv g (mk_b c (tripCount s) m (<[i := t']> (bths s))).
Proof.
  intros [] Hi Ht Hc Hlt Hm. split; cbn; rewrite ?length_insert, ?(sumz_insert _ _ _ _ _ Hi); [|lia|lia|done|lia].
  by apply Forall_insert.
Qed.

Lemma mutex_held g s i t : binv g s -> bths s !! i = Some t -> w_mutex t = 1 -> bmutex s = true.
Proof.
  intros I Hi Ht. pose proof (bi_mutex _ _ I) as Hm.
  pose proof (sumz_pos w_mutex _ _ (fun t => proj1 (proj2 (w_range t))) (list_elem_of_lookup_2 _ _ _ Hi)).
  destruct (bmutex s); [done|]. cbn in Hm. lia.
Qed.

Lemma trip_blocked g s i t : binv g s -> bths s !! i = Some t -> bplace t = b_count ->
  tripCount s <= i32 (bcount s + 1) ->
  forall j u, bths s !! j = Some u -> j <> i -> bplace u = b_blocked.
Proof.
  intros I Hi Ht Htrip j u Hj Hne. destruct (bi_trip _ _ I) as [Hlen Hmax]. pose proof (bi_below _ _ I).
  assert (0 <= bcount s) by (rewrite (bi_count _ _ I); apply sumz_nonneg; intros; apply w_range).
  rewrite i32_small in Htrip by lia.
  assert (w_counted u = 1) as Hu.
  { eapply (sum_full w_counted (bths s) i t); try done; [intros; apply w_range|by unfold w_counted; rewrite Ht|].
    rewrite <- (bi_count _ _ I). lia. }
  pose proof (sumz_two w_mutex _ _ _ _ _ (fun t => proj1 (proj2 (w_range t))) Hi Hj ltac:(done)) as Hm.
  rewrite <- (bi_mutex _ _ I) in Hm. unfold w_mutex in Hm. rewrite Ht in Hm. cbn in Hm.
  unfold w_counted in Hu. destruct (bplace u); cbn in Hu, Hm; try done. destruct (bmutex s); cbn in Hm; lia.
Qed.

Lemma wake_all_mutex l : sumz w_mutex (wake_all l) = sumz w_mutex l.
Proof.
  apply sumz_fmap. intros t. destruct (bool_decide_reflect (bplace t = b_blocked)) as [E|]; [|done].
  unfold w_mutex. by rewrite E.
Qed.

Lemma trip_ok g s i t : binv g s -> bths s !! i = Some t -> bplace t = b_count ->
  tripCount s <= i32 (bcount s + 1) ->
  binv (g + 1) (mk_b 0 (tripCount s) (bmutex s)
    (<[i := mk_bt (b_unlock 1) (bcalls t + 1) (brets t)]> (wake_all (bths s)))).
Proof.
  intros I Hi Ht Htrip. pose proof (trip_blocked g s i t I Hi Ht Htrip) as Hall.
  pose proof (bi_round _ _ I) as HR. rewrite Forall_lookup in HR.
  pose proof (HR i t Hi) as Hti. unfold in_round in Hti. rewrite Ht in Hti.
  assert (wake_all (bths s) !! i = Some t) as Hi'.
  { unfold wake_all. rewrite list_lookup_fmap, Hi. cbn. by rewrite bool_decide_eq_false_2 by congruence. }
  assert (forall j u, <[i := mk_bt (b_unlock 1) (bcalls t + 1) (brets t)]> (wake_all (bths s)) !! j = Some u ->
    in_round (g + 1) u /\ w_counted u = 0) as Hnew.
  { intros j u Hj. destruct (decide (j = i)) as [->|Hne].
    - rewrite list_lookup_insert_eq in Hj by (by eapply lookup_lt_Some). simplify_eq. unfold in_round. cbn. lia.
    - rewrite list_lookup_insert_ne in Hj by done. unfold wake_all in Hj.
      rewrite list_lookup_fmap in Hj. destruct (bths s !! j) as [v|] eqn:Hv; [|done]. cbn in Hj.
      pose proof (Hall j v Hv Hne) as Hb. rewrite bool_decide_eq_true_2 in Hj by done. simplify_eq.
      pose proof (HR j v Hv) as Hvr. unfold in_round in Hvr |- *. rewrite Hb in Hvr. cbn. lia. }
  split; cbn; rewrite ?length_insert.
  - apply Forall_lookup. intros j u Hj. by destruct (Hnew j u Hj).
  - symmetry. apply sumz_zero, Forall_lookup. intros j u Hj. by destruct (Hnew j u Hj).
  - destruct (bi_trip _ _ I). apply lookup_lt_Some in Hi. lia.
  - unfold wake_all. rewrite length_fmap. apply I.
  - rewrite (sumz_insert _ _ _ _ _ Hi'), wake_all_mutex, (bi_mutex _ _ I).
    unfold w_mutex. rewrite Ht. cbn. lia.
Qed.

Lemma bstep_inv g s s' : binv g s -> bstep s s' -> exists g', g <= g' /\ binv g' s'.
Proof.
  intros I St. pose proof (bi_round _ _ I) as HR. rewrite Forall_lookup in HR.
  assert (0 <= bcount s) by (rewrite (bi_count _ _ I); apply sumz_nonneg; intros; apply w_range).
  pose proof (bi_below _ _ I) as Hb. pose proof (bi_trip _ _ I) as [_ Hmax].
  destruct St as [i t Hi Ht|i t Hi Ht Hm|i t Hi Ht Htrip|i t Hi Ht Htrip|i t Hi Ht|i t Hi Ht Hm|i t v Hi Ht].
  all: pose proof (HR i t Hi) as Hr; unfold in_round in Hr; rewrite Ht in Hr.
  all: try (exists (g + 1); split; [lia|by apply trip_ok]).
  all: exists g; split; [lia|]; eapply binv_set; try done.
  all: try (unfold in_round; cbn; lia); try (unfold w_counted; rewrite Ht; cbn; rewrite ?i32_small by lia; lia).
  all: try (rewrite Hm); try (rewrite (mutex_held g s i t I Hi ltac:(unfold w_mutex; by rewrite Ht)));
    unfold w_mutex; rewrite Ht; cbn; lia.
Qed.

Definition barrier_start (n : nat) : bstate := mk_b 0 (Z.of_nat n) false (replicate n (mk_bt b_out 0 0)).

Lemma barrier_start_init n : (0 < n)%nat -> pthread_barrier_init (Z.of_nat n) n = Some (barrier_start n).
Proof. intros. unfold pthread_barrier_init. by destruct (Z.eqb_spec (Z.of_nat n) 0); [lia|]. Qed.

Lemma reach_barrier n s : (0 < n)%nat -> Z.of_nat n < 2 ^ 31 -> rtc bstep (barrier_start n) s ->
  exists g, 0 <= g /\ binv g s.
Proof.
  intros Hn Hmax R. assert (binv 0 (barrier_start n)) as I.
  { split; cbn [barrier_start bths bcount tripCount bmutex]; rewrite ?sumz_replicate, ?length_replicate;
      [by apply Forall_replicate|unfold w_counted, w_mutex; cbn; lia..]. }
  assert (exists g, 0 <= g /\ binv g (barrier_start n)) as G by (exists 0; split; [lia|done]). clear I.
  induction R as [|x y z St _ IH]; [done|]. apply IH. destruct G as (g & Hg & I).
  destruct (bstep_inv g x y I St) as (g' & ? & ?). exists g'. split; [lia|done].
Qed.

(** ** Properties *)

Lemma round_bounds g t : in_round g t -> brets t <= g <= bcalls t.
Proof. unfold in_round. destruct (bplace t); lia. Qed.

(** No thread passes the barrier before all have reached it: when the [n]
    threads of a barrier for [n] use it any number of times, with the condition
    variable waking only those that are signalled, a thread that returned for the
    [k]-th time was let through by a round in which every thread was counted for
    the [k]-th time; and never are all threads asleep in it. *)
Theorem barrier_separates n s : (0 < n)%nat -> Z.of_nat n < 2 ^ 31 ->
  rtc bstep (barrier_start n) s ->
  (forall i j ti tj, bths s !! i = Some ti -> bths s !! j = Some tj -> brets ti <= bcalls tj) /\
  exists t, t ∈ bths s /\ bplace t <> b_blocked.
Proof.
  intros Hn Hmax R. destruct (reach_barrier n s Hn Hmax R) as (g & Hg & I).
  pose proof (bi_round _ _ I) as HR. rewrite Forall_lookup in HR. split.
  - intros i j ti tj Hi Hj. pose proof (round_bounds _ _ (HR i ti Hi)). pose proof (round_bounds _ _ (HR j tj Hj)). lia.
  - destruct (decide (Forall (fun t => bplace t = b_blocked) (bths s))) as [HF|HN].
    + exfalso. pose proof (bi_below _ _ I) as Hb. destruct (bi_trip _ _ I) as [Hl _].
      rewrite (bi_count _ _ I), Hl in Hb. clear -HF Hb. induction HF as [|t l Ht _ IH]; cbn in Hb; [lia|].
      unfold w_counted in Hb at 1. rewrite Ht in Hb. cbn in Hb. apply IH. lia.
    + apply not_Forall_Exists in HN; [|apply _]. apply Exists_exists in HN as (t & ? & ?). by exists t.
Qed.

(** Two threads at the barrier; the first waits. *)
Definition first_waits : bstate :=
  mk_b 1 2 false [mk_bt b_blocked 1 0; mk_bt b_out 0 0].

Lemma first_waits_reachable : rtc bstep (barrier_start 2) first_waits.
Proof.
  eapply rtc_l; [by apply (bs_call _ 0 (mk_bt b_out 0 0))|]. cbn.
  eapply rtc_l; [by apply (bs_lock _ 0 (mk_bt b_lock 0 0))|]. cbn.
  eapply rtc_l; [by apply (bs_count _ 0 (mk_bt b_count 0 0))|]. cbn.
  eapply rtc_l; [by apply (bs_wait _ 0 (mk_bt b_wait 1 0))|]. apply rtc_refl.
Qed.

Lemma barrier_separates_witness : exists t, t ∈ bths first_waits /\ bplace t <> b_blocked.
Proof. apply (barrier_separates 2 first_waits); [lia|lia|exact first_waits_reachable]. Defined.

(** A wake-up without a signal lets the first through before the second came. *)
Example spurious_passes : exists s1 s2, bspurious first_waits s1 /\ rtc bstep s1 s2 /\
  bths s2 = [mk_bt b_out 1 1; mk_bt b_out 0 0].
Proof.
  eexists _, _. split; [by apply (bs_spurious _ 0 (mk_bt b_blocked 1 0))|]. cbn. split.
  - eapply rtc_l; [by apply (bs_woken _ 0 (mk_bt b_woken 1 0))|]. cbn.
    eapply rtc_l; [by apply (bs_return _ 0 (mk_bt (b_unlock 0) 1 0) 0)|]. apply rtc_refl.
  - reflexivity.
Qed.

End Barrier.

(** The spin lock is a lock: a step leaves the holder as it is, gives the free
    lock to one thread or takes it from its holder; the word is 0 exactly when
    nobody has it; and a thread that spins while it is free has it after at most
    two steps of its own. *)
Theorem spin_refines_lock n s s' : rtc Spin.sstep (Spin.pthread_spin_init n) s -> Spin.sstep s s' ->
  (Spin.sholder s' = Spin.sholder s \/ lock_spec (Spin.sholder s) (Spin.sholder s')) /\
  (Spin.slock s' = 0 <-> Spin.sholder s' = None) /\
  (forall i p, Spin.spcs s' !! i = Some p -> Spin.slock s' = 0 ->
    (exists k, p = Spin.s_spin k) \/ p = Spin.s_yield ->
    exists m t, (m <= 2)%nat /\ nsteps Spin.sstep m s' t /\ Spin.spcs t !! i = Some Spin.s_held).
Proof.
  intros R St. pose proof (Spin.reach_spin _ _ R) as I. pose proof (Spin.sstep_inv _ _ I St) as I'.
  split; [by apply Spin.spin_step_refines|]. split; [by apply Spin.free_holder|].
  intros i p Hi Hf Hp. by apply (Spin.spin_takes s' i p).
Qed.

(** One thread takes the spin lock, another spins. *)
Definition spinning : Spin.sstate := Spin.mk_s 1 [Spin.s_unlock; Spin.s_spin 0].
Definition spin_freed : Spin.sstate := Spin.mk_s 0 [Spin.s_out; Spin.s_spin 0].

Lemma spinning_reachable : rtc Spin.sstep (Spin.pthread_spin_init 2) spinning.
Proof.
  eapply rtc_l; [apply (Spin.sstep_at _ 0 Spin.s_out 0 (Spin.s_spin 0)); [done|by constructor 4]|]. cbn.
  eapply rtc_l; [apply (Spin.sstep_at _ 0 (Spin.s_spin 0) 1 Spin.s_held); [done|by constructor 1]|]. cbn.
  eapply rtc_l; [apply (Spin.sstep_at _ 1 Spin.s_out 1 (Spin.s_spin 0)); [done|by constructor 4]|]. cbn.
  eapply rtc_l; [apply (Spin.sstep_at _ 0 Spin.s_held 1 Spin.s_unlock); [done|by constructor 6]|]. apply rtc_refl.
Qed.

Lemma spin_refines_lock_witness :
  Spin.sholder spin_freed = Spin.sholder spinning \/ lock_spec (Spin.sholder spinning) (Spin.sholder spin_freed).
Proof.
  apply (spin_refines_lock 2 spinning spin_freed spinning_reachable).
  apply (Spin.sstep_at spinning 0 Spin.s_unlock 0 Spin.s_out); [reflexivity|]. by constructor 3.
Defined.
