(* ===== verification/NetpollKqueue.v ===== *)
(** * The network poller over kqueue (src/netpoll_kqueue.c)

    The functions are those of the epoll back end but for the system calls:
    [__coroc_netpoll_add], [__coroc_netpoll_rem] and the loop of
    [__coroc_netpoll_polling] are the ones of Netpoll.v with the back end
    [kqueue], so that [netpoll_safe] is about them as well.  This file has what
    is its own: the filter it registers, the time-out, how it asks for
    events, and what the loop makes of one.

    [struct kevent] on the stack of [__coroc_netpoll_ctl] is not initialised:
    [junk] is what its field [filter] happens to hold. *)

From S2P Require Import Prelude Async Netpoll.

Definition EVFILT_READ : Z := -1.
Definition EVFILT_WRITE : Z := -2.
Definition EV_ERROR : Z := 16384.

(** [short] *)
Definition i16 (x : Z) : Z := (x + 2 ^ 15) mod 2 ^ 16 - 2 ^ 15.

(** [ev.filter] in [__coroc_netpoll_ctl] *)
Definition kq_filter (junk mode : Z) : Z :=
  let f := junk in
  let f := if Z.land mode TSC_NETPOLL_READ =? 0 then f else i16 (Z.lor f EVFILT_READ) in
  if Z.land mode TSC_NETPOLL_WRITE =? 0 then f else i16 (Z.lor f EVFILT_WRITE).

(** [timeout] in milliseconds as a timespec; [None]: wait without end. *)
Definition kq_timeout (timeout : Z) : option (Z * Z) :=
  if 0 <=? timeout then Some (Z.quot timeout 1000, Z.rem timeout 1000 * 1000000) else None.

(** An event: its [flags] and, in the lower 16 bits, its [filter]. *)
Definition kev (flags filter : Z) : Z := u16 flags * 2 ^ 16 + u16 filter.
Definition kev_flags (e : Z) : Z := e / 2 ^ 16.
Definition kev_filter (e : Z) : Z := i16 (e mod 2 ^ 16).

(** [mode] after an event of the loop. *)
Definition kq_event_mode (mode dm ev : Z) : Z :=
  if negb (Z.land (kev_flags ev) EV_ERROR =? 0) then TSC_NETPOLL_ERROR else
  let mode := if negb (Z.land dm TSC_NETPOLL_READ =? 0) && negb (Z.land (kev_filter ev) EVFILT_READ =? 0)
              then Z.lor mode TSC_NETPOLL_READ else mode in
  if negb (Z.land dm TSC_NETPOLL_WRITE =? 0) && negb (Z.land (kev_filter ev) EVFILT_WRITE =? 0)
  then Z.lor mode TSC_NETPOLL_WRITE else mode.

(** [kevent(kq, changelist, nchanges, eventlist, nevents, timeout)] of the
    system, with a valid change list: it stores at most [nevents] of the
    events that are pending. *)
Definition kevent (nevents : nat) (pending : list (did * Z)) : list (did * Z) := take nevents pending.

(** [__coroc_netpoll_polling] up to its loop: the array of events is given as
    the change list, and the event list has no room.  The value is whether
    there is anything for the loop. *)
Definition kq_polling_collect {S : Type} (pending : list (did * Z)) : ST (nworld S) bool :=
  let events := kevent 0 pending in
  do! poll_collect events in
  ret (negb (bool_decide (events = []))).

Definition kqueue (junk : Z) : NetBackend := {| be_events := kq_filter junk; be_mode := kq_event_mode |}.

(** [__coroc_netpoll_add] and [__coroc_netpoll_rem] *)
Definition kq_netpoll_add {S : Type} (junk : Z) (d : did) : ST (nworld S) unit :=
  Netpoll.__coroc_netpoll_add (B := kqueue junk) d.
Definition kq_netpoll_rem {S : Type} (d : did) : ST (nworld S) unit := Netpoll.__coroc_netpoll_rem d.

(** ** What the filters do *)

Lemma u16_range x : 0 <= u16 x < 2 ^ 16.
Proof. apply Z.mod_pos_bound. lia. Qed.

Lemma kev_parts flags filter : kev_flags (kev flags filter) = u16 flags /\ kev_filter (kev flags filter) = i16 filter.
Proof.
  pose proof (u16_range filter). unfold kev_flags, kev_filter, kev. split.
  - rewrite Z.div_add_l by lia. rewrite Z.div_small by done. lia.
  - rewrite Z.add_comm, Z.mod_add, Z.mod_small by (done || lia). unfold i16, u16. by rewrite Zplus_mod_idemp_l.
Qed.

Lemma i16_small x : - 2 ^ 15 <= x < 2 ^ 15 -> i16 x = x.
Proof. intros. unfold i16. rewrite Z.mod_small; lia. Qed.

Lemma land_1 x : Z.land x 1 = 0 \/ Z.land x 1 = 1.
Proof.
  assert (Z.land x 1 = x mod 2) as -> by (apply (Z.land_ones x 1); lia).
  pose proof (Z.mod_pos_bound x 2). lia.
Qed.

Lemma bit_1 n : n <> 0 -> Z.testbit 1 n = false.
Proof. intros. apply (Z.pow2_bits_false 0 n). lia. Qed.
Lemma bit_2 n : n <> 1 -> Z.testbit 2 n = false.
Proof. intros. apply (Z.pow2_bits_false 1 n). lia. Qed.

Lemma land_2 x : Z.land x 2 = 0 \/ Z.land x 2 = 2.
Proof.
  destruct (Z.testbit x 1) eqn:E; [right|left]; apply Z.bits_inj'; intros n Hn; rewrite Z.land_spec.
  - destruct (decide (n = 1)) as [->|]; [by rewrite E|].
    rewrite bit_2 by done. by rewrite andb_false_r.
  - rewrite Z.bits_0. destruct (decide (n = 1)) as [->|]; [by rewrite E|].
    rewrite bit_2 by done. by rewrite andb_false_r.
Qed.

(** Asked to read, alone or also to write, it registers for reading only;
    asked to write alone it registers for writing exactly when the lowest bit of
    the uninitialised filter is clear, and for reading otherwise. *)
Lemma kq_filter_registers junk mode : - 2 ^ 15 <= junk < 2 ^ 15 ->
  (Z.land mode TSC_NETPOLL_READ <> 0 -> kq_filter junk mode = EVFILT_READ) /\
  (Z.land mode TSC_NETPOLL_READ = 0 -> Z.land mode TSC_NETPOLL_WRITE <> 0 ->
   kq_filter junk mode = if Z.testbit junk 0 then EVFILT_READ else EVFILT_WRITE).
Proof.
  intros Hj. unfold kq_filter. split.
  - intros Hr. destruct (Z.eqb_spec (Z.land mode TSC_NETPOLL_READ) 0); [done|].
    unfold EVFILT_READ. rewrite Z.lor_m1_r. change (i16 (-1)) with (-1).
    destruct (Z.eqb_spec (Z.land mode TSC_NETPOLL_WRITE) 0); [done|]. by rewrite Z.lor_m1_l.
  - intros -> Hw. rewrite Z.eqb_refl. destruct (Z.eqb_spec (Z.land mode TSC_NETPOLL_WRITE) 0); [done|].
    assert (Z.lor junk EVFILT_WRITE = if Z.testbit junk 0 then EVFILT_READ else EVFILT_WRITE) as ->.
    { apply Z.bits_inj'. intros k Hk. rewrite Z.lor_spec. change EVFILT_WRITE with (Z.lnot 1).
      change EVFILT_READ with (Z.lnot 0). rewrite Z.lnot_spec by done.
      destruct (decide (k = 0)) as [->|].
      - by destruct (Z.testbit junk 0).
      - rewrite bit_1 by done. cbn [negb]. rewrite orb_true_r.
        destruct (Z.testbit junk 0); rewrite Z.lnot_spec by done; [by rewrite Z.bits_0|].
        by rewrite bit_1. }
    by destruct (Z.testbit junk 0).
Qed.

(** Both filters have common bits, so the loop takes an event for every one of
    the modes the descriptor waits for, whichever it was. *)
Lemma kq_event_any mode dm flags filter : filter = EVFILT_READ \/ filter = EVFILT_WRITE ->
  Z.land (u16 flags) EV_ERROR = 0 ->
  kq_event_mode mode dm (kev flags filter) = Z.lor (Z.lor mode (Z.land dm TSC_NETPOLL_READ)) (Z.land dm TSC_NETPOLL_WRITE).
Proof.
  intros Hf He. destruct (kev_parts flags filter) as [E1 E2]. unfold kq_event_mode. rewrite E1, E2, He.
  assert (i16 filter = filter) as -> by (destruct Hf as [->| ->]; done).
  assert ((Z.land filter EVFILT_READ =? 0) = false /\ (Z.land filter EVFILT_WRITE =? 0) = false) as [-> ->]
    by (destruct Hf as [->| ->]; done).
  rewrite !andb_true_r. cbn [negb]. unfold TSC_NETPOLL_READ, TSC_NETPOLL_WRITE.
  destruct (land_1 dm) as [->| ->], (land_2 dm) as [->| ->]; cbn; by rewrite ?Z.lor_0_r.
Qed.

(** A coroutine waits to write; the stack held an odd number. *)
Example writer_waits_for_input : kq_filter 1 TSC_NETPOLL_WRITE = EVFILT_READ.
Proof. reflexivity. Qed.

(** A coroutine that waits to read or to write learns that both are possible
    when there is only input. *)
Example input_reported_as_both :
  kq_event_mode 0 (TSC_NETPOLL_READ + TSC_NETPOLL_WRITE) (kev 0 EVFILT_READ) = TSC_NETPOLL_READ + TSC_NETPOLL_WRITE.
Proof. reflexivity. Qed.

(** As it calls [kevent], the poller never finds an event: it returns false,
    and the coroutines that wait stay where they are. *)
Lemma kq_polling_finds_nothing {S : Type} pending (w : nworld S) :
  kq_polling_collect pending w = Ok (false, set_bmode 0 (set_batch [] w)).
Proof. reflexivity. Qed.

(** The wait for the network with this back end, were the event handed over:
    what was waited for is reported, and the coroutine is made ready. *)
Example kqueue_wait :
  let run e w := result nidle (nexec (B := kqueue 0) e w) in
  let w := run N_poll (run (N_collect [(100%nat, kev 0 EVFILT_WRITE)]) (run (N_wait 5 100 3 TSC_NETPOLL_WRITE) nidle)) in
  dmode <$> descs w !! 100%nat = Some TSC_NETPOLL_WRITE /\ epset w = ∅ /\ nenv w = ∅.
Proof. vm_compute. done. Qed.
