(* ===== verification/Ucontext.v ===== *)
(** * Contexts where the C library has none
      (src/darwin/asm.S, src/darwin/ucontext.c, src/context.c,
       include/inter/darwin/amd64-ucontext.h, 386-ucontext.h, power-ucontext.h)

    [getmcontext] and [setmcontext] are assembly: they are kept instruction by
    instruction and run by a machine of registers, memory words and a program
    counter.  [makecontext], [swapcontext] and [TSC_CONTEXT_INIT] are C functions over the
    same memory; they reach the saved registers through the fields of a
    structure, the assembly through offsets written as numbers. *)

From stdpp Require Import strings functions.
From S2P Require Import Prelude Queue RunQueue Scheduler Boot.

(** ** The machine

    Memory is read and written in aligned words; [None] is an access that is
    not aligned or outside of the address space.  Operands are in the order of the source
    for the two Intel machines, source before destination. *)
Record mach := mk_mach { regs : string -> Z; mem : Z -> Z; pc : Z }.

Inductive instr : Type :=
| Ld (off : Z) (rb rd : string)      (* mov off(%rb), %rd;  lwz rd, off(rb) *)
| St (rs : string) (off : Z) (rb : string)
| StI (n off : Z) (rb : string)      (* mov $n, off(%rb) *)
| Li (n : Z) (rd : string)
| Mov (rs rd : string)               (* mflr, mtlr and the like *)
| Lea (off : Z) (rb rd : string)
| Push (off : Z) (rb : string)       (* push off(%rb) *)
| Ret
| Br (r : string).                   (* blr *)

Section machine.
Context (w : Z) (sp : string).

Definition valid (a : Z) : bool := (0 <=? a) && (a mod w =? 0) && (a <? 2 ^ (8 * w)).

Definition set_reg (r : string) (v : Z) (s : mach) : mach := mk_mach (<[r := v]> (regs s)) (mem s) (pc s).
Definition store (a v : Z) (s : mach) : option mach :=
  if valid a then Some (mk_mach (regs s) (<[a := v]> (mem s)) (pc s)) else None.
Definition push (v : Z) (s : mach) : option mach :=
  let a := regs s sp - w in store a v (set_reg sp a s).

Definition exec (i : instr) (s : mach) : option mach :=
  match i with
  | Ld off rb rd =>
      let a := regs s rb + off in if valid a then Some (set_reg rd (mem s a) s) else None
  | St rs off rb => store (regs s rb + off) (regs s rs) s
  | StI n off rb => store (regs s rb + off) n s
  | Li n rd => Some (set_reg rd n s)
  | Mov rs rd => Some (set_reg rd (regs s rs) s)
  | Lea off rb rd => Some (set_reg rd (regs s rb + off) s)
  | Push off rb =>
      let a := regs s rb + off in if valid a then push (mem s a) s else None
  | Ret =>
      let a := regs s sp in
      if valid a then Some (mk_mach (<[sp := a + w]> (regs s)) (mem s) (mem s a)) else None
  | Br r => Some (mk_mach (regs s) (mem s) (regs s r))
  end.

(** Straight code, which ends with its only jump. *)
Fixpoint run (c : list instr) (s : mach) : option mach :=
  match c with
  | [] => Some s
  | i :: c => match exec i s with Some s' => run c s' | None => None end
  end.

(** A call: the return address is pushed. *)
Definition call (k : Z) (f : list instr) (s : mach) : option mach :=
  match push k s with Some s' => run f s' | None => None end.

Lemma run_ok i c s s' : exec i s = Some s' -> run (i :: c) s = run c s'.
Proof. cbn [run]. by intros ->. Qed.

(** *** Blocks that save and load a table of registers *)

(** A record of [size] bytes at [b], aligned and inside the address space. *)
Definition record_at (b size : Z) : Prop := 0 <= b /\ b mod w = 0 /\ b + size <= 2 ^ (8 * w).
(** The word at [x] does not belong to it. *)
Definition apart (x b size : Z) : Prop := ~ (b <= x < b + size).

Definition field (size o : Z) : bool := (0 <=? o) && (o mod w =? 0) && (o <? size).

Definition store_all (b : Z) (R : string -> Z) (T : list (string * Z)) (m : Z -> Z) : Z -> Z :=
  foldl (fun m ro => <[b + ro.2 := R ro.1]> m) m T.
Definition load_all (b : Z) (m : Z -> Z) (T : list (string * Z)) (R : string -> Z) : string -> Z :=
  foldl (fun R ro => <[ro.1 := m (b + ro.2)]> R) R T.

Context (Hw : 0 < w).

Lemma valid_field b size o : record_at b size -> field size o = true -> valid (b + o) = true.
Proof.
  unfold record_at, field, valid. rewrite !andb_true_iff, !Z.leb_le, !Z.eqb_eq, !Z.ltb_lt.
  intros (? & Hb & ?) [[? Ho] ?]. split_and!; [lia| |lia].
  by rewrite Z.add_mod, Hb, Ho, Z.mod_0_l by lia.
Qed.

Lemma run_stores T rb size s c :
  record_at (regs s rb) size -> forallb (field size) T.*2 = true ->
  run (((fun ro => St ro.1 ro.2 rb) <$> T) ++ c) s =
  run c (mk_mach (regs s) (store_all (regs s rb) (regs s) T (mem s)) (pc s)).
Proof.
  intros Hb. revert s Hb. induction T as [|[r o] T IH]; intros s Hb HT; [by destruct s|].
  cbn in HT. apply andb_true_iff in HT as [Ho HT].
  cbn. unfold store. rewrite (valid_field _ size) by done. by rewrite (IH (mk_mach _ _ _)).
Qed.

Lemma run_loads T rb size s c :
  record_at (regs s rb) size -> forallb (field size) T.*2 = true -> rb ∉ T.*1 ->
  run (((fun ro => Ld ro.2 rb ro.1) <$> T) ++ c) s =
  run c (mk_mach (load_all (regs s rb) (mem s) T (regs s)) (mem s) (pc s)).
Proof.
  intros Hb. revert s Hb. induction T as [|[r o] T IH]; intros s Hb HT Hr; [by destruct s|].
  cbn in HT. apply andb_true_iff in HT as [Ho HT].
  cbn in Hr. apply not_elem_of_cons in Hr as [Hr1 Hr].
  cbn. rewrite (valid_field _ size) by done.
  rewrite (IH (set_reg _ _ _)); cbn; rewrite ?fn_lookup_insert_ne by done; done.
Qed.

Lemma store_all_cons b R r o T m : store_all b R ((r, o) :: T) m = store_all b R T (<[b + o := R r]> m).
Proof. done. Qed.
Lemma load_all_cons b m r o T R : load_all b m ((r, o) :: T) R = load_all b m T (<[r := m (b + o)]> R).
Proof. done. Qed.

Lemma store_all_out b R T m a : a ∉ Z.add b <$> T.*2 -> store_all b R T m a = m a.
Proof.
  revert m. induction T as [|[r o] T IH]; intros m Ha; [done|]. rewrite store_all_cons. cbn in Ha.
  apply not_elem_of_cons in Ha as [? Ha]. by rewrite IH, fn_lookup_insert_ne.
Qed.

Lemma store_all_in b R T m r o : NoDup T.*2 -> (r, o) ∈ T -> store_all b R T m (b + o) = R r.
Proof.
  revert m. induction T as [|[r' o'] T IH]; intros m HT Hin; [by apply elem_of_nil in Hin|].
  rewrite store_all_cons. cbn in HT. apply NoDup_cons in HT as [HT1 HT]. apply elem_of_cons in Hin as [[= <- <-]|Hin]; [|by apply IH].
  rewrite store_all_out; [by rewrite fn_lookup_insert|].
  intros (x & Hx & ?)%list_elem_of_fmap. by assert (x = o) as -> by lia.
Qed.

Lemma load_all_out b m T R r : r ∉ T.*1 -> load_all b m T R r = R r.
Proof.
  revert R. induction T as [|[r' o] T IH]; intros R Hr; [done|]. rewrite load_all_cons. cbn in Hr.
  apply not_elem_of_cons in Hr as [? Hr]. by rewrite IH, fn_lookup_insert_ne.
Qed.

Lemma load_all_in b m T R r o : NoDup T.*1 -> (r, o) ∈ T -> load_all b m T R r = m (b + o).
Proof.
  revert R. induction T as [|[r' o'] T IH]; intros R HT Hin; [by apply elem_of_nil in Hin|].
  rewrite load_all_cons. cbn in HT. apply NoDup_cons in HT as [HT1 HT]. apply elem_of_cons in Hin as [[= <- <-]|Hin]; [|by apply IH].
  by rewrite load_all_out, fn_lookup_insert.
Qed.
End machine.

Arguments valid w a : simpl never.

(** ** Structures

    The fields of a structure of words, in order, with the number of words of each. *)
Definition offset_of (w : Z) : list (string * Z) -> string -> Z :=
  fix go l f :=
    match l with
    | [] => 0
    | (g, n) :: l => if String.eqb f g then 0 else w * n + go l f
    end.
Definition sizeof (w : Z) (l : list (string * Z)) : Z := w * sumz snd l.

Definition memset (a n : Z) (m : Z -> Z) : Z -> Z :=
  fun x => if (a <=? x) && (x <? a + n) then 0 else m x.

(** A context, by the address of its [uc_mcontext]; its [uc_stack]. *)
Record ucontext := mk_uctx { uc_mcontext : Z; ss_sp : Z; ss_size : Z }.

(** Evaluating registers and memory at given names and addresses. *)
Ltac look := repeat first
  [ rewrite fn_lookup_insert | rewrite fn_lookup_insert_ne by (done || lia) ].

(** One instruction: [e1] and [e2] give the registers its address is computed from, [v] that the address is
    valid. *)
Tactic Notation "step" "using" uconstr(e1) "," uconstr(e2) "by" uconstr(v1) "," uconstr(v2) :=
  erewrite run_ok;
  [ | cbn [exec]; unfold push, store; cbn [regs mem pc set_reg]; look; rewrite ?e1, ?e2, ?v1, ?v2; reflexivity ];
  cbn [regs mem pc set_reg].
Tactic Notation "step" "using" uconstr(e1) "," uconstr(e2) "by" uconstr(v) := step using e1, e2 by v, v.

(** A statement on each register of a table, from the one [H] makes. *)
Ltac per_register H :=
  repeat (apply Forall_cons in H as [? H]; constructor); [..|constructor]; cbn in *.

(** ** amd64 *)
Module AMD64.
Open Scope string_scope. Open Scope list_scope. Open Scope Z_scope.

Definition mcontext : list (string * Z) :=
  [("mc_onstack", 1); ("mc_rdi", 1); ("mc_rsi", 1); ("mc_rdx", 1); ("mc_rcx", 1); ("mc_r8", 1);
   ("mc_r9", 1); ("mc_rax", 1); ("mc_rbx", 1); ("mc_rbp", 1); ("mc_r10", 1); ("mc_r11", 1);
   ("mc_r12", 1); ("mc_r13", 1); ("mc_r14", 1); ("mc_r15", 1); ("mc_trapno", 1); ("mc_addr", 1);
   ("mc_flags", 1); ("mc_err", 1); ("mc_rip", 1); ("mc_cs", 1); ("mc_rflags", 1); ("mc_rsp", 1);
   ("mc_ss", 1); ("mc_len", 1); ("mc_fpformat", 1); ("mc_ownedfp", 1); ("mc_fpstate", 64);
   ("mc_spare", 8)].
Definition off : string -> Z := offset_of 8 mcontext.
Definition size : Z := sizeof 8 mcontext.

Definition setmcontext : list instr :=
  [Ld 16 "rdi" "rsi"; Ld 24 "rdi" "rdx"; Ld 32 "rdi" "rcx"; Ld 40 "rdi" "r8"; Ld 48 "rdi" "r9";
   Ld 56 "rdi" "rax"; Ld 64 "rdi" "rbx"; Ld 72 "rdi" "rbp"; Ld 80 "rdi" "r10"; Ld 88 "rdi" "r11";
   Ld 96 "rdi" "r12"; Ld 104 "rdi" "r13"; Ld 112 "rdi" "r14"; Ld 120 "rdi" "r15";
   Ld 184 "rdi" "rsp";
   Push 160 "rdi";
   Ld 8 "rdi" "rdi";
   Ret].

Definition getmcontext : list instr :=
  [St "rdi" 8 "rdi"; St "rsi" 16 "rdi"; St "rdx" 24 "rdi"; St "rcx" 32 "rdi"; St "r8" 40 "rdi";
   St "r9" 48 "rdi";
   StI 1 56 "rdi";
   St "rbx" 64 "rdi"; St "rbp" 72 "rdi"; St "r10" 80 "rdi"; St "r11" 88 "rdi"; St "r12" 96 "rdi";
   St "r13" 104 "rdi"; St "r14" 112 "rdi"; St "r15" 120 "rdi";
   Ld 0 "rsp" "rcx";
   St "rcx" 160 "rdi";
   Lea 8 "rsp" "rcx";
   St "rcx" 184 "rdi";
   Ld 32 "rdi" "rcx";
   Li 0 "rax";
   Ret].

(** [makecontext]; with another number of arguments than two it stores to
    address 0. *)
Definition makecontext (ucp : ucontext) (func argc : Z) (va : list Z) (m : Z -> Z) : option (Z -> Z) :=
  let mc := uc_mcontext ucp in
  let m := memset mc size m in
  match va with
  | va0 :: va1 :: _ =>
      if negb (argc =? 2) then None else
      let m := <[mc + off "mc_rdi" := u64 (i32 va0)]> m in
      let m := <[mc + off "mc_rsi" := u64 (i32 va1)]> m in
      let sp := ss_sp ucp + 8 * (ss_size ucp / 8) in
      let sp := sp - 8 * argc in
      let sp := sp - sp mod 16 in
      let sp := sp - 8 in
      if negb (valid 8 sp) then None else
      let m := <[sp := 0]> m in
      let m := <[mc + off "mc_rip" := func]> m in
      Some (<[mc + off "mc_rsp" := sp]> m)
  | _ => None
  end.

(** [swapcontext(oucp, ucp)], the contexts given by their [uc_mcontext]: [k1]
    is where its call of [getcontext] returns, [k2] where that of [setcontext]
    would.  The first result is what follows the return of [getcontext]. *)
Definition swap_rest (k2 ucp : Z) (s : mach) : option mach :=
  if regs s "rax" =? 0 then call 8 "rsp" k2 setmcontext (set_reg "rdi" ucp s)
  else Some (set_reg "rax" 0 s).
Definition swapcontext (k1 k2 oucp ucp : Z) (s : mach) : option mach :=
  match call 8 "rsp" k1 getmcontext (set_reg "rdi" oucp s) with
  | Some s => swap_rest k2 ucp s
  | None => None
  end.

(** [TSC_CONTEXT_INIT] of src/context.c; [k] is where [getcontext] returns. *)
Definition TSC_CONTEXT_INIT (k bootstrap ctx stack stack_sz coroutine : Z) (s : mach) : option mach :=
  let '(low, high) := split_address coroutine in
  let s := mk_mach (regs s) (memset ctx size (mem s)) (pc s) in
  match call 8 "rsp" k getmcontext (set_reg "rdi" ctx s) with
  | None => None
  | Some s =>
      match makecontext (mk_uctx ctx stack stack_sz) bootstrap 2 [low; high] (mem s) with
      | None => None
      | Some m => Some (mk_mach (regs s) m (pc s))
      end
  end.

(** *** What the two routines do *)

(** The registers a context keeps beside rax, rsp and the program counter. *)
Definition saved1 : list (string * Z) :=
  [("rdi", 8); ("rsi", 16); ("rdx", 24); ("rcx", 32); ("r8", 40); ("r9", 48)].
Definition saved2 : list (string * Z) :=
  [("rbx", 64); ("rbp", 72); ("r10", 80); ("r11", 88); ("r12", 96); ("r13", 104); ("r14", 112); ("r15", 120)].
Definition saved : list (string * Z) := saved1 ++ saved2.

(** The context at [b] holds the registers [R], a return to [k] with [sp]. *)
Definition holds (b : Z) (R : string -> Z) (ax k sp : Z) (m : Z -> Z) : Prop :=
  Forall (fun ro => m (b + ro.2) = R ro.1) saved /\
  m (b + 56) = ax /\ m (b + 160) = k /\ m (b + 184) = sp.

Lemma amd64_get s b top :
  regs s "rdi" = b -> regs s "rsp" = top ->
  record_at 8 b size -> valid 8 top = true -> apart top b size ->
  exists s', run 8 "rsp" getmcontext s = Some s' /\
    pc s' = mem s top /\
    (forall r, regs s' r = <["rax" := 0]> (<["rsp" := top + 8]> (regs s)) r) /\
    holds b (regs s) 1 (mem s top) (top + 8) (mem s') /\
    (forall x, apart x b size -> mem s' x = mem s x).
Proof.
  intros Hdi Hsp Hb Htop Hout. change size with 800 in *.
  change getmcontext with (((fun ro => St ro.1 ro.2 "rdi") <$> saved1) ++ StI 1 56 "rdi" ::
    ((fun ro => St ro.1 ro.2 "rdi") <$> saved2) ++ skipn 15 getmcontext).
  rewrite (run_stores 8 "rsp" ltac:(lia) saved1 "rdi" 800), Hdi by by rewrite ?Hdi.
  assert (forall o, field 8 800 o = true -> valid 8 (b + o) = true) as Hv
    by (intros; by apply (valid_field 8 ltac:(lia) b 800)).
  step using Hdi, Hsp by (Hv 56 eq_refl).
  rewrite (run_stores 8 "rsp" ltac:(lia) saved2 "rdi" 800) by (cbn [regs]; by rewrite ?Hdi).
  cbn [regs mem pc]. rewrite Hdi.
  set (m0 := store_all b _ saved2 _). cbn [skipn getmcontext]. rewrite <- (Z.add_0_r top) in Htop.
  step using Hdi, Hsp by Htop.
  step using Hdi, Hsp by (Hv 160 eq_refl).
  step using Hdi, Hsp by Htop.
  step using Hdi, Hsp by (Hv 184 eq_refl).
  step using Hdi, Hsp by (Hv 32 eq_refl).
  step using Hdi, Hsp by Htop.
  rewrite Z.add_0_r in Htop.
  step using Hdi, Hsp by Htop.
  eexists. split; [done|]. cbn [regs mem pc]. look. rewrite !Z.add_0_r.
  assert (forall x, apart x b 800 -> m0 x = mem s x) as Hm0.
  { unfold apart. intros x Hx. unfold m0. cbn. by look. }
  rewrite (Hm0 top) by done. unfold apart in *. split_and!.
  - look. auto.
  - intros r. destruct (decide (r = "rsp")) as [->|]; [by look|].
    destruct (decide (r = "rax")) as [->|]; [by look|].
    destruct (decide (r = "rcx")) as [->|]; [|by look]. look. unfold m0. cbn. by look.
  - split_and!; [|look; unfold m0; cbn; by look|by look..].
    repeat constructor; unfold m0; cbn; by look.
  - intros x Hx. look. auto.
Qed.

Lemma amd64_set t b R ax k sp :
  regs t "rdi" = b -> holds b R ax k sp (mem t) ->
  record_at 8 b size -> valid 8 (sp - 8) = true -> apart (sp - 8) b size ->
  exists t', run 8 "rsp" setmcontext t = Some t' /\
    pc t' = k /\ regs t' "rax" = ax /\ regs t' "rsp" = sp /\
    Forall (fun ro => regs t' ro.1 = R ro.1) saved /\
    (forall x, x <> sp - 8 -> mem t' x = mem t x).
Proof.
  intros Hdi (HR & Hax & Hk & Hsp) Hb Htop Hout. change size with 800 in *.
  assert (forall o, field 8 800 o = true -> valid 8 (b + o) = true) as Hv
    by (intros; by apply (valid_field 8 ltac:(lia) b 800)).
  change setmcontext with (((fun ro => Ld ro.2 "rdi" ro.1) <$>
    (tail saved1 ++ [("rax", 56)] ++ saved2 ++ [("rsp", 184)])) ++ skipn 15 setmcontext).
  rewrite (run_loads 8 "rsp" ltac:(lia) _ "rdi" 800);
    [|by rewrite Hdi|done|by apply (bool_decide_eq_true_1 (_ ∉ _)); vm_compute].
  rewrite Hdi. set (R0 := load_all _ _ _ _).
  assert (R0 "rdi" = b) as Hdi0 by (unfold R0; cbn; by look).
  assert (R0 "rsp" = sp) as Hsp0 by (unfold R0; cbn; by look).
  cbn [skipn setmcontext].
  step using Hdi0, Hsp0 by (Hv 160 eq_refl), Htop.
  step using Hdi0, Hsp0 by (Hv 8 eq_refl).
  step using Hdi0, Hsp0 by Htop.
  eexists. split; [done|]. cbn [regs mem pc]. look.
  unfold apart in Hout. split_and!; [done|unfold R0; cbn; by look|lia| |intros x Hx; by look].
  per_register HR; look; [done|unfold R0; cbn; by look..].
Qed.

(** The calls of the two from C; a cell [x] lies outside of the contexts [l]. *)
Definition outside (x : Z) (l : list Z) : Prop :=
  valid 8 x = true /\ Forall (fun b => apart x b size) l.

Lemma call_get k b s :
  let top := regs s "rsp" in
  record_at 8 b size -> outside (top - 8) [b] ->
  exists s', call 8 "rsp" k getmcontext (set_reg "rdi" b s) = Some s' /\
    pc s' = k /\
    (forall r, regs s' r = <["rax" := 0]> (<["rdi" := b]> (regs s)) r) /\
    holds b (<["rdi" := b]> (regs s)) 1 k top (mem s') /\
    (forall x, apart x b size -> x <> top - 8 -> mem s' x = mem s x).
Proof.
  intros top Hb [Hv [Ho _]%Forall_cons]. unfold call, push, store. cbn [regs mem pc set_reg]. look.
  fold top. rewrite Hv. set (s1 := mk_mach _ _ _).
  destruct (amd64_get s1 b (top - 8)) as (s' & E & Hpc & HR & (H1 & H2 & H3 & H4) & Hm);
    [subst s1; cbn; by look|subst s1; cbn; by look|done..|].
  subst s1. cbn in E, Hpc, HR, Hm, H1, H2, H3, H4. rewrite fn_lookup_insert in Hpc, H3.
  exists s'. split_and!; [done|done|..].
  - intros r. rewrite HR. destruct (decide (r = "rax")) as [->|]; [by look|].
    destruct (decide (r = "rsp")) as [->|]; [look; fold top; lia|].
    destruct (decide (r = "rdi")) as [->|]; by look.
  - split_and!; [|done|done|rewrite H4; lia].
    per_register H1; (etrans; [eassumption|by look]).
  - intros x Hx Hne. rewrite Hm by done. by look.
Qed.

Lemma call_set k2 b s R ax k sp :
  let top := regs s "rsp" in
  record_at 8 b size -> outside (top - 8) [b] -> outside (sp - 8) [b] -> holds b R ax k sp (mem s) ->
  exists s', call 8 "rsp" k2 setmcontext (set_reg "rdi" b s) = Some s' /\
    pc s' = k /\ regs s' "rax" = ax /\ regs s' "rsp" = sp /\
    Forall (fun ro => regs s' ro.1 = R ro.1) saved /\
    (forall x, x <> top - 8 -> x <> sp - 8 -> mem s' x = mem s x).
Proof.
  intros top Hb [Hv [Ho _]%Forall_cons] [Hv2 [Ho2 _]%Forall_cons] (H1 & H2 & H3 & H4).
  unfold call, push, store. cbn [regs mem pc set_reg]. look. fold top. rewrite Hv.
  set (s1 := mk_mach _ _ _).
  assert (forall o, 0 <= o <= 184 -> mem s1 (b + o) = mem s (b + o)) as Hin.
  { intros o Hbo. subst s1. cbn. unfold apart in Ho. change size with 800 in Ho. by look. }
  destruct (amd64_set s1 b R ax k sp) as (s' & E & Hpc & Hax & Hsp & HR & Hm);
    [subst s1; cbn; by look| |done|done|done|].
  - split_and!; [|by rewrite Hin by lia..].
    per_register H1; by rewrite Hin by lia.
  - exists s'. split_and!; [done..|]. intros x ??. rewrite Hm by done. subst s1. cbn. by look.
Qed.

(** The registers as the structure at [b] holds them, by field. *)
Definition field_regs (b : Z) (m : Z -> Z) (r : string) : Z := m (b + off ("mc_" +:+ r)).

(** The assembly and the structure agree on where each register is. *)
Lemma holds_fields b m :
  holds b (field_regs b m) (m (b + off "mc_rax")) (m (b + off "mc_rip")) (m (b + off "mc_rsp")) m.
Proof. split_and!; [repeat constructor|done..]. Qed.

Lemma holds_ext b R ax k sp m m' :
  (forall x, b <= x < b + size -> m' x = m x) -> holds b R ax k sp m -> holds b R ax k sp m'.
Proof.
  intros E (H1 & H2 & H3 & H4). change size with 800 in E.
  split_and!; [|by rewrite E by lia..].
  per_register H1; by rewrite E by lia.
Qed.

Definition disjoint (a b : Z) : Prop := a + size <= b \/ b + size <= a.

Lemma swap_spec k1 k2 a b s :
  let top := regs s "rsp" in let sp := mem s (b + off "mc_rsp") in
  record_at 8 a size -> record_at 8 b size -> disjoint a b ->
  outside (top - 8) [a; b] -> outside (sp - 8) [a; b] ->
  exists s', swapcontext k1 k2 a b s = Some s' /\
    pc s' = mem s (b + off "mc_rip") /\ regs s' "rax" = mem s (b + off "mc_rax") /\ regs s' "rsp" = sp /\
    Forall (fun ro => regs s' ro.1 = field_regs b (mem s) ro.1) saved /\
    holds a (<["rdi" := a]> (regs s)) 1 k1 top (mem s') /\
    (forall x, apart x a size -> x <> top - 8 -> x <> sp - 8 -> mem s' x = mem s x).
Proof.
  intros top sp Ha Hb Hab [Hv [Hoa [Hob _]%Forall_cons]%Forall_cons] [Hv2 [Hoa2 [Hob2 _]%Forall_cons]%Forall_cons].
  destruct (call_get k1 a s) as (s1 & E1 & Hpc1 & HR1 & Hh1 & Hm1); [done|by repeat constructor|].
  unfold swapcontext. rewrite E1. unfold swap_rest. rewrite HR1. look. cbn [Z.eqb].
  assert (regs s1 "rsp" = top) as Htop by (rewrite HR1; by look).
  destruct (call_set k2 b s1 (field_regs b (mem s)) (mem s (b + off "mc_rax"))
    (mem s (b + off "mc_rip")) sp) as (s' & E & Hpc & Hax & Hsp & HR & Hm);
    [done|rewrite Htop; by repeat constructor|by repeat constructor| |].
  - eapply holds_ext; [|apply holds_fields]. intros x Hx. unfold apart, disjoint in *. apply Hm1; lia.
  - rewrite Htop in Hm. exists s'. split_and!; [done..| |].
    + eapply holds_ext; [|exact Hh1]. unfold apart in *. intros x Hx. apply Hm; lia.
    + intros x ???. rewrite Hm by done. by apply Hm1.
Qed.

(** C19: A context switch comes back.  [swapcontext(a, b)] goes on where the
    context [b] was saved, on its stack; whatever runs then and leaves the
    structure [a] alone, a [swapcontext(c, a)] returns into the first one at
    its call of [getcontext], with every register it was called with, in the
    branch that returns 0, and has written nothing but the structure [c] and the cells
    below the two stack pointers. *)
Theorem context_resumes k1 k2 a b s :
  record_at 8 a size -> record_at 8 b size -> disjoint a b ->
  outside (regs s "rsp" - 8) [a; b] -> outside (mem s (b + off "mc_rsp") - 8) [a; b] ->
  exists s', swapcontext k1 k2 a b s = Some s' /\
    pc s' = mem s (b + off "mc_rip") /\ regs s' "rsp" = mem s (b + off "mc_rsp") /\
    forall k1' k2' c t,
      record_at 8 c size -> disjoint c a -> outside (regs t "rsp" - 8) [c; a] ->
      outside (regs s "rsp" - 8) [c; a] ->
      (forall x, a <= x < a + size -> mem t x = mem s' x) ->
      exists t', swapcontext k1' k2' c a t = Some t' /\
        pc t' = k1 /\ swap_rest k2 b t' = Some (set_reg "rax" 0 t') /\
        regs t' "rsp" = regs s "rsp" /\ Forall (fun ro => regs t' ro.1 = regs s ro.1) (tail saved) /\
        (forall x, apart x c size -> x <> regs t "rsp" - 8 -> x <> regs s "rsp" - 8 -> mem t' x = mem t x).
Proof.
  intros Ha Hb Hab Ho Ho2. destruct (swap_spec k1 k2 a b s) as (s' & E & Hpc & _ & Hsp & _ & Hh & _); [done..|].
  exists s'. split_and!; [done..|]. intros k1' k2' c t Hc Hca Hot Hos Hsame.
  apply (holds_ext _ _ _ _ _ _ (mem t)) in Hh; [|done].
  destruct Hh as (HR & Hax & Hk & Hrsp).
  destruct (swap_spec k1' k2' c a t) as (t' & E' & Hpc' & Hax' & Hsp' & HR' & _ & Hm'); [done..| |].
  { by replace (mem t (a + off "mc_rsp")) with (regs s "rsp"). }
  change (off "mc_rip") with 160 in *. change (off "mc_rax") with 56 in *. change (off "mc_rsp") with 184 in *.
  exists t'. rewrite Hrsp in Hm', Hsp'. split_and!; [done|by rewrite Hpc'| |done| |done].
  - unfold swap_rest. by rewrite Hax', Hax.
  - repeat (apply Forall_cons in HR as [? HR]; apply Forall_cons in HR' as [? HR']).
    repeat constructor; cbn in *; (etrans; [eassumption|]); (etrans; [eassumption|]); by look.
Qed.

(** Two contexts: one coroutine switches to another and back. *)
Definition two_contexts : mach :=
  mk_mach (<["rsp" := 65536]> (fun _ => 7))
          (<[8192 + 184 := 131072]> (<[8192 + 160 := 500]> (fun _ => 0))) 0.

Ltac contexts_apart :=
  unfold disjoint, outside, apart; change size with 800; change (off "mc_rsp") with 184;
  cbn [two_contexts regs mem]; look;
  match goal with
  | |- _ /\ _ => split; [by vm_compute | repeat (apply Forall_cons; split; [lia|]); by apply Forall_nil]
  | _ => lia
  end.

Lemma context_resumes_witness :
  exists s', swapcontext 100 200 4096 8192 two_contexts = Some s' /\ pc s' = 500 /\
    exists t', swapcontext 300 400 8192 4096 s' = Some t' /\ pc t' = 100 /\ regs t' "rbx" = 7.
Proof.
  destruct (context_resumes 100 200 4096 8192 two_contexts) as (s' & E & Hpc & Hsp & Hres);
    [done|done|contexts_apart..|].
  exists s'. split; [exact E|]. split; [exact Hpc|]. clear E Hpc.
  change (mem two_contexts (8192 + off "mc_rsp")) with 131072 in Hsp.
  destruct (Hres 300 400 8192 s') as (t' & E' & Hpc' & _ & _ & HR & _);
    [done|contexts_apart|rewrite Hsp; contexts_apart|contexts_apart|done|].
  exists t'. split; [exact E'|]. split; [exact Hpc'|]. clear E' Hpc'.
  by apply (Forall_forall _ _) with (x := ("rbx", 64)) in HR; [|do 5 right; left].
Defined.

Lemma entry_valid sp :
  8 <= sp < 2 ^ 64 -> sp mod 16 = 8 -> valid 8 sp = true /\ valid 8 (sp - 8) = true.
Proof.
  intros Hr H16. pose proof (Z.div_mod sp 16 ltac:(lia)).
  unfold valid. rewrite !andb_true_iff, !Z.leb_le, !Z.eqb_eq, !Z.ltb_lt. split_and!; try lia.
  - replace sp with (0 + (1 + sp / 16 * 2) * 8) by lia. by rewrite Z.mod_add.
  - replace (sp - 8) with (0 + (sp / 16 * 2) * 8) by lia. by rewrite Z.mod_add.
Qed.

Lemma make_spec ucp func low high m :
  let stack := ss_sp ucp in let sz := ss_size ucp in let ctx := uc_mcontext ucp in
  0 <= stack -> stack + sz <= 2 ^ 64 -> 64 <= sz -> (ctx + size <= stack \/ stack + sz <= ctx) ->
  exists m' sp, makecontext ucp func 2 [low; high] m = Some m' /\
    sp mod 16 = 8 /\ stack <= sp - 8 /\ sp + 24 <= stack + sz /\ m' sp = 0 /\
    holds ctx (field_regs ctx m') 0 func sp m' /\
    m' (ctx + 8) = u64 (i32 low) /\ m' (ctx + 16) = u64 (i32 high) /\
    (forall x, apart x ctx size -> x <> sp -> m' x = m x).
Proof.
  intros stack sz ctx H0 Hend Hsz Hdis. unfold makecontext. cbn [Z.eqb negb Pos.eqb].
  change size with 800 in *. fold stack sz ctx.
  set (top := stack + 8 * (sz / 8) - 8 * 2). set (sp := top - top mod 16 - 8).
  assert (stack + sz - 23 <= top <= stack + sz - 16) as Htop.
  { pose proof (Z.div_mod sz 8). pose proof (Z.mod_pos_bound sz 8). lia. }
  pose proof (Z.mod_pos_bound top 16 ltac:(lia)) as Hm.
  assert (sp mod 16 = 8) as H16.
  { pose proof (Z.div_mod top 16 ltac:(lia)). replace sp with (8 + (top / 16 - 1) * 16) by lia.
    by rewrite Z.mod_add. }
  destruct (entry_valid sp) as [-> _]; [lia|done|].
  cbn [negb]. set (m' := <[_ := _]> _). exists m', sp.
  change (off "mc_rdi") with 8 in m'. change (off "mc_rsi") with 16 in m'.
  change (off "mc_rip") with 160 in m'. change (off "mc_rsp") with 184 in m'.
  assert (m' (ctx + 56) = 0) as Hax.
  { unfold m'. look. unfold memset. case_match; [done|]. lia. }
  split_and!; [done|done|lia|lia|unfold m'; by look| |unfold m'; by look..|].
  - rewrite <- Hax at 1. replace func with (m' (ctx + 160)) by (unfold m'; by look).
    replace sp with (m' (ctx + 184)) by (unfold m'; by look). apply holds_fields.
  - unfold apart. intros x Hx Hne. unfold m'. look. unfold memset. case_match; [lia|done].
Qed.

(** An argument of 32 bits keeps its value in a register. *)
Lemma arg_roundtrip x : 0 <= x < 2 ^ 32 -> u32 (u64 (i32 x)) = x.
Proof.
  intros Hx. unfold u32, u64, i32. rewrite Z.mod_mod_divide by (by exists (2 ^ 32)).
  rewrite Zminus_mod, Z.mod_mod, <- Zminus_mod by lia. rewrite Z.add_simpl_r. by apply Z.mod_small.
Qed.

Lemma split_range p : 0 <= (split_address p).1 < 2 ^ 32 /\ 0 <= (split_address p).2 < 2 ^ 32.
Proof. unfold split_address. cbn [fst snd]. split; apply u32_range. Qed.

(** C20: A coroutine starts as it was set up.  [TSC_CONTEXT_INIT] with a stack of 64 bytes
    or more writes its context and its stack only; whenever
    the context is then switched to for the first time, with both untouched, the machine is
    at [bootstrap], the two arguments are those that make up the coroutine's address below
    2^48, the stack pointer is inside of the stack and aligned as the calling convention of
    the platform demands (8 modulo 16 at the entry of a function), and the return
    address is 0. *)
Theorem context_starts k bootstrap ctx stack sz p s :
  0 <= p < 2 ^ 64 -> 0 <= stack -> stack + sz <= 2 ^ 64 -> 64 <= sz ->
  record_at 8 ctx size -> (ctx + size <= stack \/ stack + sz <= ctx) -> outside (regs s "rsp" - 8) [ctx] ->
  exists s', TSC_CONTEXT_INIT k bootstrap ctx stack sz p s = Some s' /\
    (forall x, apart x ctx size -> apart x stack sz -> x <> regs s "rsp" - 8 -> mem s' x = mem s x) /\
    forall k2 t,
      outside (regs t "rsp" - 8) [ctx] -> apart (regs t "rsp" - 8) stack sz ->
      (forall x, ctx <= x < ctx + size \/ stack <= x < stack + sz -> mem t x = mem s' x) ->
      exists t', call 8 "rsp" k2 setmcontext (set_reg "rdi" ctx t) = Some t' /\
        pc t' = bootstrap /\
        join_address (u32 (regs t' "rdi")) (u32 (regs t' "rsi")) = p mod 2 ^ 48 /\
        (let sp := regs t' "rsp" in
         sp mod 16 = 8 /\ stack <= sp - 8 /\ sp + 24 <= stack + sz /\ mem t' sp = 0) /\
        (forall x, apart x stack sz -> x <> regs t "rsp" - 8 -> mem t' x = mem t x).
Proof.
  intros Hp H0 Hend Hsz Hctx Hdis Hout. unfold TSC_CONTEXT_INIT.
  pose proof (join_split p Hp) as Hj. pose proof (split_range p) as [Hlow Hhigh].
  destruct (split_address p) as [low high]. cbn [fst snd] in *.
  destruct (call_get k ctx (mk_mach (regs s) (memset ctx size (mem s)) (pc s)))
    as (s1 & E1 & _ & _ & _ & Hm1); [done..|]. cbn [regs mem] in Hm1. rewrite E1. clear E1.
  destruct (make_spec (mk_uctx ctx stack sz) bootstrap low high (mem s1))
    as (m' & sp & E2 & H16 & Hlo & Hhi & Hz & Hh & Hdi & Hsi & Hm2); [done..|]. rewrite E2. clear E2.
  cbn [ss_sp ss_size uc_mcontext] in *.
  eexists. split; [done|]. cbn [mem]. change size with 800 in *. split.
  - unfold apart. intros x Hx1 Hx2 Hx3. rewrite Hm2, Hm1 by (unfold apart; lia).
    unfold memset. case_match; [lia|done].
  - intros k2 t Hot Hot2 Hsame.
    apply (holds_ext _ _ _ _ _ _ (mem t)) in Hh; [|intros; apply Hsame; change size with 800 in *; lia].
    destruct (entry_valid sp) as [_ Hv]; [lia|done|].
    destruct (call_set k2 ctx t (field_regs ctx m') 0 bootstrap sp) as (t' & E & Hpc & _ & Hsp & HR & Hm);
      [done|done|split; [done|]; constructor; [|done]; unfold apart; change size with 800; lia|done|].
    exists t'. split; [exact E|]. split; [done|]. rewrite Hsp.
    apply Forall_cons in HR as [Hr1 [Hr2 _]%Forall_cons].
    change (regs t' "rdi" = m' (ctx + 8)) in Hr1. change (regs t' "rsi" = m' (ctx + 16)) in Hr2.
    rewrite Hr1, Hr2, Hdi, Hsi, !arg_roundtrip by done. unfold apart in *. split_and!; [done..| |].
    + rewrite Hm, Hsame by lia. done.
    + intros x Hx Hne. apply Hm; lia.
Qed.

Lemma context_starts_witness :
  exists s', TSC_CONTEXT_INIT 100 4194304 8192 1048576 1048576 139637976727552 two_contexts = Some s' /\
    exists t', call 8 "rsp" 200 setmcontext (set_reg "rdi" 8192 s') = Some t' /\ pc t' = 4194304 /\
      regs t' "rsp" mod 16 = 8.
Proof.
  destruct (context_starts 100 4194304 8192 1048576 1048576 139637976727552 two_contexts)
    as (s' & E & _ & H); [lia|lia|lia|lia|done|change size with 800; lia|contexts_apart|].
  exists s'. split; [exact E|].
  assert (regs s' "rsp" = 65536) as Hsp.
  { vm_compute in E. injection E as <-. by vm_compute. }
  clear E. destruct (H 200 s') as (t' & E' & Hpc & _ & (H16 & _) & _);
    [rewrite Hsp; contexts_apart|rewrite Hsp; contexts_apart|done|].
  exists t'. split; [exact E'|]. split; [exact Hpc|exact H16].
Defined.
End AMD64.

(** ** 386

    The argument of a function is on the stack, above the return address. *)
Module I386.
Open Scope string_scope. Open Scope list_scope. Open Scope Z_scope.

Definition mcontext_386 : list (string * Z) :=
  [("mc_onstack", 1); ("mc_gs", 1); ("mc_fs", 1); ("mc_es", 1); ("mc_ds", 1); ("mc_edi", 1);
   ("mc_esi", 1); ("mc_ebp", 1); ("mc_isp", 1); ("mc_ebx", 1); ("mc_edx", 1); ("mc_ecx", 1);
   ("mc_eax", 1); ("mc_trapno", 1); ("mc_err", 1); ("mc_eip", 1); ("mc_cs", 1); ("mc_eflags", 1);
   ("mc_esp", 1); ("mc_ss", 1); ("mc_fpregs", 28); ("__spare__", 17)].
Definition off : string -> Z := offset_of 4 mcontext_386.
Definition size : Z := sizeof 4 mcontext_386.

Definition setmcontext_386 : list instr :=
  [Ld 4 "esp" "eax";
   Ld 8 "eax" "fs"; Ld 12 "eax" "es"; Ld 16 "eax" "ds"; Ld 76 "eax" "ss"; Ld 20 "eax" "edi";
   Ld 24 "eax" "esi"; Ld 28 "eax" "ebp"; Ld 36 "eax" "ebx"; Ld 40 "eax" "edx"; Ld 44 "eax" "ecx";
   Ld 72 "eax" "esp";
   Push 60 "eax";
   Ld 48 "eax" "eax";
   Ret].

Definition getmcontext_386 : list instr :=
  [Ld 4 "esp" "eax";
   St "fs" 8 "eax"; St "es" 12 "eax"; St "ds" 16 "eax"; St "ss" 76 "eax"; St "edi" 20 "eax";
   St "esi" 24 "eax"; St "ebp" 28 "eax"; St "ebx" 36 "eax"; St "edx" 40 "eax"; St "ecx" 44 "eax";
   StI 1 48 "eax";
   Ld 0 "esp" "ecx";
   St "ecx" 60 "eax";
   Lea 4 "esp" "ecx";
   St "ecx" 72 "eax";
   Ld 44 "eax" "ecx";
   Li 0 "eax";
   Ret].

(** [memmove] of the [argc] arguments that follow [argc] on the stack. *)
Definition copy_args (sp : Z) (va : list Z) (m : Z -> Z) : Z -> Z :=
  foldl (fun m iv => <[sp + 4 * iv.1 := iv.2]> m) m (zip (seqZ 0 (Z.of_nat (length va))) va).

(** [makecontext] with the arguments [va], [argc] of them. *)
Definition makecontext_386 (ucp : ucontext) (func : Z) (va : list Z) (m : Z -> Z) : option (Z -> Z) :=
  let mc := uc_mcontext ucp in
  let argc := Z.of_nat (length va) in
  let sp := ss_sp ucp + 4 * (ss_size ucp / 4) in
  let sp := sp - 4 * argc in
  let sp := sp - sp mod 16 in
  let m := copy_args sp va m in
  let sp := sp - 4 in
  if negb (valid 4 sp) then None else
  let m := <[sp := 0]> m in
  let m := <[mc + off "mc_eip" := func]> m in
  Some (<[mc + off "mc_esp" := sp]> m).

Definition saved : list (string * Z) :=
  [("fs", 8); ("es", 12); ("ds", 16); ("ss", 76); ("edi", 20); ("esi", 24); ("ebp", 28); ("ebx", 36);
   ("edx", 40); ("ecx", 44)].

Definition holds (b : Z) (R : string -> Z) (ax k sp : Z) (m : Z -> Z) : Prop :=
  Forall (fun ro => m (b + ro.2) = R ro.1) saved /\
  m (b + 48) = ax /\ m (b + 60) = k /\ m (b + 72) = sp.

Lemma i386_get s b top :
  regs s "esp" = top -> mem s (top + 4) = b ->
  record_at 4 b size -> valid 4 top = true -> valid 4 (top + 4) = true -> apart top b size ->
  exists s', run 4 "esp" getmcontext_386 s = Some s' /\
    pc s' = mem s top /\
    (forall r, regs s' r = <["eax" := 0]> (<["esp" := top + 4]> (regs s)) r) /\
    holds b (regs s) 1 (mem s top) (top + 4) (mem s') /\
    (forall x, apart x b size -> mem s' x = mem s x).
Proof.
  intros Hsp Harg Hb Htop Htop4 Hout. change size with 260 in *.
  assert (forall o, field 4 260 o = true -> valid 4 (b + o) = true) as Hv
    by (intros; by apply (valid_field 4 ltac:(lia) b 260)).
  unfold getmcontext_386. step using Hsp, Hsp by Htop4. rewrite Harg.
  set (R := <["eax" := b]> (regs s)).
  assert (R "eax" = b) as Hax by (unfold R; by look).
  assert (R "esp" = top) as Hsp' by (unfold R; by look).
  match goal with |- context [run _ _ ?c _] =>
    change c with (((fun ro => St ro.1 ro.2 "eax") <$> saved) ++ skipn 11 getmcontext_386) end.
  rewrite (run_stores 4 "esp" ltac:(lia) saved "eax" 260) by (unfold set_reg; cbn [regs]; fold R; by rewrite ?Hax).
  unfold set_reg. cbn [regs mem pc]. fold R. rewrite Hax.
  set (m0 := store_all b R saved (mem s)). cbn [skipn getmcontext_386].
  step using Hax, Hsp' by (Hv 48 eq_refl).
  rewrite <- (Z.add_0_r top) in Htop.
  step using Hax, Hsp' by Htop.
  step using Hax, Hsp' by (Hv 60 eq_refl).
  step using Hax, Hsp' by Htop.
  step using Hax, Hsp' by (Hv 72 eq_refl).
  step using Hax, Hsp' by (Hv 44 eq_refl).
  step using Hax, Hsp' by Htop.
  rewrite Z.add_0_r in Htop.
  step using Hax, Hsp' by Htop.
  eexists. split; [done|]. cbn [regs mem pc]. look. rewrite !Z.add_0_r.
  assert (forall x, apart x b 260 -> m0 x = mem s x) as Hm0.
  { unfold apart. intros x Hx. unfold m0. cbn. by look. }
  unfold apart in *. split_and!.
  - look. auto.
  - intros r. destruct (decide (r = "esp")) as [->|]; [by look|].
    destruct (decide (r = "eax")) as [->|]; [by look|].
    destruct (decide (r = "ecx")) as [->|]; [|unfold R; by look]. look. unfold m0. cbn. unfold R. by look.
  - split_and!; [|by look|look; auto|by look].
    repeat constructor; unfold m0; cbn; look; unfold R; by look.
  - intros x Hx. look. auto.
Qed.

Lemma i386_set t b top R ax k sp :
  regs t "esp" = top -> valid 4 (top + 4) = true -> mem t (top + 4) = b -> holds b R ax k sp (mem t) ->
  record_at 4 b size -> valid 4 (sp - 4) = true -> apart (sp - 4) b size ->
  exists t', run 4 "esp" setmcontext_386 t = Some t' /\
    pc t' = k /\ regs t' "eax" = ax /\ regs t' "esp" = sp /\
    Forall (fun ro => regs t' ro.1 = R ro.1) saved /\
    (forall x, x <> sp - 4 -> mem t' x = mem t x).
Proof.
  intros Htop Hv4 Harg (HR & Hax & Hk & Hsp) Hb Hvsp Hout. change size with 260 in *.
  assert (forall o, field 4 260 o = true -> valid 4 (b + o) = true) as Hv
    by (intros; by apply (valid_field 4 ltac:(lia) b 260)).
  unfold setmcontext_386. step using Htop, Htop by Hv4. rewrite Harg.
  match goal with |- context [run _ _ ?c _] =>
    change c with (((fun ro => Ld ro.2 "eax" ro.1) <$> (saved ++ [("esp", 72)])) ++ skipn 12 setmcontext_386) end.
  assert (regs (set_reg "eax" b t) "eax" = b) as Heax by (cbn; by look).
  rewrite (run_loads 4 "esp" ltac:(lia) _ "eax" 260), Heax;
    [|by rewrite Heax|done|by apply (bool_decide_eq_true_1 (_ ∉ _)); vm_compute].
  unfold set_reg. cbn [regs mem pc]. set (R0 := load_all _ _ _ _).
  assert (R0 "eax" = b) as Hax0 by (unfold R0; cbn; by look).
  assert (R0 "esp" = sp) as Hsp0 by (unfold R0; cbn; by look).
  cbn [skipn setmcontext_386].
  step using Hax0, Hsp0 by (Hv 60 eq_refl), Hvsp.
  step using Hax0, Hsp0 by (Hv 48 eq_refl).
  step using Hax0, Hsp0 by Hvsp.
  eexists. split; [done|]. cbn [regs mem pc]. unfold apart in Hout.
  split_and!; [by look|by look|look; lia| |intros x Hx; by look].
  per_register HR; look; unfold R0; cbn; by look.
Qed.

(** [getcontext] returns a second time, with 1, when the context is set. *)
Theorem getcontext_returns_again s b top t top' :
  regs s "esp" = top -> mem s (top + 4) = b -> regs t "esp" = top' -> mem t (top' + 4) = b ->
  record_at 4 b size -> valid 4 top = true -> valid 4 (top + 4) = true -> valid 4 (top' + 4) = true ->
  apart top b size ->
  exists s', run 4 "esp" getmcontext_386 s = Some s' /\ pc s' = mem s top /\ regs s' "eax" = 0 /\
    ((forall x, b <= x < b + size -> mem t x = mem s' x) ->
     exists t', run 4 "esp" setmcontext_386 t = Some t' /\ pc t' = pc s' /\ regs t' "eax" = 1 /\
       regs t' "esp" = regs s' "esp" /\ Forall (fun ro => regs t' ro.1 = regs s ro.1) saved).
Proof.
  intros Hs Hb Ht Hbt Hrec Hv Hv4 Hvt Hout.
  destruct (i386_get s b top) as (s' & E & Hpc & HR & (H1 & H2 & H3 & H4) & _); [done..|].
  exists s'. split_and!; [done|done|rewrite HR; by look|]. intros Hsame. change size with 260 in *.
  destruct (i386_set t b top' (regs s) 1 (mem s top) (top + 4)) as (t' & E' & Hpc' & Hax' & Hsp' & HR' & _);
    [done..| |done| | |].
  - split_and!; [|by rewrite Hsame by lia..].
    per_register H1; by rewrite Hsame by lia.
  - by replace (top + 4 - 4) with top by lia.
  - by replace (top + 4 - 4) with top by lia.
  - exists t'. split_and!; [done|by rewrite Hpc|done|rewrite HR; by look|done].
Qed.

(** The arguments of the new function are where it looks for them, above a return address of 0. *)
Example made_context :
  match makecontext_386 (mk_uctx 4096 65536 8190) 7 [11; 22] (fun _ => 1) with
  | Some m => (m (4096 + 60), m (4096 + 72), m 73708, m 73712, m 73716, (73708 + 4) mod 16)
              = (7, 73708, 0, 11, 22, 0)
  | None => False
  end.
Proof. by vm_compute. Qed.
End I386.

(** ** Power

    The return address is in the link register. *)
Module Power.
Open Scope string_scope. Open Scope list_scope. Open Scope Z_scope.

Definition mcontext_power : list (string * Z) :=
  [("pc", 1); ("cr", 1); ("ctr", 1); ("xer", 1); ("sp", 1); ("toc", 1); ("r3", 1); ("gpr", 19)].
Definition off : string -> Z := offset_of 4 mcontext_power.
Definition size : Z := sizeof 4 mcontext_power.

(** The registers a call preserves, [(i+7)*4] from the start for the i-th. *)
Definition gpr : list (string * Z) :=
  [("r13", (0 + 7) * 4); ("r14", (1 + 7) * 4); ("r15", (2 + 7) * 4); ("r16", (3 + 7) * 4); ("r17", (4 + 7) * 4);
   ("r18", (5 + 7) * 4); ("r19", (6 + 7) * 4); ("r20", (7 + 7) * 4); ("r21", (8 + 7) * 4); ("r22", (9 + 7) * 4);
   ("r23", (10 + 7) * 4); ("r24", (11 + 7) * 4); ("r25", (12 + 7) * 4); ("r26", (13 + 7) * 4);
   ("r27", (14 + 7) * 4); ("r28", (15 + 7) * 4); ("r29", (16 + 7) * 4); ("r30", (17 + 7) * 4);
   ("r31", (18 + 7) * 4)].

Definition _getmcontext : list instr :=
  [Mov "lr" "r0"; Mov "cr" "r5"; Mov "ctr" "r6"; Mov "xer" "r7";
   St "r0" (0 * 4) "r3"; St "r5" (1 * 4) "r3"; St "r6" (2 * 4) "r3"; St "r7" (3 * 4) "r3";
   St "r1" (4 * 4) "r3"; St "r2" (5 * 4) "r3";
   Li 1 "r5"; St "r5" (6 * 4) "r3"]
  ++ ((fun ro => St ro.1 ro.2 "r3") <$> gpr) ++
  [Li 0 "r3"; Br "lr"].

Definition _setmcontext : list instr :=
  ((fun ro => Ld ro.2 "r3" ro.1) <$> gpr) ++
  [Ld (4 * 4) "r3" "r1"; Ld (5 * 4) "r3" "r2";
   Ld (0 * 4) "r3" "r0"; Mov "r0" "lr"; Ld (1 * 4) "r3" "r0"; Mov "r0" "cr";
   Ld (2 * 4) "r3" "r0"; Mov "r0" "ctr"; Ld (3 * 4) "r3" "r0"; Mov "r0" "xer";
   Ld (6 * 4) "r3" "r3"; Br "lr"].

(** [makecontext]: only the first argument is passed on. *)
Definition makecontext_power (ucp : ucontext) (func : Z) (va : list Z) (m : Z -> Z) : option (Z -> Z) :=
  let mc := uc_mcontext ucp in
  let tos := ss_sp ucp + 4 * (ss_size ucp / 4) in
  let sp := tos - 4 * 16 in
  match va with
  | va0 :: _ =>
      Some (<[mc + off "r3" := va0]> (<[mc + off "sp" := sp]> (<[mc + off "pc" := func]> m)))
  | [] => None
  end.

(** What a context keeps: the special registers, the stack and table pointers, and [gpr]. *)
Definition saved : list (string * Z) :=
  [("lr", 0); ("cr", 4); ("ctr", 8); ("xer", 12); ("r1", 16); ("r2", 20)] ++ gpr.

Definition holds (b : Z) (R : string -> Z) (r3 : Z) (m : Z -> Z) : Prop :=
  Forall (fun ro => m (b + ro.2) = R ro.1) saved /\ m (b + 24) = r3.

Lemma power_get s b :
  regs s "r3" = b -> record_at 4 b size ->
  exists s', run 4 "r1" _getmcontext s = Some s' /\ pc s' = regs s "lr" /\ regs s' "r3" = 0 /\
    Forall (fun ro => regs s' ro.1 = regs s ro.1) saved /\ holds b (regs s) 1 (mem s') /\
    (forall x, apart x b size -> mem s' x = mem s x).
Proof.
  intros Hr3 Hb. change size with 104 in *.
  assert (forall o, field 4 104 o = true -> valid 4 (b + o) = true) as Hv
    by (intros; by apply (valid_field 4 ltac:(lia) b 104)).
  unfold _getmcontext. cbn [app].
  do 4 step using Hr3, Hr3 by Hr3.
  step using Hr3, Hr3 by (Hv (0 * 4) eq_refl).
  step using Hr3, Hr3 by (Hv (1 * 4) eq_refl).
  step using Hr3, Hr3 by (Hv (2 * 4) eq_refl).
  step using Hr3, Hr3 by (Hv (3 * 4) eq_refl).
  step using Hr3, Hr3 by (Hv (4 * 4) eq_refl).
  step using Hr3, Hr3 by (Hv (5 * 4) eq_refl).
  step using Hr3, Hr3 by Hr3.
  step using Hr3, Hr3 by (Hv (6 * 4) eq_refl).
  set (R := <["r5" := 1]> _). set (m1 := <[b + 6 * 4 := _]> _).
  assert (R "r3" = b) as Hb3 by (unfold R; by look).
  rewrite (run_stores 4 "r1" ltac:(lia) gpr "r3" 104) by (cbn [regs]; by rewrite ?Hb3).
  cbn [regs mem pc]. rewrite Hb3.
  do 2 step using Hb3, Hb3 by Hb3.
  eexists. split; [done|]. cbn [regs mem pc]. split_and!.
  - unfold R. by look.
  - by look.
  - repeat constructor; cbn; look; unfold R; by look.
  - split; [|unfold m1; cbn; by look].
    repeat constructor; cbn; look; unfold R, m1; by look.
  - unfold apart. intros x Hx. unfold m1. cbn. by look.
Qed.

Lemma power_set t b R r3 :
  regs t "r3" = b -> record_at 4 b size -> holds b R r3 (mem t) ->
  exists t', run 4 "r1" _setmcontext t = Some t' /\ pc t' = R "lr" /\ regs t' "r3" = r3 /\
    Forall (fun ro => regs t' ro.1 = R ro.1) saved /\ mem t' = mem t.
Proof.
  intros Hr3 Hb [HR H3]. change size with 104 in *.
  assert (forall o, field 4 104 o = true -> valid 4 (b + o) = true) as Hv
    by (intros; by apply (valid_field 4 ltac:(lia) b 104)).
  unfold _setmcontext. rewrite (run_loads 4 "r1" ltac:(lia) gpr "r3" 104), Hr3;
    [|by rewrite Hr3|done|by apply (bool_decide_eq_true_1 (_ ∉ _)); vm_compute].
  set (R0 := load_all _ _ _ _).
  assert (R0 "r3" = b) as Hb3 by (unfold R0; cbn; by look).
  step using Hb3, Hb3 by (Hv (4 * 4) eq_refl). step using Hb3, Hb3 by (Hv (5 * 4) eq_refl).
  step using Hb3, Hb3 by (Hv (0 * 4) eq_refl). step using Hb3, Hb3 by Hb3.
  step using Hb3, Hb3 by (Hv (1 * 4) eq_refl). step using Hb3, Hb3 by Hb3.
  step using Hb3, Hb3 by (Hv (2 * 4) eq_refl). step using Hb3, Hb3 by Hb3.
  step using Hb3, Hb3 by (Hv (3 * 4) eq_refl). step using Hb3, Hb3 by Hb3.
  step using Hb3, Hb3 by (Hv (6 * 4) eq_refl). step using Hb3, Hb3 by Hb3.
  eexists. split; [done|]. cbn [regs mem pc].
  repeat (apply Forall_cons in HR as [? HR]). cbn in *.
  split_and!; [by look|by look| |done].
  repeat constructor; cbn; look; first [done|unfold R0; cbn; by look].
Qed.

(** [getcontext] returns a second time, with 1, when the context is set. *)
Theorem power_returns_again s b t :
  regs s "r3" = b -> regs t "r3" = b -> record_at 4 b size ->
  exists s', run 4 "r1" _getmcontext s = Some s' /\ pc s' = regs s "lr" /\ regs s' "r3" = 0 /\
    ((forall x, b <= x < b + size -> mem t x = mem s' x) ->
     exists t', run 4 "r1" _setmcontext t = Some t' /\ pc t' = pc s' /\ regs t' "r3" = 1 /\
       Forall (fun ro => regs t' ro.1 = regs s ro.1) saved).
Proof.
  intros Hs Ht Hb. destruct (power_get s b) as (s' & E & Hpc & Hr3 & _ & [H1 H2] & _); [done..|].
  exists s'. split_and!; [done..|]. intros Hsame. change size with 104 in *.
  destruct (power_set t b (regs s) 1) as (t' & E' & Hpc' & Hr3' & HR' & _); [done|done| |].
  - split; [|by rewrite Hsame by lia].
    per_register H1; by rewrite Hsame by lia.
  - exists t'. split_and!; [done|by rewrite Hpc|done..].
Qed.
End Power.
