(* ===== verification/Clock.v ===== *)
(** * The clock thread and the profiler (src/clock.c)

    [clock_routine] is a loop without end; a round of it is a function of the
    runtime as it finds it after [pselect].  The averages are computed with
    doubles in the source, here with rationals: rounding is not modelled. *)

From S2P Require Import Prelude Queue RunQueue Scheduler SchedInv.
From Stdlib Require Import QArith Qfield.
Open Scope Z_scope.

(** [__coroc_get_vpu_ready] *)
Definition __coroc_get_vpu_ready (v : vpu) : Z :=
  u32 (foldl (fun ready pq =>
         if runqhead pq <? runqtail pq then u64 (ready + u32 (runqtail pq - runqhead pq)) else ready)
       0 (xt v)).

(** [AVG(avg, cur, samples)] *)
Definition AVG (avg : Q) (cur samples : Z) : Q :=
  (avg * inject_Z samples + inject_Z cur) / (inject_Z samples + 1).

Record profile := mk_profile {
  avg_alive : Q; avg_idle : Q; avg_ready : Q; avg_total : Q; avg_ready_pervpu : list Q
}.

(** What a round does to the outside, in order. *)
Inductive clock_event : Type :=
| send_clock_signal (v : nat)     (* TSC_OS_THREAD_SENDSIG(vpu[v].os_thr, TSC_CLOCK_SIGNAL) *)
| poll_network                    (* __coroc_netpoll_polling(0) *)
| print_profile.                  (* coroc_profiler_print *)

(** The list every coroutine is in; its [status] counts them. *)
Definition coroutines_total (w : world) : Z :=
  match queues (links w) !! None with Some q => qstatus q | None => 0 end.

(** [coroc_profiler_initialize] *)
Definition coroc_profiler_initialize (p : Z) : bool := negb (p =? 0).

(** [avg_ready_pervpu] is from [calloc]. *)
Definition profile_start (w : world) : profile :=
  mk_profile 0 0 0 0 (replicate (Z.to_nat (xt_index (mgr w))) 0%Q).

Definition profile_round (samples : Z) (w : world) (p : profile) : profile :=
  mk_profile
    (AVG (avg_alive p) (alive (mgr w)) samples)
    (AVG (avg_idle p) (idle (mgr w)) samples)
    (AVG (avg_ready p) (total_ready (mgr w)) samples)
    (AVG (avg_total p) (coroutines_total w) samples)
    (zip_with (fun a v => AVG a (__coroc_get_vpu_ready v) samples) (avg_ready_pervpu p) (take (Z.to_nat (xt_index (mgr w))) (vpus w))).

(** A round of [clock_routine]. *)
Definition clock_round (ENABLE_TIMESHARE do_profile : bool) (samples : Z) (w : world) (p : profile) :
    list clock_event * profile :=
  let events := if ENABLE_TIMESHARE
                then (send_clock_signal <$> seq 0 (Z.to_nat (xt_index (mgr w)))) ++ [poll_network] else [] in
  if negb do_profile then (events, p) else
  (events ++ (if samples mod 2000 =? 0 then [print_profile] else []), profile_round samples w p).

(** [clock_routine] as far as it has come: a round for each of the states it found. *)
Fixpoint clock_routine (ENABLE_TIMESHARE do_profile : bool) (samples : Z) (ws : list world) (p : profile) :
    list clock_event * profile :=
  match ws with
  | [] => ([], p)
  | w :: ws =>
      let '(ev, p) := clock_round ENABLE_TIMESHARE do_profile samples w p in
      let '(evs, p) := clock_routine ENABLE_TIMESHARE do_profile (u64 (samples + 1)) ws p in
      (ev ++ evs, p)
  end.

Lemma counted_ring (pq : p_task_que coid) l :
  runq_rep pq l ->
  (if runqhead pq <? runqtail pq then u32 (runqtail pq - runqhead pq) else 0) =
  if runqhead pq + Z.of_nat (length l) <? 2 ^ 32 then Z.of_nat (length l) else 0.
Proof.
  intros [_ Hh Ht Hl _]. rewrite Ht. unfold TSC_TASK_NUM_PERPRIO in Hl. unfold u32.
  destruct (Z.ltb_spec (runqhead pq + Z.of_nat (length l)) (2 ^ 32)).
  - rewrite (Z.mod_small (_ + _)) by lia. replace (_ + _ - _) with (Z.of_nat (length l)) by lia.
    rewrite Z.mod_small by lia. case_match; lia.
  - replace (runqhead pq + Z.of_nat (length l)) with (runqhead pq + Z.of_nat (length l) - 2 ^ 32 + 1 * 2 ^ 32) by lia.
    rewrite Z.mod_add by lia. rewrite Z.mod_small by lia. case_match; lia.
Qed.

(** The ready count of a VPU: the lengths of its rings, those left out whose
    tail counter has wrapped round and whose head counter has not. *)
Definition seen (pq : p_task_que coid) (l : list coid) : Z :=
  if runqhead pq + Z.of_nat (length l) <? 2 ^ 32 then Z.of_nat (length l) else 0.

Lemma seen_range pq l : 0 <= seen pq l <= Z.of_nat (length l).
Proof. unfold seen. case_match; lia. Qed.

Lemma ready_fold pqs Ls acc :
  Forall2 runq_rep pqs Ls -> 0 <= acc -> acc + 512 * Z.of_nat (length pqs) < 2 ^ 64 ->
  foldl (fun ready pq =>
    if runqhead pq <? runqtail pq then u64 (ready + u32 (runqtail pq - runqhead pq)) else ready) acc pqs
  = acc + sumz (fun pl => seen pl.1 pl.2) (zip pqs Ls).
Proof.
  intros H. revert acc. induction H as [|pq l pqs Ls R H IH]; intros acc Ha Hb; [cbn; lia|].
  pose proof (rq_len _ _ R) as Hl. unfold TSC_TASK_NUM_PERPRIO in Hl.
  pose proof (counted_ring pq l R) as Hc. cbn [foldl zip_with sumz fst snd]. cbn [length] in Hb.
  fold (seen pq l) in Hc. pose proof (seen_range pq l).
  destruct (runqhead pq <? runqtail pq); [rewrite Hc, u64_small by lia|rewrite <- Hc]; rewrite IH by lia; lia.
Qed.

(** The profiler never counts a task that is not there, and counts all of
    them unless the counters of a ring have just wrapped round. *)
Theorem ready_count_spec v Ls :
  Forall2 runq_rep (xt v) Ls -> (length (xt v) <= 4)%nat ->
  __coroc_get_vpu_ready v = sumz (fun pl => seen pl.1 pl.2) (zip (xt v) Ls) /\
  __coroc_get_vpu_ready v <= sumz (fun l => Z.of_nat (length l)) Ls /\
  (Forall2 (fun pq l => runqhead pq + Z.of_nat (length l) < 2 ^ 32) (xt v) Ls ->
   __coroc_get_vpu_ready v = sumz (fun l => Z.of_nat (length l)) Ls).
Proof.
  intros H Hn. assert (0 <= sumz (fun pl => seen pl.1 pl.2) (zip (xt v) Ls) <= 512 * Z.of_nat (length (xt v))) as Hb.
  { clear Hn. induction H as [|pq l pqs Ls R H IH]; [cbn; lia|]. cbn [zip_with sumz fst snd length].
    pose proof (rq_len _ _ R) as Hl. unfold TSC_TASK_NUM_PERPRIO in Hl.
    pose proof (seen_range pq l). lia. }
  assert (__coroc_get_vpu_ready v = sumz (fun pl => seen pl.1 pl.2) (zip (xt v) Ls)) as ->.
  { unfold __coroc_get_vpu_ready. rewrite (ready_fold _ Ls) by (done || lia). rewrite Z.add_0_l. apply u32_small. lia. }
  split; [done|]. clear Hn Hb. split.
  - induction H as [|pq l pqs Ls R H IH]; [done|]. cbn [zip_with sumz fst snd].
    pose proof (seen_range pq l). lia.
  - intros Hw. induction Hw as [|pq l pqs Ls Hlt Hw IH]; [done|]. cbn [zip_with sumz fst snd].
    inversion H; subst. rewrite IH by done. unfold seen. apply Z.ltb_lt in Hlt. by rewrite Hlt.
Qed.

(** Two tasks in a ring around the wrap of its counters are not counted. *)
Example wrapped_not_counted :
  __coroc_get_vpu_ready
    (mk_vpu 0 0 0 0 None None [mk_pq (T := coid) 0 (replicate 512 (Some 1%nat)) (2 ^ 32 - 1) 1] None) = 0.
Proof. by vm_compute. Qed.

Close Scope Z_scope. Open Scope Q_scope.

Lemma AVG_sum a c n : (0 <= n)%Z -> AVG a c n * inject_Z (n + 1) == a * inject_Z n + inject_Z c.
Proof.
  intros Hn. unfold AVG. rewrite inject_Z_plus. change (inject_Z 1) with 1%Q. field.
  intros E. assert (inject_Z n + 1 == inject_Z (n + 1)) as E2 by (by rewrite inject_Z_plus).
  rewrite E2 in E. unfold Qeq in E. cbn in E. lia.
Qed.

(** Each average is the mean of what the rounds found. *)
Theorem averages_are_means ts ws p n :
  (0 <= n)%Z -> (n + Z.of_nat (length ws) < 2 ^ 64)%Z ->
  let q := (clock_routine ts true n ws p).2 in
  let N := inject_Z (n + Z.of_nat (length ws)) in
  avg_ready q * N == avg_ready p * inject_Z n + inject_Z (sumz (fun w => total_ready (mgr w)) ws) /\
  avg_alive q * N == avg_alive p * inject_Z n + inject_Z (sumz (fun w => alive (mgr w)) ws) /\
  avg_idle q * N == avg_idle p * inject_Z n + inject_Z (sumz (fun w => idle (mgr w)) ws) /\
  avg_total q * N == avg_total p * inject_Z n + inject_Z (sumz coroutines_total ws).
Proof.
  revert n p. induction ws as [|w ws IH]; intros n p Hn Hlt; cbn zeta.
  { cbn [length sumz clock_routine snd]. rewrite Z.add_0_r. change (inject_Z 0) with 0. 
    split_and!; ring. }
  cbn [clock_routine clock_round negb]. cbn [length] in Hlt |- *.
  rewrite u64_small by lia.
  specialize (IH (n + 1)%Z (profile_round n w p) ltac:(lia) ltac:(lia)). cbn zeta in IH.
  destruct (clock_routine ts true (n + 1) ws (profile_round n w p)) as [evs q]. cbn [snd] in *.
  replace (n + Z.of_nat (S (length ws)))%Z with (n + 1 + Z.of_nat (length ws))%Z by lia.
  destruct IH as (H1 & H2 & H3 & H4). rewrite H1, H2, H3, H4. unfold profile_round.
  cbn [avg_ready avg_alive avg_idle avg_total sumz]. rewrite !AVG_sum, !inject_Z_plus by done.
  split_and!; ring.
Qed.
