(* ===== verification/Primes.v ===== *)
(** * A program on channels: the sieve (examples/C/primes.c)

    [main] sends 2, 3, 4, ... into a channel without buffer; each coroutine
    [primetask] takes the first number it receives for a prime, prints it,
    starts the next one and passes on what its prime does not divide.  A send on
    a channel without buffer and the receive that takes it are one step (the
    meeting of the two that Channel.v establishes); the coroutines interleave freely
    otherwise.  When a number above [goal] would be printed the process exits. *)

From Stdlib Require Import Znumtheory.
From S2P Require Import Prelude.

(** A coroutine [primetask]. *)
Inductive stage : Type :=
| t_first              (* at its first receive *)
| t_recv (p : Z)       (* in the loop, at the receive *)
| t_send (p i : Z).    (* at the send of [i] *)

(** [next] is what [main] sends; the stages are in the order of the channels. *)
Record sieve := mk_sieve { next : Z; stages : list stage; printed : list Z; exited : bool }.

Section sieve.
Variable goal : Z.

(** A stage receives [v]: the stages that take its place and what is printed;
    [None]: the process exits. *)
Definition receive (st : stage) (v : Z) : option (list stage * list Z) :=
  match st with
  | t_first => if goal <? v then None else Some ([t_recv v; t_first], [v])
  | t_recv p => Some ([if negb (v mod p =? 0) then t_send p v else t_recv p], [])
  | t_send _ _ => Some ([st], [])
  end.
Definition receives (st : stage) : bool := match st with t_send _ _ => false | _ => true end.

Definition sieve_start : sieve := mk_sieve 2 [t_first] [] false.

Definition deliver (nx : Z) (before : list stage) (st : stage) (v : Z) (after : list stage) (s : sieve) : sieve :=
  match receive st v with
  | Some (sts, out) => mk_sieve nx (before ++ sts ++ after) (printed s ++ out) false
  | None => mk_sieve nx (stages s) (printed s) true
  end.

(** [unsigned long] has 64 bits: [main] is stopped before its number wraps round. *)
Inductive sieve_step (s : sieve) : sieve -> Prop :=
| main_sends st rest : exited s = false -> stages s = st :: rest -> receives st -> next s + 1 < 2 ^ 64 ->
    sieve_step s (deliver (u64 (next s + 1)) [] st (next s) rest s)
| stage_sends before p v st rest : exited s = false -> stages s = before ++ t_send p v :: st :: rest ->
    receives st ->
    sieve_step s (deliver (next s) (before ++ [t_recv p]) st v rest s).

(** ** The invariant

    [upto f qs l]: the first stage of [l] has received exactly the numbers from 2
    below [f] that no prime of [qs] divides. *)
Definition hit (qs : list Z) (n : Z) : Prop := Exists (fun q => (q | n)) qs.

Fixpoint upto (f : Z) (qs : list Z) (l : list stage) : Prop :=
  match l with
  | [] => False
  | [t_first] => forall n, 2 <= n < f -> hit qs n
  | t_first :: _ => False
  | t_recv p :: l =>
      2 <= p < f /\ ~ hit qs p /\ (forall n, 2 <= n < p -> hit qs n) /\ upto f (qs ++ [p]) l
  | t_send p v :: l =>
      2 <= p < v /\ v < f /\ ~ hit qs p /\ (forall n, 2 <= n < p -> hit qs n) /\
      ~ hit (qs ++ [p]) v /\ (forall n, v < n < f -> hit qs n) /\ upto v (qs ++ [p]) l
  end.

Fixpoint heads (l : list stage) : list Z :=
  match l with
  | [] => []
  | t_first :: l => heads l
  | t_recv p :: l | t_send p _ :: l => p :: heads l
  end.

Lemma hit_app qs q n : hit (qs ++ [q]) n <-> hit qs n \/ (q | n).
Proof. unfold hit. rewrite Exists_app, Exists_cons, Exists_nil. tauto. Qed.

Lemma upto_skip l : forall f qs, 2 <= f -> upto f qs l -> hit qs f -> upto (f + 1) qs l.
Proof.
  induction l as [|[|p|p v] l IH]; intros f qs Hf; cbn; [done|..].
  - destruct l; [|done]. intros H Hh n Hn. destruct (decide (n = f)) as [->|]; [done|]. apply H. lia.
  - intros (? & ? & ? & Hu) Hh. split_and!; try done; try lia. apply IH; [done|done|]. rewrite hit_app. by left.
  - intros (? & ? & ? & ? & ? & Hv & Hu) Hh. split_and!; try done; try lia.
    intros n Hn. destruct (decide (n = f)) as [->|]; [done|]. apply Hv. lia.
Qed.

Lemma upto_skips l f g qs : 2 <= f -> f <= g -> upto f qs l -> (forall n, f <= n < g -> hit qs n) -> upto g qs l.
Proof.
  intros Hf Hfg Hu. replace g with (f + Z.of_nat (Z.to_nat (g - f))) by lia.
  induction (Z.to_nat (g - f)) as [|k IH]; intros Hh; [by rewrite Z.add_0_r|].
  replace (f + Z.of_nat (S k)) with (f + Z.of_nat k + 1) by lia.
  apply upto_skip; [lia|apply IH; intros; apply Hh; lia|apply Hh; lia].
Qed.

Lemma receive_ok st rest v qs sts out :
  2 <= v -> ~ hit qs v -> upto v qs (st :: rest) -> receives st -> receive st v = Some (sts, out) ->
  upto (v + 1) qs (sts ++ rest) /\ heads (sts ++ rest) = heads (st :: rest) ++ out /\
  (out = [] \/ rest = [] /\ heads [st] = []).
Proof.
  intros Hv Hn Hu Hr E. destruct st as [|p|p i]; [..|done]; cbn in E.
  - destruct (goal <? v); [done|]. injection E as <- <-. destruct rest; [|done].
    split_and!; [|done|by right]. cbn in Hu |- *. split_and!; try done; try lia.
    intros n Hnv. rewrite hit_app. destruct (decide (n = v)) as [->|]; [by right|]. left. apply Hu. lia.
  - injection E as <- <-. cbn in Hu. destruct Hu as (Hp & Hnp & Hlow & Hu).
    destruct (Z.eqb_spec (v mod p) 0) as [Hd|Hd]; cbn; rewrite app_nil_r.
    + apply Z.mod_divide in Hd; [|lia]. split_and!; try done; try lia; [|by left].
      apply upto_skip; [done|done|]. rewrite hit_app. by right.
    + split_and!; try done; try lia; [|by left].
      rewrite hit_app. intros [?|Hdv]; [done|]. by apply Z.mod_divide in Hdv; [|lia].
Qed.

(** The same for a stage in the middle: what was sent is off its hands. *)
Lemma upto_middle before p v st rest sts out : forall f qs, 2 <= f ->
  upto f qs (before ++ t_send p v :: st :: rest) -> receives st -> receive st v = Some (sts, out) ->
  upto f qs ((before ++ [t_recv p]) ++ sts ++ rest) /\
  heads ((before ++ [t_recv p]) ++ sts ++ rest) = heads (before ++ t_send p v :: st :: rest) ++ out.
Proof.
  induction before as [|b before IH]; intros f qs Hf Hu Hr E.
  - cbn in Hu |- *. destruct Hu as (Hp & Hvf & Hnp & Hlow & Hn & Hgap & Hu).
    destruct (receive_ok st rest v (qs ++ [p]) sts out) as (Hu' & Hh & _); try done; [lia|].
    rewrite Hh. split_and!; try done; try lia.
    apply (upto_skips _ (v + 1)); [lia|lia|done|]. intros n Hnn. rewrite hit_app. left. apply Hgap. lia.
  - destruct b as [|q|q i]; cbn in Hu |- *.
    + by destruct before.
    + destruct Hu as (? & ? & ? & Hu). destruct (IH f (qs ++ [q])) as [Hu' Hh]; try done.
      cbn in Hh. rewrite Hh. done.
    + destruct Hu as (? & ? & ? & ? & ? & ? & Hu). destruct (IH i (qs ++ [q])) as [Hu' Hh]; try done; [lia|].
      cbn in Hh. rewrite Hh. done.
Qed.

(** ** What the stages hold *)

Lemma hit_prime qs p : 2 <= p -> ~ hit qs p -> (forall n, 2 <= n < p -> hit qs n) -> prime p.
Proof.
  intros Hp Hn Hlow. destruct (prime_dec p) as [|Hc]; [done|]. exfalso.
  destruct (not_prime_divide p ltac:(lia) Hc) as (n & Hnp & Hd). apply Hn.
  specialize (Hlow n ltac:(lia)). unfold hit in *. eapply Exists_impl; [exact Hlow|].
  cbn. intros q Hq. by transitivity n.
Qed.

Lemma prime_2 r : prime r -> 2 <= r.
Proof. intros []. lia. Qed.

Lemma prime_divisor q r : prime r -> 2 <= q -> (q | r) -> q = r.
Proof.
  intros [Hr Hrel] Hq Hd. apply Z.divide_pos_le in Hd as Hle; [|lia]. destruct (decide (q = r)); [done|].
  destruct (Hrel q ltac:(lia)) as [_ _ Hg]. specialize (Hg q (Z.divide_refl q) Hd).
  apply Z.divide_pos_le in Hg; lia.
Qed.

Lemma hit_in qs r : Forall (fun q => 2 <= q) qs -> prime r -> hit qs r -> r ∈ qs.
Proof.
  intros Hq Hr (q & Hin & Hd)%Exists_exists. rewrite Forall_forall in Hq. specialize (Hq q Hin).
  by rewrite <- (prime_divisor q r).
Qed.

Lemma upto_primes l : forall f qs, upto f qs l -> Forall prime (heads l).
Proof.
  induction l as [|[|p|p v] l IH]; intros f qs Hu; cbn in *; [constructor|..].
  - destruct l; [constructor|done].
  - destruct Hu as (? & ? & ? & Hu). constructor; [eapply hit_prime; [lia|done..]|by eapply IH].
  - destruct Hu as (? & ? & ? & ? & ? & ? & Hu). constructor; [eapply hit_prime; [lia|done..]|by eapply IH].
Qed.

Lemma upto_above l : forall f qs, upto f qs l -> Forall (fun p => ~ hit qs p) (heads l).
Proof.
  induction l as [|[|p|p v] l IH]; intros f qs Hu; cbn in *; [constructor|..].
  - destruct l; [constructor|done].
  - destruct Hu as (? & ? & ? & Hu). constructor; [done|]. eapply Forall_impl; [by eapply IH|].
    cbn. intros q. rewrite hit_app. tauto.
  - destruct Hu as (? & ? & ? & ? & ? & ? & Hu). constructor; [done|]. eapply Forall_impl; [by eapply IH|].
    cbn. intros q. rewrite hit_app. tauto.
Qed.

Lemma above_later p qs l f : (forall n, 2 <= n < p -> hit qs n) -> upto f (qs ++ [p]) l -> Forall (Z.lt p) (heads l).
Proof.
  intros Hlow Hu. pose proof (upto_above l f _ Hu) as Ha. pose proof (upto_primes l f _ Hu) as Hp.
  rewrite Forall_forall in *. intros q Hq. specialize (Ha q Hq). specialize (Hp q Hq). rewrite hit_app in Ha.
  pose proof (prime_2 q Hp). destruct (decide (q = p)) as [->|]; [by destruct Ha; right|].
  destruct (decide (p < q)); [done|]. destruct Ha. left. apply Hlow. lia.
Qed.

Lemma upto_sorted l : forall f qs, upto f qs l -> StronglySorted Z.lt (heads l).
Proof.
  induction l as [|[|p|p v] l IH]; intros f qs Hu; cbn in *; [constructor|..].
  - destruct l; [constructor|done].
  - destruct Hu as (? & ? & ? & Hu). constructor; [by eapply IH|by eapply above_later].
  - destruct Hu as (? & ? & ? & ? & ? & ? & Hu). constructor; [by eapply IH|by eapply above_later].
Qed.

Lemma upto_complete l : forall f qs, upto f qs l -> Forall (fun q => 2 <= q) qs ->
  forall x r, x ∈ heads l -> prime r -> r <= x -> r ∈ qs ++ heads l.
Proof.
  assert (forall p qs l f, 2 <= p -> (forall n, 2 <= n < p -> hit qs n) ->
    Forall (fun q => 2 <= q) qs ->
    (forall x r, x ∈ heads l -> prime r -> r <= x -> r ∈ (qs ++ [p]) ++ heads l) ->
    upto f (qs ++ [p]) l ->
    forall x r, x ∈ p :: heads l -> prime r -> r <= x -> r ∈ qs ++ p :: heads l) as Hstep.
  { intros p qs l' f Hp Hlow Hqs IH Hu x r [->|Hx]%elem_of_cons Hr Hle.
    - destruct (decide (r = p)) as [->|]; [set_solver|]. pose proof (prime_2 r Hr).
      apply elem_of_app. left. apply hit_in; [done|done|]. apply Hlow. lia.
    - specialize (IH x r Hx Hr Hle). by rewrite <- app_assoc in IH. }
  induction l as [|[|p|p v] l IH]; intros f qs Hu Hqs; cbn in *; [set_solver|..].
  - destruct l; [set_solver|done].
  - destruct Hu as (? & ? & ? & Hu). eapply Hstep; [lia|done|done| |done].
    eapply IH; [done|]. apply Forall_app. split; [done|]. constructor; [lia|constructor].
  - destruct Hu as (? & ? & ? & ? & ? & ? & Hu). eapply Hstep; [lia|done|done| |done].
    eapply IH; [done|]. apply Forall_app. split; [done|]. constructor; [lia|constructor].
Qed.

(** When the last stage is about to receive [v], every number below is accounted for. *)
Lemma upto_last before p v rest : forall f qs, upto f qs (before ++ t_send p v :: t_first :: rest) ->
  rest = [] /\ forall n, 2 <= n < v -> hit (qs ++ heads (before ++ [t_send p v])) n.
Proof.
  induction before as [|b before IH]; intros f qs Hu.
  - cbn in Hu. destruct Hu as (_ & _ & _ & _ & _ & _ & Hu). destruct rest; [|done]. done.
  - destruct b as [|q|q i]; cbn in Hu.
    + by destruct before.
    + destruct Hu as (_ & _ & _ & Hu). destruct (IH _ _ Hu) as [-> Hh]. split; [done|].
      cbn. by rewrite <- app_assoc in Hh.
    + destruct Hu as (_ & _ & _ & _ & _ & _ & Hu). destruct (IH _ _ Hu) as [-> Hh]. split; [done|].
      cbn. by rewrite <- app_assoc in Hh.
Qed.

Lemma heads_app l k : heads (l ++ k) = heads l ++ heads k.
Proof. induction l as [|[] l IH]; cbn; by rewrite ?IH. Qed.

Definition exact (s : sieve) : Prop :=
  StronglySorted Z.lt (printed s) /\ Forall prime (printed s) /\
  (forall x r, x ∈ printed s -> prime r -> r <= x -> r ∈ printed s).

Record sieve_inv (s : sieve) : Prop := {
  si_next : 2 <= next s;
  si_exact : exact s;
  si_goal : Forall (fun p => p <= goal) (printed s);
  si_run : exited s = false -> upto (next s) [] (stages s) /\ printed s = heads (stages s);
  si_exit : exited s = true -> forall r, prime r -> r <= goal -> r ∈ printed s
}.

Lemma upto_exact f l nx b : upto f [] l -> exact (mk_sieve nx l (heads l) b).
Proof.
  intros Hu. split_and!; cbn; [by eapply upto_sorted|by eapply upto_primes|].
  intros x r. by eapply (upto_complete l f []).
Qed.

Lemma sieve_start_inv : sieve_inv sieve_start.
Proof.
  split; cbn; [lia|split_and!; cbn; [constructor|constructor|set_solver]|constructor| |done].
  intros _. split; [lia|done].
Qed.

(** A number is received by a stage of a sieve that runs. *)
Lemma deliver_inv s nx before st v rest :
  sieve_inv s -> exited s = false -> 2 <= nx ->
  (forall sts out, receive st v = Some (sts, out) ->
     upto nx [] (before ++ sts ++ rest) /\ heads (before ++ sts ++ rest) = printed s ++ out) ->
  (st = t_first -> forall n, 2 <= n < v -> hit (printed s) n) ->
  sieve_inv (deliver nx before st v rest s).
Proof.
  intros I He Hnx Hrec Hfirst. unfold deliver. destruct (receive st v) as [[sts out]|] eqn:E.
  - destruct (Hrec sts out eq_refl) as [Hu Hh]. split; cbn; try done.
    + rewrite <- Hh. by eapply upto_exact.
    + apply Forall_app. split; [apply I|]. destruct st; cbn in E; [|by simplify_eq..].
      destruct (Z.ltb_spec goal v); [done|]. simplify_eq. constructor; [lia|constructor].
  - split; cbn; try done; [apply I..|]. intros _ r Hr Hle. destruct st; cbn in E; [|done..].
    destruct (Z.ltb_spec goal v); [|done].
    apply hit_in; [|done|apply Hfirst; [done|]; pose proof (prime_2 r Hr); lia].
    destruct (si_exact _ I) as (_ & Hp & _). eapply Forall_impl; [exact Hp|]. cbn. intros q. apply prime_2.
Qed.

Lemma sieve_step_inv s s' : sieve_inv s -> sieve_step s s' -> sieve_inv s'.
Proof.
  intros I []; destruct (si_run _ I) as [Hu Hp]; try done; pose proof (si_next _ I) as Hn.
  - rewrite u64_small by lia. rewrite H0 in Hu, Hp. apply deliver_inv; [done|done|lia|..].
    + intros sts out E. cbn [app]. destruct (receive_ok st rest (next s) [] sts out) as (Hu' & Hh & _); try done.
      { intros Hh. by apply Exists_nil in Hh. } split; [done|]. by rewrite Hp.
    + intros ->. rewrite Hp. cbn in Hu |- *. destruct rest; [|done]. exact Hu.
  - rewrite H0 in Hu, Hp. apply deliver_inv; [done|done|lia|..].
    + intros sts out E. rewrite Hp. by apply upto_middle.
    + intros ->. rewrite Hp. destruct (upto_last before p v rest _ _ Hu) as [-> Hh].
      rewrite heads_app in Hh |- *. cbn in Hh |- *. done.
Qed.

Lemma reach_sieve s : rtc sieve_step sieve_start s -> sieve_inv s.
Proof. generalize sieve_start_inv. intros I R. induction R; eauto using sieve_step_inv. Qed.

(** Two neighbours one of which sends and the other receives. *)
Lemma sender_found l : forall f qs, upto f qs l -> (exists st r, l = st :: r /\ receives st) \/
  exists before p v st rest, l = before ++ t_send p v :: st :: rest /\ receives st.
Proof.
  induction l as [|[|p|p v] l IH]; intros f qs Hu; cbn in Hu; [done|left; by eexists _, _..|].
  right. destruct Hu as (_ & _ & _ & _ & _ & _ & Hu).
  destruct (IH _ _ Hu) as [(st & r & -> & Hr)|(b & q & i & st & r & -> & Hr)].
  - by exists [], p, v, st, r.
  - by exists (t_send p v :: b), q, i, st, r.
Qed.

(** The program prints the primes: at any time, under any interleaving, what it
    has printed are the first primes in ascending order, none above [goal]; when it
    exits they are all the primes up to [goal]; and until then some coroutine can go on. *)
Theorem primes_correct s : rtc sieve_step sieve_start s ->
  exact s /\ Forall (fun p => p <= goal) (printed s) /\
  (exited s = true -> forall r, prime r -> r <= goal -> r ∈ printed s) /\
  (exited s = false -> next s + 1 < 2 ^ 64 -> exists s', sieve_step s s').
Proof.
  intros I%reach_sieve. split_and!; [apply I..|]. intros He Hn.
  destruct (si_run _ I He) as [Hu _].
  destruct (sender_found _ _ _ Hu) as [(st & r & E & Hr)|(b & q & i & st & r & E & Hr)].
  - eexists. by eapply main_sends.
  - eexists. by eapply stage_sends.
Qed.
End sieve.

(** The program with [goal] 4: it exits with 2 and 3 printed. *)
Example primes_run : rtc (sieve_step 4) sieve_start (mk_sieve 6 [t_recv 2; t_send 3 5; t_first] [2; 3] true).
Proof.
  do 2 (eapply rtc_l; [eapply main_sends; vm_compute; reflexivity|]; vm_compute).
  eapply rtc_l; [eapply (stage_sends _ _ []); vm_compute; reflexivity|]; vm_compute.
  do 2 (eapply rtc_l; [eapply main_sends; vm_compute; reflexivity|]; vm_compute).
  eapply rtc_l; [eapply (stage_sends _ _ []); vm_compute; reflexivity|]; vm_compute.
  eapply rtc_l; [eapply (stage_sends _ _ [t_recv 2]); vm_compute; reflexivity|]; vm_compute.
  apply rtc_refl.
Qed.
