(* ===== verification/Findmax.v ===== *)
(** * Programs that divide and conquer (examples/C/findmax.c, findmax_msg.c)

    [find_max] gets its part of an array, by channel or by message, gives the
    halves of it to two coroutines and sends back the greater of their answers.
    A parent only waits for its children and a child sends its answer once, so
    a call of [find_max] is what it sends, [None] when it exits without sending; reading outside
    the array is a fault.  The answers of two children to one mailbox come in an order that
    the scheduler chooses: it is a parameter. *)

From S2P Require Import Prelude.

Definition read (array : list Z) (i : Z) : res Z :=
  if i <? 0 then Err OutOfBounds else
  match array !! Z.to_nat i with Some v => Ok v | None => Err OutOfBounds end.

(** [check_max_elem(array, size, max)], the loop from [i] on with [size - i = n]. *)
Fixpoint check_from (array : list Z) (n : nat) (i max : Z) : res bool :=
  match n with
  | O => Ok true
  | S n => match read array i with
           | Err f => Err f
           | Ok v => if max <? v then Ok false else check_from array n (i + 1) max
           end
  end.
Definition check_max_elem (array : list Z) (size max : Z) : res bool := check_from array (Z.to_nat size) 0 max.

(** ** Over channels: the part is a size and a start in the shared array *)
Fixpoint find_max (fuel : nat) (array : list Z) (size start : Z) : res (option Z) :=
  match fuel with
  | O => Err OutOfFuel
  | S fuel =>
      if size <=? 0 then Ok None else
      match read array start, read array (start + 1) with
      | Ok m0, Ok m1 =>
          if 1 <? size then
            if 2 <? size then
              let sz0 := Z.quot size 2 in
              let sz1 := size - sz0 in
              match find_max fuel array sz0 start, find_max fuel array sz1 (start + sz0) with
              | Ok (Some m0), Ok (Some m1) => Ok (Some (if m0 <? m1 then m1 else m0))
              | Ok _, Ok _ => Ok None
              | Err f, _ | _, Err f => Err f
              end
            else Ok (Some (if m0 <? m1 then m1 else m0))
          else Ok (Some m0)
      | Err f, _ | _, Err f => Err f
      end
  end.

(** [main]: the answer and whether the check of it passes. *)
Definition findmax_main (array : list Z) : res (option (Z * bool)) :=
  let size := Z.of_nat (length array) in
  match find_max (length array) array size 0 with
  | Err f => Err f
  | Ok None => Ok None
  | Ok (Some max) =>
      match check_max_elem array size max with Ok b => Ok (Some (max, b)) | Err f => Err f end
  end.

(** ** Over messages: the part is a copy of it

    [first buf]: the answer of the first child arrives first. *)
Fixpoint find_max_msg (first : list Z -> bool) (fuel : nat) (buf : list Z) : res (option Z) :=
  match fuel with
  | O => Err OutOfFuel
  | S fuel =>
      let size := Z.of_nat (length buf) in
      if size <? 1 then Ok None else
      match read buf 0 with
      | Err f => Err f
      | Ok b0 =>
          if 1 <? size then
            if 2 <? size then
              let sz0 := Z.to_nat (Z.quot size 2) in
              match find_max_msg first fuel (take sz0 buf), find_max_msg first fuel (drop sz0 buf) with
              | Ok (Some r0), Ok (Some r1) =>
                  let '(b0, b1) := if first buf then (r0, r1) else (r1, r0) in
                  Ok (Some (if b0 <? b1 then b1 else b0))
              | Ok _, Ok _ => Ok None
              | Err f, _ | _, Err f => Err f
              end
            else match read buf 1 with
                 | Ok b1 => Ok (Some (if b0 <? b1 then b1 else b0))
                 | Err f => Err f
                 end
          else Ok (Some b0)
      end
  end.

(** ** The answers are maxima *)

Definition is_max (m : Z) (l : list Z) : Prop := m ∈ l /\ Forall (fun x => x <= m) l.
Definition part (array : list Z) (size start : Z) : list Z := take (Z.to_nat size) (drop (Z.to_nat start) array).

Lemma is_max_app a b l k : is_max a l -> is_max b k -> is_max (if a <? b then b else a) (l ++ k).
Proof.
  intros [Ha Hl] [Hb Hk]. split.
  - apply elem_of_app. case_match; auto.
  - apply Forall_app. destruct (Z.ltb_spec a b); split; (eapply Forall_impl; [eassumption|cbn; lia]).
Qed.

Lemma is_max_swap a b l k : is_max a l -> is_max b k -> is_max (if b <? a then a else b) (l ++ k).
Proof.
  intros Ha Hb. pose proof (is_max_app _ _ _ _ Ha Hb) as H.
  destruct (Z.ltb_spec a b), (Z.ltb_spec b a); try lia; try done. by replace b with a by lia.
Qed.

Lemma is_max_one a : is_max a [a].
Proof. split; [set_solver|]. constructor; [lia|constructor]. Qed.

Lemma read_ok array i : 0 <= i < Z.of_nat (length array) ->
  exists v, read array i = Ok v /\ array !! Z.to_nat i = Some v.
Proof.
  intros Hi. destruct (lookup_lt_is_Some_2 array (Z.to_nat i)) as [v Hv]; [lia|]. exists v.
  unfold read. destruct (Z.ltb_spec i 0); [lia|]. by rewrite Hv.
Qed.

Lemma part_split array size start k : 0 <= k <= size -> 0 <= start ->
  part array size start = part array k start ++ part array (size - k) (start + k).
Proof.
  intros Hk Hs. unfold part. replace (Z.to_nat size) with (Z.to_nat k + Z.to_nat (size - k))%nat by lia.
  replace (Z.to_nat (start + k)) with (Z.to_nat start + Z.to_nat k)%nat by lia.
  rewrite <- drop_drop. symmetry. apply take_take_drop.
Qed.

Lemma part_one array start v : 0 <= start -> array !! Z.to_nat start = Some v -> part array 1 start = [v].
Proof. intros Hs Hv. unfold part. rewrite (drop_S _ _ _ Hv). done. Qed.

Lemma half n : 3 <= n -> 1 <= Z.quot n 2 < n /\ 2 <= n - Z.quot n 2.
Proof.
  intros Hn. rewrite Z.quot_div_nonneg by lia. pose proof (Z.div_mod n 2 ltac:(lia)).
  pose proof (Z.mod_pos_bound n 2 ltac:(lia)). lia.
Qed.

Lemma find_max_ok fuel : forall array size start,
  1 <= size -> 0 <= start -> start + size <= Z.of_nat (length array) -> start + 1 < Z.of_nat (length array) ->
  (Z.to_nat size <= fuel)%nat ->
  exists m, find_max fuel array size start = Ok (Some m) /\ is_max m (part array size start).
Proof.
  induction fuel as [|fuel IH]; intros array size start Hsz Hst Hend Hone Hf; [lia|].
  cbn [find_max]. destruct (Z.leb_spec size 0); [lia|].
  destruct (read_ok array start) as (m0 & -> & Hm0); [lia|].
  destruct (read_ok array (start + 1)) as (m1 & -> & Hm1); [lia|].
  destruct (Z.ltb_spec 1 size).
  2: { replace size with 1 by lia. exists m0. split; [done|]. rewrite (part_one _ _ _ Hst Hm0). apply is_max_one. }
  destruct (Z.ltb_spec 2 size).
  - pose proof (half size ltac:(lia)) as Hk.
    destruct (IH array (Z.quot size 2) start) as (a & -> & Ha); [lia..|].
    destruct (IH array (size - Z.quot size 2) (start + Z.quot size 2)) as (b & -> & Hb); [lia..|].
    eexists. split; [done|]. rewrite (part_split _ _ _ (Z.quot size 2)) by lia. by apply is_max_app.
  - replace size with 2 by lia. eexists. split; [done|]. rewrite (part_split _ _ _ 1) by lia.
    change (2 - 1) with 1.
    rewrite (part_one _ _ _ Hst Hm0), (part_one array (start + 1) m1) by (done || lia). apply is_max_app; apply is_max_one.
Qed.

Lemma check_ok array m : Forall (fun x => x <= m) array -> forall n i,
  0 <= i -> i + Z.of_nat n <= Z.of_nat (length array) -> check_from array n i m = Ok true.
Proof.
  intros Hm. rewrite Forall_forall in Hm. induction n as [|n IH]; intros i Hi Hn; [done|]. cbn [check_from].
  destruct (read_ok array i) as (v & -> & Hv); [lia|]. apply list_elem_of_lookup_2, Hm in Hv.
  destruct (Z.ltb_spec m v); [lia|]. apply IH; lia.
Qed.

(** With an array of two elements or more the program reads inside the array only,
    ends, prints the maximum, and its own check of it passes. *)
Theorem findmax_correct array : (2 <= length array)%nat ->
  exists m, findmax_main array = Ok (Some (m, true)) /\ is_max m array.
Proof.
  intros Hl. destruct (find_max_ok (length array) array (Z.of_nat (length array)) 0) as (m & E & Hm); [lia..|].
  unfold part in Hm. rewrite drop_0, take_ge in Hm by lia. exists m. split; [|done].
  unfold findmax_main, check_max_elem. rewrite E. rewrite (check_ok array m); [done|apply Hm|lia|lia].
Qed.

(** With messages the answer is the maximum whichever child answers first. *)
Theorem findmax_msg_correct first fuel : forall buf, (1 <= length buf <= fuel)%nat ->
  exists m, find_max_msg first fuel buf = Ok (Some m) /\ is_max m buf.
Proof.
  induction fuel as [|fuel IH]; intros buf Hl; [lia|]. cbn [find_max_msg].
  destruct (Z.ltb_spec (Z.of_nat (length buf)) 1); [lia|].
  destruct (read_ok buf 0) as (b0 & -> & Hb0); [lia|].
  destruct (Z.ltb_spec 1 (Z.of_nat (length buf))).
  2: { destruct buf as [|x [|y buf]]; cbn in *; try lia. injection Hb0 as <-. exists x. split; [done|]. apply is_max_one. }
  destruct (Z.ltb_spec 2 (Z.of_nat (length buf))).
  - pose proof (half (Z.of_nat (length buf)) ltac:(lia)) as Hq.
    set (k := Z.to_nat (Z.quot (Z.of_nat (length buf)) 2)).
    assert (1 <= k < length buf)%nat as Hk by lia.
    destruct (IH (take k buf)) as (r0 & -> & Hr0); [rewrite length_take; lia|].
    destruct (IH (drop k buf)) as (r1 & -> & Hr1); [rewrite length_drop; lia|].
    pose proof (is_max_app _ _ _ _ Hr0 Hr1) as H1'. pose proof (is_max_swap _ _ _ _ Hr0 Hr1) as H2'.
    rewrite take_drop in H1', H2'. destruct (first buf); eauto.
  - destruct buf as [|x [|y [|z buf]]]; cbn in *; try lia. injection Hb0 as <-. eexists. split; [done|].
    apply (is_max_app x y [x] [y]); apply is_max_one.
Qed.

(** One element: the program looks at a second one. *)
Example one_element_faults : findmax_main [5] = Err OutOfBounds.
Proof. reflexivity. Qed.
