(* ===== verification/TimerNotify.v ===== *)
(** * The timer daemon with a note (src/time.c with ENABLE_NOTIFY, src/notify.c)

    In a Linux build the daemon does not poll: it sleeps on a note until the
    first timer of the heap is due, and adding a timer sets the key of the note
    to wake it.  The operations on the heap are those of Timer.v; [asleep] is
    the time up to which the daemon sleeps.  A sleep ends when the key is set or that
    time has come (Boot.v has the loop of the sleep), and the key is cleared. *)

From S2P Require Import Prelude Timer TimerProps.

Create HintDb keep.

Section notify.
Context {W : Type} `{TimerEnv W}.

Record ntimers := mk_nt { tw : tworld W; note_key : Z; asleep : option Z }.
Definition set_tw v w := mk_nt v (note_key w) (asleep w).
Definition set_note_key v w := mk_nt (tw w) v (asleep w).
Definition set_asleep v w := mk_nt (tw w) (note_key w) v.
Definition heap {A} (m : ST (tworld W) A) : ST ntimers A := zoom tw set_tw m.

(** [coroc_notify_wakeup]: the key from 0 to 1, and then FUTEX_WAKE. *)
Definition coroc_notify_wakeup : ST ntimers unit :=
  modify (fun w => if note_key w =? 0 then set_note_key 1 w else w).
Definition coroc_notify_clear : ST ntimers unit := modify (set_note_key 0).

(** [coroc_add_intertimer] up to the size. *)
Definition add_insert (garbage : list (option tid)) (t : tid) : ST (tworld W) Z :=
  do! tlock_acquire in
  let! w := get in
  do! (if cap w =? tsize w then
         modify (fun w => set_timers (timers w ++ garbage) (set_cap (i32 (cap w * 2)) w))
       else ret tt) in
  let size := tsize w in
  do! set_slot size t in
  do! upd_timer t (set_index size) in
  do! up size in
  do! modify (fun w => set_tsize (i32 (tsize w + 1)) w) in
  ret size.

Definition coroc_add_intertimer_n (garbage : list (option tid)) (t : tid) : ST ntimers Z :=
  let! size := heap (add_insert garbage t) in
  let! w := get in
  match daemon (tw w) with
  | None => do! heap coroc_intertimer_start in do! heap tlock_release in ret 0
  | Some d =>
      if size =? 0 then
        if tsuspend (tw w) then
          do! heap (modify (set_tsuspend false)) in
          do! heap tlock_release in
          do! heap (on_env (te_ready d)) in
          ret 0
        else do! heap tlock_release in ret 0
      else
        do! coroc_notify_wakeup in
        do! heap tlock_release in
        ret 0
  end.

(** A round of [coroc_intertimer_routine] at [now], up to its sleep. *)
Definition coroc_intertimer_routine_n (now : Z) : ST ntimers unit :=
  do! heap tlock_acquire in
  let! w := get in
  let! size := heap (fire (S (Z.to_nat (tsize (tw w)))) now (tsize (tw w))) in
  if size =? 0 then
    do! heap (modify (set_tsuspend true)) in
    do! heap (on_env te_suspend) in
    heap tlock_release
  else
    let! t := heap (slot 0) in
    let! x := heap (get_timer t) in
    let left := i64 (1000 * u64 (when x - now)) in
    do! heap tlock_release in
    modify (set_asleep (if 0 <? left then Some (when x) else None)).

(** The end of the sleep. *)
Definition daemon_wakes : ST ntimers unit :=
  do! modify (set_asleep None) in coroc_notify_clear.
Definition may_wake (now : Z) (w : ntimers) : Prop :=
  exists d, asleep w = Some d /\ (note_key w <> 0 \/ d <= now).

(** ** The daemon does not oversleep *)

(** While it sleeps no timer of the heap is due before it wakes. *)
Definition prompt (w : ntimers) (l : list tid) : Prop :=
  forall d, asleep w = Some d -> note_key w <> 0 \/ forall t, t ∈ l -> d <= key (tw w) t.

Context `{!TimerEnvTotal}.

Definition add_finish (size : Z) : ST (tworld W) Z :=
  let! w := get in
  match daemon w with
  | None => do! coroc_intertimer_start in do! tlock_release in ret 0
  | Some d =>
      if (size =? 0) && tsuspend w then
        do! modify (set_tsuspend false) in
        do! tlock_release in
        do! on_env (te_ready d) in
        ret 0
      else do! tlock_release in ret 0
  end.

Lemma add_split garbage t w :
  coroc_add_intertimer garbage t w = (let! size := add_insert garbage t in add_finish size) w.
Proof.
  unfold coroc_add_intertimer, add_insert, add_finish, bind, get, ret.
  destruct (tlock_acquire w) as [[[] w1]|]; [|done].
  match goal with |- context [(if cap w1 =? tsize w1 then ?a else ?b) w1] =>
    destruct ((if cap w1 =? tsize w1 then a else b) w1) as [[[] w2]|]; [|done] end.
  destruct (set_slot (tsize w1) t w2) as [[[] w3]|]; [|done].
  destruct (upd_timer t (set_index (tsize w1)) w3) as [[[] w4]|]; [|done].
  destruct (up (tsize w1) w4) as [[[] w5]|]; [|done]. done.
Qed.

(** What happens to the heap leaves the daemon's record alone. *)
Definition keeps {A} (m : ST (tworld W) A) : Prop := forall w a w', m w = Ok (a, w') -> daemon w' = daemon w.

Lemma keeps_bind {A B} (m : ST (tworld W) A) (k : A -> ST (tworld W) B) :
  keeps m -> (forall a, keeps (k a)) -> keeps (bind m k).
Proof. intros Hm Hk w b w' (a & w1 & E1 & E2)%bind_inv. by rewrite (Hk _ _ _ _ E2), (Hm _ _ _ E1). Qed.
Lemma keeps_get_timer t : keeps (get_timer t).
Proof. intros w a w' E. unfold get_timer in E. case_match; by simplify_eq. Qed.
Lemma keeps_upd t f : keeps (upd_timer t f).
Proof. intros w a w' E. unfold upd_timer in E. case_match; by simplify_eq. Qed.
Lemma keeps_slot i : keeps (slot i).
Proof. intros w a w' E. unfold slot in E. repeat case_match; by simplify_eq. Qed.
Lemma keeps_set_slot i t : keeps (set_slot i t).
Proof. intros w a w' E. unfold set_slot in E. repeat case_match; by simplify_eq. Qed.
Lemma keeps_ret {A} (a : A) : keeps (ret a).
Proof. intros w b w' [= <- <-]. done. Qed.
Hint Resolve keeps_get_timer keeps_upd keeps_slot keeps_set_slot keeps_ret : keep.
Ltac keep := repeat (apply keeps_bind; [|intros]); eauto with keep.

Lemma keeps_when_at i : keeps (when_at i).
Proof. unfold when_at. keep. Qed.
Lemma keeps_exchange i j : keeps (__exchange_heap i j).
Proof. unfold __exchange_heap. keep. Qed.
Hint Resolve keeps_when_at keeps_exchange : keep.
Lemma keeps_up n : forall cur, keeps (__up_adjust_heap n cur).
Proof.
  induction n as [|n IH]; intros cur; [by intros w a w' E|]. cbn [__up_adjust_heap].
  destruct (cur =? 0); [keep|]. keep. destruct (_ <? _); keep.
Qed.

Lemma add_insert_keeps garbage t w size w1 : add_insert garbage t w = Ok (size, w1) ->
  size = tsize w /\ daemon w1 = daemon w.
Proof.
  intros E. unfold add_insert in E. apply bind_inv in E as ([] & w0 & E0 & E).
  unfold tlock_acquire in E0. destruct (tlock w); [done|]. injection E0 as <-.
  apply bind_inv in E as (? & ? & [= <- <-] & E). cbn [cap tsize set_tlock] in E.
  apply bind_inv in E as ([] & w2 & E2 & E).
  assert (daemon w2 = daemon w) as Hd by (destruct (cap w =? tsize w); by injection E2 as <-).
  apply bind_inv in E as ([] & w3 & E3 & E). apply keeps_set_slot in E3.
  apply bind_inv in E as ([] & w4 & E4 & E). apply keeps_upd in E4.
  apply bind_inv in E as ([] & w5 & E5 & E). apply keeps_up in E5.
  apply bind_inv in E as ([] & w6 & [= <-] & E). injection E as <- <-. cbn. split; [done|congruence].
Qed.

Lemma heap_ok {A} (m : ST (tworld W) A) w a v : m (tw w) = Ok (a, v) -> heap m w = Ok (a, set_tw v w).
Proof. apply zoom_ok. Qed.

(** Adding a timer is the operation of Timer.v on the heap, and sets the key
    exactly when there is a daemon and the heap was not empty. *)
Lemma add_n_ok garbage t w w' : coroc_add_intertimer garbage t (tw w) = Ok (0, w') ->
  coroc_add_intertimer_n garbage t w =
    Ok (0, mk_nt w' (if bool_decide (daemon (tw w) = None) || (tsize (tw w) =? 0) || negb (note_key w =? 0)
                     then note_key w else 1) (asleep w)).
Proof.
  rewrite add_split. intros (size & w1 & E1 & E2)%bind_inv.
  destruct (add_insert_keeps _ _ _ _ _ E1) as [-> Hd]. unfold coroc_add_intertimer_n.
  rewrite (bind_ok _ _ _ _ _ (heap_ok _ _ _ _ E1)). erewrite bind_ok by reflexivity. cbn [tw set_tw].
  unfold add_finish in E2. erewrite bind_ok in E2 by reflexivity. rewrite Hd in E2 |- *.
  destruct (daemon (tw w)) as [d|].
  - rewrite bool_decide_eq_false_2 by done. cbn [orb].
    destruct (Z.eqb_spec (tsize (tw w)) 0) as [E0|E0]; cbn [andb orb] in *.
    + destruct (tsuspend w1).
      * apply bind_inv in E2 as ([] & w2 & Ea & E2). rewrite (bind_ok _ _ _ _ _ (heap_ok _ (set_tw w1 w) _ _ Ea)).
        apply bind_inv in E2 as ([] & w3 & Eb & E2). rewrite (bind_ok _ _ _ _ _ (heap_ok _ (set_tw w2 w) _ _ Eb)).
        apply bind_inv in E2 as ([] & w4 & Ec & E2). rewrite (bind_ok _ _ _ _ _ (heap_ok _ (set_tw w3 w) _ _ Ec)).
        injection E2 as <-. done.
      * apply bind_inv in E2 as ([] & w2 & Ea & E2). rewrite (bind_ok _ _ _ _ _ (heap_ok _ (set_tw w1 w) _ _ Ea)).
        injection E2 as <-. done.
    + apply bind_inv in E2 as ([] & w2 & Ea & E2). injection E2 as <-.
      unfold coroc_notify_wakeup. erewrite bind_ok by reflexivity. cbn [note_key set_tw].
      destruct (Z.eqb_spec (note_key w) 0) as [Hk|Hk]; cbn [negb];
        (erewrite bind_ok; [reflexivity|]); unfold heap, zoom; cbn; by rewrite Ea.
  - rewrite bool_decide_eq_true_2 by done. cbn [orb].
    apply bind_inv in E2 as ([] & w2 & Ea & E2). rewrite (bind_ok _ _ _ _ _ (heap_ok _ (set_tw w1 w) _ _ Ea)).
    apply bind_inv in E2 as ([] & w3 & Eb & E2). rewrite (bind_ok _ _ _ _ _ (heap_ok _ (set_tw w2 w) _ _ Eb)).
    injection E2 as <-. done.
Qed.

Lemma hinv_same (w w' : tworld W) l : hinv w l -> tms w' = tms w -> timers w' = timers w -> cap w' = cap w -> tsize w' = tsize w ->
  hinv w' l.
Proof.
  intros [R1 S1 S2 S3 S4] E1 E2 E3 E4. split; [|by rewrite E4|by rewrite E3, E2| |done].
  - apply (hrep_ext w); [done|intros; by rewrite E2|intros; by rewrite E1].
  - apply (hord_ext (keys w l)); [|done]. intros i _. symmetry. apply keys_ext. intros u _. unfold key. by rewrite E1.
Qed.

Lemma routine_n_ok now w l :
  hinv (tw w) l -> tlock (tw w) = false -> asleep w = None -> 0 <= now -> now + 2 ^ 32 <= 2 ^ 64 ->
  (forall t x, t ∈ l -> tms (tw w) !! t = Some x -> 0 <= period x < 2 ^ 32) ->
  exists w' l', coroc_intertimer_routine_n now w = Ok (tt, w') /\ hinv (tw w') l' /\ tlock (tw w') = false /\
    daemon (tw w') = daemon (tw w) /\ prompt w' l' /\ (forall t, t ∈ l' -> now < key (tw w') t) /\
    l' ≡ₚ filter (stays (tw w) now) l.
Proof.
  intros I Hlk Ha H1 H2 Hp. set (w0 := set_tlock true (tw w)).
  assert (hinv w0 l) as I0 by (by eapply hinv_same).
  destruct (fire_ok now H1 H2 (S (length l)) w0 l I0 Hp) as (w1 & l' & L & E & I1 & F).
  { pose proof (length_filter (due w0 now) l). lia. }
  pose proof (fd_rest _ _ _ _ _ _ F) as Fr. injection Fr as X1 X2 X3 X4.
  unfold coroc_intertimer_routine_n.
  rewrite (bind_ok _ _ _ tt (set_tw w0 w)) by (apply heap_ok; unfold tlock_acquire; by rewrite Hlk).
  erewrite bind_ok by reflexivity. cbn [tw set_tw w0 set_tlock tsize]. rewrite (hi_size _ _ I), Nat2Z.id.
  rewrite (bind_ok _ _ _ _ _ (heap_ok _ (set_tw w0 w) _ _ E)). cbn [set_tw note_key asleep].
  destruct l' as [|t r].
  - change (Z.of_nat (length []) =? 0) with true. cbn [set_tw tw]. destruct (tt_suspend (env w1)) as [e Ee].
    exists (set_tw (set_tlock false (set_env e (set_tsuspend true w1))) w), []. split_and!.
    + erewrite bind_ok by (apply heap_ok; reflexivity). cbn [set_tw tw note_key asleep].
      erewrite bind_ok by (apply heap_ok; apply zoom_ok; exact Ee). cbn [set_tw tw note_key asleep].
      etrans; [apply heap_ok; unfold tlock_release; cbn; by rewrite X1|reflexivity].
    + by eapply hinv_same.
    + done.
    + done.
    + intros d Hd. cbn in Hd. congruence.
    + set_solver.
    + exact (fd_left _ _ _ _ _ _ F).
  - change (Z.of_nat (length (t :: r)) =? 0) with false. cbn [set_tw tw].
    destruct (hr_idx _ _ (hi_rep _ _ I1) 0 t eq_refl) as (x & Hx & _).
    pose proof (slot_ok w1 _ 0 t (hi_rep _ _ I1) eq_refl) as Es. cbn in Es.
    erewrite bind_ok by (apply heap_ok; exact Es). cbn [set_tw tw].
    erewrite bind_ok by (apply heap_ok; unfold get_timer; cbn; by rewrite Hx). cbn [set_tw tw].
    erewrite bind_ok by (apply heap_ok; unfold tlock_release; cbn; by rewrite X1). cbn [set_tw tw].
    eexists _, (t :: r). split; [reflexivity|]. cbn [tw set_asleep]. split_and!; [by eapply hinv_same|done|done| | |exact (fd_left _ _ _ _ _ _ F)].
    + intros d Hd. cbn in Hd. case_match; [|done]. injection Hd as <-. right. intros u Hu.
      pose proof (hinv_root _ _ _ I1 u Hu) as Hr. unfold key in *. cbn. by rewrite Hx in Hr.
    + intros u Hu. apply (fd_late _ _ _ _ _ _ F u Hu).
Qed.

(** A system with the daemon: the program adds and deletes timers, and changes
    timers that are not in the heap; a timer is added to an empty heap only
    while the daemon does not sleep.  [l] are the timers in the heap. *)
Inductive nreach : ntimers -> list tid -> Prop :=
| nr_start w l : hinv (tw w) l -> tlock (tw w) = false -> asleep w = None -> nreach w l
| nr_round now w l w' l' : nreach w l -> asleep w = None -> daemon (tw w) <> None ->
    0 <= now -> now + 2 ^ 32 <= 2 ^ 64 ->
    (forall t x, t ∈ l -> tms (tw w) !! t = Some x -> 0 <= period x < 2 ^ 32) ->
    coroc_intertimer_routine_n now w = Ok (tt, w') -> hinv (tw w') l' -> nreach w' l'
| nr_wake now w l w' : nreach w l -> may_wake now w -> daemon_wakes w = Ok (tt, w') -> nreach w' l
| nr_add garbage t x w l w' l' : nreach w l -> t ∉ l -> tms (tw w) !! t = Some x ->
    (cap (tw w) = tsize (tw w) -> length garbage = length (timers (tw w))) -> cap (tw w) * 2 < 2 ^ 31 ->
    asleep w = None \/ l <> [] ->
    coroc_add_intertimer_n garbage t w = Ok (0, w') -> hinv (tw w') l' -> nreach w' l'
| nr_del t i w l w' l' : nreach w l -> l !! i = Some t -> del_in_order (tw w) l i ->
    heap (coroc_del_intertimer t) w = Ok (0, w') -> hinv (tw w') l' -> nreach w' l'
| nr_change t x w l : nreach w l -> t ∉ l -> nreach (set_tw (set_tms (<[t := x]> (tms (tw w))) (tw w)) w) l.

Lemma hinv_unique (w : tworld W) l l' : hinv w l -> hinv w l' -> l = l'.
Proof.
  intros I I'. assert (length l = length l') as El by (pose proof (hi_size _ _ I); pose proof (hi_size _ _ I'); lia).
  apply (list_eq_same_length _ _ (length l)); [done|done|]. intros i x y _ Hx Hy.
  pose proof (hr_arr _ _ (hi_rep _ _ I) _ _ Hx). pose proof (hr_arr _ _ (hi_rep _ _ I') _ _ Hy). congruence.
Qed.

Record ninv (w : ntimers) (l : list tid) : Prop := {
  ni_heap : hinv (tw w) l;
  ni_lock : tlock (tw w) = false;
  ni_prompt : prompt w l;
  ni_daemon : asleep w <> None -> daemon (tw w) <> None
}.

Lemma key_facts (w w' : tworld W) t : facts <$> tms w' !! t = facts <$> tms w !! t -> key w' t = key w t.
Proof. by apply facts_key. Qed.

Lemma add_ninv garbage t x w l w' l' : ninv w l -> t ∉ l -> tms (tw w) !! t = Some x ->
  (cap (tw w) = tsize (tw w) -> length garbage = length (timers (tw w))) -> cap (tw w) * 2 < 2 ^ 31 ->
  asleep w = None \/ l <> [] ->
  coroc_add_intertimer_n garbage t w = Ok (0, w') -> hinv (tw w') l' -> ninv w' l'.
Proof.
  intros [I Hl P D] Ht Hx Hg Hc Hne E I'.
  destruct (add_ok garbage (tw w) l t x I Hl Ht Hx Hg Hc) as (v & l2 & Ev & Hl2 & I2 & P2 & F & T).
  rewrite (add_n_ok _ _ _ _ Ev) in E. injection E as <-. cbn [tw] in I'.
  rewrite (hinv_unique _ _ _ I' I2). split; cbn; try done.
  - intros d Hd. cbn in Hd |- *. rewrite Hd in D, Hne. specialize (D ltac:(done)).
    rewrite bool_decide_eq_false_2 by done. pose proof (hi_size _ _ I).
    destruct (Z.eqb_spec (tsize (tw w)) 0); [destruct l; [naive_solver|cbn in *; lia]|]. cbn [orb].
    left. destruct (Z.eqb_spec (note_key w) 0); cbn; lia.
  - intros Ha. specialize (D Ha). unfold told in T. destruct (daemon (tw w)); [|done]. destruct T as [-> _]. done.
Qed.

Lemma notified_inv w l : nreach w l -> ninv w l.
Proof.
  induction 1 as [w l I Hl Ha|now w l w' l' R [I Hl P D] Ha Hd H1 H2 Hp E I'|now w l w' R [I Hl P D] M E
                 |garbage t x w l w' l' R IH Ht Hx Hg Hc Hne E I'|t i w l w' l' R [I Hl P D] Hi Ho E I'|t x w l R [I Hl P D] Ht].
  - split; [done|done| |congruence]. intros d Hd. congruence.
  - destruct (routine_n_ok now w l I Hl Ha H1 H2 Hp) as (v & l2 & Ev & I2 & Hl2 & Hd2 & P2 & _).
    rewrite E in Ev. injection Ev as <-. rewrite (hinv_unique _ _ _ I' I2). split; try done. congruence.
  - injection E as <-. split; cbn; try done.
  - by eapply add_ninv.
  - destruct (del_ok _ _ _ _ I Hl Hi) as (v & l2 & Ev & Hl2 & _ & _ & Pm & F & Ed & Io).
    rewrite (heap_ok _ _ _ _ Ev) in E. injection E as <-. cbn [tw set_tw] in I'.
    rewrite (hinv_unique _ _ _ I' (Io Ho)). injection Ed as _ Ed. split; cbn; [by apply Io|done| |by rewrite Ed].
    intros d Hd. cbn in Hd |- *. destruct (P d Hd) as [?|Hk]; [by left|right]. intros u Hu.
    rewrite (key_facts _ _ _ (F u)). apply Hk. rewrite <- Pm. by right.
  - split; cbn; [by apply hinv_other|done| |done].
    intros d Hd. cbn in Hd |- *. destruct (P d Hd) as [?|Hk]; [by left|right]. intros u Hu.
    unfold key. cbn. rewrite lookup_insert_ne; [by apply Hk|]. by intros ->.
Qed.

End notify.
Arguments ntimers : clear implicits.

(** ** Programs *)

Definition run_n {A} (m : ST (ntimers (list tcall)) A) (w : ntimers (list tcall)) : ntimers (list tcall) :=
  match m w with Ok (_, w') => w' | Err _ => w end.

(** Timers at 10, 20 and 30; at time 5 the daemon goes to sleep until 10, and a
    timer for 5 is added. *)
Definition dozing : ntimers (list tcall) := run_n (coroc_intertimer_routine_n 5) (mk_nt three 0 None).
Definition nudged : ntimers (list tcall) := run_n (coroc_add_intertimer_n [] 4) dozing.

Lemma dozing_reachable : exists l, (4%nat ∉ l) /\ l <> [] /\ hinv (tw dozing) l /\ nreach dozing l.
Proof.
  destruct three_inv as (l & Pl & I & Hl).
  assert (forall t x, t ∈ l -> tms three !! t = Some x -> 0 <= period x < 2 ^ 32) as Hp.
  { intros t x Ht Hx. rewrite Pl in Ht. clear -Ht Hx.
    repeat (apply elem_of_cons in Ht as [->|Ht]; [vm_compute in Hx; injection Hx as <-; cbn; lia|]).
    destruct (not_elem_of_nil _ Ht). }
  destruct (routine_n_ok 5 (mk_nt three 0 None) l I Hl eq_refl) as (w' & l' & E & I' & _ & _ & _ & _ & Pl'); [lia|lia|done|].
  assert (w' = dozing) as -> by (unfold dozing, run_n; by rewrite E). exists l'. split_and!; [| |done|].
  - rewrite Pl'. intros [_ Hin]%list_elem_of_filter. by apply (three_absent l Pl).
  - intros ->. pose proof (hi_size _ _ I') as Hs. vm_compute in Hs. done.
  - eapply (nr_round 5 (mk_nt three 0 None) l); [by apply nr_start|done|by vm_compute|lia|lia|done|exact E|done].
Qed.


(** ** The daemon may oversleep

    A timer for 1000 is in the heap and the daemon sleeps until then; the timer is
    deleted and another for 10 is added: nobody wakes the daemon. *)
Definition oversleeping : ntimers (list tcall) :=
  let w := mk_nt (add_all [1]%nat (with_timers [(1%nat, mk_itimer 1000 0 0 None); (2%nat, mk_itimer 10 0 0 None)])) 0 None in
  let w := run_n (coroc_intertimer_routine_n 0) w in
  let w := run_n (heap (coroc_del_intertimer 1)) w in
  run_n (coroc_add_intertimer_n [] 2) w.

Example daemon_oversleeps :
  asleep oversleeping = Some 1000 /\ key (tw oversleeping) 2 = 10 /\ tsize (tw oversleeping) = 1 /\
  ~ may_wake 999 oversleeping.
Proof.
  assert (asleep oversleeping = Some 1000 /\ note_key oversleeping = 0) as [Ha Hk] by (vm_compute; done).
  split_and!; [done|by vm_compute..|]. intros (d & Hd & [Hn|Hn]); [contradiction|].
  rewrite Ha in Hd. injection Hd as <-. lia.
Qed.
