(* ===== verification/Locks.v ===== *)
(** * Locks (include/inter/coroc_lock.h)

    [lock_init], [lock_acquire], [lock_try_acquire] and [lock_release] are
    names: for the futex lock in a build with ENABLE_FUTEX, for a pthread spin
    lock otherwise.  The rest of the sources uses the names only, so this file
    states what it may expect of them as a class, gives both locks as instances,
    and proves against the class what locks are for: sections of code between
    [lock_acquire] and [lock_release], which take many accesses to the shared
    data, act as if each ran alone, one after another.  The files that model an
    operation under a lock as one step rely on this. *)

From S2P Require Import Prelude FutexLock Darwin.

(** ** The interface *)

(** Where a thread is with respect to a lock. *)
Inductive place : Type :=
| outside          (* has not got the lock and is in none of the functions *)
| acquiring        (* in [lock_acquire] *)
| trying           (* in [lock_try_acquire] *)
| holding          (* returned with the lock *)
| releasing.       (* in [lock_release] *)

#[export] Instance place_eq_dec : EqDecision place.
Proof. solve_decision. Defined.

(** A lock shared by threads named by numbers: [lock_acquire i] is the call of
    thread [i], [lock_run] a step of some thread inside one of the functions. *)
Class LockImpl : Type := {
  lk : Type;
  lock_init : nat -> lk;
  lock_acquire : nat -> lk -> option lk;
  lock_try_acquire : nat -> lk -> option lk;
  lock_release : nat -> lk -> option lk;
  lock_run : lk -> lk -> Prop;
  lock_place : lk -> nat -> option place
}.

Section interface.
Context {L : LockImpl}.

Inductive lock_step (l : lk) : lk -> Prop :=
| ls_run l' : lock_run l l' -> lock_step l l'
| ls_acq i l' : lock_acquire i l = Some l' -> lock_step l l'
| ls_try i l' : lock_try_acquire i l = Some l' -> lock_step l l'
| ls_rel i l' : lock_release i l = Some l' -> lock_step l l'.

Definition lock_reach (n : nat) (l : lk) : Prop := rtc lock_step (lock_init n) l.

(** Thread [i] goes to [p], the others stay. *)
Definition moved (l : lk) (i : nat) (p : place) (l' : lk) : Prop :=
  lock_place l' i = Some p /\ forall j, j <> i -> lock_place l' j = lock_place l j.

(** A call is possible exactly at the place [p], and takes the thread to [q]. *)
Definition call_law (f : nat -> lk -> option lk) (p q : place) : Prop :=
  forall l i, match f i l with
              | Some l' => lock_place l i = Some p /\ moved l i q l'
              | None => lock_place l i <> Some p
              end.
End interface.

(** How the functions end: [lock_acquire] only with the lock, [lock_try_acquire]
    with or without it. *)
Inductive place_next : place -> place -> Prop :=
| pn_same p : place_next p p
| pn_acquired : place_next acquiring holding
| pn_tried : place_next trying holding
| pn_failed : place_next trying outside
| pn_released : place_next releasing outside.

Class LockLaws (L : LockImpl) : Prop := {
  law_init n i : lock_place (lock_init n) i = if (i <? n)%nat then Some outside else None;
  law_acquire : call_law lock_acquire outside acquiring;
  law_try : call_law lock_try_acquire outside trying;
  law_release : call_law lock_release holding releasing;
  law_run l l' : lock_run l l' -> forall i, option_Forall2 place_next (lock_place l i) (lock_place l' i);
  (* mutual exclusion *)
  law_one n l i j : lock_reach n l ->
    lock_place l i = Some holding -> lock_place l j = Some holding -> i = j;
  (* no deadlock: when nobody has the lock, the functions can go on until
     somebody has it or all have returned *)
  law_free n l : lock_reach n l -> (forall i, lock_place l i <> Some holding) ->
    exists l', rtc lock_run l l' /\
      ((exists i, lock_place l' i = Some holding) \/ forall i p, lock_place l' i = Some p -> p = outside)
}.

(** ** Critical sections

    Threads with variables [V] share data [D].  A thread executes sections in
    order; a section is a list of accesses, each of which reads and writes the
    shared data and the variables of the thread. *)

Section clients.
Context {L : LockImpl} {D V : Type}.

Definition action : Type := D -> V -> D * V.

Fixpoint run_actions (acts : list action) (d : D) (v : V) : D * V :=
  match acts with
  | [] => (d, v)
  | a :: acts => let '(d', v') := a d v in run_actions acts d' v'
  end.

(** A section, and whether it is entered with [lock_try_acquire], to be skipped
    when that fails. *)
Definition csection : Type := bool * list action.

(** What a thread still has to do, what is left of the current section first;
    [entered]: it has called [lock_acquire] or [lock_try_acquire] for it. *)
Record thread := mk_thread { todo : list csection; entered : bool; vars : V }.
Record cstate := mk_c { clk : lk; shared : D; ths : list thread }.

Definition lock_call (try : bool) : nat -> lk -> option lk :=
  if try then lock_try_acquire else lock_acquire.

Inductive cstep (s : cstate) : cstate -> Prop :=
| cs_run l' : lock_run (clk s) l' -> cstep s (mk_c l' (shared s) (ths s))
| cs_enter i t try sec rest l' : ths s !! i = Some t -> entered t = false -> todo t = (try, sec) :: rest ->
    lock_call try i (clk s) = Some l' ->
    cstep s (mk_c l' (shared s) (<[i := mk_thread (todo t) true (vars t)]> (ths s)))
| cs_act i t try a sec rest d' v' : ths s !! i = Some t -> lock_place (clk s) i = Some holding ->
    todo t = (try, a :: sec) :: rest -> a (shared s) (vars t) = (d', v') ->
    cstep s (mk_c (clk s) d' (<[i := mk_thread ((try, sec) :: rest) true v']> (ths s)))
| cs_leave i t try rest l' : ths s !! i = Some t -> todo t = (try, []) :: rest ->
    lock_release i (clk s) = Some l' ->
    cstep s (mk_c l' (shared s) (<[i := mk_thread rest false (vars t)]> (ths s)))
| cs_failed i t sec rest : ths s !! i = Some t -> entered t = true ->
    lock_place (clk s) i = Some outside -> todo t = (true, sec) :: rest ->
    cstep s (mk_c (clk s) (shared s) (<[i := mk_thread rest false (vars t)]> (ths s))).

Definition start (d : D) (progs : list (list csection * V)) : cstate :=
  mk_c (lock_init (length progs)) d ((fun p => mk_thread p.1 false p.2) <$> progs).

(** ** The specification: sections are atomic *)

Record astate := mk_a { ashared : D; aths : list (list csection * V) }.

Inductive astep (a : astate) : astate -> Prop :=
| as_run i try sec rest v d' v' : aths a !! i = Some ((try, sec) :: rest, v) ->
    run_actions sec (ashared a) v = (d', v') ->
    astep a (mk_a d' (<[i := (rest, v')]> (aths a)))
| as_skip i sec rest v : aths a !! i = Some ((true, sec) :: rest, v) ->
    astep a (mk_a (ashared a) (<[i := (rest, v)]> (aths a))).

Definition busy (s : cstate) (i : nat) : Prop := lock_place (clk s) i = Some holding.

(** The threads agree with the specification, except that the one that has the
    lock has executed a part of its section already. *)
Record matches (s : cstate) (a : astate) : Prop := {
  m_length : length (aths a) = length (ths s);
  m_idle i t : ths s !! i = Some t -> ~ busy s i -> aths a !! i = Some (todo t, vars t);
  m_busy i t : ths s !! i = Some t -> busy s i -> exists try pre sec rest v,
    todo t = (try, sec) :: rest /\ aths a !! i = Some ((try, pre ++ sec) :: rest, v) /\
    run_actions pre (ashared a) v = (shared s, vars t);
  m_shared : (forall i, ~ busy s i) -> shared s = ashared a
}.

(** What a thread has called fits where it is. *)
Definition fits (p : place) (t : thread) : Prop :=
  match p with
  | outside => entered t = true -> exists sec rest, todo t = (true, sec) :: rest
  | trying => entered t = true /\ exists sec rest, todo t = (true, sec) :: rest
  | acquiring | holding => entered t = true /\ todo t <> []
  | releasing => entered t = false
  end.

Record cinv (s : cstate) : Prop := {
  ci_reach : lock_reach (length (ths s)) (clk s);
  ci_fits i t : ths s !! i = Some t -> exists p, lock_place (clk s) i = Some p /\ fits p t
}.
End clients.
Arguments action : clear implicits.
Arguments csection : clear implicits.
Arguments thread : clear implicits.
Arguments cstate {L} D V.
Arguments astate : clear implicits.

Section proofs.
Context {L : LockImpl} {HL : LockLaws L} {D V : Type}.
Implicit Types (d : D) (progs : list (list (csection D V) * V)) (s : cstate D V) (a : astate D V) (t : thread D V) (l : lk).

Lemma reach_step n l l' : lock_reach n l -> lock_step l l' -> lock_reach n l'.
Proof. intros R St. by eapply rtc_r. Qed.

Lemma reach_runs n l l' : lock_reach n l -> rtc lock_run l l' -> lock_reach n l'.
Proof. intros R. induction 1 as [|? l1 l2 Hr _ IH]; [done|]. by eapply IH, reach_step, ls_run. Qed.

Lemma lock_call_law try : call_law (lock_call try) outside (if try then trying else acquiring).
Proof. destruct try; [apply law_try|apply law_acquire]. Qed.

Lemma call_spec f p q l i l' : call_law f p q -> f i l = Some l' -> lock_place l i = Some p /\ moved l i q l'.
Proof. intros H E. specialize (H l i). by rewrite E in H. Qed.

Lemma lock_call_ok f p q l i : call_law f p q -> lock_place l i = Some p -> exists l', f i l = Some l'.
Proof. intros H E. specialize (H l i). destruct (f i l); [eauto|done]. Qed.

Lemma run_place l l' i p : lock_run l l' -> lock_place l i = Some p ->
  exists q, lock_place l' i = Some q /\ place_next p q.
Proof.
  intros R E. pose proof (law_run l l' R i) as H. rewrite E in H.
  inversion H; subst; eauto.
Qed.

Lemma run_holding l l' i : lock_run l l' -> lock_place l i = Some holding -> lock_place l' i = Some holding.
Proof. intros R E. destruct (run_place l l' i holding R E) as (q & -> & Hq). by inversion Hq. Qed.

Lemma fits_next p q t : place_next p q -> fits p t -> fits q t.
Proof.
  destruct 1; cbn; [done|done| |by intros (_ & ?)|by intros ->].
  intros (He & sec & rest & ->). done.
Qed.

(** A step after which thread [i] is at [q] with [t'], and the others are as
    they were. *)
Lemma cinv_set s i t t' q l' d' : cinv s -> ths s !! i = Some t -> lock_reach (length (ths s)) l' ->
  moved (clk s) i q l' -> fits q t' -> cinv (mk_c l' d' (<[i := t']> (ths s))).
Proof.
  intros [R F] Hi R' [Hq Hj] Hf. split; cbn; [by rewrite length_insert|].
  intros j u [(<- & <- & _)|[Hne Hu]]%list_lookup_insert_Some; [eauto|].
  rewrite Hj by done. by apply F.
Qed.

Lemma moved_same l i p : lock_place l i = Some p -> moved l i p l.
Proof. by split. Qed.

Lemma client_step_inv s s' : cinv s -> cstep s s' -> cinv s'.
Proof.
  intros I St. pose proof (ci_reach _ I) as R.
  destruct St as [l' Hr|i t try sec rest l' Hi He Ht Hc|i t try x sec rest d' v' Hi Hh Ht Hx
                 |i t try rest l' Hi Ht Hc|i t sec rest Hi He Ho Ht].
  - split; cbn; [by eapply reach_step, ls_run|]. intros i t Hi.
    destruct (ci_fits _ I i t Hi) as (p & Hp & Hf).
    destruct (run_place _ _ _ _ Hr Hp) as (q & Hq & Hn). eauto using fits_next.
  - destruct (call_spec _ _ _ _ _ _ (lock_call_law try) Hc) as [_ Hm].
    eapply cinv_set; [done..|by destruct try; (eapply reach_step; [done|]); [eapply ls_try|eapply ls_acq]|done|].
    rewrite Ht. destruct try; cbn; eauto.
  - eapply (cinv_set s i t _ holding); [done..|by apply moved_same|by cbn].
  - destruct (call_spec _ _ _ _ _ _ law_release Hc) as [_ Hm].
    eapply cinv_set; [done..|by eapply reach_step, ls_rel|done|done].
  - eapply (cinv_set s i t _ outside); [done..|by apply moved_same|by cbn].
Qed.

Lemma client_start_inv d progs : cinv (start d progs).
Proof.
  split; cbn; [rewrite length_fmap; apply rtc_refl|]. intros i t (p & -> & Hp)%list_lookup_fmap_Some.
  exists outside. rewrite law_init. apply lookup_lt_Some in Hp.
  destruct (Nat.ltb_spec i (length progs)); [by split|lia].
Qed.

Lemma start_matches d progs : matches (start d progs) (mk_a d progs).
Proof.
  assert (forall i, ~ busy (start d progs) i) as Hb.
  { intros i. unfold busy. cbn. rewrite law_init. by destruct (_ <? _)%nat. }
  split; cbn; [by rewrite length_fmap| | |done].
  - intros i t (p & -> & Hp)%list_lookup_fmap_Some _. by destruct p.
  - by intros i t _ []%Hb.
Qed.

(** ** The simulation *)

(** The thread that has the lock is the only one. *)
Lemma busy_one s i j : cinv s -> busy s i -> busy s j -> i = j.
Proof. intros I. eapply law_one, I. Qed.

(** A move that neither takes nor releases the lock, and no step of the
    specification. *)
Lemma matches_quiet s a l' ts' : matches s a -> length ts' = length (ths s) ->
  (forall i, lock_place l' i = Some holding <-> busy s i) ->
  (forall i t', ts' !! i = Some t' -> exists t, ths s !! i = Some t /\ todo t' = todo t /\ vars t' = vars t) ->
  matches (mk_c l' (shared s) ts') a.
Proof.
  intros [Hl Hi Hb Hs] Hn Hq Ht. split; cbn; [by rewrite Hn| | |].
  - intros i t' H' Hnb. destruct (Ht i t' H') as (t & H0 & -> & ->). apply Hi; [done|].
    intros Hbi. by apply Hnb, Hq.
  - intros i t' H' Hbi. destruct (Ht i t' H') as (t & H0 & -> & ->). by apply Hb; [|apply Hq].
  - intros Hnb. apply Hs. intros i Hbi. by apply (Hnb i), Hq.
Qed.

Lemma matches_enter s a i t l' q : matches s a -> ths s !! i = Some t -> ~ busy s i -> q <> holding ->
  moved (clk s) i q l' -> matches (mk_c l' (shared s) (<[i := mk_thread (todo t) true (vars t)]> (ths s))) a.
Proof.
  intros M Hi Hb Hq [Hp Hj]. apply matches_quiet; [done|by rewrite length_insert| |].
  - intros j. unfold busy. destruct (decide (j = i)) as [->|Hne]; [|by rewrite Hj].
    rewrite Hp. split; [congruence|]. by intros ?%Hb.
  - intros j u [(<- & <- & _)|[_ Hu]]%list_lookup_insert_Some; eauto.
Qed.

(** The lock is taken: nothing of the section is done yet. *)
Lemma matches_run s a l' : cinv s -> matches s a -> lock_run (clk s) l' ->
  matches (mk_c l' (shared s) (ths s)) a.
Proof.
  intros I M Hr. assert (cinv (mk_c l' (shared s) (ths s))) as I' by (by eapply client_step_inv, cs_run).
  destruct M as [Hl Hi Hb Hs]. split; cbn; [done| | |].
  - intros i t Ht Hnb. apply Hi; [done|]. intros Hbi. by eapply Hnb, run_holding.
  - intros i t Ht Hbi. destruct (decide (lock_place (clk s) i = Some holding)) as [Hh|Hn]; [by apply Hb|].
    destruct (ci_fits _ I' i t Ht) as (p & Hp & Hf). cbn in Hp. unfold busy in Hbi. cbn in Hbi.
    rewrite Hbi in Hp. simplify_eq. destruct Hf as [_ Hne].
    destruct (todo t) as [|[try sec] rest] eqn:E; [done|].
    exists try, [], sec, rest, (vars t). split_and!; [done|pose proof (Hi i t Ht Hn) as H0; by rewrite E in H0|]. cbn.
    f_equal. symmetry. apply Hs. intros j Hbj.
    assert (j = i) as ->; [|done]. eapply (busy_one _ _ _ I'); [|done]. by eapply run_holding.
  - intros Hnb. apply Hs. intros i Hbi. by eapply (Hnb i), run_holding.
Qed.

Lemma run_actions_app (p q : list (action D V)) d v :
  run_actions (p ++ q) d v = let '(d', v') := run_actions p d v in run_actions q d' v'.
Proof. revert d v. induction p as [|x p IH]; intros d v; cbn; [done|]. destruct (x d v). apply IH. Qed.

Lemma matches_act s a i t try x sec rest d' v' : cinv s -> matches s a -> ths s !! i = Some t -> busy s i ->
  todo t = (try, x :: sec) :: rest -> x (shared s) (vars t) = (d', v') ->
  matches (mk_c (clk s) d' (<[i := mk_thread ((try, sec) :: rest) true v']> (ths s))) a.
Proof.
  intros I [Hl Hi Hb Hs] Ht Hbi Hx E. split; cbn; [by rewrite length_insert| | |].
  - intros j u [(<- & <- & _)|[_ Hu]]%list_lookup_insert_Some Hnb; [done|]. by apply Hi.
  - intros j u [(<- & <- & _)|[Hne Hu]]%list_lookup_insert_Some Hbj;
      [|by destruct Hne; eapply busy_one].
    destruct (Hb i t Ht Hbi) as (try' & pre & sec' & rest' & v & E1 & E2 & E3).
    rewrite Hx in E1. simplify_eq. exists try', (pre ++ [x]), sec, rest', v.
    rewrite <- app_assoc, run_actions_app, E3. cbn. by rewrite E.
  - intros Hnb. by destruct (Hnb i).
Qed.

(** The lock is given up: the specification runs the section. *)
Lemma matches_leave s a i t try rest l' : cinv s -> matches s a -> ths s !! i = Some t -> busy s i ->
  todo t = (try, []) :: rest -> moved (clk s) i releasing l' ->
  exists a', astep a a' /\ matches (mk_c l' (shared s) (<[i := mk_thread rest false (vars t)]> (ths s))) a'.
Proof.
  intros I [Hl Hi Hb Hs] Ht Hbi Hx [Hp Hj].
  destruct (Hb i t Ht Hbi) as (try' & pre & sec' & rest' & v & E1 & E2 & E3).
  rewrite Hx in E1. simplify_eq. rewrite app_nil_r in E2.
  exists (mk_a (shared s) (<[i := (rest', vars t)]> (aths a))). split; [by eapply as_run|].
  assert (forall j, ~ busy (mk_c l' (shared s) (<[i := mk_thread rest' false (vars t)]> (ths s))) j) as Hnb.
  { intros j. unfold busy. cbn. destruct (decide (j = i)) as [->|Hne]; [by rewrite Hp|].
    rewrite Hj by done. intros Hbj. by destruct Hne; eapply busy_one. }
  split; cbn; [by rewrite !length_insert| | |done].
  - intros j u [(<- & <- & _)|[Hne Hu]]%list_lookup_insert_Some _.
    + apply list_lookup_insert_eq. rewrite Hl. by eapply lookup_lt_Some.
    + rewrite list_lookup_insert_ne by done. apply Hi; [done|]. intros Hbj.
      by destruct Hne; eapply busy_one.
  - intros j u _ Hbj. by destruct (Hnb j).
Qed.

Lemma matches_failed s a i t sec rest : matches s a -> ths s !! i = Some t ->
  lock_place (clk s) i = Some outside -> todo t = (true, sec) :: rest ->
  exists a', astep a a' /\ matches (mk_c (clk s) (shared s) (<[i := mk_thread rest false (vars t)]> (ths s))) a'.
Proof.
  intros [Hl Hi Hb Hs] Ht Ho Hx.
  assert (~ busy s i) as Hnb by (unfold busy; congruence).
  exists (mk_a (ashared a) (<[i := (rest, vars t)]> (aths a))). split.
  { eapply (as_skip _ _ sec). pose proof (Hi i t Ht Hnb) as H0. by rewrite Hx in H0. }
  split; cbn; [by rewrite !length_insert| | |done].
  - intros j u [(<- & <- & _)|[Hne Hu]]%list_lookup_insert_Some Hn.
    + apply list_lookup_insert_eq. rewrite Hl. by eapply lookup_lt_Some.
    + rewrite list_lookup_insert_ne by done. by apply Hi.
  - intros j u [(<- & <- & _)|[Hne Hu]]%list_lookup_insert_Some Hbj; [done|].
    rewrite list_lookup_insert_ne by done. by apply Hb.
Qed.

Lemma cstep_simulated s s' a : cinv s -> matches s a -> cstep s s' ->
  exists a', rtc astep a a' /\ matches s' a'.
Proof.
  intros I M [l' Hr|i t try sec rest l' Hi He Ht Hc|i t try x sec rest d' v' Hi Hh Ht Hx
             |i t try rest l' Hi Ht Hc|i t sec rest Hi He Ho Ht].
  - exists a. split; [apply rtc_refl|by apply matches_run].
  - destruct (call_spec _ _ _ _ _ _ (lock_call_law try) Hc) as [Ho Hm].
    exists a. split; [apply rtc_refl|]. apply (matches_enter _ _ _ _ _ (if try then trying else acquiring)); [done..| |by destruct try|done].
    unfold busy. congruence.
  - exists a. split; [apply rtc_refl|]. by eapply matches_act.
  - destruct (call_spec _ _ _ _ _ _ law_release Hc) as [Ho Hm].
    destruct (matches_leave s a i t try rest l') as (a' & ? & ?); [done..|]. exists a'. split; [by apply rtc_once|done].
  - destruct (matches_failed s a i t sec rest) as (a' & ? & ?); [done..|]. exists a'. split; [by apply rtc_once|done].
Qed.

Lemma runs_simulated s s' a : cinv s -> matches s a -> rtc cstep s s' ->
  cinv s' /\ exists a', rtc astep a a' /\ matches s' a'.
Proof.
  intros I M R. revert a I M. induction R as [|s1 s2 s3 St _ IH]; intros a I M; [eauto using rtc_refl|].
  destruct (cstep_simulated _ _ _ I M St) as (a' & Ra & M').
  destruct (IH a') as (I3 & a3 & R3 & M3); [by eapply client_step_inv|done|].
  split; [done|]. exists a3. split; [by etrans|done].
Qed.

Lemma start_simulated d progs s : rtc cstep (start d progs) s ->
  cinv s /\ exists a, rtc astep (mk_a d progs) a /\ matches s a.
Proof. apply runs_simulated; [apply client_start_inv|apply start_matches]. Qed.

(** ** Progress *)

(** What is left to do. *)
Definition cost (c : csection D V) : Z := 1 + Z.of_nat (length c.2).
Definition left_of (t : thread D V) : Z := sumz cost (todo t).
Definition left_all (s : cstate D V) : Z := sumz left_of (ths s).

Lemma left_nonneg t : 0 <= left_of t.
Proof. apply sumz_nonneg. unfold cost. lia. Qed.

Ltac costs E := unfold left_of; rewrite E; cbn [todo sumz]; unfold cost; cbn [snd length]; lia.

(** A step of thread [i] that leaves less to do. *)
Definition descends (s : cstate D V) : Prop := exists s', rtc cstep s s' /\ left_all s' < left_all s.

Lemma descend_at s i t t' l' d' : ths s !! i = Some t ->
  cstep s (mk_c l' d' (<[i := t']> (ths s))) -> left_of t' < left_of t -> descends s.
Proof.
  intros Hi St Hlt. eexists. split; [by apply rtc_once|]. unfold left_all. cbn.
  rewrite (sumz_insert _ _ _ _ _ Hi). lia.
Qed.

Lemma busy_descends s i t : cinv s -> ths s !! i = Some t -> busy s i -> descends s.
Proof.
  intros I Hi Hb. destruct (ci_fits _ I i t Hi) as (p & Hp & Hf). unfold busy in Hb.
  rewrite Hb in Hp. simplify_eq. destruct Hf as [_ Hne].
  destruct (todo t) as [|[try [|x sec]] rest] eqn:E; [done|..].
  - destruct (lock_call_ok _ _ _ _ _ law_release Hb) as [l' Hl].
    eapply descend_at; [done|by eapply cs_leave|]. costs E.
  - destruct (x (shared s) (vars t)) as [d' v'] eqn:Ex.
    eapply descend_at; [done|by eapply cs_act|]. costs E.
Qed.

Lemma failed_descends s i t : cinv s -> ths s !! i = Some t -> lock_place (clk s) i = Some outside ->
  entered t = true -> descends s.
Proof.
  intros I Hi Ho He. destruct (ci_fits _ I i t Hi) as (p & Hp & Hf). rewrite Ho in Hp. simplify_eq.
  destruct (Hf He) as (sec & rest & E).
  eapply descend_at; [done|by eapply cs_failed|]. costs E.
Qed.

Lemma runs_lift s l' : rtc lock_run (clk s) l' -> rtc cstep s (mk_c l' (shared s) (ths s)).
Proof.
  intros R. remember (clk s) as l eqn:El. revert s El.
  induction R as [l|l l1 l2 Hr _ IH]; intros s ->; [destruct s; apply rtc_refl|].
  eapply rtc_l; [by apply cs_run|]. by apply (IH (mk_c l1 (shared s) (ths s))).
Qed.

Lemma runs_cinv s s' : cinv s -> rtc cstep s s' -> cinv s'.
Proof. intros I. induction 1; eauto using client_step_inv. Qed.

Lemma reach_dom n l i p : lock_reach n l -> lock_place l i = Some p -> (i < n)%nat.
Proof.
  intros R. revert p. assert (forall l l', lock_step l l' ->
    is_Some (lock_place l' i) -> is_Some (lock_place l i)) as Hstep.
  { intros l1 l2 St Hs.
    assert (forall f p q j, call_law f p q -> f j l1 = Some l2 -> is_Some (lock_place l1 i)) as Hcall.
    { intros f p q j Hf Hc. destruct (call_spec _ _ _ _ _ _ Hf Hc) as [Hp [_ Hj]].
      destruct (decide (i = j)) as [->|Hne]; [eauto|]. by rewrite <- Hj. }
    destruct St as [l2 Hr|j l2 Hc|j l2 Hc|j l2 Hc];
      [|eauto using law_acquire|eauto using law_try|eauto using law_release].
    destruct (law_run _ _ Hr i); [eauto|]. by destruct Hs. }
  assert (forall l', rtc lock_step l' l -> is_Some (lock_place l i) -> is_Some (lock_place l' i)) as Hrtc.
  { induction 1; eauto. }
  intros p Hp. destruct (Hrtc _ R (mk_is_Some _ _ Hp)) as [q Hq].
  rewrite law_init in Hq. by destruct (Nat.ltb_spec i n).
Qed.

Lemma some_busy_descends s i : cinv s -> busy s i -> descends s.
Proof.
  intros I Hb. destruct (lookup_lt_is_Some_2 (ths s) i) as [t Ht].
  - eapply reach_dom; [apply I|exact Hb].
  - by eapply busy_descends.
Qed.

Lemma descends_after s s' : rtc cstep s s' -> left_all s' <= left_all s -> descends s' -> descends s.
Proof. intros R Hle (s2 & R2 & Hlt). exists s2. split; [by etrans|lia]. Qed.

(** Unless a thread can go on with the lock, all return without it. *)
Lemma descends_or_calm s : cinv s -> descends s \/ exists l',
  rtc cstep s (mk_c l' (shared s) (ths s)) /\ forall i p, lock_place l' i = Some p -> p = outside.
Proof.
  intros I. destruct (decide (Exists (fun i => lock_place (clk s) i = Some holding) (seq 0 (length (ths s)))))
    as [(j & _ & Hj)%Exists_exists|Hn]; [left; by eapply some_busy_descends|].
  destruct (law_free (length (ths s)) (clk s)) as (l' & R & Hc); [apply I| |].
  - intros j Hj. apply Hn, Exists_exists. exists j. split; [|done]. apply elem_of_seq.
    split; [lia|]. cbn. eapply reach_dom; [apply I|done].
  - apply runs_lift in R. destruct Hc as [[j Hj]|Ho]; [left|right; eauto].
    eapply descends_after; [exact R|done|]. eapply (some_busy_descends _ j); [by eapply runs_cinv|done].
Qed.

(** A thread that has called [lock_acquire] or [lock_try_acquire]. *)
Lemma entered_descends s i t : cinv s -> ths s !! i = Some t -> entered t = true -> descends s.
Proof.
  intros I Hi He. destruct (descends_or_calm s I) as [|(l' & R & Ho)]; [done|].
  eapply descends_after; [exact R|done|]. pose proof (runs_cinv _ _ I R) as I'.
  destruct (ci_fits _ I' i t Hi) as (q & Hq & _). pose proof (Ho i q Hq) as ->. by eapply failed_descends.
Qed.

Lemma unfinished_descends s i t : cinv s -> ths s !! i = Some t -> todo t <> [] -> descends s.
Proof.
  intros I Hi Hne.
  destruct (descends_or_calm s I) as [|(l' & R & Ho)]; [done|].
  eapply descends_after; [exact R|done|]. pose proof (runs_cinv _ _ I R) as I'.
  destruct (ci_fits _ I' i t Hi) as (q & Hq & _). pose proof (Ho i q Hq) as ->.
  destruct (entered t) eqn:He; [by eapply entered_descends|]. destruct (todo t) as [|[try sec] rest] eqn:Et; [done|].
  destruct (lock_call_ok _ _ _ _ _ (lock_call_law try) Hq) as [l2 Hl].
  assert (cstep (mk_c l' (shared s) (ths s))
    (mk_c l2 (shared s) (<[i := mk_thread (todo t) true (vars t)]> (ths s)))) 
    as St by exact (cs_enter (mk_c l' (shared s) (ths s)) i t try sec rest l2 Hi He Et Hl).
  eapply descends_after; [by apply rtc_once| |].
  - unfold left_all. cbn. rewrite (sumz_insert _ _ _ _ _ Hi). unfold left_of. cbn. lia.
  - eapply entered_descends; [by eapply client_step_inv|by apply list_lookup_insert_eq; eapply lookup_lt_Some|done].
Qed.

Lemma all_finish s : cinv s -> exists s', rtc cstep s s' /\ forall t, t ∈ ths s' -> todo t = [].
Proof.
  intros I. remember (Z.to_nat (left_all s)) as m eqn:Hm. revert s I Hm.
  induction (lt_wf m) as [m _ IH]. intros s I ->.
  destruct (decide (Forall (fun t => length (todo t) = 0%nat) (ths s))) as [Hd|Hd].
  { exists s. split; [apply rtc_refl|]. intros t Ht. rewrite Forall_forall in Hd. by apply length_zero_iff_nil, Hd. }
  apply not_Forall_Exists in Hd as (t & [i Hi]%list_elem_of_lookup & Ht)%Exists_exists; [|apply _].
  assert (todo t <> []) as Hne by (intros E; apply Ht; cbn; by rewrite E).
  destruct (unfinished_descends s i t I Hi Hne) as (s1 & R1 & Hlt).
  pose proof (sumz_nonneg left_of (ths s1) left_nonneg).
  destruct (IH (Z.to_nat (left_all s1))) with (s := s1) as (s' & R' & Hs'); [unfold left_all in *; lia|by eapply runs_cinv|done|].
  exists s'. split; [by etrans|done].
Qed.
End proofs.

(** ** The futex lock is a lock *)

Module FutexInstance.

Definition futex_place (p : pc) : place :=
  match p with
  | f_idle => outside
  | f_held => holding
  | f_try => trying
  | f_unlock | f_wake | f_failed => releasing
  | _ => acquiring
  end.

(** A call by a thread that is at [p]. *)
Definition futex_call (p q : pc) (i : nat) (s : fstate) : option fstate :=
  if decide (pcs s !! i = Some p) then Some (goto i (key s) q s) else None.

(** The names with ENABLE_FUTEX. *)
Definition futex_lock : LockImpl := {|
  lk := fstate;
  lock_init := _coroc_futex_init;
  lock_acquire := futex_call f_idle f_enter;
  lock_try_acquire := futex_call f_idle f_try;
  lock_release := futex_call f_held f_unlock;
  lock_run := istep;
  lock_place s i := futex_place <$> pcs s !! i
|}.
#[export] Existing Instance futex_lock.

Lemma lock_step_futex (s s' : fstate) : lock_step s s' -> fstep s s'.
Proof.
  intros St. destruct St as [s' R|i s' E|i s' E|i s' E]; [by apply fs_step|..];
    cbn in E; unfold futex_call in E; case_decide; simplify_eq;
    [by apply fs_lock|by apply fs_trylock|by apply fs_unlock].
Qed.

Lemma futex_reach_inv n (s : fstate) : lock_reach n s -> futex_inv s.
Proof.
  intros R. apply (reach_inv n). revert R. unfold lock_reach. cbn. generalize (_coroc_futex_init n).
  induction 1; [apply rtc_refl|]. eapply rtc_l; [by apply lock_step_futex|done].
Qed.

Lemma futex_call_law p q : (forall p', futex_place p' = futex_place p -> p' = p) ->
  call_law (futex_call p q) (futex_place p) (futex_place q).
Proof.
  intros Hp s i. unfold futex_call. case_decide as E; cbn.
  - rewrite E. split; [done|]. split; cbn.
    + rewrite list_lookup_insert_eq by (by eapply lookup_lt_Some). done.
    + intros j Hj. by rewrite list_lookup_insert_ne.
  - destruct (pcs s !! i) as [p'|] eqn:E'; [|done]. cbn. intros [= H%Hp]. by subst.
Qed.

Lemma next_place k p k' p' : next k p = Some (k', p') -> place_next (futex_place p) (futex_place p').
Proof.
  unfold next. destruct p; cbn; intros E; repeat (case_match; simplify_eq/=); try done; by constructor.
Qed.

Lemma goto_place s i k p p' : pcs s !! i = Some p -> place_next (futex_place p) (futex_place p') ->
  forall j, option_Forall2 place_next (futex_place <$> pcs s !! j) (futex_place <$> pcs (goto i k p' s) !! j).
Proof.
  intros Hi Hn j. cbn. destruct (decide (j = i)) as [->|Hne].
  - rewrite Hi, list_lookup_insert_eq by (by eapply lookup_lt_Some). by constructor.
  - rewrite list_lookup_insert_ne by done. destruct (pcs s !! j); repeat constructor.
Qed.

Lemma istep_place s s' : istep s s' -> forall j,
  option_Forall2 place_next (futex_place <$> pcs s !! j) (futex_place <$> pcs s' !! j).
Proof.
  intros [i p k' p' Hi E|i i' Hi Hi'|i Hi Hb|i Hi] j.
  - eapply goto_place; [done|]. by eapply next_place.
  - assert (i <> i') as Hne by congruence. cbn. destruct (decide (j = i')) as [->|H1].
    + rewrite list_lookup_insert_eq by (rewrite length_insert; by eapply lookup_lt_Some).
      rewrite Hi'. repeat constructor.
    + rewrite list_lookup_insert_ne by done. by eapply (goto_place s i (key s) f_wake f_idle); [|constructor].
  - by apply (goto_place s i (key s) f_wake f_idle); [|constructor].
  - by apply (goto_place s i (key s) f_blocked (f_active MUTEX_SLEEPING 0)); [|constructor].
Qed.

Definition waking (p : pc) : bool := match p with f_wake => true | _ => false end.

(** Nobody has the free lock and nobody wants it: those inside return. *)
Lemma wakers_return s : key s = MUTEX_UNLOCKED -> (forall i p, pcs s !! i = Some p -> p = f_idle \/ p = f_wake) ->
  exists s', rtc istep s s' /\ forall i p, pcs s' !! i = Some p -> p = f_idle.
Proof.
  remember (count_if waking (pcs s)) as m eqn:Hm. revert s Hm.
  induction m as [|m IH]; intros s Hm Hk Hp.
  - exists s. split; [apply rtc_refl|]. intros i p Hi. destruct (Hp i p Hi) as [ -> | -> ]; [done|].
    symmetry in Hm. apply count_if_0 with (x := f_wake) in Hm; [done|by eapply list_elem_of_lookup_2].
  - destruct (decide (f_wake ∈ pcs s)) as [(i & Hi)%list_elem_of_lookup|Hn].
    2:{ assert (S m = 0%nat); [|done]. rewrite Hm. apply count_if_0. intros x Hx. by destruct x. }
    destruct (IH (goto i (key s) f_idle s)) as (s' & R & Hs'); [|done| |].
    + pose proof (count_if_insert waking (pcs s) i f_wake f_idle Hi) as H.
      cbn [waking] in H. cbn [goto pcs]. lia.
    + cbn. intros j q [(_ & <- & _)|[_ Hj]]%list_lookup_insert_Some; [by left|eauto].
    + exists s'. split; [|done]. eapply rtc_l; [|exact R]. apply is_wake_none; [done|].
      intros (j & Hj)%list_elem_of_lookup. by destruct (Hp j f_blocked Hj).
Qed.

(** When nobody has the lock, the functions go on until somebody has. *)
Lemma futex_free s : futex_inv s -> key s = MUTEX_UNLOCKED ->
  exists s', rtc istep s s' /\
    ((exists i, pcs s' !! i = Some f_held) \/ forall i p, pcs s' !! i = Some p -> p = f_idle).
Proof.
  intros I Hk. destruct (decide (Exists (fun p => Is_true (wants p)) (pcs s))) as [Hw|Hw].
  { apply Exists_exists in Hw as (p & [i Hi]%list_elem_of_lookup & Hp).
    destruct (free_taken s i p I Hk Hi Hp) as (m & s' & j & _ & R & Hj & _).
    exists s'. split; [by eapply rtc_nsteps_2|]. eauto. }
  destruct (decide (f_try ∈ pcs s)) as [(i & Hi)%list_elem_of_lookup|Ht].
  { exists (goto i MUTEX_LOCKED f_held s). split.
    - apply rtc_once. eapply is_run; [done|]. by rewrite Hk.
    - left. exists i. by eapply goto_at. }
  destruct (wakers_return s Hk) as (s' & R & Hs'); [|eauto].
  intros i p Hi. pose proof (fi_wait _ I i p Hi) as Hok.
  assert (~ holds p) as Hh.
  { intros Hh. destruct (proj2 (fi_held _ I)); [|done]. eauto. }
  assert (~ wants p) as Hnw.
  { intros H. apply Hw, Exists_exists. exists p. split; [by eapply list_elem_of_lookup_2|done]. }
  assert (p <> f_try) as Hnt by (intros ->; apply Ht; by eapply list_elem_of_lookup_2).
  destruct p; try done; [by left|by right].
Qed.

#[export] Instance futex_lock_laws : LockLaws futex_lock.
Proof.
  split.
  - intros n i. destruct (Nat.ltb_spec i n); cbn.
    + by rewrite lookup_replicate_2.
    + by rewrite lookup_ge_None_2 by (by rewrite length_replicate).
  - apply (futex_call_law f_idle f_enter). by intros [].
  - apply (futex_call_law f_idle f_try). by intros [].
  - apply (futex_call_law f_held f_unlock). by intros [].
  - apply istep_place.
  - intros n s i j R%futex_reach_inv Hi Hj. cbn in *.
    apply fmap_Some in Hi as (p & Hi & Hp), Hj as (q & Hj & Hq).
    eapply (fi_one _ R); [done|done|by destruct p|by destruct q].
  - intros n s R Hn. cbn in *. pose proof (futex_reach_inv n s R) as I.
    assert (exists s1, rtc istep s s1 /\ futex_inv s1 /\ key s1 = MUTEX_UNLOCKED) as (s1 & R1 & I1 & Hk1).
    { destruct (decide (key s = MUTEX_UNLOCKED)) as [|Hk]; [by exists s; split_and!; [apply rtc_refl|..]|].
      destruct (proj1 (fi_held _ I) Hk) as (i & p & Hi & Hp).
      assert (p = f_unlock) as -> by (destruct p; try done; by destruct (Hn i); rewrite Hi).
      eset (s1 := goto i MUTEX_UNLOCKED _ s).
      assert (istep s s1) as St by (eapply is_run; [done|cbn; reflexivity]).
      exists s1. split_and!; [by apply rtc_once|by eapply istep_inv|done]. }
    destruct (futex_free s1 I1 Hk1) as (s' & R' & Hs'). exists s'. split; [by etrans|].
    destruct Hs' as [[i Hi]|Ho]; [left; exists i; by rewrite Hi|right].
    intros i p (q & Hq & ->)%fmap_Some. by rewrite (Ho i q Hq).
Qed.
End FutexInstance.

(** ** The spin lock is a lock *)

Module SpinInstance.
Import Spin.

#[export] Instance spc_eq_dec : EqDecision spc.
Proof. solve_decision. Defined.

Definition spin_place (p : spc) : place :=
  match p with
  | s_out => outside
  | s_spin _ | s_yield => acquiring
  | s_try => trying
  | s_held => holding
  | s_unlock => releasing
  end.

Definition spin_call (p q : spc) (i : nat) (s : sstate) : option sstate :=
  if decide (spcs s !! i = Some p) then Some (mk_s (slock s) (<[i := q]> (spcs s))) else None.

Definition spin_next (lock : Z) (p : spc) : option (Z * spc) :=
  match spin_lock_next lock p with
  | Some r => Some r
  | None => match spin_trylock_next lock p with Some r => Some r | None => spin_unlock_next lock p end
  end.

Inductive spin_run (s : sstate) : sstate -> Prop :=
| spin_run_at i p l' p' : spcs s !! i = Some p -> spin_next (slock s) p = Some (l', p') ->
    spin_run s (mk_s l' (<[i := p']> (spcs s))).

(** The names without ENABLE_FUTEX. *)
Definition spin_lock : LockImpl := {|
  lk := sstate;
  lock_init := pthread_spin_init;
  lock_acquire := spin_call s_out (s_spin 0);
  lock_try_acquire := spin_call s_out s_try;
  lock_release := spin_call s_held s_unlock;
  lock_run := spin_run;
  lock_place s i := spin_place <$> spcs s !! i
|}.
#[export] Existing Instance spin_lock.

Lemma spin_next_snext k p l' p' : spin_next k p = Some (l', p') -> snext k p l' p'.
Proof.
  unfold spin_next. destruct (spin_lock_next k p) as [r|] eqn:E; [intros [= ->]; by apply sn_lock|].
  destruct (spin_trylock_next k p) as [r|] eqn:E'; [intros [= ->]; by apply sn_trylock|]. by apply sn_unlock.
Qed.

Lemma lock_step_spin (s s' : sstate) : lock_step s s' -> sstep s s'.
Proof.
  intros St. destruct St as [s' R|i s' E|i s' E|i s' E].
  - destruct R as [i p l' p' Hi E]. eapply sstep_at; [done|by apply spin_next_snext].
  - cbn in E; unfold spin_call in E; case_decide; simplify_eq. by eapply sstep_at; [|apply sn_call_lock].
  - cbn in E; unfold spin_call in E; case_decide; simplify_eq. by eapply sstep_at; [|apply sn_call_try].
  - cbn in E; unfold spin_call in E; case_decide; simplify_eq. by eapply sstep_at; [|apply sn_call_unlock].
Qed.

Lemma spin_reach_inv n (s : sstate) : lock_reach n s -> sinv s.
Proof.
  intros R. apply (reach_spin n). revert R. unfold lock_reach. cbn. generalize (pthread_spin_init n).
  induction 1; [apply rtc_refl|]. eapply rtc_l; [by apply lock_step_spin|done].
Qed.

Lemma spin_call_law p q : (forall p', spin_place p' = spin_place p -> p' = p) ->
  call_law (spin_call p q) (spin_place p) (spin_place q).
Proof.
  intros Hp s i. unfold spin_call. case_decide as E; cbn.
  - rewrite E. split; [done|]. split; cbn.
    + rewrite list_lookup_insert_eq by (by eapply lookup_lt_Some). done.
    + intros j Hj. by rewrite list_lookup_insert_ne.
  - destruct (spcs s !! i) as [p'|] eqn:E'; [|done]. cbn. intros [= H%Hp]. by subst.
Qed.

Lemma spin_next_place k p l' p' : spin_next k p = Some (l', p') -> place_next (spin_place p) (spin_place p').
Proof.
  unfold spin_next. destruct p; cbn; intros E; simplify_eq/=; repeat (case_match; simplify_eq/=); eauto using place_next.
Qed.

(** One step of thread [i]. *)
Lemma spin_go s i p l' p' : spcs s !! i = Some p -> spin_next (slock s) p = Some (l', p') ->
  exists s', spin_run s s' /\ slock s' = l' /\ spcs s' = <[i := p']> (spcs s) /\ spcs s' !! i = Some p'.
Proof.
  intros Hi E. exists (mk_s l' (<[i := p']> (spcs s))). split_and!; [by eapply spin_run_at|done|done|].
  apply list_lookup_insert_eq. by eapply lookup_lt_Some.
Qed.

(** A thread in one of the functions that get the lock has it after at most two
    steps, when it is free. *)
Lemma spin_gets s i p : spcs s !! i = Some p -> slock s = 0 -> spin_place p = acquiring \/ p = s_try ->
  exists s', rtc spin_run s s' /\ spcs s' !! i = Some s_held.
Proof.
  intros Hi Hf Hp.
  assert (forall t k, spcs t !! i = Some (s_spin k) -> slock t = 0 ->
    exists t', spin_run t t' /\ spcs t' !! i = Some s_held) as Htake.
  { intros t k Ht H0. destruct (spin_go t i (s_spin k) 1 s_held Ht) as (t' & ? & _ & _ & ?); [|eauto].
    rewrite H0. reflexivity. }
  destruct p; try (by destruct Hp).
  - destruct (Htake s i0 Hi Hf) as (t & ? & ?). exists t. split; [by apply rtc_once|done].
  - destruct (spin_go s i s_yield (slock s) (s_spin 0) Hi eq_refl) as (t & R & Hl & _ & Ht).
    destruct (Htake t 0 Ht) as (t' & R' & Ht'); [congruence|].
    exists t'. split; [by eapply rtc_l, rtc_once|done].
  - destruct (spin_go s i s_try 1 s_held Hi) as (t & R & _ & _ & Ht); [by rewrite Hf|].
    exists t. split; [by apply rtc_once|done].
Qed.

Definition gets (p : spc) : bool := match p with s_spin _ | s_yield | s_try => true | _ => false end.

Lemma spin_free s : sinv s -> slock s = 0 -> exists s', rtc spin_run s s' /\
  ((exists i, spcs s' !! i = Some s_held) \/ forall i p, spcs s' !! i = Some p -> p = s_out).
Proof.
  intros I Hf. destruct (decide (Exists (fun p => Is_true (gets p)) (spcs s))) as [Hw|Hw].
  - apply Exists_exists in Hw as (p & (i & Hi)%list_elem_of_lookup & Hp).
    destruct (spin_gets s i p Hi Hf) as (s' & R & Hs'); [destruct p; naive_solver|]. eauto.
  - exists s. split; [apply rtc_refl|]. right. intros i p Hi.
    assert (~ gets p) as Hg.
    { intros H. apply Hw, Exists_exists. exists p. split; [by eapply list_elem_of_lookup_2|done]. }
    assert (~ sholds p) as Hh.
    { intros Hh. pose proof (holder_word _ _ _ I Hi Hh). lia. }
    by destruct p.
Qed.

#[export] Instance spin_lock_laws : LockLaws spin_lock.
Proof.
  split.
  - intros n i. destruct (Nat.ltb_spec i n); cbn.
    + by rewrite lookup_replicate_2.
    + by rewrite lookup_ge_None_2 by (by rewrite length_replicate).
  - apply (spin_call_law s_out (s_spin 0)). by intros [].
  - apply (spin_call_law s_out s_try). by intros [].
  - apply (spin_call_law s_held s_unlock). by intros [].
  - intros s s' [i p l' p' Hi E] j. cbn. destruct (decide (j = i)) as [->|Hne].
    + rewrite Hi, list_lookup_insert_eq by (by eapply lookup_lt_Some). constructor. by eapply spin_next_place.
    + rewrite list_lookup_insert_ne by done. destruct (spcs s !! j); repeat constructor.
  - intros n s i j R%spin_reach_inv Hi Hj. cbn in *.
    apply fmap_Some in Hi as (p & Hi & Hp), Hj as (q & Hj & Hq).
    assert (sholds p) as Hhp by (by destruct p). assert (sholds q) as Hhq by (by destruct q).
    pose proof (holder_word _ _ _ R Hi Hhp) as Hw. destruct R as [Hs _].
    assert (Some i = Some j); [|congruence].
    rewrite <- (sholder_one s i p), <- (sholder_one s j q); [done|lia|done..|lia|done|done].
  - intros n s R Hn. cbn in *. pose proof (spin_reach_inv n s R) as I.
    assert (exists s1, rtc spin_run s s1 /\ sinv s1 /\ slock s1 = 0) as (s1 & R1 & I1 & Hk1).
    { destruct (decide (slock s = 0)) as [|Hk]; [by exists s; split_and!; [apply rtc_refl|..]|].
      pose proof (sinv_word _ I). pose proof (proj1 I).
      destruct (sumz_exists b_sholds (spcs s) b_sholds_pos) as (q & [i Hi]%list_elem_of_lookup & Hq); [lia|].
      assert (q = s_unlock) as -> by (destruct q; try done; by destruct (Hn i); rewrite Hi).
      destruct (spin_go s i s_unlock 0 s_out Hi eq_refl) as (s1 & R1 & Hl & _).
      exists s1. split_and!; [by apply rtc_once| |done].
      eapply sstep_inv; [done|]. by apply lock_step_spin, ls_run. }
    destruct (spin_free s1 I1 Hk1) as (s' & R' & Hs'). exists s'. split; [by etrans|].
    destruct Hs' as [[i Hi]|Ho]; [left; exists i; by rewrite Hi|right].
    intros i p (q & Hq & ->)%fmap_Some. by rewrite (Ho i q Hq).
Qed.
End SpinInstance.

(** ** What locks are for *)

Section theorems.
Context {L : LockImpl} {HL : LockLaws L} {D V : Type}.

(** C4: critical sections are atomic.  Threads that share data run any number of
    sections, each a sequence of accesses to the data between lock_acquire (or a
    successful lock_try_acquire) and lock_release, and their steps interleave
    with each other and with the steps inside the lock's functions in any way.
    Every state they reach is explained by a run in which whole sections execute
    one at a time: all threads without the lock agree with that run, the one
    with the lock is part of the way through its section, and while nobody has
    the lock the shared data agree.  This holds of the futex lock and of the spin
    lock, and of any other that keeps the laws of the interface. *)
Theorem critical_sections_are_atomic (d : D) progs (s : cstate D V) : rtc cstep (start d progs) s ->
  exists a : astate D V, rtc astep (mk_a d progs) a /\ matches s a /\
    (forall i j, busy s i -> busy s j -> i = j).
Proof.
  intros (I & a & R & M)%start_simulated. exists a. split_and!; [done..|]. intros i j. by apply busy_one.
Qed.

Lemma finished_serial (s : cstate D V) a : cinv s -> matches s a -> (forall t, t ∈ ths s -> todo t = []) ->
  ashared a = shared s /\ aths a = (fun t => ([], vars t)) <$> ths s.
Proof.
  intros I M Hd.
  assert (forall i, ~ busy s i) as Hnb.
  { intros i Hb. destruct (lookup_lt_is_Some_2 (ths s) i) as [t Ht]; [eapply reach_dom; [apply I|exact Hb]|].
    destruct (ci_fits _ I i t Ht) as (p & Hp & Hf). unfold busy in Hb. rewrite Hb in Hp. simplify_eq.
    destruct Hf as [_ []]. apply Hd. by eapply list_elem_of_lookup_2. }
  split; [symmetry; by apply M|]. apply list_eq. intros i. rewrite list_lookup_fmap.
  destruct (ths s !! i) as [t|] eqn:Ht.
  - cbn. rewrite (m_idle _ _ M i t Ht (Hnb i)). rewrite Hd; [done|by eapply list_elem_of_lookup_2].
  - cbn. apply lookup_ge_None_2. rewrite (m_length _ _ M). by apply lookup_ge_None_1.
Qed.

(** C5: critical sections get done.  From every state the threads reach they
    can go on until every section has run, and the shared data and the variables
    are then those of a run that executes the sections one at a time: no thread
    is left waiting for a lock that nobody has. *)
Theorem critical_sections_finish (d : D) progs (s : cstate D V) : rtc cstep (start d progs) s ->
  exists s', rtc cstep s s' /\ (forall t, t ∈ ths s' -> todo t = []) /\
    exists a : astate D V, rtc astep (mk_a d progs) a /\ ashared a = shared s' /\
      aths a = (fun t => ([], vars t)) <$> ths s'.
Proof.
  intros R. destruct (start_simulated _ _ _ R) as [I _].
  destruct (all_finish s I) as (s' & R' & Hd). exists s'. split_and!; [done..|].
  destruct (start_simulated d progs s') as (I' & a & Ra & M); [by etrans|].
  exists a. split; [done|]. by apply finished_serial.
Qed.
End theorems.

(** Two threads add one to a counter, reading it and writing it in two accesses,
    under the futex lock.  One has read it, the other waits. *)
Definition incr : list (action Z Z) := [fun d _ => (d, d); fun _ v => (v + 1, v)].

Definition two_adders : list (list (csection Z Z) * Z) := [([(false, incr)], 0); ([(true, incr)], 0)].

Definition half_way : cstate (L := FutexInstance.futex_lock) Z Z :=
  mk_c (L := FutexInstance.futex_lock) (mk_f MUTEX_LOCKED [f_held; f_try]) 7
    [mk_thread [(false, [fun _ v => (v + 1, v)])] true 7; mk_thread [(true, incr)] true 0].

Lemma half_way_reachable : rtc cstep (start (L := FutexInstance.futex_lock) 7 two_adders) half_way.
Proof.
  eapply rtc_l; [eapply (cs_enter (L := FutexInstance.futex_lock) _ 0%nat); reflexivity|]. cbn.
  eapply rtc_l; [apply (cs_run (L := FutexInstance.futex_lock)); cbn;
    eapply (is_run _ 0%nat); vm_compute; reflexivity|]. cbn.
  eapply rtc_l; [eapply (cs_act (L := FutexInstance.futex_lock) _ 0%nat); reflexivity|]. cbn.
  eapply rtc_l; [eapply (cs_enter (L := FutexInstance.futex_lock) _ 1%nat); reflexivity|]. apply rtc_refl.
Qed.

Lemma critical_sections_are_atomic_witness : exists a : astate Z Z, rtc astep (mk_a 7 two_adders) a /\
  matches half_way a /\ (forall i j, busy half_way i -> busy half_way j -> i = j).
Proof. exact (critical_sections_are_atomic (HL := FutexInstance.futex_lock_laws) 7 two_adders half_way half_way_reachable). Defined.

Lemma critical_sections_finish_witness : exists s', rtc cstep half_way s' /\
  (forall t, t ∈ ths s' -> todo t = []) /\
  exists a : astate Z Z, rtc astep (mk_a 7 two_adders) a /\ ashared a = shared s' /\
    aths a = (fun t => ([], vars t)) <$> ths s'.
Proof. exact (critical_sections_finish (HL := FutexInstance.futex_lock_laws) 7 two_adders half_way half_way_reachable). Defined.
