(* ===== verification/Support.v ===== *)
(** * What the platform header adds (include/inter/support.h)

    - [ClockMask]: the nesting count of the clock signal's mask as it follows
      coroutines from one VPU to another (TSC_SIGNAL_STATE_SAVE and _LOAD in
      [vpu_syscall] and [core_sched] of src/vpu.c), with the clock signal arriving
      at any time.  The assertion of [vpu_clock_handler] does not fail, provided
      coroutines leave their VPU with the signal masked.
    - [Atomics]: the exchange and the store that old compilers get, which are
      loops around a compare-and-swap, do what the atomic operations do.
    - [Processors]: the number of processors and the pause of a spinning thread. *)

From S2P Require Import Prelude Boot.

(** ** The clock signal and the context switch *)

Module ClockMask.

(** What a coroutine leaves behind when it is off its VPU: the count saved in
    [sigmask_nest], the signal mask saved with its context, and whether it was
    interrupted, that is, it left from [vpu_clock_handler]. *)
Record saved := mk_saved { s_nest : Z; s_blocked : bool; s_handler : bool }.

(** [TSC_SIGNAL_STATE_SAVE], and the mask that [TSC_CONTEXT_SAVE] keeps. *)
Definition TSC_SIGNAL_STATE_SAVE (t : sigstate) (handler : bool) : saved :=
  mk_saved (sigmask_nest t) (sig_blocked t) handler.

(** [TSC_SIGNAL_STATE_LOAD]: the count only; the mask comes with the context. *)
Definition TSC_SIGNAL_STATE_LOAD (c : saved) (t : sigstate) : sigstate :=
  mk_sig (s_nest c) (sig_blocked t).

(** The same for Darwin, whose contexts do not have the mask. *)
Definition TSC_SIGNAL_STATE_LOAD_darwin (c : saved) (t : sigstate) : sigstate :=
  mk_sig (s_nest c) (if s_nest c =? 0 then false else sig_blocked t).

(** Where the thread of a VPU is. *)
Inductive ctl : Type :=
| in_coroutine (handler : bool)   (* running a coroutine, or its interruption *)
| leaving                         (* [vpu_syscall]: before loading the scheduler's context *)
| in_scheduler                    (* in [core_sched] *)
| entering (c : saved).           (* [core_sched]: before loading the candidate's context *)

(** [vpu->current == vpu->scheduler] is [on_scheduler]. *)
Record vthread := mk_v { v_sig : sigstate; on_scheduler : bool; v_ctl : ctl }.

(** The VPUs, and the coroutines that are off them. *)
Record sys := mk_sys { vthreads : list vthread; parked : list saved }.

Definition put (i : nat) (v : vthread) (s : sys) : sys := mk_sys (<[i := v]> (vthreads s)) (parked s).

(** [all_masked]: no coroutine leaves with the signal unmasked. *)
Inductive mstep (all_masked : bool) (s : sys) : sys -> Prop :=
| ms_mask i t : vthreads s !! i = Some (mk_v t false (in_coroutine false)) ->
    sigmask_nest t + 1 < 2 ^ 31 ->
    mstep all_masked s (put i (mk_v (TSC_SIGNAL_MASK t) false (in_coroutine false)) s)
| ms_unmask i t : vthreads s !! i = Some (mk_v t false (in_coroutine false)) ->
    0 < sigmask_nest t ->
    mstep all_masked s (put i (mk_v (TSC_SIGNAL_UNMASK t) false (in_coroutine false)) s)
(* [vpu_syscall]: [vpu->current = scheduler] ... *)
| ms_leave i t h : vthreads s !! i = Some (mk_v t false (in_coroutine h)) ->
    (all_masked = true -> 0 < sigmask_nest t \/ h = true) ->
    mstep all_masked s (mk_sys (<[i := mk_v t true leaving]> (vthreads s))
                               (TSC_SIGNAL_STATE_SAVE t h :: parked s))
(* ... and the scheduler's context, which blocks the signal *)
| ms_scheduler i t : vthreads s !! i = Some (mk_v t true leaving) ->
    mstep all_masked s (put i (mk_v (mk_sig (sigmask_nest t) true) true in_scheduler) s)
(* [core_sched]: the candidate is any of those that are off the VPUs *)
| ms_pick i t k c : vthreads s !! i = Some (mk_v t true in_scheduler) -> parked s !! k = Some c ->
    mstep all_masked s (mk_sys (<[i := mk_v (TSC_SIGNAL_STATE_LOAD c t) false (entering c)]> (vthreads s))
                               (delete k (parked s)))
| ms_enter i t c : vthreads s !! i = Some (mk_v t false (entering c)) ->
    mstep all_masked s (put i (mk_v (mk_sig (sigmask_nest t) (s_blocked c)) false
                                    (in_coroutine (s_handler c))) s)
(* [TSC_CONTEXT_INIT]: a new coroutine has an empty mask *)
| ms_create : mstep all_masked s (mk_sys (vthreads s) (mk_saved 0 false false :: parked s))
(* [vpu_clock_handler] starts, which blocks the signal, and returns *)
| ms_signal i t : vthreads s !! i = Some (mk_v t false (in_coroutine false)) -> sig_blocked t = false ->
    mstep all_masked s (put i (mk_v (mk_sig (sigmask_nest t) true) false (in_coroutine true)) s)
| ms_return i t : vthreads s !! i = Some (mk_v t false (in_coroutine true)) ->
    mstep all_masked s (put i (mk_v (mk_sig (sigmask_nest t) false) false (in_coroutine false)) s).

(** [per_vpu_initalize]: [TSC_SIGNAL_MASK], then the scheduler. *)
Definition start (n : nat) : sys :=
  mk_sys (replicate n (mk_v (TSC_SIGNAL_MASK (mk_sig 0 false)) true in_scheduler)) [].

(** The signal arrives while [vpu_clock_handler] would fail its assertion
    [vpu->current != vpu->scheduler]. *)
Definition assertion_fails (v : vthread) : Prop := sig_blocked (v_sig v) = false /\ on_scheduler v = true.

(** The count and the mask agree. *)
Definition agree (nest : Z) (blocked handler : bool) : Prop :=
  0 <= nest < 2 ^ 31 /\ blocked = (0 <? nest) || handler /\ (handler = true -> nest = 0).

Definition saved_ok (c : saved) : Prop := agree (s_nest c) (s_blocked c) (s_handler c).

Definition vthread_ok (v : vthread) : Prop :=
  match v_ctl v with
  | in_coroutine h => on_scheduler v = false /\ agree (sigmask_nest (v_sig v)) (sig_blocked (v_sig v)) h
  | leaving | in_scheduler => on_scheduler v = true /\ sig_blocked (v_sig v) = true
  | entering c => on_scheduler v = false /\ sig_blocked (v_sig v) = true /\
                  sigmask_nest (v_sig v) = s_nest c /\ saved_ok c
  end.

Definition sys_ok (s : sys) : Prop := Forall vthread_ok (vthreads s) /\ Forall saved_ok (parked s).

Lemma mask_agree t : agree (sigmask_nest t) (sig_blocked t) false -> sigmask_nest t + 1 < 2 ^ 31 ->
  agree (sigmask_nest (TSC_SIGNAL_MASK t)) (sig_blocked (TSC_SIGNAL_MASK t)) false.
Proof.
  intros (Hn & Hb & _) Hm. destruct t as [n b]. cbn in *. rewrite i32_small by lia.
  split; [lia|]. split; [|done]. rewrite orb_false_r in *. rewrite (proj2 (Z.ltb_lt 0 (n + 1))) by lia.
  destruct (Z.eqb_spec n 0); [done|]. rewrite Hb. apply Z.ltb_lt. lia.
Qed.

Lemma unmask_agree t : agree (sigmask_nest t) (sig_blocked t) false -> 0 < sigmask_nest t ->
  agree (sigmask_nest (TSC_SIGNAL_UNMASK t)) (sig_blocked (TSC_SIGNAL_UNMASK t)) false.
Proof.
  intros (Hn & Hb & _) Hm. destruct t as [n b]. cbn in *. rewrite i32_small by lia.
  split; [lia|]. split; [|done]. rewrite orb_false_r in *.
  destruct (Z.eqb_spec (n - 1) 0) as [->|]; [done|]. rewrite Hb.
  rewrite (proj2 (Z.ltb_lt 0 n)), (proj2 (Z.ltb_lt 0 (n - 1))) by lia. done.
Qed.

Lemma sys_ok_set s i v : sys_ok s -> vthread_ok v -> sys_ok (put i v s).
Proof. intros [Hv Hp] Hok. split; [|done]. cbn. by apply Forall_insert. Qed.

Lemma mstep_ok s s' : sys_ok s -> mstep true s s' -> sys_ok s'.
Proof.
  intros I St.
  assert (forall i v, vthreads s !! i = Some v -> vthread_ok v) as Hv.
  { intros i v Hi. eapply Forall_lookup_1; [apply I|done]. }
  destruct St as [i t Hi Hb|i t Hi Hb|i t h Hi Hm|i t Hi|i t k c Hi Hk|i t c Hi| |i t Hi Hb|i t Hi];
    try (apply Hv in Hi; unfold vthread_ok in Hi; cbn in Hi).
  - apply sys_ok_set; [done|]. split; [done|]. apply mask_agree; [apply Hi|done].
  - apply sys_ok_set; [done|]. split; [done|]. apply unmask_agree; [apply Hi|done].
  - destruct Hi as [_ Ha]. destruct I as [Iv Ip]. split; cbn; [|by constructor; [exact Ha|]].
    apply Forall_insert; [done|]. split; [done|]. cbn. destruct Ha as (_ & -> & _).
    destruct (Hm eq_refl) as [Hlt| ->]; [by rewrite (proj2 (Z.ltb_lt _ _) Hlt)|apply orb_true_r].
  - by apply sys_ok_set.
  - destruct I as [Iv Ip]. split; cbn; [|by apply Forall_delete].
    apply Forall_insert; [done|]. unfold vthread_ok. cbn. split_and!; [done|by destruct Hi|done|].
    by eapply Forall_lookup_1.
  - apply sys_ok_set; [done|]. destruct Hi as (_ & _ & -> & Hc). by split.
  - destruct I as [Iv Ip]. split; cbn; [done|]. constructor; [|done]. by split.
  - apply sys_ok_set; [done|]. destruct Hi as [_ (Hn & E & _)]. rewrite Hb in E.
    symmetry in E. apply orb_false_iff in E as [E _]. apply Z.ltb_ge in E.
    split; [done|]. split; [done|]. cbn. split; [by rewrite orb_true_r|lia].
  - apply sys_ok_set; [done|]. destruct Hi as [_ (Hn & E & Hz)]. specialize (Hz eq_refl).
    split; [done|]. cbn. rewrite Hz. by split.
Qed.

Lemma start_ok n : sys_ok (start n).
Proof. split; cbn; [|done]. by apply Forall_replicate. Qed.

(** C10: the clock signal finds a coroutine.  While coroutines leave their VPUs
    only with the signal masked (or from the handler itself, where it is
    blocked), however VPUs, coroutines and signals interleave: the signal never
    arrives while a VPU's current coroutine is its scheduler, so the assertion
    of vpu_clock_handler holds; and a coroutine that runs outside of the handler,
    on whatever VPU, has the signal blocked exactly when it has masked it more
    often than unmasked it. *)
Theorem clock_signal_safe n s i v : rtc (mstep true) (start n) s -> vthreads s !! i = Some v ->
  ~ assertion_fails v /\
  (v_ctl v = in_coroutine false -> mask_ok (v_sig v)).
Proof.
  intros R Hi. assert (sys_ok s) as [I _].
  { generalize (start_ok n). induction R; eauto using mstep_ok. }
  pose proof (Forall_lookup_1 _ _ _ _ I Hi) as Hok. unfold vthread_ok in Hok. split.
  - intros [Hb Ho]. destruct (v_ctl v); destruct Hok as [? ?]; congruence.
  - intros E. rewrite E in Hok. destruct Hok as (_ & Hn & Hb & _). rewrite orb_false_r in Hb.
    split; [lia|done].
Qed.

(** A coroutine masks the signal, leaves VPU 0, and runs on VPU 1. *)
Definition moved_over : sys :=
  mk_sys [mk_v (mk_sig 1 true) true in_scheduler; mk_v (mk_sig 1 true) false (in_coroutine false)] [].

Lemma moved_over_reachable : rtc (mstep true) (start 2) moved_over.
Proof.
  eapply rtc_l; [apply ms_create|]. cbn.
  eapply rtc_l; [by apply (ms_pick _ _ 0 (mk_sig 1 true) 0 (mk_saved 0 false false))|]. cbn.
  eapply rtc_l; [by apply (ms_enter _ _ 0 (mk_sig 0 true) (mk_saved 0 false false))|]. cbn.
  eapply rtc_l; [by apply (ms_mask _ _ 0 (mk_sig 0 false))|]. cbn.
  eapply rtc_l; [apply (ms_leave _ _ 0 (mk_sig 1 true) false); [done|by left]|]. cbn.
  eapply rtc_l; [by apply (ms_scheduler _ _ 0 (mk_sig 1 true))|]. cbn.
  eapply rtc_l; [by apply (ms_pick _ _ 1 (mk_sig 1 true) 0 (mk_saved 1 true false))|]. cbn.
  eapply rtc_l; [by apply (ms_enter _ _ 1 (mk_sig 1 true) (mk_saved 1 true false))|]. apply rtc_refl.
Qed.

Lemma clock_signal_safe_witness :
  let v := mk_v (mk_sig 1 true) false (in_coroutine false) in
  ~ assertion_fails v /\ (v_ctl v = in_coroutine false -> mask_ok (v_sig v)).
Proof. exact (clock_signal_safe 2 moved_over 1 _ moved_over_reachable eq_refl). Defined.

(** [coroc_group_sync] calls [vpu_suspend] without masking the signal: it can
    arrive between the two steps of [vpu_syscall], and then the assertion
    fails. *)
Example group_sync_unmasked : exists s v,
  rtc (mstep false) (start 1) s /\ vthreads s !! 0%nat = Some v /\ assertion_fails v.
Proof.
  do 2 eexists. split; [|split].
  - eapply rtc_l; [apply ms_create|]. cbn.
    eapply rtc_l; [by apply (ms_pick _ _ 0 (mk_sig 1 true) 0 (mk_saved 0 false false))|]. cbn.
    eapply rtc_l; [by apply (ms_enter _ _ 0 (mk_sig 0 true) (mk_saved 0 false false))|]. cbn.
    eapply rtc_l; [by apply (ms_leave _ _ 0 (mk_sig 0 false) false)|]. apply rtc_refl.
  - reflexivity.
  - by split.
Qed.

(** On Darwin the signal is let in before [vpu->current] is set, which is why
    the handler there returns when it finds the scheduler. *)
Example darwin_unblocks_early t :
  sig_blocked (TSC_SIGNAL_STATE_LOAD_darwin (mk_saved 0 false false) t) = false.
Proof. reflexivity. Qed.

End ClockMask.

(** ** Exchange and store as loops *)

Module Atomics.

(** The compilers that get the loops: [__GNUC__ < 4 || __GNUC_MINOR__ < 7]. *)
Definition old_compiler (gnuc gnuc_minor : Z) : bool := (gnuc <? 4) || (gnuc_minor <? 7).

(** [TSC_CAS(pval, old, new)]: the word after it, and whether it succeeded. *)
Definition TSC_CAS (cell old new : Z) : Z * bool :=
  if cell =? old then (new, true) else (cell, false).

(** Where the thread is in the loop of [TSC_XCHG] (and of [TSC_ATOMIC_WRITE],
    which is the same without the result). *)
Inductive xpc : Type :=
| x_read                 (* before [__old = *pval] *)
| x_cas (old : Z)        (* before the compare-and-swap *)
| x_done (old : Z).      (* left the loop with [__old] *)

(** One access of the thread: the word and the place after it.  [__old] is a
    uint32_t. *)
Definition TSC_XCHG (new : Z) (cell : Z) (p : xpc) : option (Z * xpc) :=
  match p with
  | x_read => Some (cell, x_cas (u32 cell))
  | x_cas old => let '(cell', ok) := TSC_CAS cell old new in
                 Some (cell', if ok then x_done old else x_read)
  | x_done _ => None
  end.

(** A run of the loop among other threads: [others] are the values they store
    before each access of this thread, [None] if they do not. *)
Fixpoint xchg_run (new : Z) (others : list (option Z)) (cell : Z) (p : xpc) : Z * xpc :=
  match others with
  | [] => (cell, p)
  | o :: others =>
      let cell := default cell o in
      match TSC_XCHG new cell p with
      | Some (cell', p') => xchg_run new others cell' p'
      | None => xchg_run new others cell p
      end
  end.

(** What the word would be under the stores of the others, with the exchange as
    one operation after [k] of them, and what the exchange returns. *)
Fixpoint atomic_run (new : Z) (k : nat) (others : list (option Z)) (cell : Z) : Z * option Z :=
  match others with
  | [] => (cell, None)
  | o :: others =>
      let cell := default cell o in
      match k with
      | 0%nat => ((fold_left (fun c o => default c o) others new), Some cell)
      | S k => atomic_run new k others cell
      end
  end.

Definition word_ok (o : option Z) : Prop := match o with Some v => 0 <= v < 2 ^ 32 | None => True end.

Lemma default_ok cell o : 0 <= cell < 2 ^ 32 -> word_ok o -> 0 <= default cell o < 2 ^ 32.
Proof. by destruct o. Qed.

Lemma xchg_after new old others cell :
  xchg_run new others cell (x_done old) = (fold_left (fun c o => default c o) others cell, x_done old).
Proof. revert cell. induction others as [|o others IH]; intros cell; cbn; [done|]. apply IH. Qed.

(** The exchange is atomic: if the loop was left with [old], then the
    word went through the values it has when the exchange is one operation at
    some point of the run, and that operation returns [old]. *)
Lemma xchg_run_atomic new others : 0 <= new < 2 ^ 32 -> Forall word_ok others -> forall cell p c' old,
  0 <= cell < 2 ^ 32 -> (forall v, p <> x_done v) -> xchg_run new others cell p = (c', x_done old) ->
  exists k, atomic_run new k others cell = (c', Some old).
Proof.
  intros Hnew Hw. induction Hw as [|o others Ho Hw IH]; intros cell p c' old Hc Hp E; cbn in E.
  { simplify_eq. by destruct (Hp old). }
  pose proof (default_ok cell o Hc Ho) as Hd.
  destruct p as [|v|v]; cbn in E; [| |by destruct (Hp v)].
  - destruct (IH (default cell o) (x_cas (u32 (default cell o))) c' old) as [k Hk]; [done..|].
    by exists (S k).
  - unfold TSC_CAS in E. destruct (Z.eqb_spec (default cell o) v) as [<-|Hne].
    + rewrite xchg_after in E. simplify_eq. by exists 0%nat.
    + destruct (IH (default cell o) x_read c' old) as [k Hk]; [done..|]. by exists (S k).
Qed.

(** It ends as soon as the others leave the word alone between two accesses. *)
Lemma xchg_run_ends new others cell :
  0 <= cell < 2 ^ 32 -> Forall word_ok others -> forall p, (forall v, p <> x_done v) ->
  exists old, (xchg_run new (others ++ [None; None; None]) cell p).2 = x_done old.
Proof.
  intros Hc Hw. revert cell Hc. induction Hw as [|o others Ho Hw IH]; intros cell Hc p Hp.
  - destruct p as [|v|v]; [| |by destruct (Hp v)]; cbn.
    + unfold TSC_CAS. rewrite u32_small, Z.eqb_refl by lia. eauto.
    + unfold TSC_CAS. destruct (Z.eqb_spec cell v) as [<-|Hne]; [eauto|].
      cbn. unfold TSC_CAS. rewrite u32_small by lia. rewrite Z.eqb_refl. cbn. eauto.
  - pose proof (default_ok cell o Hc Ho) as Hd. destruct p as [|v|v]; [| |by destruct (Hp v)]; cbn.
    + by apply IH.
    + unfold TSC_CAS. destruct (Z.eqb_spec (default cell o) v) as [<-|Hne]; [rewrite xchg_after; eauto|].
      by apply IH.
Qed.

(** The exchange of old compilers is an exchange: whatever the other threads
    store in between, the loop behaves as one atomic operation at some point of
    the run, and it ends once the others leave the word alone for three accesses. *)
Theorem xchg_loop_is_atomic new others cell : 0 <= new < 2 ^ 32 -> 0 <= cell < 2 ^ 32 ->
  Forall word_ok others ->
  exists old k, xchg_run new (others ++ [None; None; None]) cell x_read =
    ((atomic_run new k (others ++ [None; None; None]) cell).1, x_done old) /\
    (atomic_run new k (others ++ [None; None; None]) cell).2 = Some old.
Proof.
  intros Hn Hc Hw. destruct (xchg_run_ends new others cell Hc Hw x_read) as [old Ho]; [done|].
  destruct (xchg_run new _ cell x_read) as [c' p] eqn:E. cbn in Ho. subst p.
  eapply xchg_run_atomic in E as [k Hk]; [|done| |done|done].
  - exists old, k. by rewrite Hk.
  - apply Forall_app. split; [done|]. by repeat constructor.
Qed.

Example xchg_loop_is_atomic_witness : exists old k,
  xchg_run 1 ([Some 5; Some 7] ++ [None; None; None]) 0 x_read =
    ((atomic_run 1 k ([Some 5; Some 7] ++ [None; None; None]) 0).1, x_done old) /\
    (atomic_run 1 k ([Some 5; Some 7] ++ [None; None; None]) 0).2 = Some old.
Proof. apply xchg_loop_is_atomic; [lia..|]. repeat constructor; cbn; lia. Defined.

(** The test looks at the minor version alone: compilers from 5.0 on count as
    old, and get a [TSC_SYNC_ALL] that is no fence. *)
Example new_compilers_are_old : old_compiler 4 7 = false /\ old_compiler 5 4 = true /\ old_compiler 13 2 = true.
Proof. done. Qed.

End Atomics.

(** ** Processors *)

Module Processors.

(** [TSC_NP_ONLINE] of the BSDs: [sysctl] is what the call of that name stores
    in [num_cpu], [None] when it fails and stores nothing. *)
Definition TSC_NP_ONLINE (sysctl : option Z) : res Z :=
  match sysctl with
  | None => Err Uninit
  | Some num_cpu => Ok (if num_cpu <=? 0 then 1 else num_cpu)
  end.

Lemma np_online_pos sysctl n : TSC_NP_ONLINE sysctl = Ok n -> 1 <= n.
Proof. destruct sysctl as [c|]; cbn; [|done]. destruct (Z.leb_spec c 0); intros [= <-]; lia. Qed.

(** [__procyield]: the pauses from [i] on; the counter is a uint32_t. *)
Fixpoint __procyield (fuel : nat) (i cnt : Z) : option nat :=
  match fuel with
  | 0%nat => None
  | S fuel => if i <? cnt then S <$> __procyield fuel (u32 (i + 1)) cnt else Some 0%nat
  end.

(** It ends after [cnt] pauses, for every count. *)
Lemma procyield_pauses n : forall i cnt, 0 <= i -> i + Z.of_nat n = cnt -> cnt < 2 ^ 32 ->
  __procyield (S n) i cnt = Some n.
Proof.
  induction n as [|n IH]; intros i cnt Hi Hn Hc.
  - cbn. by rewrite (proj2 (Z.ltb_ge i cnt)) by lia.
  - remember (S n) as m. cbn. rewrite (proj2 (Z.ltb_lt i cnt)) by lia. rewrite u32_small by lia.
    subst m. by rewrite (IH (i + 1) cnt) by lia.
Qed.

End Processors.
