(* ===== verification/Names.v ===== *)
(** * Names and attributes of coroutines (src/coroutine.c, include/inter/coroutine.h)

    A coroutine carries its name in an array of TSC_NAME_LENGTH bytes:
    [coroc_coroutine_allocate] clears it and copies the name with strcpy,
    [coroc_coroutine_set_name] overwrites it with strncpy, and
    [coroc_coroutine_backtrace] prints it.  A C string given to these functions
    is the list of its characters, without the NUL that ends it in memory. *)

From S2P Require Import Prelude Queue RunQueue Scheduler Coroutine.

Definition TSC_NAME_LENGTH : nat := 32.

(** ** The C library's strings *)

(** The string an array holds; [None]: no NUL, so reading goes on past the end. *)
Fixpoint c_str (a : list Z) : option (list Z) :=
  match a with
  | [] => None
  | x :: a => if x =? 0 then Some [] else (cons x) <$> c_str a
  end.

(** [strcpy]: copies the characters and the NUL. *)
Definition strcpy (dest src : list Z) : res (list Z) :=
  if (length src <? length dest)%nat
  then Ok (src ++ 0 :: drop (S (length src)) dest)
  else Err OutOfBounds.

(** [strncpy]: writes [n] bytes, with NULs after a string that is shorter. *)
Definition strncpy (dest src : list Z) (n : nat) : res (list Z) :=
  if (n <=? length dest)%nat
  then Ok (take n src ++ replicate (n - length src) 0 ++ drop n dest)
  else Err OutOfBounds.

Arguments strcpy : simpl never.
Arguments strncpy : simpl never.

Definition is_string (s : list Z) : Prop := Forall (fun x => 0 < x < 256) s.

Lemma c_str_app s rest : is_string s -> c_str (s ++ 0 :: rest) = Some s.
Proof.
  induction 1 as [|x s Hx _ IH]; cbn; [done|]. rewrite (proj2 (Z.eqb_neq x 0)) by lia. by rewrite IH.
Qed.

(** ** The operations *)

(** The state: the arrays of the coroutines that exist, [gmap coid (list Z)]. *)

(** [memset] and [strcpy] in [coroc_coroutine_allocate]. *)
Definition allocate_name (c : coid) (name : list Z) : ST (gmap coid (list Z)) unit :=
  let! field := demand OutOfBounds (match strcpy (replicate TSC_NAME_LENGTH 0) name with
                                    | Ok f => Some f | Err _ => None end) in
  modify (insert c field).

(** [name]: [None] is NULL; [self]: what [coroc_coroutine_self] returns. *)
Definition coroc_coroutine_set_name (self : option coid) (name : option (list Z)) : ST (gmap coid (list Z)) unit :=
  let! name := demand AssertFail name in
  let! me := demand NullDeref self in
  let! m := get in
  let! field := demand Dangling (m !! me) in
  let! field := demand OutOfBounds (match strncpy field name (TSC_NAME_LENGTH - 1) with
                                    | Ok f => Some f | Err _ => None end) in
  modify (insert me field).

(** The string that [%s] prints of a coroutine's name. *)
Definition print_name (c : coid) : ST (gmap coid (list Z)) (list Z) :=
  let! m := get in
  let! field := demand Dangling (m !! c) in
  demand OutOfBounds (c_str field).

Inductive name_op : Type :=
| op_allocate (c : coid) (name : list Z)
| op_set_name (c : coid) (name : list Z).

Definition op_name (o : name_op) : list Z := match o with op_allocate _ n | op_set_name _ n => n end.

Definition exec_op (o : name_op) : ST (gmap coid (list Z)) unit :=
  match o with
  | op_allocate c n => allocate_name c n
  | op_set_name c n => coroc_coroutine_set_name (Some c) (Some n)
  end.

Fixpoint exec_ops (os : list name_op) : ST (gmap coid (list Z)) unit :=
  match os with
  | [] => ret tt
  | o :: os => do! exec_op o in exec_ops os
  end.

(** The specification: what the names are. *)
Fixpoint name_of (os : list name_op) (m : gmap coid (list Z)) : gmap coid (list Z) :=
  match os with
  | [] => m
  | op_allocate c n :: os => name_of os (<[c := n]> m)
  | op_set_name c n :: os => name_of os (<[c := take 31 n]> m)
  end.

(** Names that can be given: short enough for [strcpy], and only coroutines
    that exist are renamed. *)
Fixpoint ops_fit (os : list name_op) (known : gset coid) : Prop :=
  match os with
  | [] => True
  | op_allocate c n :: os => (length n < TSC_NAME_LENGTH)%nat /\ ops_fit os ({[c]} ∪ known)
  | op_set_name c n :: os => c ∈ known /\ ops_fit os known
  end.

(** A name field: an array of the right size that holds the string. *)
Definition field_ok (field s : list Z) : Prop :=
  length field = TSC_NAME_LENGTH /\ field !! 31%nat = Some 0 /\ c_str field = Some s.

Definition names_ok (m : gmap coid (list Z)) (spec : gmap coid (list Z)) : Prop :=
  dom m = dom spec /\ forall c field s, m !! c = Some field -> spec !! c = Some s -> field_ok field s.

Lemma strcpy_field n : is_string n -> (length n < TSC_NAME_LENGTH)%nat ->
  exists f, strcpy (replicate TSC_NAME_LENGTH 0) n = Ok f /\ field_ok f n.
Proof.
  intros Hs Hn. unfold strcpy. rewrite length_replicate, (proj2 (Nat.ltb_lt _ _) Hn).
  eexists. split; [done|]. rewrite drop_replicate. unfold TSC_NAME_LENGTH in *.
  assert (length (n ++ 0 :: replicate (32 - S (length n)) 0) = 32%nat) as Hl.
  { rewrite length_app. cbn. rewrite length_replicate. lia. }
  split_and!; [done| |by apply c_str_app].
  change (0 :: replicate (32 - S (length n)) 0) with (replicate (S (32 - S (length n))) 0).
  rewrite lookup_app_r by lia. apply lookup_replicate_2. lia.
Qed.

Lemma strncpy_field f s n : is_string n -> field_ok f s ->
  exists f', strncpy f n (TSC_NAME_LENGTH - 1) = Ok f' /\ field_ok f' (take 31 n).
Proof.
  intros Hs (Hl & H31 & _). unfold strncpy, TSC_NAME_LENGTH in *. rewrite Hl. cbn [Nat.sub Nat.leb].
  eexists. split; [done|].
  assert (drop 31 f = [0]) as ->.
  { rewrite (drop_S f 0 31) by done. by rewrite drop_ge by lia. }
  assert (length (take 31 n ++ replicate (31 - length n) 0) = 31%nat) as Hp.
  { rewrite length_app, length_take, length_replicate. lia. }
  rewrite (assoc_L (++)). split_and!.
  - rewrite length_app, Hp. done.
  - by rewrite lookup_app_r, Hp by lia.
  - rewrite <- (assoc_L (++)). assert (is_string (take 31 n)) as Hs' by (by apply Forall_take).
    destruct (decide (31 <= length n)%nat) as [Hge|Hlt].
    + replace (31 - length n)%nat with 0%nat by lia. by apply c_str_app.
    + replace (31 - length n)%nat with (S (30 - length n)) by lia. cbn. by apply c_str_app.
Qed.

Lemma names_ok_insert m spec c f s : names_ok m spec -> field_ok f s ->
  names_ok (<[c := f]> m) (<[c := s]> spec).
Proof.
  intros [Hd Hm] Hf. split; [by rewrite !dom_insert_L, Hd|]. intros c' f' s'.
  destruct (decide (c = c')) as [<-|Hne].
  - rewrite !lookup_insert_eq. by intros [= <-] [= <-].
  - rewrite !lookup_insert_ne by done. apply Hm.
Qed.

Lemma exec_ops_ok os : Forall (fun o => is_string (op_name o)) os -> forall m spec,
  names_ok m spec -> ops_fit os (dom m) ->
  exists m', exec_ops os m = Ok (tt, m') /\ names_ok m' (name_of os spec).
Proof.
  induction 1 as [|o os Ho _ IH]; intros m spec Hok Hfit; [by exists m|].
  destruct o as [c n|c n]; cbn in Ho; destruct Hfit as [Hc Hfit].
  - destruct (strcpy_field n Ho Hc) as (f & E & Hf).
    destruct (IH (<[c := f]> m) (<[c := n]> spec)) as (m' & E' & Hok').
    + by apply names_ok_insert.
    + by rewrite dom_insert_L.
    + exists m'. split; [|done]. cbn. unfold allocate_name. rewrite E. by run_st.
  - apply elem_of_dom in Hc as [f Hf]. assert (is_Some (spec !! c)) as [s Hs].
    { apply elem_of_dom. rewrite <- (proj1 Hok). by apply elem_of_dom. }
    destruct (strncpy_field f s n Ho) as (f' & E & Hf'); [by apply Hok with c|].
    destruct (IH (<[c := f']> m) (<[c := take 31 n]> spec)) as (m' & E' & Hok').
    + by apply names_ok_insert.
    + rewrite dom_insert_L. replace ({[c]} ∪ dom m) with (dom m); [done|].
      assert (c ∈ dom m) by (by apply elem_of_dom). set_solver.
    + exists m'. split; [|done]. cbn. unfold coroc_coroutine_set_name. run_st. rewrite Hf. run_st.
      cbn in E. rewrite E. by run_st.
Qed.

(** C39: names are strings.  Whatever names coroutines are created with, as long
    as they are shorter than TSC_NAME_LENGTH, and whatever they are renamed to:
    nothing is written outside the arrays, every array keeps its size and a NUL
    in its last byte, and what is printed is the name the coroutine was created
    with, or the first 31 characters of the last one it was given. *)
Theorem names_are_strings os : Forall (fun o => is_string (op_name o)) os -> ops_fit os ∅ ->
  exists m, exec_ops os ∅ = Ok (tt, m) /\
    (forall c field, m !! c = Some field -> length field = TSC_NAME_LENGTH /\ field !! 31%nat = Some 0) /\
    (forall c s, name_of os ∅ !! c = Some s -> print_name c m = Ok (s, m)).
Proof.
  intros Hs Hf. destruct (exec_ops_ok os Hs ∅ ∅) as (m & E & Hd & Hm); [by split|by rewrite dom_empty_L|].
  exists m. split; [done|]. split.
  - intros c field Hc. assert (is_Some (name_of os ∅ !! c)) as [s Hsp].
    { apply elem_of_dom. rewrite <- Hd. by apply elem_of_dom. }
    by destruct (Hm c field s Hc Hsp) as (? & ? & _).
  - intros c s Hsp. assert (is_Some (m !! c)) as [field Hc].
    { apply elem_of_dom. rewrite Hd. by apply elem_of_dom. }
    destruct (Hm c field s Hc Hsp) as (_ & _ & Hstr). unfold print_name. run_st. rewrite Hc. run_st.
    by rewrite Hstr.
Qed.

(** "ab" is created and renamed to 40 characters. *)
Definition rename_long : list name_op := [op_allocate 1%nat [97; 98]; op_set_name 1%nat (replicate 40 99)].

Lemma names_are_strings_witness : exists m, exec_ops rename_long ∅ = Ok (tt, m) /\
  (forall c field, m !! c = Some field -> length field = TSC_NAME_LENGTH /\ field !! 31%nat = Some 0) /\
  (forall c s, name_of rename_long ∅ !! c = Some s -> print_name c m = Ok (s, m)).
Proof.
  apply (names_are_strings rename_long).
  - repeat constructor.
  - cbn. unfold TSC_NAME_LENGTH. split; [lia|]. split; [set_solver|done].
Defined.

Example renamed_prints_31 : forall m, exec_ops rename_long ∅ = Ok (tt, m) ->
  print_name 1%nat m = Ok (replicate 31 99, m).
Proof. intros m [= <-]. reflexivity. Qed.

(** A name of TSC_NAME_LENGTH characters or more is written past the array. *)
Example long_name_overflows c n m : (TSC_NAME_LENGTH <= length n)%nat ->
  allocate_name c n m = Err OutOfBounds.
Proof.
  intros Hn. unfold allocate_name, strcpy. rewrite length_replicate.
  by rewrite (proj2 (Nat.ltb_ge _ _) Hn).
Qed.

(** ** Attributes *)

Record coroc_coroutine_attributes := mk_attr { attr_stack_size : Z; attr_timeslice : Z; attr_affinity : Z }.

Definition TSC_DEFAULT_TIMESLICE : Z := 5.

Definition coroc_coroutine_attr_init (xt_index : Z) : coroc_coroutine_attributes :=
  mk_attr (u32 TSC_DEFAULT_STACK_SIZE) TSC_DEFAULT_TIMESLICE (u32 xt_index).

(** The default attributes are those a new coroutine gets, with up to 255 VPUs. *)
Lemma attr_defaults tid type prio xt_index : 0 <= xt_index < 2 ^ 8 -> is_idle type = false ->
  let co := new_coroutine tid type prio xt_index in
  let attr := coroc_coroutine_attr_init xt_index in
  stack_size co = attr_stack_size attr /\ vpu_affinity co = attr_affinity attr.
Proof.
  intros Hx Ht. cbn. rewrite Ht. split; [reflexivity|].
  unfold u8, u32. by rewrite !Z.mod_small by lia.
Qed.

(** ** The backtrace of a coroutine

    What it prints first, and then it leaves through [core_exit]. *)
Definition coroc_coroutine_backtrace (v : nat) (m : gmap coid (list Z)) (self : coid)
  : ST world ((list Z * Z) * process) :=
  let! header := demand OutOfBounds (m !! self ≫= c_str) in
  let! co := get_co self in
  let! vp := get_vpu v in
  let! me := demand AssertFail (current vp) in
  do! upd_co me (set_syscall true) in
  do! upd_vpu v (set_current (scheduler vp)) in
  let! p := core_exit me in
  ret ((header, id co), p).

(** It ends the coroutine like [coroc_coroutine_exit], but without the cleanup:
    a coroutine of a group is not counted off. *)
Lemma backtrace_is_exit v m self vp co field s w p w' value :
  vpus w !! v = Some vp -> current vp = Some self -> coros w !! self = Some co ->
  status co = TSC_COROUTINE_RUNNING -> m !! self = Some field -> c_str field = Some s ->
  coroc_coroutine_exit v None value w = Ok (p, w') ->
  coroc_coroutine_backtrace v m self w = Ok (((s, id co), p), w').
Proof.
  intros Hv Hcur Hc Hs Hm Hf E. unfold coroc_coroutine_backtrace, coroc_coroutine_exit in *.
  assert (get_vpu v w = Ok (vp, w)) as Gv by (unfold get_vpu; run_st; by rewrite Hv).
  assert (get_co self w = Ok (co, w)) as Gc by (unfold get_co; run_st; by rewrite Hc).
  rewrite (bind_ok _ _ _ _ _ Gv), Hcur in E.
  change (demand AssertFail (Some self)) with (@ret world coid self) in E.
  rewrite (bind_ok _ _ w self w eq_refl), (bind_ok _ _ _ _ _ Gc), Hs in E.
  rewrite (bind_ok _ _ w tt w eq_refl), (bind_ok _ _ w tt w eq_refl), (bind_ok _ _ _ _ _ Gv), Hcur in E.
  rewrite (bind_ok _ _ w self w eq_refl) in E.
  rewrite (bind_ok _ _ w s w) by (rewrite Hm; cbn; by rewrite Hf).
  rewrite (bind_ok _ _ _ _ _ Gc), (bind_ok _ _ _ _ _ Gv), Hcur, (bind_ok _ _ w self w eq_refl).
  apply bind_inv in E as ([] & w1 & E1 & E). rewrite (bind_ok _ _ _ _ _ E1).
  apply bind_inv in E as ([] & w2 & E2 & E). rewrite (bind_ok _ _ _ _ _ E2).
  by rewrite (bind_ok _ _ _ _ _ E).
Qed.
