(* ===== verification/Parallel.v ===== *)
(** * Coroutines that fill an array together

    The programs of examples/C/ that compute share this shape: coroutines write
    parts of one array, each reports on a channel when it is done, and the main
    coroutine receives one report from each before it uses the array.  Here a
    coroutine is the list of its writes; a write that depends on the old value
    ([|=]) is a load and a store.  If the coroutines write different cells, the
    array is, when all reports have arrived, what it would be had they run one
    after another.  Spectral and Mandelbrot instantiate this. *)

From S2P Require Import Prelude.

Section parallel.
Context {A : Type}.

Inductive cell_op : Type :=
| set_cell (k : nat) (a : A)              (* v[k] = a *)
| upd_cell (k : nat) (f : A -> A).        (* v[k] = f(v[k]) *)

Definition op_cell (o : cell_op) : nat := match o with set_cell k _ | upd_cell k _ => k end.
Definition op_fun (o : cell_op) : A -> A := match o with set_cell _ a => fun _ => a | upd_cell _ f => f end.

(** What is left to write, the value loaded for the next write, and whether the
    report was sent. *)
Record worker := mk_w { loaded : option A; ops : list cell_op; reported : bool }.
Record pstate := mk_p { arr : list A; workers : list worker; received : nat }.

Definition put_worker (i : nat) (w : worker) (s : pstate) : pstate :=
  mk_p (arr s) (<[i := w]> (workers s)) (received s).

Inductive pstep (s : pstate) : pstate -> Prop :=
| ps_set i k a rest r : workers s !! i = Some (mk_w None (set_cell k a :: rest) r) ->
    pstep s (mk_p (<[k := a]> (arr s)) (<[i := mk_w None rest r]> (workers s)) (received s))
| ps_load i k f rest r a : workers s !! i = Some (mk_w None (upd_cell k f :: rest) r) ->
    arr s !! k = Some a ->
    pstep s (put_worker i (mk_w (Some a) (upd_cell k f :: rest) r) s)
| ps_store i k f rest r a : workers s !! i = Some (mk_w (Some a) (upd_cell k f :: rest) r) ->
    pstep s (mk_p (<[k := f a]> (arr s)) (<[i := mk_w None rest r]> (workers s)) (received s))
(* the channel has no buffer: sending and receiving are one step *)
| ps_report i : workers s !! i = Some (mk_w None [] false) ->
    pstep s (mk_p (arr s) (<[i := mk_w None [] true]> (workers s)) (S (received s))).

Definition start (arr0 : list A) (tasks : list (list cell_op)) : pstate :=
  mk_p arr0 ((fun t => mk_w None t false) <$> tasks) 0.

(** ** One after another *)

Fixpoint run_ops (os : list cell_op) (l : list A) : list A :=
  match os with
  | [] => l
  | o :: os => run_ops os (alter (op_fun o) (op_cell o) l)
  end.

Definition disjoint_ops (p q : list cell_op) : Prop :=
  forall o o', o ∈ p -> o' ∈ q -> op_cell o <> op_cell o'.

Definition writers_ok (n : nat) (tasks : list (list cell_op)) : Prop :=
  (forall i j p q, i <> j -> tasks !! i = Some p -> tasks !! j = Some q -> disjoint_ops p q) /\
  (forall p o, p ∈ tasks -> o ∈ p -> (op_cell o < n)%nat).

Lemma run_ops_app p q l : run_ops (p ++ q) l = run_ops q (run_ops p l).
Proof. revert l. induction p as [|o p IH]; intros l; cbn; [done|]. apply IH. Qed.

Lemma run_ops_length p l : length (run_ops p l) = length l.
Proof. revert l. induction p as [|o p IH]; intros l; cbn; [done|]. rewrite IH. apply length_alter. Qed.

(** A write commutes with writes to other cells. *)
Lemma run_ops_alter p o l : disjoint_ops [o] p ->
  run_ops p (alter (op_fun o) (op_cell o) l) = alter (op_fun o) (op_cell o) (run_ops p l).
Proof.
  revert l. induction p as [|x p IH]; intros l Hd; cbn; [done|].
  assert (op_cell o <> op_cell x) as Hne by (apply Hd; left).
  rewrite list_alter_alter_ne by done. apply IH. intros o' x' Ho Hx. apply Hd; [done|by right].
Qed.

(** ** The invariant *)

Definition todo (s : pstate) : list (list cell_op) := ops <$> workers s.

(** What a worker loaded is still there. *)
Definition loaded_ok (l : list A) (w : worker) : Prop :=
  match loaded w with
  | None => True
  | Some a => exists k f rest, ops w = upd_cell k f :: rest /\ l !! k = Some a
  end.

Record pinv (n : nat) (result : list A) (s : pstate) : Prop := {
  pi_length : length (arr s) = n;
  pi_ok : writers_ok n (todo s);
  pi_loaded w : w ∈ workers s -> loaded_ok (arr s) w;
  pi_result : run_ops (concat (todo s)) (arr s) = result;
  pi_received : received s = count_if reported (workers s);
  pi_reported w : w ∈ workers s -> reported w = true -> ops w = []
}.

Lemma writers_ok_set n tasks i p p' : writers_ok n tasks -> tasks !! i = Some p -> p' ⊆ p ->
  writers_ok n (<[i := p']> tasks).
Proof.
  intros [Hd Hb] Hi Hs. pose proof (lookup_lt_Some _ _ _ Hi) as Hlt. split.
  - intros a b x y Hne Ha Hb' o o' Ho Ho'.
    apply list_lookup_insert_Some in Ha as [(<- & <- & _)|[Hna Ha]];
      apply list_lookup_insert_Some in Hb' as [(<- & <- & _)|[Hnb Hb']].
    + done.
    + apply (Hd i b p y Hne Hi Hb'); [by apply Hs|done].
    + apply (Hd a i x p Hne Ha Hi); [done|by apply Hs].
    + by apply (Hd a b x y Hne Ha Hb').
  - intros x o [j Hj]%list_elem_of_lookup Ho.
    apply list_lookup_insert_Some in Hj as [(<- & <- & _)|[_ Hj]];
      eapply Hb; [by eapply list_elem_of_lookup_2|by apply Hs|by eapply list_elem_of_lookup_2|done].
Qed.

(** The next write of one of them can be done first. *)
Lemma run_first n tasks i o rest l : writers_ok n tasks -> tasks !! i = Some (o :: rest) ->
  run_ops (concat tasks) l = run_ops (concat (<[i := rest]> tasks)) (alter (op_fun o) (op_cell o) l).
Proof.
  intros [Hd _] Hi. pose proof (lookup_lt_Some _ _ _ Hi) as Hlt.
  rewrite (insert_take_drop tasks i rest) by done.
  rewrite <- (take_drop_middle tasks i (o :: rest) Hi) at 1.
  rewrite !concat_app. cbn [concat]. rewrite !run_ops_app. cbn [run_ops].
  rewrite <- run_ops_alter; [done|]. intros x y ->%list_elem_of_singleton Hy.
  apply list_elem_of_In, in_concat in Hy as (t & Ht%list_elem_of_In & Hy%list_elem_of_In).
  apply list_elem_of_lookup in Ht as [j Hj].
  pose proof (lookup_lt_Some _ _ _ Hj) as Hlj. rewrite length_take in Hlj.
  rewrite lookup_take_lt in Hj by lia.
  eapply (Hd i j); [lia|done|done|left|done].
Qed.

Lemma set_alter (l : list A) k a : <[k := a]> l = alter (fun _ => a) k l.
Proof. revert k. induction l as [|x l IH]; intros [|k]; cbn; [done..|]. f_equal. apply IH. Qed.

Lemma store_alter (l : list A) k f a : l !! k = Some a -> <[k := f a]> l = alter f k l.
Proof.
  revert k. induction l as [|x l IH]; intros [|k] Hk; cbn in *; simplify_eq; [done|]. f_equal. by apply IH.
Qed.

Lemma todo_set s i w : ops <$> <[i := w]> (workers s) = <[i := ops w]> (todo s).
Proof. apply list_fmap_insert. Qed.

Lemma todo_lookup s i w : workers s !! i = Some w -> todo s !! i = Some (ops w).
Proof. intros Hi. unfold todo. by rewrite list_lookup_fmap, Hi. Qed.

(** What the others loaded is not overwritten. *)
Lemma loaded_kept n R s i j w u o : pinv n R s -> workers s !! i = Some w -> workers s !! j = Some u ->
  j <> i -> o ∈ ops w -> loaded_ok (alter (op_fun o) (op_cell o) (arr s)) u.
Proof.
  intros I Hi Hj Hne Ho. pose proof (pi_loaded _ _ _ I u) as Hu. unfold loaded_ok in *.
  destruct (loaded u) as [a|]; [|done].
  destruct Hu as (k & f & rest & Hops & Ha); [by eapply list_elem_of_lookup_2|].
  exists k, f, rest. split; [done|]. rewrite list_lookup_alter_ne; [done|].
  destruct (pi_ok _ _ _ I) as [Hd _]. apply (Hd i j (ops w) (ops u)) with (o' := upd_cell k f);
    [done|by apply todo_lookup..|done|]. rewrite Hops. left.
Qed.

Lemma write_inv n R s i l o rest r : pinv n R s -> workers s !! i = Some (mk_w l (o :: rest) r) ->
  pinv n R (mk_p (alter (op_fun o) (op_cell o) (arr s)) (<[i := mk_w None rest r]> (workers s)) (received s)).
Proof.
  intros I Hi. pose proof (todo_lookup _ _ _ Hi) as Ht. cbn in Ht.
  split; unfold todo; cbn [arr workers received].
  - rewrite length_alter. apply I.
  - rewrite todo_set. eapply writers_ok_set; [apply I|done|]. intros x. by right.
  - intros u [j Hj]%list_elem_of_lookup.
    apply list_lookup_insert_Some in Hj as [(_ & <- & _)|[Hne Hj]]; [done|].
    eapply (loaded_kept n R s i j _ u o I Hi Hj); [by apply not_eq_sym|left].
  - rewrite todo_set. cbn [ops]. rewrite <- (run_first n _ _ _ _ _ (pi_ok _ _ _ I) Ht). apply I.
  - pose proof (count_if_insert reported _ _ _ (mk_w None rest r) Hi). rewrite (pi_received _ _ _ I).
    cbn [reported] in *. lia.
  - intros u [j Hj]%list_elem_of_lookup Hr.
    apply list_lookup_insert_Some in Hj as [(_ & <- & _)|[_ Hj]].
    + by pose proof (pi_reported _ _ _ I _ (list_elem_of_lookup_2 _ _ _ Hi) Hr).
    + eapply (pi_reported _ _ _ I); [by eapply list_elem_of_lookup_2|done].
Qed.

(** A step of a worker that does not write. *)
Lemma same_ops_inv n R s i w w' c : pinv n R s -> workers s !! i = Some w -> ops w' = ops w ->
  loaded_ok (arr s) w' -> (reported w' = true -> ops w' = []) ->
  c = count_if reported (<[i := w']> (workers s)) -> pinv n R (mk_p (arr s) (<[i := w']> (workers s)) c).
Proof.
  intros I Hi Ho Hl Hr ->.
  assert (ops <$> <[i := w']> (workers s) = todo s) as Ht.
  { rewrite todo_set, Ho. apply list_insert_id. by apply todo_lookup. }
  split; unfold todo; cbn [arr workers received]; rewrite ?Ht; [apply I|apply I| |apply I|done|].
  - intros u [j Hj]%list_elem_of_lookup.
    apply list_lookup_insert_Some in Hj as [(_ & <- & _)|[_ Hj]]; [done|].
    eapply (pi_loaded _ _ _ I). by eapply list_elem_of_lookup_2.
  - intros u [j Hj]%list_elem_of_lookup.
    apply list_lookup_insert_Some in Hj as [(_ & <- & _)|[_ Hj]]; [done|].
    eapply (pi_reported _ _ _ I). by eapply list_elem_of_lookup_2.
Qed.

Lemma pstep_inv n R s s' : pinv n R s -> pstep s s' -> pinv n R s'.
Proof.
  intros I [i k a rest r Hi|i k f rest r a Hi Ha|i k f rest r a Hi|i Hi].
  - rewrite set_alter. by apply (write_inv n R s i None (set_cell k a)).
  - pose proof (count_if_insert reported _ _ _ (mk_w (Some a) (upd_cell k f :: rest) r) Hi) as Hc.
    cbn [reported] in Hc. eapply same_ops_inv; [done..| | |].
    + by exists k, f, rest.
    + eapply (pi_reported _ _ _ I (mk_w None (upd_cell k f :: rest) r)). by eapply list_elem_of_lookup_2.
    + rewrite (pi_received _ _ _ I). lia.
  - pose proof (pi_loaded _ _ _ I _ (list_elem_of_lookup_2 _ _ _ Hi)) as (k' & f' & rest' & E & Ha).
    cbn in E. simplify_eq. rewrite (store_alter _ _ _ _ Ha). by eapply (write_inv n R s i _ (upd_cell k' f')).
  - pose proof (count_if_insert reported _ _ _ (mk_w None [] true) Hi) as Hc.
    cbn [reported] in Hc. eapply same_ops_inv; [done..|]. rewrite (pi_received _ _ _ I). lia.
Qed.

Lemma start_pinv arr0 tasks : writers_ok (length arr0) tasks ->
  pinv (length arr0) (run_ops (concat tasks) arr0) (start arr0 tasks).
Proof.
  intros Hok. assert (todo (start arr0 tasks) = tasks) as Ht.
  { unfold todo. cbn. rewrite <- list_fmap_compose. apply list_fmap_id. }
  split; [done|by rewrite Ht| |by rewrite Ht| |].
  - by intros w (t & -> & _)%list_elem_of_fmap.
  - cbn. symmetry. apply count_if_0. by intros w (t & -> & _)%list_elem_of_fmap.
  - by intros w (t & -> & _)%list_elem_of_fmap.
Qed.

Lemma reach_pinv arr0 tasks s : writers_ok (length arr0) tasks -> rtc pstep (start arr0 tasks) s ->
  pinv (length arr0) (run_ops (concat tasks) arr0) s.
Proof. intros Hok%start_pinv R. induction R; eauto using pstep_inv. Qed.

(** ** What the main coroutine finds *)

Lemma pstep_length s s' : pstep s s' -> length (workers s') = length (workers s).
Proof. intros []; apply length_insert. Qed.

Lemma reach_length arr0 tasks s : rtc pstep (start arr0 tasks) s -> length (workers s) = length tasks.
Proof.
  intros R. transitivity (length (workers (start arr0 tasks))); [|apply length_fmap].
  induction R as [|s1 s2 s3 St _ IH]; [done|]. rewrite IH. by apply pstep_length.
Qed.

Lemma count_all {B} (f : B -> bool) (l : list B) : count_if f l = length l -> forall x, x ∈ l -> f x = true.
Proof.
  induction l as [|y l IH]; cbn; intros E x Hx; [by apply not_elem_of_nil in Hx|].
  pose proof (count_if_le f l). destruct (f y) eqn:Hy; [|lia].
  apply elem_of_cons in Hx as [->|Hx]; [done|]. apply IH; [lia|done].
Qed.

(** When all reports are in, the array is that of the sequential run. *)
Lemma par_result arr0 tasks s : writers_ok (length arr0) tasks -> rtc pstep (start arr0 tasks) s ->
  received s = length tasks -> arr s = run_ops (concat tasks) arr0.
Proof.
  intros Hok R Hr. pose proof (reach_pinv _ _ _ Hok R) as I. rewrite <- (pi_result _ _ _ I).
  assert (concat (todo s) = []) as ->; [|done].
  assert (forall p, p ∈ todo s -> p = []) as Hnil.
  { intros p (w & -> & Hw)%list_elem_of_fmap. eapply (pi_reported _ _ _ I w Hw).
    eapply (count_all reported (workers s)); [|done].
    by rewrite <- (pi_received _ _ _ I), Hr, (reach_length _ _ _ R). }
  induction (todo s) as [|p ps IH]; cbn; [done|].
  rewrite (Hnil p) by left. apply IH. intros q Hq. apply Hnil. by right.
Qed.

Definition weight (w : worker) : Z :=
  2 * Z.of_nat (length (ops w)) - (match loaded w with Some _ => 1 | None => 0 end) + (if reported w then 0 else 1).
Definition pweight (s : pstate) : Z := sumz weight (workers s).

Lemma pstep_weight s s' : pstep s s' -> pweight s' < pweight s.
Proof.
  intros [i k a rest r Hi|i k f rest r a Hi Ha|i k f rest r a Hi|i Hi]; unfold pweight, put_worker;
    cbn [workers]; rewrite (sumz_insert _ _ _ _ _ Hi); unfold weight; cbn [ops loaded reported length]; lia.
Qed.

Lemma weight_nonneg n R s : pinv n R s -> 0 <= pweight s.
Proof.
  intros I. assert (forall ws, (forall w, w ∈ ws -> 0 <= weight w) -> 0 <= sumz weight ws) as Hs.
  { induction ws as [|w ws IH]; cbn; intros Hw; [lia|].
    assert (0 <= weight w) by (apply Hw; left).
    assert (0 <= sumz weight ws) by (apply IH; intros u Hu; apply Hw; by right). lia. }
  apply Hs. intros w Hw. pose proof (pi_loaded _ _ _ I w Hw) as Hl. unfold loaded_ok in Hl. unfold weight.
  destruct (loaded w); [destruct Hl as (k & f & rest & -> & _); cbn [length]|]; destruct (reported w); lia.
Qed.

(** Until then somebody can go on. *)
Lemma par_progress arr0 tasks s : writers_ok (length arr0) tasks -> rtc pstep (start arr0 tasks) s ->
  received s <> length tasks -> exists s', pstep s s'.
Proof.
  intros Hok R Hr. pose proof (reach_pinv _ _ _ Hok R) as I.
  rewrite <- (reach_length _ _ _ R), (pi_received _ _ _ I) in Hr.
  assert (exists w, w ∈ workers s /\ reported w = false) as (w & [i Hi]%list_elem_of_lookup & Hw).
  { revert Hr. clear. generalize (workers s) as ws. induction ws as [|w ws IH]; cbn; [done|]. intros Hr.
    destruct (reported w) eqn:E; [|exists w; split; [left|done]].
    destruct IH as (u & Hu & Ew); [lia|]. exists u. split; [by right|done]. }
  pose proof (pi_loaded _ _ _ I w (list_elem_of_lookup_2 _ _ _ Hi)) as Hl.
  destruct w as [l os r]. cbn in Hw. subst r. unfold loaded_ok in Hl. cbn in Hl. destruct l as [a|].
  - destruct Hl as (k & f & rest & -> & _). eexists. by eapply ps_store.
  - destruct os as [|[k a|k f] rest]; [eexists; by eapply ps_report|eexists; by eapply ps_set|].
    destruct (lookup_lt_is_Some_2 (arr s) k) as [a Ha]; [|eexists; by eapply ps_load].
    rewrite (pi_length _ _ _ I). destruct (pi_ok _ _ _ I) as [_ Hb].
    eapply (Hb (upd_cell k f :: rest) (upd_cell k f)); [|left].
    eapply list_elem_of_lookup_2. by apply (todo_lookup _ i (mk_w None (upd_cell k f :: rest) false)).
Qed.

Lemma par_completes arr0 tasks s : writers_ok (length arr0) tasks -> rtc pstep (start arr0 tasks) s ->
  exists s', rtc pstep s s' /\ received s' = length tasks.
Proof.
  intros Hok. remember (Z.to_nat (pweight s)) as m eqn:Hm. revert s Hm.
  induction (lt_wf m) as [m _ IH]. intros s -> R.
  destruct (decide (received s = length tasks)) as [|Hr]; [by exists s; split; [apply rtc_refl|]|].
  destruct (par_progress _ _ _ Hok R Hr) as [s1 St].
  assert (rtc pstep (start arr0 tasks) s1) as R1 by (by eapply rtc_r).
  pose proof (pstep_weight _ _ St). pose proof (weight_nonneg _ _ _ (reach_pinv _ _ _ Hok R1)).
  destruct (IH (Z.to_nat (pweight s1))) with (s := s1) as (s' & R' & Hs'); [lia|done|done|].
  exists s'. split; [by eapply rtc_l|done].
Qed.

(** No write is out of bounds. *)
Lemma par_in_bounds arr0 tasks s w o : writers_ok (length arr0) tasks -> rtc pstep (start arr0 tasks) s ->
  w ∈ workers s -> o ∈ ops w -> (op_cell o < length (arr s))%nat.
Proof.
  intros Hok R Hw Ho. pose proof (reach_pinv _ _ _ Hok R) as I. rewrite (pi_length _ _ _ I).
  eapply (proj2 (pi_ok _ _ _ I)); [|done]. apply list_elem_of_fmap. eauto.
Qed.

(** ** Tasks that divide a range *)

(** No cell is written twice by different tasks if none is in all of them
    together. *)
Lemma writers_ok_concat n tasks : NoDup (op_cell <$> concat tasks) ->
  Forall (fun o => (op_cell o < n)%nat) (concat tasks) -> writers_ok n tasks.
Proof.
  intros Hnd Hb. split.
  - assert (forall i j p q, (i < j)%nat -> tasks !! i = Some p -> tasks !! j = Some q -> disjoint_ops p q) as Hlt.
    { clear Hb. induction tasks as [|t ts IH]; intros i j p q Hij Hp Hq; [done|].
      cbn in Hnd. rewrite fmap_app in Hnd. apply NoDup_app in Hnd as (_ & Hd & Hnd).
      destruct j as [|j]; [lia|]. cbn in Hq. destruct i as [|i]; cbn in Hp; [|by apply (IH Hnd i j); [lia|..]].
      simplify_eq. intros o o' Ho Ho' E. apply (Hd (op_cell o)); [by apply list_elem_of_fmap_2|].
      rewrite E. apply list_elem_of_fmap_2. apply list_elem_of_In, in_concat. exists q.
      split; apply list_elem_of_In; [by eapply list_elem_of_lookup_2|done]. }
    intros i j p q Hne Hp Hq. destruct (decide (i < j)%nat); [by eapply Hlt|].
    intros o o' Ho Ho' E. by eapply (Hlt j i q p); [lia|..].
  - intros p o Hp Ho. rewrite Forall_forall in Hb. apply Hb. apply list_elem_of_In, in_concat.
    exists p. split; by apply list_elem_of_In.
Qed.

Lemma fmap_concat {B C} (f : B -> C) (l : list (list B)) :
  f <$> concat l = concat ((fun x : list B => f <$> x) <$> l).
Proof. induction l as [|x l IH]; cbn; [done|]. by rewrite fmap_app, IH. Qed.

(** Parts of [size] elements, the last ones cut off at [n], are the whole. *)
Lemma parts_cover size n m :
  concat ((fun k => seq (size * k) (Nat.min (size * (k + 1)) n - size * k)) <$> seq 0 m) =
  seq 0 (Nat.min (size * m) n).
Proof.
  induction m as [|m IH]; [by rewrite Nat.mul_0_r|].
  rewrite seq_S, fmap_app, concat_app, IH. cbn. rewrite app_nil_r.
  destruct (decide (size * m <= n)%nat).
  - rewrite Nat.min_l by lia. rewrite <- seq_app. f_equal. nia.
  - rewrite !Nat.min_r by nia. replace (n - size * m)%nat with 0%nat by lia. cbn. by rewrite app_nil_r.
Qed.

(** Writing all cells in order. *)
Lemma run_sets (g : nat -> A) m l : (m <= length l)%nat ->
  run_ops ((fun i => set_cell i (g i)) <$> seq 0 m) l = (g <$> seq 0 m) ++ drop m l.
Proof.
  induction m as [|m IH]; intros Hm; [done|].
  rewrite seq_S, !fmap_app, run_ops_app, IH by lia. cbn.
  destruct (lookup_lt_is_Some_2 l m) as [x Hx]; [lia|].
  rewrite (drop_S l x m Hx). rewrite alter_app_r_alt by (rewrite length_fmap, length_seq; lia).
  rewrite length_fmap, length_seq, Nat.sub_diag. cbn. by rewrite <- app_assoc.
Qed.
End parallel.
Arguments cell_op : clear implicits.
Arguments worker : clear implicits.
Arguments pstate : clear implicits.
