(* ===== verification/Spectral.v ===== *)
(** * examples/C/spectral-norm.c

    The program multiplies vectors by a matrix and its transpose; the rows of a
    product are computed by NumCPU coroutines, which report on a channel without
    buffer.  Doubles are the IEEE 754 binary64 numbers of SpecFloat, rounded to
    nearest as C computes them, and the order of every sum is that of the code.
    The vectors U, V and T are separate blocks, so the vector read is never the
    one written. *)

From Stdlib Require Import SpecFloat.
From S2P Require Import Prelude Parallel.

(** ** Doubles *)

Definition double : Type := spec_float.
Definition d_add : double -> double -> double := SFadd 53 1024.
Definition d_mul : double -> double -> double := SFmul 53 1024.
Definition d_div : double -> double -> double := SFdiv 53 1024.
Definition d_sqrt : double -> double := SFsqrt 53 1024.
(** The conversion of an int. *)
Definition d_of_int (z : Z) : double := binary_normalize 53 1024 z 0 false.

(** ** The functions *)

Fixpoint dot_loop (v u : list double) (sum : double) : double :=
  match v, u with
  | x :: v, y :: u => dot_loop v u (d_add sum (d_mul x y))
  | _, _ => sum
  end.
Definition Dot (v u : list double) : double := dot_loop v u (d_of_int 0).

(** In ints, then converted. *)
Definition A (i j : Z) : double :=
  d_of_int (i32 (i32 (i32 (Z.quot (i32 (i32 (i + j) * i32 (i32 (i + j) + 1))) 2) + i) + 1)).

(** [for (j = 0; j < ul; j++) vi += _u[j] / (double)(a(j))] *)
Fixpoint row_loop (a : Z -> double) (j : Z) (u : list double) (vi : double) : double :=
  match u with
  | [] => vi
  | x :: u => row_loop a (i32 (j + 1)) u (d_add vi (d_div x (a j)))
  end.
Definition row_Atv (u : list double) (i : nat) : double :=
  row_loop (fun j => A j (Z.of_nat i)) 0 u (d_of_int 0).
Definition row_Av (u : list double) (i : nat) : double :=
  row_loop (fun j => A (Z.of_nat i) j) 0 u (d_of_int 0).

Section program.
Variables Num NumCPU : Z.

(** The rows of task [kk]. *)
Definition part_size : Z := Z.quot (i32 (i32 (Num + NumCPU) - 1)) NumCPU.
Definition part_start (kk : Z) : Z := i32 (part_size * kk).
Definition part_end (kk : Z) : Z :=
  let e := i32 (part_size * i32 (kk + 1)) in
  if Num <? e then Num else e.
Definition part (kk : Z) : list nat :=
  seq (Z.to_nat (part_start kk)) (Z.to_nat (part_end kk) - Z.to_nat (part_start kk)).

(** The writes to [_v]. *)
Definition task_Atv (u : list double) (kk : Z) : list (cell_op double) :=
  (fun i => set_cell i (row_Atv u i)) <$> part kk.
Definition task_Av (u : list double) (kk : Z) : list (cell_op double) :=
  (fun i => set_cell i (row_Av u i)) <$> part kk.

Definition tasks_of (task : list double -> Z -> list (cell_op double)) (u : list double)
  : list (list (cell_op double)) :=
  (fun k => task u (Z.of_nat k)) <$> seq 0 (Z.to_nat NumCPU).

(** [mult_Av] and [mult_Atv] return with the array [v'] once NumCPU reports
    have been received, whatever the coroutines did in which order. *)
Definition mult (task : list double -> Z -> list (cell_op double)) (v u v' : list double) : Prop :=
  exists s, rtc pstep (start v (tasks_of task u)) s /\
    received s = Z.to_nat NumCPU /\ arr s = v'.
Definition mult_Atv : list double -> list double -> list double -> Prop := mult task_Atv.
Definition mult_Av : list double -> list double -> list double -> Prop := mult task_Av.

(** [v] and [x] after the call. *)
Definition mult_AtAv (v u x v' x' : list double) : Prop := mult_Av x u x' /\ mult_Atv v x' v'.

(** The loop of [SpectralNorm]: [U], [V] and [T] before and after it. *)
Fixpoint norm_loop (k : nat) (U V T U' V' : list double) : Prop :=
  match k with
  | 0%nat => U' = U /\ V' = V
  | S k => exists V1 T1 U2 T2, mult_AtAv V U T V1 T1 /\ mult_AtAv U V1 T1 U2 T2 /\
                               norm_loop k U2 V1 T2 U' V'
  end.

(** [V] and [T] start with what malloc returned. *)
Definition SpectralNorm (r : double) : Prop :=
  exists V T U' V', length V = Z.to_nat Num /\ length T = Z.to_nat Num /\
    norm_loop 10 (replicate (Z.to_nat Num) (d_of_int 1)) V T U' V' /\
    r = d_sqrt (d_div (Dot U' V') (Dot V' V')).

(** ** The reference: one coroutine *)

Definition times_Atv (u : list double) : list double := row_Atv u <$> seq 0 (Z.to_nat Num).
Definition times_Av (u : list double) : list double := row_Av u <$> seq 0 (Z.to_nat Num).
Definition times_AtAv (u : list double) : list double := times_Atv (times_Av u).
Fixpoint norm_iter (k : nat) (U V : list double) : list double * list double :=
  match k with
  | 0%nat => (U, V)
  | S k => let V := times_AtAv U in norm_iter k (times_AtAv V) V
  end.
Definition spectral_norm : double :=
  let '(U, V) := norm_iter 10 (replicate (Z.to_nat Num) (d_of_int 1)) [] in
  d_sqrt (d_div (Dot U V) (Dot V V)).

(** ** The parts *)

Hypothesis HNum : 0 < Num.
Hypothesis HCPU : 0 < NumCPU.
Hypothesis Hfit : Num + NumCPU < 2 ^ 31.

Lemma part_size_spec : 0 < part_size /\ Num <= part_size * NumCPU <= Num + NumCPU - 1.
Proof.
  unfold part_size. rewrite !i32_small by (rewrite ?i32_small by lia; lia).
  pose proof (Z.quot_rem' (Num + NumCPU - 1) NumCPU).
  pose proof (Z.rem_bound_pos (Num + NumCPU - 1) NumCPU ltac:(lia) ltac:(lia)).
  assert (0 < Z.quot (Num + NumCPU - 1) NumCPU); nia.
Qed.

Lemma part_nat k : (Z.of_nat k < NumCPU) -> part (Z.of_nat k) =
  let size := Z.to_nat part_size in
  seq (size * k) (Nat.min (size * (k + 1)) (Z.to_nat Num) - size * k).
Proof.
  intros Hk. destruct part_size_spec as (Hp & Hs1 & Hs2). unfold part.
  assert (part_size * (Z.of_nat k + 1) <= Num + NumCPU - 1) by nia.
  assert (part_start (Z.of_nat k) = part_size * Z.of_nat k) as -> by (apply i32_small; nia).
  assert (part_end (Z.of_nat k) = Z.min (part_size * (Z.of_nat k + 1)) Num) as ->.
  { unfold part_end. rewrite (i32_small (Z.of_nat k + 1)) by lia. rewrite i32_small by nia.
    destruct (Z.ltb_spec Num (part_size * (Z.of_nat k + 1))); lia. }
  cbv zeta. assert (Z.to_nat (part_size * Z.of_nat k) = (Z.to_nat part_size * k)%nat) as -> by nia.
  f_equal. f_equal. nia.
Qed.

(** The parts are disjoint and make up all rows. *)
Lemma tasks_concat (row : nat -> double) (task : Z -> list (cell_op double)) :
  (forall kk, task kk = (fun i => set_cell i (row i)) <$> part kk) ->
  concat ((fun k => task (Z.of_nat k)) <$> seq 0 (Z.to_nat NumCPU)) =
  (fun i => set_cell i (row i)) <$> seq 0 (Z.to_nat Num).
Proof.
  intros Ht. destruct part_size_spec as (Hp & Hs1 & Hs2).
  assert (seq 0 (Z.to_nat Num) =
    concat ((fun k => seq (Z.to_nat part_size * k)
      (Nat.min (Z.to_nat part_size * (k + 1)) (Z.to_nat Num) - Z.to_nat part_size * k))
      <$> seq 0 (Z.to_nat NumCPU))) as ->.
  { rewrite parts_cover. f_equal. nia. }
  rewrite fmap_concat. f_equal. rewrite <- list_fmap_compose.
  apply list_fmap_ext. intros i k [-> Hk]%lookup_seq. cbn. rewrite Ht. f_equal.
  by rewrite part_nat by lia.
Qed.

Lemma mult_spec (row : list double -> nat -> double) task v u :
  (forall kk, task u kk = (fun i => set_cell i (row u i)) <$> part kk) ->
  length v = Z.to_nat Num ->
  mult task v u (row u <$> seq 0 (Z.to_nat Num)) /\
  forall v', mult task v u v' -> v' = row u <$> seq 0 (Z.to_nat Num).
Proof.
  intros Ht Hv. pose proof (tasks_concat (row u) (task u) Ht) as Hc.
  assert (length (tasks_of task u) = Z.to_nat NumCPU) as Hl by (unfold tasks_of; by rewrite length_fmap, length_seq).
  assert (writers_ok (length v) (tasks_of task u)) as Hok.
  { apply writers_ok_concat; unfold tasks_of; rewrite Hc.
    - rewrite <- list_fmap_compose. cbn. rewrite list_fmap_id. apply NoDup_seq.
    - apply Forall_fmap, Forall_forall. intros i Hi%elem_of_seq. cbn. lia. }
  assert (forall s, rtc pstep (start v (tasks_of task u)) s -> received s = Z.to_nat NumCPU ->
    arr s = row u <$> seq 0 (Z.to_nat Num)) as Hres.
  { intros s R Hr. rewrite <- Hl in Hr. rewrite (par_result _ _ _ Hok R Hr). unfold tasks_of. rewrite Hc.
    rewrite run_sets by lia. rewrite <- Hv, drop_all. apply app_nil_r. }
  split.
  - destruct (par_completes v (tasks_of task u) _ Hok (rtc_refl _ _)) as (s & R & Hr).
    rewrite Hl in Hr. exists s. auto.
  - intros v' (s & R & Hr & <-). auto.
Qed.

Lemma mult_Av_spec v u : length v = Z.to_nat Num ->
  mult_Av v u (times_Av u) /\ forall v', mult_Av v u v' -> v' = times_Av u.
Proof. by apply mult_spec. Qed.

Lemma mult_Atv_spec v u : length v = Z.to_nat Num ->
  mult_Atv v u (times_Atv u) /\ forall v', mult_Atv v u v' -> v' = times_Atv u.
Proof. by apply mult_spec. Qed.

Lemma mult_AtAv_spec v u x : length v = Z.to_nat Num -> length x = Z.to_nat Num ->
  mult_AtAv v u x (times_AtAv u) (times_Av u) /\
  forall v' x', mult_AtAv v u x v' x' -> v' = times_AtAv u /\ x' = times_Av u.
Proof.
  intros Hv Hx. destruct (mult_Av_spec x u Hx) as [E1 U1]. split.
  - split; [done|]. by apply mult_Atv_spec.
  - intros v' x' [->%U1 H2]. split; [|done]. by apply (mult_Atv_spec v (times_Av u) Hv).
Qed.

Lemma times_length u : length (times_Av u) = Z.to_nat Num /\ length (times_AtAv u) = Z.to_nat Num.
Proof. unfold times_AtAv, times_Atv, times_Av. by rewrite !length_fmap, !length_seq. Qed.

Lemma norm_loop_spec k : forall U V T, length U = Z.to_nat Num -> length V = Z.to_nat Num ->
  length T = Z.to_nat Num ->
  norm_loop k U V T (norm_iter k U V).1 (norm_iter k U V).2 /\
  forall U' V', norm_loop k U V T U' V' -> (U', V') = norm_iter k U V.
Proof.
  induction k as [|k IH]; intros U V T HU HV HT; [by cbn; naive_solver|].
  destruct (times_length U) as [HT1 HV1]. destruct (times_length (times_AtAv U)) as [HT2 HU2].
  destruct (mult_AtAv_spec V U T HV HT) as [E1 U1].
  destruct (mult_AtAv_spec U (times_AtAv U) (times_Av U) HU HT1) as [E2 U2].
  destruct (IH (times_AtAv (times_AtAv U)) (times_AtAv U) (times_Av (times_AtAv U))) as [E3 U3]; [done..|].
  split; cbn [norm_loop norm_iter].
  - by exists (times_AtAv U), (times_Av U), (times_AtAv (times_AtAv U)), (times_Av (times_AtAv U)).
  - intros U' V' (V1 & T1 & U4 & T2 & [-> ->]%U1 & [-> ->]%U2 & H3). by apply U3.
Qed.

Lemma norm_iter_V k U V V' : norm_iter (S k) U V = norm_iter (S k) U V'.
Proof. done. Qed.
End program.



(** The numerators of the program's matrix fit an int up to 23170 rows. *)
Lemma A_exact Num i j : 0 <= i < Num -> 0 <= j < Num -> Num <= 23170 ->
  A i j = d_of_int ((i + j) * (i + j + 1) / 2 + i + 1).
Proof.
  intros Hi Hj Hn. unfold A. rewrite (i32_small (i + j)) by lia. rewrite (i32_small (i + j + 1)) by lia.
  assert (0 <= (i + j) * (i + j + 1) < 2 ^ 31) by nia. rewrite (i32_small (_ * _)) by lia.
  rewrite Z.quot_div_nonneg by lia.
  assert (0 <= (i + j) * (i + j + 1) / 2 < 2 ^ 30).
  { split; [apply Z.div_pos; lia|]. apply Z.div_lt_upper_bound; lia. }
  set (q := (i + j) * (i + j + 1) / 2) in *. clearbody q.
  rewrite (i32_small q) by lia. rewrite (i32_small (q + i)) by lia. by rewrite (i32_small (q + i + 1)) by lia.
Qed.

(** What the program prints for Num = 2: sqrt(u.v / v.v), 1.183350177... *)
Example norm_of_two : spectral_norm 2 = S754_finite false 5329335414166852 (-52).
Proof. vm_compute. reflexivity. Qed.
