(* ===== verification/Mandelbrot.v ===== *)
(** * examples/C/mandelbrot.c

    One coroutine per row of the picture; a coroutine receives the number of its
    row from a channel and sets a bit for every point of the set.  Which
    coroutine gets which row does not matter, since they are alike, so here a
    coroutine is named by its row.  Doubles are those of Spectral. *)

From Stdlib Require Import SpecFloat.
From S2P Require Import Prelude Parallel Spectral.

Definition d_sub : double -> double -> double := SFsub 53 1024.
Definition LIMIT : double := d_of_int 2.
Definition ITER : nat := 50.

(** 1.5, which is exact. *)
Definition d_1_5 : double := d_div (d_of_int 3) (d_of_int 2).

(** The inner loop: [Tr] and [Ti] when it is left. *)
Fixpoint escape (i : nat) (Cr Ci Zr Zi Tr Ti : double) : double * double :=
  match i with
  | 0%nat => (Tr, Ti)
  | S i =>
      if SFleb (d_add Tr Ti) (d_mul LIMIT LIMIT) then
        let Zi := d_add (d_mul (d_mul (d_of_int 2) Zi) Zr) Ci in
        let Zr := d_add (d_sub Tr Ti) Cr in
        escape i Cr Ci Zr Zi (d_mul Zr Zr) (d_mul Zi Zi)
      else (Tr, Ti)
  end.

Section program.
Variable size : Z.                    (* [w] and [h] *)

Definition bytesPerRow : Z := Z.quot size 8.

(** The point of column [x] and row [y] gets a bit. *)
Definition point (x y : Z) : bool :=
  let Ci := d_sub (d_div (d_mul (d_of_int 2) (d_of_int y)) (d_of_int size)) (d_of_int 1) in
  let Cr := d_sub (d_div (d_mul (d_of_int 2) (d_of_int x)) (d_of_int size)) d_1_5 in
  let '(Tr, Ti) := escape ITER Cr Ci (d_of_int 0) (d_of_int 0) (d_of_int 0) (d_of_int 0) in
  SFleb (d_add Tr Ti) (d_mul LIMIT LIMIT).

(** [rows[offset + x / 8] |= (1 << (uint32_t)(7 - (x % 8)))] *)
Definition set_bit (x : Z) (b : Z) : Z := u8 (Z.lor b (Z.shiftl 1 (7 - Z.rem x 8))).
Definition cell_of (x y : Z) : nat := Z.to_nat (i32 (i32 (y * bytesPerRow) + Z.quot x 8)).

(** The writes of the coroutine that received [y]. *)
Definition renderRow (y : nat) : list (cell_op Z) :=
  (fun x => upd_cell (cell_of (Z.of_nat x) (Z.of_nat y)) (set_bit (Z.of_nat x)))
    <$> filter (fun x => point (Z.of_nat x) (Z.of_nat y) = true) (seq 0 (Z.to_nat size)).

Definition rows_init : list Z := replicate (Z.to_nat (i32 (bytesPerRow * size))) 0.

(** A run of the program up to [s]; the picture is complete when as many reports
    have been received as there are rows. *)
Definition render (s : pstate Z) : Prop := rtc pstep (start rows_init (renderRow <$> seq 0 (Z.to_nat size))) s.

(** ** Bits *)

Lemma set_bit_testbit x b n : 0 <= x -> 0 <= n < 8 ->
  Z.testbit (set_bit x b) n = Z.testbit b n || (n =? 7 - Z.rem x 8).
Proof.
  intros Hx Hn. pose proof (Z.rem_bound_pos x 8 Hx ltac:(lia)) as Hr. unfold set_bit, u8.
  rewrite Z.mod_pow2_bits_low by lia. rewrite Z.lor_spec, Z.shiftl_spec by lia. f_equal.
  destruct (Z.eqb_spec n (7 - Z.rem x 8)) as [->|Hne].
  - by rewrite Z.sub_diag.
  - destruct (decide (n < 7 - Z.rem x 8)).
    + apply Z.testbit_neg_r. lia.
    + rewrite Z.bits_above_log2; cbn; [done|lia|lia].
Qed.

(** A list of points, and the writes that set their bits. *)
Definition draw (ps : list (nat * nat)) : list (cell_op Z) :=
  (fun '(x, y) => upd_cell (cell_of (Z.of_nat x) (Z.of_nat y)) (set_bit (Z.of_nat x))) <$> ps.

Definition hits (c : nat) (n : Z) (p : nat * nat) : bool :=
  (cell_of (Z.of_nat p.1) (Z.of_nat p.2) =? c)%nat && (n =? 7 - Z.rem (Z.of_nat p.1) 8).

Lemma draw_bits ps l c b n : 0 <= n < 8 -> l !! c = Some b ->
  exists b', run_ops (draw ps) l !! c = Some b' /\ Z.testbit b' n = Z.testbit b n || existsb (hits c n) ps.
Proof.
  intros Hn. revert l b. induction ps as [|[x y] ps IH]; intros l b Hb.
  { exists b. by rewrite orb_false_r. }
  unfold draw. cbn [fmap list_fmap run_ops op_fun op_cell].
  destruct (decide (cell_of (Z.of_nat x) (Z.of_nat y) = c)) as [E|Hne].
  - destruct (IH (alter (set_bit (Z.of_nat x)) (cell_of (Z.of_nat x) (Z.of_nat y)) l) (set_bit (Z.of_nat x) b))
      as (b' & Eb & Hb'); [by rewrite E, list_lookup_alter_eq, Hb|].
    exists b'. split; [exact Eb|]. rewrite Hb', set_bit_testbit by lia. cbn [existsb]. unfold hits at 2. cbn [fst snd].
    rewrite E, Nat.eqb_refl. cbn. by rewrite orb_assoc.
  - destruct (IH (alter (set_bit (Z.of_nat x)) (cell_of (Z.of_nat x) (Z.of_nat y)) l) b)
      as (b' & Eb & Hb'); [by rewrite list_lookup_alter_ne|].
    exists b'. split; [exact Eb|]. rewrite Hb'. cbn [existsb]. unfold hits at 2. cbn [fst snd].
    by rewrite (proj2 (Nat.eqb_neq _ _) Hne).
Qed.

Definition row_points (y : nat) : list (nat * nat) :=
  (fun x => (x, y)) <$> filter (fun x => point (Z.of_nat x) (Z.of_nat y) = true) (seq 0 (Z.to_nat size)).
Definition all_points : list (nat * nat) := concat (row_points <$> seq 0 (Z.to_nat size)).

Lemma renderRow_draw y : renderRow y = draw (row_points y).
Proof. unfold renderRow, draw, row_points. by rewrite <- list_fmap_compose. Qed.

Lemma render_draw : concat (renderRow <$> seq 0 (Z.to_nat size)) = draw all_points.
Proof.
  unfold draw, all_points. rewrite fmap_concat. f_equal. rewrite <- list_fmap_compose.
  apply list_fmap_ext. intros i y _. apply renderRow_draw.
Qed.

Lemma elem_of_row x y y' : (x, y') ∈ row_points y <->
  y' = y /\ (x < Z.to_nat size)%nat /\ point (Z.of_nat x) (Z.of_nat y) = true.
Proof.
  unfold row_points. rewrite list_elem_of_fmap. setoid_rewrite list_elem_of_filter.
  setoid_rewrite elem_of_seq. naive_solver lia.
Qed.

Lemma elem_of_points x y : (x, y) ∈ all_points <->
  (x < Z.to_nat size)%nat /\ (y < Z.to_nat size)%nat /\ point (Z.of_nat x) (Z.of_nat y) = true.
Proof.
  unfold all_points. rewrite list_elem_of_In, in_concat. split.
  - intros (l & Hl & Hxy). apply list_elem_of_In in Hl, Hxy.
    apply list_elem_of_fmap in Hl as (y' & -> & [_ Hy]%elem_of_seq).
    apply elem_of_row in Hxy as (-> & Hx & Hp). auto.
  - intros (Hx & Hy & Hp). exists (row_points y). split; apply list_elem_of_In.
    + apply list_elem_of_fmap_2, elem_of_seq. lia.
    + by apply elem_of_row.
Qed.

(** ** Where the bits are *)

Hypothesis Hsize : 0 < size.
Hypothesis H8 : Z.rem size 8 = 0.
Hypothesis Hfit : size * bytesPerRow < 2 ^ 31.

Lemma bytes_spec : 0 < bytesPerRow /\ size = 8 * bytesPerRow.
Proof. unfold bytesPerRow. pose proof (Z.quot_rem' size 8). lia. Qed.

Lemma cell_spec x y : 0 <= x < size -> 0 <= y < size ->
  cell_of x y = Z.to_nat (y * bytesPerRow + x / 8) /\ 0 <= x / 8 < bytesPerRow.
Proof.
  intros Hx Hy. destruct bytes_spec as [Hb Hs].
  assert (0 <= x / 8 < bytesPerRow) as Hd.
  { split; [apply Z.div_pos; lia|]. apply Z.div_lt_upper_bound; lia. }
  split; [|done]. unfold cell_of. rewrite Z.quot_div_nonneg by lia.
  rewrite (i32_small (y * bytesPerRow)) by nia. by rewrite i32_small by nia.
Qed.

Lemma cell_row x y : 0 <= x < size -> 0 <= y < size ->
  y * bytesPerRow <= Z.of_nat (cell_of x y) < (y + 1) * bytesPerRow.
Proof. intros Hx Hy. destruct (cell_spec x y Hx Hy) as [-> Hd]. nia. Qed.

Lemma cell_same_row x y x' y' : 0 <= x < size -> 0 <= y < size -> 0 <= x' < size -> 0 <= y' < size ->
  cell_of x y = cell_of x' y' -> y = y'.
Proof.
  intros Hx Hy Hx' Hy' E. pose proof (cell_row x y Hx Hy). pose proof (cell_row x' y' Hx' Hy').
  rewrite E in *. destruct bytes_spec. nia.
Qed.

Lemma hits_self x y x' y' : 0 <= x < size -> 0 <= y < size ->
  (x' < Z.to_nat size)%nat -> (y' < Z.to_nat size)%nat ->
  hits (cell_of x y) (7 - Z.rem x 8) (x', y') = true -> Z.of_nat x' = x /\ Z.of_nat y' = y.
Proof.
  intros Hx Hy Hx' Hy' [Hc%Nat.eqb_eq Hb%Z.eqb_eq]%andb_true_iff. cbn [fst snd] in *.
  assert (Z.of_nat y' = y) as Ey by (eapply cell_same_row; [..|exact Hc]; lia).
  split; [|done]. pose proof (Z.div_mod x 8 ltac:(lia)). pose proof (Z.div_mod (Z.of_nat x') 8 ltac:(lia)).
  rewrite !Z.rem_mod_nonneg in Hb by lia.
  destruct (cell_spec x y Hx Hy) as [E1 D1]. destruct (cell_spec (Z.of_nat x') (Z.of_nat y')) as [E2 D2]; [lia..|].
  rewrite E1, E2, Ey in Hc. destruct bytes_spec. nia.
Qed.

Lemma rows_length : length rows_init = Z.to_nat (size * bytesPerRow).
Proof.
  unfold rows_init. rewrite length_replicate. destruct bytes_spec.
  rewrite i32_small by (rewrite Z.mul_comm; nia). by rewrite Z.mul_comm.
Qed.

Lemma rows_writers : writers_ok (length rows_init) (renderRow <$> seq 0 (Z.to_nat size)).
Proof.
  assert (forall y p o, (renderRow <$> seq 0 (Z.to_nat size)) !! y = Some p -> o ∈ p ->
    exists x, op_cell o = cell_of x (Z.of_nat y) /\ 0 <= x < size /\ 0 <= Z.of_nat y < size) as Hop.
  { intros y p o (y' & -> & [-> Hy]%lookup_seq)%list_lookup_fmap_Some Ho. cbn in Ho.
    unfold renderRow in Ho. apply list_elem_of_fmap in Ho as (x & -> & [_ Hx]%list_elem_of_filter).
    apply elem_of_seq in Hx. exists (Z.of_nat x). cbn. split_and!; [done|lia..]. }
  split.
  - intros i j p q Hne Hp Hq o o' Ho Ho' E.
    destruct (Hop i p o Hp Ho) as (x & E1 & Hx & Hi). destruct (Hop j q o' Hq Ho') as (x' & E2 & Hx' & Hj).
    rewrite E1, E2 in E. apply cell_same_row in E; [|done..]. lia.
  - intros p o [y Hy]%list_elem_of_lookup Ho. destruct (Hop y p o Hy Ho) as (x & -> & Hx & Hi).
    pose proof (cell_row x (Z.of_nat y) Hx Hi). rewrite rows_length. destruct bytes_spec. nia.
Qed.

(** The bit of a point in the complete picture. *)
Lemma picture_bit x y : 0 <= x < size -> 0 <= y < size ->
  exists b, run_ops (draw all_points) rows_init !! cell_of x y = Some b /\
    Z.testbit b (7 - Z.rem x 8) = point x y.
Proof.
  intros Hx Hy. pose proof (Z.rem_bound_pos x 8 ltac:(lia) ltac:(lia)) as Hr.
  assert (rows_init !! cell_of x y = Some 0) as H0.
  { unfold rows_init. apply lookup_replicate_2. pose proof rows_length as Hl. unfold rows_init in Hl.
    rewrite length_replicate in Hl. rewrite Hl. pose proof (cell_row x y Hx Hy). destruct bytes_spec. nia. }
  destruct (draw_bits all_points rows_init (cell_of x y) 0 (7 - Z.rem x 8) ltac:(lia) H0) as (b & Eb & Hb).
  exists b. split; [done|]. rewrite Hb, Z.bits_0. cbn [orb].
  apply eq_true_iff_eq. rewrite existsb_exists. split.
  - intros ([x' y'] & Hin & Hh). apply list_elem_of_In, elem_of_points in Hin as (Hx' & Hy' & Hp).
    destruct (hits_self x y x' y' Hx Hy Hx' Hy' Hh) as [<- <-]. done.
  - intros Hp. exists (Z.to_nat x, Z.to_nat y). split.
    + apply list_elem_of_In, elem_of_points. rewrite !Z2Nat.id by lia. split_and!; [lia|lia|done].
    + unfold hits. cbn [fst snd]. rewrite !Z2Nat.id by lia. by rewrite Nat.eqb_refl, Z.eqb_refl.
Qed.
End program.

(** The picture.  For sizes that are multiples of 8: whatever the order in
    which the coroutines run, no write is outside the array, they all come to
    report, and when as many reports as there are rows have been received the bit
    of every point is set exactly if the point is in the set. *)
Theorem mandelbrot_picture size : 0 < size -> Z.rem size 8 = 0 -> size * bytesPerRow size < 2 ^ 31 ->
  (forall s w o, render size s -> w ∈ workers s -> o ∈ ops w -> (op_cell o < length (arr s))%nat) /\
  (forall s, render size s -> exists s', rtc pstep s s' /\ received s' = Z.to_nat size) /\
  (forall s x y, render size s -> received s = Z.to_nat size -> 0 <= x < size -> 0 <= y < size ->
    exists b, arr s !! cell_of size x y = Some b /\ Z.testbit b (7 - Z.rem x 8) = point size x y).
Proof.
  intros Hs H8 Hf. pose proof (rows_writers size Hs H8 Hf) as Hok.
  assert (length (renderRow size <$> seq 0 (Z.to_nat size)) = Z.to_nat size) as Hl
    by (by rewrite length_fmap, length_seq).
  split_and!.
  - intros s w o R. by eapply par_in_bounds.
  - intros s R. rewrite <- Hl. by eapply par_completes.
  - intros s x y R Hr Hx Hy. rewrite <- Hl in Hr. rewrite (par_result _ _ _ Hok R Hr), render_draw.
    by apply picture_bit.
Qed.

Lemma mandelbrot_picture_witness :
  (forall s w o, render 8 s -> w ∈ workers s -> o ∈ ops w -> (op_cell o < length (arr s))%nat) /\
  (forall s, render 8 s -> exists s', rtc pstep s s' /\ received s' = Z.to_nat 8) /\
  (forall s x y, render 8 s -> received s = Z.to_nat 8 -> 0 <= x < 8 -> 0 <= y < 8 ->
    exists b, arr s !! cell_of 8 x y = Some b /\ Z.testbit b (7 - Z.rem x 8) = point 8 x y).
Proof. apply (mandelbrot_picture 8); [lia|reflexivity|vm_compute; reflexivity]. Defined.

(** The picture of size 8. *)
Example picture_of_eight :
  run_ops (concat (renderRow 8 <$> seq 0 8)) (rows_init 8) = [2; 0; 15; 47; 255; 47; 15; 0].
Proof. vm_compute. reflexivity. Qed.

(** Other sizes: with 4 the array is empty and yet written; with 12 a row runs
    into the next one. *)
Example size_four_overruns : rows_init 4 = [] /\ renderRow 4 2 <> [].
Proof. by split; vm_compute. Qed.

Example size_twelve_overlaps :
  (op_cell <$> renderRow 12 6) !! 8%nat = Some 7%nat /\ (op_cell <$> renderRow 12 7) !! 0%nat = Some 7%nat.
Proof. by split; vm_compute. Qed.
