(* ===== verification/Proxy.v ===== *)
(** * examples/C/tcpproxy.c

    For every connection it accepts, the proxy dials the server and starts two
    coroutines, one for each direction, that copy what they read until the end
    of the stream.  A direction is named by a bool: [false] reads from the
    client and writes to the server, [true] the other way round.

    The operating system is a table of descriptors and the connections they
    stand for; a connection is what can still be read from it and what was
    written to it.  Reads and writes can fail at any time, and further
    connections, with any free descriptor, can come in between. *)

From S2P Require Import Prelude.

(** A connection; [fin]: its output was shut down. *)
Record conn := mk_conn { input : list Z; output : list Z; fin : bool }.

(** Where a coroutine is in [rwtask]. *)
Inductive rwpc : Type :=
| at_read                  (* before coroc_net_read *)
| at_write (buf : list Z)  (* before coroc_net_write *)
| at_shutdown
| at_close
| finished.

#[export] Instance rwpc_eq_dec : EqDecision rwpc.
Proof. solve_decision. Defined.

(** [failed]: a read or a write of this coroutine failed (a ghost). *)
Record rwtask := mk_rw { rpc : rwpc; failed : bool }.

Record pstate := mk_px { open : gmap Z nat; conns : gmap nat conn; tasks : bool -> rwtask }.

Definition BUFSIZE : nat := 2048.

Definition set_task (d : bool) (t : rwtask) (ts : bool -> rwtask) : bool -> rwtask :=
  fun d' => if Bool.eqb d d' then t else ts d'.
Definition go (d : bool) (p : rwpc) (s : pstate) : pstate :=
  mk_px (open s) (conns s) (set_task d (mk_rw p (failed (tasks s d))) (tasks s)).
Definition go_failed (d : bool) (p : rwpc) (s : pstate) : pstate :=
  mk_px (open s) (conns s) (set_task d (mk_rw p true) (tasks s)).
Definition set_conn (e : nat) (c : conn) (s : pstate) : pstate :=
  mk_px (open s) (<[e := c]> (conns s)) (tasks s).

Section proxy.
Variables fd remotefd : Z.

(** The two arrays of [mkfd2]. *)
Definition rfd (d : bool) : Z := if d then remotefd else fd.
Definition wfd (d : bool) : Z := if d then fd else remotefd.

(** [rwtask] *)
Inductive rwstep (d : bool) (s : pstate) : pstate -> Prop :=
| rw_read e c buf rest : rpc (tasks s d) = at_read -> open s !! rfd d = Some e -> conns s !! e = Some c ->
    input c = buf ++ rest -> (0 < length buf <= BUFSIZE)%nat ->
    rwstep d s (go d (at_write buf) (set_conn e (mk_conn rest (output c) (fin c)) s))
| rw_eof e c : rpc (tasks s d) = at_read -> open s !! rfd d = Some e -> conns s !! e = Some c ->
    input c = [] -> rwstep d s (go d at_shutdown s)
| rw_read_error : rpc (tasks s d) = at_read -> rwstep d s (go_failed d at_shutdown s)
| rw_write buf e c : rpc (tasks s d) = at_write buf -> open s !! wfd d = Some e -> conns s !! e = Some c ->
    rwstep d s (go d at_read (set_conn e (mk_conn (input c) (output c ++ buf) (fin c)) s))
(* the result of coroc_net_write is not looked at *)
| rw_write_error buf : rpc (tasks s d) = at_write buf -> rwstep d s (go_failed d at_read s)
| rw_write_part buf k e c : rpc (tasks s d) = at_write buf -> open s !! wfd d = Some e -> conns s !! e = Some c ->
    rwstep d s (go_failed d at_read (set_conn e (mk_conn (input c) (output c ++ take k buf) (fin c)) s))
| rw_shutdown e c : rpc (tasks s d) = at_shutdown -> open s !! wfd d = Some e -> conns s !! e = Some c ->
    rwstep d s (go d at_close (set_conn e (mk_conn (input c) (output c) true) s))
| rw_shutdown_bad : rpc (tasks s d) = at_shutdown -> open s !! wfd d = None ->
    rwstep d s (go d at_close s)
| rw_close : rpc (tasks s d) = at_close ->
    rwstep d s (go d finished (mk_px (delete (rfd d) (open s)) (conns s) (tasks s))).

(** Other connections of the same process come, go and are used. *)
Inductive pstep (s : pstate) : pstate -> Prop :=
| ps_rw d s' : rwstep d s s' -> pstep s s'
| ps_accept f e c : open s !! f = None -> conns s !! e = None ->
    pstep s (mk_px (<[f := e]> (open s)) (<[e := c]> (conns s)) (tasks s))
| ps_other e c : (1 < e)%nat -> pstep s (set_conn e c s)
| ps_other_close f e : (1 < e)%nat -> open s !! f = Some e ->
    pstep s (mk_px (delete f (open s)) (conns s) (tasks s)).

(** What [proxy_task] does with the descriptor it was given: [None], if dialling
    failed, closes it; otherwise the two coroutines start. *)
Definition proxy_task (dialled : bool) (s : pstate) : pstate :=
  if dialled then mk_px (open s) (conns s) (fun _ => mk_rw at_read false)
  else mk_px (delete fd (open s)) (conns s) (tasks s).

(** A client with [in0] and a server with [in1] to send. *)
Definition connected (in0 in1 : list Z) : pstate :=
  mk_px {[fd := 0%nat; remotefd := 1%nat]} {[0%nat := mk_conn in0 [] false; 1%nat := mk_conn in1 [] false]}
    (fun _ => mk_rw finished false).
Definition start (in0 in1 : list Z) : pstate := proxy_task true (connected in0 in1).

(** ** The invariant *)

(** The connection a direction reads from. *)
Definition endpoint (d : bool) : nat := if d then 1%nat else 0%nat.
Definition pending (t : rwtask) : list Z := match rpc t with at_write buf => buf | _ => [] end.
Definition reading (t : rwtask) : bool := match rpc t with at_read | at_write _ => true | _ => false end.
Definition closing (t : rwtask) : bool := match rpc t with at_close | finished => true | _ => false end.

(** One direction, reading [c] and writing [c']; [t] is its coroutine, [u] that
    of the other direction, which closes the descriptor of [c']. *)
Record flow (sent : list Z) (t u : rwtask) (c c' : conn) : Prop := {
  (* as long as the other side is open, nothing is lost, doubled or reordered *)
  fl_copied : failed t = false -> rpc u <> finished -> output c' ++ pending t ++ input c = sent;
  fl_all : failed t = false -> reading t = false -> input c = [];
  (* the end of the stream is passed on after all of it *)
  fl_fin : fin c' = true -> closing t = true /\ (failed t = false -> output c' = sent)
}.

Record open_inv (s : pstate) : Prop := {
  oi_open d : open s !! rfd d = Some (endpoint d) <-> rpc (tasks s d) <> finished;
  oi_unique d f : open s !! f = Some (endpoint d) -> f = rfd d
}.

Definition conns_are (cs : bool -> conn) (s : pstate) : Prop :=
  forall d, conns s !! endpoint d = Some (cs d).

Definition pinv (sent : bool -> list Z) (s : pstate) : Prop :=
  open_inv s /\ exists cs, conns_are cs s /\
    forall d, flow (sent d) (tasks s d) (tasks s (negb d)) (cs d) (cs (negb d)).

Hypothesis Hne : fd <> remotefd.

Lemma rfd_ne d : rfd d <> rfd (negb d).
Proof. destruct d; cbn; congruence. Qed.
Lemma wfd_rfd d : wfd d = rfd (negb d).
Proof. by destruct d. Qed.
Lemma endpoint_ne d : endpoint d <> endpoint (negb d).
Proof. by destruct d. Qed.
Lemma endpoint_le d : (endpoint d <= 1)%nat.
Proof. destruct d; cbn; lia. Qed.
Lemma set_task_eq d t ts : set_task d t ts d = t.
Proof. unfold set_task. by rewrite eqb_reflx. Qed.
Lemma set_task_other d t ts : set_task d t ts (negb d) = ts (negb d).
Proof. by destruct d. Qed.

Definition set_cs (d : bool) (c : conn) (cs : bool -> conn) : bool -> conn :=
  fun d' => if Bool.eqb d d' then c else cs d'.

Lemma bool_cases (P : bool -> Prop) d : P d -> P (negb d) -> forall d', P d'.
Proof. intros H1 H2 []; by destruct d. Qed.

(** A step of the coroutine of direction [d] that closes nothing. *)
Lemma pinv_task sent s d t' cs cd cn cm : open_inv s -> rpc (tasks s d) <> finished -> rpc t' <> finished ->
  (forall d', cm !! endpoint d' = Some (if Bool.eqb d d' then cd else cn)) ->
  conns_are cs s ->
  flow (sent d) t' (tasks s (negb d)) cd cn ->
  flow (sent (negb d)) (tasks s (negb d)) t' cn cd ->
  pinv sent (mk_px (open s) cm (set_task d t' (tasks s))).
Proof.
  intros [Ho Hu] Hr Hr' Hm Hcs F1 F2. split.
  - split; cbn [open tasks]; [|done]. apply (bool_cases _ d).
    + rewrite set_task_eq, Ho. tauto.
    + rewrite set_task_other. apply Ho.
  - exists (fun d' => if Bool.eqb d d' then cd else cn). split; [done|]. cbn [tasks].
    apply (bool_cases _ d); rewrite ?negb_involutive, ?set_task_eq, ?set_task_other, ?eqb_reflx.
    + by destruct d.
    + by destruct d.
Qed.

Lemma write_target s d e : open_inv s -> open s !! wfd d = Some e ->
  (e = endpoint (negb d) /\ rpc (tasks s (negb d)) <> finished) \/
  ((1 < e)%nat /\ rpc (tasks s (negb d)) = finished).
Proof.
  intros O He. rewrite wfd_rfd in He. destruct (decide (rpc (tasks s (negb d)) = finished)) as [Hf|Hf].
  - right. split; [|done]. destruct (decide (1 < e)%nat) as [|Hle]; [done|]. exfalso.
    assert (e <> endpoint (negb d)) as H1 by (intros ->; by apply (oi_open _ O) in He).
    assert (e <> endpoint d) as H2.
    { intros ->. apply (oi_unique _ O) in He. by apply (rfd_ne d). }
    destruct d; cbn in *; lia.
  - left. split; [|done]. apply (oi_open _ O) in Hf. congruence.
Qed.

Lemma conns_other s cs d e c : conns_are cs s -> (1 < e)%nat ->
  forall d', <[e := c]> (conns s) !! endpoint d' = Some (if Bool.eqb d d' then cs d else cs (negb d)).
Proof.
  intros Hcs He d'. pose proof (endpoint_le d'). rewrite lookup_insert_ne by lia. rewrite Hcs.
  by destruct d, d'.
Qed.

Lemma conns_same s cs d : conns_are cs s ->
  forall d', conns s !! endpoint d' = Some (if Bool.eqb d d' then cs d else cs (negb d)).
Proof. intros Hcs d'. rewrite Hcs. by destruct d, d'. Qed.

Lemma conns_own s cs d c : conns_are cs s ->
  forall d', <[endpoint d := c]> (conns s) !! endpoint d' = Some (if Bool.eqb d d' then c else cs (negb d)).
Proof.
  intros Hcs. apply (bool_cases _ d).
  - by rewrite lookup_insert_eq, eqb_reflx.
  - rewrite lookup_insert_ne by apply endpoint_ne. rewrite Hcs. by destruct d.
Qed.

Lemma conns_peer s cs d c : conns_are cs s ->
  forall d', <[endpoint (negb d) := c]> (conns s) !! endpoint d' = Some (if Bool.eqb d d' then cs d else c).
Proof.
  intros Hcs. apply (bool_cases _ d).
  - rewrite lookup_insert_ne by (apply not_eq_sym, endpoint_ne). by rewrite Hcs, eqb_reflx.
  - rewrite lookup_insert_eq. by destruct d.
Qed.

(** How the state of the coroutine enters [flow] of the other direction: only
    by whether it is finished. *)
Lemma flow_peer sent t u u' c c' : flow sent t u c c' -> rpc u <> finished -> flow sent t u' c c'.
Proof. intros [H1 H2 H3] Hu. split; [|done..]. intros Hf _. by apply H1. Qed.

(** Failing makes fewer promises. *)
Lemma flow_failed sent t u c c' p : flow sent t u c c' -> closing t = false -> p = at_read \/ p = at_shutdown ->
  forall o, flow sent (mk_rw p true) u c (mk_conn (input c') o (fin c')).
Proof. intros [H1 H2 H3] Hc Hp o. split; [done..|]. cbn. intros Hf. apply H3 in Hf as [? _]. congruence. Qed.

Ltac no_fin H := let Hf := fresh in intros Hf; apply (fl_fin _ _ _ _ _ H) in Hf as [? _]; congruence.

Lemma flow_read sent t u c c' buf rest : flow sent t u c c' -> rpc t = at_read -> input c = buf ++ rest ->
  flow sent (mk_rw (at_write buf) (failed t)) u (mk_conn rest (output c) (fin c)) c'.
Proof.
  intros F E Ei. assert (closing t = false) as Hc by (unfold closing; by rewrite E). split; cbn; [|done|no_fin F].
  intros Hf Hu. pose proof (fl_copied _ _ _ _ _ F Hf Hu) as H. unfold pending in H. by rewrite E, Ei in H.
Qed.

Lemma flow_eof sent t u c c' : flow sent t u c c' -> rpc t = at_read -> input c = [] ->
  flow sent (mk_rw at_shutdown (failed t)) u c c'.
Proof.
  intros F E Ei. assert (closing t = false) as Hc by (unfold closing; by rewrite E). split; cbn; [|done|no_fin F].
  intros Hf Hu. pose proof (fl_copied _ _ _ _ _ F Hf Hu) as H. unfold pending in H. by rewrite E in H.
Qed.

Lemma flow_write sent t u c c' buf : flow sent t u c c' -> rpc t = at_write buf -> 
  flow sent (mk_rw at_read (failed t)) u c (mk_conn (input c') (output c' ++ buf) (fin c')).
Proof.
  intros F E. assert (closing t = false) as Hc by (unfold closing; by rewrite E). split; cbn; [|done|no_fin F].
  intros Hf Hu. pose proof (fl_copied _ _ _ _ _ F Hf Hu) as H. unfold pending in H. rewrite E in H.
  by rewrite <- app_assoc.
Qed.

(** Writing to what has become another connection. *)
Lemma flow_astray sent t u c c' buf : flow sent t u c c' -> rpc t = at_write buf -> rpc u = finished ->
  flow sent (mk_rw at_read (failed t)) u c c'.
Proof.
  intros F E Hu. assert (closing t = false) as Hc by (unfold closing; by rewrite E). split; cbn; [|done|no_fin F].
  by intros Hf [].
Qed.

Lemma flow_shutdown sent t u c c' b : flow sent t u c c' -> rpc t = at_shutdown ->
  (b = true -> rpc u <> finished) ->
  flow sent (mk_rw at_close (failed t)) u c (mk_conn (input c') (output c') (b || fin c')).
Proof.
  intros F E Hb. assert (closing t = false) as Hc by (unfold closing; by rewrite E).
  assert (failed t = false -> rpc u <> finished -> output c' = sent /\ input c = []) as Hall.
  { intros Hf Hu. assert (input c = []) as Hi by (apply F; [done|unfold reading; by rewrite E]).
    pose proof (fl_copied _ _ _ _ _ F Hf Hu) as H. unfold pending in H. rewrite E, Hi in H.
    cbn in H. by rewrite app_nil_r in H. }
  split; cbn.
  - intros Hf Hu. destruct (Hall Hf Hu) as [-> ->]. apply app_nil_r.
  - intros Hf _. apply F; [done|]. unfold reading. by rewrite E.
  - intros [Hbt|Hfin]%orb_true_iff; [|revert Hfin; no_fin F]. split; [done|].
    intros Hf. by apply Hall; [|apply Hb].
Qed.

(** The peer's connection is written, or its output shut down. *)
Lemma flow_input sent t u c c' o f : flow sent t u c c' -> flow sent t u (mk_conn (input c) o f) c'.
Proof. intros [H1 H2 H3]. by split. Qed.

Lemma flow_output sent t u c c' i : flow sent t u c c' -> flow sent t u c (mk_conn i (output c') (fin c')).
Proof. intros [H1 H2 H3]. by split. Qed.

Lemma conn_eta c : c = mk_conn (input c) (output c) (fin c).
Proof. by destruct c. Qed.

Lemma rwstep_inv sent s d s' : pinv sent s -> rwstep d s s' -> rpc (tasks s d) <> at_close -> pinv sent s'.
Proof.
  intros (O & cs & Hcs & F) St Hcl. pose proof (F d) as F1. pose proof (F (negb d)) as F2.
  rewrite negb_involutive in F2. assert (rpc (tasks s d) <> finished) as Hnf by (destruct St; congruence).
  assert (forall u', flow (sent (negb d)) (tasks s (negb d)) u' (cs (negb d)) (cs d)) as F2'
    by (intros u'; by eapply flow_peer).
  pose proof (conns_same s cs d Hcs) as Hsame.
  assert (forall e c, open s !! rfd d = Some e -> conns s !! e = Some c -> e = endpoint d /\ c = cs d) as Hown.
  { intros e c He Hc. apply (oi_open _ O) in Hnf. rewrite He in Hnf. simplify_eq.
    pose proof (Hcs d). split; congruence. }
  destruct St as [e c buf rest E He Hc Hi Hb|e c E He Hc Hi|E|buf e c E He Hc|buf E|buf k e c E He Hc
                 |e c E He Hc|E He|E]; [..|done].
  - destruct (Hown e c He Hc) as [-> ->].
    eapply (pinv_task sent s d _ cs _ _ _ O Hnf); [done|by apply conns_own|exact Hcs|by apply flow_read|by apply flow_output].
  - destruct (Hown e c He Hc) as [-> ->]. eapply (pinv_task sent s d _ cs _ _ _ O Hnf); [done|exact Hsame|exact Hcs|by apply flow_eof|done].
  - eapply (pinv_task sent s d _ cs _ _ _ O Hnf); [done|exact Hsame|exact Hcs| |done]. rewrite (conn_eta (cs (negb d))).
    eapply flow_failed; [done|unfold closing; by rewrite E|by right].
  - destruct (write_target s d e O He) as [[-> Hu]|[Hlt Hu]].
    + rewrite (Hcs (negb d)) in Hc. simplify_eq.
      eapply (pinv_task sent s d _ cs _ _ _ O Hnf); [done|by apply conns_peer|exact Hcs|by apply flow_write|by apply flow_input].
    + eapply (pinv_task sent s d _ cs _ _ _ O Hnf); [done|by apply conns_other|exact Hcs|by eapply flow_astray|done].
  - eapply (pinv_task sent s d _ cs _ _ _ O Hnf); [done|exact Hsame|exact Hcs| |done]. rewrite (conn_eta (cs (negb d))).
    eapply flow_failed; [done|unfold closing; by rewrite E|by left].
  - destruct (write_target s d e O He) as [[-> Hu]|[Hlt Hu]].
    + rewrite (Hcs (negb d)) in Hc. simplify_eq.
      eapply (pinv_task sent s d _ cs _ _ _ O Hnf); [done|by apply conns_peer|exact Hcs| |by apply flow_input].
      eapply flow_failed; [done|unfold closing; by rewrite E|by left].
    + eapply (pinv_task sent s d _ cs _ _ _ O Hnf); [done|by apply conns_other|exact Hcs| |done]. rewrite (conn_eta (cs (negb d))).
      eapply flow_failed; [done|unfold closing; by rewrite E|by left].
  - destruct (write_target s d e O He) as [[-> Hu]|[Hlt Hu]].
    + rewrite (Hcs (negb d)) in Hc. simplify_eq.
      eapply (pinv_task sent s d _ cs _ _ _ O Hnf); [done|by apply conns_peer|exact Hcs| |by apply flow_input].
      by apply (flow_shutdown _ _ _ _ _ true).
    + eapply (pinv_task sent s d _ cs _ _ _ O Hnf); [done|by apply conns_other|exact Hcs| |done]. rewrite (conn_eta (cs (negb d))).
      by apply (flow_shutdown _ _ _ _ _ false).
  - eapply (pinv_task sent s d _ cs _ _ _ O Hnf); [done|exact Hsame|exact Hcs| |done]. rewrite (conn_eta (cs (negb d))).
    by apply (flow_shutdown _ _ _ _ _ false).
Qed.

Lemma flow_finished sent t u c c' : flow sent t u c c' -> rpc t = at_close ->
  flow sent (mk_rw finished (failed t)) u c c'.
Proof.
  intros F E. split; cbn.
  - intros Hf Hu. pose proof (fl_copied _ _ _ _ _ F Hf Hu) as H. unfold pending in H. by rewrite E in H.
  - intros Hf _. apply F; [done|]. unfold reading. by rewrite E.
  - intros Hf. split; [done|]. by apply F.
Qed.

Lemma close_inv sent s d : pinv sent s -> rpc (tasks s d) = at_close ->
  pinv sent (go d finished (mk_px (delete (rfd d) (open s)) (conns s) (tasks s))).
Proof.
  intros (O & cs & Hcs & F) E. split.
  - split; cbn [go open tasks].
    + apply (bool_cases _ d).
      * rewrite lookup_delete_eq, set_task_eq. by split.
      * rewrite lookup_delete_ne by apply rfd_ne. rewrite set_task_other. apply O.
    + intros d' f [_ H]%lookup_delete_Some. by eapply (oi_unique _ O).
  - exists cs. split; [done|]. cbn [go tasks]. apply (bool_cases _ d).
    + rewrite set_task_eq, set_task_other. by apply flow_finished.
    + rewrite negb_involutive, set_task_eq, set_task_other. pose proof (F (negb d)) as F2.
      rewrite negb_involutive in F2. eapply flow_peer; [done|]. by rewrite E.
Qed.

Lemma proxy_step_inv sent s s' : pinv sent s -> pstep s s' -> pinv sent s'.
Proof.
  intros I St. destruct St as [d s' St|f e c Hf He|e c He|f e He Hf].
  - destruct (decide (rpc (tasks s d) = at_close)) as [E|E]; [|by eapply rwstep_inv].
    destruct St; try congruence. by apply close_inv.
  - destruct I as (O & cs & Hcs & F).
    assert (forall d, e <> endpoint d) as Hd by (intros d ->; by rewrite Hcs in He).
    split; [split; cbn|exists cs; split; [|done]].
    + intros d. rewrite <- (oi_open _ O d). destruct (decide (f = rfd d)) as [->|Hn].
      * rewrite lookup_insert_eq, Hf. split; [intros [= ->]; by destruct (Hd d)|done].
      * by rewrite lookup_insert_ne.
    + intros d g [[_ ->]|[_ H]]%lookup_insert_Some; [by destruct (Hd d)|]. by eapply (oi_unique _ O).
    + intros d. cbn. rewrite lookup_insert_ne by apply Hd. apply Hcs.
  - destruct I as (O & cs & Hcs & F). split; [by destruct O|]. exists cs. split; [|done].
    intros d. cbn. pose proof (endpoint_le d). rewrite lookup_insert_ne by lia. apply Hcs.
  - destruct I as (O & cs & Hcs & F). split; [|by exists cs].
    assert (forall d, f <> rfd d \/ open s !! rfd d <> Some (endpoint d)) as Hd.
    { intros d. destruct (decide (f = rfd d)) as [->|]; [right|by left]. pose proof (endpoint_le d). congruence || (rewrite Hf; intros [= ->]; lia). }
    split; cbn.
    + intros d. rewrite <- (oi_open _ O d). destruct (decide (f = rfd d)) as [->|Hn].
      * rewrite lookup_delete_eq. split; [done|]. intros H. by destruct (Hd d) as [[]|[]].
      * by rewrite lookup_delete_ne.
    + intros d g [_ H]%lookup_delete_Some. by eapply (oi_unique _ O).
Qed.

Lemma proxy_start_inv in0 in1 : pinv (fun d : bool => if d then in1 else in0) (start in0 in1).
Proof.
  split; [split; cbn|].
  - intros []; cbn.
    + by rewrite lookup_insert_ne, lookup_singleton_eq.
    + by rewrite lookup_insert_eq.
  - intros [] f; cbn; intros [[<- ?]|[_ [<- ?]%lookup_singleton_Some]]%lookup_insert_Some; done.
  - exists (fun d : bool => if d then mk_conn in1 [] false else mk_conn in0 [] false). split.
    + by intros [].
    + intros []; by split.
Qed.
End proxy.

Section runs.
Variables (fd remotefd : Z) (in0 in1 : list Z).
Hypothesis Hne : fd <> remotefd.
Definition sent (d : bool) : list Z := if d then in1 else in0.

Lemma proxy_reach_inv s : rtc (pstep fd remotefd) (start fd remotefd in0 in1) s -> pinv fd remotefd sent s.
Proof. generalize (proxy_start_inv fd remotefd Hne in0 in1). induction 2; eauto using proxy_step_inv. Qed.
End runs.

(** The proxy copies.  Whatever the order of the two coroutines, of errors and
    of other connections: a coroutine has the descriptor it reads from open until
    it closes it itself, exactly once, so none leaks and none is closed twice; as
    long as no read or write of a direction failed and the other coroutine has
    not closed its end, what was written, what is in the buffer and what is still
    to be read are together the stream, in order; and the end of the stream is
    passed on only when all of it has been. *)
Theorem proxy_copies fd remotefd in0 in1 s d : fd <> remotefd ->
  rtc (pstep fd remotefd) (start fd remotefd in0 in1) s ->
  (open s !! rfd fd remotefd d = Some (endpoint d) <-> rpc (tasks s d) <> finished) /\
  (forall f, open s !! f = Some (endpoint d) -> f = rfd fd remotefd d) /\
  exists c c', conns s !! endpoint d = Some c /\ conns s !! endpoint (negb d) = Some c' /\
    (failed (tasks s d) = false -> rpc (tasks s (negb d)) <> finished ->
      output c' ++ pending (tasks s d) ++ input c = sent in0 in1 d) /\
    (fin c' = true -> failed (tasks s d) = false -> output c' = sent in0 in1 d).
Proof.
  intros Hne R. destruct (proxy_reach_inv fd remotefd in0 in1 Hne s R) as (O & cs & Hcs & F).
  split; [apply O|]. split; [intros f; apply (oi_unique _ _ _ O)|].
  exists (cs d), (cs (negb d)). split_and!; [apply Hcs|apply Hcs|apply F|]. intros Hf. by apply F.
Qed.

(** The client sends [1] and shuts its side down; the coroutine that read it
    closes the client's descriptor, and the answer of the server has nowhere to
    go ... *)
Definition request_only : pstate := start 5 6 [1] [2; 3].

Definition half_closed : pstate :=
  go true (at_write [2; 3]) (set_conn 1 (mk_conn [] [1] true)
    (go false finished (mk_px {[6 := 1%nat]} {[0%nat := mk_conn [] [] false; 1%nat := mk_conn [2; 3] [1] true]}
       (fun _ => mk_rw at_read false)))).

(** The descriptor table, the connections and the coroutines, to compare states. *)
Definition view (s : pstate) := (open s, conns s, tasks s false, tasks s true).

Lemma half_closed_reachable : exists s, rtc (pstep 5 6) request_only s /\ view s = view half_closed.
Proof.
  eexists. split; [|].
  - eapply rtc_l; [apply (ps_rw _ _ _ false), (rw_read _ _ _ _ 0%nat (mk_conn [1] [] false) [1] []); [done..|cbn; unfold BUFSIZE; lia]|].
    eapply rtc_l; [by apply (ps_rw _ _ _ false), (rw_write _ _ _ _ [1] 1%nat (mk_conn [2; 3] [] false))|].
    eapply rtc_l; [by apply (ps_rw _ _ _ false), (rw_eof _ _ _ _ 0%nat (mk_conn [] [] false))|].
    eapply rtc_l; [by apply (ps_rw _ _ _ false), (rw_shutdown _ _ _ _ 1%nat (mk_conn [2; 3] [1] false))|].
    eapply rtc_l; [by apply (ps_rw _ _ _ false), rw_close|].
    eapply rtc_l; [apply (ps_rw _ _ _ true), (rw_read _ _ _ _ 1%nat (mk_conn [2; 3] [1] true) [2; 3] []); [done..|cbn; unfold BUFSIZE; lia]|].
    apply rtc_refl.
  - reflexivity.
Qed.

Example answer_has_no_way_back : open half_closed !! wfd 5 6 true = None /\
  pending (tasks half_closed true) = [2; 3].
Proof. done. Qed.

(** ... or, when a new connection got the number, goes to another client. *)
Example answer_goes_astray : exists s, rtc (pstep 5 6) (mk_px (<[5 := 2%nat]> (open half_closed))
    (<[2%nat := mk_conn [] [] false]> (conns half_closed)) (tasks half_closed)) s /\
  conns s !! 2%nat = Some (mk_conn [] [2; 3] false).
Proof.
  eexists. split.
  - eapply rtc_l; [by apply (ps_rw _ _ _ true), (rw_write _ _ _ _ [2; 3] 2%nat (mk_conn [] [] false))|]. apply rtc_refl.
  - reflexivity.
Qed.

Lemma proxy_copies_witness : exists s, view s = view half_closed /\
  exists c c', conns s !! 0%nat = Some c /\ conns s !! 1%nat = Some c' /\ output c' = [1].
Proof.
  destruct half_closed_reachable as (s & R & V). exists s. split; [done|].
  destruct (proxy_copies 5 6 [1] [2; 3] s false ltac:(lia) R) as (_ & _ & c & c' & Hc & Hc' & _ & Hfin).
  exists c, c'. split_and!; [done..|]. apply Hfin.
  - assert (conns s = conns half_closed) as E by (unfold view in V; congruence).
    rewrite E in Hc'. vm_compute in Hc'. by simplify_eq.
  - assert (tasks s false = tasks half_closed false) as -> by (unfold view in V; congruence). done.
Defined.
