(* ===== verification/Public.v ===== *)
(** * The operations of the language (include/libcoroc.h, include/inter/channel.h)

    The compiler of the CoroC language turns channel operations into macros that
    call the functions of Channel.v and reduce their result to a bool; the macros
    with SendExpr put the value into a variable of their own first.  Here is
    what that bool means, and that a set for a select fits the block that is
    allocated for it. *)

From S2P Require Import Prelude Queue Channel ChannelProps ChannelInv ChannelOps.

Section public.
Context {S : Type} `{SchedLaws S}.
Implicit Types (w : chworld S) (ch : chan) (A : gmap (chid * dir) (list qid)) (pc : coid -> cpc).
Variable self : coid.

(** [!= CHAN_CLOSED] of the blocking forms, [== CHAN_SUCCESS] of the others. *)
Definition succeeded (block : bool) (code : Z) : bool :=
  if block then negb (code =? CHAN_CLOSED) else code =? CHAN_SUCCESS.

(** [None]: the coroutine is suspended in the call. *)
Definition to_bool (block : bool) (r : outcome) : option bool :=
  match r with
  | Done code => Some (succeeded block code)
  | Blocks => None
  end.

(** [__CoroC_Chan_Send] and [__CoroC_Chan_Send_NB] *)
Definition __CoroC_Chan_Send (q : qid) (c : chid) (p : option ptr) (block : bool) : ST (chworld S) (option bool) :=
  let! r := _coroc_chan_send self q c p block in
  ret (to_bool block r).

(** [__CoroC_Chan_Recv] and [__CoroC_Chan_Recv_NB] *)
Definition __CoroC_Chan_Recv (own : chid) (q : qid) (c : option chid) (p : option ptr) (block : bool)
  : ST (chworld S) (option bool) :=
  let! r := _coroc_chan_recv self q own c p block in
  ret (to_bool block r).

(** [__CoroC_Chan_SendExpr] and [__CoroC_Chan_SendExpr_NB]: [__temp] is at [tmp]
    in the frame of the caller. *)
Definition __CoroC_Chan_SendExpr (q : qid) (c : chid) (tmp : ptr) (v : list Z) (block : bool)
  : ST (chworld S) (option bool) :=
  do! modify (fun w => set_cmem (<[tmp := v]> (cmem w)) w) in
  __CoroC_Chan_Send q c (Some tmp) block.

(** The rest of a call that was suspended. *)
Definition chan_macro_resume (q : qid) (c : chid) : ST (chworld S) (option bool) :=
  let! code := chan_op_resume q c in
  ret (Some (succeeded true code)).

(** The element reached a receiver or the buffer. *)
Definition handed_over w A c ch els (l : list qid) (s : ptr) (x : list Z) w' : Prop :=
  (exists l1 qr qd l2, l = l1 ++ qr :: l2 /\ no_waiter w l1 /\ fresh w qr qd /\
     cmem w' = mem_copy (q_itembuf qd) (Some s) (elemsize ch) (cmem w)) \/
  (exists ch', chans w' !! c = Some ch' /\ same_meta ch ch' /\ chan_rep ch' (els ++ [x])).

(** A send without blocking says [true] exactly when the element was handed over;
    when it says [false], channels and memory are as before. *)
Theorem send_tells w A pc q c ch els l ls s bytes :
  ch_inv w A pc [] -> pc self = C_run -> sc_running (sch w) self ->
  chans w !! c = Some ch -> chan_rep ch els ->
  A !! (c, recv_que) = Some l -> A !! (c, send_que) = Some ls ->
  cmem w !! s = Some bytes -> elemsize ch <= Z.of_nat (length bytes) ->
  exists b w' A', __CoroC_Chan_Send q c (Some s) false w = Ok (Some b, w') /\
    ch_inv w' A' pc [] /\ sc_running (sch w') self /\
    if b then handed_over w A c ch els l s (take (Z.to_nat (elemsize ch)) bytes) w'
    else chans w' = chans w /\ cmem w' = cmem w.
Proof.
  intros I Hpc Hrun Hc Hrep Hl Hls Hs Hsb.
  destruct (send_ok self w A pc q c ch els l ls s bytes false) as (r & w' & A' & E & Ha & Heff); [done..|].
  assert (forall code, r = Done code -> __CoroC_Chan_Send q c (Some s) false w = Ok (Some (code =? CHAN_SUCCESS), w'))
    as Hrun'.
  { intros code ->. unfold __CoroC_Chan_Send. by rewrite (bind_ok _ _ _ _ _ E). }
  destruct Heff as [(l1 & qr & qd & l2 & -> & Hno & Hfr & -> & Hch & HA & Hm & Hw)|(Hno & Hm & Heff)].
  - exists true, w', A'. destruct Ha. split_and!; [by apply (Hrun' CHAN_SUCCESS)|done..|].
    left. by exists l1, qr, qd, l2.
  - destruct (close ch); [|destruct (buffered ch && (nbuf ch <? bufsize ch))].
    + destruct Heff as (-> & Hch & _). destruct Ha.
      exists false, w', A'. by split_and!; [apply (Hrun' CHAN_CLOSED)|..].
    + destruct Heff as (-> & _ & ch' & Hch & Hmeta & Hrep'). destruct Ha.
      exists true, w', A'. split_and!; [by apply (Hrun' CHAN_SUCCESS)|done..|].
      right. exists ch'. by rewrite Hch, lookup_insert_eq.
    + destruct Heff as (-> & Hch & _). destruct Ha.
      exists false, w', A'. by split_and!; [apply (Hrun' CHAN_BUSY)|..].
Qed.

(** The same of a value computed on the spot: what is handed over is the value. *)
Lemma send_expr_is_send q c tmp v block w :
  __CoroC_Chan_SendExpr q c tmp v block w =
  __CoroC_Chan_Send q c (Some tmp) block (set_cmem (<[tmp := v]> (cmem w)) w).
Proof. done. Qed.

(** A blocking call that was suspended says [false] only if the channel was closed. *)
Lemma resume_tells q c w qd ch :
  quanta w !! q = Some qd -> chans w !! c = Some ch -> clock ch = false ->
  exists w', chan_macro_resume q c w = Ok (Some (negb (q_close qd)), w').
Proof.
  intros Hq Hc Hk. unfold chan_macro_resume, chan_op_resume, block_resume, lock_acquire, lock_release, get_quantum,
    upd_chan, get_chan. run_st. rewrite Hc. run_st. rewrite Hk. run_st. rewrite Hc. run_st. rewrite Hq. run_st.
  rewrite lookup_insert_eq. run_st. rewrite lookup_insert_eq. run_st. eexists. by destruct (q_close qd).
Qed.
End public.

(** ** The block of a set *)

Module SetLayout.

(** The sizes of an LP64 platform: the header, a case and a pointer to a lock. *)
Definition sizeof_set : Z := 24.
Definition sizeof_scase : Z := 24.
Definition sizeof_lock_t : Z := 8.

Definition CHAN_SET_SIZE (n : Z) : Z := u64 (sizeof_set + u64 (u64 n * (sizeof_scase + sizeof_lock_t))).

(** [coroc_chan_set_allocate]: the bytes asked for, and what
    [coroc_chan_set_init] makes of them: where [cases] and [locks] are. *)
Definition coroc_chan_set_allocate (n : Z) : Z * Z * Z :=
  (CHAN_SET_SIZE n, sizeof_set, sizeof_set + n * sizeof_scase).

(** For every number of cases an int can hold, each case and each lock lies in
    the block, and they do not overlap. *)
Theorem set_fits n i j : 0 <= i < n -> 0 <= j < n -> n < 2 ^ 31 ->
  let '(size, cases, locks) := coroc_chan_set_allocate n in
  sizeof_set <= cases + i * sizeof_scase /\ cases + (i + 1) * sizeof_scase <= locks + j * sizeof_lock_t /\
  locks + (j + 1) * sizeof_lock_t <= size.
Proof.
  intros Hi Hj Hn. unfold coroc_chan_set_allocate, CHAN_SET_SIZE, sizeof_set, sizeof_scase, sizeof_lock_t.
  rewrite (u64_small n) by lia. rewrite (u64_small (n * _)) by lia. rewrite u64_small by lia. lia.
Qed.

(** A negative number asks for almost all of memory. *)
Example negative_set : CHAN_SET_SIZE (-1) = 2 ^ 64 - 8.
Proof. reflexivity. Qed.
End SetLayout.
