(* ===== verification/IdleLink.v ===== *)
(** * The two models of sleeping and waking agree (src/vpu.c)

    Scheduler has [vpu_ready] and the idle branch of [core_sched] as functions on
    the whole state of the scheduler, one call at a time; IdleConc has their
    accesses to the manager as steps that interleave.  Here: whenever such a
    function returns, the steps of IdleConc, run without anything in between, take
    the counters of the manager to the same values, end at the place that
    corresponds to the result, and signal the condition variable as often. *)

From S2P Require Import Prelude Queue RunQueue Scheduler SchedInv SchedProps Coroutine System IdleConc.

(** ** Computations that leave the manager alone *)

Class KeepsMgr {A} (c : ST world A) : Prop :=
  keeps_mgr w a w' : c w = Ok (a, w') ->
    Scheduler.mgr w' = Scheduler.mgr w /\ Scheduler.signals w' = Scheduler.signals w.

Section keeps.
Context {A B : Type}.

#[export] Instance keeps_ret (a : A) : KeepsMgr (ret a).
Proof. by intros w b w' [= _ <-]. Qed.
#[export] Instance keeps_throw f : KeepsMgr (@throw world A f).
Proof. by intros w b w'. Qed.
#[export] Instance keeps_bind (c : ST world A) (k : A -> ST world B) :
  KeepsMgr c -> (forall a, KeepsMgr (k a)) -> KeepsMgr (bind c k).
Proof.
  intros Hc Hk w b w' (a & w1 & [E1 E2]%Hc & [E3 E4]%Hk)%bind_inv. split; congruence.
Qed.
#[export] Instance keeps_demand f (o : option A) : KeepsMgr (demand f o).
Proof. intros w b w'. unfold demand. destruct o; [by intros [= _ <-]|done]. Qed.
#[export] Instance keeps_if (b : bool) (c d : ST world A) : KeepsMgr c -> KeepsMgr d -> KeepsMgr (if b then c else d).
Proof. by destruct b. Qed.
#[export] Instance keeps_match (o : option B) (c : B -> ST world A) (d : ST world A) :
  (forall x, KeepsMgr (c x)) -> KeepsMgr d -> KeepsMgr (match o with Some x => c x | None => d end).
Proof. by destruct o. Qed.
#[export] Instance keeps_links (c : ST (qstore link mqueue coid) A) : KeepsMgr (on_links c).
Proof.
  intros w b w'. unfold on_links, zoom. destruct (c (links w)) as [[? ?]|]; [by intros [= _ <-]|done].
Qed.
#[export] Instance keeps_pq v p (c : ST (p_task_que coid) A) : KeepsMgr (on_pq v p c).
Proof.
  intros w b w'. unfold on_pq. repeat case_match; try done. by intros [= _ <-].
Qed.
End keeps.

#[export] Instance keeps_assert b : KeepsMgr (assert_ b).
Proof. unfold assert_. apply _. Qed.
#[export] Instance keeps_get_co c : KeepsMgr (get_co c).
Proof. intros w b w'. unfold get_co. case_match; [by intros [= _ <-]|done]. Qed.
#[export] Instance keeps_upd_co c f : KeepsMgr (upd_co c f).
Proof. intros w b w'. unfold upd_co. case_match; [|done]. by intros [= _ <-]. Qed.
#[export] Instance keeps_get_mgr : KeepsMgr get_mgr.
Proof. by intros w b w' [= _ <-]. Qed.
#[export] Instance keeps_link_tasks ts : KeepsMgr (link_tasks ts).
Proof. induction ts as [|a [|b ts] IH]; cbn; apply _. Qed.
#[export] Instance keeps_all_tasks ts : KeepsMgr (all_tasks ts).
Proof. induction ts as [|a ts IH]; cbn; apply _. Qed.
#[export] Instance keeps_putslow v p t h l : KeepsMgr (__runqputslow v p t h l).
Proof. unfold __runqputslow. apply _. Qed.
#[export] Instance keeps_runqput fuel v p t : KeepsMgr (__runqput fuel v p t).
Proof. induction fuel as [|fuel IH]; cbn; apply _. Qed.
#[export] Instance keeps_backtrace_all fuel v : KeepsMgr (backtrace_all fuel v).
Proof. induction fuel as [|fuel IH]; cbn; apply _. Qed.
#[export] Instance keeps_backtrace fuel v : KeepsMgr (vpu_backtrace fuel v).
Proof. unfold vpu_backtrace. apply _. Qed.

(** ** The counters both models have *)

(** [q]: the number of queued tasks, which these operations do not look at. *)
Definition counters (q : Z) (w : world) : imgr :=
  let m := Scheduler.mgr w in
  mk_imgr (Scheduler.alive m) (Scheduler.idle m) (Scheduler.total_ready m) (Scheduler.total_iowait m) q false.

Definition nvpus (w : world) : Z := Scheduler.xt_index (Scheduler.mgr w).

(** Undisturbed steps of [vpu_ready] after the task was queued: the manager, the
    place, and the signals so far. *)
Inductive ready_run (n : Z) : imgr * option rpc * Z -> imgr * option rpc * Z -> Prop :=
| rr_next m r m' r' k : ready_next n m r = Some (m', r') -> ready_run n (m, Some r, k) (m', r', k)
| rr_signal m k : ready_run n (m, Some r_signal, k) (m, Some r_unlock, k + 1).

(** Undisturbed steps of a VPU. *)
Inductive idle_run (n : Z) : imgr * vpc -> imgr * vpc -> Prop :=
| ir_step m p m' p' : idle_step n m p m' p' -> idle_run n (m, p) (m', p').

Lemma wakeup_run q w w' : vpu_wakeup_one w = Ok (tt, w') ->
  rtc (ready_run (nvpus w)) (counters q w, Some r_lock, Scheduler.signals w)
      (counters q w', None, Scheduler.signals w').
Proof.
  unfold vpu_wakeup_one, get_mgr, bind. set (m := Scheduler.mgr w). intros E.
  eapply rtc_l; [by apply rr_next|]. eapply rtc_l; [by apply rr_next|]. cbn [IdleConc.alive set_locked counters].
  fold m. assert (rtc (ready_run (nvpus w)) (set_locked true (counters q w), Some r_unlock, Scheduler.signals w)
    (counters q w, None, Scheduler.signals w)) as Hun by (apply rtc_once; by apply rr_next).
  assert (rtc (ready_run (nvpus w)) (set_locked true (counters q w), Some r_signal, Scheduler.signals w)
    (counters q w, None, Scheduler.signals w + 1)) as Hsig.
  { eapply rtc_l; [apply rr_signal|]. apply rtc_once. by apply rr_next. }
  unfold nvpus in *. fold m in Hun, Hsig |- *.
  destruct (Scheduler.alive m =? 0) eqn:Ea; cbn [orb] in E; [by injection E as <-|].
  destruct (Scheduler.alive m <? Scheduler.xt_index m) eqn:En; cbn [andb] in E; [|by injection E as <-].
  eapply rtc_l; [by apply rr_next|]. cbn [IdleConc.idle set_locked counters]. fold m.
  destruct (Scheduler.idle m =? 0) eqn:Ei; cbn [andb] in E; [|by injection E as <-].
  eapply rtc_l; [by apply rr_next|]. cbn [IdleConc.alive IdleConc.total_ready set_locked counters]. fold m.
  rewrite Z.shiftl_mul_pow2 by lia. rewrite Z.mul_comm. change (2 ^ 1) with 2.
  destruct (2 * Scheduler.alive m <? Scheduler.total_ready m); by injection E as <-.
Qed.

(** [ready_enqueue] counts as the first steps do. *)
Lemma enqueue_counts q me c w co w' : ready_enqueue me c w = Ok (co, w') ->
  nvpus w' = nvpus w /\ Scheduler.signals w' = Scheduler.signals w /\
  rtc (ready_run (nvpus w))
    (counters q w, Some (r_inc (negb (async_wait co =? 0))), Scheduler.signals w)
    (counters q w', Some r_lock, Scheduler.signals w).
Proof.
  unfold ready_enqueue. intros E.
  apply bind_inv in E as (co1 & w1 & [M1 S1]%keeps_mgr & E).
  apply bind_inv in E as ([] & w2 & [M2 S2]%keeps_mgr & E).
  apply bind_inv in E as ([] & w3 & [M3 S3]%keeps_mgr & E).
  apply bind_inv in E as ([] & w4 & Ew4 & E).
  assert (Scheduler.mgr w4 = Scheduler.mgr w3 /\ Scheduler.signals w4 = Scheduler.signals w3) as [M4 S4].
  { destruct me; revert Ew4; apply keeps_mgr. }
  apply bind_inv in E as ([] & w5 & [= <-] & E).
  apply bind_inv in E as ([] & w6 & E6 & E).
  unfold upd_ready in E6. destruct (_ !! _) as [rd|] in E6; [|done]. injection E6 as <-.
  assert (Scheduler.mgr w4 = Scheduler.mgr w) as M by congruence.
  assert (Scheduler.signals w4 = Scheduler.signals w) as Sg by congruence.
  apply bind_inv in E as ([] & w7 & E7 & [= <- <-]).
  set (m := Scheduler.mgr w) in *. unfold nvpus, counters. fold m.
  destruct (async_wait co1 =? 0) eqn:Ea; injection E7 as <-; cbn; rewrite ?M, ?Sg.
  - split_and!; [done..|]. apply rtc_once. by apply rr_next.
  - split_and!; [done..|]. eapply rtc_l; [by apply rr_next|]. apply rtc_once. by apply rr_next.
Qed.

(** ** The idle branch *)

Definition place_of (a : idle_action) (loops : Z) : vpc :=
  match a with
  | idle_retry => v_scan loops
  | idle_sleep => v_blocked
  | idle_poll => v_poll
  | idle_backtrace | idle_again => v_scan 0
  end.

Ltac istep c := eapply rtc_l; [apply ir_step, c|].

Lemma idle_branch_run netpoll_size fuel v q k w a k' w' :
  sched_idle netpoll_size fuel v k w = Ok ((a, k'), w') ->
  rtc (idle_run (nvpus w)) (counters q w, v_scan k) (counters q w', place_of a k').
Proof.
  unfold sched_idle. change Scheduler.MAX_SPIN_LOOP_NUM with MAX_SPIN_LOOP_NUM. intros E.
  istep (iv_none (nvpus w) (counters q w) k).
  destruct (MAX_SPIN_LOOP_NUM <? k + 1); [|injection E as <- <- <-; apply rtc_refl].
  istep (iv_lock (nvpus w) (counters q w)); [done|]. istep iv_dec. cbn zeta.
  apply bind_inv in E as ([] & w1 & [= <-] & E).
  apply bind_inv in E as (m1 & w2 & [= <- <-] & E).
  unfold counters in *. cbn in E |- *. set (m := Scheduler.mgr w) in *.
  set (al := u16 (Scheduler.alive m - 1)) in *.
  destruct (0 <? al) eqn:Eal; cbn [orb] in E.
  { apply bind_inv in E as ([] & w3 & [= <-] & [= <- <- <-]). istep iv_idle_dec. istep iv_cond. apply rtc_refl. }
  istep iv_ready0. cbn. destruct (Scheduler.total_ready m =? 0) eqn:Et; cbn [andb] in E.
  - istep iv_iowait. cbn. destruct (0 <? Scheduler.total_iowait m) eqn:Ew; cbn [andb] in E.
    { apply bind_inv in E as ([] & w3 & [= <-] & [= <- <- <-]). istep iv_idle_dec. istep iv_cond. apply rtc_refl. }
    istep iv_ready1. cbn. rewrite Et. apply bind_inv in E as (w3 & w4 & [= <- <-] & E).
    set (w1 := set_mgr _ w) in *. eapply rtc_l; [apply ir_step, (iv_net _ _ (netpoll_size w1))|].
    destruct (0 <? netpoll_size w1).
    + apply bind_inv in E as ([] & w3 & [= <-] & [= <- <- <-]).
      istep iv_alive. istep iv_unlock. apply rtc_refl.
    + apply bind_inv in E as ([] & w3 & [M _]%keeps_mgr & E).
      apply bind_inv in E as ([] & w4 & [= <-] & [= <- <- <-]).
      istep iv_backtrace. istep iv_alive. istep iv_unlock. cbn. rewrite M. apply rtc_refl.
  - istep iv_ready1. cbn. rewrite Et. apply bind_inv in E as ([] & w3 & [= <-] & [= <- <- <-]).
    istep iv_alive. istep iv_unlock. apply rtc_refl.
Qed.


(** The first of two VPUs that find nothing goes to sleep. *)
Definition first_sleeps : world := set_mgr (Scheduler.set_idle 0 (Scheduler.set_alive 1 (Scheduler.mgr boot2)))
  boot2.


(** The rest of the way of a VPU: it enters [core_sched], it takes a task, it is
    woken. *)
Lemma enter_run q v w w' : sched_enter v w = Ok (tt, w') ->
  rtc (idle_run (nvpus w)) (counters q w, v_enter) (counters q w', v_scan 0).
Proof.
  unfold sched_enter. intros E. apply bind_inv in E as ([] & w1 & [= <-] & E).
  assert (Scheduler.mgr w' = Scheduler.set_idle (u16 (Scheduler.idle (Scheduler.mgr w) + 1)) (Scheduler.mgr w)) as M.
  { unfold upd_vpu in E. cbn in E. destruct (_ !! v) in E; [|done]. by injection E as <-. }
  apply rtc_once. unfold counters. rewrite M. apply ir_step, iv_enter.
Qed.

Lemma awake_run q w w' : sched_awake w = Ok (tt, w') ->
  rtc (idle_run (nvpus w)) (counters q w, v_woken) (counters q w', v_scan 0).
Proof.
  unfold sched_awake. intros E. apply bind_inv in E as ([] & w1 & [= <-] & [= <-]).
  eapply rtc_l; [by apply ir_step, iv_woken|]. istep iv_idle_inc. istep iv_alive. istep iv_unlock. apply rtc_refl.
Qed.
